(* ===== verification/_CoqProject ===== *)
-Q . S2P
Prelude.v
Js.v
JsString.v
JsMap.v
JsonText.v
MapSum.v
Errors.v
Safe.v
Codec.v
Validation.v
CanonicalStream.v
Store.v
SpaceCommits.v
Uri.v
SpaceId.v
SpaceRoutes.v
AppSpaceAuth.v
CapabilityManager.v
DoNames.v
Http.v
World.v
UsageInv.v
RefInv.v
RootInv.v
NodeLease.v
NodeLeaseD1.v
Described.v
NodeLeaseSafe.v
Gc.v
WorldInv.v
LeaseInv.v
GcInv.v
RootRefs.v
RootBody.v
RootSafe.v
RootCanon.v
AuditReads.v
AuditSafe.v
DomainDo.v
NodeRead.v
NodeReadSafe.v
SpaceDo.v
SpaceSafe.v
SpaceActor.v
AppGc.v
AppGcSafe.v
BlobIndex.v
FileManifest.v
NodeContent.v
HttpClient.v
BrowserCache.v
BrowserCacheSafe.v
BlobClient.v
BlobSafe.v
FileClient.v
FileTree.v
FileSafe.v
MemStore.v
ControlStore.v
AccountBatches.v
InvitationBatches.v
ControlWorld.v
ControlValidation.v
AccountRepo.v
Account.v
PlatformInvitations.v
EmailChallenge.v
ControlInv.v
ControlRuns.v
ControlCommands.v
ControlSafe.v
ControlHistory.v
CredentialSafe.v
AppSafe.v
InvitationSafe.v
ChallengeSafe.v
ExpireLoop.v
ControlExample.v
Witnesses.v
