(* ===== verification/Prelude.v ===== *)
(** * A verification of the UniCAS service

    UniCAS stores immutable nodes under the hash of their content. A node has a
    content type, a content and an ordered list of child hashes; the nodes of an App
    live in Spaces. Clients upload nodes under leases, root them by counted Root
    References, and whatever is neither leased nor referenced is collected. This
    development models the Space service and the libraries it is made of, TypeScript
    under [packages/], and proves what it promises. The names of definitions are
    those of the code; each file says which source file it models.

    ** How the program is put together

    A public request reaches the service actor, which matches its address,
    authorizes its capability, and forwards it to the Durable Object of one Space.
    That object decodes the request and runs a kernel (lease, read, collection, Root
    Refs, usage) against the D1 database and the R2 bucket; Root Ref commands are
    forwarded to the Durable Object of the App, which commits them one by one.

    Beside the service, the client packages: a blob client cuts large contents into
    chunks under a tree of index nodes, and a file client keeps a tree of files in
    memory and commits it as a manifest node.

    Above the Spaces is the control plane, a second D1 database of accounts, the
    identities that sign in to them, Apps with their members and issuers, invitations
    and audit events. Its services check who acts, then commit one batch whose first
    statements repeat the checks, so that what happens between the two is caught.

    - Platform and language: [Prelude] (results, a state and error monad, lists and
      options), [Js], [JsString], [JsMap], [JsonText], [Uri] (numbers and their safe range,
      strings, UTF-8, maps and sorting, JSON texts, base64, percent coding), [MapSum] (aggregates of
      tables), [Errors] (the exception classes), [Safe] (a logic for computations
      that keep an invariant and never lose a stable fact).
    - Node format, [packages/codec]: [Codec] (binary.ts, digest.ts), [Validation]
      (validation.ts), [CanonicalStream] (canonical-stream.ts).
    - State: [Store] (service-cloudflare/schema.ts: tables, constraints, triggers),
      [World] (database, bucket, clock and schedule), [SpaceCommits] (the
      transactions other components commit meanwhile), [DoNames].
    - Invariants of the state: [UsageInv] (the usage projection is exact), [RefInv]
      (the reference graph balances and is acyclic), [RootInv] (the Root Ref ledger
      replays), [Described] (rows tell the truth about bytes), [WorldInv].
    - Kernels and their adapters: [NodeLease], [NodeLeaseD1], [NodeLeaseSafe],
      [LeaseInv] (node-lease.ts of service and of service-cloudflare); [Gc], [GcInv]
      (gc.ts, node-gc.ts); [RootRefs], [RootBody], [RootCanon], [RootSafe]
      (root-refs.ts, root-cutover.ts); [AuditReads], [AuditSafe] (audit-reads.ts);
      [NodeRead], [NodeReadSafe] (node-read.ts, node-usage.ts).
    - Actors: [DomainDo] (domain-do.ts), [SpaceDo] (space-do.ts, nodes.ts,
      r2-upload-presigner.ts), [SpaceSafe] (the service as a whole).
    - Edge of the service: [Http] (space-protocol/http.ts), [SpaceId] (space-id.ts),
      [SpaceRoutes] (routes.ts, space-capability.ts), [AppSpaceAuth]
      (app-space-auth.ts), [SpaceActor] (actor.ts), [AppGc], [AppGcSafe] (app-gc.ts,
      app-usage.ts and their adapters).
    - Client packages: [BlobIndex] (blob-index.ts, with the library for
      CBOR as a class), [CapabilityManager] (capability.ts, transport.ts), [HttpClient]
      (client.ts), [BrowserCache], [BrowserCacheSafe] (cache-core.ts and index.ts of
      space-browser-cache), [NodeContent] (node-content.ts and the interface of the node
      client), [BlobClient], [BlobSafe] (blob-client.ts); [FileManifest]
      (file-manifest.ts), [FileClient], [FileTree], [FileSafe] (file-client.ts).
    - Control plane: [ControlStore] (control-schema.ts: tables, keys, checks,
      references, statements and batches), [AccountBatches] and [InvitationBatches]
      (the batches of account-repository.ts, platform-invitation-repository.ts and
      email-challenge-repository.ts), [ControlWorld] (the commands of the plane, its
      database with clock, randomness and schedule), [ControlValidation]
      (control-validation.ts, control-ids.ts, control-cursor.ts, authentication.ts,
      control-possession.ts, oauth-discovery.ts), [AccountRepo] (the rest of
      account-repository.ts), [Account] (account.ts), [PlatformInvitations]
      (platform-invitations.ts), [EmailChallenge] (email-challenge.ts). Its theory:
      [ControlInv] (the invariant, and what never goes back), [ControlRuns] (a logic
      for batches), [ControlCommands] (every command keeps them), [ControlSafe],
      [ControlHistory] (so does every call and every history),
      [CredentialSafe], [AppSafe], [InvitationSafe], [ChallengeSafe],
      [ExpireLoop] (what the operations promise), [ControlExample].
    - [Witnesses], [MemStore]: a concrete service, and a Space
      and a catalog in memory, on which every theorem with hypotheses is applied.

    ** How the code is modelled

    A computation is a function from a state to a result (a value or an exception)
    and a state, in the monad [M] of [Prelude]; the order of effects is that of the
    code. Kernels run against type classes with the methods of the source's
    repository interfaces; an adapter is an instance whose methods are statements on
    the database and calls of the bucket. A table is a finite map from its primary
    key to its row; a statement yields the new database or [None] when a constraint
    aborts it, and a batch is all or nothing. Every external call consults the
    schedule of the world ([World.v]): it is served, refused before its effect, or
    loses its response after it; meanwhile time passes, clients upload, another
    worker observes usage, and Root Ref commits of other Spaces are applied. The
    theorems hold for every schedule, so they hold under every failure of a call and
    every such interleaving. Requests interleave at the granularity of requests
    ([SpaceSafe.history]), as a Space's object runs them.

    Calls of the control plane run against [ControlWorld]: before every read and every
    batch the schedule lets other workers commit any commands - the batches of the
    services with any arguments a service can give them - lets the clock advance, and
    decides whether the database answers. So its theorems hold under every
    interleaving of workers at the granularity of a statement or batch.

    Parameters, with what the code relies on as hypotheses of sections or classes:
    SHA-256 (32 byte results; collision freedom only where a theorem says so), the
    bucket (a class with the laws of a store of objects), random identifiers, AWS
    signatures, the token library and the registry of Apps; for the control plane the
    parser of URLs, the verification of a signed text, the source of random bytes,
    the sealing of a token, the address format of the schema library and the
    discovery of an issuer's metadata. Numbers are [Z] with the
    safe-integer checks of the code written out; bytes are [list Byte.byte].

    ** What the theorems show

    - The whole service: a node answered ready stays readable with exactly its
      content until its lease ends ([SpaceSafe.ready_node_readable]); collection
      keeps whatever is rooted or leased and what it leads to
      ([gc_keeps_reachable]); a Root Ref command counts once, however often it is
      retried ([root_refs_counted_once]).
    - Reads, format and digests: exact content and ranges, the streaming parser
      accepts exactly the valid encodings, encodings are injective, round trips.
    - The client over HTTP gets what the service told it, through routing, dispatch
      and the Space's actor ([client_reads_leased]); each of its concurrent requests is
      sent at most once or twice, under a token that is unexpired and grants what the
      request needs, or that is the answer to the acquisition for its credential class
      it waited for ([requests_authorized]; what the latter is for may differ,
      [joined_mismatch]). Behind a
      node cache of the browser, whatever its tabs did before, it is answered only what
      was loaded for the same key and principal ([cached_answers_loaded]).
    - Audit: pages of balances are together one snapshot; events report what was
      committed.
    - Authorization: a call is admitted only with a justification, and reaches only
      its own Space; selectors and addresses mean what they say.
    - Blobs: what was stored can be read back, as a whole or in part, from any later
      state in which the Space keeps what it answered ready; index encodings are
      canonical.
    - Files: the calls on a root, also those that overlap, keep its tree well formed as
      long as no other call takes the place of a file while its write waits
      ([file_tree_invariant]; one that does breaks it, [write_overlapped]); moving,
      copying and listing do what they say, what is committed on a root that nobody
      else touches meanwhile is what is opened, and a failed commit changes nothing;
      manifests are canonical.
    - The control plane: every history keeps the invariant of its database and what
      must not go back, and leaves an administrator ([control_history_safe]); a
      revoked credential stays revoked; an invitation is accepted once, with evidence
      of the address, which comes only from the code of an open challenge; Apps are
      created once per key and no update of one is lost; the loop that expires
      invitations ends.
    - The App: collecting it is a history of collections of its Spaces within the
      budgets, its loop ends, its cursor resumes after the last Space collected, and
      the usage it is told is exact.

    ** Fuel

    [CanonicalStream.readExactly] recurs on the chunks. Loops that are not structural
    take fuel that is shown to be enough: [AppGc.collectSpace_loop] one turn per node
    of the budget ([collectSpaceGarbage_unrolls]); [BlobClient.fill_chunks] one turn
    per byte, [appendTreeNode] and [finishTree] one turn per level of the tree, and
    reading one per level of an index: running out is the exception [out_of_fuel],
    which [blob_round_trip] excludes. Retries and pages are bounded by the constants
    of the code. [Account.expire_invitations] takes fuel that is shown to be enough in
    every state ([expire_invitations_ends]); [EmailChallenge.generateSixDigitCode]
    draws again while the number is in the rejected range, and answers as soon as the
    fuel reaches a draw that is not ([generateSixDigitCode_draws]).

    ** Not modelled

    Strings whose UTF-16 code units exceed 255 (except in [Uri], on code points);
    tracing, logging and timing; the migration runner of the schema; the joining of
    concurrent lease requests of one node in [space-do.ts]; JSON schemas beyond those
    the modelled code consults. Of the control plane the encrypted admin sessions, the
    pages of people, and the fetching of an issuer's metadata. The HTTP and tool
    server surfaces of administration, the Spaces application, the web interfaces and the
    release scripts are listed in the manifest with the reason. *)
From Stdlib Require Export ZArith Lia Bool.
From stdpp Require Export base option gmap strings fin_maps pretty numbers.
From stdpp Require Export list.

Declare Scope unicas_scope.
Delimit Scope unicas_scope with unicas.
Open Scope unicas_scope.
#[global] Open Scope Z_scope.

(** * Results: a JavaScript call returns a value or throws *)

Inductive result (E A : Type) : Type :=
| Ok (a : A)
| Throw (e : E).
Arguments Ok {E A} a.
Arguments Throw {E A} e.

#[global] Instance result_ret E : MRet (result E) := λ A a, Ok a.
#[global] Instance result_bind E : MBind (result E) := λ A B f r,
  match r with Ok a => f a | Throw e => Throw e end.

(** A guard [if (c) throw e]. *)
Definition throw_if {E} (c : bool) (e : E) : result E unit :=
  if c then Throw e else Ok tt.

Lemma throw_if_ok {E} (c : bool) (e : E) u : throw_if c e = Ok u → c = false.
Proof. by destruct c. Qed.
Lemma bind_Ok {E A C} (m : result E A) (f : A → result E C) c :
  m ≫= f = Ok c → ∃ a, m = Ok a ∧ f a = Ok c.
Proof. destruct m as [a|]; [|done]. by exists a. Qed.

Definition is_ok {E A} (r : result E A) : bool :=
  match r with Ok _ => true | Throw _ => false end.

(** [for (const x of l) f(x)] where the body may throw. *)
Fixpoint each_result {E A} (f : A → result E unit) (l : list A) : result E unit :=
  match l with
  | [] => Ok tt
  | x :: l => _ ← f x; each_result f l
  end.

(** [l.map(f)] where the callback may throw. *)
Fixpoint map_result {E A B} (f : A → result E B) (l : list A) : result E (list B) :=
  match l with
  | [] => Ok []
  | x :: l => y ← f x; ys ← map_result f l; Ok (y :: ys)
  end.

(** * Effects: state passing with exceptions

    A computation takes the current state and yields a result together with
    the state it leaves behind. An exception keeps the writes made before it:
    nothing in the modelled code rolls back, except a database batch, which is
    a single operation of the store. *)

Definition M (E St A : Type) : Type := St → result E A * St.

#[global] Instance M_ret E St : MRet (M E St) := λ A a s, (Ok a, s).
#[global] Instance M_bind E St : MBind (M E St) := λ A B f m s,
  match m s with
  | (Ok a, s') => f a s'
  | (Throw e, s') => (Throw e, s')
  end.

Definition throw {E St A} (e : E) : M E St A := λ s, (Throw e, s).
Definition lift {E St A} (r : result E A) : M E St A := λ s, (r, s).
Definition gets {E St A} (f : St → A) : M E St A := λ s, (Ok (f s), s).
Definition modify {E St} (f : St → St) : M E St unit := λ s, (Ok tt, f s).

(** [try { m } catch (e) { h(e) }]. *)
Definition try_catch {E St A} (m : M E St A) (h : E → M E St A) : M E St A := λ s,
  match m s with
  | (Ok a, s') => (Ok a, s')
  | (Throw e, s') => h e s'
  end.

(** [m.catch(() => undefined)]. *)
Definition ignore_errors {E St} (m : M E St unit) : M E St unit :=
  try_catch m (λ _, mret tt).

Fixpoint for_each {E St A} (l : list A) (f : A → M E St unit) : M E St unit :=
  match l with
  | [] => mret tt
  | x :: l => _ ← f x; for_each l f
  end.

(** A loop that carries local variables: [acc] is updated by every body. *)
Fixpoint fold_m {E St A B} (f : B → A → M E St B) (acc : B) (l : list A) : M E St B :=
  match l with
  | [] => mret acc
  | x :: l => acc' ← f acc x; fold_m f acc' l
  end.

(** * Triples

    [triple P m Q X]: started in a state of [P], [m] ends in a state of [Q] for
    its value, or throws and leaves a state of [X]. The exceptional
    postcondition is part of every statement because the state survives. *)

Definition triple {E St A} (P : St → Prop) (m : M E St A)
    (Q : A → St → Prop) (X : E → St → Prop) : Prop :=
  ∀ s, P s → match m s with
             | (Ok a, s') => Q a s'
             | (Throw e, s') => X e s'
             end.

(** A property of the state that [m] keeps, whether it returns or throws. *)
Definition preserves {E St A} (I : St → Prop) (m : M E St A) : Prop :=
  triple I m (λ _, I) (λ _, I).

Create HintDb hoare discriminated.

Section triples.
Context {E St : Type}.
Implicit Types (P I : St → Prop).

Lemma triple_ret {A} P (a : A) (Q : A → St → Prop) (X : E → St → Prop) :
  (∀ s, P s → Q a s) → triple P (mret a) Q X.
Proof. intros H s HP. by apply H. Qed.

Lemma triple_throw {A} P (e : E) (Q : A → St → Prop) (X : E → St → Prop) :
  (∀ s, P s → X e s) → triple P (throw e) Q X.
Proof. intros H s HP. by apply H. Qed.

Lemma triple_bind {A B} P (m : M E St A) (f : A → M E St B) R Q X :
  triple P m R X → (∀ a, triple (R a) (f a) Q X) → triple P (m ≫= f) Q X.
Proof.
  intros Hm Hf s HP. specialize (Hm s HP). unfold mbind, M_bind.
  destruct (m s) as [[a|e] s']; [by apply Hf | done].
Qed.

Lemma triple_weaken {A} P P' (m : M E St A) Q Q' X X' :
  (∀ s, P' s → P s) → (∀ a s, Q a s → Q' a s) → (∀ e s, X e s → X' e s) →
  triple P m Q X → triple P' m Q' X'.
Proof.
  intros HP HQ HX Hm s Hs. specialize (Hm s (HP s Hs)).
  destruct (m s) as [[a|e] s']; auto.
Qed.

Lemma triple_pre {A} P P' (m : M E St A) Q X :
  (∀ s, P' s → P s) → triple P m Q X → triple P' m Q X.
Proof. intros. eapply triple_weaken; eauto. Qed.

Lemma triple_lift {A} P (r : result E A) (Q : A → St → Prop) (X : E → St → Prop) :
  (∀ s, P s → match r with Ok a => Q a s | Throw e => X e s end) →
  triple P (lift r) Q X.
Proof. intros H s HP. specialize (H s HP). unfold lift. by destruct r. Qed.

Lemma triple_gets {A} P (f : St → A) (Q : A → St → Prop) (X : E → St → Prop) :
  (∀ s, P s → Q (f s) s) → triple P (gets f) Q X.
Proof. intros H s HP. by apply H. Qed.

Lemma triple_catch {A} P (m : M E St A) h Q X X' :
  triple P m Q X → (∀ e, triple (X e) (h e) Q X') → triple P (try_catch m h) Q X'.
Proof.
  intros Hm Hh s HP. specialize (Hm s HP). unfold try_catch.
  destruct (m s) as [[a|e] s']; [done | by apply Hh].
Qed.

Lemma triple_for_each {A} (I : St → Prop) (l : list A) (f : A → M E St unit) X :
  (∀ x, x ∈ l → triple I (f x) (λ _, I) X) →
  triple I (for_each l f) (λ _, I) X.
Proof.
  induction l as [|x l IH]; intros Hf; simpl; [by apply triple_ret|].
  apply (triple_bind _ _ _ (λ _, I)); [apply Hf; left|]. intros _.
  apply IH. intros y Hy. apply Hf. by right.
Qed.

Lemma triple_fold_m {A B} (I : B → St → Prop) (l : list A) (f : B → A → M E St B) X acc :
  (∀ b x, x ∈ l → triple (I b) (f b x) I X) →
  triple (I acc) (fold_m f acc l) I X.
Proof.
  revert acc. induction l as [|x l IH]; intros acc Hf; simpl; [by apply triple_ret|].
  apply (triple_bind _ _ _ I); [apply Hf; left|]. intros b.
  apply IH. intros b' y Hy. apply Hf. by right.
Qed.

Lemma triple_conj {A} P1 P2 (m : M E St A) Q1 Q2 X1 X2 :
  triple P1 m Q1 X1 → triple P2 m Q2 X2 →
  triple (λ s, P1 s ∧ P2 s) m (λ a s, Q1 a s ∧ Q2 a s) (λ e s, X1 e s ∧ X2 e s).
Proof.
  intros H1 H2 s [HP1 HP2]. specialize (H1 s HP1). specialize (H2 s HP2).
  destruct (m s) as [[a|e] s']; done.
Qed.

Lemma triple_pure {A} (φ : Prop) P (m : M E St A) Q X :
  (φ → triple P m Q X) → triple (λ s, φ ∧ P s) m Q X.
Proof. intros H s [Hφ HP]. by apply H. Qed.

Lemma preserves_ignore I (m : M E St unit) :
  preserves I m → preserves I (ignore_errors m).
Proof. intros Hm. eapply triple_catch; [done|]. intros e. by apply triple_ret. Qed.
End triples.

#[export] Hint Resolve triple_ret triple_throw triple_gets triple_lift : hoare.
