(* ===== verification/Js.v ===== *)
(** The parts of JavaScript and of the web platform the modelled code uses:
    numbers and their safe range, byte arrays, little-endian [DataView]
    accessors, strings, UTF-8 text coding and insertion-ordered sets.

    A JavaScript string is a [string] whose characters are its UTF-16 code
    units; the model covers the strings whose code units are below 256. *)
From S2P Require Import Prelude.
From Stdlib Require Import Ascii.
From Stdlib Require Strings.String Strings.Byte.

Notation byte := Corelib.Init.Byte.byte.
#[global] Instance byte_eq_dec : EqDecision byte := Byte.byte_eq_dec.

(** * Numbers *)

Definition MAX_SAFE_INTEGER : Z := 2 ^ 53 - 1.

(** [Number.isSafeInteger] on an integer value. *)
Definition isSafeInteger (z : Z) : bool :=
  (- MAX_SAFE_INTEGER <=? z) && (z <=? MAX_SAFE_INTEGER).

(** [Number(n)] for a non-negative BigInt: the nearest binary64 value, ties to
    even. Integers below 2^53 are unchanged. *)
Definition Number_of_bigint (n : Z) : Z :=
  let e := Z.log2 n - 52 in
  if e <=? 0 then n
  else
    let unit := 2 ^ e in
    let q := n / unit in
    let r := n mod unit in
    if 2 * r <? unit then q * unit
    else if unit <? 2 * r then (q + 1) * unit
    else if Z.even q then q * unit else (q + 1) * unit.

Lemma isSafeInteger_spec z : isSafeInteger z = true ↔ - (2 ^ 53 - 1) ≤ z ≤ 2 ^ 53 - 1.
Proof. unfold isSafeInteger, MAX_SAFE_INTEGER. rewrite andb_true_iff, !Z.leb_le. lia. Qed.

Lemma Number_of_bigint_small n : 0 ≤ n < 2 ^ 53 → Number_of_bigint n = n.
Proof.
  intros Hn. unfold Number_of_bigint.
  destruct (decide (n = 0)) as [->|Hne]; [done|].
  assert (Z.log2 n < 53) by (apply Z.log2_lt_pow2; lia).
  destruct (Z.leb_spec (Z.log2 n - 52) 0); [done | lia].
Qed.

(** Rounding never brings an out-of-range integer back into the safe range. *)
Lemma Number_of_bigint_large n : 2 ^ 53 ≤ n → 2 ^ 53 ≤ Number_of_bigint n.
Proof.
  intros Hn. unfold Number_of_bigint.
  assert (53 ≤ Z.log2 n) by (apply Z.log2_le_pow2; lia).
  destruct (Z.leb_spec (Z.log2 n - 52) 0) as [?|He]; [lia|].
  set (u := 2 ^ (Z.log2 n - 52)). set (q := n / u).
  assert (0 < u) by (apply Z.pow_pos_nonneg; lia).
  assert (Hlog : 2 ^ Z.log2 n ≤ n) by (apply Z.log2_spec; lia).
  assert (Hu : 2 ^ Z.log2 n = u * 2 ^ 52).
  { unfold u. rewrite <- Z.pow_add_r by lia. f_equal. lia. }
  assert (2 ^ 52 ≤ q) by (apply Z.div_le_lower_bound; lia).
  assert (2 ≤ u).
  { unfold u. change 2 with (2 ^ 1) at 1. apply Z.pow_le_mono_r; lia. }
  assert (2 ^ 53 ≤ q * u) by nia.
  assert (2 ^ 53 ≤ (q + 1) * u) by nia.
  repeat case_match; lia.
Qed.

Lemma isSafeInteger_Number n :
  0 ≤ n → isSafeInteger (Number_of_bigint n) = true → Number_of_bigint n = n ∧ n < 2 ^ 53.
Proof.
  intros Hn Hs. apply isSafeInteger_spec in Hs.
  destruct (Z_lt_le_dec n (2 ^ 53)) as [Hlt|Hge].
  - split; [by apply Number_of_bigint_small | done].
  - pose proof (Number_of_bigint_large n Hge). lia.
Qed.

Lemma Number_of_bigint_nonneg n : 0 ≤ n → 0 ≤ Number_of_bigint n.
Proof.
  intros Hn. unfold Number_of_bigint.
  destruct (Z.leb_spec (Z.log2 n - 52) 0) as [?|He]; [done|].
  assert (0 < 2 ^ (Z.log2 n - 52)) by (apply Z.pow_pos_nonneg; lia).
  assert (0 ≤ n / 2 ^ (Z.log2 n - 52)) by (by apply Z.div_pos).
  repeat case_match; nia.
Qed.

(** * Bytes *)

Definition bytes := list byte.

Definition byte_val (b : byte) : Z := Z.of_N (Byte.to_N b).

(** [ToUint8]: what storing a number into a [Uint8Array] cell keeps of it. *)
Definition to_byte (z : Z) : byte :=
  default Byte.x00 (Byte.of_N (Z.to_N (z mod 256))).

Lemma byte_val_range b : 0 ≤ byte_val b < 256.
Proof. unfold byte_val. pose proof (Byte.to_N_bounded b). lia. Qed.

Lemma byte_val_to_byte z : byte_val (to_byte z) = z mod 256.
Proof.
  unfold byte_val, to_byte. pose proof (Z.mod_pos_bound z 256 eq_refl) as Hz.
  destruct (Byte.of_N (Z.to_N (z mod 256))) as [b|] eqn:Hb; simpl.
  - apply Byte.to_of_N in Hb. rewrite Hb. lia.
  - apply Byte.of_N_None_iff in Hb. lia.
Qed.

Lemma byte_val_inj a b : byte_val a = byte_val b → a = b.
Proof.
  unfold byte_val. intros H. apply N2Z.inj in H.
  pose proof (Byte.of_to_N a) as Ha. pose proof (Byte.of_to_N b) as Hb.
  rewrite H in Ha. congruence.
Qed.

#[global] Instance byte_val_Inj : Inj (=) (=) byte_val := byte_val_inj.

Lemma to_byte_val b : to_byte (byte_val b) = b.
Proof.
  apply byte_val_inj. rewrite byte_val_to_byte.
  apply Z.mod_small, byte_val_range.
Qed.

Definition blen (bs : bytes) : Z := Z.of_nat (length bs).

(** [bytes.slice(from, to)] and [bytes.subarray(from, to)] for indices in range
    order. *)
Definition slice {A} (from to : Z) (l : list A) : list A :=
  take (Z.to_nat (to - from)) (drop (Z.to_nat from) l).

(** Overwrite the cells from [off]: the effect of [target.set(src, off)] when it
    fits. *)
Definition splice {A} (off : nat) (src target : list A) : list A :=
  take off target ++ src ++ drop (off + length src) target.

Lemma length_splice {A} off (src target : list A) :
  (off + length src ≤ length target)%nat → length (splice off src target) = length target.
Proof. intros H. unfold splice. rewrite !length_app, length_take, length_drop. lia. Qed.

Lemma length_slice {A} from to (l : list A) :
  0 ≤ from → from ≤ to → to ≤ Z.of_nat (length l) →
  Z.of_nat (length (slice from to l)) = to - from.
Proof. intros. unfold slice. rewrite length_take, length_drop. lia. Qed.

Lemma slice_app_slice {A} i j k (l : list A) :
  0 ≤ i → i ≤ j → j ≤ k → slice i j l ++ slice j k l = slice i k l.
Proof.
  intros. unfold slice.
  replace (Z.to_nat (k - i)) with (Z.to_nat (j - i) + Z.to_nat (k - j))%nat by lia.
  replace (Z.to_nat j) with (Z.to_nat i + Z.to_nat (j - i))%nat by lia.
  replace (Z.to_nat (Z.of_nat 0 + (j - i))) with (Z.to_nat (j - i)) by lia.
  rewrite <- drop_drop. generalize (drop (Z.to_nat i) l). intros l'.
  by rewrite take_take_drop.
Qed.

Lemma slice_all {A} (l : list A) : slice 0 (Z.of_nat (length l)) l = l.
Proof. unfold slice. rewrite drop_0. apply take_ge. lia. Qed.

(** Slicing a concatenation at the boundaries of its parts. *)
Lemma slice_app_mid {A} (a b c : list A) from to :
  from = Z.of_nat (length a) → to = Z.of_nat (length a + length b) →
  slice from to (a ++ b ++ c) = b.
Proof.
  intros -> ->. unfold slice. rewrite Nat2Z.id, drop_app_length.
  replace (Z.to_nat _) with (length b) by lia. apply take_app_length.
Qed.

Lemma slice_app_end {A} (a b : list A) from to :
  from = Z.of_nat (length a) → to = Z.of_nat (length a + length b) →
  slice from to (a ++ b) = b.
Proof. intros. rewrite <- (app_nil_r b) at 1. by apply slice_app_mid. Qed.

(** ** Little-endian integers *)

Fixpoint le_bytes (n : nat) (z : Z) : bytes :=
  match n with
  | O => []
  | S n => to_byte z :: le_bytes n (z / 256)
  end.

Fixpoint le_value (bs : bytes) : Z :=
  match bs with
  | [] => 0
  | b :: bs => byte_val b + 256 * le_value bs
  end.

Lemma length_le_bytes n z : length (le_bytes n z) = n.
Proof. revert z. induction n; intros z; simpl; auto. Qed.

Lemma le_value_range bs : 0 ≤ le_value bs < 256 ^ blen bs.
Proof.
  induction bs as [|b bs IH]; [done|]. simpl. unfold blen in *. simpl length.
  pose proof (byte_val_range b).
  rewrite Nat2Z.inj_succ, Z.pow_succ_r by lia. lia.
Qed.

Lemma le_value_bytes n z : le_value (le_bytes n z) = z mod 256 ^ Z.of_nat n.
Proof.
  revert z. induction n as [|n IH]; intros z; simpl le_bytes.
  - simpl. by rewrite Z.mod_1_r.
  - simpl le_value. rewrite IH, byte_val_to_byte.
    rewrite Nat2Z.inj_succ, Z.pow_succ_r by lia.
    rewrite Z.rem_mul_r; [lia | done | apply Z.pow_pos_nonneg; lia].
Qed.

Lemma le_bytes_value bs : le_bytes (length bs) (le_value bs) = bs.
Proof.
  induction bs as [|b bs IH]; [done|]. simpl.
  pose proof (byte_val_range b).
  replace ((byte_val b + 256 * le_value bs) / 256) with (le_value bs).
  - rewrite IH. f_equal. apply byte_val_inj. rewrite byte_val_to_byte.
    rewrite Z.mul_comm, Z_mod_plus_full. by apply Z.mod_small.
  - rewrite Z.mul_comm, Z.div_add by done. rewrite Z.div_small; lia.
Qed.

Lemma le_value_bytes_small n z :
  0 ≤ z < 256 ^ Z.of_nat n → le_value (le_bytes n z) = z.
Proof. intros. rewrite le_value_bytes. by apply Z.mod_small. Qed.

(** * Strings *)

Definition chars (s : string) : list ascii := String.list_ascii_of_string s.
Definition of_chars (l : list ascii) : string := String.string_of_list_ascii l.
Definition strlen (s : string) : Z := Z.of_nat (String.length s).

(** The code unit of a character. *)
Definition code (c : ascii) : Z := Z.of_N (N_of_ascii c).
Definition char_of_code (z : Z) : ascii := ascii_of_N (Z.to_N z).

(** [/^[..]*$/.test(s)]: every character is in the class. *)
Definition all_chars (p : ascii → bool) (s : string) : bool := forallb p (chars s).
Definition some_char (p : ascii → bool) (s : string) : bool := existsb p (chars s).

Definition in_range (lo hi : Z) (c : ascii) : bool := (lo <=? code c) && (code c <=? hi).
Definition is_printable (c : ascii) : bool := in_range 0x20 0x7e c.
Definition is_digit (c : ascii) : bool := in_range 0x30 0x39 c.
Definition is_lower_hex (c : ascii) : bool := is_digit c || in_range 0x61 0x66 c.

(** [a < b] on strings compares code units. *)
Definition str_ltb (a b : string) : bool := String.ltb a b.

Definition str_take (n : nat) (s : string) : string := of_chars (take n (chars s)).
Definition str_drop (n : nat) (s : string) : string := of_chars (drop n (chars s)).
Definition startsWith (s p : string) : bool := String.prefix p s.
Definition endsWith (s p : string) : bool :=
  (String.length p <=? String.length s)%nat &&
  bool_decide (str_drop (String.length s - String.length p) s = p).

Fixpoint includes (s sub : string) : bool :=
  String.prefix sub s ||
  match s with
  | EmptyString => false
  | String _ s' => includes s' sub
  end.

(** [s.indexOf(c)] and [s.lastIndexOf(c)] for a one-character string, [None] for
    [-1]. *)
Fixpoint index_of (c : ascii) (l : list ascii) : option nat :=
  match l with
  | [] => None
  | x :: l => if decide (x = c) then Some O else S <$> index_of c l
  end.
Fixpoint last_index_of (c : ascii) (l : list ascii) : option nat :=
  match l with
  | [] => None
  | x :: l => match last_index_of c l with
              | Some i => Some (S i)
              | None => if decide (x = c) then Some O else None
              end
  end.

(** [s.split(c)] for a one-character separator. *)
Fixpoint split_chars (c : ascii) (l : list ascii) : list (list ascii) :=
  match l with
  | [] => [[]]
  | x :: l =>
      if decide (x = c) then [] :: split_chars c l
      else match split_chars c l with
           | [] => [[x]]
           | w :: ws => (x :: w) :: ws
           end
  end.
Definition split (c : ascii) (s : string) : list string :=
  of_chars <$> split_chars c (chars s).

(** [`${n}`] for an integer. *)
Definition show (z : Z) : string := pretty z.

Lemma of_chars_chars s : of_chars (chars s) = s.
Proof. apply String.string_of_list_ascii_of_string. Qed.
Lemma chars_of_chars l : chars (of_chars l) = l.
Proof. apply String.list_ascii_of_string_of_list_ascii. Qed.
#[global] Instance chars_inj : Inj (=) (=) chars.
Proof. intros a b H. rewrite <- (of_chars_chars a), <- (of_chars_chars b). by f_equal. Qed.
Lemma length_chars s : length (chars s) = String.length s.
Proof. induction s; simpl; auto. Qed.
Lemma chars_app a b : chars (a +:+ b) = chars a ++ chars b.
Proof. unfold String.app. induction a; simpl; [done|]. by f_equal. Qed.
Lemma prefix_chars p s :
  String.prefix p s = true ↔ ∃ k, chars s = chars p ++ k.
Proof.
  revert s. induction p as [|a p IH]; intros s; simpl.
  { split; [eauto | by destruct s]. }
  destruct s as [|b s]; simpl; [split; [done | by intros [k ?]]|].
  destruct (ascii_dec a b) as [->|Hne]; simpl.
  - rewrite IH. split; intros [k Hk]; exists k; [by rewrite Hk | by injection Hk].
  - split; [done|]. intros [k Hk]. injection Hk; congruence.
Qed.
Lemma code_range c : 0 ≤ code c < 256.
Proof. unfold code. pose proof (N_ascii_bounded c). lia. Qed.
Lemma char_of_code_code c : char_of_code (code c) = c.
Proof. unfold char_of_code, code. rewrite N2Z.id. apply ascii_N_embedding. Qed.
Lemma code_char_of_code z : 0 ≤ z < 256 → code (char_of_code z) = z.
Proof.
  intros Hz. unfold char_of_code, code. rewrite N_ascii_embedding by lia. lia.
Qed.
#[global] Instance code_inj : Inj (=) (=) code.
Proof. intros a b H. by rewrite <- (char_of_code_code a), H, char_of_code_code. Qed.

(** * UTF-8 *)

(** [new TextEncoder().encode(s)]. *)
Definition encode_char (c : ascii) : bytes :=
  if code c <? 0x80 then [to_byte (code c)]
  else [to_byte (0xC0 + code c / 64); to_byte (0x80 + code c mod 64)].
Definition TextEncoder_encode (s : string) : bytes := flat_map encode_char (chars s).

(** The state of the decoder of the Encoding Standard: code point so far, bytes
    still needed and the bounds of the next continuation byte. *)
Record utf8_state := Utf8 { u_cp : Z; u_needed : nat; u_lower : Z; u_upper : Z }.
Definition utf8_init : utf8_state := Utf8 0 O 0x80 0xBF.

Definition utf8_start (b : Z) : list Z * utf8_state :=
  if b <=? 0x7F then ([b], utf8_init)
  else if (0xC2 <=? b) && (b <=? 0xDF) then ([], Utf8 (Z.land b 0x1F) 1 0x80 0xBF)
  else if (0xE0 <=? b) && (b <=? 0xEF) then
    ([], Utf8 (Z.land b 0xF) 2 (if b =? 0xE0 then 0xA0 else 0x80)
                               (if b =? 0xED then 0x9F else 0xBF))
  else if (0xF0 <=? b) && (b <=? 0xF4) then
    ([], Utf8 (Z.land b 0x7) 3 (if b =? 0xF0 then 0x90 else 0x80)
                               (if b =? 0xF4 then 0x8F else 0xBF))
  else ([0xFFFD], utf8_init).

Definition utf8_step (st : utf8_state) (b : Z) : list Z * utf8_state :=
  match u_needed st with
  | O => utf8_start b
  | S n =>
      if (u_lower st <=? b) && (b <=? u_upper st) then
        let cp := Z.lor (Z.shiftl (u_cp st) 6) (Z.land b 0x3F) in
        match n with
        | O => ([cp], utf8_init)
        | S _ => ([], Utf8 cp n 0x80 0xBF)
        end
      else let '(out, st') := utf8_start b in (0xFFFD :: out, st')
  end.

Fixpoint utf8_run (st : utf8_state) (bs : list Z) : list Z :=
  match bs with
  | [] => match u_needed st with O => [] | S _ => [0xFFFD] end
  | b :: bs => let '(out, st') := utf8_step st b in out ++ utf8_run st' bs
  end.

(** [new TextDecoder().decode(bytes)], as code points: invalid sequences become
    U+FFFD and a leading byte order mark is dropped. *)
Definition TextDecoder_decode (bs : bytes) : list Z :=
  match utf8_run utf8_init (byte_val <$> bs) with
  | cp :: cps => if cp =? 0xFEFF then cps else cp :: cps
  | [] => []
  end.

Definition string_of_codes (l : list Z) : string := of_chars (char_of_code <$> l).

Lemma TextEncoder_ascii s :
  all_chars is_printable s = true →
  byte_val <$> TextEncoder_encode s = code <$> chars s.
Proof.
  unfold all_chars, TextEncoder_encode. induction (chars s) as [|c l IH]; [done|].
  simpl. rewrite andb_true_iff. intros [Hc Hl]. rewrite fmap_app, (IH Hl).
  unfold is_printable, in_range in Hc. rewrite andb_true_iff, !Z.leb_le in Hc.
  unfold encode_char. destruct (Z.ltb_spec (code c) 0x80); [|lia].
  simpl. f_equal. rewrite byte_val_to_byte. apply Z.mod_small. lia.
Qed.

Lemma utf8_run_ascii (l : list Z) :
  Forall (λ z, 0 ≤ z ≤ 0x7F) l → utf8_run utf8_init l = l.
Proof.
  induction 1 as [|z l Hz _ IH]; [done|]. cbn [utf8_run utf8_step utf8_init u_needed].
  unfold utf8_start. destruct (Z.leb_spec z 0x7F); [|lia]. simpl. by f_equal.
Qed.

Lemma TextDecoder_ascii bs :
  Forall (λ b, byte_val b ≤ 0x7F) bs → TextDecoder_decode bs = byte_val <$> bs.
Proof.
  intros Hbs. unfold TextDecoder_decode. rewrite utf8_run_ascii.
  - destruct bs as [|b bs]; [done|]. inversion_clear Hbs as [|? ? Hb].
    simpl. destruct (Z.eqb_spec (byte_val b) 0xFEFF); [lia | done].
  - apply Forall_fmap. eapply Forall_impl; [done|]. simpl. intros b ?.
    pose proof (byte_val_range b). lia.
Qed.

Lemma string_of_codes_chars s : string_of_codes (code <$> chars s) = s.
Proof.
  unfold string_of_codes. rewrite <- list_fmap_compose.
  transitivity (of_chars (id <$> chars s)).
  - f_equal. apply list_fmap_ext. intros i c _. apply char_of_code_code.
  - rewrite list_fmap_id. apply of_chars_chars.
Qed.

(** * Insertion-ordered sets *)

(** [[...new Set(l)]]: the first occurrence of every element. *)
Fixpoint set_add_all {A} `{EqDecision A} (seen l : list A) : list A :=
  match l with
  | [] => seen
  | x :: l => set_add_all (if decide (x ∈ seen) then seen else seen ++ [x]) l
  end.
Definition set_of {A} `{EqDecision A} (l : list A) : list A := set_add_all [] l.

Lemma elem_of_set_add_all {A} `{EqDecision A} (l seen : list A) x :
  x ∈ set_add_all seen l ↔ x ∈ seen ∨ x ∈ l.
Proof.
  revert seen. induction l as [|y l IH]; intros seen; simpl.
  - set_solver.
  - rewrite IH. case_decide; set_solver.
Qed.
Lemma elem_of_set_of {A} `{EqDecision A} (l : list A) x : x ∈ set_of l ↔ x ∈ l.
Proof. unfold set_of. rewrite elem_of_set_add_all. set_solver. Qed.
Lemma NoDup_set_of {A} `{EqDecision A} (l : list A) : NoDup (set_of l).
Proof.
  unfold set_of. cut (∀ seen : list A, NoDup seen → NoDup (set_add_all seen l)).
  { intros H. apply H. constructor. }
  induction l as [|y l IH]; intros seen Hs; simpl; [done|]. apply IH.
  case_decide; [done|]. apply NoDup_app. split_and!; [done | | apply NoDup_singleton].
  intros x Hx Hxy. apply list_elem_of_singleton in Hxy. by subst.
Qed.

(** * Values of unknown type

    What [JSON.parse] returns. An integer the source prints in plain digits is a
    [JInt]; every other number is a [JFrac] with its text. The members of an
    object are in the order of [Object.entries], with distinct keys. *)
Inductive Json :=
| JNull
| JBool (b : bool)
| JInt (z : Z)
| JFrac (text : string)
| JStr (s : string)
| JArr (l : list Json)
| JObj (members : list (string * Json)).

(** [value.name], of an object's members; [None] is [undefined]. *)
Fixpoint find_member (name : string) (members : list (string * Json)) : option Json :=
  match members with
  | [] => None
  | (n, j) :: members => if bool_decide (n = name) then Some j else find_member name members
  end.

(** [l.join(",")]. *)
Fixpoint join_commas (l : list string) : string :=
  match l with
  | [] => EmptyString
  | [x] => x
  | x :: l => x +:+ "," +:+ join_commas l
  end.

(** [String(value)], for the values error messages quote. *)
Fixpoint json_String (j : Json) : string :=
  match j with
  | JNull => "null"
  | JBool true => "true"
  | JBool false => "false"
  | JInt z => show z
  | JFrac text => text
  | JStr s => s
  | JArr l => join_commas (List.map (λ x, match x with JNull => EmptyString | _ => json_String x end) l)
  | JObj _ => "[object Object]"
  end.

(** * Decimal digits *)

Definition digit_val (c : ascii) : Z := code c - 0x30.
Definition digits_val (l : list ascii) : Z := foldl (λ n c, 10 * n + digit_val c) 0 l.

Lemma digit_val_range c : is_digit c = true → 0 ≤ digit_val c ≤ 9.
Proof. unfold is_digit, in_range, digit_val. rewrite andb_true_iff, !Z.leb_le. lia. Qed.

Lemma digits_val_nonneg l : forallb is_digit l = true → 0 ≤ digits_val l.
Proof.
  unfold digits_val. cut (∀ n, 0 ≤ n → forallb is_digit l = true →
    0 ≤ foldl (λ n c, 10 * n + digit_val c) n l); [by intros Hc; apply Hc|].
  induction l as [|c l IH]; intros n Hn; [done|]. simpl. intros [Hc Hl]%andb_true_iff.
  pose proof (digit_val_range c Hc). apply IH; [lia|done].
Qed.

Lemma digits_val_app l1 l2 : digits_val (l1 ++ l2) = digits_val l1 * 10 ^ Z.of_nat (length l2) + digits_val l2.
Proof.
  unfold digits_val. rewrite foldl_app. generalize (foldl (λ n c, 10 * n + digit_val c) 0 l1).
  induction l2 as [|c l2 IH] using rev_ind; intros n; [simpl; lia|].
  rewrite !foldl_app, IH. simpl. rewrite length_app, Nat.add_1_r, Nat2Z.inj_succ, Z.pow_succ_r by lia. lia.
Qed.

Lemma pretty_N_char_digit x : (x < 10)%N →
  is_digit (pretty_N_char x) = true ∧ digit_val (pretty_N_char x) = Z.of_N x.
Proof.
  intros Hx. assert (x = 0 ∨ x = 1 ∨ x = 2 ∨ x = 3 ∨ x = 4 ∨ x = 5 ∨ x = 6 ∨ x = 7 ∨ x = 8 ∨ x = 9)%N
    as Hc by lia.
  repeat destruct Hc as [->|Hc]; [done..|]. by subst.
Qed.

(** The decimal digits of a positive number: no leading zero, and its value. *)
Lemma pretty_N_go_digits x s : (0 < x)%N →
  ∃ l, pretty_N_go x s = of_chars l +:+ s ∧ forallb is_digit l = true ∧ digits_val l = Z.of_N x
       ∧ hd "0"%char l ≠ "0"%char.
Proof.
  revert s. induction (N.lt_wf_0 x) as [x _ IH]. intros s Hx. rewrite pretty_N_go_step by done.
  pose proof (N.mod_lt x 10 ltac:(lia)) as Hm. pose proof (N.div_mod x 10 ltac:(lia)) as Hd.
  destruct (pretty_N_char_digit _ Hm) as [Hc Hv].
  destruct (decide (x / 10 = 0)%N) as [Hz|Hz].
  - rewrite Hz, pretty_N_go_0. exists [pretty_N_char (x mod 10)]. split_and!; [done| | |].
    + simpl. by rewrite Hc.
    + unfold digits_val. simpl. rewrite Hv. lia.
    + simpl. intros He. rewrite He in Hv. change (digit_val "0"%char) with 0 in Hv. lia.
  - destruct (IH (x / 10)%N ltac:(apply N.div_lt; lia) (String (pretty_N_char (x mod 10)) s) ltac:(lia))
      as (l & -> & Hl & Hlv & Hh).
    exists (l ++ [pretty_N_char (x mod 10)]). split_and!.
    + apply (inj chars). rewrite !chars_app, !chars_of_chars. by rewrite <- app_assoc.
    + by rewrite forallb_app, Hl; simpl; rewrite Hc.
    + rewrite digits_val_app, Hlv. unfold digits_val. simpl. rewrite Hv. lia.
    + by destruct l.
Qed.

Lemma pretty_positive_digits p :
  ∃ l, chars (pretty (Npos p)) = l ∧ forallb is_digit l = true ∧ digits_val l = Zpos p
       ∧ hd "0"%char l ≠ "0"%char.
Proof.
  unfold pretty, pretty_N. rewrite decide_False by done.
  destruct (pretty_N_go_digits (Npos p) EmptyString ltac:(lia)) as (l & -> & Hl & Hv & Hh).
  exists l. split_and!; try done. by rewrite chars_app, chars_of_chars, app_nil_r.
Qed.
