(* ===== verification/JsString.v ===== *)
(** Lemmas on the string functions of {!Js}: splitting, affixes and occurrences. *)
From Stdlib Require Import Ascii.
From S2P Require Import Prelude Js.

(** * Splitting *)

Lemma split_chars_none c l : c ∉ l → split_chars c l = [l].
Proof.
  induction l as [|x l IH]; intros Hn; simpl; [done|].
  apply not_elem_of_cons in Hn as [Hx Hl]. rewrite decide_False by done. by rewrite IH.
Qed.
Lemma split_chars_app c l r : c ∉ l → split_chars c (l ++ c :: r) = l :: split_chars c r.
Proof.
  induction l as [|x l IH]; intros Hn; simpl.
  - by rewrite decide_True.
  - apply not_elem_of_cons in Hn as [Hx Hl]. rewrite decide_False by done. by rewrite IH.
Qed.

Lemma split_chars_cons c l : ∃ w ws, split_chars c l = w :: ws.
Proof. induction l as [|x l (w & ws & IH)]; simpl; [by eauto|]. rewrite IH. case_decide; by eauto. Qed.

Lemma split_chars_sep c l r :
  split_chars c (l ++ c :: r) = split_chars c l ++ split_chars c r.
Proof.
  induction l as [|x l IH]; cbn [app split_chars].
  - by rewrite decide_True.
  - rewrite IH. case_decide; [done|].
    destruct (split_chars_cons c l) as (w & ws & ->). done.
Qed.

(** The parts with the separator between them are the whole. *)
Lemma split_chars_join c l w ws :
  split_chars c l = w :: ws → l = w ++ concat (cons c <$> ws).
Proof.
  revert w ws. induction l as [|x l IH]; intros w ws; simpl; [by intros [= <- <-]|].
  destruct (split_chars_cons c l) as (v & vs & Hv). rewrite Hv. pose proof (IH _ _ Hv) as Hl.
  case_decide as Hx; intros [= <- <-]; simpl; by rewrite Hl, ?Hx.
Qed.
Lemma split_chars_concat c l ws :
  c ∉ l → Forall (λ w, c ∉ w) ws → split_chars c (l ++ concat (cons c <$> ws)) = l :: ws.
Proof.
  intros Hl Hs. revert l Hl. induction Hs as [|w ws Hw _ IH]; intros l Hl.
  - simpl. rewrite app_nil_r. by apply split_chars_none.
  - rewrite fmap_cons. cbn [concat app]. rewrite split_chars_sep, (IH w Hw), split_chars_none by done. done.
Qed.
Lemma split_chars_first c l w ws : split_chars c l = w :: ws → c ∉ w.
Proof.
  revert w ws. induction l as [|x l IH]; intros w ws; simpl; [intros [= <- <-]; apply not_elem_of_nil|].
  destruct (split_chars_cons c l) as (v & vs & Hv). rewrite Hv.
  case_decide; intros [= <- <-]; [apply not_elem_of_nil|].
  apply not_elem_of_cons. split; [by apply not_eq_sym|]. by eapply IH.
Qed.
(** The last part of a text grows by the first of what follows. *)
Lemma split_chars_app_last c l r init last s rest :
  split_chars c l = init ++ [last] → split_chars c r = s :: rest →
  split_chars c (l ++ r) = init ++ (last ++ s) :: rest.
Proof.
  revert init last. induction l as [|x l IH]; intros init last Hl Hr; simpl in *.
  - destruct init as [|i init]; [by injection Hl as <-|]. by destruct init.
  - case_decide as Hx.
    + destruct init as [|i init]; simpl in Hl.
      { destruct (split_chars_cons c l) as (v & vs & Hv). rewrite Hv in Hl. done. }
      injection Hl as <- Hl. by rewrite (IH init last Hl Hr).
    + destruct (split_chars_cons c l) as (v & vs & Hv). rewrite Hv in Hl.
      destruct init as [|i init]; simpl in Hl.
      * injection Hl as <- ->. by rewrite (IH [] v Hv Hr).
      * injection Hl as <- ->. by rewrite (IH (v :: init) last Hv Hr).
Qed.

(** * Affixes and occurrences *)

#[export] Instance string_app_assoc : Assoc (=) String.append.
Proof. intros a b c. apply (inj chars). by rewrite !chars_app, app_assoc. Qed.

(** [value.slice(0, -n)]. *)
Definition slice_end (n : nat) (s : string) : string := str_take (String.length s - n) s.

Lemma endsWith_chars s p : endsWith s p = true ↔ ∃ q, s = q +:+ p.
Proof.
  unfold endsWith. rewrite andb_true_iff, Nat.leb_le, bool_decide_eq_true. split.
  - intros [Hl Hd]. exists (str_take (String.length s - String.length p) s).
    apply (inj chars). rewrite chars_app. unfold str_take, str_drop in *.
    rewrite <- Hd at 2. rewrite !chars_of_chars. by rewrite take_drop.
  - intros [q ->]. rewrite <- !length_chars, chars_app, length_app. split; [lia|].
    apply (inj chars). unfold str_drop. rewrite chars_of_chars, chars_app.
    replace (_ - _)%nat with (length (chars q)) by lia. by rewrite drop_app_length.
Qed.

Lemma slice_end_app q p : slice_end (String.length p) (q +:+ p) = q.
Proof.
  apply (inj chars). unfold slice_end, str_take. rewrite chars_of_chars, chars_app.
  rewrite <- !length_chars, chars_app, length_app.
  replace (_ - _)%nat with (length (chars q)) by lia. by rewrite take_app_length.
Qed.

Lemma strlen_app a b : strlen (a +:+ b) = strlen a + strlen b.
Proof. unfold strlen. rewrite <- !length_chars, chars_app, length_app. lia. Qed.

Lemma startsWith_app s p : startsWith s p = true ↔ ∃ t, s = p +:+ t.
Proof.
  unfold startsWith. rewrite prefix_chars. split.
  - intros [k Hk]. exists (of_chars k). apply (inj chars). by rewrite chars_app, chars_of_chars.
  - intros [t ->]. exists (chars t). apply chars_app.
Qed.

Lemma str_drop_app p t : str_drop (String.length p) (p +:+ t) = t.
Proof.
  apply (inj chars). unfold str_drop. by rewrite chars_of_chars, chars_app, <- length_chars, drop_app_length.
Qed.

Lemma includes_char c s : includes s (String c EmptyString) = true ↔ c ∈ chars s.
Proof.
  induction s as [|x s IH]; simpl.
  - split; [done|by intros ?%elem_of_nil].
  - rewrite orb_true_iff, IH, elem_of_cons. destruct (ascii_dec c x) as [->|Hne].
    + split; [by left|]. by destruct s; left.
    + naive_solver.
Qed.

(** * Order *)

Lemma str_ltb_spec a b : str_ltb a b = true ↔ ¬ String.le b a.
Proof.
  unfold str_ltb, String.ltb, String.le, String.leb.
  rewrite (String.compare_antisym b a). by destruct (String.compare a b); simpl; naive_solver.
Qed.
Lemma str_ltb_irrefl a : str_ltb a a = false.
Proof. apply not_true_is_false. rewrite str_ltb_spec. by intros []. Qed.
Lemma str_ltb_trans a b c : str_ltb a b = true → str_ltb b c = true → str_ltb a c = true.
Proof.
  rewrite !str_ltb_spec. intros H1 H2 H3. destruct (total String.le a b) as [H|H]; [|done].
  apply H2. by etrans.
Qed.
Lemma str_ltb_total a b : str_ltb a b = false → str_ltb b a = false → a = b.
Proof.
  rewrite <- !not_true_iff_false, !str_ltb_spec. intros H1 H2. apply (anti_symm String.le); by apply dec_stable.
Qed.
(** A text comes before the longer texts that start with it. *)
Lemma str_ltb_extend a c t : str_ltb a (a +:+ String c t) = true.
Proof.
  unfold str_ltb, String.ltb. induction a as [|x a IH]; [done|].
  change (String x a +:+ String c t) with (String x (a +:+ String c t)). cbn [String.compare].
  assert (Ascii.compare x x = Eq) as -> by apply N.compare_refl. exact IH.
Qed.

(** * UTF-8 *)

Lemma encode_char_app a b (X Y : bytes) :
  encode_char a ++ X = encode_char b ++ Y → a = b ∧ X = Y.
Proof.
  pose proof (code_range a). pose proof (code_range b).
  assert (∀ z z', 0 ≤ z < 256 → 0 ≤ z' < 256 → to_byte z = to_byte z' → z = z') as Hinj.
  { intros z z' ? ? He. apply (f_equal byte_val) in He. rewrite !byte_val_to_byte, !Z.mod_small in He by lia. done. }
  assert (∀ a b, code a = code b → a = b) as Hcode.
  { intros c d Hcd. by rewrite <- (char_of_code_code c), Hcd, char_of_code_code. }
  assert (∀ c, 0 ≤ c < 256 → 0 ≤ c / 64 < 4) as Hdiv by (intros; Z.to_euclidean_division_equations; lia).
  assert (∀ c, 0 ≤ c mod 64 < 64) as Hmod by (intros; Z.to_euclidean_division_equations; lia).
  pose proof (Hdiv (code a)). pose proof (Hdiv (code b)). pose proof (Hmod (code a)). pose proof (Hmod (code b)).
  unfold encode_char. destruct (Z.ltb_spec (code a) 0x80), (Z.ltb_spec (code b) 0x80); cbn [app].
  - intros [= He <-]. split; [|done]. apply Hcode, Hinj; lia || done.
  - intros [= He _]. apply Hinj in He; lia.
  - intros [= He _]. apply Hinj in He; lia.
  - intros [= He1 He2 <-]. split; [|done]. apply Hcode. apply Hinj in He1; [|lia..]. apply Hinj in He2; [|lia..].
    rewrite (Z.div_mod (code a) 64), (Z.div_mod (code b) 64) by lia. lia.
Qed.
Lemma TextEncoder_inj s t : TextEncoder_encode s = TextEncoder_encode t → s = t.
Proof.
  unfold TextEncoder_encode. intros He. rewrite <- (of_chars_chars s), <- (of_chars_chars t). f_equal.
  revert He. generalize (chars t) as l2, (chars s) as l1. clear. intros l2 l1. revert l2.
  induction l1 as [|a l1 IH]; intros [|b l2]; cbn [flat_map]; [done| | |].
  - unfold encode_char. by case_match.
  - unfold encode_char. by case_match.
  - intros [-> He]%encode_char_app. by rewrite (IH l2).
Qed.
