(* ===== verification/JsMap.v ===== *)
(** The [Map] of the language, which keeps its entries in the order they were first
    set, and the stable [Array.prototype.sort]. *)
From stdpp Require Import sorting.
From S2P Require Import Prelude.

(** * Maps *)

Abbreviation JsMap V := (list (string * V)).

Section map.
Context {V : Type}.
Implicit Types (m : JsMap V) (k : string) (v : V).

(** [m.get(k)] and [m.has(k)]. *)
Fixpoint map_get k m : option V :=
  match m with
  | [] => None
  | (k', v) :: m => if bool_decide (k' = k) then Some v else map_get k m
  end.
Definition map_has k m : bool := match map_get k m with Some _ => true | None => false end.
(** [m.set(k, v)] keeps the place of a key that is there. *)
Fixpoint map_set k v m : JsMap V :=
  match m with
  | [] => [(k, v)]
  | (k', v') :: m => if bool_decide (k' = k) then (k, v) :: m else (k', v') :: map_set k v m
  end.
(** [m.delete(k)]. *)
Definition map_delete k m : JsMap V := filter (λ e, fst e ≠ k) m.
(** [new Map(entries)]. *)
Definition map_of (entries : list (string * V)) : JsMap V :=
  foldl (λ m e, map_set (fst e) (snd e) m) [] entries.

(** A map has distinct keys. *)
Definition map_wf m : Prop := NoDup (fst <$> m).

Lemma map_get_elem k v m : map_get k m = Some v → (k, v) ∈ m.
Proof.
  induction m as [|[k' v'] m IH]; cbn [map_get]; [done|]. case_bool_decide as Hk.
  - intros [= ->]. subst. left.
  - intros H. right. by apply IH.
Qed.
Lemma map_get_iff k v m : map_wf m → map_get k m = Some v ↔ (k, v) ∈ m.
Proof.
  intros Hwf. split; [apply map_get_elem|]. induction m as [|[k' v'] m IH]; [by intros ?%elem_of_nil|].
  apply NoDup_cons in Hwf as [Hn Hwf]. cbn [map_get]. intros [[= -> ->]|Hin]%elem_of_cons.
  - by rewrite bool_decide_true.
  - rewrite bool_decide_false; [by apply IH|]. intros ->. apply Hn. apply list_elem_of_fmap. by exists (k, v).
Qed.
Lemma map_get_None k m : map_get k m = None ↔ k ∉ (fst <$> m).
Proof.
  induction m as [|[k' v'] m IH]; cbn [map_get fmap list_fmap fst]; [split; [intros _; apply not_elem_of_nil|done]|].
  rewrite not_elem_of_cons. case_bool_decide; naive_solver.
Qed.
Lemma map_has_spec k m : map_has k m = true ↔ k ∈ (fst <$> m).
Proof.
  unfold map_has. destruct (map_get k m) as [v|] eqn:Hg.
  - split; [|done]. intros _. apply list_elem_of_fmap. exists (k, v). split; [done|by apply map_get_elem].
  - apply map_get_None in Hg. split; done.
Qed.

Lemma map_get_set k k' v m : map_get k (map_set k' v m) = if bool_decide (k' = k) then Some v else map_get k m.
Proof.
  induction m as [|[k0 v0] m IH]; cbn [map_set map_get]; [done|].
  repeat case_bool_decide; subst; cbn [map_get]; rewrite ?bool_decide_true, ?bool_decide_false by done; try done.
Qed.
Lemma map_set_keys k v m : fst <$> map_set k v m = if map_has k m then fst <$> m else (fst <$> m) ++ [k].
Proof.
  unfold map_has. induction m as [|[k' v'] m IH]; cbn [map_set map_get]; [done|]. case_bool_decide as Hk.
  - by rewrite Hk.
  - cbn [fmap list_fmap fst]. fold (fst <$> map_set k v m). rewrite IH. by case_match.
Qed.
Lemma map_set_wf k v m : map_wf m → map_wf (map_set k v m).
Proof.
  unfold map_wf. intros Hwf. rewrite map_set_keys. destruct (map_has k m) eqn:Hh; [done|].
  apply NoDup_app. split_and!; [done| |apply NoDup_singleton].
  intros x Hx ->%list_elem_of_singleton. apply map_has_spec in Hx. congruence.
Qed.
Lemma map_set_elem k v m k' v' : map_wf m →
  (k', v') ∈ map_set k v m ↔ (k' = k ∧ v' = v) ∨ (k' ≠ k ∧ (k', v') ∈ m).
Proof.
  intros Hwf. rewrite <- !map_get_iff by (try apply map_set_wf; done). rewrite map_get_set.
  case_bool_decide; subst; naive_solver.
Qed.

Lemma map_delete_elem k m k' v : (k', v) ∈ map_delete k m ↔ k' ≠ k ∧ (k', v) ∈ m.
Proof. unfold map_delete. by rewrite list_elem_of_filter. Qed.
Lemma filter_wf (P : string * V → Prop) `{∀ e, Decision (P e)} m : map_wf m → map_wf (filter P m).
Proof.
  unfold map_wf. induction m as [|e m IH]; [done|]. rewrite fmap_cons. intros [Hn Hwf]%NoDup_cons.
  rewrite filter_cons.
  case_decide; [|by apply IH]. rewrite fmap_cons. apply NoDup_cons. split; [|by apply IH].
  intros (e' & He & Hin)%list_elem_of_fmap. apply Hn. apply list_elem_of_fmap. exists e'. split; [done|].
  by apply list_elem_of_filter in Hin as [_ ?].
Qed.
Lemma map_delete_wf k m : map_wf m → map_wf (map_delete k m).
Proof. apply filter_wf. Qed.

Lemma map_of_wf entries : map_wf (map_of entries).
Proof.
  unfold map_of. assert (map_wf ([] : JsMap V)) as Hwf by constructor. revert Hwf.
  generalize ([] : JsMap V). induction entries as [|e entries IH]; intros m Hm; [done|].
  apply IH. by apply map_set_wf.
Qed.
Lemma map_set_new k v m : k ∉ (fst <$> m) → map_set k v m = m ++ [(k, v)].
Proof.
  induction m as [|[k' v'] m IH]; cbn [map_set]; [done|]. cbn [fmap list_fmap fst].
  intros [H1 H2]%not_elem_of_cons. rewrite bool_decide_false by done. by rewrite IH.
Qed.
(** Entries with distinct keys make the map they list. *)
Lemma map_of_distinct entries : NoDup (fst <$> entries) → map_of entries = entries.
Proof.
  unfold map_of. intros Hnd. change entries with ([] ++ entries) at 2.
  assert (NoDup (fst <$> ([] ++ entries))) as Hnd' by done. clear Hnd. revert Hnd'.
  generalize ([] : JsMap V). induction entries as [|[k v] entries IH]; intros m Hnd; [by rewrite app_nil_r|].
  cbn [foldl fst snd]. rewrite map_set_new.
  - rewrite IH by (rewrite <- app_assoc; exact Hnd). by rewrite <- app_assoc.
  - rewrite fmap_app in Hnd. apply NoDup_app in Hnd as (_ & Hd & _). intros Hk. apply (Hd k Hk). cbn. left.
Qed.
End map.

(** * Sorting *)

Section sort.
Context {A : Type} (compare : A → A → Z).

(** [l.sort(compare)]: equal elements keep their order. *)
Fixpoint sort_insert (x : A) (l : list A) : list A :=
  match l with
  | [] => [x]
  | y :: l => if compare x y <=? 0 then x :: y :: l else y :: sort_insert x l
  end.
Definition js_sort (l : list A) : list A := foldr sort_insert [] l.

Lemma sort_insert_Permutation x l : sort_insert x l ≡ₚ x :: l.
Proof.
  induction l as [|y l IH]; cbn [sort_insert]; [done|]. case_match; [done|]. rewrite IH. by constructor.
Qed.
Lemma js_sort_Permutation l : js_sort l ≡ₚ l.
Proof. induction l as [|x l IH]; [done|]. cbn. by rewrite sort_insert_Permutation, IH. Qed.

Context (compare_trans : ∀ x y z, compare x y ≤ 0 → compare y z ≤ 0 → compare x z ≤ 0).
Context (compare_total : ∀ x y, 0 < compare x y → compare y x ≤ 0).
Notation le := (λ x y, compare x y ≤ 0).

Lemma sort_insert_sorted x l : StronglySorted le l → StronglySorted le (sort_insert x l).
Proof.
  induction 1 as [|y l Hl IH Hy]; cbn [sort_insert]; [by repeat constructor|].
  destruct (Z.leb_spec (compare x y) 0) as [Hxy|Hxy].
  - constructor; [by constructor|]. constructor; [done|]. eapply Forall_impl; [exact Hy|]. intros z. by apply compare_trans.
  - constructor; [done|]. rewrite sort_insert_Permutation. constructor; [|done]. by apply compare_total.
Qed.
Lemma js_sort_sorted l : StronglySorted le (js_sort l).
Proof. induction l; [constructor|]. by apply sort_insert_sorted. Qed.
End sort.
