(* ===== verification/JsonText.v ===== *)
(** JSON texts and base64 as the code uses them: [JSON.stringify] and [JSON.parse]
    on the values of {!Js}, [btoa] and [atob]. A string escape that denotes a code
    unit above 255 is outside the model, as such strings are. *)
From Stdlib Require Import Ascii.
From stdpp Require Import sorting.
From S2P Require Import Prelude Js.

Notation Text := (list ascii) (only parsing).

Definition quote_char : ascii := char_of_code 34.
Definition backslash : ascii := char_of_code 92.

(** * [JSON.stringify(value)] *)

Definition hex_digit (n : Z) : ascii :=
  if n <? 10 then char_of_code (0x30 + n) else char_of_code (0x61 + (n - 10)).

Definition escape_char (c : ascii) : Text :=
  if bool_decide (c = quote_char) || bool_decide (c = backslash) then [backslash; c]
  else if 0x20 <=? code c then [c]
  else if code c =? 8 then [backslash; "b"%char]
  else if code c =? 9 then [backslash; "t"%char]
  else if code c =? 10 then [backslash; "n"%char]
  else if code c =? 12 then [backslash; "f"%char]
  else if code c =? 13 then [backslash; "r"%char]
  else [backslash; "u"%char; "0"%char; "0"%char; hex_digit (code c / 16); hex_digit (code c mod 16)].

Definition json_quote (s : string) : Text :=
  quote_char :: concat (escape_char <$> chars s) ++ [quote_char].

(** The members or elements with commas between them. *)
Fixpoint comma_join (l : list Text) : Text :=
  match l with
  | [] => []
  | [x] => x
  | x :: l => x ++ ","%char :: comma_join l
  end.

Fixpoint JSON_stringify (j : Json) : Text :=
  match j with
  | JNull => chars "null"
  | JBool true => chars "true"
  | JBool false => chars "false"
  | JInt z => chars (show z)
  | JFrac text => chars text
  | JStr s => json_quote s
  | JArr l => "["%char :: comma_join (List.map JSON_stringify l) ++ ["]"%char]
  | JObj members =>
      "{"%char :: comma_join
        (List.map (λ m : string * Json, json_quote (fst m) ++ ":"%char :: JSON_stringify (snd m)) members)
      ++ ["}"%char]
  end.

(** * [JSON.parse(text)] *)

Definition is_space (c : ascii) : bool :=
  (code c =? 0x20) || (code c =? 9) || (code c =? 10) || (code c =? 13).
Fixpoint skip_space (l : Text) : Text :=
  match l with
  | c :: l' => if is_space c then skip_space l' else l
  | [] => []
  end.

(** The longest prefix of digits, and the rest. *)
Fixpoint span_digits (l : Text) : Text * Text :=
  match l with
  | c :: l' => if is_digit c then let '(d, r) := span_digits l' in (c :: d, r) else ([], l)
  | [] => ([], [])
  end.

(** ** Numbers *)

(** The binary64 value nearest to [d * 10^e], ties to even: [Some] when it is an
    integer. *)
Definition round_even (n m : Z) : Z :=
  let q := n / m in
  let r := n mod m in
  if 2 * r <? m then q else if m <? 2 * r then q + 1 else if Z.even q then q else q + 1.
Definition decimal_integer (d e : Z) : option Z :=
  if 0 <=? e then Some (Number_of_bigint (d * 10 ^ e))
  else if d =? 0 then Some 0
  else
    let p := 10 ^ (- e) in
    if d mod p =? 0 then Some (Number_of_bigint (d / p))
    else
      let guess := Z.log2 d - Z.log2 p in
      let floor_log := if d * 2 ^ Z.max 0 (- guess) <? p * 2 ^ Z.max 0 guess then guess - 1 else guess in
      (* the unit in the last place is [2^unit] *)
      let unit := Z.max (floor_log - 52) (-1074) in
      if 0 <=? unit then Some (round_even d (p * 2 ^ unit) * 2 ^ unit)
      else
        let s := round_even (d * 2 ^ (- unit)) p in
        if s mod 2 ^ (- unit) =? 0 then Some (s / 2 ^ (- unit)) else None.

(** An unsigned number: its digits, fraction and exponent. *)
Definition parse_fraction (l : Text) : option (Text * Text) :=
  match l with
  | "."%char :: l' => let '(d, r) := span_digits l' in
                      match d with [] => None | _ => Some (d, r) end
  | _ => Some ([], l)
  end.
Definition parse_exponent (l : Text) : option (Z * Text) :=
  match l with
  | c :: l' =>
      if bool_decide (c = "e"%char) || bool_decide (c = "E"%char) then
        let '(sign, l') := match l' with
                           | "-"%char :: r => (-1, r)
                           | "+"%char :: r => (1, r)
                           | _ => (1, l')
                           end in
        let '(d, r) := span_digits l' in
        match d with [] => None | _ => Some (sign * digits_val d, r) end
      else Some (0, l)
  | [] => Some (0, [])
  end.

Definition parse_number (l : Text) : option (Json * Text) :=
  let '(negative, body) := match l with "-"%char :: r => (true, r) | _ => (false, l) end in
  let '(d, r) := span_digits body in
  match d with
  | [] => None
  | c :: d' =>
      if bool_decide (c = "0"%char) && negb (bool_decide (d' = [])) then None
      else
        '(f, r) ← parse_fraction r;
        '(e, r) ← parse_exponent r;
        let text := take (length l - length r) l in
        Some (match decimal_integer (digits_val (d ++ f)) (e - Z.of_nat (length f)) with
              | Some n => JInt (if (negative : bool) then - n else n)
              | None => JFrac (of_chars text)
              end, r)
  end.

(** ** Strings *)

Definition hex_val (c : ascii) : option Z :=
  if is_digit c then Some (code c - 0x30)
  else if in_range 0x61 0x66 c then Some (code c - 0x57)
  else if in_range 0x41 0x46 c then Some (code c - 0x37)
  else None.

Definition unescape (c : ascii) : option ascii :=
  if bool_decide (c = quote_char) || bool_decide (c = backslash) || bool_decide (c = "/"%char) then Some c
  else if bool_decide (c = "b"%char) then Some (char_of_code 8)
  else if bool_decide (c = "t"%char) then Some (char_of_code 9)
  else if bool_decide (c = "n"%char) then Some (char_of_code 10)
  else if bool_decide (c = "f"%char) then Some (char_of_code 12)
  else if bool_decide (c = "r"%char) then Some (char_of_code 13)
  else None.

(** The characters after an opening quote, and what follows the closing one. *)
Fixpoint parse_chars (l : Text) : option (Text * Text) :=
  match l with
  | [] => None
  | c :: l =>
      if bool_decide (c = quote_char) then Some ([], l)
      else if code c <? 0x20 then None
      else if bool_decide (c = backslash) then
        match l with
        | [] => None
        | e :: l =>
            if bool_decide (e = "u"%char) then
              match l with
              | h1 :: h2 :: h3 :: h4 :: l =>
                  n1 ← hex_val h1; n2 ← hex_val h2; n3 ← hex_val h3; n4 ← hex_val h4;
                  if (n1 =? 0) && (n2 =? 0) then
                    '(s, r) ← parse_chars l; Some (char_of_code (16 * n3 + n4) :: s, r)
                  else None
              | _ => None
              end
            else x ← unescape e; '(s, r) ← parse_chars l; Some (x :: s, r)
        end
      else '(s, r) ← parse_chars l; Some (c :: s, r)
  end.

(** ** Objects *)

(** A later member of the same name replaces the value of the first. *)
Fixpoint set_member (name : string) (value : Json) (members : list (string * Json))
    : list (string * Json) :=
  match members with
  | [] => [(name, value)]
  | (n, v) :: members =>
      if bool_decide (n = name) then (n, value) :: members else (n, v) :: set_member name value members
  end.

(** Names that are array indices come first, in order. *)
Definition index_key (name : string) : option Z :=
  let l := chars name in
  if negb (bool_decide (l = [])) && forallb is_digit l
     && (bool_decide (l = ["0"%char]) || negb (bool_decide (hd "0"%char l = "0"%char)))
     && (digits_val l <? 2 ^ 32 - 1)
  then Some (digits_val l) else None.
Definition index_le (a b : string * Json) : Prop :=
  default 0 (index_key (fst a)) ≤ default 0 (index_key (fst b)).
#[global] Instance index_le_dec : RelDecision index_le.
Proof. intros a b. unfold index_le. apply _. Defined.
Definition object_order (members : list (string * Json)) : list (string * Json) :=
  merge_sort index_le (filter (λ m, is_Some (index_key (fst m))) members)
  ++ filter (λ m, ¬ is_Some (index_key (fst m))) members.

(** ** Values *)

Definition strip (literal : string) (l : Text) : option Text :=
  let n := length (chars literal) in
  if bool_decide (take n l = chars literal) then Some (drop n l) else None.

(** [fuel] bounds the tokens of the text; its length is enough. *)
Fixpoint parse_value (fuel : nat) (l : Text) : option (Json * Text) :=
  match fuel with
  | O => None
  | S fuel =>
      match skip_space l with
      | [] => None
      | c :: r =>
          if bool_decide (c = quote_char) then '(s, r) ← parse_chars r; Some (JStr (of_chars s), r)
          else if bool_decide (c = "["%char) then
            match skip_space r with
            | "]"%char :: r => Some (JArr [], r)
            | r => '(l, r) ← parse_elements fuel r; Some (JArr l, r)
            end
          else if bool_decide (c = "{"%char) then
            match skip_space r with
            | "}"%char :: r => Some (JObj [], r)
            | r => '(members, r) ← parse_members fuel [] r; Some (JObj (object_order members), r)
            end
          else if bool_decide (c = "n"%char) then r ← strip "ull" r; Some (JNull, r)
          else if bool_decide (c = "t"%char) then r ← strip "rue" r; Some (JBool true, r)
          else if bool_decide (c = "f"%char) then r ← strip "alse" r; Some (JBool false, r)
          else parse_number (c :: r)
      end
  end
with parse_elements (fuel : nat) (l : Text) : option (list Json * Text) :=
  match fuel with
  | O => None
  | S fuel =>
      '(j, r) ← parse_value fuel l;
      match skip_space r with
      | ","%char :: r => '(l, r) ← parse_elements fuel r; Some (j :: l, r)
      | "]"%char :: r => Some ([j], r)
      | _ => None
      end
  end
with parse_members (fuel : nat) (acc : list (string * Json)) (l : Text)
    : option (list (string * Json) * Text) :=
  match fuel with
  | O => None
  | S fuel =>
      match skip_space l with
      | c :: r =>
          if bool_decide (c = quote_char) then
            '(name, r) ← parse_chars r;
            match skip_space r with
            | ":"%char :: r =>
                '(j, r) ← parse_value fuel r;
                let acc := set_member (of_chars name) j acc in
                match skip_space r with
                | ","%char :: r => parse_members fuel acc r
                | "}"%char :: r => Some (acc, r)
                | _ => None
                end
            | _ => None
            end
          else None
      | [] => None
      end
  end.

Definition JSON_parse (l : Text) : option Json :=
  '(j, r) ← parse_value (2 * length l + 1) l;
  match skip_space r with [] => Some j | _ => None end.

(** * What is printed parses back *)

(** Values without fractions, whose integers are safe and whose objects have
    distinct names, none an array index. *)
Inductive json_plain : Json → Prop :=
| plain_null : json_plain JNull
| plain_bool b : json_plain (JBool b)
| plain_int z : isSafeInteger z = true → json_plain (JInt z)
| plain_str s : json_plain (JStr s)
| plain_arr l : Forall json_plain l → json_plain (JArr l)
| plain_obj members : NoDup (fst <$> members) →
    Forall (λ m, index_key (fst m) = None) members →
    Forall (λ m, json_plain (snd m)) members → json_plain (JObj members).

Lemma bind_Some {A C} (a : A) (f : A → option C) : (Some a ≫= f) = f a.
Proof. done. Qed.

Lemma parse_escaped c X :
  parse_chars (escape_char c ++ X) = '(s, r) ← parse_chars X; Some (c :: s, r).
Proof. destruct c as [[] [] [] [] [] [] [] []]; reflexivity. Qed.

Lemma parse_quoted l rest :
  parse_chars (concat (escape_char <$> l) ++ quote_char :: rest) = Some (l, rest).
Proof.
  induction l as [|c l IH]; [reflexivity|]. rewrite fmap_cons. simpl concat.
  rewrite <- app_assoc, parse_escaped, IH. done.
Qed.

(** What may follow a value. *)
Definition ends (rest : Text) : Prop :=
  match rest with
  | [] => True
  | c :: _ => is_digit c = false ∧ c ≠ "."%char ∧ c ≠ "e"%char ∧ c ≠ "E"%char
  end.

Lemma span_digits_app l rest : forallb is_digit l = true → ends rest → span_digits (l ++ rest) = (l, rest).
Proof.
  intros Hl Hr. induction l as [|c l IH]; simpl in *.
  - destruct rest as [|c rest]; [done|]. simpl. by destruct Hr as [-> _].
  - apply andb_true_iff in Hl as [-> Hl]. by rewrite IH.
Qed.

Lemma parse_fraction_ends rest : ends rest → parse_fraction rest = Some ([], rest).
Proof.
  destruct rest as [|c rest]; [done|]. intros (_ & Hc & _). unfold parse_fraction.
  repeat case_match; done.
Qed.
Lemma parse_exponent_ends rest : ends rest → parse_exponent rest = Some (0, rest).
Proof.
  destruct rest as [|c rest]; [done|]. intros (_ & _ & He & HE). unfold parse_exponent.
  by rewrite !bool_decide_false.
Qed.

Lemma parse_digits (neg : bool) l n rest :
  forallb is_digit l = true → l ≠ [] → digits_val l = n → 0 ≤ n < 2 ^ 53 →
  (hd "0"%char l = "0"%char → l = ["0"%char]) → ends rest →
  parse_number ((if neg then ["-"%char] else []) ++ l ++ rest)
  = Some (JInt (if neg then - n else n), rest).
Proof.
  intros Hl Hne Hv Hn Hz Hr. unfold parse_number.
  assert (∀ X, match (if neg then ["-"%char] else []) ++ l ++ X with
               | "-"%char :: r => (true, r) | _ => (false, (if neg then ["-"%char] else []) ++ l ++ X)
               end = (neg, l ++ X)) as Hbody.
  { intros X. destruct neg; [done|]. destruct l as [|c l]; [done|]. simpl in *.
    apply andb_true_iff in Hl as [Hc _]. clear -Hc. destruct c as [[] [] [] [] [] [] [] []]; done. }
  rewrite Hbody, span_digits_app by done. clear Hbody.
  destruct l as [|c l]; [done|].
  assert (bool_decide (c = "0"%char) && negb (bool_decide (l = [])) = false) as ->.
  { case_bool_decide as Hc; [|done]. subst c. specialize (Hz eq_refl). injection Hz as ->. done. }
  rewrite parse_fraction_ends by done. rewrite bind_Some. rewrite parse_exponent_ends by done.
  rewrite bind_Some, app_nil_r, Hv.
  replace (decimal_integer n (0 - Z.of_nat (length []))) with (Some n); [done|].
  unfold decimal_integer. simpl. rewrite Z.mul_1_r, Number_of_bigint_small by lia. done.
Qed.

Lemma parse_show z rest : isSafeInteger z = true → ends rest →
  parse_number (chars (show z) ++ rest) = Some (JInt z, rest).
Proof.
  intros Hz%isSafeInteger_spec Hr. destruct z as [|p|p].
  - apply (parse_digits false ["0"%char] 0); done || lia.
  - destruct (pretty_positive_digits p) as (l & Hl & Hd & Hv & Hh).
    change (show (Z.pos p)) with (pretty (N.pos p)). rewrite Hl.
    apply (parse_digits false l (Z.pos p)); try done; [|lia]. by intros ->.
  - destruct (pretty_positive_digits p) as (l & Hl & Hd & Hv & Hh).
    change (show (Z.neg p)) with ("-" +:+ pretty (N.pos p)). rewrite chars_app, Hl.
    rewrite <- app_assoc. apply (parse_digits true l (Z.pos p)); try done; [|lia]. by intros ->.
Qed.

(** A number starts with a digit or a dash, which no other value does. *)
Lemma parse_value_number fuel c r :
  is_digit c = true ∨ c = "-"%char → parse_value (S fuel) (c :: r) = parse_number (c :: r).
Proof.
  intros Hc. cbn [parse_value].
  assert (skip_space (c :: r) = c :: r) as ->.
  { simpl. destruct Hc as [Hc| ->]; [|done]. destruct c as [[] [] [] [] [] [] [] []]; done. }
  cbn iota. destruct Hc as [Hc| ->]; [|reflexivity].
  destruct c as [[] [] [] [] [] [] [] []]; try discriminate Hc; reflexivity.
Qed.

Lemma show_starts z : ∃ c l, chars (show z) = c :: l ∧ (is_digit c = true ∨ c = "-"%char).
Proof.
  destruct z as [|p|p].
  - exists "0"%char, []. split; [done|by left].
  - destruct (pretty_positive_digits p) as (l & Hl & Hd & _ & Hh).
    change (show (Z.pos p)) with (pretty (N.pos p)). rewrite Hl. destruct l as [|c l]; [done|].
    apply andb_true_iff in Hd as [Hc _]. exists c, l. split; [done|by left].
  - exists "-"%char, (chars (pretty (N.pos p))). split; [done|by right].
Qed.

Lemma stringify_starts j : json_plain j →
  ∃ c l, JSON_stringify j = c :: l ∧ is_space c = false ∧ c ≠ "]"%char ∧ c ≠ "}"%char.
Proof.
  intros Hj. destruct Hj as [|b|z Hz|s|l Hl|members Hm].
  - by exists "n"%char, (chars "ull").
  - destruct b; [by exists "t"%char, (chars "rue")|by exists "f"%char, (chars "alse")].
  - destruct (show_starts z) as (c & l & Hl & Hc). exists c, l. split; [done|].
    destruct Hc as [Hc| ->]; [|done]. clear -Hc. destruct c as [[] [] [] [] [] [] [] []]; done.
  - by eexists _, _.
  - by eexists _, _.
  - by eexists _, _.
Qed.

Lemma skip_space_start c (l : Text) : is_space c = false → skip_space (c :: l) = c :: l.
Proof. simpl. by intros ->. Qed.

Lemma set_member_new name v acc : name ∉ (fst <$> acc) → set_member name v acc = acc ++ [(name, v)].
Proof.
  induction acc as [|[n v'] acc IH]; intros Hn; simpl; [done|].
  apply not_elem_of_cons in Hn as [Hne Hn]. rewrite bool_decide_false by done. by rewrite IH.
Qed.

Lemma object_order_plain members :
  Forall (λ m, index_key (fst m) = None) members → object_order members = members.
Proof.
  intros Hm. unfold object_order.
  assert (filter (λ m : string * Json, is_Some (index_key (fst m))) members = []) as ->.
  { induction Hm as [|m members Hn _ IH]; [done|]. rewrite filter_cons_False; [done|].
    rewrite Hn. by intros [? ?]. }
  simpl. induction Hm as [|m members Hn _ IH]; [done|].
  rewrite filter_cons_True; [by rewrite IH|]. rewrite Hn. by intros [? ?].
Qed.

Lemma comma_join_cons x l :
  l ≠ [] → comma_join (x :: l) = x ++ ","%char :: comma_join l.
Proof. by destruct l. Qed.

(** The parser reads what the printer wrote for every value of up to [n]
    characters. *)
Definition reads (n : nat) : Prop := ∀ j fuel rest,
  json_plain j → (length (JSON_stringify j) ≤ n)%nat →
  (2 * length (JSON_stringify j) + 1 ≤ fuel)%nat → ends rest →
  parse_value fuel (JSON_stringify j ++ rest) = Some (j, rest).

Lemma reads_elements n l fuel rest :
  reads n → l ≠ [] → Forall json_plain l →
  let text := comma_join (List.map JSON_stringify l) in
  (length text ≤ n)%nat → (2 * length text + 2 ≤ fuel)%nat →
  parse_elements fuel (text ++ "]"%char :: rest) = Some (l, rest).
Proof.
  intros Hn Hne Hl. revert fuel. induction Hl as [|j l Hj Hl IH]; intros fuel text Hlen Hf; [done|].
  subst text. destruct fuel as [|fuel]; [lia|]. cbn [List.map] in *. cbn [parse_elements].
  destruct l as [|j' l].
  - cbn [List.map comma_join] in *. rewrite Hn; [|done|done|lia|done]. done.
  - rewrite comma_join_cons in Hlen, Hf |- * by done.
    rewrite length_app in Hlen, Hf. cbn [length] in Hlen, Hf. rewrite <- app_assoc.
    rewrite Hn; [|done|lia|lia|done]. rewrite bind_Some. cbn [app].
    rewrite skip_space_start by done. cbn iota. rewrite IH; [|done|lia|lia]. done.
Qed.

Definition member_text (m : string * Json) : Text :=
  json_quote (fst m) ++ ":"%char :: JSON_stringify (snd m).

Lemma reads_members n members acc fuel rest :
  reads n → members ≠ [] → NoDup (fst <$> acc ++ members) →
  Forall (λ m, json_plain (snd m)) members →
  let text := comma_join (List.map member_text members) in
  (length text ≤ n)%nat → (2 * length text + 2 ≤ fuel)%nat →
  parse_members fuel acc (text ++ "}"%char :: rest) = Some (acc ++ members, rest).
Proof.
  intros Hn Hne Hnd Hl. revert acc fuel Hnd.
  induction Hl as [|[name j] members Hj Hl IH]; intros acc fuel Hnd text Hlen Hf; [done|].
  subst text. destruct fuel as [|fuel]; [lia|]. cbn [List.map] in *. simpl in Hj.
  assert (name ∉ fst <$> acc) as Hname.
  { rewrite fmap_app in Hnd. apply NoDup_app in Hnd as (_ & Hd & _). intros Hin.
    apply (Hd name Hin). by left. }
  assert (∀ tail, parse_members (S fuel) acc (member_text (name, j) ++ tail)
    = '(j, r) ← parse_value fuel (JSON_stringify j ++ tail);
      let acc := set_member name j acc in
      match skip_space r with
      | ","%char :: r => parse_members fuel acc r
      | "}"%char :: r => Some (acc, r)
      | _ => None
      end) as Hstep.
  { intros tail. cbn [parse_members]. unfold member_text, json_quote. cbn [fst snd app].
    rewrite skip_space_start by done. rewrite bool_decide_true by done.
    rewrite <- !app_assoc. cbn [app]. rewrite parse_quoted, bind_Some, of_chars_chars.
    rewrite skip_space_start by done. done. }
  destruct members as [|m members].
  - cbn [List.map comma_join] in *. rewrite Hstep. unfold member_text in Hlen, Hf. cbn [fst snd] in Hlen, Hf.
    rewrite length_app in Hlen, Hf. cbn [length] in Hlen, Hf.
    rewrite Hn; [|done|lia|lia|done]. rewrite bind_Some. cbn zeta.
    rewrite skip_space_start by done. cbn iota. by rewrite set_member_new.
  - rewrite comma_join_cons in Hlen, Hf |- * by done.
    rewrite length_app in Hlen, Hf. cbn [length] in Hlen, Hf. rewrite <- app_assoc, Hstep.
    unfold member_text at 1 in Hlen. unfold member_text at 1 in Hf. cbn [fst snd] in Hlen, Hf.
    rewrite length_app in Hlen, Hf. cbn [length] in Hlen, Hf.
    rewrite Hn; [|done|lia|lia|done]. rewrite bind_Some. cbn zeta. cbn [app].
    rewrite skip_space_start by done. cbn iota. rewrite set_member_new by done.
    rewrite IH; [by rewrite <- app_assoc|done| |lia|lia]. by rewrite <- app_assoc.
Qed.

Lemma parse_array fuel c X : is_space c = false → c ≠ "]"%char →
  parse_value (S fuel) ("["%char :: c :: X)
  = '(l, r) ← parse_elements fuel (c :: X); Some (JArr l, r).
Proof. intros Hs Hc. destruct c as [[] [] [] [] [] [] [] []]; done. Qed.
Lemma parse_object fuel X :
  parse_value (S fuel) ("{"%char :: quote_char :: X)
  = '(members, r) ← parse_members fuel [] (quote_char :: X); Some (JObj (object_order members), r).
Proof. reflexivity. Qed.

Lemma reads_all n : reads n.
Proof.
  induction (lt_wf n) as [n _ IH]. intros j fuel rest Hj Hlen Hf Hr.
  destruct fuel as [|fuel]; [lia|]. destruct Hj as [|b|z Hz|s|l Hl|members Hnd Hk Hm].
  - done.
  - by destruct b.
  - destruct (show_starts z) as (c & l & Hl & Hc). cbn [JSON_stringify]. rewrite Hl. cbn [app].
    rewrite parse_value_number by done. change (c :: l ++ rest) with ((c :: l) ++ rest).
    rewrite <- Hl. by apply parse_show.
  - cbn [JSON_stringify]. unfold json_quote. cbn [app parse_value].
    rewrite skip_space_start by done. rewrite bool_decide_true by done.
    rewrite <- app_assoc. cbn [app]. rewrite parse_quoted, bind_Some. by rewrite of_chars_chars.
  - destruct l as [|j l]; [done|]. set (text := comma_join (List.map JSON_stringify (j :: l))).
    change (JSON_stringify (JArr (j :: l))) with ("["%char :: text ++ ["]"%char]) in *.
    cbn [length] in Hlen, Hf. rewrite length_app in Hlen, Hf. cbn [length] in Hlen, Hf.
    assert (∃ c X, text ++ "]"%char :: rest = c :: X ∧ is_space c = false ∧ c ≠ "]"%char) as (c & X & He & Hsp & Hc).
    { apply Forall_cons in Hl as [Hj _]. destruct (stringify_starts j Hj) as (c & X & Hs & ? & ? & _).
      subst text. cbn [List.map]. destruct l as [|j' l].
      - cbn [List.map comma_join]. rewrite Hs. by eexists _, _.
      - rewrite comma_join_cons by done. rewrite Hs. by eexists _, _. }
    cbn [app]. rewrite <- app_assoc. cbn [app]. rewrite He, parse_array by done.
    rewrite <- He. assert (2 * length text + 2 ≤ fuel)%nat as Hfuel by lia.
    pose proof (reads_elements (length text) (j :: l) fuel rest (IH (length text) ltac:(lia)) ltac:(done) Hl
      ltac:(done) Hfuel) as Hel. fold text in Hel. by rewrite Hel.
  - destruct members as [|m members]; [done|]. set (text := comma_join (List.map member_text (m :: members))).
    change (JSON_stringify (JObj (m :: members))) with ("{"%char :: text ++ ["}"%char]) in *.
    cbn [length] in Hlen, Hf. rewrite length_app in Hlen, Hf. cbn [length] in Hlen, Hf.
    assert (∃ X, text ++ "}"%char :: rest = quote_char :: X) as (X & He).
    { subst text. cbn [List.map]. destruct members as [|m' members].
      - cbn [List.map comma_join]. by eexists.
      - rewrite comma_join_cons by done. by eexists. }
    cbn [app]. rewrite <- app_assoc. cbn [app]. rewrite He, parse_object, <- He.
    assert (2 * length text + 2 ≤ fuel)%nat as Hfuel by lia.
    pose proof (reads_members (length text) (m :: members) [] fuel rest (IH (length text) ltac:(lia)) ltac:(done)
      Hnd Hm ltac:(done) Hfuel) as Hmem. fold text in Hmem. rewrite Hmem.
    rewrite bind_Some. cbn [app]. by rewrite object_order_plain.
Qed.

(** Parsing what was printed gives the value back. *)
Lemma JSON_round_trip j : json_plain j → JSON_parse (JSON_stringify j) = Some j.
Proof.
  intros Hj. unfold JSON_parse.
  rewrite <- (app_nil_r (JSON_stringify j)) at 2.
  rewrite (reads_all (length (JSON_stringify j))) by (done || lia). done.
Qed.

(** * [btoa] and [atob] *)

Definition base64_digit (n : Z) : ascii :=
  if n <? 26 then char_of_code (0x41 + n)
  else if n <? 52 then char_of_code (0x61 + (n - 26))
  else if n <? 62 then char_of_code (0x30 + (n - 52))
  else if n =? 62 then "+"%char else "/"%char.
Definition base64_val (c : ascii) : option Z :=
  if in_range 0x41 0x5A c then Some (code c - 0x41)
  else if in_range 0x61 0x7A c then Some (code c - 0x61 + 26)
  else if in_range 0x30 0x39 c then Some (code c - 0x30 + 52)
  else if bool_decide (c = "+"%char) then Some 62
  else if bool_decide (c = "/"%char) then Some 63
  else None.

Definition pad : ascii := "="%char.

Fixpoint btoa (l : Text) : Text :=
  match l with
  | a :: b :: c :: l =>
      base64_digit (code a / 4) :: base64_digit (code a mod 4 * 16 + code b / 16)
      :: base64_digit (code b mod 16 * 4 + code c / 64) :: base64_digit (code c mod 64) :: btoa l
  | [a; b] => [base64_digit (code a / 4); base64_digit (code a mod 4 * 16 + code b / 16);
               base64_digit (code b mod 16 * 4); pad]
  | [a] => [base64_digit (code a / 4); base64_digit (code a mod 4 * 16); pad; pad]
  | [] => []
  end.

(** The values of the digits, four at a time; the bits left over are dropped. *)
Fixpoint atob_digits (l : list Z) : option Text :=
  match l with
  | a :: b :: c :: d :: l =>
      r ← atob_digits l;
      Some (char_of_code (a * 4 + b / 16) :: char_of_code (b mod 16 * 16 + c / 4)
            :: char_of_code (c mod 4 * 64 + d) :: r)
  | [a; b; c] => Some [char_of_code (a * 4 + b / 16); char_of_code (b mod 16 * 16 + c / 4)]
  | [a; b] => Some [char_of_code (a * 4 + b / 16)]
  | [_] => None
  | [] => Some []
  end.

Definition is_html_space (c : ascii) : bool := is_space c || (code c =? 12).

(** Up to two pads go when the length is a multiple of four. *)
Definition strip_pads (l : Text) : Text :=
  if Nat.eqb (Nat.modulo (length l) 4) 0 then
    match rev l with
    | p :: q :: r => if bool_decide (p = pad) then
                       if bool_decide (q = pad) then rev r else rev (q :: r)
                     else l
    | _ => l
    end
  else l.

Definition atob (l : Text) : option Text :=
  digits ← mapM base64_val (strip_pads (filter (λ c, is_html_space c = false) l));
  atob_digits digits.

(** ** base64 round trips *)

#[local] Ltac div_lia := Z.to_euclidean_division_equations; lia.

Lemma base64_val_digit n : 0 ≤ n < 64 → base64_val (base64_digit n) = Some n.
Proof.
  intros Hn. assert (Z.to_nat n < 64)%nat as Hk by lia.
  replace n with (Z.of_nat (Z.to_nat n)) by lia.
  assert (Forall (λ k, base64_val (base64_digit (Z.of_nat k)) = Some (Z.of_nat k)) (seq 0 64)) as Hall
    by (repeat constructor).
  rewrite Forall_forall in Hall. apply Hall, elem_of_seq. lia.
Qed.

Lemma base64_val_plain c n : base64_val c = Some n → c ≠ pad ∧ is_html_space c = false.
Proof. destruct c as [[] [] [] [] [] [] [] []]; intros Hc; try discriminate Hc; done. Qed.

(** The digits of [btoa] without the pads. *)
Fixpoint base64_vals (l : Text) : list Z :=
  match l with
  | a :: b :: c :: l =>
      code a / 4 :: code a mod 4 * 16 + code b / 16 :: code b mod 16 * 4 + code c / 64
      :: code c mod 64 :: base64_vals l
  | [a; b] => [code a / 4; code a mod 4 * 16 + code b / 16; code b mod 16 * 4]
  | [a] => [code a / 4; code a mod 4 * 16]
  | [] => []
  end.

Lemma three_step (P : Text → Prop) :
  P [] → (∀ a, P [a]) → (∀ a b, P [a; b]) → (∀ a b c l, P l → P (a :: b :: c :: l)) → ∀ l, P l.
Proof.
  intros H0 H1 H2 H3. fix go 1. intros [|a [|b [|c l]]]; [done|apply H1|apply H2|apply H3, go].
Qed.

Lemma base64_vals_range l : Forall (λ n, 0 ≤ n < 64) (base64_vals l).
Proof.
  induction l as [|a|a b|a b c l IH] using three_step; cbn [base64_vals]; repeat apply Forall_cons_2; try done;
    pose proof (code_range a); try pose proof (code_range b); try pose proof (code_range c); div_lia.
Qed.

Lemma btoa_vals l : ∃ k, (k ≤ 2)%nat ∧ btoa l = (base64_digit <$> base64_vals l) ++ replicate k pad
  ∧ Nat.modulo (length (base64_vals l) + k) 4 = O ∧ (k ≠ O → base64_vals l ≠ []).
Proof.
  induction l as [|a|a b|a b c l IH] using three_step.
  - exists O. split_and!; done || lia.
  - exists 2%nat. split_and!; done || lia.
  - exists 1%nat. split_and!; done || lia.
  - destruct IH as (k & Hk & Hb & Hm & Hne). exists k. split_and!; [done| | |done].
    + cbn [btoa base64_vals]. rewrite Hb. done.
    + etrans; [|exact Hm]. cbn [base64_vals length].
      rewrite <- (Nat.Div0.mod_add (length (base64_vals l) + k) 1 4). f_equal. lia.
Qed.

Lemma strip_pads_spec d k :
  (k ≤ 2)%nat → Forall (λ c, c ≠ pad) d → Nat.modulo (length d + k) 4 = O → (k ≠ O → d ≠ []) →
  strip_pads (d ++ replicate k pad) = d.
Proof.
  intros Hk Hd Hm Hne. unfold strip_pads. rewrite length_app, length_replicate, Hm. cbn [Nat.eqb].
  destruct d as [|q d _] using rev_ind; [destruct k; [done|by destruct Hne]|].
  apply Forall_app in Hd as [_ Hq]. apply Forall_cons in Hq as [Hq _].
  rewrite !rev_app_distr. destruct k as [|[|[|k]]]; [| | |lia]; simpl.
  - rewrite app_nil_r. destruct (rev d) as [|q' r] eqn:Hr; [done|]. by rewrite bool_decide_false.
  - rewrite (bool_decide_false (q = pad)) by done. simpl. by rewrite rev_involutive.
  - simpl. by rewrite rev_involutive.
Qed.

Lemma atob_digits_vals l : atob_digits (base64_vals l) = Some l.
Proof.
  induction l as [|a|a b|a b c l IH] using three_step; cbn [base64_vals atob_digits]; [done|..];
    pose proof (code_range a); try pose proof (code_range b); try pose proof (code_range c).
  - do 2 f_equal. rewrite <- (char_of_code_code a) at 3. f_equal. div_lia.
  - f_equal. f_equal; [rewrite <- (char_of_code_code a) at 3; f_equal; div_lia|f_equal].
    rewrite <- (char_of_code_code b) at 3. f_equal. div_lia.
  - rewrite IH, bind_Some. f_equal. f_equal; [rewrite <- (char_of_code_code a) at 3; f_equal; div_lia|f_equal].
    + rewrite <- (char_of_code_code b) at 3. f_equal. div_lia.
    + f_equal. rewrite <- (char_of_code_code c) at 3. f_equal. div_lia.
Qed.

Lemma base64_round_trip l : atob (btoa l) = Some l.
Proof.
  unfold atob. pose proof (base64_vals_range l) as Hr.
  assert (mapM base64_val (base64_digit <$> base64_vals l) = Some (base64_vals l)) as Hmap.
  { induction Hr as [|n vs Hn _ IH]; [done|]. rewrite fmap_cons.
    change (mapM base64_val (base64_digit n :: (base64_digit <$> vs)))
      with (y ← base64_val (base64_digit n); k ← mapM base64_val (base64_digit <$> vs); mret (y :: k)).
    rewrite base64_val_digit, bind_Some by done. by rewrite IH. }
  assert (Forall (λ c, c ≠ pad ∧ is_html_space c = false) (base64_digit <$> base64_vals l)) as Hplain.
  { apply Forall_fmap. eapply Forall_impl; [exact Hr|]. intros n Hn. simpl.
    by eapply base64_val_plain, base64_val_digit. }
  destruct (btoa_vals l) as (k & Hk & -> & Hm & Hne).
  assert (filter (λ c, is_html_space c = false) ((base64_digit <$> base64_vals l) ++ replicate k pad)
    = (base64_digit <$> base64_vals l) ++ replicate k pad) as ->.
  { assert (Forall (λ c, is_html_space c = false)
      ((base64_digit <$> base64_vals l) ++ replicate k pad)) as Hall.
    { apply Forall_app. split; [|by apply Forall_replicate].
      eapply Forall_impl; [exact Hplain|]. by intros c [_ ?]. }
    induction Hall as [|c text Hc _ IHt]; [done|]. rewrite filter_cons_True by done. by rewrite IHt. }
  rewrite strip_pads_spec; [|done| |by rewrite length_fmap|].
  - rewrite Hmap, bind_Some. apply atob_digits_vals.
  - eapply Forall_impl; [exact Hplain|]. by intros c [? _].
  - intros Hk0. specialize (Hne Hk0). by destruct (base64_vals l).
Qed.

(** * [Number(text)] *)

(** The white space of [\s] and [String.prototype.trim] below code unit 256. *)
Definition is_js_space (c : ascii) : bool :=
  is_space c || (code c =? 11) || (code c =? 12) || (code c =? 0xA0).
Fixpoint trim_start (l : Text) : Text :=
  match l with
  | c :: l' => if is_js_space c then trim_start l' else l
  | [] => []
  end.
Definition trim_text (l : Text) : Text := rev (trim_start (rev (trim_start l))).

(** The digits of a literal with a radix prefix. *)
Fixpoint radix_digits (radix acc : Z) (l : Text) : option Z :=
  match l with
  | [] => Some acc
  | c :: l =>
      match hex_val c with
      | Some n => if n <? radix then radix_digits radix (radix * acc + n) l else None
      | None => None
      end
  end.
Definition radix_literal (radix : Z) (l : Text) : option Json :=
  match l with [] => None | _ => (λ n, JInt (Number_of_bigint n)) <$> radix_digits radix 0 l end.

(** A [StrDecimalLiteral]: the whole of [l]. *)
Definition decimal_literal (l : Text) : option Json :=
  let '(negative, body) := match l with
                           | "-"%char :: r => (true, r)
                           | "+"%char :: r => (false, r)
                           | _ => (false, l)
                           end in
  if bool_decide (body = chars "Infinity") then Some (JFrac (of_chars l))
  else
    let '(d, r) := span_digits body in
    let '(f, r) := match r with "."%char :: r' => span_digits r' | _ => ([], r) end in
    match d ++ f with
    | [] => None
    | digits =>
        '(e, r) ← parse_exponent r;
        match r with
        | [] => Some (match decimal_integer (digits_val digits) (e - Z.of_nat (length f)) with
                      | Some n => JInt (if (negative : bool) then - n else n)
                      | None => JFrac (of_chars l)
                      end)
        | _ => None
        end
    end.

Definition NaN : Json := JFrac "NaN".
Definition Number_of_text (text : string) : Json :=
  let l := trim_text (chars text) in
  default NaN
    match l with
    | [] => Some (JInt 0)
    | "0"%char :: c :: r =>
        if bool_decide (c = "x"%char) || bool_decide (c = "X"%char) then radix_literal 16 r
        else if bool_decide (c = "o"%char) || bool_decide (c = "O"%char) then radix_literal 8 r
        else if bool_decide (c = "b"%char) || bool_decide (c = "B"%char) then radix_literal 2 r
        else decimal_literal l
    | _ => decimal_literal l
    end.

Example Number_cases :
  Number_of_text " 0x1F " = JInt 31 ∧ Number_of_text "300" = JInt 300
  ∧ Number_of_text "+3.0e1" = JInt 30 ∧ Number_of_text "12px" = NaN
  ∧ Number_of_text ".5" = JFrac ".5" ∧ Number_of_text "007" = JInt 7 ∧ Number_of_text "." = NaN.
Proof. repeat split; vm_compute; reflexivity. Qed.

(** * What is parsed has distinct names *)

Lemma set_member_keys name v acc :
  fst <$> set_member name v acc
  = (fst <$> acc) ++ (if bool_decide (name ∈ fst <$> acc) then [] else [name]).
Proof.
  induction acc as [|[n w] acc IH]; [done|]. cbn [set_member]. destruct (decide (n = name)) as [->|Hn].
  - rewrite (bool_decide_eq_true_2 (name = name)) by done. rewrite !fmap_cons. cbn [fst].
    rewrite bool_decide_eq_true_2 by left. by rewrite app_nil_r.
  - rewrite (bool_decide_eq_false_2 (n = name)) by done.
    rewrite !fmap_cons. cbn [fst app]. rewrite IH. f_equal. f_equal.
    rewrite (bool_decide_ext (name ∈ n :: _) (name ∈ fst <$> acc)); [done|].
    rewrite elem_of_cons. naive_solver.
Qed.

Lemma set_member_NoDup name v acc : NoDup (fst <$> acc) → NoDup (fst <$> set_member name v acc).
Proof.
  intros Ha. rewrite set_member_keys. case_bool_decide as Hn; [by rewrite app_nil_r|].
  apply NoDup_app. split; [done|]. split; [|apply NoDup_singleton].
  intros x Hx ->%list_elem_of_singleton. done.
Qed.

Lemma object_order_Permutation members : object_order members ≡ₚ members.
Proof. unfold object_order. rewrite merge_sort_Permutation. apply filter_app_complement. Qed.

(** Every object in a value has distinct names. *)
Inductive json_distinct : Json → Prop :=
| distinct_leaf j : (∀ l, j ≠ JArr l) → (∀ m, j ≠ JObj m) → json_distinct j
| distinct_arr l : Forall json_distinct l → json_distinct (JArr l)
| distinct_obj members : NoDup (fst <$> members) →
    Forall (λ m, json_distinct (snd m)) members → json_distinct (JObj members).

Lemma set_member_distinct name v acc :
  json_distinct v → Forall (λ m, json_distinct (snd m)) acc →
  Forall (λ m, json_distinct (snd m)) (set_member name v acc).
Proof.
  intros Hv. induction 1 as [|[n w] acc Hw Ha IH]; simpl; [by constructor|].
  case_bool_decide; by constructor.
Qed.

Lemma parse_number_leaf l j r : parse_number l = Some (j, r) → json_distinct j.
Proof.
  unfold parse_number. destruct (match l with "-"%char :: r => (true, r) | _ => (false, l) end) as [n b].
  destruct (span_digits b) as [[|c d] r1]; [done|]. destruct (_ && _); [done|].
  destruct (parse_fraction r1) as [[f r2]|]; [|done]. rewrite bind_Some.
  destruct (parse_exponent r2) as [[e r3]|]; [|done]. rewrite bind_Some.
  intros [= <- _]. destruct (decimal_integer _ _); by apply distinct_leaf.
Qed.

(** A match on a character, as a test. *)
Ltac by_char l := destruct l as [|[[] [] [] [] [] [] [] []] l]; reflexivity.
Lemma elements_case {A} (f g : Text → option A) l :
  (match l with ","%char :: r => f r | "]"%char :: r => g r | _ => None end)
  = match l with
    | c :: r => if bool_decide (c = ","%char) then f r
                else if bool_decide (c = "]"%char) then g r else None
    | [] => None
    end.
Proof. by_char l. Qed.
Lemma members_case {A} (f g : Text → option A) l :
  (match l with ","%char :: r => f r | "}"%char :: r => g r | _ => None end)
  = match l with
    | c :: r => if bool_decide (c = ","%char) then f r
                else if bool_decide (c = "}"%char) then g r else None
    | [] => None
    end.
Proof. by_char l. Qed.
Lemma colon_case {A} (f : Text → option A) l :
  (match l with ":"%char :: r => f r | _ => None end)
  = match l with c :: r => if bool_decide (c = ":"%char) then f r else None | [] => None end.
Proof. by_char l. Qed.

(** Peel the binds and tests of a parser that ended well. *)
Ltac peel_parse H :=
  repeat first
    [ rewrite bind_Some in H
    | match type of H with
      | (if ?x then _ else _) = Some _ => destruct x
      | (?x ≫= _) = Some _ => let E := fresh "E" in destruct x as [[? ?]|] eqn:E; [|discriminate H]
      | (?x ≫= _) = Some _ => let E := fresh "E" in destruct x eqn:E; [|discriminate H]
      end
    | discriminate H ].

Lemma parse_distinct fuel :
  (∀ l j r, parse_value fuel l = Some (j, r) → json_distinct j)
  ∧ (∀ l js r, parse_elements fuel l = Some (js, r) → Forall json_distinct js)
  ∧ (∀ acc l ms r, parse_members fuel acc l = Some (ms, r) →
       NoDup (fst <$> acc) → Forall (λ m, json_distinct (snd m)) acc →
       NoDup (fst <$> ms) ∧ Forall (λ m, json_distinct (snd m)) ms).
Proof.
  induction fuel as [|fuel (IHv & IHe & IHm)]; [split_and!; by intros|].
  assert (∀ X js r, ('(l, r) ← parse_elements fuel X; Some (JArr l, r)) = Some (js, r) →
    json_distinct js) as Harr.
  { intros X js r H. peel_parse H. injection H as <- <-. apply distinct_arr. by eapply IHe. }
  assert (∀ X js r, ('(ms, r) ← parse_members fuel [] X; Some (JObj (object_order ms), r)) = Some (js, r) →
    json_distinct js) as Hobj.
  { intros X js r H. peel_parse H. injection H as <- <-.
    apply IHm in E as [Hn Hd]; [|constructor|constructor].
    apply distinct_obj; by rewrite object_order_Permutation. }
  split_and!.
  - intros l j r H. cbn [parse_value] in H. destruct (skip_space l) as [|c rest]; [done|].
    destruct (bool_decide (c = quote_char)).
    { peel_parse H. injection H as <- _. by apply distinct_leaf. }
    destruct (bool_decide (c = "["%char)).
    { clear Hobj. destruct (skip_space rest) as [|[[] [] [] [] [] [] [] []] X];
        first [exact (Harr _ _ _ H) | injection H as <- _; by apply distinct_arr]. }
    destruct (bool_decide (c = "{"%char)).
    { destruct (skip_space rest) as [|[[] [] [] [] [] [] [] []] X];
        first [exact (Hobj _ _ _ H) | injection H as <- _; apply distinct_obj; constructor]. }
    peel_parse H; try (injection H as <- _; by apply distinct_leaf). by eapply parse_number_leaf.
  - intros l js r H. cbn [parse_elements] in H. peel_parse H. rewrite elements_case in H.
    destruct (skip_space _) as [|c X]; [done|]. peel_parse H; injection H as <- _.
    + constructor; [by eapply IHv|by eapply IHe].
    + constructor; [by eapply IHv|done].
  - intros acc l ms r H Hn Hd. cbn [parse_members] in H.
    destruct (skip_space l) as [|c X]; [done|]. destruct (bool_decide _); [|done].
    peel_parse H. rewrite colon_case in H. destruct (skip_space _) as [|c' X']; [done|].
    peel_parse H. cbv zeta in H. rewrite members_case in H.
    assert (json_distinct j) as Hj by by eapply IHv.
    destruct (skip_space _) as [|c'' X'']; [done|]. destruct (bool_decide _).
    + eapply IHm; [done|by apply set_member_NoDup|by apply set_member_distinct].
    + destruct (bool_decide _); [|done]. injection H as <- _.
      split; [by apply set_member_NoDup|by apply set_member_distinct].
Qed.

Lemma JSON_parse_distinct l j : JSON_parse l = Some j → json_distinct j.
Proof.
  unfold JSON_parse. intros H. peel_parse H. injection H as <-. by apply (proj1 (parse_distinct (2 * length l + 1)) l j0 l0).
Qed.

(** ** Texts of numbers *)

Lemma show_digits n : 0 ≤ n → forallb is_digit (chars (show n)) = true ∧ digits_val (chars (show n)) = n
  ∧ chars (show n) ≠ [].
Proof.
  intros Hn. destruct n as [|p|p]; [by vm_compute| |lia].
  destruct (pretty_positive_digits p) as (l & Hl & Hd & Hv & _).
  change (chars (show (Z.pos p))) with (chars (pretty (Npos p))). rewrite Hl.
  split_and!; [done..|]. by intros ->.
Qed.

Lemma trim_start_plain c l : is_js_space c = false → trim_start (c :: l) = c :: l.
Proof. intros H. cbn. by rewrite H. Qed.
(** Text that neither starts nor ends with white space. *)
Lemma trim_text_plain c l c' : is_js_space c = false → is_js_space c' = false →
  trim_text (c :: l ++ [c']) = c :: l ++ [c'].
Proof.
  intros H H'. unfold trim_text. rewrite trim_start_plain by done.
  change (c :: l ++ [c']) with ((c :: l) ++ [c']). rewrite rev_app_distr. cbn [rev app].
  rewrite trim_start_plain by done.
  change (rev (c' :: rev l ++ [c])) with (rev (rev l ++ [c]) ++ [c']).
  by rewrite rev_app_distr, rev_involutive.
Qed.


Lemma digit_plain c : is_digit c = true →
  is_js_space c = false ∧ c ≠ "-"%char ∧ c ≠ "+"%char ∧ c ≠ "x"%char ∧ c ≠ "X"%char ∧ c ≠ "o"%char
  ∧ c ≠ "O"%char ∧ c ≠ "b"%char ∧ c ≠ "B"%char ∧ c ≠ "I"%char.
Proof. destruct c as [[] [] [] [] [] [] [] []]; intros Hc; vm_compute in Hc; try discriminate Hc; split_and!; done. Qed.
Lemma trim_digits l : forallb is_digit l = true → trim_text l = l.
Proof.
  assert (∀ l, forallb is_digit l = true → trim_start l = l) as Hts.
  { intros [|c r]; [done|]. cbn [forallb]. intros [Hc _]%andb_true_iff. by apply trim_start_plain, digit_plain. }
  intros Hl. unfold trim_text. rewrite (Hts l) by done. rewrite Hts; [apply rev_involutive|].
  apply forallb_forall. intros c Hc. rewrite forallb_forall in Hl. by apply Hl, in_rev.
Qed.
Lemma decimal_digits l n : forallb is_digit l = true → l ≠ [] → digits_val l = n → 0 ≤ n < 2 ^ 53 →
  decimal_literal l = Some (JInt n).
Proof.
  intros Hd Hne Hv Hn. unfold decimal_literal. destruct l as [|c r]; [done|].
  pose proof Hd as [Hc _]%andb_true_iff. apply digit_plain in Hc as (_ & Hm & Hp & _ & _ & _ & _ & _ & _ & Hi).
  assert (∀ (A : Type) (x y z : A), match c with "-"%char => x | "+"%char => y | _ => z end = z) as Hsign.
  { intros A x y z. destruct c as [[] [] [] [] [] [] [] []]; try done. }
  rewrite Hsign. rewrite bool_decide_eq_false_2 by (intros [= ? _]; done).
  rewrite <- (app_nil_r (c :: r)) at 1. rewrite span_digits_app by done. cbn [app].
  rewrite app_nil_r. cbn [parse_exponent mbind option_bind].
  replace (decimal_integer (digits_val (c :: r)) (0 - Z.of_nat (length (A := ascii) []))) with (Some n); [done|].
  rewrite Hv. unfold decimal_integer. simpl. by rewrite Z.mul_1_r, Number_of_bigint_small by lia.
Qed.
(** What [String] writes of a length, [Number] reads. *)
Lemma Number_of_show n : 0 ≤ n < 2 ^ 53 → Number_of_text (show n) = JInt n.
Proof.
  intros Hn. destruct (show_digits n ltac:(lia)) as (Hd & Hv & Hne). unfold Number_of_text.
  rewrite trim_digits by done. pose proof (decimal_digits _ n Hd Hne Hv Hn) as Hl.
  destruct (chars (show n)) as [|c [|c' r]]; [done|..].
  - assert (∀ (x y : option Json), match c with "0"%char => y | _ => y end = y) as Hc by by intros; destruct c as [[] [] [] [] [] [] [] []].
    destruct c as [[] [] [] [] [] [] [] []]; by rewrite Hl.
  - cbn [forallb] in Hd. apply andb_true_iff in Hd as [_ [Hc' _]%andb_true_iff].
    apply digit_plain in Hc' as (_ & _ & _ & ? & ? & ? & ? & ? & ? & _).
    rewrite !bool_decide_eq_false_2 by done. cbn [orb].
    destruct c as [[] [] [] [] [] [] [] []]; by rewrite Hl.
Qed.
