(* ===== verification/MapSum.v ===== *)
(** Sums over finite maps: the aggregates ([COUNT], [SUM]) that the database
    queries take of a table, with the laws that say how an insertion, an update or
    a deletion changes them. The values summed form a commutative group, so that
    one proof serves counts and the seven-column usage projection alike. *)
From S2P Require Import Prelude.

Class CommGroup (G : Type) := {
  gzero : G;
  gadd : G → G → G;
  gsub : G → G → G;
  gadd_comm : ∀ a b, gadd a b = gadd b a;
  gadd_assoc : ∀ a b c, gadd a (gadd b c) = gadd (gadd a b) c;
  gadd_zero : ∀ a, gadd a gzero = a;
  gadd_sub : ∀ a b, gsub (gadd a b) b = a;
  gsub_add : ∀ a b, gadd (gsub a b) b = a
}.

#[global] Instance Z_CommGroup : CommGroup Z.
Proof. refine {| gzero := 0; gadd := Z.add; gsub := Z.sub |}; intros; lia. Defined.

Section group.
Context `{CommGroup G}.
Implicit Types a b c : G.

Lemma gzero_add a : gadd gzero a = a.
Proof. by rewrite gadd_comm, gadd_zero. Qed.
Lemma gadd_swap a b c : gadd a (gadd b c) = gadd b (gadd a c).
Proof. by rewrite !gadd_assoc, (gadd_comm a b). Qed.
Lemma gadd_cancel a b c : gadd a c = gadd b c → a = b.
Proof. intros E. by rewrite <- (gadd_sub a c), E, gadd_sub. Qed.
Lemma gsub_self a : gsub a a = gzero.
Proof. rewrite <- (gzero_add a) at 1. apply gadd_sub. Qed.
Lemma gsub_zero a : gsub a gzero = a.
Proof. rewrite <- (gadd_zero a) at 1. apply gadd_sub. Qed.
(** Exchanging one summand for another. *)
Lemma gadd_exchange a b c : gadd (gsub (gadd a b) a) c = gadd c b.
Proof. by rewrite (gadd_comm a b), gadd_sub, gadd_comm. Qed.
End group.

Section msum.
Context `{Countable K} {A : Type} `{CommGroup G}.
Implicit Types (m : gmap K A) (f : K → A → G).

Definition msum f m : G := map_fold (λ k x acc, gadd (f k x) acc) gzero m.

Lemma msum_empty f : msum f ∅ = gzero.
Proof. apply map_fold_empty. Qed.

Lemma msum_insert f m k x :
  m !! k = None → msum f (<[k:=x]> m) = gadd (f k x) (msum f m).
Proof.
  intros Hk. unfold msum.
  rewrite (map_fold_insert_L (λ k x acc, gadd (f k x) acc)); [done| |done].
  intros. apply gadd_swap.
Qed.

Lemma msum_delete f m k x :
  m !! k = Some x → msum f m = gadd (f k x) (msum f (delete k m)).
Proof.
  intros Hk. rewrite <- (insert_delete_id m k x Hk) at 1.
  by rewrite msum_insert by apply lookup_delete_eq.
Qed.

Lemma msum_delete_sub f m k x :
  m !! k = Some x → msum f (delete k m) = gsub (msum f m) (f k x).
Proof. intros Hk. by rewrite (msum_delete f m k x Hk), gadd_comm, gadd_sub. Qed.

Lemma msum_update f m k x y :
  m !! k = Some x →
  msum f (<[k:=y]> m) = gadd (gsub (msum f m) (f k x)) (f k y).
Proof.
  intros Hk. rewrite <- insert_delete_eq, msum_insert by apply lookup_delete_eq.
  by rewrite (msum_delete f m k x Hk), gadd_exchange.
Qed.

Lemma msum_ext f g m :
  (∀ k x, m !! k = Some x → f k x = g k x) → msum f m = msum g m.
Proof.
  induction m as [|k x m Hk IH] using map_ind; intros Hfg; [by rewrite !msum_empty|].
  rewrite !msum_insert by done. f_equal; [apply Hfg, lookup_insert_eq|].
  apply IH. intros k' x' Hk'. apply Hfg. rewrite lookup_insert_ne; [done | congruence].
Qed.

Lemma msum_zero f m : (∀ k x, m !! k = Some x → f k x = gzero) → msum f m = gzero.
Proof.
  induction m as [|k x m Hk IH] using map_ind; intros Hf; [apply msum_empty|].
  rewrite msum_insert, Hf, gzero_add by (done || apply lookup_insert_eq).
  apply IH. intros k' x' Hk'. apply (Hf k'). rewrite lookup_insert_ne; [done | congruence].
Qed.

Lemma msum_filter f (P : K * A → Prop) `{∀ x, Decision (P x)} m :
  msum f (filter P m) = msum (λ k x, if decide (P (k, x)) then f k x else gzero) m.
Proof.
  induction m as [|k x m Hk IH] using map_ind; [by rewrite map_filter_empty, !msum_empty|].
  rewrite msum_insert by done. case_decide as HP.
  - rewrite map_filter_insert_True by done.
    rewrite msum_insert, IH; [done|]. apply map_lookup_filter_None. by left.
  - rewrite map_filter_insert_not' , IH, gzero_add; [done|done|].
    intros y Hy. congruence.
Qed.

Lemma msum_sub f g m :
  msum (λ k x, gsub (f k x) (g k x)) m = gsub (msum f m) (msum g m).
Proof.
  induction m as [|k x m Hk IH] using map_ind; [by rewrite !msum_empty, gsub_self|].
  rewrite !msum_insert, IH by done.
  apply (gadd_cancel _ _ (gadd (g k x) (msum g m))). rewrite gsub_add.
  rewrite (gadd_comm (g k x) (msum g m)), <- gadd_assoc.
  rewrite (gadd_assoc (gsub (msum f m) (msum g m))), gsub_add.
  by rewrite (gadd_comm (msum f m)), gadd_assoc, gsub_add.
Qed.
End msum.

(** ** Counts *)

Section mcount.
Context `{Countable K} {A : Type}.
Implicit Types (m : gmap K A) (P : K → A → bool).

Definition bool_Z (b : bool) : Z := if b then 1 else 0.
Definition mcount P m : Z := msum (λ k x, bool_Z (P k x)) m.

Lemma mcount_nonneg P m : 0 ≤ mcount P m.
Proof.
  unfold mcount. induction m as [|k x m Hk IH] using map_ind; [by rewrite msum_empty|].
  rewrite msum_insert by done. simpl. destruct (P k x); simpl; lia.
Qed.

Lemma mcount_zero P m : mcount P m = 0 ↔ ∀ k x, m !! k = Some x → P k x = false.
Proof.
  split.
  - intros Hz k x Hk. destruct (P k x) eqn:HP; [|done]. exfalso.
    unfold mcount in Hz. rewrite (msum_delete _ m k x Hk) in Hz.
    change (bool_Z (P k x) + mcount P (delete k m) = 0) in Hz.
    pose proof (mcount_nonneg P (delete k m)). rewrite HP in Hz. simpl in Hz. lia.
  - intros HP. unfold mcount. change 0 with (gzero (G:=Z)). apply msum_zero.
    intros k x Hk. by rewrite (HP k x Hk).
Qed.

(** Splitting a count in two by a second condition. *)
Lemma mcount_split P (Q : K → A → bool) m :
  mcount P m = mcount (λ k x, P k x && Q k x) m + mcount (λ k x, P k x && negb (Q k x)) m.
Proof.
  unfold mcount. induction m as [|k x m Hk IH] using map_ind; [done|].
  rewrite !msum_insert, IH by done. simpl. destruct (P k x), (Q k x); simpl; lia.
Qed.

Lemma mcount_ext P Q m :
  (∀ k x, m !! k = Some x → P k x = Q k x) → mcount P m = mcount Q m.
Proof. intros H'. apply msum_ext. intros k x Hk. by rewrite (H' k x Hk). Qed.

Lemma mcount_filter P (Q : K * A → Prop) `{∀ x, Decision (Q x)} m :
  mcount P (filter Q m) = mcount (λ k x, P k x && bool_decide (Q (k, x))) m.
Proof.
  unfold mcount. rewrite msum_filter. apply msum_ext. intros k x _.
  case_decide as HQ; [rewrite bool_decide_eq_true_2 | rewrite bool_decide_eq_false_2]; try done.
  - by rewrite andb_true_r.
  - by rewrite andb_false_r.
Qed.

Lemma mcount_subseteq P m1 m2 : m1 ⊆ m2 → mcount P m1 ≤ mcount P m2.
Proof.
  revert m2. induction m1 as [|k x m Hk IH] using map_ind; intros m2 Hsub.
  { unfold mcount at 1. rewrite msum_empty. apply mcount_nonneg. }
  assert (m2 !! k = Some x) as Hk2 by (eapply lookup_weaken; [apply lookup_insert_eq|done]).
  assert (mcount P m ≤ mcount P (delete k m2)) as Hle.
  { apply IH. apply map_subseteq_spec. intros j y Hj. rewrite lookup_delete_ne by congruence.
    eapply lookup_weaken; [|exact Hsub]. rewrite lookup_insert_ne by congruence. done. }
  unfold mcount in *. rewrite msum_insert by done. rewrite (msum_delete _ m2 k x Hk2).
  simpl. lia.
Qed.

Lemma mcount_pos P m k x : m !! k = Some x → P k x = true → 0 < mcount P m.
Proof.
  intros Hk HP. pose proof (mcount_nonneg P m).
  destruct (decide (mcount P m = 0)) as [Hz|]; [|lia].
  rewrite mcount_zero in Hz. specialize (Hz k x Hk). congruence.
Qed.

Lemma msum_nonneg (f : K → A → Z) m :
  (∀ k x, m !! k = Some x → 0 ≤ f k x) → 0 ≤ msum f m.
Proof.
  induction m as [|k x m Hk IH] using map_ind; intros Hf; [by rewrite msum_empty|].
  rewrite msum_insert by done. simpl.
  assert (0 ≤ f k x) by (apply Hf, lookup_insert_eq).
  assert (0 ≤ msum f m); [|lia].
  apply IH. intros k' x' Hk'. apply Hf. rewrite lookup_insert_ne; [done | congruence].
Qed.

Lemma msum_pos (f : K → A → Z) m k x :
  (∀ k x, m !! k = Some x → 0 ≤ f k x) → m !! k = Some x → 0 < f k x → 0 < msum f m.
Proof.
  intros Hf Hk Hx. rewrite (msum_delete f m k x Hk). simpl.
  assert (0 ≤ msum f (delete k m)); [|lia].
  apply msum_nonneg. intros k' x' Hk'. apply lookup_delete_Some in Hk' as [_ Hk'].
  by apply Hf.
Qed.
End mcount.

(** A group homomorphism goes through a sum. *)
Lemma msum_hom `{Countable K} {A} `{CommGroup G} `{CommGroup G'} (φ : G → G')
    (f : K → A → G) (m : gmap K A) :
  φ gzero = gzero → (∀ a b, φ (gadd a b) = gadd (φ a) (φ b)) →
  φ (msum f m) = msum (λ k x, φ (f k x)) m.
Proof.
  intros Hzero Hadd. induction m as [|k x m Hk IH] using map_ind; [by rewrite !msum_empty|].
  by rewrite !msum_insert, Hadd, IH by done.
Qed.
