(* ===== verification/Errors.v ===== *)
(** The exceptions the modelled code throws. Each error class of the source is a
    record of its fields, and [exn] is their union with the built-in error
    types; every one of them is an [Error], so [error_message] is total. *)
From S2P Require Import Prelude Js.

(** [class NodeOpError extends Error]. *)
Record NodeOpError := mkNodeOpError {
  noe_status : Z;
  noe_code : string;
  noe_message : string;
  noe_headers : list (string * string)
}.

Module NodeOpErrorCodes.
Definition INVALID_REQUEST := "INVALID_REQUEST".
Definition NOT_FOUND := "NODE_NOT_FOUND".
Definition NOT_READY := "NODE_NOT_READY".
Definition CONFLICT := "NODE_CONFLICT".
Definition UPLOAD_CONFLICT := "CAS_UPLOAD_CONFLICT".
Definition UPLOAD_INCOMPLETE := "CAS_UPLOAD_INCOMPLETE".
Definition DIGEST_MISMATCH := "CAS_DIGEST_MISMATCH".
Definition UPLOAD_EXPIRED := "CAS_UPLOAD_EXPIRED".
Definition UPLOAD_INVALID := "CAS_UPLOAD_INVALID".
Definition UPLOAD_LIMIT := "CAS_UPLOAD_LIMIT".
Definition STORAGE := "STORAGE_ERROR".
End NodeOpErrorCodes.

(** [class RootRefsValidationError extends Error]. *)
Record RootRefsValidationError := mkRootRefsValidationError {
  rve_status : Z;
  rve_code : string;
  rve_message : string
}.

Module RootRefsErrorCodes.
Definition INVALID_REQUEST := "ROOT_REF_INVALID".
Definition NODE_NOT_FOUND := "NODE_NOT_FOUND".
Definition NODE_NOT_READY := "NODE_NOT_READY".
Definition NEGATIVE_AGGREGATE := "NEGATIVE_AGGREGATE".
Definition IDEMPOTENCY_CONFLICT := "IDEMPOTENCY_CONFLICT".
Definition BUSY := "ROOT_REF_BUSY".
End RootRefsErrorCodes.

(** [class RootRefsRetryableError extends Error]. *)
Record RootRefsRetryableError := mkRootRefsRetryableError { rre_message : string }.

(** [class AppGcError extends Error]. *)
Record AppGcError := mkAppGcError { age_code : string; age_message : string }.

(** [abstract class CapabilityError] with its two subclasses, told apart by
    [cae_status]: 401 for authentication, 403 for authorization. *)
Record CapabilityError := mkCapabilityError {
  cae_status : Z;
  cae_code : string;
  cae_message : string
}.
Definition CapabilityAuthenticationError (code message : string) : CapabilityError :=
  mkCapabilityError 401 code message.
Definition CapabilityAuthorizationError (code message : string) : CapabilityError :=
  mkCapabilityError 403 code message.

(** [class AuditReadError extends Error]. *)
Record AuditReadError := mkAuditReadError {
  are_status : Z;
  are_code : string;
  are_message : string
}.

(** [class CasClientError extends Error] and [class CasCapabilityError extends
    Error] of the client library. *)
Record CasClientError := mkCasClientError {
  cce_status : Z;
  cce_code : option string;
  cce_message : string
}.
Record CasCapabilityError := mkCasCapabilityError { cpe_code : string; cpe_message : string }.

(** [class PlatformAccessError extends Error]; the classes of [account.ts],
    [authentication.ts] and [email-challenge.ts] carry a code alone. *)
Record PlatformAccessError := mkPlatformAccessError { pae_code : string; pae_status : Z }.

Inductive exn :=
| Error (message : string)
| TypeError (message : string)
| RangeError (message : string)
| ENodeOp (e : NodeOpError)
| ERootRefsValidation (e : RootRefsValidationError)
| ERootRefsRetryable (e : RootRefsRetryableError)
| EAppGc (e : AppGcError)
| ECapability (e : CapabilityError)
| EAuditRead (e : AuditReadError)
| EAppUsageUnavailable
| ECasClient (e : CasClientError)
| ECasCapability (e : CasCapabilityError)
| EAccountService (code : string)
| EPlatformAccess (e : PlatformAccessError)
| EEmailEvidence (code : string)
| EEmailChallenge.

(** [error.message]. *)
Definition error_message (e : exn) : string :=
  match e with
  | Error m | TypeError m | RangeError m => m
  | ENodeOp e => noe_message e
  | ERootRefsValidation e => rve_message e
  | ERootRefsRetryable e => rre_message e
  | EAppGc e => age_message e
  | ECapability e => cae_message e
  | EAuditRead e => are_message e
  | EAppUsageUnavailable => "App usage accounting is still being reconciled"
  | ECasClient e => cce_message e
  | ECasCapability e => cpe_message e
  | EAccountService code | EEmailEvidence code => code
  | EPlatformAccess e => pae_code e
  | EEmailChallenge => "EMAIL_CHALLENGE_FAILED"
  end.

Definition node_error (status : Z) (code message : string) : exn :=
  ENodeOp (mkNodeOpError status code message []).

(** [new CasClientError(status, statusText, operation, detail, code)]. *)
Definition new_CasClientError (status : Z) (statusText operation : string)
    (detail code : option string) : exn :=
  ECasClient (mkCasClientError status code
    ("CAS " +:+ operation +:+ " failed: " +:+ show status +:+ " " +:+ statusText
     +:+ match detail with
         | Some d => if strlen d =? 0 then EmptyString else ": " +:+ d
         | None => EmptyString
         end)).
