(* ===== verification/Safe.v ===== *)
(** A logic for computations that keep an invariant and never lose a fact.

    [safe P m Q] says that [m], started in a state of the invariant where [P]
    holds, ends in a state of the invariant, whether it returns or throws, with
    every stable fact of the start still true; and that [Q] holds of the value it
    returns. The facts that matter (a node is ready, an object is there) are
    stable, so they survive the calls between the check and its use. *)
From S2P Require Import Prelude Errors.

Record Invariant (W : Type) := mkInvariant {
  holds : W → Prop;
  keeps : W → W → Prop;
  keeps_refl : ∀ w, keeps w w;
  keeps_trans : ∀ w1 w2 w3, keeps w1 w2 → keeps w2 w3 → keeps w1 w3
}.
Arguments mkInvariant {W}. Arguments holds {W}. Arguments keeps {W}.
Arguments keeps_refl {W}. Arguments keeps_trans {W}.

Section safe.
Context {W : Type} (I : Invariant W).
Notation inv := (holds I).
Notation keeps := (keeps I).

#[local] Instance keeps_preorder : PreOrder keeps.
Proof. split; [exact (keeps_refl I) | exact (keeps_trans I)]. Qed.

Definition stable (P : W → Prop) : Prop := ∀ w w', keeps w w' → P w → P w'.

Definition safe {A} (P : W → Prop) (m : M exn W A) (Q : A → W → Prop) : Prop :=
  ∀ w, inv w → P w →
    match m w with
    | (Ok a, w') => inv w' ∧ keeps w w' ∧ Q a w'
    | (Throw _, w') => inv w' ∧ keeps w w'
    end.

Lemma stable_and P Q : stable P → stable Q → stable (λ w, P w ∧ Q w).
Proof. intros HP HQ w w' Hk [? ?]. split; eauto. Qed.
Lemma stable_pure φ : stable (λ _, φ).
Proof. intros w w' _ ?. done. Qed.
Lemma stable_forall {X} (P : X → W → Prop) :
  (∀ x, stable (P x)) → stable (λ w, ∀ x, P x w).
Proof. intros HP w w' Hk H x. by eapply HP. Qed.
Lemma stable_impl (φ : Prop) P : stable P → stable (λ w, φ → P w).
Proof. intros HP w w' Hk H ?. eapply HP; eauto. Qed.

Lemma safe_ret {A} P (a : A) Q : (∀ w, P w → Q a w) → safe P (mret a) Q.
Proof. intros H w Hw HP. split_and!; [done|reflexivity|by apply H]. Qed.
Lemma safe_throw {A} P e (Q : A → W → Prop) : safe P (throw e) Q.
Proof. intros w Hw HP. split; [done|reflexivity]. Qed.
Lemma safe_lift {A} P (r : result exn A) Q :
  (∀ w a, P w → r = Ok a → Q a w) → safe P (lift r) Q.
Proof.
  intros H w Hw HP. unfold lift. destruct r as [a|e].
  - split_and!; [done|reflexivity|by apply H].
  - split; [done|reflexivity].
Qed.
Lemma safe_gets {A} P (f : W → A) Q : (∀ w, P w → Q (f w) w) → safe P (gets f) Q.
Proof. intros H w Hw HP. split_and!; [done|reflexivity|by apply H]. Qed.

Lemma safe_bind {A B} P (m : M exn W A) (f : A → M exn W B) Q R :
  stable P → safe P m Q → (∀ a, safe (λ w, P w ∧ Q a w) (f a) R) → safe P (m ≫= f) R.
Proof.
  intros HsP Hm Hf w Hw HP. specialize (Hm w Hw HP). unfold mbind, M_bind.
  destruct (m w) as [[a|e] w1]; [|done]. destruct Hm as (Hw1 & Hk1 & HQ).
  specialize (Hf a w1 Hw1 (conj (HsP _ _ Hk1 HP) HQ)).
  destruct (f a w1) as [[b|e] w2].
  - destruct Hf as (? & ? & ?). split_and!; [done|by etrans|done].
  - destruct Hf as (? & ?). split; [done|by etrans].
Qed.

Lemma safe_weaken {A} P P' (m : M exn W A) Q Q' :
  (∀ w, P' w → P w) → (∀ a w, Q a w → Q' a w) → safe P m Q → safe P' m Q'.
Proof.
  intros HP HQ Hm w Hw HP'. specialize (Hm w Hw (HP w HP')).
  destruct (m w) as [[a|e] w1]; [|done]. naive_solver.
Qed.
Lemma safe_pre {A} P P' (m : M exn W A) Q : (∀ w, P' w → P w) → safe P m Q → safe P' m Q.
Proof. intros. eapply safe_weaken; eauto. Qed.
Lemma safe_post {A} P (m : M exn W A) Q Q' :
  (∀ a w, Q a w → Q' a w) → safe P m Q → safe P m Q'.
Proof. intros. eapply safe_weaken; eauto. Qed.
(** A stable precondition is still true of the result. *)
Lemma safe_keep {A} P R (m : M exn W A) Q :
  stable R → safe P m Q → safe (λ w, P w ∧ R w) m (λ a w, Q a w ∧ R w).
Proof.
  intros HR Hm w Hw [HP HRw]. specialize (Hm w Hw HP).
  destruct (m w) as [[a|e] w1]; [|done]. destruct Hm as (? & Hk & ?). split_and!; eauto.
Qed.

Lemma safe_catch {A} P (m : M exn W A) h Q :
  stable P → safe P m Q → (∀ e, safe P (h e) Q) → safe P (try_catch m h) Q.
Proof.
  intros HsP Hm Hh w Hw HP. specialize (Hm w Hw HP). unfold try_catch.
  destruct (m w) as [[a|e] w1]; [done|]. destruct Hm as [Hw1 Hk1].
  specialize (Hh e w1 Hw1 (HsP _ _ Hk1 HP)).
  destruct (h e w1) as [[b|e'] w2].
  - destruct Hh as (? & ? & ?). split_and!; [done|by etrans|done].
  - destruct Hh as (? & ?). split; [done|by etrans].
Qed.

Lemma safe_ignore P (m : M exn W unit) :
  stable P → safe P m (λ _ _, True) → safe P (ignore_errors m) (λ _ _, True).
Proof. intros HsP Hm. apply safe_catch; [done..|]. intros e. by apply safe_ret. Qed.

(** Use a precondition that does not depend on the state. *)
Lemma safe_assume {A} P (φ : Prop) (m : M exn W A) Q :
  (φ → safe P m Q) → safe (λ w, P w ∧ φ) m Q.
Proof. intros Hm w Hw [HP Hφ]. by apply (Hm Hφ). Qed.

(** Peel a bind whose first part is safe by [Hm]. *)
Lemma safe_seq {A B} P (m : M exn W A) (f : A → M exn W B) R :
  stable P → safe P m (λ _ _, True) → (∀ a, safe P (f a) R) → safe P (m ≫= f) R.
Proof.
  intros HsP Hm Hf. eapply safe_bind; [done|exact Hm|]. intros a.
  eapply safe_pre; [|apply Hf]. by intros w [? _].
Qed.

(** The last part that relies on what may not be stable. *)
Lemma safe_then {A B} P (m : M exn W A) (f : A → M exn W B) R :
  safe P m (λ _ _, True) → (∀ a, safe (λ _, True) (f a) R) → safe P (m ≫= f) R.
Proof.
  intros Hm Hf w Hw HP. specialize (Hm w Hw HP). unfold mbind, M_bind.
  destruct (m w) as [[a|e] w1]; [|done]. destruct Hm as (Hw1 & Hk1 & _).
  specialize (Hf a w1 Hw1 Logic.I). destruct (f a w1) as [[b|e] w2].
  - destruct Hf as (? & ? & ?). split_and!; [done|by etrans|done].
  - destruct Hf as (? & ?). split; [done|by etrans].
Qed.

(** The last part relies on what the first leaves, and on nothing else. *)
Lemma safe_chain {A B} P (m : M exn W A) (f : A → M exn W B) Q R :
  safe P m Q → (∀ a, safe (Q a) (f a) R) → safe P (m ≫= f) R.
Proof.
  intros Hm Hf w Hw HP. specialize (Hm w Hw HP). unfold mbind, M_bind.
  destruct (m w) as [[a|e] w1]; [|done]. destruct Hm as (Hw1 & Hk1 & HQ).
  specialize (Hf a w1 Hw1 HQ). destruct (f a w1) as [[b|e] w2].
  - destruct Hf as (? & ? & ?). split_and!; [done|by etrans|done].
  - destruct Hf as (? & ?). split; [done|by etrans].
Qed.

(** What follows relies on a fact of the value alone. *)
Lemma safe_bind_fact {A B} P (m : M exn W A) (φ : A → Prop) (f : A → M exn W B) R :
  stable P → safe P m (λ a _, φ a) → (∀ a, φ a → safe P (f a) R) → safe P (m ≫= f) R.
Proof.
  intros HP Hm Hf. eapply safe_bind; [done|exact Hm|]. intros a w Hw [HPw Hφ]. by apply (Hf a Hφ).
Qed.

(** A part without effect keeps even what is not stable. *)
Lemma safe_gets_bind {A B} P (g : W → A) (f : A → M exn W B) R :
  (∀ a, safe (λ w, P w ∧ g w = a) (f a) R) → safe P (gets g ≫= f) R.
Proof. intros Hf w Hw HP. by apply (Hf (g w)). Qed.
Lemma safe_lift_bind {A B} P (r : result exn A) (f : A → M exn W B) R :
  (∀ a, r = Ok a → safe P (f a) R) → safe P (lift r ≫= f) R.
Proof.
  intros Hf w Hw HP. unfold mbind, M_bind, lift. destruct r as [a|e]; [by apply (Hf a)|].
  split; [done|reflexivity].
Qed.

(** What the invariant says of a value that is read. *)
Lemma safe_gets_fact {A B} P (g : W → A) (φ : A → Prop) (f : A → M exn W B) R :
  (∀ w, inv w → P w → φ (g w)) → (∀ a, φ a → safe P (f a) R) → safe P (gets g ≫= f) R.
Proof. intros Hφ Hf w Hw HP. apply (Hf (g w)); [by apply Hφ|done..]. Qed.
Lemma safe_modify P (g : W → W) (Q : unit → W → Prop) :
  (∀ w, inv w → P w → inv (g w) ∧ keeps w (g w) ∧ Q tt (g w)) → safe P (modify g) Q.
Proof. intros H w Hw HP. exact (H w Hw HP). Qed.

Lemma safe_for_each {A} P (l : list A) (f : A → M exn W unit) (Q : A → W → Prop) :
  stable P → (∀ x, stable (Q x)) →
  (∀ x, x ∈ l → safe P (f x) (λ _, Q x)) →
  safe P (for_each l f) (λ _ w, ∀ x, x ∈ l → Q x w).
Proof.
  intros HsP HsQ. induction l as [|x l IH]; intros Hf; simpl.
  - apply safe_ret. intros w _ x Hx. by apply elem_of_nil in Hx.
  - eapply safe_bind; [done|apply Hf; left|]. intros [].
    assert (∀ y, y ∈ l → safe P (f y) (λ _, Q y)) as Hl by (intros y Hy; apply Hf; by right).
    eapply safe_post; [|exact (safe_keep _ _ _ _ (HsQ x) (IH Hl))].
    intros [] w [Hall Hx] y [->|Hy]%elem_of_cons; [done | by apply Hall].
Qed.

Lemma safe_fold_m {A X} P (l : list A) (f : X → A → M exn W X) acc :
  stable P → (∀ b x, x ∈ l → safe P (f b x) (λ _ _, True)) →
  safe P (fold_m f acc l) (λ _ _, True).
Proof.
  intros HsP. revert acc. induction l as [|x l IH]; intros acc Hf; simpl.
  - by apply safe_ret.
  - apply safe_seq; [done|apply Hf; left|]. intros b. apply IH.
    intros b' y Hy. apply Hf. by right.
Qed.
End safe.

(** A first part that keeps more than the whole is asked to. *)
Lemma safe_bind_sub {W} (I1 I2 : Invariant W) {A B} P (m : M exn W A) (f : A → M exn W B) Q R :
  (∀ w, holds I1 w ↔ holds I2 w) → (∀ w w', keeps I1 w w' → keeps I2 w w') →
  stable I1 P → safe I1 P m Q → (∀ a, safe I2 (λ w, P w ∧ Q a w) (f a) R) → safe I2 P (m ≫= f) R.
Proof.
  intros Hh Hk HsP Hm Hf w Hw HP. specialize (Hm w (proj2 (Hh w) Hw) HP). unfold mbind, M_bind.
  destruct (m w) as [[a|e] w1].
  - destruct Hm as (Hw1 & Hk1 & HQ). apply Hh in Hw1.
    specialize (Hf a w1 Hw1 (conj (HsP _ _ Hk1 HP) HQ)). apply Hk in Hk1.
    destruct (f a w1) as [[b|e] w2].
    + destruct Hf as (? & ? & ?). split_and!; [done|by eapply (keeps_trans I2)|done].
    + destruct Hf as (? & ?). split; [done|by eapply (keeps_trans I2)].
  - destruct Hm as [? ?]. split; [by apply Hh|by apply Hk].
Qed.

(** A computation without the state's effects keeps any relation it can. *)
Lemma safe_sub {W} (I1 I2 : Invariant W) {A} P (m : M exn W A) Q :
  (∀ w, holds I1 w ↔ holds I2 w) → (∀ w w', keeps I1 w w' → keeps I2 w w') →
  safe I1 P m Q → safe I2 P m Q.
Proof.
  intros Hh Hk Hm w Hw HP. specialize (Hm w (proj2 (Hh w) Hw) HP).
  destruct (m w) as [[a|e] w1]; naive_solver.
Qed.

(** * Which exceptions

    [covers X P m Q] also says that what [m] throws satisfies [X]: with [False],
    that it returns. *)
Section covers.
Context {W : Type} (I : Invariant W) (X : exn → Prop).
Notation inv := (holds I).
Notation keeps := (keeps I).
#[local] Instance covers_preorder : PreOrder keeps.
Proof. split; [exact (keeps_refl I) | exact (keeps_trans I)]. Qed.

Definition covers {A} (P : W → Prop) (m : M exn W A) (Q : A → W → Prop) : Prop :=
  ∀ w, inv w → P w →
    match m w with
    | (Ok a, w') => inv w' ∧ keeps w w' ∧ Q a w'
    | (Throw e, w') => inv w' ∧ keeps w w' ∧ X e
    end.

Lemma covers_ret {A} (P : W → Prop) (a : A) (Q : A → W → Prop) :
  (∀ w, P w → Q a w) → covers P (mret a) Q.
Proof. intros H w Hw HP. split_and!; [done|reflexivity|by apply H]. Qed.
Lemma covers_throw {A} (P : W → Prop) e (Q : A → W → Prop) : X e → covers P (throw e) Q.
Proof. intros He w Hw HP. split_and!; [done|reflexivity|done]. Qed.
Lemma covers_lift {A} (P : W → Prop) (r : result exn A) (Q : A → W → Prop) :
  (∀ w, P w → match r with Ok a => Q a w | Throw e => X e end) → covers P (lift r) Q.
Proof. intros H w Hw HP. specialize (H w HP). unfold lift. destruct r; split_and!; done || reflexivity. Qed.

Lemma covers_bind {A B} (P : W → Prop) (m : M exn W A) (f : A → M exn W B) Q R :
  stable I P → covers P m Q → (∀ a, covers (λ w, P w ∧ Q a w) (f a) R) → covers P (m ≫= f) R.
Proof.
  intros HsP Hm Hf w Hw HP. specialize (Hm w Hw HP). unfold mbind, M_bind.
  destruct (m w) as [[a|e] w1]; [|done]. destruct Hm as (Hw1 & Hk1 & HQ).
  specialize (Hf a w1 Hw1 (conj (HsP _ _ Hk1 HP) HQ)).
  destruct (f a w1) as [[b|e] w2]; destruct Hf as (? & ? & ?); split_and!; by etrans || done.
Qed.
Lemma covers_catch {A} (P : W → Prop) (m : M exn W A) h Q :
  stable I P → covers P m Q → (∀ e, X e → covers P (h e) Q) → covers P (try_catch m h) Q.
Proof.
  intros HsP Hm Hh w Hw HP. specialize (Hm w Hw HP). unfold try_catch.
  destruct (m w) as [[a|e] w1]; [done|]. destruct Hm as (Hw1 & Hk1 & He).
  specialize (Hh e He w1 Hw1 (HsP _ _ Hk1 HP)).
  destruct (h e w1) as [[b|e'] w2]; destruct Hh as (? & ? & ?); split_and!; by etrans || done.
Qed.
Lemma covers_weaken {A} (P P' : W → Prop) (m : M exn W A) (Q Q' : A → W → Prop) :
  (∀ w, P' w → P w) → (∀ a w, Q a w → Q' a w) → covers P m Q → covers P' m Q'.
Proof.
  intros HP HQ Hm w Hw HP'. specialize (Hm w Hw (HP w HP')).
  destruct (m w) as [[a|e] w1]; naive_solver.
Qed.
Lemma covers_pre {A} (P P' : W → Prop) (m : M exn W A) Q :
  (∀ w, P' w → P w) → covers P m Q → covers P' m Q.
Proof. intros. eapply covers_weaken; eauto. Qed.
Lemma covers_post {A} (P : W → Prop) (m : M exn W A) (Q Q' : A → W → Prop) :
  (∀ a w, Q a w → Q' a w) → covers P m Q → covers P m Q'.
Proof. intros. eapply covers_weaken; eauto. Qed.
Lemma covers_ext {A} (P : W → Prop) (m m' : M exn W A) Q :
  (∀ w, m w = m' w) → covers P m' Q → covers P m Q.
Proof. intros Heq Hm w Hw HP. rewrite Heq. by apply Hm. Qed.
(** Use what the precondition says of values alone. *)
Lemma covers_assume {A} (P : W → Prop) (φ : Prop) (m : M exn W A) Q :
  (∀ w, P w → φ) → (φ → covers P m Q) → covers P m Q.
Proof. intros HP Hm w Hw HPw. by apply (Hm (HP w HPw)). Qed.
Lemma covers_bind_fact {A B} (P : W → Prop) (m : M exn W A) (φ : A → Prop) (f : A → M exn W B) R :
  stable I P → covers P m (λ a _, φ a) → (∀ a, φ a → covers P (f a) R) → covers P (m ≫= f) R.
Proof.
  intros HP Hm Hf. eapply covers_bind; [done|exact Hm|]. intros a w Hw [HPw Hφ]. by apply (Hf a Hφ).
Qed.
Lemma covers_seq {A B} (P : W → Prop) (m : M exn W A) (f : A → M exn W B) R :
  stable I P → covers P m (λ _ _, True) → (∀ a, covers P (f a) R) → covers P (m ≫= f) R.
Proof. intros HP Hm Hf. eapply (covers_bind_fact P m (λ _, True)); [done..|]. intros a _. apply Hf. Qed.
Lemma covers_lift_bind {A B} (P : W → Prop) (r : result exn A) (f : A → M exn W B) R :
  (∀ e, r = Throw e → X e) → (∀ a, r = Ok a → covers P (f a) R) → covers P (lift r ≫= f) R.
Proof.
  intros He Hf w Hw HP. unfold mbind, M_bind, lift. destruct r as [a|e]; [by apply (Hf a)|].
  split_and!; [done|reflexivity|by apply He].
Qed.
Lemma covers_for_each {A} (P : W → Prop) (l : list A) (f : A → M exn W unit) :
  stable I P → (∀ x, x ∈ l → covers P (f x) (λ _ _, True)) → covers P (for_each l f) (λ _ _, True).
Proof.
  intros HP. induction l as [|x l IH]; intros Hf; cbn [for_each]; [by apply covers_ret|].
  apply covers_seq; [done|apply Hf; left|]. intros []. apply IH. intros y Hy. apply Hf. by right.
Qed.
End covers.

Create HintDb safe discriminated.
#[export] Hint Resolve stable_and stable_pure stable_forall stable_impl : safe.
#[export] Hint Resolve safe_throw : safe.
