(* ===== verification/Codec.v ===== *)
(** The canonical node format of [packages/codec]: header coding, node layout,
    digests and hexadecimal hashes ([binary.ts], [digest.ts]). *)
From Stdlib Require Import Ascii.
From S2P Require Import Prelude Js Errors.

(** * binary.ts *)

Definition HEADER_SIZE : Z := 24.
Definition SIGNATURE : bytes := [Byte.x55; Byte.x44].
Definition VERSION : Z := 1.
Definition MAX_CONTENT_TYPE_LENGTH : Z := 1024.
Definition MIN_CONTENT_TYPE_LENGTH : Z := 1.
Definition HASH_SIZE : Z := 32.
Definition HASH_HEX_LENGTH : Z := 64.

(** [new Uint8Array(n)]. *)
Definition Uint8Array_new (n : Z) : bytes := replicate (Z.to_nat n) Byte.x00.

(** [target.set(src, offset)] throws when the source does not fit. *)
Definition typed_set (target src : bytes) (offset : Z) : result exn bytes :=
  _ ← throw_if (blen target <? offset + blen src) (RangeError "offset is out of bounds");
  Ok (splice (Z.to_nat offset) src target).

(** [DataView] accessors at offsets inside the 24 byte header. *)
Definition setUint (n : nat) (h : bytes) (offset v : Z) : bytes :=
  splice (Z.to_nat offset) (le_bytes n v) h.
Definition getUint (n : nat) (h : bytes) (offset : Z) : Z :=
  le_value (slice offset (offset + Z.of_nat n) h).

(** [encodeHeader(contentSize, contentType, refCount)]. *)
Definition encodeHeader (contentSize : Z) (contentType : string) (refCount : Z) : bytes :=
  let contentTypeBytes := TextEncoder_encode contentType in
  let header := Uint8Array_new HEADER_SIZE in
  let header := splice 0 SIGNATURE header in
  let header := setUint 2 header 2 VERSION in
  let header := setUint 4 header 4 0 in
  let header := setUint 8 header 8 contentSize in
  let header := setUint 4 header 16 refCount in
  let header := setUint 2 header 20 (blen contentTypeBytes) in
  setUint 2 header 22 0.

Record DecodedHeader := mkDecodedHeader {
  dh_signature : bytes;
  dh_version : Z;
  dh_flags : Z;
  dh_contentSize : Z;
  dh_refCount : Z;
  dh_contentTypeLength : Z;
  dh_reserved : Z
}.

(** [decodeHeader(header)]. *)
Definition decodeHeader (header : bytes) : result exn DecodedHeader :=
  if negb (blen header =? HEADER_SIZE) then
    Throw (Error ("Header must be " +:+ show HEADER_SIZE +:+ " bytes, got "
                  +:+ show (blen header)))
  else Ok {|
    dh_signature := slice 0 2 header;
    dh_version := getUint 2 header 2;
    dh_flags := getUint 4 header 4;
    dh_contentSize := Number_of_bigint (getUint 8 header 8);
    dh_refCount := getUint 4 header 16;
    dh_contentTypeLength := getUint 2 header 20;
    dh_reserved := getUint 2 header 22
  |}.

(** The loop [for (const hash of childHashes) { result.set(hash, offset); ... }]
    of the two functions that lay a node out. *)
Fixpoint set_hashes (target : bytes) (offset : Z) (hashes : list bytes)
    : result exn (bytes * Z) :=
  match hashes with
  | [] => Ok (target, offset)
  | hash :: hashes =>
      target ← typed_set target hash offset;
      set_hashes target (offset + HASH_SIZE) hashes
  end.

(** [concatenateNodeBytes(header, contentType, childHashes, content)]. *)
Definition concatenateNodeBytes (header contentType : bytes) (childHashes : list bytes)
    (content : bytes) : result exn bytes :=
  let totalSize := HEADER_SIZE + blen contentType
                   + Z.of_nat (length childHashes) * HASH_SIZE + blen content in
  let res := Uint8Array_new totalSize in
  res ← typed_set res header 0;
  let offset := HEADER_SIZE in
  res ← typed_set res contentType offset;
  let offset := offset + blen contentType in
  '(res, offset) ← set_hashes res offset childHashes;
  typed_set res content offset.

Record ParsedNode := mkParsedNode {
  pn_header : bytes;
  (* the decoded text, as code points *)
  pn_contentType : list Z;
  pn_childHashes : list bytes;
  pn_content : bytes
}.

(** The loop that slices [refCount] child hashes off. *)
Fixpoint slice_hashes (bs : bytes) (offset : Z) (n : nat) : list bytes :=
  match n with
  | O => []
  | S n => slice offset (offset + HASH_SIZE) bs :: slice_hashes bs (offset + HASH_SIZE) n
  end.

(** [parseNodeBytes(bytes)]. *)
Definition parseNodeBytes (bs : bytes) : result exn ParsedNode :=
  if blen bs <? HEADER_SIZE then
    Throw (Error ("Node bytes too short: " +:+ show (blen bs) +:+ " < " +:+ show HEADER_SIZE))
  else
    let header := slice 0 HEADER_SIZE bs in
    decoded ← decodeHeader header;
    let expectedLength := HEADER_SIZE + dh_contentTypeLength decoded
                          + dh_refCount decoded * HASH_SIZE + dh_contentSize decoded in
    if negb (blen bs =? expectedLength) then
      Throw (Error ("Node bytes length mismatch: expected " +:+ show expectedLength
                    +:+ ", got " +:+ show (blen bs)))
    else
      let offset := HEADER_SIZE in
      let contentTypeBytes := slice offset (offset + dh_contentTypeLength decoded) bs in
      let offset := offset + dh_contentTypeLength decoded in
      let childHashes := slice_hashes bs offset (Z.to_nat (dh_refCount decoded)) in
      let offset := offset + dh_refCount decoded * HASH_SIZE in
      Ok {| pn_header := header;
            pn_contentType := TextDecoder_decode contentTypeBytes;
            pn_childHashes := childHashes;
            pn_content := slice offset (offset + dh_contentSize decoded) bs |}.

(** * digest.ts *)

(** [crypto.subtle.digest("SHA-256", data)], which is not part of the
    repository: a function that yields 32 bytes. *)
Class Sha256 := sha256 : bytes → bytes.
Class Sha256Laws `{Sha256} := sha256_length : ∀ data, length (sha256 data) = 32%nat.

(** The layout loop of [computeNodeDigest], which sizes its buffer with the
    header it is given. *)
Definition canonicalDigestInput (headerBytes : bytes) (contentType : string)
    (childHashes : list bytes) (content : bytes) : result exn bytes :=
  let contentTypeBytes := TextEncoder_encode contentType in
  let totalSize := blen headerBytes + blen contentTypeBytes
                   + Z.of_nat (length childHashes) * HASH_SIZE + blen content in
  let canonical := Uint8Array_new totalSize in
  canonical ← typed_set canonical headerBytes 0;
  let offset := blen headerBytes in
  canonical ← typed_set canonical contentTypeBytes offset;
  let offset := offset + blen contentTypeBytes in
  '(canonical, offset) ← set_hashes canonical offset childHashes;
  typed_set canonical content offset.

Definition computeNodeDigest `{Sha256} (headerBytes : bytes) (contentType : string)
    (childHashes : list bytes) (content : bytes) : result exn bytes :=
  canonical ← canonicalDigestInput headerBytes contentType childHashes content;
  Ok (sha256 canonical).

(** [b.toString(16).padStart(2, "0")]. *)
Definition hex_digit (v : Z) : ascii :=
  if v <? 10 then char_of_code (0x30 + v) else char_of_code (0x61 + (v - 10)).
Definition hex_byte (b : byte) : list ascii :=
  [hex_digit (byte_val b / 16); hex_digit (byte_val b mod 16)].

Definition hex_of (bs : bytes) : string := of_chars (flat_map hex_byte bs).

(** [hashToHex(hash)]. *)
Definition hashToHex (hash : bytes) : result exn string :=
  if negb (blen hash =? HASH_SIZE) then
    Throw (Error ("Expected " +:+ show HASH_SIZE +:+ " bytes, got " +:+ show (blen hash)))
  else Ok (hex_of hash).

(** [parseInt(s, 16)]: leading white space, a sign, an optional [0x], then the
    longest prefix of hexadecimal digits; [None] is [NaN]. *)
Definition hex_val (c : ascii) : option Z :=
  if is_digit c then Some (code c - 0x30)
  else if in_range 0x61 0x66 c then Some (code c - 0x61 + 10)
  else if in_range 0x41 0x46 c then Some (code c - 0x41 + 10)
  else None.
Definition is_white_space (c : ascii) : bool :=
  in_range 0x09 0x0D c || (code c =? 0x20) || (code c =? 0xA0).
Fixpoint drop_while {A} (p : A → bool) (l : list A) : list A :=
  match l with
  | [] => []
  | x :: l' => if p x then drop_while p l' else l
  end.
Fixpoint parse_hex_digits (acc : option Z) (l : list ascii) : option Z :=
  match l with
  | [] => acc
  | c :: l => match hex_val c with
              | Some d => parse_hex_digits (Some (default 0 acc * 16 + d)) l
              | None => acc
              end
  end.
Definition parseInt16 (s : list ascii) : option Z :=
  let s := drop_while is_white_space s in
  let '(negative, s) :=
    match s with
    | c :: s' => if code c =? 0x2D then (true, s')
                 else if code c =? 0x2B then (false, s') else (false, s)
    | [] => (false, [])
    end in
  let s := match s with
           | z :: x :: s' => if (code z =? 0x30) && ((code x =? 0x78) || (code x =? 0x58))
                             then s' else s
           | _ => s
           end in
  (if negative then Z.opp else id) <$> parse_hex_digits None s.

(** [bytes[i] = parseInt(hex.substring(i * 2, i * 2 + 2), 16)]; [NaN] stores 0. *)
Fixpoint hex_pairs (n : nat) (l : list ascii) : bytes :=
  match n with
  | O => []
  | S n => to_byte (default 0 (parseInt16 (take 2 l))) :: hex_pairs n (drop 2 l)
  end.

(** [hexToHash(hex)]. *)
Definition hexToHash (hex : string) : result exn bytes :=
  if negb (strlen hex =? HASH_SIZE * 2) then
    Throw (Error ("Expected " +:+ show (HASH_SIZE * 2) +:+ " hex characters, got "
                  +:+ show (strlen hex)))
  else Ok (hex_pairs 32 (chars hex)).


(** No two byte strings have this hash: of all byte strings an idealization of SHA-256,
    asked only of the hashes a theorem speaks of. *)
Definition collision_free `{Sha256} (h : string) : Prop :=
  ∀ a b, hex_of (sha256 a) = h → hex_of (sha256 b) = h → a = b.

(** * Layout lemmas *)

Definition zeros (n : nat) : bytes := replicate n Byte.x00.

Lemma length_zeros n : length (zeros n) = n.
Proof. apply length_replicate. Qed.

(** Every writer of this file fills a zeroed buffer from the front. *)
Lemma splice_front (a src : bytes) n :
  (length src ≤ n)%nat →
  splice (length a) src (a ++ zeros n) = a ++ src ++ zeros (n - length src).
Proof.
  intros H. unfold splice, zeros. rewrite take_app_length. f_equal. f_equal.
  rewrite drop_app_ge by lia. rewrite drop_replicate. f_equal. lia.
Qed.

Lemma typed_set_front (a src : bytes) n :
  (length src ≤ n)%nat →
  typed_set (a ++ zeros n) src (blen a) = Ok (a ++ src ++ zeros (n - length src)).
Proof.
  intros H. unfold typed_set, throw_if, blen.
  rewrite length_app, length_zeros.
  destruct (Z.ltb_spec (Z.of_nat (length a + n)) (Z.of_nat (length a) + Z.of_nat (length src)));
    [lia|]. simpl. by rewrite Nat2Z.id, splice_front.
Qed.

Definition hashes_wf (hs : list bytes) : Prop := Forall (λ h : bytes, length h = 32%nat) hs.

Lemma length_concat_hashes hs : hashes_wf hs → length (concat hs) = (32 * length hs)%nat.
Proof. induction 1 as [|h hs Hh _ IH]; simpl; [done|]. rewrite length_app, Hh, IH. lia. Qed.

Lemma set_hashes_front (a : bytes) hs n :
  hashes_wf hs → (32 * length hs ≤ n)%nat →
  set_hashes (a ++ zeros n) (blen a) hs
  = Ok (a ++ concat hs ++ zeros (n - 32 * length hs),
        blen a + Z.of_nat (length hs) * HASH_SIZE).
Proof.
  intros Hhs. revert a n. induction Hhs as [|h hs Hh _ IH]; intros a n Hn; simpl.
  - rewrite Nat.sub_0_r. do 2 f_equal. unfold HASH_SIZE. lia.
  - simpl in Hn. rewrite typed_set_front by lia. simpl.
    replace (blen a + HASH_SIZE) with (blen (a ++ h))
      by (unfold blen, HASH_SIZE; rewrite length_app, Hh; lia).
    rewrite Hh, app_assoc, IH by lia.
    do 2 f_equal; [rewrite <- !app_assoc; do 4 f_equal; lia|].
    unfold blen, HASH_SIZE. rewrite length_app, Hh. lia.
Qed.

Lemma canonical_layout (header ct : bytes) hs content n :
  hashes_wf hs →
  n = (length header + length ct + 32 * length hs + length content)%nat →
  (r ← typed_set (zeros n) header 0;
   r ← typed_set r ct (blen header);
   '(r, offset) ← set_hashes r (blen header + blen ct) hs;
   typed_set r content offset) = Ok (header ++ ct ++ concat hs ++ content).
Proof.
  intros Hhs ->.
  change (typed_set (zeros ?n) header 0) with (typed_set ([] ++ zeros n) header (blen [])).
  rewrite typed_set_front by lia. cbn [mbind result_bind app].
  rewrite typed_set_front by lia. cbn [mbind result_bind].
  replace (blen header + blen ct) with (blen (header ++ ct))
    by (unfold blen; rewrite length_app; lia).
  rewrite app_assoc, set_hashes_front by (done || lia). cbn [mbind result_bind].
  replace (blen (header ++ ct) + Z.of_nat (length hs) * HASH_SIZE)
    with (blen ((header ++ ct) ++ concat hs)).
  - rewrite app_assoc, typed_set_front by lia. f_equal.
    rewrite <- !app_assoc. do 4 f_equal.
    replace (_ - length content)%nat with O by lia. by rewrite app_nil_r.
  - unfold blen, HASH_SIZE. rewrite !length_app, length_concat_hashes by done. lia.
Qed.

Lemma concatenateNodeBytes_layout (header ct : bytes) hs content :
  length header = 24%nat → hashes_wf hs →
  concatenateNodeBytes header ct hs content = Ok (header ++ ct ++ concat hs ++ content).
Proof.
  intros Hh Hhs. unfold concatenateNodeBytes.
  erewrite <- canonical_layout; [|done|reflexivity].
  unfold Uint8Array_new, zeros, blen, HASH_SIZE, HEADER_SIZE. rewrite Hh.
  replace (Z.to_nat _) with (24 + length ct + 32 * length hs + length content)%nat by lia.
  reflexivity.
Qed.

Lemma canonicalDigestInput_layout (header : bytes) ct hs content :
  hashes_wf hs →
  canonicalDigestInput header ct hs content
  = Ok (header ++ TextEncoder_encode ct ++ concat hs ++ content).
Proof.
  intros Hhs. unfold canonicalDigestInput.
  erewrite <- canonical_layout; [|done|reflexivity].
  unfold Uint8Array_new, zeros, blen, HASH_SIZE.
  replace (Z.to_nat _) with
    (length header + length (TextEncoder_encode ct) + 32 * length hs + length content)%nat
    by lia.
  reflexivity.
Qed.

(** * Header *)

Definition header_bytes (contentSize contentTypeLength refCount : Z) : bytes :=
  SIGNATURE ++ le_bytes 2 VERSION ++ le_bytes 4 0 ++ le_bytes 8 contentSize
  ++ le_bytes 4 refCount ++ le_bytes 2 contentTypeLength ++ le_bytes 2 0.

Lemma length_header_bytes cs ctl rc : length (header_bytes cs ctl rc) = 24%nat.
Proof. unfold header_bytes. rewrite !length_app, !length_le_bytes. reflexivity. Qed.

Lemma setUint_front (a : bytes) n k v off :
  Z.to_nat off = length a → (k ≤ n)%nat →
  setUint k (a ++ zeros n) off v = (a ++ le_bytes k v) ++ zeros (n - k).
Proof.
  intros Hoff Hk. unfold setUint. rewrite Hoff, splice_front by (rewrite length_le_bytes; lia).
  by rewrite length_le_bytes, app_assoc.
Qed.

Lemma encodeHeader_layout cs ct rc :
  encodeHeader cs ct rc = header_bytes cs (blen (TextEncoder_encode ct)) rc.
Proof.
  unfold encodeHeader.
  change (splice 0 SIGNATURE (Uint8Array_new HEADER_SIZE)) with (SIGNATURE ++ zeros 22).
  do 6 rewrite setUint_front
    by (rewrite ?length_app, ?length_le_bytes; simpl; lia || reflexivity).
  unfold header_bytes. rewrite <- !app_assoc. cbn [Nat.sub zeros replicate].
  by rewrite app_nil_r.
Qed.

Ltac slice_lengths :=
  rewrite ?length_app, ?length_le_bytes; reflexivity.

Lemma decodeHeader_header_bytes cs ctl rc :
  0 ≤ cs < 2 ^ 64 → 0 ≤ ctl < 2 ^ 16 → 0 ≤ rc < 2 ^ 32 →
  decodeHeader (header_bytes cs ctl rc) = Ok {|
    dh_signature := SIGNATURE; dh_version := VERSION; dh_flags := 0;
    dh_contentSize := Number_of_bigint cs; dh_refCount := rc;
    dh_contentTypeLength := ctl; dh_reserved := 0 |}.
Proof.
  intros Hcs Hctl Hrc. unfold decodeHeader, blen. rewrite length_header_bytes.
  cbn [negb Z.eqb Z.of_nat HEADER_SIZE Pos.of_succ_nat Pos.succ Pos.eqb].
  unfold getUint, header_bytes. cbn [Z.of_nat Z.add Pos.of_succ_nat Pos.succ Pos.add].
  f_equal. f_equal.
  - f_equal. do 2 rewrite app_assoc.
    rewrite (slice_app_mid ((SIGNATURE ++ _) ++ _) (le_bytes 8 cs)) by slice_lengths.
    apply le_value_bytes_small. simpl; lia.
  - do 3 rewrite app_assoc.
    rewrite (slice_app_mid (((SIGNATURE ++ _) ++ _) ++ _) (le_bytes 4 rc)) by slice_lengths.
    apply le_value_bytes_small. simpl; lia.
  - do 4 rewrite app_assoc.
    rewrite (slice_app_mid ((((SIGNATURE ++ _) ++ _) ++ _) ++ _) (le_bytes 2 ctl))
      by slice_lengths.
    apply le_value_bytes_small. simpl; lia.
Qed.

(** Every 24 byte header is the concatenation of its seven fields. *)
Lemma header_split (h : bytes) :
  length h = 24%nat →
  h = slice 0 2 h ++ slice 2 4 h ++ slice 4 8 h ++ slice 8 16 h ++ slice 16 20 h
      ++ slice 20 22 h ++ slice 22 24 h.
Proof.
  intros H. do 25 (destruct h as [|? h]; try discriminate H). reflexivity.
Qed.

Lemma le_bytes_getUint n (h : bytes) off :
  0 ≤ off → off + Z.of_nat n ≤ blen h →
  le_bytes n (getUint n h off) = slice off (off + Z.of_nat n) h.
Proof.
  intros Ho Hn. unfold getUint. set (s := slice _ _ h).
  assert (length s = n) as Hs.
  { unfold s, slice, blen in *. rewrite length_take, length_drop. lia. }
  rewrite <- Hs at 1. apply le_bytes_value.
Qed.

(** A header with the version 1 constants is the encoding of its numbers. *)
Lemma decodeHeader_inv (h : bytes) d :
  decodeHeader h = Ok d →
  dh_signature d = SIGNATURE → dh_version d = VERSION → dh_flags d = 0 →
  dh_reserved d = 0 → isSafeInteger (dh_contentSize d) = true →
  h = header_bytes (dh_contentSize d) (dh_contentTypeLength d) (dh_refCount d)
  ∧ 0 ≤ dh_contentSize d < 2 ^ 53 ∧ 0 ≤ dh_contentTypeLength d < 2 ^ 16
  ∧ 0 ≤ dh_refCount d < 2 ^ 32.
Proof.
  unfold decodeHeader. destruct (Z.eqb_spec (blen h) HEADER_SIZE) as [Hl|]; [|done].
  simpl. injection 1 as <-. simpl. intros Hsig Hv Hf Hr Hs.
  unfold HEADER_SIZE in Hl.
  assert (∀ n off, 0 ≤ off → off + Z.of_nat n ≤ 24 →
            0 ≤ getUint n h off < 256 ^ Z.of_nat n) as Hrange.
  { intros n off ? ?. unfold getUint. pose proof (le_value_range (slice off (off + Z.of_nat n) h)) as Hle.
    replace (blen (slice off (off + Z.of_nat n) h)) with (Z.of_nat n) in Hle; [done|].
    unfold blen, slice in *. rewrite length_take, length_drop. lia. }
  destruct (isSafeInteger_Number (getUint 8 h 8)) as [Hn Hlt]; [by apply Hrange|done|].
  rewrite Hn. pose proof (Hrange 8%nat 8). pose proof (Hrange 2%nat 20).
  pose proof (Hrange 4%nat 16). split; [|simpl in *; lia].
  rewrite (header_split h) at 1 by (unfold blen in Hl; lia).
  unfold header_bytes. rewrite Hsig, <- Hv, !le_bytes_getUint by (simpl; lia).
  do 2 f_equal. rewrite <- Hf at 1. rewrite <- Hr.
  rewrite !le_bytes_getUint by (simpl; lia). reflexivity.
Qed.

(** * Nodes *)

Lemma slice_hashes_concat (a : bytes) hs (c : bytes) off :
  hashes_wf hs → off = blen a →
  slice_hashes (a ++ concat hs ++ c) off (length hs) = hs.
Proof.
  intros Hhs. revert a off. induction Hhs as [|h hs Hh _ IH]; intros a off ->; [done|].
  simpl. rewrite <- app_assoc. f_equal.
  - apply slice_app_mid; [done|]. unfold blen, HASH_SIZE. rewrite Hh. lia.
  - rewrite app_assoc. apply IH. unfold blen, HASH_SIZE. rewrite length_app, Hh. lia.
Qed.

Lemma slice_hashes_inv (bs : bytes) n off :
  0 ≤ off → off + Z.of_nat n * 32 ≤ blen bs →
  hashes_wf (slice_hashes bs off n) ∧ length (slice_hashes bs off n) = n
  ∧ concat (slice_hashes bs off n) = slice off (off + Z.of_nat n * 32) bs.
Proof.
  revert off. induction n as [|n IH]; intros off Ho Hn; simpl.
  { split_and!; [constructor | done |]. unfold slice. by rewrite Z.add_0_r, Z.sub_diag. }
  unfold blen in *.
  destruct (IH (off + HASH_SIZE)) as (Hwf & Hl & Hc); [unfold HASH_SIZE; lia..|].
  unfold HASH_SIZE in *. split_and!; [|by f_equal|].
  - constructor; [|done]. apply Nat2Z.inj. rewrite length_slice; lia.
  - rewrite Hc, slice_app_slice by lia. f_equal. lia.
Qed.

Lemma decodeHeader_nonneg h d :
  decodeHeader h = Ok d →
  0 ≤ dh_contentTypeLength d ∧ 0 ≤ dh_refCount d ∧ 0 ≤ dh_contentSize d.
Proof.
  unfold decodeHeader. case_match; [done|]. injection 1 as <-. simpl. unfold getUint.
  split_and!; [apply le_value_range..|]. apply Number_of_bigint_nonneg, le_value_range.
Qed.

Lemma parseNodeBytes_layout (h ct content : bytes) hs d :
  decodeHeader h = Ok d → hashes_wf hs →
  dh_contentTypeLength d = blen ct → dh_refCount d = Z.of_nat (length hs) →
  dh_contentSize d = blen content →
  parseNodeBytes (h ++ ct ++ concat hs ++ content)
  = Ok (mkParsedNode h (TextDecoder_decode ct) hs content).
Proof.
  intros Hd Hhs Hct Hrc Hcs. unfold parseNodeBytes.
  assert (length h = 24%nat) as Hh.
  { unfold decodeHeader in Hd. unfold blen, HEADER_SIZE in Hd.
    destruct (Z.eqb_spec (Z.of_nat (length h)) 24); [lia|done]. }
  assert (blen (h ++ ct ++ concat hs ++ content)
          = 24 + blen ct + Z.of_nat (length hs) * 32 + blen content) as Hlen.
  { unfold blen. rewrite !length_app, length_concat_hashes by done. lia. }
  rewrite Hlen. unfold HEADER_SIZE, HASH_SIZE in *.
  destruct (Z.ltb_spec (24 + blen ct + Z.of_nat (length hs) * 32 + blen content) 24);
    [unfold blen in *; lia|].
  assert (slice 0 24 (h ++ ct ++ concat hs ++ content) = h) as ->
    by (apply (slice_app_mid [] h); rewrite ?Hh; done).
  rewrite Hd. cbn [mbind result_bind]. rewrite Hct, Hrc, Hcs, Z.eqb_refl. simpl negb.
  cbn iota. unfold blen in *. f_equal. f_equal.
  - f_equal. apply slice_app_mid; lia.
  - rewrite Nat2Z.id, app_assoc. apply slice_hashes_concat; [done|].
    unfold blen. rewrite length_app. lia.
  - rewrite 2!app_assoc. apply slice_app_end; rewrite !length_app, length_concat_hashes by done; lia.
Qed.

Lemma parseNodeBytes_inv (bs : bytes) p :
  parseNodeBytes bs = Ok p →
  ∃ d ct, decodeHeader (pn_header p) = Ok d ∧ pn_contentType p = TextDecoder_decode ct
  ∧ bs = pn_header p ++ ct ++ concat (pn_childHashes p) ++ pn_content p
  ∧ hashes_wf (pn_childHashes p)
  ∧ dh_contentTypeLength d = blen ct
  ∧ dh_refCount d = Z.of_nat (length (pn_childHashes p))
  ∧ dh_contentSize d = blen (pn_content p).
Proof.
  unfold parseNodeBytes. destruct (Z.ltb_spec (blen bs) HEADER_SIZE) as [|Hge]; [done|].
  destruct (decodeHeader (slice 0 HEADER_SIZE bs)) as [d|] eqn:Hd; [|done].
  cbn [mbind result_bind]. unfold HEADER_SIZE, HASH_SIZE, blen in *.
  set (n := Z.of_nat (length bs)) in *.
  destruct (Z.eqb_spec n (24 + dh_contentTypeLength d + dh_refCount d * 32 + dh_contentSize d))
    as [Hl|]; [|done].
  simpl negb. cbn iota. injection 1 as <-. simpl.
  destruct (decodeHeader_nonneg _ _ Hd) as (Hct & Hrc & Hcs).
  destruct (slice_hashes_inv bs (Z.to_nat (dh_refCount d)) (24 + dh_contentTypeLength d))
    as (Hwf & Hlen & Hconcat); [unfold blen; lia..|].
  exists d, (slice 24 (24 + dh_contentTypeLength d) bs).
  split_and!; try done; [| |by rewrite Hlen, Z2Nat.id|]; [|rewrite length_slice; lia..].
  rewrite Hconcat, Z2Nat.id, !slice_app_slice, <- Hl by lia. symmetry. apply slice_all.
Qed.

(** * Hexadecimal hashes *)

Lemma hex_byte_lower b : forallb is_lower_hex (hex_byte b) = true.
Proof. by destruct b. Qed.

Lemma parseInt16_hex_byte b : parseInt16 (hex_byte b) = Some (byte_val b).
Proof. by destruct b. Qed.

Lemma hex_pairs_hex_of bs (l : list ascii) :
  hex_pairs (length bs) (flat_map hex_byte bs ++ l) = bs.
Proof.
  induction bs as [|b bs IH]; [done|]. cbn [length hex_pairs flat_map].
  rewrite <- app_assoc.
  change (take 2 (hex_byte b ++ _)) with (hex_byte b).
  change (drop 2 (hex_byte b ++ ?x)) with x.
  by rewrite parseInt16_hex_byte, IH, (to_byte_val b : to_byte (default 0 (Some _)) = _).
Qed.

(** The sixteen characters of a lower-case hexadecimal string. *)
Definition lower_hex_chars : list ascii := chars "0123456789abcdef".

Lemma is_lower_hex_elem c : is_lower_hex c = true → c ∈ lower_hex_chars.
Proof.
  destruct c as [[] [] [] [] [] [] [] []]; 
    first [discriminate | intros _; apply list_elem_of_In; simpl; tauto].
Qed.

Lemma hex_byte_parse a b :
  is_lower_hex a = true → is_lower_hex b = true →
  hex_byte (to_byte (default 0 (parseInt16 [a; b]))) = [a; b].
Proof.
  intros Ha%is_lower_hex_elem Hb%is_lower_hex_elem.
  assert (Forall (λ a, Forall (λ b,
    hex_byte (to_byte (default 0 (parseInt16 [a; b]))) = [a; b]) lower_hex_chars)
    lower_hex_chars) as H by (repeat constructor).
  rewrite Forall_forall in H. specialize (H a Ha). rewrite Forall_forall in H. by apply H.
Qed.

Lemma hex_of_hex_pairs n (l : list ascii) :
  length l = (2 * n)%nat → forallb is_lower_hex l = true →
  flat_map hex_byte (hex_pairs n l) = l.
Proof.
  revert l. induction n as [|n IH]; intros l Hl Hhex; [by destruct l|].
  destruct l as [|a [|b l]]; try (simpl in Hl; lia).
  cbn [forallb] in Hhex. rewrite !andb_true_iff in Hhex. destruct Hhex as (Ha & Hb & Hhex).
  simpl in Hl. cbn [hex_pairs flat_map].
  change (take 2 (a :: b :: l)) with [a; b]. change (drop 2 (a :: b :: l)) with l.
  rewrite hex_byte_parse by done. rewrite IH by (done || lia). done.
Qed.

Lemma length_hex_of bs : String.length (hex_of bs) = (2 * length bs)%nat.
Proof.
  unfold hex_of. rewrite <- length_chars, chars_of_chars.
  induction bs; simpl; [done|]. rewrite IHbs. lia.
Qed.

Lemma hex_of_lower bs : all_chars is_lower_hex (hex_of bs) = true.
Proof.
  unfold all_chars, hex_of. rewrite chars_of_chars.
  induction bs as [|b bs IH]; [done|].
  change (flat_map hex_byte (b :: bs)) with (hex_byte b ++ flat_map hex_byte bs).
  rewrite forallb_app, IH, andb_true_r. apply hex_byte_lower.
Qed.

Lemma hashToHex_32 raw : length raw = 32%nat → hashToHex raw = Ok (hex_of raw).
Proof. intros H. unfold hashToHex, blen. by rewrite H. Qed.

Lemma hashToHex_inv raw s : hashToHex raw = Ok s → length raw = 32%nat ∧ s = hex_of raw.
Proof.
  unfold hashToHex, blen, HASH_SIZE. destruct (Z.eqb_spec (Z.of_nat (length raw)) 32); [|done].
  simpl. injection 1 as <-. split; [lia | done].
Qed.

Lemma hexToHash_hex_of raw : length raw = 32%nat → hexToHash (hex_of raw) = Ok raw.
Proof.
  intros H. unfold hexToHash, strlen. rewrite length_hex_of, H. simpl negb. cbn iota.
  f_equal. unfold hex_of. rewrite chars_of_chars.
  rewrite <- (app_nil_r (flat_map _ _)). rewrite <- H. apply hex_pairs_hex_of.
Qed.

Lemma length_hex_pairs n l : length (hex_pairs n l) = n.
Proof. revert l. induction n; intros l; simpl; auto. Qed.

#[export] Instance hex_of_inj : Inj (=) (=) hex_of.
Proof.
  intros a b H.
  assert (length a = length b) as Hl.
  { apply (f_equal String.length) in H. rewrite !length_hex_of in H. lia. }
  rewrite <- (hex_pairs_hex_of a []), <- (hex_pairs_hex_of b []), !app_nil_r, Hl.
  f_equal. unfold hex_of in H.
  by rewrite <- (chars_of_chars (flat_map hex_byte a)), H, chars_of_chars.
Qed.
