(* ===== verification/Validation.v ===== *)
(** The validation rules of [packages/codec/src/validation.ts]: the limits of a
    version 1 node, hashes, content types, headers and child references. *)
From Stdlib Require Import Ascii.
From S2P Require Import Prelude Js Errors Codec.

Definition MAX_CANONICAL_NODE_BYTES : Z := 64 * 1024 * 1024.
Definition MAX_NODE_REFS : Z := 256.

Record CanonicalNodeLimits := mkLimits {
  maxCanonicalNodeBytes : option Z;
  maxNodeRefs : option Z
}.
Definition noLimits : CanonicalNodeLimits := mkLimits None None.

(** [resolveLimit(value, maximum, name, allowZero)]. *)
Definition resolveLimit (value : option Z) (maximum : Z) (name : string) (allowZero : bool)
    : result exn Z :=
  match value with
  | None => Ok maximum
  | Some value =>
      let minimum := if allowZero then 0 else 1 in
      if negb (isSafeInteger value) || (value <? minimum) || (maximum <? value) then
        Throw (RangeError (name +:+ " must be an integer between " +:+ show minimum
                           +:+ " and " +:+ show maximum))
      else Ok value
  end.

(** [validateCanonicalNodeSize(contentSize, contentTypeLength, refCount, limits)].
    The sum is exact here; in binary64 it leaves the safe range exactly when this
    one does. *)
Definition validateCanonicalNodeSize (contentSize contentTypeLength refCount : Z)
    (limits : CanonicalNodeLimits) : result exn Z :=
  maxBytes ← resolveLimit (maxCanonicalNodeBytes limits) MAX_CANONICAL_NODE_BYTES
               "Canonical node byte limit" false;
  maxRefs ← resolveLimit (maxNodeRefs limits) MAX_NODE_REFS "Child ref limit" true;
  _ ← throw_if (negb (isSafeInteger contentSize) || (contentSize <? 0))
        (Error ("Invalid content size: " +:+ show contentSize));
  _ ← throw_if (negb (isSafeInteger contentTypeLength)
                || (contentTypeLength <? MIN_CONTENT_TYPE_LENGTH)
                || (MAX_CONTENT_TYPE_LENGTH <? contentTypeLength))
        (Error ("Content type length out of range: " +:+ show contentTypeLength));
  _ ← throw_if (negb (isSafeInteger refCount) || (refCount <? 0) || (maxRefs <? refCount))
        (Error ("Child ref count out of range: " +:+ show refCount));
  let totalLength := HEADER_SIZE + contentTypeLength + refCount * HASH_SIZE + contentSize in
  _ ← throw_if (negb (isSafeInteger totalLength))
        (Error "Total node length overflows safe integer range");
  _ ← throw_if (maxBytes <? totalLength)
        (Error ("Canonical node too large: " +:+ show totalLength +:+ " > " +:+ show maxBytes));
  Ok totalLength.

(** [HASH_HEX_RE.test(s)]. *)
Definition is_hash (s : string) : bool :=
  (strlen s =? HASH_HEX_LENGTH) && all_chars is_lower_hex s.

(** [validateHash(hash)]. *)
Definition validateHash (hash : string) : result exn unit :=
  _ ← throw_if (negb (strlen hash =? HASH_HEX_LENGTH))
        (Error ("Hash must be " +:+ show HASH_HEX_LENGTH +:+ " characters, got "
                +:+ show (strlen hash)));
  throw_if (negb (is_hash hash)) (Error ("Hash must be lowercase hex: " +:+ hash)).

(** [validateRawHash(raw)]. *)
Definition validateRawHash (raw : bytes) : result exn unit :=
  throw_if (negb (blen raw =? HASH_SIZE))
    (Error ("Raw hash must be " +:+ show HASH_SIZE +:+ " bytes, got " +:+ show (blen raw))).

(** [validateContentType(contentType)]. *)
Definition validateContentType (contentType : string) : result exn unit :=
  let bs := TextEncoder_encode contentType in
  _ ← throw_if (blen bs <? MIN_CONTENT_TYPE_LENGTH) (Error "Content type must not be empty");
  _ ← throw_if (MAX_CONTENT_TYPE_LENGTH <? blen bs)
        (Error ("Content type too long: " +:+ show (blen bs) +:+ " > "
                +:+ show MAX_CONTENT_TYPE_LENGTH));
  _ ← throw_if (some_char (λ c, code c =? 0) contentType)
        (Error "Content type must not contain NUL");
  throw_if (negb ((0 <? strlen contentType) && all_chars is_printable contentType))
    (Error ("Content type must be printable ASCII (0x20-0x7e): " +:+ contentType)).

(** [validateDecodedHeader(decoded)]. *)
Definition validateDecodedHeader (decoded : DecodedHeader) : result exn unit :=
  _ ← throw_if (negb (bool_decide (dh_signature decoded = SIGNATURE)))
        (Error "Invalid signature: expected 'UD'");
  _ ← throw_if (negb (dh_version decoded =? VERSION))
        (Error ("Unsupported version: " +:+ show (dh_version decoded) +:+ " (expected "
                +:+ show VERSION +:+ ")"));
  _ ← throw_if (negb (dh_flags decoded =? 0))
        (Error ("Flags must be zero, got " +:+ show (dh_flags decoded)));
  _ ← throw_if (negb (dh_reserved decoded =? 0))
        (Error ("Reserved must be zero, got " +:+ show (dh_reserved decoded)));
  _ ← validateCanonicalNodeSize (dh_contentSize decoded) (dh_contentTypeLength decoded)
        (dh_refCount decoded) noLimits;
  Ok tt.

(** [validateChildRefs(refs, refCount)]. *)
Definition validateChildRefs (refs : list string) (refCount : Z) : result exn unit :=
  _ ← throw_if (negb (Z.of_nat (length refs) =? refCount))
        (Error ("Child ref count mismatch: header says " +:+ show refCount +:+ ", got "
                +:+ show (Z.of_nat (length refs))));
  each_result validateHash refs.

(** [validateContentLength(actualLength, expectedLength)]. *)
Definition validateContentLength (actualLength expectedLength : Z) : result exn unit :=
  throw_if (negb (actualLength =? expectedLength))
    (Error ("Content length mismatch: expected " +:+ show expectedLength +:+ ", got "
            +:+ show actualLength)).

(** * What passing each rule means *)

Lemma throw_if_Ok {E} c (e : E) u : throw_if c e = Ok u ↔ c = false.
Proof. unfold throw_if. destruct c, u; split; congruence. Qed.

Lemma throw_if_false {E} c (e : E) : c = false → throw_if c e = Ok tt.
Proof. by intros ->. Qed.

Lemma ltb_false a b : b ≤ a → (a <? b) = false.
Proof. apply Z.ltb_ge. Qed.
Lemma ltb_true a b : a < b → (a <? b) = true.
Proof. apply Z.ltb_lt. Qed.

(** Peel the guards of a successful validation. *)
Ltac peel_guard H :=
  match type of H with
  | context [throw_if ?c ?e] =>
      let G := fresh "G" in
      destruct (throw_if c e) as [[]|] eqn:G; [|discriminate H];
      apply throw_if_Ok in G; cbn [mbind result_bind] in H
  end.

Definition limit_ok (value : option Z) (maximum minimum : Z) : Prop :=
  match value with Some v => minimum ≤ v ≤ maximum | None => True end.

Definition limits_ok (limits : CanonicalNodeLimits) : Prop :=
  limit_ok (maxCanonicalNodeBytes limits) MAX_CANONICAL_NODE_BYTES 1
  ∧ limit_ok (maxNodeRefs limits) MAX_NODE_REFS 0.

Lemma resolveLimit_Ok value maximum name allowZero m :
  resolveLimit value maximum name allowZero = Ok m →
  m = default maximum value ∧ limit_ok value maximum (if allowZero then 0 else 1).
Proof.
  unfold resolveLimit. destruct value as [v|]; [|by injection 1 as <-].
  case_match eqn:Hc; [done|]. injection 1 as <-.
  rewrite !orb_false_iff, !Z.ltb_ge in Hc. simpl. lia.
Qed.

Lemma resolveLimit_ok value maximum name (allowZero : bool) :
  maximum < 2 ^ 53 → limit_ok value maximum (if allowZero then 0 else 1) →
  resolveLimit value maximum name allowZero = Ok (default maximum value).
Proof.
  unfold resolveLimit. destruct value as [v|]; [|done]. simpl. intros Hm Hv.
  assert (isSafeInteger v = true) as -> by (apply isSafeInteger_spec; destruct allowZero; lia).
  simpl. destruct (Z.ltb_spec v (if allowZero then 0 else 1)); [lia|].
  destruct (Z.ltb_spec maximum v); [lia|done].
Qed.

Definition node_size (contentSize contentTypeLength refCount : Z) : Z :=
  24 + contentTypeLength + refCount * 32 + contentSize.

Definition within_limits (limits : CanonicalNodeLimits)
    (contentSize contentTypeLength refCount : Z) : Prop :=
  limits_ok limits ∧ 0 ≤ contentSize ∧ 1 ≤ contentTypeLength ≤ 1024
  ∧ 0 ≤ refCount ≤ default MAX_NODE_REFS (maxNodeRefs limits)
  ∧ node_size contentSize contentTypeLength refCount
    ≤ default MAX_CANONICAL_NODE_BYTES (maxCanonicalNodeBytes limits).

(** The size check accepts exactly the sizes within the limits, and returns the
    size. *)
Lemma validateCanonicalNodeSize_spec cs ctl rc limits total :
  validateCanonicalNodeSize cs ctl rc limits = Ok total ↔
  within_limits limits cs ctl rc ∧ total = node_size cs ctl rc.
Proof.
  unfold validateCanonicalNodeSize, within_limits, limits_ok, node_size. split.
  - intros H.
    destruct (resolveLimit (maxCanonicalNodeBytes _) _ _ _) as [mb|] eqn:Hb; [|done].
    apply resolveLimit_Ok in Hb as [-> Hb]. cbn [mbind result_bind] in H.
    destruct (resolveLimit (maxNodeRefs _) _ _ _) as [mr|] eqn:Hr; [|done].
    apply resolveLimit_Ok in Hr as [-> Hr]. cbn [mbind result_bind] in H.
    do 5 peel_guard H. injection H as <-.
    unfold HEADER_SIZE, HASH_SIZE, MIN_CONTENT_TYPE_LENGTH, MAX_CONTENT_TYPE_LENGTH in *.
    rewrite ?orb_false_iff, ?Z.ltb_ge in *. split_and!; try done; lia.
  - intros [((Hb & Hr) & Hcs & Hct & Hrc & Htot) ->].
    rewrite !resolveLimit_ok by done. cbn [mbind result_bind].
    unfold HEADER_SIZE, HASH_SIZE, MIN_CONTENT_TYPE_LENGTH, MAX_CONTENT_TYPE_LENGTH in *.
    assert (default MAX_CANONICAL_NODE_BYTES (maxCanonicalNodeBytes limits)
            ≤ MAX_CANONICAL_NODE_BYTES)
      by (destruct (maxCanonicalNodeBytes limits); simpl in *; lia).
    unfold MAX_CANONICAL_NODE_BYTES in *.
    assert (∀ z, 0 ≤ z ≤ 64 * 1024 * 1024 → isSafeInteger z = true) as Hsafe.
    { intros z Hz. apply isSafeInteger_spec. lia. }
    rewrite !Hsafe by lia.
    by rewrite !ltb_false by lia.
Qed.

Lemma validateHash_spec s u : validateHash s = Ok u ↔ is_hash s = true.
Proof.
  unfold validateHash, is_hash. split.
  - intros H. peel_guard H. apply throw_if_Ok in H. by apply negb_false_iff in H.
  - intros H. rewrite H. apply andb_true_iff in H as [-> _]. by destruct u.
Qed.

Lemma is_hash_hex_of raw : length raw = 32%nat → is_hash (hex_of raw) = true.
Proof.
  intros H. unfold is_hash, strlen. rewrite length_hex_of, H, hex_of_lower. done.
Qed.

(** Every valid hash string is the hexadecimal form of 32 bytes. *)
Lemma is_hash_raw s :
  is_hash s = true → ∃ raw, length raw = 32%nat ∧ s = hex_of raw ∧ hexToHash s = Ok raw.
Proof.
  unfold is_hash, strlen, HASH_HEX_LENGTH. rewrite andb_true_iff, Z.eqb_eq. intros [Hl Hh].
  exists (hex_pairs 32 (chars s)). split_and!.
  - apply length_hex_pairs.
  - unfold hex_of. rewrite hex_of_hex_pairs, of_chars_chars; [done| |done].
    rewrite length_chars. lia.
  - unfold hexToHash, strlen, HASH_SIZE. by rewrite Hl.
Qed.

(** Hexadecimal hashes and raw hashes are two forms of the same thing:
    [hashToHex] maps exactly the 32 byte arrays, to strings that [validateHash]
    accepts and that [hexToHash] maps back; conversely a string that
    [validateHash] accepts is what [hashToHex] gives for its [hexToHash]. *)
Lemma hash_hex_roundtrip raw s :
  hashToHex raw = Ok s ↔ validateHash s = Ok tt ∧ hexToHash s = Ok raw.
Proof.
  rewrite validateHash_spec. split.
  - intros H. apply hashToHex_inv in H as [Hl ->].
    split; [by apply is_hash_hex_of | by apply hexToHash_hex_of].
  - intros [Hs Hr]. destruct (is_hash_raw s Hs) as (raw' & Hl & -> & Hr').
    rewrite Hr' in Hr. injection Hr as ->. by apply hashToHex_32.
Qed.

Definition content_type_ok (ct : string) : Prop :=
  1 ≤ strlen ct ≤ 1024 ∧ all_chars is_printable ct = true.

Lemma blen_encode_printable ct :
  all_chars is_printable ct = true → blen (TextEncoder_encode ct) = strlen ct.
Proof.
  intros H. apply TextEncoder_ascii, (f_equal length) in H.
  rewrite !length_fmap in H. unfold blen, strlen. by rewrite H, length_chars.
Qed.

Lemma validateContentType_spec ct u : validateContentType ct = Ok u ↔ content_type_ok ct.
Proof.
  unfold validateContentType, content_type_ok,
    MIN_CONTENT_TYPE_LENGTH, MAX_CONTENT_TYPE_LENGTH. split.
  - intros H. do 3 peel_guard H. apply throw_if_Ok in H.
    apply negb_false_iff, andb_true_iff in H as [_ Hp].
    rewrite blen_encode_printable in * by done. rewrite Z.ltb_ge in *. by split.
  - intros [Hl Hp]. rewrite blen_encode_printable by done.
    rewrite (ltb_false (strlen ct) 1), (ltb_false 1024), (ltb_true 0), Hp by lia. simpl.
    rewrite throw_if_false; [by destruct u|].
    unfold some_char, all_chars in *. induction (chars ct) as [|c l IH]; [done|].
    simpl in *. apply andb_true_iff in Hp as [Hc Hl']. rewrite IH by done.
    unfold is_printable, in_range in Hc. rewrite andb_true_iff, !Z.leb_le in Hc.
    rewrite orb_false_r. apply Z.eqb_neq. lia.
Qed.

Lemma validateDecodedHeader_spec d u :
  validateDecodedHeader d = Ok u ↔
  dh_signature d = SIGNATURE ∧ dh_version d = VERSION ∧ dh_flags d = 0 ∧ dh_reserved d = 0
  ∧ within_limits noLimits (dh_contentSize d) (dh_contentTypeLength d) (dh_refCount d).
Proof.
  unfold validateDecodedHeader. split.
  - intros H. do 4 peel_guard H.
    rewrite negb_false_iff, ?bool_decide_eq_true, ?Z.eqb_eq in *.
    destruct (validateCanonicalNodeSize _ _ _ _) as [t|] eqn:Hs; [|done].
    apply validateCanonicalNodeSize_spec in Hs as [Hs _]. done.
  - intros (-> & -> & -> & -> & Hl). rewrite bool_decide_eq_true_2 by done. simpl.
    rewrite (proj2 (validateCanonicalNodeSize_spec _ _ _ _ _) (conj Hl eq_refl)).
    by destruct u.
Qed.

Lemma validateChildRefs_spec refs rc u :
  validateChildRefs refs rc = Ok u ↔
  Z.of_nat (length refs) = rc ∧ Forall (λ r, is_hash r = true) refs.
Proof.
  unfold validateChildRefs. destruct u.
  assert (each_result validateHash refs = Ok tt ↔ Forall (λ r, is_hash r = true) refs) as Heach.
  { induction refs as [|r refs IH]; [by split|]. simpl. rewrite Forall_cons.
    destruct (validateHash r) as [[]|] eqn:Hr; cbn [mbind result_bind].
    - apply validateHash_spec in Hr. rewrite IH. naive_solver.
    - split; [done|]. intros [Hh _]. apply (validateHash_spec _ tt) in Hh. congruence. }
  rewrite <- Heach. destruct (Z.eqb_spec (Z.of_nat (length refs)) rc) as [->|]; simpl.
  - naive_solver.
  - split; [done | naive_solver].
Qed.
