(* ===== verification/CanonicalStream.v ===== *)
(** The streaming parser of [packages/codec/src/canonical-stream.ts]: a cursor
    over the chunks of a byte stream, the bounded prefix it parses, and the
    replay of the whole node. A stream is the list of chunks it will deliver. *)
From Stdlib Require Import Ascii.
From S2P Require Import Prelude Js Errors Codec Validation.

(** * StreamCursor *)

Record StreamCursor := mkCursor {
  sc_reader : list bytes;
  sc_remainder : option bytes
}.

Definition StreamCursor_new (source : list bytes) : StreamCursor := mkCursor source None.

(** One turn of the loop: copy what fits of [chunk], keep the rest. *)
Definition take_chunk (chunk buffer : bytes) (offset len : Z) : bytes * Z * option bytes :=
  let tk := Z.min (blen chunk) (len - offset) in
  (splice (Z.to_nat offset) (slice 0 tk chunk) buffer,
   offset + tk,
   if tk <? blen chunk then Some (slice tk (blen chunk) chunk) else None).

(** The loop once the remainder is used up. A chunk that is not used up ends
    the loop, because the buffer is then full. *)
Fixpoint read_chunks (reader : list bytes) (buffer : bytes) (offset len : Z)
    : result exn (bytes * StreamCursor) :=
  if offset <? len then
    match reader with
    | [] => Throw (Error ("Canonical node ended at " +:+ show offset
                          +:+ " bytes while reading " +:+ show len +:+ " bytes"))
    | chunk :: reader =>
        let '(buffer, offset, remainder) := take_chunk chunk buffer offset len in
        match remainder with
        | Some r => Ok (buffer, mkCursor reader (Some r))
        | None => read_chunks reader buffer offset len
        end
    end
  else Ok (buffer, mkCursor reader None).

(** [readExactly(length)]. *)
Definition readExactly (c : StreamCursor) (len : Z) : result exn (bytes * StreamCursor) :=
  let buffer := Uint8Array_new len in
  if 0 <? len then
    match sc_remainder c with
    | Some chunk =>
        let '(buffer, offset, remainder) := take_chunk chunk buffer 0 len in
        match remainder with
        | Some r => Ok (buffer, mkCursor (sc_reader c) (Some r))
        | None => read_chunks (sc_reader c) buffer offset len
        end
    | None => read_chunks (sc_reader c) buffer 0 len
    end
  else Ok (buffer, c).

(** ** replay *)

(** The variables the replayed stream's [pull] closes over. *)
Record Replay := mkReplay {
  rp_prefix : bytes;
  rp_prefixPending : bool;
  rp_remainder : option bytes;
  rp_reader : list bytes;
  rp_emitted : Z;
  rp_expectedLength : Z
}.

Definition replay (c : StreamCursor) (prefix : bytes) (expectedLength : Z) : Replay :=
  mkReplay prefix true (sc_remainder c) (sc_reader c) 0 expectedLength.

Inductive pulled :=
| Enqueue (chunk : bytes)
| Closed
| Errored (e : exn).

(** [pull(controller)]. *)
Definition pull (st : Replay) : pulled * Replay :=
  let emit chunk st :=
    let emitted := rp_emitted st + blen chunk in
    let st := mkReplay (rp_prefix st) (rp_prefixPending st) (rp_remainder st) (rp_reader st)
                emitted (rp_expectedLength st) in
    if rp_expectedLength st <? emitted then
      (Errored (Error ("Canonical node length exceeds declared "
                       +:+ show (rp_expectedLength st) +:+ " bytes")), st)
    else (Enqueue chunk, st) in
  if rp_prefixPending st then
    emit (rp_prefix st) (mkReplay (rp_prefix st) false (rp_remainder st) (rp_reader st)
                           (rp_emitted st) (rp_expectedLength st))
  else match rp_remainder st with
  | Some chunk => emit chunk (mkReplay (rp_prefix st) false None (rp_reader st)
                                (rp_emitted st) (rp_expectedLength st))
  | None =>
      match rp_reader st with
      | [] =>
          if negb (rp_emitted st =? rp_expectedLength st) then
            (Errored (Error ("Canonical node length mismatch: expected "
                             +:+ show (rp_expectedLength st) +:+ ", got "
                             +:+ show (rp_emitted st))), st)
          else (Closed, st)
      | chunk :: reader =>
          emit chunk (mkReplay (rp_prefix st) false None reader
                        (rp_emitted st) (rp_expectedLength st))
      end
  end.

(** A consumer that pulls until the stream closes or fails; [None] is out of
    fuel. *)
Fixpoint drain (fuel : nat) (st : Replay) (acc : bytes) : option (result exn bytes) :=
  match fuel with
  | O => None
  | S fuel => match pull st with
              | (Enqueue chunk, st) => drain fuel st (acc ++ chunk)
              | (Closed, _) => Some (Ok acc)
              | (Errored e, _) => Some (Throw e)
              end
  end.

(** One pull for the prefix, one for the remainder, one for the end and one for
    every chunk still to come. *)
Definition drain_fuel (st : Replay) : nat := length (rp_reader st) + 3.

(** * parseCanonicalNodeStream *)

Record ParsedCanonicalNodeStream := mkParsedStream {
  ps_contentSize : Z;
  ps_contentType : string;
  ps_refs : list string;
  ps_canonicalSize : Z;
  ps_body : Replay
}.

(** The loop over [refsBytes], 32 bytes at a time. *)
Fixpoint hashes_of (n : nat) (refsBytes : bytes) (offset : Z) : result exn (list string) :=
  match n with
  | O => Ok []
  | S n =>
      if offset <? blen refsBytes then
        ref ← hashToHex (slice offset (offset + HASH_SIZE) refsBytes);
        refs ← hashes_of n refsBytes (offset + HASH_SIZE);
        Ok (ref :: refs)
      else Ok []
  end.

Definition parseCanonicalNodeStream (source : list bytes) (declaredLength : option Z)
    (limits : CanonicalNodeLimits) : result exn ParsedCanonicalNodeStream :=
  '(header, cursor) ← readExactly (StreamCursor_new source) HEADER_SIZE;
  decoded ← decodeHeader header;
  _ ← validateDecodedHeader decoded;
  canonicalSize ← validateCanonicalNodeSize (dh_contentSize decoded)
                    (dh_contentTypeLength decoded) (dh_refCount decoded) limits;
  _ ← throw_if (match declaredLength with
                | Some declared => negb (declared =? canonicalSize)
                | None => false
                end)
        (Error ("Canonical node length mismatch: header says " +:+ show canonicalSize
                +:+ ", Content-Length says " +:+ show (default 0 declaredLength)));
  '(contentTypeBytes, cursor) ← readExactly cursor (dh_contentTypeLength decoded);
  _ ← throw_if (existsb (λ b, (byte_val b <? 0x20) || (0x7e <? byte_val b)) contentTypeBytes)
        (Error "Content type must be printable ASCII (0x20-0x7e)");
  let contentType := string_of_codes (TextDecoder_decode contentTypeBytes) in
  _ ← validateContentType contentType;
  '(refsBytes, cursor) ← readExactly cursor (dh_refCount decoded * HASH_SIZE);
  refs ← hashes_of (length refsBytes) refsBytes 0;
  let prefix := Uint8Array_new (blen header + blen contentTypeBytes + blen refsBytes) in
  prefix ← typed_set prefix header 0;
  prefix ← typed_set prefix contentTypeBytes (blen header);
  prefix ← typed_set prefix refsBytes (blen header + blen contentTypeBytes);
  Ok {| ps_contentSize := dh_contentSize decoded;
        ps_contentType := contentType;
        ps_refs := refs;
        ps_canonicalSize := canonicalSize;
        ps_body := replay cursor prefix canonicalSize |}.

(** A caller that reads the body to its end. *)
Definition read_node (source : list bytes) (declaredLength : option Z)
    (limits : CanonicalNodeLimits)
    : result exn (Z * string * list string * Z * bytes) :=
  p ← parseCanonicalNodeStream source declaredLength limits;
  match drain (drain_fuel (ps_body p)) (ps_body p) [] with
  | Some r => body ← r; Ok (ps_contentSize p, ps_contentType p, ps_refs p,
                            ps_canonicalSize p, body)
  | None => Throw (Error "out of fuel")
  end.

(** * The cursor reads the concatenation of the chunks *)

Definition contents (c : StreamCursor) : bytes := default [] (sc_remainder c) ++ concat (sc_reader c).

Lemma take_chunk_spec (a chunk : bytes) n len :
  len = blen a + Z.of_nat n → (0 < n)%nat →
  take_chunk chunk (a ++ zeros n) (blen a) len =
  if (n <? length chunk)%nat
  then (a ++ take n chunk, len, Some (drop n chunk))
  else ((a ++ chunk) ++ zeros (n - length chunk), blen (a ++ chunk), None).
Proof.
  intros -> Hn. unfold take_chunk, blen. rewrite Nat2Z.id.
  destruct (Nat.ltb_spec n (length chunk)) as [Hlt|Hge].
  - rewrite Z.min_r by lia. rewrite ltb_true by lia.
    replace (slice 0 _ chunk) with (take n chunk)
      by (unfold slice; rewrite drop_0; f_equal; lia).
    rewrite splice_front by (rewrite length_take; lia).
    rewrite length_take_le, Nat.sub_diag, app_nil_r by lia.
    f_equal; [f_equal; lia|]. f_equal. unfold slice.
    rewrite take_ge by (rewrite length_drop; lia). f_equal. lia.
  - rewrite Z.min_l by lia. rewrite ltb_false by lia. rewrite slice_all.
    rewrite splice_front, app_assoc by lia. by rewrite length_app, Nat2Z.inj_add.
Qed.

Lemma read_chunks_spec reader (a : bytes) n len :
  len = blen a + Z.of_nat n →
  match read_chunks reader (a ++ zeros n) (blen a) len with
  | Ok (r, c) => (n ≤ length (concat reader))%nat ∧ r = a ++ take n (concat reader)
                 ∧ contents c = drop n (concat reader)
  | Throw _ => (length (concat reader) < n)%nat
  end.
Proof.
  revert a n len. induction reader as [|chunk reader IH]; intros a n ? ->; cbn [read_chunks concat].
  - destruct (Z.ltb_spec (blen a) (blen a + Z.of_nat n)); [simpl; lia|].
    assert (n = O) as -> by lia. done.
  - destruct (Z.ltb_spec (blen a) (blen a + Z.of_nat n)) as [Hlt|Hge].
    + rewrite (take_chunk_spec _ _ n) by lia. rewrite length_app.
      destruct (Nat.ltb_spec n (length chunk)) as [Hc|Hc].
      * rewrite take_app_le, drop_app_le by lia. split_and!; [lia|done|done].
      * specialize (IH (a ++ chunk) (n - length chunk)%nat (blen a + Z.of_nat n)).
        destruct (read_chunks _ _ _ _) as [[r c]|];
          specialize (IH ltac:(unfold blen; rewrite length_app; lia)); [|lia].
        rewrite take_app_ge, drop_app_ge, app_assoc by lia.
        destruct IH as (? & -> & ->). split_and!; [lia|done|done].
    + assert (n = O) as -> by lia. rewrite app_nil_r, take_0, drop_0, app_nil_r.
      split_and!; [lia|done|done].
Qed.

(** [readExactly] delivers the next [len] bytes whatever the chunking, and fails
    exactly when the stream is shorter. *)
Lemma readExactly_spec c len :
  0 ≤ len →
  match readExactly c len with
  | Ok (r, c') => len ≤ blen (contents c) ∧ r = take (Z.to_nat len) (contents c)
                  ∧ contents c' = drop (Z.to_nat len) (contents c)
  | Throw _ => blen (contents c) < len
  end.
Proof.
  intros Hlen. unfold readExactly.
  change (Uint8Array_new len) with ([] ++ zeros (Z.to_nat len)).
  change 0 with (blen []) at 2 3. set (n := Z.to_nat len).
  destruct (Z.ltb_spec 0 len) as [Hlt|Hge].
  2:{ assert (len = 0) as -> by lia. subst n. unfold blen. split_and!; [lia|done..]. }
  destruct c as [reader [chunk|]]; simpl sc_remainder; simpl sc_reader; cbn iota.
  - change (contents (mkCursor reader (Some chunk))) with (chunk ++ concat reader).
    rewrite (take_chunk_spec [] chunk n) by (unfold blen; simpl; lia).
    unfold blen at 2 3. rewrite length_app.
    destruct (Nat.ltb_spec n (length chunk)) as [Hc|Hc].
    + rewrite take_app_le, drop_app_le by lia. split_and!; [lia|done|done].
    + pose proof (read_chunks_spec reader ([] ++ chunk) (n - length chunk) len) as Hr.
      destruct (read_chunks _ _ _ _) as [[r c]|]; specialize (Hr ltac:(unfold blen; simpl; lia)).
      * destruct Hr as (? & -> & ->). rewrite take_app_ge, drop_app_ge by lia.
        split_and!; [lia|done|done].
      * lia.
  - change (contents (mkCursor reader None)) with (concat reader).
    unfold blen at 2 3. pose proof (read_chunks_spec reader [] n len) as Hr.
    destruct (read_chunks _ _ _ _) as [[r c]|]; specialize (Hr ltac:(unfold blen; simpl; lia)).
    + destruct Hr as (? & -> & ->). split_and!; [lia|done|done].
    + lia.
Qed.

Lemma readExactly_app c a b :
  contents c = a ++ b →
  ∃ c', readExactly c (blen a) = Ok (a, c') ∧ contents c' = b.
Proof.
  intros Hc. pose proof (readExactly_spec c (blen a) ltac:(unfold blen; lia)) as Hr.
  destruct (readExactly c (blen a)) as [[r c']|].
  - destruct Hr as (_ & -> & Hc'). exists c'. rewrite Hc', Hc. unfold blen.
    by rewrite Nat2Z.id, take_app_length, drop_app_length.
  - rewrite Hc in Hr. unfold blen in Hr. rewrite length_app in Hr. lia.
Qed.

Lemma readExactly_inv c len r c' :
  0 ≤ len → readExactly c len = Ok (r, c') → blen r = len ∧ contents c = r ++ contents c'.
Proof.
  intros Hlen H. pose proof (readExactly_spec c len Hlen) as Hr. rewrite H in Hr.
  destruct Hr as (Hle & -> & ->). rewrite take_drop. split; [|done].
  unfold blen in *. rewrite length_take. lia.
Qed.

(** ** The replayed body *)

Definition replay_pending (st : Replay) : bytes :=
  (if rp_prefixPending st then rp_prefix st else []) ++ default [] (rp_remainder st)
  ++ concat (rp_reader st).

Definition pulls (st : Replay) : nat :=
  (if rp_prefixPending st then 1 else 0) + (if rp_remainder st then 1 else 0)
  + length (rp_reader st).

(** A pull either ends the stream or moves one pending chunk to the output. *)
Lemma pull_spec st :
  match pull st with
  | (Enqueue chunk, st') =>
      replay_pending st = chunk ++ replay_pending st' ∧ (pulls st' < pulls st)%nat
      ∧ rp_emitted st' = rp_emitted st + blen chunk
      ∧ rp_expectedLength st' = rp_expectedLength st
      ∧ rp_emitted st' ≤ rp_expectedLength st
  | (Closed, _) => replay_pending st = [] ∧ rp_emitted st = rp_expectedLength st
  | (Errored _, _) => rp_emitted st + blen (replay_pending st) ≠ rp_expectedLength st
  end.
Proof.
  destruct st as [prefix [] rem reader emitted expected]; unfold pull; simpl.
  - destruct (Z.ltb_spec expected (emitted + blen prefix)); unfold replay_pending, pulls; simpl.
    + unfold blen in *. rewrite length_app. lia.
    + split_and!; [done|lia|done|done|lia].
  - destruct rem as [chunk|]; simpl.
    + destruct (Z.ltb_spec expected (emitted + blen chunk)); unfold replay_pending, pulls; simpl.
      * unfold blen in *. rewrite length_app. lia.
      * split_and!; [done|lia|done|done|lia].
    + destruct reader as [|chunk reader]; simpl.
      * destruct (Z.eqb_spec emitted expected); unfold replay_pending; simpl; [done|].
        unfold blen. simpl. lia.
      * destruct (Z.ltb_spec expected (emitted + blen chunk));
          unfold replay_pending, pulls; simpl.
        -- unfold blen in *. rewrite length_app. lia.
        -- split_and!; [done|lia|done|done|lia].
Qed.

Lemma drain_spec fuel st acc :
  (pulls st < fuel)%nat →
  ∃ r, drain fuel st acc = Some r ∧
  match r with
  | Ok out => out = acc ++ replay_pending st
              ∧ rp_emitted st + blen (replay_pending st) = rp_expectedLength st
  | Throw _ => rp_emitted st + blen (replay_pending st) ≠ rp_expectedLength st
  end.
Proof.
  revert st acc. induction fuel as [|fuel IH]; intros st acc Hf; [lia|]. simpl.
  pose proof (pull_spec st) as Hp. destruct (pull st) as [[chunk| |e] st'].
  - destruct Hp as (Hpend & Hlt & Hem & Hex & _).
    destruct (IH st' (acc ++ chunk)) as (r & -> & Hr); [lia|]. exists r. split; [done|].
    rewrite Hpend, Hem, Hex in *. unfold blen in *. rewrite length_app.
    destruct r; [destruct Hr as [-> Hr]; rewrite <- app_assoc; split; [done|lia] | lia].
  - destruct Hp as [-> Hp]. eexists. split; [done|]. rewrite app_nil_r. unfold blen. simpl.
    split; [done|lia].
  - eexists. by split.
Qed.

Lemma drain_fuel_enough st : (pulls st < drain_fuel st)%nat.
Proof. unfold pulls, drain_fuel. repeat case_match; lia. Qed.

(** ** Content types and references *)

Definition byte_printable (b : byte) : bool :=
  negb ((byte_val b <? 0x20) || (0x7e <? byte_val b)).

Lemma byte_printable_spec b : byte_printable b = true ↔ 0x20 ≤ byte_val b ≤ 0x7e.
Proof. unfold byte_printable. rewrite negb_true_iff, orb_false_iff, !Z.ltb_ge. lia. Qed.

Lemma existsb_unprintable bs :
  existsb (λ b, (byte_val b <? 0x20) || (0x7e <? byte_val b)) bs = false ↔
  Forall (λ b, 0x20 ≤ byte_val b ≤ 0x7e) bs.
Proof.
  induction bs as [|b bs IH]; simpl; [by split|].
  rewrite orb_false_iff, IH, Forall_cons, <- byte_printable_spec.
  unfold byte_printable. by rewrite negb_true_iff.
Qed.

(** Printable bytes decode to the text that encodes to them. *)
Lemma decode_printable bs :
  Forall (λ b, 0x20 ≤ byte_val b ≤ 0x7e) bs →
  let ct := string_of_codes (TextDecoder_decode bs) in
  TextEncoder_encode ct = bs ∧ all_chars is_printable ct = true.
Proof.
  intros Hbs ct.
  assert (all_chars is_printable ct = true) as Hp.
  { unfold ct, all_chars, string_of_codes. rewrite TextDecoder_ascii, chars_of_chars.
    - apply forallb_forall. intros c Hc. apply list_elem_of_In in Hc.
      rewrite <- list_fmap_compose in Hc. apply list_elem_of_fmap in Hc as (b & -> & Hb).
      rewrite Forall_forall in Hbs. specialize (Hbs b Hb). unfold is_printable, in_range.
      simpl. rewrite code_char_of_code by lia. apply andb_true_iff. rewrite !Z.leb_le. lia.
    - eapply Forall_impl; [done|]. simpl. lia. }
  split; [|done]. apply (inj (fmap (M:=list) byte_val)). rewrite TextEncoder_ascii by done.
  unfold ct, string_of_codes. rewrite chars_of_chars, TextDecoder_ascii.
  - rewrite <- list_fmap_compose. transitivity (id <$> (byte_val <$> bs)); [|by rewrite list_fmap_id].
    apply list_fmap_ext. intros i z Hz. apply code_char_of_code.
    apply list_lookup_fmap_Some in Hz as (b & -> & _). apply byte_val_range.
  - eapply Forall_impl; [done|]. simpl. lia.
Qed.

Lemma encode_printable ct :
  all_chars is_printable ct = true →
  string_of_codes (TextDecoder_decode (TextEncoder_encode ct)) = ct
  ∧ Forall (λ b, 0x20 ≤ byte_val b ≤ 0x7e) (TextEncoder_encode ct).
Proof.
  intros Hp. pose proof (TextEncoder_ascii ct Hp) as He.
  assert (Forall (λ b, 0x20 ≤ byte_val b ≤ 0x7e) (TextEncoder_encode ct)) as Hbs.
  { apply (Forall_fmap byte_val (λ z, 0x20 ≤ z ≤ 0x7e)). rewrite He. apply Forall_fmap, Forall_forall.
    intros c Hc. unfold all_chars in Hp. rewrite forallb_forall in Hp.
    apply list_elem_of_In, Hp in Hc. unfold is_printable, in_range in Hc.
    rewrite andb_true_iff, !Z.leb_le in Hc. simpl. lia. }
  split; [|done]. rewrite TextDecoder_ascii, He; [apply string_of_codes_chars|].
  eapply Forall_impl; [done|]. simpl. lia.
Qed.

Lemma hashes_of_spec n bs off m :
  0 ≤ off → off + Z.of_nat m * 32 = blen bs → (m ≤ n)%nat →
  hashes_of n bs off = Ok (hex_of <$> slice_hashes bs off m).
Proof.
  revert off m. induction n as [|n IH]; intros off m Hoff Hlen Hm.
  { assert (m = O) as -> by lia. done. }
  cbn [hashes_of]. destruct m as [|m].
  { by rewrite ltb_false by lia. }
  rewrite ltb_true by lia. unfold HASH_SIZE.
  rewrite hashToHex_32.
  2:{ apply Nat2Z.inj. unfold blen in *. rewrite length_slice; lia. }
  cbn [mbind result_bind]. by rewrite (IH _ m) by lia.
Qed.

(** * What a stream parses to *)

(** The canonical encoding of a node. *)
Definition encodeNode (contentType : string) (hashes : list bytes) (content : bytes) : bytes :=
  header_bytes (blen content) (strlen contentType) (Z.of_nat (length hashes))
  ++ TextEncoder_encode contentType ++ concat hashes ++ content.

Lemma blen_encodeNode ct hs content :
  content_type_ok ct → hashes_wf hs →
  blen (encodeNode ct hs content)
  = node_size (blen content) (strlen ct) (Z.of_nat (length hs)).
Proof.
  intros [_ Hp] Hhs. pose proof (blen_encode_printable ct Hp) as He.
  unfold encodeNode, node_size, blen in *.
  rewrite !length_app, length_header_bytes, length_concat_hashes by done. lia.
Qed.

Lemma within_noLimits limits cs ctl rc :
  within_limits limits cs ctl rc → within_limits noLimits cs ctl rc.
Proof.
  unfold within_limits, limits_ok, limit_ok. intros ((Hb & Hr) & ? & ? & ? & ?).
  destruct limits as [[mb|] [mr|]]; simpl in *; unfold node_size in *; split_and!; try done; lia.
Qed.

Definition declared_ok (declared : option Z) (size : Z) : Prop :=
  match declared with Some d => d = size | None => True end.

Lemma declared_ok_guard declared size :
  match declared with Some d => negb (d =? size) | None => false end = false
  ↔ declared_ok declared size.
Proof.
  destruct declared as [d|]; simpl; [|done]. by rewrite negb_false_iff, Z.eqb_eq.
Qed.

(** The bounded prefix a source starts with. *)
Record starts_with_prefix (source : list bytes) (declared : option Z)
    (limits : CanonicalNodeLimits) (cs : Z) (ct : string) (hs : list bytes) (rest : bytes)
    : Prop := {
  sp_bytes : concat source = header_bytes cs (strlen ct) (Z.of_nat (length hs))
                             ++ TextEncoder_encode ct ++ concat hs ++ rest;
  sp_ct : content_type_ok ct;
  sp_hashes : hashes_wf hs;
  sp_limits : within_limits limits cs (strlen ct) (Z.of_nat (length hs));
  sp_declared : declared_ok declared (node_size cs (strlen ct) (Z.of_nat (length hs)))
}.

Lemma parse_success source declared limits cs ct hs rest :
  starts_with_prefix source declared limits cs ct hs rest →
  ∃ body, parseCanonicalNodeStream source declared limits
          = Ok (mkParsedStream cs ct (hex_of <$> hs)
                  (node_size cs (strlen ct) (Z.of_nat (length hs))) body)
  ∧ replay_pending body = concat source ∧ rp_emitted body = 0
  ∧ rp_expectedLength body = node_size cs (strlen ct) (Z.of_nat (length hs)).
Proof.
  intros [Hsrc Hct Hhs Hlim Hdecl]. set (rc := Z.of_nat (length hs)) in *.
  pose proof Hct as [Hctl Hctp]. pose proof (blen_encode_printable ct Hctp) as Hcte.
  destruct (encode_printable ct Hctp) as [Hdec Hprint].
  pose proof (within_noLimits _ _ _ _ Hlim) as Hlim0.
  pose proof Hlim0 as (_ & Hcs & _ & Hrc & Htot). unfold node_size in Htot. simpl in Hrc, Htot.
  unfold MAX_CANONICAL_NODE_BYTES, MAX_NODE_REFS in *.
  unfold parseCanonicalNodeStream, HASH_SIZE.
  destruct (readExactly_app (StreamCursor_new source) (header_bytes cs (strlen ct) rc)
              (TextEncoder_encode ct ++ concat hs ++ rest)) as (c1 & Hr1 & Hc1); [done|].
  unfold blen in Hr1 at 1. rewrite length_header_bytes in Hr1.
  change (Z.of_nat 24) with HEADER_SIZE in Hr1. rewrite Hr1. cbn [mbind result_bind dh_contentSize dh_contentTypeLength dh_refCount].
  rewrite decodeHeader_header_bytes, Number_of_bigint_small by lia. cbn [mbind result_bind dh_contentSize dh_contentTypeLength dh_refCount].
  rewrite (proj2 (validateDecodedHeader_spec _ tt)) by done. cbn [mbind result_bind dh_contentSize dh_contentTypeLength dh_refCount].
  rewrite (proj2 (validateCanonicalNodeSize_spec _ _ _ _ _) (conj Hlim eq_refl)).
  cbn [mbind result_bind dh_contentSize dh_contentTypeLength dh_refCount].
  rewrite (throw_if_false _ _ (proj2 (declared_ok_guard _ _) Hdecl)). cbn [mbind result_bind dh_contentSize dh_contentTypeLength dh_refCount].
  destruct (readExactly_app c1 _ _ Hc1) as (c2 & Hr2 & Hc2). rewrite Hcte in Hr2.
  rewrite Hr2. cbn [mbind result_bind dh_contentSize dh_contentTypeLength dh_refCount].
  rewrite (throw_if_false _ _ (proj2 (existsb_unprintable _) Hprint)). cbn [mbind result_bind dh_contentSize dh_contentTypeLength dh_refCount].
  rewrite Hdec, (proj2 (validateContentType_spec ct tt) Hct). cbn [mbind result_bind dh_contentSize dh_contentTypeLength dh_refCount].
  destruct (readExactly_app c2 _ _ Hc2) as (c3 & Hr3 & Hc3).
  assert (blen (concat hs) = rc * 32) as Hblen
    by (unfold blen; rewrite length_concat_hashes by done; lia).
  rewrite Hblen in Hr3. rewrite Hr3. cbn [mbind result_bind dh_contentSize dh_contentTypeLength dh_refCount].
  rewrite (hashes_of_spec _ _ _ (length hs)) by (rewrite ?Hblen; unfold blen in Hblen; lia).
  replace (slice_hashes (concat hs) 0 (length hs)) with hs
    by (symmetry; rewrite <- (app_nil_r (concat hs)); by apply (slice_hashes_concat [])).
  cbn [mbind result_bind dh_contentSize dh_contentTypeLength dh_refCount].
  assert (hashes_wf []) as Hnil by constructor.
  pose proof (canonical_layout (header_bytes cs (strlen ct) rc) (TextEncoder_encode ct) []
                (concat hs) _ Hnil eq_refl) as Hlay.
  cbn [set_hashes mbind result_bind length Nat.mul concat app] in Hlay. rewrite Nat.add_0_r in Hlay.
  unfold Uint8Array_new.
  replace (Z.to_nat _) with (length (header_bytes cs (strlen ct) rc)
    + length (TextEncoder_encode ct) + length (concat hs))%nat by (unfold blen; lia).
  revert Hlay. unfold zeros.
  destruct (typed_set (replicate _ _) _ 0) as [p1|]; cbn [mbind result_bind]; [|done].
  destruct (typed_set p1 _ _) as [p2|]; cbn [mbind result_bind]; [|done].
  intros ->. cbn [mbind result_bind dh_contentSize dh_contentTypeLength dh_refCount]. eexists. split; [reflexivity|].
  split_and!; [|done|done]. unfold replay_pending, replay. simpl.
  unfold contents in Hc3. by rewrite Hc3, Hsrc, <- !app_assoc.
Qed.

(** A stream is parsed only if it starts with such a prefix. *)
Lemma parse_inv source declared limits p :
  parseCanonicalNodeStream source declared limits = Ok p →
  ∃ cs ct hs rest, starts_with_prefix source declared limits cs ct hs rest.
Proof.
  unfold parseCanonicalNodeStream, HASH_SIZE. intros H.
  destruct (readExactly _ _) as [[h c1]|] eqn:Hr1; [|done]. cbn [mbind result_bind] in H.
  apply readExactly_inv in Hr1 as [Hlh Hc1]; [|done].
  destruct (decodeHeader h) as [d|] eqn:Hd; [|done]. cbn [mbind result_bind] in H.
  destruct (validateDecodedHeader d) as [u|] eqn:Hv; [|done]. cbn [mbind result_bind] in H.
  apply validateDecodedHeader_spec in Hv as (Hsig & Hver & Hfl & Hres & Hlim0).
  destruct (validateCanonicalNodeSize _ _ _ _) as [size|] eqn:Hs; [|done].
  apply validateCanonicalNodeSize_spec in Hs as [Hlim ->]. cbn [mbind result_bind] in H.
  peel_guard H. apply declared_ok_guard in G.
  pose proof Hlim0 as (_ & Hcs & Hctl & Hrc & Htot). unfold node_size in Htot. simpl in Hrc, Htot.
  unfold MAX_CANONICAL_NODE_BYTES, MAX_NODE_REFS in *.
  destruct (decodeHeader_inv h d) as (-> & _); try done.
  { apply isSafeInteger_spec. lia. }
  destruct (readExactly c1 _) as [[ctb c2]|] eqn:Hr2; [|done]. cbn [mbind result_bind] in H.
  apply readExactly_inv in Hr2 as [Hlct Hc2]; [|lia].
  peel_guard H. apply existsb_unprintable in G0.
  destruct (decode_printable ctb G0) as [Henc Hp].
  set (ct := string_of_codes (TextDecoder_decode ctb)) in *.
  destruct (validateContentType ct) as [u'|] eqn:Hct; [|done]. cbn [mbind result_bind] in H.
  apply validateContentType_spec in Hct.
  destruct (readExactly c2 _) as [[rb c3]|] eqn:Hr3; [|done].
  apply readExactly_inv in Hr3 as [Hlrb Hc3]; [|lia].
  destruct (slice_hashes_inv rb (Z.to_nat (dh_refCount d)) 0) as (Hwf & Hlen & Hcat); [lia..|].
  exists (dh_contentSize d), ct, (slice_hashes rb 0 (Z.to_nat (dh_refCount d))), (contents c3).
  assert (strlen ct = dh_contentTypeLength d) as Hstrlen
    by (by rewrite <- blen_encode_printable, Henc).
  rewrite <- Hstrlen in *.
  split; rewrite ?Hlen, ?Z2Nat.id by lia; try done.
  change (concat source) with (contents (StreamCursor_new source)).
  rewrite Hc1, Hc2, Hc3, Henc, Hcat. do 3 f_equal.
  rewrite Z2Nat.id, Z.add_0_l by lia.
  symmetry. rewrite <- Hlrb. apply slice_all.
Qed.

Lemma read_node_success source declared limits ct hs content :
  content_type_ok ct → hashes_wf hs →
  within_limits limits (blen content) (strlen ct) (Z.of_nat (length hs)) →
  declared_ok declared (blen (encodeNode ct hs content)) →
  concat source = encodeNode ct hs content →
  read_node source declared limits
  = Ok (blen content, ct, hex_of <$> hs, blen (encodeNode ct hs content),
        encodeNode ct hs content).
Proof.
  intros Hct Hhs Hlim Hdecl Hsrc. rewrite blen_encodeNode in * by done.
  destruct (parse_success source declared limits (blen content) ct hs content)
    as (body & Hp & Hpend & Hem & Hex); [by split|].
  unfold read_node. rewrite Hp. cbn [mbind result_bind ps_body].
  destruct (drain_spec (drain_fuel body) body []) as (r & -> & Hr); [apply drain_fuel_enough|].
  rewrite Hpend, Hem, Hex, Hsrc, blen_encodeNode in Hr by done.
  destruct r as [out|]; [|lia]. destruct Hr as [-> _]. done.
Qed.

Lemma read_node_inv source declared limits cs ct refs size body :
  read_node source declared limits = Ok (cs, ct, refs, size, body) →
  ∃ hs content, content_type_ok ct ∧ hashes_wf hs
  ∧ within_limits limits (blen content) (strlen ct) (Z.of_nat (length hs))
  ∧ declared_ok declared size ∧ concat source = encodeNode ct hs content
  ∧ refs = hex_of <$> hs ∧ cs = blen content ∧ body = encodeNode ct hs content
  ∧ size = blen body.
Proof.
  unfold read_node. intros H.
  destruct (parseCanonicalNodeStream source declared limits) as [p|] eqn:Hp; [|done].
  destruct (parse_inv _ _ _ _ Hp) as (cs' & ct' & hs & rest & Hpre).
  destruct (parse_success _ _ _ _ _ _ _ Hpre) as (b & Hp' & Hpend & Hem & Hex).
  rewrite Hp in Hp'. injection Hp' as ->. cbn [mbind result_bind ps_body] in H.
  destruct (drain_spec (drain_fuel b) b []) as (r & Hdr & Hr); [apply drain_fuel_enough|].
  rewrite Hdr in H. destruct r as [out|]; [|done]. simpl in H. injection H as <- <- <- <- <-.
  destruct Hr as [-> Hsize], Hpre as [Hsrc Hct Hhs Hlim Hdecl].
  rewrite Hpend, Hem, Hex in Hsize. rewrite Hpend. simpl app.
  assert (cs' = blen rest) as ->.
  { rewrite Hsrc in Hsize. unfold blen, node_size in Hsize.
    rewrite !length_app, length_header_bytes, length_concat_hashes in Hsize by done.
    pose proof (blen_encode_printable ct' (proj2 Hct)). unfold blen in *. lia. }
  exists hs, rest. split_and!; try done.
Qed.

(** * Properties *)

(** C35: reading a stream of chunks as a canonical node, with the body consumed to
    its end, succeeds exactly when the concatenation of the chunks is the
    encoding of a valid node within the limits and of the declared length; the
    parsed fields are that node's, its references are the hexadecimal forms of
    its hashes, and the replayed body is the stream itself, byte for byte,
    whatever the chunking. *)
Theorem read_node_correct source declared limits cs ct refs size body :
  read_node source declared limits = Ok (cs, ct, refs, size, body) ↔
  ∃ hs content, content_type_ok ct ∧ hashes_wf hs
  ∧ within_limits limits (blen content) (strlen ct) (Z.of_nat (length hs))
  ∧ declared_ok declared size ∧ concat source = encodeNode ct hs content
  ∧ refs = hex_of <$> hs ∧ cs = blen content ∧ body = encodeNode ct hs content
  ∧ size = blen body.
Proof.
  split; [apply read_node_inv|].
  intros (hs & content & Hct & Hhs & Hlim & Hdecl & Hsrc & -> & -> & -> & ->).
  by apply read_node_success.
Qed.

Lemma encodeNode_inj ct1 hs1 content1 ct2 hs2 content2 :
  content_type_ok ct1 → hashes_wf hs1 →
  within_limits noLimits (blen content1) (strlen ct1) (Z.of_nat (length hs1)) →
  content_type_ok ct2 → hashes_wf hs2 →
  within_limits noLimits (blen content2) (strlen ct2) (Z.of_nat (length hs2)) →
  encodeNode ct1 hs1 content1 = encodeNode ct2 hs2 content2 →
  ct1 = ct2 ∧ hs1 = hs2 ∧ content1 = content2.
Proof.
  intros Hct1 Hhs1 Hl1 Hct2 Hhs2 Hl2 Heq.
  pose proof (read_node_success [encodeNode ct1 hs1 content1] None noLimits ct1 hs1 content1 Hct1 Hhs1 Hl1 I) as R1.
  pose proof (read_node_success [encodeNode ct1 hs1 content1] None noLimits ct2 hs2 content2 Hct2 Hhs2 Hl2 I) as R2.
  simpl in R1, R2. rewrite app_nil_r in R1, R2.
  rewrite R1 in R2 by done. specialize (R2 Heq). injection R2 as Hcs Hct Hrefs _ He.
  apply (inj (fmap (M:=list) hex_of)) in Hrefs. subst ct2 hs2. split_and!; [done..|].
  unfold encodeNode in He. rewrite Hcs in He. by simplify_list_eq.
Qed.

(** The node a hash names. *)
Definition node_of `{Sha256} (h : string) (ct : string) (hs : list bytes) (content : bytes) : Prop :=
  content_type_ok ct ∧ hashes_wf hs
  ∧ within_limits noLimits (blen content) (strlen ct) (Z.of_nat (length hs))
  ∧ hex_of (sha256 (encodeNode ct hs content)) = h.

Lemma node_of_unique `{Sha256} h ct1 hs1 c1 ct2 hs2 c2 :
  collision_free h → node_of h ct1 hs1 c1 → node_of h ct2 hs2 c2 →
  ct1 = ct2 ∧ hs1 = hs2 ∧ c1 = c2.
Proof.
  intros Hcf (Hc1 & Hh1 & Hl1 & He1) (Hc2 & Hh2 & Hl2 & He2).
  apply encodeNode_inj; try done. by apply Hcf.
Qed.

(** C38: a valid node has one encoding and an encoding has one node: two valid
    nodes with the same canonical bytes have the same content type, child hashes
    and content. The encoding is what [encodeHeader] and [concatenateNodeBytes]
    produce. *)
Theorem canonical_encoding_injective ct1 hs1 content1 ct2 hs2 content2 bs :
  content_type_ok ct1 → hashes_wf hs1 →
  within_limits noLimits (blen content1) (strlen ct1) (Z.of_nat (length hs1)) →
  content_type_ok ct2 → hashes_wf hs2 →
  within_limits noLimits (blen content2) (strlen ct2) (Z.of_nat (length hs2)) →
  concatenateNodeBytes (encodeHeader (blen content1) ct1 (Z.of_nat (length hs1)))
    (TextEncoder_encode ct1) hs1 content1 = Ok bs →
  concatenateNodeBytes (encodeHeader (blen content2) ct2 (Z.of_nat (length hs2)))
    (TextEncoder_encode ct2) hs2 content2 = Ok bs →
  bs = encodeNode ct1 hs1 content1 ∧ ct1 = ct2 ∧ hs1 = hs2 ∧ content1 = content2.
Proof.
  intros Hct1 Hhs1 Hl1 Hct2 Hhs2 Hl2.
  rewrite !encodeHeader_layout, !blen_encode_printable by apply Hct1 || apply Hct2.
  rewrite !concatenateNodeBytes_layout by (done || apply length_header_bytes).
  injection 1 as H1. injection 1 as H2.
  change (encodeNode ct1 hs1 content1 = bs) in H1.
  change (encodeNode ct2 hs2 content2 = bs) in H2.
  split; [done|]. apply encodeNode_inj; try done. congruence.
Qed.

Lemma canonical_encoding_injective_witness :
  let ct := "text/plain" in let hs := [replicate 32 Byte.x01] in let content := [Byte.x41] in
  encodeNode ct hs content = encodeNode ct hs content ∧ ct = ct ∧ hs = hs ∧ content = content.
Proof.
  intros ct hs content.
  assert (content_type_ok ct) as Hct by (split; [vm_compute; split; discriminate | reflexivity]).
  assert (hashes_wf hs) as Hhs by repeat constructor.
  assert (within_limits noLimits (blen content) (strlen ct) (Z.of_nat (length hs))) as Hl.
  { split; [by repeat split|]. vm_compute. split_and!; discriminate. }
  eapply (canonical_encoding_injective ct hs content ct hs content); try eassumption;
    vm_compute; reflexivity.
Defined.

(** The node layout round trips: [parseNodeBytes] of what [encodeHeader] and
    [concatenateNodeBytes] build from a printable content type, any 32 byte
    hashes and any content of a representable size gives back that header,
    content type, hashes and content. *)
Lemma parseNodeBytes_roundtrip ct hs content :
  all_chars is_printable ct = true → strlen ct < 2 ^ 16 →
  hashes_wf hs → Z.of_nat (length hs) < 2 ^ 32 → blen content < 2 ^ 53 →
  concatenateNodeBytes (encodeHeader (blen content) ct (Z.of_nat (length hs)))
    (TextEncoder_encode ct) hs content = Ok (encodeNode ct hs content)
  ∧ (p ← parseNodeBytes (encodeNode ct hs content);
     Ok (pn_header p, string_of_codes (pn_contentType p), pn_childHashes p, pn_content p))
    = Ok (encodeHeader (blen content) ct (Z.of_nat (length hs)), ct, hs, content).
Proof.
  intros Hp Hct Hhs Hn Hc. rewrite encodeHeader_layout, blen_encode_printable by done.
  rewrite concatenateNodeBytes_layout by (done || apply length_header_bytes).
  split; [done|]. unfold encodeNode.
  pose proof (decodeHeader_header_bytes (blen content) (strlen ct) (Z.of_nat (length hs))) as Hd.
  rewrite Number_of_bigint_small in Hd by (unfold blen in *; lia).
  specialize (Hd ltac:(unfold blen in *; lia) ltac:(unfold strlen in *; lia) ltac:(lia)).
  rewrite (parseNodeBytes_layout _ _ _ _ _ Hd Hhs) by (simpl; rewrite ?blen_encode_printable; done).
  cbn [mbind result_bind pn_header pn_contentType pn_childHashes pn_content].
  by rewrite (proj1 (encode_printable ct Hp)).
Qed.

Lemma parseNodeBytes_roundtrip_witness :
  let ct := "application/x" in let hs := [replicate 32 Byte.xff; replicate 32 Byte.x00] in
  let content := [Byte.x01; Byte.x02; Byte.x03] in
  (p ← parseNodeBytes (encodeNode ct hs content);
   Ok (pn_header p, string_of_codes (pn_contentType p), pn_childHashes p, pn_content p))
  = Ok (encodeHeader 3 ct 2, ct, hs, content).
Proof.
  intros ct hs content.
  apply (parseNodeBytes_roundtrip ct hs content);
    first [reflexivity | repeat constructor].
Defined.

(** The digest [computeNodeDigest] takes of a node's parts is the digest of
    the bytes a reader of the stream receives, so a hash computed before an
    upload and one computed from the uploaded stream agree. *)
Lemma computeNodeDigest_of_stream `{Sha256} source declared limits cs ct refs size body :
  read_node source declared limits = Ok (cs, ct, refs, size, body) →
  ∃ hs content, refs = hex_of <$> hs ∧ cs = blen content
  ∧ computeNodeDigest (encodeHeader cs ct (Z.of_nat (length hs))) ct hs content
    = Ok (sha256 (concat source))
  ∧ body = concat source.
Proof.
  intros Hr. apply read_node_inv in Hr
    as (hs & content & Hct & Hhs & _ & _ & Hsrc & Hrefs & -> & -> & _).
  exists hs, content. split_and!; try done. unfold computeNodeDigest.
  rewrite encodeHeader_layout, blen_encode_printable by apply Hct.
  rewrite canonicalDigestInput_layout by done. cbn [mbind result_bind]. by rewrite Hsrc.
Qed.

Lemma computeNodeDigest_of_stream_witness :
  let sha := (λ _, replicate 32 Byte.x07) : Sha256 in
  let bs := encodeNode "a/b" [] [Byte.x41] in
  ∃ hs content, [] = hex_of <$> hs ∧ 1 = blen content
  ∧ computeNodeDigest (encodeHeader 1 "a/b" (Z.of_nat (length hs))) "a/b" hs content
    = Ok (replicate 32 Byte.x07)
  ∧ bs = concat [take 5 bs; []; drop 5 bs].
Proof.
  intros sha bs.
  apply (computeNodeDigest_of_stream (H := sha) [take 5 bs; []; drop 5 bs] (Some 28) noLimits
           1 "a/b" [] 28 bs).
  vm_compute. reflexivity.
Defined.
