(* ===== verification/Store.v ===== *)
(** The App-scoped database of [packages/service-cloudflare/src/schema.ts]: its
    tables, their CHECK and UNIQUE constraints, and the triggers that keep the
    per-Space usage projection. A table is a finite map from its primary key; a
    statement maps a database to the database it leaves and the number of rows it
    changed, or to [None] when a constraint or a trigger aborts it, and a batch
    of statements is all or nothing. *)
From Stdlib Require Import Ascii.
From S2P Require Import Prelude Js MapSum Errors.

(** [AppSpaceScope]: the App and the Space. *)
Notation AppSpaceScope := (string * string)%type (only parsing).
Notation appId := fst (only parsing).
Notation spaceId := snd (only parsing).

Notation NodeKey := (string * string * string)%type (only parsing).

(** * Rows *)

Record NodeRow := mkNodeRow {
  content_size : Z;
  content_type : string;
  lease_started_at : Z;
  lease_expires_at : Z;
  child_ref_count : Z;
  root_ref_count : Z;
  ready : bool;
  canonical_stored_bytes : option Z;
  canonical_observed_at : option Z
}.

Record ReservationRow := mkReservationRow {
  rv_stored_bytes : Z;
  rv_created_at : Z;
  rv_expires_at : Z
}.

Record SessionRow := mkSessionRow {
  ss_upload_id : string;
  ss_temporary_object_key : string;
  ss_stored_bytes : Z;
  ss_lease_duration_ms : Z;
  ss_created_at : Z;
  ss_expires_at : Z
}.

(** The four validation columns are null together, and so are the two
    rejection columns (the table's CHECKs), hence the two options. [refs_json]
    is kept as the list it is the JSON of. *)
Record UploadRow := mkUploadRow {
  up_generation : string;
  up_temporary_object_key : string;
  up_created_at : Z;
  up_expires_at : Z;
  up_cleanup_at : Z;
  up_rejection : option (string * string);
  up_validation : option (Z * Z * string * list string)
}.

Record EventRow := mkEventRow {
  ev_space_id : string;
  ev_request_id : string;
  ev_payload_hash : string;
  ev_changes_json : string;
  ev_applied_at : Z
}.

Record RequestRow := mkRequestRow {
  rq_payload_hash : string;
  rq_revision : Z;
  rq_applied_at : Z
}.

(** The summed columns of [cas_space_usage]. *)
Record Usage := mkUsage {
  node_count : Z;
  ready_content_bytes : Z;
  ready_stored_bytes : Z;
  reserved_bytes : Z;
  not_ready_node_count : Z;
  leased_node_count : Z;
  unobserved_node_count : Z
}.

Definition usage_zero : Usage := mkUsage 0 0 0 0 0 0 0.
Definition usage_map2 (f : Z → Z → Z) (a b : Usage) : Usage :=
  mkUsage (f (node_count a) (node_count b))
    (f (ready_content_bytes a) (ready_content_bytes b))
    (f (ready_stored_bytes a) (ready_stored_bytes b))
    (f (reserved_bytes a) (reserved_bytes b))
    (f (not_ready_node_count a) (not_ready_node_count b))
    (f (leased_node_count a) (leased_node_count b))
    (f (unobserved_node_count a) (unobserved_node_count b)).
Definition usage_all (p : Z → bool) (u : Usage) : bool :=
  p (node_count u) && p (ready_content_bytes u) && p (ready_stored_bytes u)
  && p (reserved_bytes u) && p (not_ready_node_count u) && p (leased_node_count u)
  && p (unobserved_node_count u).

#[global] Instance Usage_CommGroup : CommGroup Usage.
Proof.
  refine {| gzero := usage_zero; gadd := usage_map2 Z.add; gsub := usage_map2 Z.sub |};
    intros; repeat match goal with u : Usage |- _ => destruct u end;
    unfold usage_map2, usage_zero; simpl; f_equal; lia.
Defined.

Record UsageRow := mkUsageRow { us_usage : Usage; us_repaired_at : Z }.

(** * Tables *)

Record Db := mkDb {
  cas_nodes : gmap NodeKey NodeRow;
  cas_edges : gmap (NodeKey * nat) string;
  cas_upload_reservations : gmap NodeKey ReservationRow;
  cas_direct_upload_sessions : gmap NodeKey SessionRow;
  cas_node_uploads : gmap NodeKey UploadRow;
  cas_node_upload_cleanup : gmap NodeKey Z;
  cas_space_usage : gmap AppSpaceScope UsageRow;
  cas_app_root_revisions : gmap string Z;
  cas_app_root_refs : gmap NodeKey Z;
  cas_app_root_events : gmap (string * Z) EventRow;
  cas_app_root_requests : gmap NodeKey RequestRow;
  (* the cutover marker, and whether a legacy Root Ref table has a row *)
  cas_app_root_cutover : bool;
  legacy_pending : bool
}.

Definition Db_empty : Db := mkDb ∅ ∅ ∅ ∅ ∅ ∅ ∅ ∅ ∅ ∅ ∅ false false.

Definition set_nodes (t : gmap NodeKey NodeRow) (d : Db) : Db :=
  mkDb t (cas_edges d) (cas_upload_reservations d) (cas_direct_upload_sessions d)
    (cas_node_uploads d) (cas_node_upload_cleanup d) (cas_space_usage d)
    (cas_app_root_revisions d) (cas_app_root_refs d) (cas_app_root_events d)
    (cas_app_root_requests d) (cas_app_root_cutover d) (legacy_pending d).
Definition set_edges (t : gmap (NodeKey * nat) string) (d : Db) : Db :=
  mkDb (cas_nodes d) t (cas_upload_reservations d) (cas_direct_upload_sessions d)
    (cas_node_uploads d) (cas_node_upload_cleanup d) (cas_space_usage d)
    (cas_app_root_revisions d) (cas_app_root_refs d) (cas_app_root_events d)
    (cas_app_root_requests d) (cas_app_root_cutover d) (legacy_pending d).
Definition set_reservations (t : gmap NodeKey ReservationRow) (d : Db) : Db :=
  mkDb (cas_nodes d) (cas_edges d) t (cas_direct_upload_sessions d)
    (cas_node_uploads d) (cas_node_upload_cleanup d) (cas_space_usage d)
    (cas_app_root_revisions d) (cas_app_root_refs d) (cas_app_root_events d)
    (cas_app_root_requests d) (cas_app_root_cutover d) (legacy_pending d).
Definition set_sessions (t : gmap NodeKey SessionRow) (d : Db) : Db :=
  mkDb (cas_nodes d) (cas_edges d) (cas_upload_reservations d) t
    (cas_node_uploads d) (cas_node_upload_cleanup d) (cas_space_usage d)
    (cas_app_root_revisions d) (cas_app_root_refs d) (cas_app_root_events d)
    (cas_app_root_requests d) (cas_app_root_cutover d) (legacy_pending d).
Definition set_uploads (t : gmap NodeKey UploadRow) (d : Db) : Db :=
  mkDb (cas_nodes d) (cas_edges d) (cas_upload_reservations d)
    (cas_direct_upload_sessions d) t (cas_node_upload_cleanup d) (cas_space_usage d)
    (cas_app_root_revisions d) (cas_app_root_refs d) (cas_app_root_events d)
    (cas_app_root_requests d) (cas_app_root_cutover d) (legacy_pending d).
Definition set_cleanup (t : gmap NodeKey Z) (d : Db) : Db :=
  mkDb (cas_nodes d) (cas_edges d) (cas_upload_reservations d)
    (cas_direct_upload_sessions d) (cas_node_uploads d) t (cas_space_usage d)
    (cas_app_root_revisions d) (cas_app_root_refs d) (cas_app_root_events d)
    (cas_app_root_requests d) (cas_app_root_cutover d) (legacy_pending d).
Definition set_usage (t : gmap AppSpaceScope UsageRow) (d : Db) : Db :=
  mkDb (cas_nodes d) (cas_edges d) (cas_upload_reservations d)
    (cas_direct_upload_sessions d) (cas_node_uploads d) (cas_node_upload_cleanup d) t
    (cas_app_root_revisions d) (cas_app_root_refs d) (cas_app_root_events d)
    (cas_app_root_requests d) (cas_app_root_cutover d) (legacy_pending d).
Definition set_revisions (t : gmap string Z) (d : Db) : Db :=
  mkDb (cas_nodes d) (cas_edges d) (cas_upload_reservations d)
    (cas_direct_upload_sessions d) (cas_node_uploads d) (cas_node_upload_cleanup d)
    (cas_space_usage d) t (cas_app_root_refs d) (cas_app_root_events d)
    (cas_app_root_requests d) (cas_app_root_cutover d) (legacy_pending d).
Definition set_root_refs (t : gmap NodeKey Z) (d : Db) : Db :=
  mkDb (cas_nodes d) (cas_edges d) (cas_upload_reservations d)
    (cas_direct_upload_sessions d) (cas_node_uploads d) (cas_node_upload_cleanup d)
    (cas_space_usage d) (cas_app_root_revisions d) t (cas_app_root_events d)
    (cas_app_root_requests d) (cas_app_root_cutover d) (legacy_pending d).
Definition set_events (t : gmap (string * Z) EventRow) (d : Db) : Db :=
  mkDb (cas_nodes d) (cas_edges d) (cas_upload_reservations d)
    (cas_direct_upload_sessions d) (cas_node_uploads d) (cas_node_upload_cleanup d)
    (cas_space_usage d) (cas_app_root_revisions d) (cas_app_root_refs d) t
    (cas_app_root_requests d) (cas_app_root_cutover d) (legacy_pending d).
Definition set_requests (t : gmap NodeKey RequestRow) (d : Db) : Db :=
  mkDb (cas_nodes d) (cas_edges d) (cas_upload_reservations d)
    (cas_direct_upload_sessions d) (cas_node_uploads d) (cas_node_upload_cleanup d)
    (cas_space_usage d) (cas_app_root_revisions d) (cas_app_root_refs d)
    (cas_app_root_events d) t (cas_app_root_cutover d) (legacy_pending d).

(** * Statements *)

Definition stmt : Type := Db → option (Db * Z).

(** [db.batch(statements)]: one transaction. *)
Fixpoint run_batch (l : list stmt) (d : Db) : option (Db * list Z) :=
  match l with
  | [] => Some (d, [])
  | s :: l => '(d, n) ← s d; '(d, ns) ← run_batch l d; Some (d, n :: ns)
  end.

Definition opt_nonneg (z : option Z) : bool :=
  match z with Some z => 0 <=? z | None => true end.

(** The CHECK constraints of [cas_nodes] and [cas_space_usage]. *)
Definition node_check (r : NodeRow) : bool :=
  (0 <=? child_ref_count r) && (0 <=? root_ref_count r)
  && opt_nonneg (canonical_stored_bytes r) && opt_nonneg (canonical_observed_at r).
Definition usage_check (u : UsageRow) : bool :=
  usage_all (Z.leb 0) (us_usage u) && (0 <=? us_repaired_at u).

(** What one node row, and one reservation row, count for. *)
Definition node_usage (r : NodeRow) : Usage := {|
  node_count := 1;
  ready_content_bytes := content_size r;
  ready_stored_bytes := default 0 (canonical_stored_bytes r);
  reserved_bytes := 0;
  not_ready_node_count :=
    bool_Z (bool_decide (is_Some (canonical_observed_at r))
            && bool_decide (canonical_stored_bytes r = None));
  leased_node_count := bool_Z (0 <? lease_expires_at r);
  unobserved_node_count := bool_Z (bool_decide (canonical_observed_at r = None))
|}.
Definition reservation_usage (r : ReservationRow) : Usage :=
  mkUsage 0 0 0 (rv_stored_bytes r) 0 0 0.

(** [INSERT INTO cas_space_usage ... ON CONFLICT DO UPDATE SET c = c + new.c]. *)
Definition usage_upsert (s : AppSpaceScope) (u : Usage) (d : Db) : option Db :=
  let row := match cas_space_usage d !! s with
             | None => mkUsageRow u 0
             | Some r => mkUsageRow (gadd (us_usage r) u) (us_repaired_at r)
             end in
  if usage_check row then Some (set_usage (<[s := row]> (cas_space_usage d)) d) else None.

(** [UPDATE cas_space_usage SET c = c + new.c - old.c WHERE ...]. *)
Definition usage_adjust (s : AppSpaceScope) (new old : Usage) (d : Db) : option Db :=
  match cas_space_usage d !! s with
  | None => Some d
  | Some r =>
      let row := mkUsageRow (gsub (gadd (us_usage r) new) old) (us_repaired_at r) in
      if usage_check row then Some (set_usage (<[s := row]> (cas_space_usage d)) d) else None
  end.

(** [DELETE FROM cas_space_usage WHERE ... AND node_count = 0 AND reserved_bytes = 0]. *)
Definition usage_prune (s : AppSpaceScope) (d : Db) : Db :=
  match cas_space_usage d !! s with
  | Some r => if (node_count (us_usage r) =? 0) && (reserved_bytes (us_usage r) =? 0)
              then set_usage (delete s (cas_space_usage d)) d else d
  | None => d
  end.

Definition usage_guard (s : AppSpaceScope) (d : Db) : bool :=
  bool_decide (is_Some (cas_space_usage d !! s)).

(** ** cas_nodes *)

(** [INSERT INTO cas_nodes], with its trigger. *)
Definition insert_node (k : NodeKey) (r : NodeRow) : stmt := λ d,
  match cas_nodes d !! k with
  | Some _ => None
  | None =>
      if node_check r then
        d ← usage_upsert (fst k) (node_usage r) (set_nodes (<[k := r]> (cas_nodes d)) d);
        Some (d, 1)
      else None
  end.

(** [UPDATE cas_nodes SET ... WHERE] primary key. *)
Definition update_node (k : NodeKey) (f : NodeRow → NodeRow) : stmt := λ d,
  match cas_nodes d !! k with
  | None => Some (d, 0)
  | Some r =>
      if negb (usage_guard (fst k) d) then None
      else if node_check (f r) then
        d ← usage_adjust (fst k) (node_usage (f r)) (node_usage r)
              (set_nodes (<[k := f r]> (cas_nodes d)) d);
        Some (d, 1)
      else None
  end.

(** [DELETE FROM cas_nodes WHERE] primary key. *)
Definition delete_node (k : NodeKey) : stmt := λ d,
  match cas_nodes d !! k with
  | None => Some (d, 0)
  | Some r =>
      if negb (usage_guard (fst k) d) then None
      else
        d ← usage_adjust (fst k) usage_zero (node_usage r)
              (set_nodes (delete k (cas_nodes d)) d);
        Some (usage_prune (fst k) d, 1)
  end.

(** ** cas_upload_reservations *)

(** [INSERT ... ON CONFLICT DO UPDATE SET] of a reservation; [f] gives the row an
    existing one becomes. *)
Definition upsert_reservation (k : NodeKey) (r : ReservationRow)
    (f : ReservationRow → ReservationRow) : stmt := λ d,
  match cas_upload_reservations d !! k with
  | None =>
      if 0 <? rv_stored_bytes r then
        d ← usage_upsert (fst k) (reservation_usage r)
              (set_reservations (<[k := r]> (cas_upload_reservations d)) d);
        Some (d, 1)
      else None
  | Some old =>
      if negb (usage_guard (fst k) d) then None
      else if 0 <? rv_stored_bytes (f old) then
        d ← usage_adjust (fst k) (reservation_usage (f old)) (reservation_usage old)
              (set_reservations (<[k := f old]> (cas_upload_reservations d)) d);
        Some (d, 1)
      else None
  end.

(** [DELETE FROM cas_upload_reservations WHERE] primary key. *)
Definition delete_reservation (k : NodeKey) : stmt := λ d,
  match cas_upload_reservations d !! k with
  | None => Some (d, 0)
  | Some r =>
      if negb (usage_guard (fst k) d) then None
      else
        d ← usage_adjust (fst k) usage_zero (reservation_usage r)
              (set_reservations (delete k (cas_upload_reservations d)) d);
        Some (usage_prune (fst k) d, 1)
  end.

(** ** cas_edges *)

Definition insert_edge (parent : NodeKey) (ordinal : nat) (child : string) : stmt := λ d,
  match cas_edges d !! (parent, ordinal) with
  | Some _ => None
  | None => Some (set_edges (<[(parent, ordinal) := child]> (cas_edges d)) d, 1)
  end.

Definition delete_edges (parent : NodeKey) : stmt := λ d,
  let kept := filter (λ e : NodeKey * nat * string, fst (fst e) ≠ parent) (cas_edges d) in
  Some (set_edges kept d, Z.of_nat (size (cas_edges d)) - Z.of_nat (size kept)).

(** ** cas_direct_upload_sessions *)

Definition upsert_session (k : NodeKey) (r : SessionRow) : stmt := λ d,
  if (0 <? ss_stored_bytes r) && (0 <? ss_lease_duration_ms r)
     && bool_decide (map_Forall (λ k' r', k' = k ∨
          (ss_upload_id r' ≠ ss_upload_id r
           ∧ ss_temporary_object_key r' ≠ ss_temporary_object_key r))
          (cas_direct_upload_sessions d))
  then Some (set_sessions (<[k := r]> (cas_direct_upload_sessions d)) d, 1)
  else None.

Definition delete_session (k : NodeKey) : stmt := λ d,
  Some (set_sessions (delete k (cas_direct_upload_sessions d)) d,
        bool_Z (bool_decide (is_Some (cas_direct_upload_sessions d !! k)))).

(** ** cas_node_uploads *)

(** The UNIQUE constraint on the temporary key. *)
Definition upload_unique (k : NodeKey) (r : UploadRow) (d : Db) : bool :=
  bool_decide (map_Forall (λ k' r', k' = k ∨
    up_temporary_object_key r' ≠ up_temporary_object_key r) (cas_node_uploads d)).

(** [INSERT INTO cas_node_uploads ... ON CONFLICT(primary key) DO NOTHING]. *)
Definition insert_upload (k : NodeKey) (r : UploadRow) : stmt := λ d,
  match cas_node_uploads d !! k with
  | Some _ => Some (d, 0)
  | None => if upload_unique k r d
            then Some (set_uploads (<[k := r]> (cas_node_uploads d)) d, 1) else None
  end.

(** [UPDATE cas_node_uploads SET ... WHERE] primary key [AND generation = ?]. *)
Definition update_upload (k : NodeKey) (generation : string) (f : UploadRow → UploadRow)
    : stmt := λ d,
  match cas_node_uploads d !! k with
  | Some r => if bool_decide (up_generation r = generation) then
                if upload_unique k (f r) d
                then Some (set_uploads (<[k := f r]> (cas_node_uploads d)) d, 1) else None
              else Some (d, 0)
  | None => Some (d, 0)
  end.

Definition delete_upload (k : NodeKey) (generation : string) : stmt := λ d,
  match cas_node_uploads d !! k with
  | Some r => if bool_decide (up_generation r = generation)
              then Some (set_uploads (delete k (cas_node_uploads d)) d, 1) else Some (d, 0)
  | None => Some (d, 0)
  end.

(** The row [WHERE] primary key [AND generation = ?] selects. *)
Definition upload_of_generation (k : NodeKey) (generation : string) (d : Db)
    : option UploadRow :=
  match cas_node_uploads d !! k with
  | Some r => if bool_decide (up_generation r = generation) then Some r else None
  | None => None
  end.

(** ** cas_node_upload_cleanup *)

Definition upsert_cleanup (s : AppSpaceScope) (key : string) (cleanup_at : Z) : stmt := λ d,
  Some (set_cleanup (<[(s, key) := cleanup_at]> (cas_node_upload_cleanup d)) d, 1).

Definition delete_cleanup (s : AppSpaceScope) (key : string) : stmt := λ d,
  Some (set_cleanup (delete (s, key) (cas_node_upload_cleanup d)) d,
        bool_Z (bool_decide (is_Some (cas_node_upload_cleanup d !! (s, key))))).

(** ** Root Ref tables *)

(** [INSERT OR IGNORE INTO cas_app_root_revisions (app_id, revision) VALUES (?, 0)]. *)
Definition init_revision (app : string) : stmt := λ d,
  match cas_app_root_revisions d !! app with
  | Some _ => Some (d, 0)
  | None => Some (set_revisions (<[app := 0]> (cas_app_root_revisions d)) d, 1)
  end.

(** [SET revision = CASE WHEN revision = ? THEN ? ELSE NULL END]: the column is
    NOT NULL, so a lost compare-and-set aborts the batch. *)
Definition cas_revision (app : string) (expected revision : Z) : stmt := λ d,
  match cas_app_root_revisions d !! app with
  | Some r => if (r =? expected) && (0 <=? revision)
              then Some (set_revisions (<[app := revision]> (cas_app_root_revisions d)) d, 1)
              else None
  | None => Some (d, 0)
  end.

Definition upsert_root_ref (k : NodeKey) (refCount : Z) : stmt := λ d,
  if 0 <? refCount
  then Some (set_root_refs (<[k := refCount]> (cas_app_root_refs d)) d, 1) else None.

Definition delete_root_ref (k : NodeKey) : stmt := λ d,
  Some (set_root_refs (delete k (cas_app_root_refs d)) d,
        bool_Z (bool_decide (is_Some (cas_app_root_refs d !! k)))).

Definition insert_event (app : string) (revision : Z) (e : EventRow) : stmt := λ d,
  match cas_app_root_events d !! (app, revision) with
  | Some _ => None
  | None =>
      if (0 <? revision) && bool_decide (map_Forall (λ k e', fst k ≠ app
           ∨ ev_space_id e' ≠ ev_space_id e ∨ ev_request_id e' ≠ ev_request_id e)
           (cas_app_root_events d))
      then Some (set_events (<[(app, revision) := e]> (cas_app_root_events d)) d, 1)
      else None
  end.

Definition insert_request (k : NodeKey) (r : RequestRow) : stmt := λ d,
  match cas_app_root_requests d !! k with
  | Some _ => None
  | None => Some (set_requests (<[k := r]> (cas_app_root_requests d)) d, 1)
  end.
