(* ===== verification/SpaceCommits.v ===== *)
(** The transactions other workers commit on the tables of a Space: the plan record of
    [packages/service/src/root-refs.ts] with the statements the repository of
    [packages/service-cloudflare/src/root-refs.ts] runs for it in one batch, and the
    statements of [packages/service-cloudflare/src/usage-reconciliation.ts], which write
    a physical observation and rebuild the usage projection of a Space from its node and
    reservation rows. *)
From Stdlib Require Import Ascii.
From stdpp Require Import sorting.
From S2P Require Import Prelude Js MapSum Errors Store.

(** [RootRefCommitPlan]; a projection maps a hash to its balance, [None] when the
    row goes ([refCount: null]). *)
Record RootRefCommitPlan := mkPlan {
  rp_scope : AppSpaceScope;
  rp_requestId : string;
  rp_payloadHash : string;
  rp_changesJson : string;
  rp_entries : list (string * Z);
  rp_expectedRevision : Z;
  rp_revision : Z;
  rp_projections : list (string * option Z);
  rp_appliedAt : Z
}.

(** [SET root_ref_count = root_ref_count + ?]. *)
Definition add_root_refs (n : Z) (r : NodeRow) : NodeRow :=
  mkNodeRow (content_size r) (content_type r) (lease_started_at r) (lease_expires_at r)
    (child_ref_count r) (root_ref_count r + n) (ready r) (canonical_stored_bytes r)
    (canonical_observed_at r).

(** The two statements of one hash: its counter moves by [delta] and its balance
    becomes [refCount], the row going when it is [None]. *)
Definition root_ref_stmts (k : NodeKey) (delta : Z) (refCount : option Z) : list stmt :=
  [update_node k (add_root_refs delta);
   match refCount with Some n => upsert_root_ref k n | None => delete_root_ref k end].

(** [plan.projections.find(candidate => candidate.hash === hash)]. *)
Fixpoint find_projection (hash : string) (l : list (string * option Z)) : option (option Z) :=
  match l with
  | [] => None
  | (h, n) :: l => if bool_decide (h = hash) then Some n else find_projection hash l
  end.

(** The statements of one entry; reading [refCount] of [undefined] throws. *)
Definition entry_stmts (plan : RootRefCommitPlan) (entry : string * Z) : result exn (list stmt) :=
  let '(hash, delta) := entry in
  match find_projection hash (rp_projections plan) with
  | None => Throw (TypeError "Cannot read properties of undefined (reading 'refCount')")
  | Some refCount => Ok (root_ref_stmts (rp_scope plan, hash) delta refCount)
  end.

Definition plan_event (plan : RootRefCommitPlan) : EventRow :=
  mkEventRow (spaceId (rp_scope plan)) (rp_requestId plan) (rp_payloadHash plan)
    (rp_changesJson plan) (rp_appliedAt plan).
Definition plan_request (plan : RootRefCommitPlan) : RequestRow :=
  mkRequestRow (rp_payloadHash plan) (rp_revision plan) (rp_appliedAt plan).

(** The batch of [CloudflareRootRefRepository.commit]. *)
Definition commit_plan (plan : RootRefCommitPlan) : result exn (list stmt) :=
  let app := appId (rp_scope plan) in
  groups ← map_result (entry_stmts plan) (rp_entries plan);
  Ok ([init_revision app; cas_revision app (rp_expectedRevision plan) (rp_revision plan)]
      ++ concat groups
      ++ [insert_event app (rp_revision plan) (plan_event plan);
          insert_request (rp_scope plan, rp_requestId plan) (plan_request plan)]).

(** ** The canonical payload *)

(** [JSON.stringify(Object.fromEntries(entries))]: the keys are hashes, which
    need no escape and keep their order. *)
Definition quoted (s : string) : string :=
  String (char_of_code 34) s +:+ String (char_of_code 34) EmptyString.

Fixpoint json_members (entries : list (string * Z)) : string :=
  match entries with
  | [] => EmptyString
  | [(h, n)] => quoted h +:+ ":" +:+ show n
  | (h, n) :: entries => quoted h +:+ ":" +:+ show n +:+ "," +:+ json_members entries
  end.
Definition changes_json (entries : list (string * Z)) : string :=
  "{" +:+ json_members entries +:+ "}".

(** ** Plans that are true of a database

    What a commit relies on, and what [applyRootRefsUpdate] establishes: the
    revision is the next one, every node is there, and every projection is the
    balance moved by its delta. *)
Definition entry_ok (plan : RootRefCommitPlan) (d : Db) (entry : string * Z) : bool :=
  let k := (rp_scope plan, fst entry) in
  bool_decide (is_Some (cas_nodes d !! k))
  && match find_projection (fst entry) (rp_projections plan) with
     | Some n => default 0 n =? default 0 (cas_app_root_refs d !! k) + snd entry
     | None => false
     end.

Definition plan_ok (plan : RootRefCommitPlan) (d : Db) : bool :=
  (rp_expectedRevision plan =? default 0 (cas_app_root_revisions d !! appId (rp_scope plan)))
  && (rp_revision plan =? rp_expectedRevision plan + 1)
  && bool_decide (NoDup (fst <$> rp_entries plan))
  && bool_decide (rp_changesJson plan = changes_json (rp_entries plan))
  && forallb (entry_ok plan d) (rp_entries plan).

(** * Usage reconciliation *)

(** [writeNodeObservation(db, row, storedBytes, observedAt)]. *)
Definition observe_row (storedBytes : option Z) (observedAt : Z) (r : NodeRow) : NodeRow :=
  mkNodeRow (content_size r) (content_type r) (lease_started_at r) (lease_expires_at r)
    (child_ref_count r) (root_ref_count r) (ready r) storedBytes (Some observedAt).
Definition writeNodeObservation (k : NodeKey) (storedBytes : option Z) (observedAt : Z) : stmt :=
  update_node k (observe_row storedBytes observedAt).

Definition nodes_of (s : AppSpaceScope) (d : Db) : gmap NodeKey NodeRow :=
  filter (λ e : NodeKey * NodeRow, fst (fst e) = s) (cas_nodes d).
Definition reservations_of (s : AppSpaceScope) (d : Db) : gmap NodeKey ReservationRow :=
  filter (λ e : NodeKey * ReservationRow, fst (fst e) = s) (cas_upload_reservations d).

(** The aggregates the queries take of a Space. *)
Definition nodes_usage (s : AppSpaceScope) (d : Db) : Usage :=
  msum (λ _, node_usage) (nodes_of s d).
Definition reservations_usage (s : AppSpaceScope) (d : Db) : Usage :=
  msum (λ _, reservation_usage) (reservations_of s d).

Definition insert_usage (s : AppSpaceScope) (row : UsageRow) (d : Db) : option (Db * Z) :=
  if usage_check row then Some (set_usage (<[s := row]> (cas_space_usage d)) d, 1) else None.

(** [DELETE FROM cas_space_usage WHERE app_id = ? AND space_id = ?]. *)
Definition delete_usage (s : AppSpaceScope) : stmt := λ d,
  Some (set_usage (delete s (cas_space_usage d)) d,
        bool_Z (bool_decide (is_Some (cas_space_usage d !! s)))).

(** [INSERT ... SELECT ... FROM cas_nodes ... GROUP BY]: a Space without nodes has
    no group, hence no row. *)
Definition insert_usage_of_nodes (s : AppSpaceScope) : stmt := λ d,
  if decide (nodes_of s d = ∅) then Some (d, 0)
  else match cas_space_usage d !! s with
       | Some _ => None
       | None => insert_usage s (mkUsageRow (nodes_usage s d) 0) d
       end.

(** [INSERT OR IGNORE ... SELECT ... FROM cas_upload_reservations ... GROUP BY]. *)
Definition insert_usage_of_reservations (s : AppSpaceScope) : stmt := λ d,
  if decide (reservations_of s d = ∅) then Some (d, 0)
  else match cas_space_usage d !! s with
       | Some _ => Some (d, 0)
       | None => insert_usage s (mkUsageRow (reservations_usage s d) 0) d
       end.

(** [UPDATE cas_space_usage SET reserved_bytes = COALESCE((SELECT SUM ...), 0)]. *)
Definition set_reserved (n : Z) (u : Usage) : Usage :=
  mkUsage (node_count u) (ready_content_bytes u) (ready_stored_bytes u) n
    (not_ready_node_count u) (leased_node_count u) (unobserved_node_count u).
Definition update_usage (s : AppSpaceScope) (f : UsageRow → UsageRow) (d : Db)
    : option (Db * Z) :=
  match cas_space_usage d !! s with
  | None => Some (d, 0)
  | Some r => insert_usage s (f r) d
  end.
Definition update_reserved (s : AppSpaceScope) : stmt := λ d,
  update_usage s (λ r, mkUsageRow
    (set_reserved (reserved_bytes (reservations_usage s d)) (us_usage r)) (us_repaired_at r)) d.
Definition update_repaired (s : AppSpaceScope) (repairedAt : Z) : stmt := λ d,
  update_usage s (λ r, mkUsageRow (us_usage r) repairedAt) d.

(** [repairSpaceUsageProjection(db, scope, repairedAt)]. *)
Definition repair_batch (s : AppSpaceScope) (repairedAt : Z) : list stmt :=
  [delete_usage s; insert_usage_of_nodes s; insert_usage_of_reservations s;
   update_reserved s; update_repaired s repairedAt].
