(* ===== verification/Uri.v ===== *)
(** [encodeURIComponent] and [decodeURIComponent], on the code points of a string,
    and the composite names of [packages/service-cloudflare/src/do-names.ts] built
    from them: a name decodes to the one pair it was made of. *)
From Stdlib Require Import Ascii.
From S2P Require Import Prelude Js JsonText Errors.

(** The code points of a string; an unpaired surrogate is a point of its own. *)
Notation Points := (list Z) (only parsing).
Definition points (s : string) : Points := code <$> chars s.

Definition is_surrogate (p : Z) : bool := (0xD800 <=? p) && (p <=? 0xDFFF).
(** A point of a well-formed string. *)
Definition scalar (p : Z) : Prop := 0 ≤ p ≤ 0x10FFFF ∧ is_surrogate p = false.

Definition is_alphanumeric (c : ascii) : bool :=
  is_digit c || in_range 0x41 0x5a c || in_range 0x61 0x7a c.
(** What [encodeURIComponent] leaves alone. *)
Definition uri_unreserved (c : ascii) : bool :=
  is_alphanumeric c || bool_decide (c ∈ chars "-_.!~*'()").

Definition utf8_bytes (p : Z) : list Z :=
  if p <? 0x80 then [p]
  else if p <? 0x800 then [0xC0 + p / 64; 0x80 + p mod 64]
  else if p <? 0x10000 then [0xE0 + p / 4096; 0x80 + p / 64 mod 64; 0x80 + p mod 64]
  else [0xF0 + p / 262144; 0x80 + p / 4096 mod 64; 0x80 + p / 64 mod 64; 0x80 + p mod 64].

Definition upper_hex (n : Z) : ascii :=
  if n <? 10 then char_of_code (0x30 + n) else char_of_code (0x41 + (n - 10)).
Definition percent (b : Z) : list ascii := ["%"%char; upper_hex (b / 16); upper_hex (b mod 16)].

Definition encode_point (p : Z) : option (list ascii) :=
  if is_surrogate p then None
  else if (p <? 0x80) && uri_unreserved (char_of_code p) then Some [char_of_code p]
  else Some (concat (percent <$> utf8_bytes p)).
(** [None] is a [URIError]. *)
Fixpoint encodeURIComponent (l : Points) : option (list ascii) :=
  match l with
  | [] => Some []
  | p :: l => t ← encode_point p; r ← encodeURIComponent l; Some (t ++ r)
  end.

Definition percent_byte (l : list ascii) : option (Z * list ascii) :=
  match l with
  | c :: h :: k :: r =>
      if bool_decide (c = "%"%char) then
        a ← hex_val h; b ← hex_val k; Some (16 * a + b, r)
      else None
  | _ => None
  end.

(** [n] continuation bytes. *)
Fixpoint continuation (n : nat) (acc : Z) (l : list ascii) : option (Z * list ascii) :=
  match n with
  | O => Some (acc, l)
  | S n =>
      '(b, r) ← percent_byte l;
      if b / 64 =? 2 then continuation n (64 * acc + b mod 64) r else None
  end.

(** One point that is percent-encoded. *)
Definition decode_point (l : list ascii) : option (Z * list ascii) :=
  '(b, r) ← percent_byte l;
  if b <? 0x80 then Some (b, r)
  else if b / 32 =? 6 then
    '(p, r) ← continuation 1 (b mod 32) r; if p <? 0x80 then None else Some (p, r)
  else if b / 16 =? 14 then
    '(p, r) ← continuation 2 (b mod 16) r;
    if (p <? 0x800) || is_surrogate p then None else Some (p, r)
  else if b / 8 =? 30 then
    '(p, r) ← continuation 3 (b mod 8) r;
    if (p <? 0x10000) || (0x10FFFF <? p) then None else Some (p, r)
  else None.

(** Every turn takes a character at least, so that the length is fuel enough. *)
Fixpoint decode_loop (fuel : nat) (l : list ascii) : option Points :=
  match l with
  | [] => Some []
  | c :: r =>
      match fuel with
      | O => None
      | S fuel =>
          if bool_decide (c = "%"%char) then
            '(p, r) ← decode_point l; ps ← decode_loop fuel r; Some (p :: ps)
          else ps ← decode_loop fuel r; Some (code c :: ps)
      end
  end.
Definition decodeURIComponent (l : list ascii) : option Points := decode_loop (length l) l.

(** * Composite names *)

Definition canonicalComposite (appId component : Points) : result exn (list ascii) :=
  _ ← throw_if (bool_decide (appId = []) || bool_decide (component = []))
        (TypeError "DO composite parts must not be empty");
  match encodeURIComponent appId, encodeURIComponent component with
  | Some a, Some c => Ok (a ++ "|"%char :: c)
  | _, _ => Throw (Error "URIError: URI malformed")
  end.

Definition decodeComposite (name : list ascii) : option (Points * Points) :=
  match index_of "|"%char name with
  | None => None
  | Some separator =>
      appId ← decodeURIComponent (take separator name);
      component ← decodeURIComponent (drop (S separator) name);
      if bool_decide (appId = []) || bool_decide (component = []) then None
      else match canonicalComposite appId component with
           | Ok name' => if bool_decide (name' = name) then Some (appId, component) else None
           | Throw _ => None
           end
  end.

Example composite_case :
  canonicalComposite (points "my app") (points "/a|b") = Ok (chars "my%20app|%2Fa%7Cb")
  ∧ decodeComposite (chars "my%20app|%2Fa%7Cb") = Some (points "my app", points "/a|b")
  ∧ decodeComposite (chars "my%20app|%2fa") = None
  ∧ decodeURIComponent (chars "%E2%82%AC%F0%9F%98%80") = Some [0x20AC; 0x1F600]
  ∧ decodeURIComponent (chars "%C0%80") = None.
Proof. repeat split; vm_compute; reflexivity. Qed.

(** * Round trips *)

Lemma points_scalar s : Forall scalar (points s).
Proof.
  apply Forall_fmap, Forall_true. intros c. pose proof (code_range c). unfold scalar, is_surrogate, compose.
  split; [lia|]. apply andb_false_iff. left. apply Z.leb_gt. lia.
Qed.

Lemma hex_val_upper n : 0 ≤ n < 16 → hex_val (upper_hex n) = Some n.
Proof.
  intros Hn. assert (Forall (λ n, hex_val (upper_hex n) = Some n) (seqZ 0 16)) as Hall.
  { by apply (bool_decide_eq_true_1 _). }
  rewrite Forall_forall in Hall. apply Hall, elem_of_seqZ. lia.
Qed.

Lemma percent_byte_percent b r : 0 ≤ b < 256 → percent_byte (percent b ++ r) = Some (b, r).
Proof.
  intros Hb. unfold percent, percent_byte. cbn [app].
  rewrite bool_decide_eq_true_2 by done.
  rewrite !hex_val_upper by (Z.to_euclidean_division_equations; lia).
  cbn [mbind option_bind]. f_equal. f_equal. Z.to_euclidean_division_equations; lia.
Qed.

Lemma continuation_step n acc b r :
  0 ≤ b < 64 → continuation (S n) acc (percent (0x80 + b) ++ r) = continuation n (64 * acc + b) r.
Proof.
  intros Hb. cbn [continuation]. rewrite percent_byte_percent by lia. rewrite bind_Some.
  replace ((128 + b) / 64) with 2 by (Z.to_euclidean_division_equations; lia).
  replace ((128 + b) mod 64) with b by (Z.to_euclidean_division_equations; lia). done.
Qed.

Ltac div_lia := Z.to_euclidean_division_equations; lia.

(** One case of the encoding: the lead byte, and the tests of the decoder. *)
Lemma decode_utf8 p r :
  scalar p → decode_point (concat (percent <$> utf8_bytes p) ++ r) = Some (p, r).
Proof.
  intros [Hp Hs]. unfold utf8_bytes, decode_point.
  destruct (p <? 0x80) eqn:H1; [|destruct (p <? 0x800) eqn:H2; [|destruct (p <? 0x10000) eqn:H3]];
    rewrite ?Z.ltb_lt, ?Z.ltb_ge in *; cbn [fmap list_fmap concat]; rewrite ?app_nil_r, <- ?app_assoc;
    rewrite percent_byte_percent by div_lia; rewrite bind_Some.
  - by rewrite (proj2 (Z.ltb_lt p 0x80)).
  - rewrite (proj2 (Z.ltb_ge _ 0x80)) by div_lia.
    rewrite (proj2 (Z.eqb_eq ((192 + p / 64) / 32) 6)) by div_lia.
    rewrite continuation_step by div_lia. cbn [continuation]. rewrite bind_Some.
    replace (64 * ((192 + p / 64) mod 32) + p mod 64) with p by div_lia.
    by rewrite (proj2 (Z.ltb_ge p 0x80)).
  - rewrite (proj2 (Z.ltb_ge _ 0x80)) by div_lia.
    rewrite (proj2 (Z.eqb_neq ((224 + p / 4096) / 32) 6)) by div_lia.
    rewrite (proj2 (Z.eqb_eq ((224 + p / 4096) / 16) 14)) by div_lia.
    rewrite !continuation_step by div_lia. cbn [continuation]. rewrite bind_Some.
    replace (64 * (64 * ((224 + p / 4096) mod 16) + p / 64 mod 64) + p mod 64) with p by div_lia.
    by rewrite (proj2 (Z.ltb_ge p 0x800)), Hs.
  - rewrite (proj2 (Z.ltb_ge _ 0x80)) by div_lia.
    rewrite (proj2 (Z.eqb_neq ((240 + p / 262144) / 32) 6)) by div_lia.
    rewrite (proj2 (Z.eqb_neq ((240 + p / 262144) / 16) 14)) by div_lia.
    rewrite (proj2 (Z.eqb_eq ((240 + p / 262144) / 8) 30)) by div_lia.
    rewrite !continuation_step by div_lia. cbn [continuation]. rewrite bind_Some.
    replace (64 * (64 * (64 * ((240 + p / 262144) mod 8) + p / 4096 mod 64) + p / 64 mod 64) + p mod 64)
      with p by div_lia.
    rewrite (proj2 (Z.ltb_ge p 0x10000)), (proj2 (Z.ltb_ge 0x10FFFF p)) by lia. done.
Qed.

(** What a point is encoded as: itself, or an escape. *)
Lemma encode_point_cases p :
  scalar p →
  (∃ c, encode_point p = Some [c] ∧ code c = p ∧ uri_unreserved c = true)
  ∨ (∃ t, encode_point p = Some ("%"%char :: t) ∧ ∀ r, decode_point ("%"%char :: t ++ r) = Some (p, r)).
Proof.
  intros Hp. pose proof Hp as [Hr Hs]. unfold encode_point. rewrite Hs.
  destruct ((p <? 0x80) && uri_unreserved (char_of_code p)) eqn:Hu.
  - apply andb_true_iff in Hu as [Hlt%Z.ltb_lt Hu]. left. exists (char_of_code p).
    split_and!; [done| |done]. apply code_char_of_code. lia.
  - right. destruct (concat (percent <$> utf8_bytes p)) as [|c t] eqn:Ht.
    { unfold utf8_bytes in Ht. repeat case_match; done. }
    assert (c = "%"%char) as ->.
    { unfold utf8_bytes in Ht. repeat case_match; cbn in Ht; congruence. }
    exists t. split; [done|]. intros r. rewrite <- (decode_utf8 p r Hp), Ht. done.
Qed.

Lemma decode_loop_encode l t : ∀ fuel,
  Forall scalar l → encodeURIComponent l = Some t → (length t ≤ fuel)%nat →
  decode_loop fuel t = Some l.
Proof.
  revert t. induction l as [|p l IH]; intros t fuel Hl Ht Hf.
  { injection Ht as <-. by destruct fuel. }
  apply Forall_cons in Hl as [Hp Hl]. cbn [encodeURIComponent] in Ht.
  destruct (encode_point_cases p Hp) as [(c & Hc & Hcode & Hu)|(t1 & Hc & Hd)]; rewrite Hc in Ht;
    rewrite bind_Some in Ht;
    (destruct (encodeURIComponent l) as [t2|] eqn:Ht2; [|done]); rewrite bind_Some in Ht; injection Ht as <-;
    (destruct fuel as [|fuel]; [simpl in Hf; lia|]); cbn [app length] in Hf |- *; cbn [decode_loop].
  - rewrite bool_decide_eq_false_2; [|by intros ->].
    rewrite (IH t2 fuel Hl eq_refl) by lia. rewrite bind_Some. by rewrite Hcode.
  - rewrite bool_decide_eq_true_2 by done. rewrite Hd, bind_Some.
    rewrite length_app in Hf. rewrite (IH t2 fuel Hl eq_refl) by lia. done.
Qed.

Lemma encode_defined l : Forall scalar l → is_Some (encodeURIComponent l).
Proof.
  induction 1 as [|p l Hp _ [t Ht]]; [by eexists|]. cbn [encodeURIComponent].
  destruct (encode_point_cases p Hp) as [(c & Hc & _)|(t1 & Hc & _)];
    rewrite Hc, bind_Some, Ht, bind_Some; by eexists.
Qed.

(** The characters of an encoding: the unreserved, and those of escapes. *)
Definition never_encoded (c : ascii) : Prop :=
  uri_unreserved c = false ∧ c ≠ "%"%char ∧ Forall (λ n, upper_hex n ≠ c) (seqZ 0 16).
#[global] Instance never_encoded_dec c : Decision (never_encoded c).
Proof. apply _. Defined.

Lemma percent_never c b : never_encoded c → 0 ≤ b < 256 → c ∉ percent b.
Proof.
  intros (_ & Hp & Hx) Hb. rewrite Forall_forall in Hx. unfold percent.
  rewrite !not_elem_of_cons. split_and!; [done| | |apply not_elem_of_nil];
    apply not_eq_sym, Hx, elem_of_seqZ; div_lia.
Qed.
Lemma encode_point_never c p t :
  never_encoded c → 0 ≤ p ≤ 0x10FFFF → encode_point p = Some t → c ∉ t.
Proof.
  intros Hc Hp Ht. unfold encode_point in Ht. destruct (is_surrogate p); [done|].
  case_match eqn:Hu; injection Ht as <-.
  - apply andb_true_iff in Hu as [_ Hu]. intros Hin%list_elem_of_singleton. destruct Hc as [Hc _]. congruence.
  - unfold utf8_bytes.
    destruct (p <? 0x80) eqn:H1; [|destruct (p <? 0x800) eqn:H2; [|destruct (p <? 0x10000) eqn:H3]];
      rewrite ?Z.ltb_lt, ?Z.ltb_ge in *; cbn [fmap list_fmap concat];
      rewrite !not_elem_of_app; split_and!; try apply not_elem_of_nil; apply percent_never; first [exact Hc|div_lia].
Qed.
Lemma encode_never c l t :
  never_encoded c → Forall scalar l → encodeURIComponent l = Some t → c ∉ t.
Proof.
  intros Hc Hl. revert t. induction Hl as [|p l [Hp _] Hl IH]; intros t Ht;
    [injection Ht as <-; apply not_elem_of_nil|].
  cbn [encodeURIComponent] in Ht. destruct (encode_point p) as [t1|] eqn:H1; [|done].
  rewrite bind_Some in Ht. destruct (encodeURIComponent l) as [t2|]; [|done].
  rewrite bind_Some in Ht. injection Ht as <-.
  rewrite not_elem_of_app. split; [|by apply IH]. by apply (encode_point_never c p t1).
Qed.

Lemma uri_round_trip l t :
  Forall scalar l → encodeURIComponent l = Some t → decodeURIComponent t = Some l.
Proof. intros Hl Ht. by apply decode_loop_encode. Qed.

Lemma index_of_first c l r : c ∉ l → index_of c (l ++ c :: r) = Some (length l).
Proof.
  induction l as [|x l IH]; intros Hl; cbn [app index_of length].
  - by rewrite decide_True.
  - apply not_elem_of_cons in Hl as [Hx Hl]. rewrite decide_False by done. by rewrite IH.
Qed.

(** Two non-empty well-formed parts. *)
Definition composite_parts (a c : Points) : Prop :=
  a ≠ [] ∧ c ≠ [] ∧ Forall scalar a ∧ Forall scalar c.

Lemma canonicalComposite_ok a c :
  composite_parts a c → ∃ ta tc, encodeURIComponent a = Some ta ∧ encodeURIComponent c = Some tc
    ∧ canonicalComposite a c = Ok (ta ++ "|"%char :: tc).
Proof.
  intros (Ea & Ec & Ha & Hc). destruct (encode_defined a Ha) as [ta Hta].
  destruct (encode_defined c Hc) as [tc Htc]. exists ta, tc. split_and!; [done..|].
  unfold canonicalComposite. rewrite !bool_decide_eq_false_2 by done.
  cbn [orb throw_if mbind result_bind]. by rewrite Hta, Htc.
Qed.

Lemma decode_canonical a c name :
  composite_parts a c → canonicalComposite a c = Ok name → decodeComposite name = Some (a, c).
Proof.
  intros Hp Hname. destruct (canonicalComposite_ok a c Hp) as (ta & tc & Hta & Htc & Heq).
  rewrite Hname in Heq. injection Heq as ->. destruct Hp as (Ea & Ec & Ha & Hc).
  unfold decodeComposite. rewrite index_of_first by (apply (encode_never _ a); [by apply (bool_decide_eq_true_1 _)|done..]).
  rewrite take_app_length. replace (S (length ta)) with (length ta + 1)%nat by lia.
  rewrite drop_app_add. change (drop 1 ("|"%char :: tc)) with tc.
  rewrite (uri_round_trip a ta) by done. rewrite bind_Some.
  rewrite (uri_round_trip c tc) by done. rewrite bind_Some.
  rewrite !bool_decide_eq_false_2 by done. cbn [orb]. rewrite Hname. by rewrite bool_decide_eq_true_2.
Qed.

(** The names of Durable Objects stand for exactly one pair of an App and a
    component. Every pair of non-empty well-formed strings has a name, which
    decodes to the pair; so different pairs have different names. Decoding
    accepts canonical names only: what it yields for a name is a pair of
    non-empty strings whose name it is. *)
Lemma composite_names_exact a c :
  composite_parts a c →
  ∃ name, canonicalComposite a c = Ok name ∧ decodeComposite name = Some (a, c)
    ∧ (∀ a' c', composite_parts a' c' → canonicalComposite a' c' = Ok name → a' = a ∧ c' = c)
    ∧ ∀ name' a' c', decodeComposite name' = Some (a', c') →
        a' ≠ [] ∧ c' ≠ [] ∧ canonicalComposite a' c' = Ok name'.
Proof.
  intros Hp. destruct (canonicalComposite_ok a c Hp) as (ta & tc & _ & _ & Hname).
  exists (ta ++ "|"%char :: tc). pose proof (decode_canonical a c _ Hp Hname) as Hd.
  split_and!; [done..| |].
  - intros a' c' Hp' Hname'. pose proof (decode_canonical a' c' _ Hp' Hname') as Hd'.
    rewrite Hd in Hd'. by injection Hd' as -> ->.
  - intros name' a' c'. unfold decodeComposite. destruct (index_of _ _) as [i|]; [|done].
    destruct (decodeURIComponent (take i name')) as [x|]; [|done]. rewrite bind_Some.
    destruct (decodeURIComponent (drop (S i) name')) as [y|]; [|done]. rewrite bind_Some.
    destruct (bool_decide (x = []) || bool_decide (y = [])) eqn:He; [done|].
    apply orb_false_iff in He as [Ex%bool_decide_eq_false Ey%bool_decide_eq_false].
    destruct (canonicalComposite x y) as [n|] eqn:Hn; [|done].
    case_bool_decide; [|done]. intros [= <- <-]. by subst.
Qed.

Lemma composite_names_exact_witness :
  composite_parts (points "app") (points "/space")
  ∧ ∃ name, canonicalComposite (points "app") (points "/space") = Ok name
      ∧ decodeComposite name = Some (points "app", points "/space").
Proof.
  assert (composite_parts (points "app") (points "/space")) as Hp.
  { split; [discriminate|]. split; [discriminate|]. split; apply points_scalar. }
  split; [exact Hp|].
  destruct (composite_names_exact (points "app") (points "/space") Hp) as (name & H1 & H2 & _).
  exists name. split; [exact H1|exact H2].
Defined.
