(* ===== verification/SpaceId.v ===== *)
(** Identifiers of Spaces and the selectors a capability grants them by, of
    [packages/space-protocol/src/space-id.ts]; a selector matches exactly the
    Spaces its pattern stands for. *)
From Stdlib Require Import Ascii.
From S2P Require Import Prelude Js JsString Uri.

Definition SPACE_ID_MAX_LENGTH : Z := 256.
Definition SPACE_SELECTOR_MAX_LENGTH : Z := SPACE_ID_MAX_LENGTH + 2.

Definition slash : ascii := "/"%char.
Definition star : ascii := "*"%char.

(** [[A-Za-z0-9_-]+], and [SPACE_ID_PATTERN]: a leading [/] and the segments
    between the others. *)
Definition segment_char (c : ascii) : bool :=
  is_alphanumeric c || bool_decide (c ∈ chars "_-").
Definition is_segment (l : list ascii) : bool :=
  negb (bool_decide (l = [])) && forallb segment_char l.
Definition SPACE_ID_PATTERN (s : string) : bool :=
  match split_chars slash (chars s) with
  | [] :: segments => negb (bool_decide (segments = [])) && forallb is_segment segments
  | _ => false
  end.

(** [validateSpaceId(value)] of a string; [None] is [null]. *)
Definition validateSpaceId (value : string) : option string :=
  if SPACE_ID_MAX_LENGTH <? strlen value then
    Some ("spaceId must be at most " +:+ show SPACE_ID_MAX_LENGTH +:+ " characters")
  else if negb (SPACE_ID_PATTERN value) then
    Some "spaceId must start with '/' and contain non-empty ASCII letter, digit, '_' or '-' path segments"
  else None.

Inductive SpaceSelectorKind := exact | segment_prefix | recursive_prefix.
#[global] Instance SpaceSelectorKind_eq_dec : EqDecision SpaceSelectorKind.
Proof. solve_decision. Defined.

Record ParsedSpaceSelector := mkSelector {
  ps_selector : string;
  ps_kind : SpaceSelectorKind;
  ps_literalPrefix : string
}.

Definition parseSpaceSelector (value : string) : option ParsedSpaceSelector :=
  if SPACE_SELECTOR_MAX_LENGTH <? strlen value then None
  else if endsWith value "/**" then
    let prefix := slice_end 3 value in
    match validateSpaceId prefix with
    | Some _ => None
    | None => Some (mkSelector value recursive_prefix (prefix +:+ "/"))
    end
  else if endsWith value "*" then
    if negb (bool_decide (index_of star (chars value) = Some (String.length value - 1)%nat)) then None
    else
      let prefix := slice_end 1 value in
      match validateSpaceId prefix with
      | Some _ => None
      | None => Some (mkSelector value segment_prefix prefix)
      end
  else
    match validateSpaceId value with
    | Some _ => None
    | None => Some (mkSelector value exact value)
    end.

(** [spaceSelectorMatches(selector, spaceId)], of a parsed selector and of a text. *)
Definition parsed_matches (parsed : ParsedSpaceSelector) (spaceId : string) : bool :=
  match validateSpaceId spaceId with
  | Some _ => false
  | None =>
      match ps_kind parsed with
      | exact => bool_decide (spaceId = ps_literalPrefix parsed)
      | segment_prefix =>
          if negb (startsWith spaceId (ps_literalPrefix parsed)) then false
          else negb (includes (str_drop (String.length (ps_literalPrefix parsed)) spaceId) "/")
      | recursive_prefix => startsWith spaceId (ps_literalPrefix parsed)
      end
  end.
Definition spaceSelectorMatches (selector spaceId : string) : bool :=
  match validateSpaceId spaceId with
  | Some _ => false
  | None =>
      match parseSpaceSelector selector with
      | None => false
      | Some parsed => parsed_matches parsed spaceId
      end
  end.

Example selector_cases :
  spaceSelectorMatches "/a/b" "/a/b" = true ∧ spaceSelectorMatches "/a/b*" "/a/bcd" = true
  ∧ spaceSelectorMatches "/a/b*" "/a/b/c" = false ∧ spaceSelectorMatches "/a/**" "/a/b/c" = true
  ∧ spaceSelectorMatches "/a/**" "/a" = false ∧ spaceSelectorMatches "/a/*" "/a/b" = false
  ∧ spaceSelectorMatches "/a*/**" "/ab/c" = false ∧ parseSpaceSelector "/**" = None
  ∧ SPACE_ID_PATTERN "/a//b" = false ∧ SPACE_ID_PATTERN "/" = false ∧ SPACE_ID_PATTERN "a" = false.
Proof. repeat split; vm_compute; reflexivity. Qed.

(** * Valid identifiers *)

Notation valid s := (validateSpaceId s = None).

Lemma valid_spec s : valid s ↔ strlen s ≤ SPACE_ID_MAX_LENGTH ∧ SPACE_ID_PATTERN s = true.
Proof.
  unfold validateSpaceId. destruct (Z.ltb_spec SPACE_ID_MAX_LENGTH (strlen s)).
  - split; [done|]. lia.
  - destruct (SPACE_ID_PATTERN s); simpl; naive_solver.
Qed.

(** A path is its segments, each after a slash. *)
Definition segments_of (segments : list (list ascii)) : Prop :=
  segments ≠ [] ∧ Forall (λ l, is_segment l = true) segments.
Lemma pattern_spec s :
  SPACE_ID_PATTERN s = true ↔ ∃ segments, split_chars slash (chars s) = [] :: segments ∧ segments_of segments.
Proof.
  unfold SPACE_ID_PATTERN, segments_of. destruct (split_chars slash (chars s)) as [|[|? ?] ss];
    [naive_solver| |naive_solver].
  rewrite andb_true_iff, negb_true_iff, bool_decide_eq_false, forallb_forall.
  setoid_rewrite Forall_forall. split.
  - intros [Hn Hf]. exists ss. split_and!; [done..|]. intros x Hx. by apply Hf, list_elem_of_In.
  - intros (ss' & [= <-] & Hn & Hf). split; [done|]. intros x Hx. by apply Hf, list_elem_of_In.
Qed.

Lemma segment_no c l : segment_char c = false → is_segment l = true → c ∉ l.
Proof.
  unfold is_segment. intros Hc [_ Hl]%andb_true_iff Hin. rewrite forallb_forall in Hl.
  apply list_elem_of_In, Hl in Hin. congruence.
Qed.

Lemma split_chars_elem c x l :
  x ≠ c → x ∈ l → ∃ w, w ∈ split_chars c l ∧ x ∈ w.
Proof.
  intros Hx. induction l as [|y l IH]; [by intros ?%elem_of_nil|]. simpl.
  destruct (split_chars_cons c l) as (w & ws & Hs). rewrite Hs in *.
  intros [->|Hin]%elem_of_cons.
  - rewrite decide_False by done. exists (y :: w). split; left.
  - destruct (IH Hin) as (v & Hv & Hxv). case_decide as Hd.
    + exists v. split; [by right|done].
    + apply elem_of_cons in Hv as [->|Hv].
      * exists (y :: w). split; [left|by right].
      * exists v. split; [by right|done].
Qed.

Lemma pattern_no_star s : SPACE_ID_PATTERN s = true → star ∉ chars s.
Proof.
  intros (ss & Hs & _ & Hf)%pattern_spec Hin.
  destruct (split_chars_elem slash star (chars s)) as (w & Hw & Hx); [done..|].
  rewrite Hs in Hw. apply elem_of_cons in Hw as [->|Hw]; [by apply elem_of_nil in Hx|].
  rewrite Forall_forall in Hf. by apply (segment_no star) in Hx; [| |apply Hf].
Qed.

(** The identifier with these segments. *)
Definition path (segments : list (list ascii)) : string :=
  of_chars (concat (cons slash <$> segments)).
Lemma chars_path segments : chars (path segments) = concat (cons slash <$> segments).
Proof. apply chars_of_chars. Qed.
Lemma path_app a b : path (a ++ b) = path a +:+ path b.
Proof. apply (inj chars). by rewrite chars_app, !chars_path, fmap_app, concat_app. Qed.

Lemma segments_no_slash segments :
  Forall (λ l, is_segment l = true) segments → Forall (λ l, slash ∉ l) segments.
Proof. intros H. eapply Forall_impl; [exact H|]. intros l. by apply segment_no. Qed.
Lemma split_path segments :
  segments_of segments → split_chars slash (chars (path segments)) = [] :: segments.
Proof.
  intros [_ Hs]. rewrite chars_path. apply (split_chars_concat slash []);
    [apply not_elem_of_nil|by apply segments_no_slash].
Qed.

Lemma pattern_path s :
  SPACE_ID_PATTERN s = true ↔ ∃ segments, segments_of segments ∧ s = path segments.
Proof.
  rewrite pattern_spec. split; intros (ss & H1 & H2); exists ss.
  - split; [done|]. apply (inj chars). rewrite chars_path. by rewrite (split_chars_join _ _ _ _ H1).
  - split; [|done]. subst s. by apply split_path.
Qed.

Lemma path_inj a b : segments_of a → segments_of b → path a = path b → a = b.
Proof.
  intros Ha Hb Heq%(f_equal (λ s, split_chars slash (chars s))).
  rewrite !split_path in Heq by done. by injection Heq.
Qed.

(** A path that begins with a path, up to the end of a segment or inside one. *)
Lemma path_extend a b t :
  segments_of a → segments_of b → path b = path a +:+ t →
  ∃ init last s rest, a = init ++ [last] ∧ b = init ++ (last ++ s) :: rest
    ∧ slash ∉ s ∧ t = of_chars s +:+ path rest.
Proof.
  intros Ha Hb Heq. destruct (split_chars_cons slash (chars t)) as (s & rest & Ht).
  destruct (exists_last (proj1 Ha)) as (init & last & ->). exists init, last, s, rest.
  split_and!; [done| |by eapply split_chars_first|].
  - apply (f_equal (λ s, split_chars slash (chars s))) in Heq.
    rewrite split_path, chars_app in Heq by done.
    rewrite (split_chars_app_last slash _ _ ([] :: init) last s rest) in Heq; [by injection Heq| |done].
    by rewrite split_path.
  - apply (inj chars). rewrite chars_app, chars_path, chars_of_chars. by apply split_chars_join.
Qed.

(** * What a selector stands for *)

(** Whatever is parsed is a pattern over a valid identifier, and what its kind and
    prefix say. *)
Definition parse_of (value : string) (q : string) (kind : SpaceSelectorKind) : Prop :=
  SPACE_ID_PATTERN q = true
  ∧ match kind with
    | exact => value = q
    | segment_prefix => value = q +:+ "*"
    | recursive_prefix => value = q +:+ "/**"
    end.
Definition parsed_as (value : string) (q : string) (kind : SpaceSelectorKind) : ParsedSpaceSelector :=
  mkSelector value kind (match kind with recursive_prefix => q +:+ "/" | _ => q end).

Lemma selector_inv value parsed :
  parseSpaceSelector value = Some parsed →
  ∃ q, parse_of value q (ps_kind parsed) ∧ parsed = parsed_as value q (ps_kind parsed).
Proof.
  unfold parseSpaceSelector. case_match; [done|].
  destruct (endsWith value "/**") eqn:Hr; [|destruct (endsWith value "*") eqn:Hs].
  - apply endsWith_chars in Hr as [q ->]. change 3%nat with (String.length "/**"). rewrite slice_end_app.
    destruct (validateSpaceId q) eqn:Hq; [done|]. apply valid_spec in Hq as [_ Hq].
    intros [= <-]. by exists q.
  - case_match; [done|]. apply endsWith_chars in Hs as [q ->].
    change 1%nat with (String.length "*"). rewrite slice_end_app.
    destruct (validateSpaceId q) eqn:Hq; [done|]. apply valid_spec in Hq as [_ Hq].
    intros [= <-]. by exists q.
  - destruct (validateSpaceId value) eqn:Hq; [done|]. apply valid_spec in Hq as [_ Hq].
    intros [= <-]. by exists value.
Qed.

Lemma ends_star_iff q s : endsWith (q +:+ String star s) (String star s) = true.
Proof. apply endsWith_chars. by exists q. Qed.
Lemma no_star_ends q s x : SPACE_ID_PATTERN q = true → chars s = x ++ [star] → endsWith q s = false.
Proof.
  intros Hq%pattern_no_star Hs. destruct (endsWith q s) eqn:He; [|done].
  apply endsWith_chars in He as [k ->]. rewrite chars_app, Hs, !elem_of_app in Hq.
  destruct Hq. right. right. left.
Qed.

Lemma parse_complete value q kind :
  parse_of value q kind → valid q → strlen value ≤ SPACE_SELECTOR_MAX_LENGTH →
  parseSpaceSelector value = Some (parsed_as value q kind).
Proof.
  intros [Hq Hv] Hvalid Hlen. unfold parseSpaceSelector. rewrite (proj2 (Z.ltb_ge _ _)) by done.
  pose proof (pattern_no_star q Hq) as Hns. destruct kind; subst value.
  - rewrite (no_star_ends q _ ["/"%char; star]), (no_star_ends q _ []) by done. by rewrite Hvalid.
  - destruct (endsWith (q +:+ "*") "/**") eqn:He.
    { exfalso. apply endsWith_chars in He as [k Hk%(f_equal chars)]. rewrite !chars_app in Hk.
      change (chars "/**") with ([slash; star] ++ [star]) in Hk. rewrite app_assoc in Hk.
      apply app_inj_tail in Hk as [Hk _]. rewrite Hk, elem_of_app in Hns. destruct Hns. right. right. left. }
    rewrite (proj2 (endsWith_chars _ _)) by by exists q.
    rewrite chars_app. change (chars "*") with (star :: []). rewrite index_of_first by done.
    rewrite bool_decide_eq_true_2.
    2:{ f_equal. rewrite <- !length_chars, chars_app, length_app. simpl. lia. }
    change 1%nat with (String.length "*"). cbn [negb]. by rewrite slice_end_app, Hvalid.
  - rewrite (proj2 (endsWith_chars _ _)) by by exists q.
    change 3%nat with (String.length "/**"). by rewrite slice_end_app, Hvalid.
Qed.

(** The Spaces a selector denotes, by the segments of their identifiers: itself; for
    [p*] those that extend the last segment of [p]; for [p/**] those strictly
    below [p]. *)
Inductive selects : string → list (list ascii) → Prop :=
| selects_exact segments : selects (path segments) segments
| selects_segment init last t :
    segments_of (init ++ [last]) → selects (path (init ++ [last]) +:+ "*") (init ++ [last ++ t])
| selects_recursive segments more :
    segments_of segments → more ≠ [] → selects (path segments +:+ "/**") (segments ++ more).

Lemma path_cons s rest : path (s :: rest) = String slash (of_chars (s ++ concat (cons slash <$> rest))).
Proof. done. Qed.

Lemma parsed_matches_selects value q kind segments :
  parse_of value q kind → segments_of segments → strlen (path segments) ≤ SPACE_ID_MAX_LENGTH →
  parsed_matches (parsed_as value q kind) (path segments) = true → selects value segments.
Proof.
  intros [Hq Hv] Hs Hlen. apply pattern_path in Hq as (qs & Hqs & ->).
  assert (valid (path segments)) as Hval by (apply valid_spec; split; [done|]; apply pattern_path; by eexists).
  unfold parsed_matches. rewrite Hval. destruct kind; cbn [ps_kind ps_literalPrefix parsed_as]; subst value.
  - intros Heq%bool_decide_eq_true. apply path_inj in Heq as ->; [constructor|done..].
  - case_match eqn:Hst; [done|]. apply negb_false_iff, startsWith_app in Hst as [t Ht].
    rewrite Ht, str_drop_app. intros Hin%negb_true_iff.
    destruct (path_extend qs segments t Hqs Hs Ht) as (init & last & s & rest & -> & -> & Hsl & ->).
    destruct rest as [|r rest]; [by constructor|]. exfalso. apply not_true_iff_false in Hin. apply Hin.
    apply includes_char. rewrite chars_app, path_cons, elem_of_app. right. left.
  - intros (t & Ht)%startsWith_app.
    assert (path segments = path qs +:+ String slash t) as Ht'.
    { rewrite Ht. apply (inj chars). by rewrite !chars_app, <- app_assoc. }
    destruct (path_extend qs segments _ Hqs Hs Ht') as (init & last & s & rest & Hq & -> & Hsl & Hr).
    assert (s = []) as ->.
    { destruct s as [|c s]; [done|]. apply (f_equal chars) in Hr. rewrite chars_app, chars_of_chars in Hr.
      injection Hr as <- _. apply not_elem_of_cons in Hsl. tauto. }
    destruct rest as [|r rest].
    { apply (f_equal chars) in Hr. by rewrite chars_app in Hr. }
    rewrite app_nil_r, cons_middle, app_assoc, <- Hq. by constructor.
Qed.

Lemma path_pattern segments : segments_of segments → SPACE_ID_PATTERN (path segments) = true.
Proof. intros. apply pattern_path. by exists segments. Qed.
Lemma path_valid segments :
  segments_of segments → strlen (path segments) ≤ SPACE_ID_MAX_LENGTH → valid (path segments).
Proof. intros. apply valid_spec. split; [done|]. by apply path_pattern. Qed.

Lemma matches_of value q kind segments :
  parse_of value q kind → strlen q ≤ SPACE_ID_MAX_LENGTH → strlen value ≤ SPACE_SELECTOR_MAX_LENGTH →
  valid (path segments) → parsed_matches (parsed_as value q kind) (path segments) = true →
  spaceSelectorMatches value (path segments) = true.
Proof.
  intros Hp Hl1 Hl2 Hv Hm. unfold spaceSelectorMatches.
  rewrite Hv, (parse_complete value q kind), Hm; [done..| |done]. apply valid_spec. by split; [|apply Hp].
Qed.

Lemma path_grow init last t : path (init ++ [last ++ t]) = path (init ++ [last]) +:+ of_chars t.
Proof.
  rewrite !path_app. apply (inj chars). rewrite !chars_app, !chars_path, chars_of_chars. simpl.
  by rewrite !app_nil_r, <- app_assoc.
Qed.
Lemma selects_segment_matches init last t :
  segments_of (init ++ [last]) → segments_of (init ++ [last ++ t]) →
  strlen (path (init ++ [last ++ t])) ≤ SPACE_ID_MAX_LENGTH →
  spaceSelectorMatches (path (init ++ [last]) +:+ "*") (path (init ++ [last ++ t])) = true.
Proof.
  intros Hq Hs Hlen. pose proof (path_valid _ Hs Hlen) as Hval. rewrite path_grow, strlen_app in Hlen.
  unfold SPACE_ID_MAX_LENGTH in Hlen.
  apply (matches_of _ (path (init ++ [last])) segment_prefix); [| | |done|];
    rewrite ?strlen_app; unfold SPACE_SELECTOR_MAX_LENGTH, SPACE_ID_MAX_LENGTH, strlen in *; simpl; try lia.
  - split; [|done]. by apply path_pattern.
  - unfold parsed_matches. rewrite Hval, path_grow. cbn [ps_kind ps_literalPrefix parsed_as].
    rewrite (proj2 (startsWith_app _ _)) by by eexists. cbn [negb]. rewrite str_drop_app.
    apply negb_true_iff, not_true_iff_false. rewrite includes_char, chars_of_chars. intros Hin.
    destruct Hs as [_ Hs%segments_no_slash]. apply Forall_app in Hs as [_ Hs].
    apply Forall_cons in Hs as [Hs _]. apply Hs, elem_of_app. by right.
Qed.

Lemma path_below qs more :
  segments_of (qs ++ more) → more ≠ [] →
  ∃ t, path (qs ++ more) = path qs +:+ String slash t ∧ (1 ≤ String.length t)%nat.
Proof.
  intros [_ Hs] Hm. destruct more as [|m more]; [done|]. rewrite path_app, path_cons. eexists.
  split; [done|]. rewrite <- length_chars, chars_of_chars. apply Forall_app in Hs as [_ Hs].
  apply Forall_cons in Hs as [Hm' _]. destruct m; [done|]. simpl. lia.
Qed.
Lemma selects_recursive_matches qs more :
  segments_of qs → segments_of (qs ++ more) → more ≠ [] →
  strlen (path (qs ++ more)) ≤ SPACE_ID_MAX_LENGTH →
  spaceSelectorMatches (path qs +:+ "/**") (path (qs ++ more)) = true.
Proof.
  intros Hq Hs Hmore Hlen. pose proof (path_valid _ Hs Hlen) as Hval.
  destruct (path_below qs more Hs Hmore) as (t & Ht & Hlt). rewrite Ht, strlen_app in Hlen.
  apply (matches_of _ (path qs) recursive_prefix); [| | |done|];
    rewrite ?strlen_app; unfold SPACE_SELECTOR_MAX_LENGTH, SPACE_ID_MAX_LENGTH, strlen in *; simpl in *; try lia.
  - split; [|done]. by apply path_pattern.
  - unfold parsed_matches. rewrite Hval, Ht. cbn [ps_kind ps_literalPrefix parsed_as].
    apply startsWith_app. exists t. apply (inj chars). by rewrite !chars_app, <- app_assoc.
Qed.

Lemma selects_matches value segments :
  segments_of segments → strlen (path segments) ≤ SPACE_ID_MAX_LENGTH → selects value segments →
  spaceSelectorMatches value (path segments) = true.
Proof.
  intros Hs Hlen Hsel. destruct Hsel.
  - apply (matches_of _ (path segments) exact); unfold SPACE_SELECTOR_MAX_LENGTH; [|done|lia| |].
    + split; [|done]. by apply path_pattern.
    + by apply path_valid.
    + unfold parsed_matches. rewrite path_valid by done. by apply bool_decide_eq_true.
  - by apply selects_segment_matches.
  - by apply selects_recursive_matches.
Qed.

(** C31: a selector matches exactly the Spaces it stands for: an identifier stands for
    itself, [p*] for the identifiers that continue the last segment of [p], and
    [p/**] for those strictly below [p] — never for [p] itself, nor for a sibling
    that [p] is a textual prefix of. Whatever is not such a pattern over a valid
    identifier matches nothing, and nothing matches an invalid identifier. *)
Theorem spaceSelectorMatches_spec selector spaceId :
  spaceSelectorMatches selector spaceId = true
  ↔ validateSpaceId spaceId = None
    ∧ ∃ segments, segments_of segments ∧ spaceId = path segments ∧ selects selector segments.
Proof.
  split.
  - unfold spaceSelectorMatches. destruct (validateSpaceId spaceId) eqn:Hv; [done|].
    destruct (parseSpaceSelector selector) as [parsed|] eqn:Hp; [|done].
    destruct (selector_inv _ _ Hp) as (q & Hof & ->). intros Hm. split; [done|].
    apply valid_spec in Hv as [Hlen (segments & Hs & ->)%pattern_path].
    exists segments. split_and!; [done..|]. by eapply parsed_matches_selects.
  - intros (Hv & segments & Hs & -> & Hsel). apply valid_spec in Hv as [Hlen _].
    by apply selects_matches.
Qed.
