(* ===== verification/SpaceRoutes.v ===== *)
(** The routes of a Space, of [packages/space-protocol/src/routes.ts], and the
    permission each operation asks for, of [space-capability.ts]. *)
From Stdlib Require Import Ascii.
From S2P Require Import Prelude Js JsString Errors Uri SpaceId.

(** A parsed URL: its [pathname], and the decoded pairs of its [searchParams]. *)
Record Url := mkUrl { url_pathname : string; url_search : list (string * string) }.

(** [searchParams.getAll(name)]. *)
Definition getAll (name : string) (url : Url) : list string :=
  snd <$> filter (λ p : string * string, fst p = name) (url_search url).

Inductive AppSpaceRoute :=
| readContent (appId spaceId : string) (hash : Points)
| readMetadata (appId spaceId : string) (hash : Points)
| leaseRoute (appId spaceId : string) (hash : Points)
| usage (appId spaceId : string)
| gc (appId spaceId : string)
| listRootRefsRoute (appId spaceId : string)
| updateRootRefsRoute (appId spaceId : string).

Definition route_appId (r : AppSpaceRoute) : string :=
  match r with
  | readContent a _ _ | readMetadata a _ _ | leaseRoute a _ _
  | usage a _ | gc a _ | listRootRefsRoute a _ | updateRootRefsRoute a _ => a
  end.
Definition route_spaceId (r : AppSpaceRoute) : string :=
  match r with
  | readContent _ s _ | readMetadata _ s _ | leaseRoute _ s _
  | usage _ s | gc _ s | listRootRefsRoute _ s | updateRootRefsRoute _ s => s
  end.

(** * Building *)

(** [queryForScope(appId, spaceId, additional)]: the pairs of the query. *)
Definition queryForScope (appId spaceId : string) (additional : list (string * option string))
    : result exn (list (string * string)) :=
  _ ← throw_if (strlen appId =? 0) (TypeError "appId must not be empty");
  match validateSpaceId spaceId with
  | Some error => Throw (TypeError error)
  | None => Ok ([("appId", appId); ("spaceId", spaceId)]
                ++ omap (λ a : string * option string, v ← snd a; Some (fst a, v)) additional)
  end.

Definition node_path (hash : Points) (suffix : string) : result exn string :=
  match encodeURIComponent hash with
  | Some t => Ok ("/v1/cas/nodes/" +:+ of_chars t +:+ suffix)
  | None => Throw (Error "URIError: URI malformed")
  end.

(** [appSpaceRoutes]: the path and the query of a route, and the query of
    [listRootRefs] with its limit and cursor. *)
Definition appSpaceRoutes (r : AppSpaceRoute) (limit : option Z) (cursor : option string)
    : result exn Url :=
  pathname ← match r with
             | readContent _ _ hash => node_path hash EmptyString
             | readMetadata _ _ hash => node_path hash "/metadata"
             | leaseRoute _ _ hash => node_path hash "/lease"
             | usage _ _ => Ok "/v1/cas/usage"
             | gc _ _ => Ok "/v1/cas/gc"
             | listRootRefsRoute _ _ | updateRootRefsRoute _ _ => Ok "/v1/cas/root-refs"
             end;
  search ← queryForScope (route_appId r) (route_spaceId r)
             (match r with
              | listRootRefsRoute _ _ => [("limit", show <$> limit); ("cursor", cursor)]
              | _ => []
              end);
  Ok (mkUrl pathname search).

(** The method the client sends a route with. *)
Definition route_method (r : AppSpaceRoute) : string :=
  match r with
  | leaseRoute _ _ _ | gc _ _ | updateRootRefsRoute _ _ => "POST"
  | _ => "GET"
  end.

(** * Matching *)

(** [decodeSegment(value)]. *)
Definition decodeSegment (value : string) : option Points := decodeURIComponent (chars value).

(** The one value of a parameter. *)
Definition only (l : list string) : option string := match l with [x] => Some x | _ => None end.

(** The parts of a path: what is between its slashes and is not empty. *)
Definition path_parts (pathname : string) : list string :=
  filter (λ p, p ≠ EmptyString) (split slash pathname).

(** The operations, by what follows [/v1/cas]. *)
Definition match_tail (method appId spaceId : string) (parts : list string) : option AppSpaceRoute :=
  let is_GET := bool_decide (method = "GET") in
  let is_POST := bool_decide (method = "POST") in
  match parts with
  | ["root-refs"] =>
      if is_GET then Some (listRootRefsRoute appId spaceId)
      else if is_POST then Some (updateRootRefsRoute appId spaceId)
      else None
  | ["usage"] => if is_GET then Some (usage appId spaceId) else None
  | ["gc"] => if is_POST then Some (gc appId spaceId) else None
  | "nodes" :: segment :: rest =>
      hash ← decodeSegment segment;
      match rest with
      | [] => if is_GET then Some (readContent appId spaceId hash) else None
      | [tail] =>
          if bool_decide (tail = "metadata") && is_GET then Some (readMetadata appId spaceId hash)
          else if bool_decide (tail = "lease") && is_POST then Some (leaseRoute appId spaceId hash)
          else None
      | _ => None
      end
  | _ => None
  end.

(** [matchAppSpaceRoute(method, resource)], of the parsed resource; [None] is a
    resource that is no URL. *)
Definition matchAppSpaceRoute (method : string) (resource : option Url) : option AppSpaceRoute :=
  url ← resource;
  let parts := path_parts (url_pathname url) in
  if negb (bool_decide (parts !! 0%nat = Some "v1")) || negb (bool_decide (parts !! 1%nat = Some "cas"))
  then None
  else
    appId ← only (getAll "appId" url);
    spaceId ← only (getAll "spaceId" url);
    if (strlen appId =? 0) || bool_decide (is_Some (validateSpaceId spaceId)) then None
    else
      match_tail method appId spaceId (drop 2 parts).

(** * Permissions *)

Inductive SpaceCapabilityPermissionKind :=
| nodes_read | nodes_lease | root_refs_read | root_refs_update | usage_read | gc_execute.
#[global] Instance SpaceCapabilityPermissionKind_eq_dec : EqDecision SpaceCapabilityPermissionKind.
Proof. solve_decision. Defined.

Definition permission_name (k : SpaceCapabilityPermissionKind) : string :=
  match k with
  | nodes_read => "cas:nodes:read"
  | nodes_lease => "cas:nodes:lease"
  | root_refs_read => "cas:root-refs:read"
  | root_refs_update => "cas:root-refs:update"
  | usage_read => "cas:usage:read"
  | gc_execute => "cas:gc:execute"
  end.
Definition SpaceCapabilityPermissionKinds : list SpaceCapabilityPermissionKind :=
  [nodes_read; nodes_lease; root_refs_read; root_refs_update; usage_read; gc_execute].
(** [parseSpaceCapabilityPermission(permission)]. *)
Definition parseSpaceCapabilityPermission (permission : string) : option SpaceCapabilityPermissionKind :=
  head (filter (λ k, permission_name k = permission) SpaceCapabilityPermissionKinds).

(** The permission of [SpaceOperationPolicies]. *)
Definition spaceOperationPolicyFor (r : AppSpaceRoute) : SpaceCapabilityPermissionKind :=
  match r with
  | readContent _ _ _ | readMetadata _ _ _ => nodes_read
  | leaseRoute _ _ _ => nodes_lease
  | usage _ _ => usage_read
  | gc _ _ => gc_execute
  | listRootRefsRoute _ _ => root_refs_read
  | updateRootRefsRoute _ _ => root_refs_update
  end.
(** The name of the operation. *)
Definition operation (r : AppSpaceRoute) : string :=
  match r with
  | readContent _ _ _ => "readContent"
  | readMetadata _ _ _ => "readMetadata"
  | leaseRoute _ _ _ => "lease"
  | usage _ _ => "usage"
  | gc _ _ => "gc"
  | listRootRefsRoute _ _ => "listRootRefs"
  | updateRootRefsRoute _ _ => "updateRootRefs"
  end.

Example route_cases :
  let url path := Some (mkUrl path [("appId", "app"); ("spaceId", "/s")]) in
  matchAppSpaceRoute "GET" (url "/v1/cas/nodes/a%62") = Some (readContent "app" "/s" (points "ab"))
  ∧ matchAppSpaceRoute "POST" (url "//v1/cas/nodes/ab/lease/") = Some (leaseRoute "app" "/s" (points "ab"))
  ∧ matchAppSpaceRoute "DELETE" (url "/v1/cas/root-refs") = None
  ∧ matchAppSpaceRoute "GET" (Some (mkUrl "/v1/cas/usage" [("appId", "a"); ("appId", "b"); ("spaceId", "/s")])) = None.
Proof. repeat split; vm_compute; reflexivity. Qed.

(** * Routes and their addresses correspond *)

Definition route_hash (r : AppSpaceRoute) : option Points :=
  match r with
  | readContent _ _ h | readMetadata _ _ h | leaseRoute _ _ h => Some h
  | _ => None
  end.

(** A route of an App and a Space, whose hash is well formed and is not taken for a
    relative segment of a path. *)
Definition route_ok (r : AppSpaceRoute) : Prop :=
  strlen (route_appId r) ≠ 0 ∧ validateSpaceId (route_spaceId r) = None
  ∧ ∀ h, route_hash r = Some h → h ≠ [] ∧ Forall scalar h ∧ h ≠ points "." ∧ h ≠ points "..".

Lemma added_params name (additional : list (string * option string)) :
  Forall (λ a : string * option string, fst a ≠ name) additional →
  filter (λ p : string * string, fst p = name)
    (omap (λ a : string * option string, v ← snd a; Some (fst a, v)) additional) = [].
Proof.
  induction 1 as [|[n [v|]] l Hn _ IH]; [done| |exact IH].
  cbn [omap list_omap snd fst mbind option_bind]. by rewrite filter_cons_False.
Qed.
Lemma queryForScope_ok appId spaceId additional :
  strlen appId ≠ 0 → validateSpaceId spaceId = None →
  Forall (λ a : string * option string, fst a ≠ "appId" ∧ fst a ≠ "spaceId") additional →
  ∃ search, queryForScope appId spaceId additional = Ok search
    ∧ ∀ path, getAll "appId" (mkUrl path search) = [appId] ∧ getAll "spaceId" (mkUrl path search) = [spaceId].
Proof.
  intros Ha Hs Hadd. unfold queryForScope. rewrite (proj2 (Z.eqb_neq _ _)) by done.
  cbn [throw_if mbind result_bind]. rewrite Hs. eexists. split; [done|]. intros path.
  unfold getAll. cbn [url_search]. rewrite !filter_app, !added_params; [by split|..];
    (eapply Forall_impl; [done|]); by intros x [? ?].
Qed.

Lemma path_parts_app a b : path_parts (a +:+ String slash b) = path_parts a ++ path_parts b.
Proof.
  unfold path_parts, split. rewrite chars_app. change (chars (String slash b)) with (slash :: chars b).
  by rewrite split_chars_sep, fmap_app, filter_app.
Qed.
Lemma path_parts_one t : slash ∉ t → t ≠ [] → path_parts (of_chars t) = [of_chars t].
Proof.
  intros Ht Hne. unfold path_parts, split. rewrite chars_of_chars, split_chars_none by done.
  by destruct t.
Qed.
Lemma node_path_parts hash suffix tail :
  hash ≠ [] → Forall scalar hash →
  suffix = EmptyString ∧ tail = [] ∨ suffix = String slash (default EmptyString (head tail)) ∧ path_parts (default EmptyString (head tail)) = tail →
  ∃ t pathname, encodeURIComponent hash = Some t ∧ node_path hash suffix = Ok pathname
    ∧ path_parts pathname = ["v1"; "cas"] ++ "nodes" :: of_chars t :: tail
    ∧ decodeSegment (of_chars t) = Some hash.
Proof.
  intros Hne Hs Htail. destruct (encode_defined hash Hs) as [t Ht].
  assert (slash ∉ t) as Hns by (by eapply encode_never; [by apply (bool_decide_eq_true_1 _)|..]).
  assert (t ≠ []) as Hte.
  { intros ->. apply uri_round_trip in Ht; [|done]. injection Ht as <-. done. }
  exists t, ("/v1/cas/nodes/" +:+ of_chars t +:+ suffix). unfold node_path. rewrite Ht.
  split_and!; [done..| |by unfold decodeSegment; rewrite chars_of_chars; apply uri_round_trip].
  change ("/v1/cas/nodes/" +:+ ?x) with ("/v1/cas/nodes" +:+ String slash x). rewrite path_parts_app.
  change (path_parts "/v1/cas/nodes") with ["v1"; "cas"; "nodes"].
  destruct Htail as [[-> ->]|[-> Htail]].
  - assert (of_chars t +:+ EmptyString = of_chars t) as ->.
    { apply (inj chars). by rewrite chars_app, app_nil_r. }
    by rewrite path_parts_one.
  - by rewrite path_parts_app, path_parts_one, Htail.
Qed.

Lemma match_of_parts method pathname search appId spaceId parts :
  path_parts pathname = ["v1"; "cas"] ++ parts →
  getAll "appId" (mkUrl pathname search) = [appId] → getAll "spaceId" (mkUrl pathname search) = [spaceId] →
  strlen appId ≠ 0 → validateSpaceId spaceId = None →
  matchAppSpaceRoute method (Some (mkUrl pathname search))
  = match_tail method appId spaceId parts.
Proof.
  intros Hp Ha Hs Hna Hvs. unfold matchAppSpaceRoute. cbn [mbind option_bind url_pathname].
  rewrite Hp. cbn [app lookup list_lookup].
  rewrite !bool_decide_eq_true_2 by done. cbn [negb orb]. rewrite Ha, Hs. cbn [only mbind option_bind].
  rewrite (proj2 (Z.eqb_neq _ _)) by done. rewrite Hvs, bool_decide_eq_false_2 by by intros [? ?].
  done.
Qed.

Lemma match_tail_inv method appId spaceId parts r :
  match_tail method appId spaceId parts = Some r →
  method = route_method r ∧ route_appId r = appId ∧ route_spaceId r = spaceId.
Proof.
  unfold match_tail. intros Hm. repeat case_match; try discriminate;
    try (apply bind_Some in Hm as (? & _ & Hm); repeat case_match; try discriminate);
    injection Hm as <-; rewrite ?andb_true_iff, ?bool_decide_eq_true in *; by intuition subst.
Qed.

Ltac node_case Hh sfx tail :=
  destruct (Hh _ eq_refl) as (Hne & Hsc & _);
  match goal with |- context [node_path ?h sfx] =>
    destruct (node_path_parts h sfx tail) as (t & pathname & _ & -> & Hparts & Hdec); [done..|by (left + right)|]
  end.

Lemma match_inv method url r :
  matchAppSpaceRoute method (Some url) = Some r →
  method = route_method r
  ∧ getAll "appId" url = [route_appId r] ∧ getAll "spaceId" url = [route_spaceId r]
  ∧ strlen (route_appId r) ≠ 0 ∧ validateSpaceId (route_spaceId r) = None.
Proof.
  unfold matchAppSpaceRoute. cbn [mbind option_bind].
  case_match; [done|]. destruct (getAll "appId" url) as [|a [|? ?]]; try done.
  destruct (getAll "spaceId" url) as [|sp [|? ?]]; try done. cbn [only mbind option_bind].
  destruct (strlen a =? 0) eqn:Ha; [done|]. apply Z.eqb_neq in Ha.
  destruct (validateSpaceId sp) eqn:Hsp; [by rewrite bool_decide_eq_true_2|].
  rewrite bool_decide_eq_false_2 by by intros [? ?]. cbn [orb].
  intros Hm. by apply match_tail_inv in Hm as (-> & -> & ->).
Qed.

(** The address that is built is matched to what it was built for. *)
Lemma route_matched r limit cursor : route_ok r →
  ∃ url, appSpaceRoutes r limit cursor = Ok url ∧ matchAppSpaceRoute (route_method r) (Some url) = Some r.
Proof.
  intros (Ha & Hs & Hh).
  destruct (queryForScope_ok (route_appId r) (route_spaceId r)
    (match r with listRootRefsRoute _ _ => [("limit", show <$> limit); ("cursor", cursor)] | _ => [] end))
    as (search & Hq & Hg); [done..|by destruct r; repeat constructor|].
  unfold appSpaceRoutes. rewrite Hq.
  destruct r as [a sp h|a sp h|a sp h|a sp|a sp|a sp|a sp]; cbn [route_appId route_spaceId route_hash] in *;
    (try node_case Hh EmptyString (@nil string)); (try node_case Hh "/metadata" ["metadata"]);
    (try node_case Hh "/lease" ["lease"]); cbn [mbind result_bind];
    (eexists; split; [done|]);
    (erewrite match_of_parts; [|eassumption || reflexivity|exact (proj1 (Hg _))|exact (proj2 (Hg _))|done|done]);
    unfold match_tail; by rewrite ?Hdec.
Qed.

(** C32: the address a client builds for an operation of a Space is matched, with the
    operation's method, to that operation, with its App, Space and hash. And
    whatever is matched names one App and one valid Space, without ambiguity: an
    address that repeats [appId] or [spaceId] matches nothing. *)
Theorem routes_round_trip r limit cursor :
  route_ok r →
  (∃ url, appSpaceRoutes r limit cursor = Ok url
          ∧ matchAppSpaceRoute (route_method r) (Some url) = Some r)
  ∧ ∀ method url r', matchAppSpaceRoute method (Some url) = Some r' →
      method = route_method r'
      ∧ getAll "appId" url = [route_appId r'] ∧ getAll "spaceId" url = [route_spaceId r']
      ∧ strlen (route_appId r') ≠ 0 ∧ validateSpaceId (route_spaceId r') = None.
Proof. intros Hok. split; [by apply route_matched|]. intros method url r'. apply match_inv. Qed.

Lemma routes_round_trip_witness :
  let r := readContent "app" "/team/drive" (points "0a1b") in
  route_ok r ∧ ∃ url, appSpaceRoutes r None None = Ok url
    ∧ url_pathname url = "/v1/cas/nodes/0a1b" ∧ matchAppSpaceRoute "GET" (Some url) = Some r.
Proof.
  intros r. assert (route_ok r) as Hok.
  { split; [discriminate|]. split; [reflexivity|]. intros h [= <-].
    split; [discriminate|]. split; [apply points_scalar|]. split; discriminate. }
  split; [exact Hok|]. destruct (routes_round_trip r None None Hok) as [(url & H1 & H2) _].
  exists url. split; [exact H1|]. split; [|exact H2]. injection H1 as <-. reflexivity.
Defined.
