(* ===== verification/AppSpaceAuth.v ===== *)
(** Admission of a call to a Space, of [packages/service/src/app-space-auth.ts]: the
    verification of a capability against the authority of its issuer, with the
    cache of authorities, and the schema of the claims of [space-capability.ts].

    The [jose] library (decoding and verifying tokens, key sets) and the registry
    of Apps are parameters. They act on the whole state: while a call waits for
    them, other calls of the same verifier may run. *)
From Stdlib Require Import Ascii.
From S2P Require Import Prelude Js JsString JsonText Errors Safe SpaceId SpaceRoutes.

Definition CapabilityAlgorithm : string := "ES256".
Definition DEFAULT_CACHE_TTL_MS : Z := 30000.
Definition DEFAULT_HARD_STALE_BOUND_MS : Z := 60000.
Definition CLOCK_TOLERANCE_SECONDS : Z := 30.
Definition SpaceCapabilityVersion : Z := 2.
Definition MaximumSpaceCapabilityGrants : Z := 32.

Record ResolvedAppAuthority := mkAuthority {
  ra_appId : string;
  ra_active : bool; (* [appStatus === "active"] *)
  ra_issuer : string;
  ra_audience : string;
  ra_jwksUri : string;
  ra_capabilityMaxLifetimeSeconds : Z
}.

Inductive AppSpaceAuthEvent :=
| authorized (operation appId spaceId issuer kid jti : string)
| rejected (operation appId spaceId reason : string)
| registry_stale (issuer reason : string)
| fail_closed (issuer reason : string).

Record VerifiedAppSpaceCall := mkCall {
  vc_appId : string;
  vc_spaceId : string;
  vc_subject : string;
  vc_jti : string;
  vc_kid : string;
  vc_permissions : list SpaceCapabilityPermissionKind
}.

Definition authentication_error (code message : string) : exn :=
  ECapability (CapabilityAuthenticationError code message).
Definition authorization_error (code message : string) : exn :=
  ECapability (CapabilityAuthorizationError code message).
(** [error instanceof CapabilityAuthenticationError], and either class. *)
Definition is_authentication (e : exn) : bool :=
  match e with ECapability e => cae_status e =? 401 | _ => false end.
Definition is_capability (e : exn) : bool :=
  match e with ECapability _ => true | _ => false end.

(** * The claims: [SpaceCapabilityClaimsSchema] *)

Record SpaceCapabilityGrant := mkGrant {
  cg_selector : string;
  cg_permissions : list SpaceCapabilityPermissionKind
}.
Record NormalizedAppSpacePayload := mkPayload {
  np_subject : string;
  np_jti : string;
  np_grants : list SpaceCapabilityGrant;
  np_issuer : string
}.

Fixpoint all_some {A} (l : list (option A)) : option (list A) :=
  match l with
  | [] => Some []
  | x :: l => x ← x; l ← all_some l; Some (x :: l)
  end.

Definition member (name : string) (j : Json) : option Json :=
  match j with JObj members => find_member name members | _ => None end.
(** [z.string().min(1)], [z.number()]. *)
Definition string_claim (j : option Json) : option string :=
  match j with Some (JStr s) => if strlen s =? 0 then None else Some s | _ => None end.
Definition number_claim (j : option Json) : option Json :=
  match j with Some (JInt n) => Some (JInt n) | Some (JFrac t) => Some (JFrac t) | _ => None end.
Definition audience_claim (j : option Json) : bool :=
  match j with
  | Some (JArr (x :: l)) => forallb (λ j, bool_decide (is_Some (string_claim (Some j)))) (x :: l)
  | _ => bool_decide (is_Some (string_claim j))
  end.
Definition permission_claim (j : Json) : option SpaceCapabilityPermissionKind :=
  match j with JStr s => parseSpaceCapabilityPermission s | _ => None end.
Definition grant_claim (j : Json) : option SpaceCapabilityGrant :=
  match j with
  | JObj _ =>
      selector ← string_claim (member "selector" j);
      if (SPACE_SELECTOR_MAX_LENGTH <? strlen selector)
         || negb (bool_decide (is_Some (parseSpaceSelector selector))) then None
      else match member "permissions" j with
           | Some (JArr (p :: l)) =>
               permissions ← all_some (permission_claim <$> p :: l); Some (mkGrant selector permissions)
           | _ => None
           end
  | _ => None
  end.

(** [SpaceCapabilityClaimsSchema.safeParse(payload)] as [normalizeAppSpacePayload]
    uses it, with the claims [exp] and [iat]. *)
Definition safeParse (payload : Json) : option NormalizedAppSpacePayload :=
  match payload with
  | JObj _ =>
      if negb (match member "ver" payload with Some (JInt n) => n =? SpaceCapabilityVersion | _ => false end)
      then None
      else
        iss ← string_claim (member "iss" payload);
        sub ← string_claim (member "sub" payload);
        if negb (audience_claim (member "aud" payload)) then None
        else
          _ ← number_claim (member "iat" payload);
          _ ← number_claim (member "nbf" payload);
          _ ← number_claim (member "exp" payload);
          jti ← string_claim (member "jti" payload);
          match member "grants" payload with
          | Some (JArr (g :: l)) =>
              if MaximumSpaceCapabilityGrants <? Z.of_nat (length (g :: l)) then None
              else grants ← all_some (grant_claim <$> g :: l); Some (mkPayload sub jti grants iss)
          | _ => None
          end
  | _ => None
  end.
Definition normalizeAppSpacePayload (payload : Json) : result exn NormalizedAppSpacePayload :=
  match safeParse payload with
  | None => Throw (authentication_error "invalid_token" "CAS capability claims are invalid")
  | Some p => Ok p
  end.

(** [/^Bearer ([^\s]+)$/.exec(authorization)]: the token. *)
Definition bearer (authorization : string) : option string :=
  if startsWith authorization "Bearer " then
    let token := str_drop 7 authorization in
    if (strlen token =? 0) || some_char is_js_space token then None else Some token
  else None.

(** * The verifier *)

Record JwtOptions := mkJwtOptions {
  jo_algorithms : list string;
  jo_issuer : string;
  jo_audience : string;
  jo_clockTolerance : Z;
  jo_currentDate : Z;
  jo_requiredClaims : list string
}.

Record CachedAppAuthority := mkCached { ca_authority : ResolvedAppAuthority; ca_fetchedAt : Z }.

Section verifier.
(** A key set of the library, and the rest of the world with its clock. *)
Context {KeySet W : Type} (clock : W → Z).

(** The fields of [AppSpaceCapabilityVerifier], and the events reported. *)
Record Verifier := mkVerifier {
  authorityCache : gmap string CachedAppAuthority;
  remoteKeySets : gmap string KeySet;
  events : list AppSpaceAuthEvent;
  world : W
}.
Notation Run := (M exn Verifier).

Variables (algorithms : list string) (cacheTtlMs hardStaleBoundMs : Z).
(** [decodeJwt] and [decodeProtectedHeader], [None] for an exception;
    [createRemoteJWKSet(new URL(uri))]; [jwtVerify]; the registry; and [exp - iat >
    maximum] where a claim has a fraction. *)
Variables (decodeJwt decodeProtectedHeader : string → option Json)
  (createRemoteJWKSet : string → result exn KeySet)
  (jwtVerify : string → KeySet → JwtOptions → Run Json)
  (resolveIssuer : string → Run (option ResolvedAppAuthority))
  (lifetime_exceeds : Json → Json → Z → bool).

Definition now : Run Z := gets (λ v, clock (world v)).
Definition onEvent (e : AppSpaceAuthEvent) : Run unit :=
  modify (λ v, mkVerifier (authorityCache v) (remoteKeySets v) (events v ++ [e]) (world v)).
Definition cache_set (issuer : string) (c : option CachedAppAuthority) : Run unit :=
  modify (λ v, mkVerifier (partial_alter (λ _, c) issuer (authorityCache v))
                          (remoteKeySets v) (events v) (world v)).
Definition keySets_set (uri : string) (k : option KeySet) : Run unit :=
  modify (λ v, mkVerifier (authorityCache v) (partial_alter (λ _, k) uri (remoteKeySets v))
                          (events v) (world v)).

(** The two [try] blocks of [#resolveAuthority]: ask the registry again, with what to
    do when it fails. *)
Definition refresh (issuer : string) (cached : CachedAppAuthority) (at_ : Z)
    (unavailable : Run ResolvedAppAuthority) : Run ResolvedAppAuthority :=
  try_catch
    (fresh ← resolveIssuer issuer;
     match fresh with
     | Some fresh =>
         _ ← keySets_set (ra_jwksUri (ca_authority cached)) None;
         _ ← cache_set issuer (Some (mkCached fresh at_));
         mret fresh
     | None =>
         _ ← cache_set issuer None;
         throw (authentication_error "unknown_issuer" "CAS capability issuer is not registered")
     end)
    (λ error, if is_authentication error then throw error else unavailable).

(** [#resolveAuthority(issuer)]. *)
Definition resolveAuthority (issuer : string) : Run (option ResolvedAppAuthority) :=
  at_ ← now;
  cached ← gets (λ v, authorityCache v !! issuer);
  match cached with
  | Some cached =>
      let age := at_ - ca_fetchedAt cached in
      if age <? cacheTtlMs then mret (Some (ca_authority cached))
      else if hardStaleBoundMs <=? age then
        a ← refresh issuer cached at_
              (_ ← cache_set issuer None;
               _ ← onEvent (fail_closed issuer "authority registry unreachable past the hard stale bound");
               throw (authentication_error "registry_unavailable" "CAS authority registry is unavailable"));
        mret (Some a)
      else
        a ← refresh issuer cached at_
              (_ ← onEvent (registry_stale issuer
                     "authority registry unreachable; serving cached record within the stale bound");
               mret (ca_authority cached));
        mret (Some a)
  | None =>
      authority ← try_catch (resolveIssuer issuer) (λ _, mret None);
      match authority with
      | None => mret None
      | Some authority =>
          _ ← cache_set issuer (Some (mkCached authority at_));
          mret (Some authority)
      end
  end.

(** [#remoteKeySet(jwksUri)]. *)
Definition remoteKeySet (jwksUri : string) : Run KeySet :=
  cached ← gets (λ v, remoteKeySets v !! jwksUri);
  match cached with
  | Some k => mret k
  | None =>
      keySet ← lift (createRemoteJWKSet jwksUri);
      _ ← keySets_set jwksUri (Some keySet);
      mret keySet
  end.

(** The issuer, key identifier and algorithm a token claims, before any check of it. *)
Definition unverified (token : string) : result exn (string * string * string) :=
  match decodeJwt token, decodeProtectedHeader token with
  | Some payload, Some header =>
      match member "iss" payload, member "kid" header, member "alg" header with
      | Some (JStr issuer), Some (JStr kid), Some (JStr algorithm) =>
          _ ← throw_if ((strlen issuer =? 0) || (strlen kid =? 0) || (strlen algorithm =? 0))
                (authentication_error "invalid_token" "CAS capability token is missing issuer or key id");
          Ok (issuer, kid, algorithm)
      | _, _, _ =>
          Throw (authentication_error "invalid_token" "CAS capability token is missing issuer or key id")
      end
  | _, _ => Throw (authentication_error "invalid_token" "CAS capability token is malformed")
  end.

Definition exceeds (expires issued : option Json) (maximum : Z) : bool :=
  match expires, issued with
  | Some (JInt e), Some (JInt i) => maximum <? e - i
  | Some e, Some i => lifetime_exceeds e i maximum
  | _, _ => false
  end.

(** The [try] block around [jwtVerify]; the payload with the claims it was made of. *)
Definition verifiedPayload (token : string) (keySet : KeySet) (authority : ResolvedAppAuthority)
    : Run (NormalizedAppSpacePayload * Json) :=
  try_catch
    (date ← now;
     claims ← jwtVerify token keySet
       (mkJwtOptions algorithms (ra_issuer authority) (ra_audience authority)
          CLOCK_TOLERANCE_SECONDS date ["ver"; "sub"; "iat"; "nbf"; "exp"; "jti"; "grants"]);
     payload ← lift (normalizeAppSpacePayload claims);
     mret (payload, claims))
    (λ error, if is_capability error then throw error
              else throw (authentication_error "invalid_token" "CAS capability token verification failed")).

(** The grants that match the Space of a route, and the checks of [#verifyToken] on
    them. *)
Definition grants_of (payload : NormalizedAppSpacePayload) (spaceId : string) : list SpaceCapabilityGrant :=
  filter (λ g, spaceSelectorMatches (cg_selector g) spaceId = true) (np_grants payload).
Definition checkGrants (authority : ResolvedAppAuthority) (payload : NormalizedAppSpacePayload)
    (claims : Json) (route : AppSpaceRoute) : result exn unit :=
  _ ← throw_if (exceeds (member "exp" claims) (member "iat" claims)
                  (ra_capabilityMaxLifetimeSeconds authority))
        (authentication_error "invalid_token" "CAS capability lifetime exceeds the App's configured maximum");
  _ ← throw_if (negb (bool_decide (ra_appId authority = route_appId route)))
        (authorization_error "resource_scope_mismatch"
           "CAS capability App does not match the requested resource");
  let matching := grants_of payload (route_spaceId route) in
  _ ← throw_if (bool_decide (matching = []))
        (authorization_error "resource_scope_mismatch"
           "CAS capability Space does not match the requested resource");
  let permission := spaceOperationPolicyFor route in
  throw_if (negb (existsb (λ g, bool_decide (permission ∈ cg_permissions g)) matching))
    (authorization_error "insufficient_permission"
       ("CAS " +:+ operation route +:+ " requires " +:+ permission_name permission)).

(** [#verifyToken(request, route)], of the [Authorization] header; with the issuer. *)
Definition verifyToken (authorization : option string) (route : AppSpaceRoute)
    : Run (VerifiedAppSpaceCall * string) :=
  match authorization with
  | None => throw (authentication_error "missing_token" "CAS capability token is required")
  | Some authorization =>
      _ ← lift (throw_if (strlen authorization =? 0)
                  (authentication_error "missing_token" "CAS capability token is required"));
      match bearer authorization with
      | None => throw (authentication_error "invalid_token" "CAS authorization header is invalid")
      | Some token =>
          '(issuer, kid, algorithm) ← lift (unverified token);
          _ ← lift (throw_if (negb (bool_decide (algorithm ∈ algorithms)))
                      (authorization_error "unsupported_algorithm"
                         ("CAS capability algorithm " +:+ algorithm +:+ " is not allowed")));
          authority ← resolveAuthority issuer;
          match authority with
          | None =>
              throw (authentication_error "unknown_issuer" "CAS capability issuer is not registered")
          | Some authority =>
              _ ← lift (throw_if (negb (ra_active authority))
                          (authorization_error "APP_SUSPENDED" "App is suspended"));
              keySet ← remoteKeySet (ra_jwksUri authority);
              '(payload, claims) ← verifiedPayload token keySet authority;
              _ ← lift (checkGrants authority payload claims route);
              mret (mkCall (ra_appId authority) (route_spaceId route) (np_subject payload)
                      (np_jti payload) kid
                      (set_of (grants_of payload (route_spaceId route) ≫= cg_permissions)),
                    np_issuer payload)
          end
      end
  end.

(** [verify(request, route)]. *)
Definition verify (authorization : option string) (route : AppSpaceRoute) : Run VerifiedAppSpaceCall :=
  '(call, issuer) ← try_catch (verifyToken authorization route)
    (λ error,
       _ ← onEvent (rejected (operation route) (route_appId route) (route_spaceId route)
                      (error_message error));
       throw error);
  _ ← onEvent (authorized (operation route) (vc_appId call) (vc_spaceId call) issuer (vc_kid call)
                 (vc_jti call));
  mret call.

(** * What is admitted *)

(** The registry answered this at or after that instant; the token with these claims
    carries a signature of a key of the set. *)
Variables (registered : string → ResolvedAppAuthority → Z → Prop)
  (signed : KeySet → string → Json → Prop).

(** The invariant of a verifier: its cache holds answers of the registry, its key sets
    are those of their addresses; and time passes. *)
Definition verifier_inv (v : Verifier) : Prop :=
  (∀ issuer c, authorityCache v !! issuer = Some c →
     registered issuer (ca_authority c) (ca_fetchedAt c))
  ∧ ∀ uri k, remoteKeySets v !! uri = Some k → createRemoteJWKSet uri = Ok k.
Definition verifier_I : Invariant Verifier :=
  mkInvariant verifier_inv (λ v v', clock (world v) ≤ clock (world v'))
    (λ v, Z.le_refl _) (λ v1 v2 v3, Z.le_trans _ _ _).
Notation safe := (safe verifier_I).
Notation since t := (λ v, t ≤ clock (world v)).

(** What [jwtVerify] checks of the claims. *)
Definition jwt_accepts (o : JwtOptions) (claims : Json) : Prop :=
  member "iss" claims = Some (JStr (jo_issuer o))
  ∧ (∀ e, member "exp" claims = Some (JInt e) → jo_currentDate o / 1000 - jo_clockTolerance o < e)
  ∧ (∀ n, member "nbf" claims = Some (JInt n) → n ≤ jo_currentDate o / 1000 + jo_clockTolerance o).

Hypothesis ttl_below_bound : 0 ≤ cacheTtlMs < hardStaleBoundMs.
Hypothesis resolveIssuer_safe : ∀ issuer t,
  safe (since t) (resolveIssuer issuer) (λ r _, ∀ a, r = Some a → registered issuer a t).
Hypothesis jwtVerify_safe : ∀ token keySet o,
  safe (λ _, True) (jwtVerify token keySet o) (λ claims _, signed keySet token claims ∧ jwt_accepts o claims).

Lemma asked_since_stable t : stable verifier_I (since t).
Proof. intros v v' Hk Ht. simpl in *. lia. Qed.

Lemma onEvent_safe P e : stable verifier_I P → safe P (onEvent e) (λ _ _, True).
Proof. intros HP. apply safe_modify. intros v Hv Hp. split; [done|]. by split; [simpl|]. Qed.
Lemma cache_set_safe P issuer c :
  (∀ x, c = Some x → registered issuer (ca_authority x) (ca_fetchedAt x)) →
  safe P (cache_set issuer c) (λ _ _, True).
Proof.
  intros Hc. apply safe_modify. intros v [Hv Hk] Hp. split; [|by split; [simpl|]]. split; [|done].
  intros i x. cbn [authorityCache cache_set]. destruct (decide (i = issuer)) as [->|Hi].
  - rewrite lookup_partial_alter_eq. by apply Hc.
  - rewrite lookup_partial_alter_ne by done. by apply Hv.
Qed.
Lemma keySets_set_safe P uri k :
  (∀ x, k = Some x → createRemoteJWKSet uri = Ok x) → safe P (keySets_set uri k) (λ _ _, True).
Proof.
  intros Hc. apply safe_modify. intros v [Hv Hk] Hp. split; [|by split; [simpl|]]. split; [done|].
  intros i x. cbn [remoteKeySets keySets_set]. destruct (decide (i = uri)) as [->|Hi].
  - rewrite lookup_partial_alter_eq. by apply Hc.
  - rewrite lookup_partial_alter_ne by done. by apply Hk.
Qed.

(** An answer of the registry that is recent enough, seen from an instant. *)
Definition recent (issuer : string) (a : ResolvedAppAuthority) (at_ : Z) : Prop :=
  ∃ t, registered issuer a t ∧ at_ - t < hardStaleBoundMs.

Lemma refresh_safe issuer cached at_ unavailable :
  safe (since at_) unavailable (λ a _, recent issuer a at_) →
  safe (since at_) (refresh issuer cached at_ unavailable) (λ a _, recent issuer a at_).
Proof.
  intros Hu. unfold refresh. apply safe_catch; [apply asked_since_stable| |].
  - eapply safe_bind_fact; [apply asked_since_stable|apply resolveIssuer_safe|]. intros [fresh|] Hr; cbn zeta.
    + specialize (Hr fresh eq_refl). apply safe_seq; [apply asked_since_stable|by apply keySets_set_safe|].
      intros []. apply safe_seq; [apply asked_since_stable|by apply cache_set_safe; intros x [= <-]|].
      intros []. apply safe_ret. intros v _. exists at_. split; [done|]. lia.
    + apply safe_seq; [apply asked_since_stable|by apply cache_set_safe|]. intros []. apply safe_throw.
  - intros e. destruct (is_authentication e); [apply safe_throw|done].
Qed.

Lemma resolveAuthority_safe issuer t0 :
  safe (since t0) (resolveAuthority issuer) (λ r _, ∀ a, r = Some a → recent issuer a t0).
Proof.
  assert (∀ t a, t0 ≤ t → recent issuer a t → recent issuer a t0) as Hmono.
  { intros t a Ht (u & Hu & Hl). exists u. split; [done|]. lia. }
  unfold resolveAuthority, now. apply safe_gets_bind. intros at_.
  apply (safe_pre _ (λ v, since at_ v ∧ t0 ≤ at_)); [intros v [H1 <-]; split; [done|exact H1]|].
  apply safe_assume. intros Ht.
  apply (safe_gets_fact _ _ _ (λ c, ∀ x, c = Some x → registered issuer (ca_authority x) (ca_fetchedAt x))).
  { intros v [Hv _] _ x Hx. by apply Hv. }
  intros [cached|] Hc; cbn zeta.
  - specialize (Hc cached eq_refl). destruct (Z.ltb_spec (at_ - ca_fetchedAt cached) cacheTtlMs) as [Hage|Hage].
    { apply safe_ret. intros v _ a [= <-]. apply (Hmono at_); [done|]. exists (ca_fetchedAt cached).
      split; [done|]. lia. }
    assert (∀ u, safe (since at_) u (λ a _, recent issuer a at_) →
      safe (since at_) (a ← refresh issuer cached at_ u; mret (Some a))
        (λ r _, ∀ a, r = Some a → recent issuer a t0)) as Hgo.
    { intros u Hu. eapply safe_bind; [apply asked_since_stable|by apply refresh_safe|].
      intros a. apply safe_ret. intros v [_ Hr] b [= <-]. by apply (Hmono at_). }
    destruct (Z.leb_spec hardStaleBoundMs (at_ - ca_fetchedAt cached)) as [Hh|Hh]; apply Hgo.
    + apply safe_seq; [apply asked_since_stable|by apply cache_set_safe|]. intros [].
      apply safe_seq; [apply asked_since_stable|apply onEvent_safe, asked_since_stable|]. intros []. apply safe_throw.
    + apply safe_seq; [apply asked_since_stable|apply onEvent_safe, asked_since_stable|]. intros [].
      apply safe_ret. intros v _. by exists (ca_fetchedAt cached).
  - apply (safe_bind_fact _ _ _ (λ r, ∀ a, r = Some a → registered issuer a at_)); [apply asked_since_stable| |].
    + apply safe_catch; [apply asked_since_stable|apply resolveIssuer_safe|]. intros e. by apply safe_ret.
    + intros [a|] Hr; [|by apply safe_ret]. specialize (Hr a eq_refl).
      apply safe_seq; [apply asked_since_stable|by apply cache_set_safe; intros x [= <-]|]. intros [].
      apply safe_ret. intros v _ b [= <-]. apply (Hmono at_); [done|]. exists at_. split; [done|]. lia.
Qed.

Lemma remoteKeySet_safe uri :
  safe (λ _, True) (remoteKeySet uri) (λ k _, createRemoteJWKSet uri = Ok k).
Proof.
  unfold remoteKeySet.
  apply (safe_gets_fact _ _ _ (λ c, ∀ k, c = Some k → createRemoteJWKSet uri = Ok k)).
  { intros v [_ Hk] _ k. apply Hk. }
  intros [k|] Hk; [by apply safe_ret; intros; apply Hk|].
  apply safe_lift_bind. intros keySet Hks. apply safe_seq; [by intros ? ? ? ?| |].
  - apply keySets_set_safe. by intros x [= <-].
  - intros []. by apply safe_ret.
Qed.

(** The claims were signed, accepted at some later instant, and read into the
    payload. *)
Definition verified (token : string) (keySet : KeySet) (authority : ResolvedAppAuthority) (t0 : Z)
    (payload : NormalizedAppSpacePayload) (claims : Json) : Prop :=
  signed keySet token claims ∧ safeParse claims = Some payload
  ∧ ∃ date, t0 ≤ date ∧ jwt_accepts (mkJwtOptions algorithms (ra_issuer authority)
      (ra_audience authority) CLOCK_TOLERANCE_SECONDS date
      ["ver"; "sub"; "iat"; "nbf"; "exp"; "jti"; "grants"]) claims.

Lemma verifiedPayload_safe token keySet authority t0 :
  safe (since t0) (verifiedPayload token keySet authority)
    (λ r _, verified token keySet authority t0 (fst r) (snd r)).
Proof.
  unfold verifiedPayload, now. apply safe_catch; [apply asked_since_stable| |].
  - apply (safe_gets_bind verifier_I). intros date.
    apply (safe_pre _ (λ v, True ∧ t0 ≤ date)); [intros v [H1 <-]; split; [done|exact H1]|].
    apply safe_assume. intros Hd. eapply safe_bind_fact; [by intros ? ? ? ?|apply jwtVerify_safe|].
    intros claims [Hs Ha]. apply safe_lift_bind. intros payload Hp. apply safe_ret. intros v _.
    split; [done|]. unfold normalizeAppSpacePayload in Hp.
    destruct (safeParse claims) eqn:Hc; [|done]. injection Hp as <-. split; [done|]. by exists date.
  - intros e. destruct (is_capability e); apply safe_throw.
Qed.

(** A grant of the payload that is for this Space and permits this operation. *)
Definition granted (payload : NormalizedAppSpacePayload) (route : AppSpaceRoute) : Prop :=
  ∃ g, g ∈ np_grants payload ∧ spaceSelectorMatches (cg_selector g) (route_spaceId route) = true
       ∧ spaceOperationPolicyFor route ∈ cg_permissions g.

Lemma checkGrants_inv authority payload claims route :
  checkGrants authority payload claims route = Ok tt →
  exceeds (member "exp" claims) (member "iat" claims) (ra_capabilityMaxLifetimeSeconds authority) = false
  ∧ ra_appId authority = route_appId route ∧ granted payload route.
Proof.
  unfold checkGrants. destruct (exceeds _ _ _); [done|]. cbn [throw_if mbind result_bind].
  destruct (decide (ra_appId authority = route_appId route)) as [Happ|Happ];
    [rewrite (bool_decide_eq_true_2 _ Happ)|by rewrite (bool_decide_eq_false_2 _ Happ)].
  cbn [negb throw_if mbind result_bind]. destruct (bool_decide _); [done|]. cbn [throw_if mbind result_bind].
  destruct (existsb _ _) eqn:He; [|done]. intros _. split_and!; [done..|].
  apply existsb_exists in He as (g & Hg & Hp%bool_decide_eq_true). apply list_elem_of_In in Hg.
  apply list_elem_of_filter in Hg as [Hm Hg]. by exists g.
Qed.

(** What a call that passed [#verifyToken] has behind it. *)
Definition justified (authorization : option string) (route : AppSpaceRoute) (t0 : Z)
    (call : VerifiedAppSpaceCall) : Prop :=
  ∃ header token issuer kid algorithm authority keySet payload claims,
    authorization = Some header ∧ bearer header = Some token
    ∧ unverified token = Ok (issuer, kid, algorithm) ∧ algorithm ∈ algorithms
    ∧ recent issuer authority t0 ∧ ra_active authority = true
    ∧ createRemoteJWKSet (ra_jwksUri authority) = Ok keySet
    ∧ verified token keySet authority t0 payload claims
    ∧ exceeds (member "exp" claims) (member "iat" claims) (ra_capabilityMaxLifetimeSeconds authority) = false
    ∧ ra_appId authority = route_appId route ∧ granted payload route
    ∧ vc_appId call = route_appId route ∧ vc_spaceId call = route_spaceId route
    ∧ vc_subject call = np_subject payload
    ∧ ∀ permission, permission ∈ vc_permissions call ↔
        ∃ g, g ∈ np_grants payload ∧ spaceSelectorMatches (cg_selector g) (route_spaceId route) = true
             ∧ permission ∈ cg_permissions g.

Lemma verifyToken_safe authorization route t0 :
  safe (since t0) (verifyToken authorization route)
    (λ r _, justified authorization route t0 (fst r)).
Proof.
  unfold verifyToken. destruct authorization as [header|]; [|apply safe_throw].
  apply safe_lift_bind. intros _ _. destruct (bearer header) as [token|] eqn:Hb; [|apply safe_throw].
  apply safe_lift_bind. intros [[issuer kid] algorithm] Hu. apply safe_lift_bind.
  intros _ Halg%throw_if_ok%negb_false_iff%bool_decide_eq_true.
  eapply safe_bind_fact; [apply asked_since_stable|apply resolveAuthority_safe|].
  intros [authority|] Hr; [|apply safe_throw]. specialize (Hr _ eq_refl).
  apply safe_lift_bind. intros _ Hactive%throw_if_ok%negb_false_iff.
  eapply safe_bind_fact; [apply asked_since_stable|by eapply safe_pre; [|apply remoteKeySet_safe]|].
  intros keySet Hks. eapply safe_bind_fact; [apply asked_since_stable|apply verifiedPayload_safe|].
  intros [payload claims] Hv. apply safe_lift_bind. intros [] Hc.
  apply checkGrants_inv in Hc as (Hlife & Happ & Hg).
  apply safe_ret. intros v _. exists header, token, issuer, kid, algorithm, authority, keySet, payload, claims.
  split_and!; try done. intros permission. cbn [fst vc_permissions]. rewrite elem_of_set_of, list_elem_of_bind.
  unfold grants_of. setoid_rewrite list_elem_of_filter. naive_solver.
Qed.

(** C17: a call is admitted to a Space only for a reason. If [verify] answers a call,
    the request carried a bearer token whose algorithm is allowed; the issuer the
    token names was registered, by an answer of the registry younger than the hard
    stale bound, as the authority of the App of the route, and the App was active;
    the token is signed by a key of that authority, is within its validity and no
    longer lived than the App allows; and one of its grants is for the Space of the
    route and permits the operation. The permissions reported are exactly those of
    the grants for the Space. Whether it answers or throws, and whatever other
    calls run while it waits, the cache only ever holds answers of the registry. *)
Theorem verify_justified authorization route v res v' :
  verifier_inv v → verify authorization route v = (res, v') →
  verifier_inv v'
  ∧ ∀ call, res = Ok call → justified authorization route (clock (world v)) call.
Proof.
  intros Hv Hr. set (t0 := clock (world v)).
  assert (safe (since t0) (verify authorization route) (λ call _, justified authorization route t0 call)) as Hs.
  { unfold verify. eapply safe_bind_fact; [apply asked_since_stable| |].
    - apply safe_catch; [apply asked_since_stable|apply verifyToken_safe|]. intros e.
      apply safe_seq; [apply asked_since_stable|apply onEvent_safe, asked_since_stable|]. intros []. apply safe_throw.
    - intros [call issuer] Hj. apply safe_seq; [apply asked_since_stable|apply onEvent_safe, asked_since_stable|].
      intros []. by apply safe_ret. }
  specialize (Hs v Hv (Z.le_refl _)). rewrite Hr in Hs. destruct res as [call|e].
  - destruct Hs as (Hv' & _ & Hj). split; [done|]. by intros c [= <-].
  - destruct Hs as (Hv' & _). split; [done|]. done.
Qed.
End verifier.

(** * An example: a registry of one App, and a library that accepts one token *)

Module AuthExample.
Definition claims : Json :=
  JObj [("ver", JInt 2); ("iss", JStr "https://app.example"); ("sub", JStr "user"); ("aud", JStr "unicas");
        ("iat", JInt 1000); ("nbf", JInt 1000); ("exp", JInt 1120); ("jti", JStr "id");
        ("grants", JArr [JObj [("selector", JStr "/team/**");
                               ("permissions", JArr [JStr "cas:nodes:read"; JStr "cas:nodes:lease"])]])].
Definition authority : ResolvedAppAuthority :=
  mkAuthority "app" true "https://app.example" "unicas" "https://app.example/jwks" 3600.
Definition clock (w : Z) : Z := w.
Definition decodeJwt (token : string) : option Json := Some claims.
Definition decodeHeader (token : string) : option Json :=
  Some (JObj [("alg", JStr "ES256"); ("kid", JStr "key")]).
Definition keySetOf (uri : string) : result exn unit := Ok tt.
Definition resolve (issuer : string) : M exn (Verifier (KeySet := unit) (W := Z)) (option ResolvedAppAuthority) :=
  mret (if bool_decide (issuer = "https://app.example") then Some authority else None).
Definition jwtVerify (token : string) (k : unit) (o : JwtOptions) : M exn (Verifier (KeySet := unit) (W := Z)) Json :=
  if bool_decide (token = "token") && bool_decide (jo_issuer o = "https://app.example")
     && (jo_currentDate o / 1000 - jo_clockTolerance o <? 1120)
     && (1000 <=? jo_currentDate o / 1000 + jo_clockTolerance o)
  then mret claims else throw (Error "JWTInvalid").
Definition start : Verifier (KeySet := unit) (W := Z) := mkVerifier ∅ ∅ [] 1010000.
Definition route : AppSpaceRoute := leaseRoute "app" "/team/drive" [].

Definition registered (issuer : string) (a : ResolvedAppAuthority) (t : Z) : Prop :=
  issuer = "https://app.example" ∧ a = authority.
Definition signed (k : unit) (token : string) (c : Json) : Prop := c = claims.

Definition call : VerifiedAppSpaceCall :=
  mkCall "app" "/team/drive" "user" "id" "key" [nodes_read; nodes_lease].
Definition run (authorization : option string) : result exn VerifiedAppSpaceCall * _ :=
  verify clock [CapabilityAlgorithm] DEFAULT_CACHE_TTL_MS DEFAULT_HARD_STALE_BOUND_MS decodeJwt decodeHeader
    keySetOf jwtVerify resolve (λ _ _ _, false) authorization route start.

Lemma runs : ∃ v', run (Some "Bearer token") = (Ok call, v').
Proof. eexists. vm_compute. reflexivity. Qed.
Lemma refuses : fst (run (Some "Bearer other"))
  = Throw (authentication_error "invalid_token" "CAS capability token verification failed").
Proof. vm_compute. reflexivity. Qed.
End AuthExample.

Lemma verify_justified_witness :
  justified [CapabilityAlgorithm] DEFAULT_HARD_STALE_BOUND_MS AuthExample.decodeJwt AuthExample.decodeHeader
    AuthExample.keySetOf (λ _ _ _, false) AuthExample.registered AuthExample.signed (Some "Bearer token")
    AuthExample.route 1010000 AuthExample.call.
Proof.
  destruct AuthExample.runs as (v' & Hrun).
  refine (proj2 (verify_justified AuthExample.clock [CapabilityAlgorithm] DEFAULT_CACHE_TTL_MS
    DEFAULT_HARD_STALE_BOUND_MS AuthExample.decodeJwt AuthExample.decodeHeader AuthExample.keySetOf
    AuthExample.jwtVerify AuthExample.resolve (λ _ _ _, false) AuthExample.registered AuthExample.signed
    _ _ _ (Some "Bearer token") AuthExample.route AuthExample.start _ v' _ Hrun) AuthExample.call eq_refl).
  - unfold DEFAULT_CACHE_TTL_MS, DEFAULT_HARD_STALE_BOUND_MS. lia.
  - intros issuer t. apply safe_ret. intros v _ a. case_bool_decide; [|discriminate]. by intros [= <-].
  - intros token k o. unfold AuthExample.jwtVerify. destruct (_ && _) eqn:Hc; [|apply safe_throw].
    apply safe_ret. intros v _. split; [done|].
    rewrite !andb_true_iff, bool_decide_eq_true, bool_decide_eq_true, Z.ltb_lt, Z.leb_le in Hc.
    destruct Hc as [[[_ Hi] He] Hn]. split; [by rewrite Hi|]. split; by intros ? [= <-].
  - split; intros i c Hc; cbn in Hc; by rewrite lookup_empty in Hc.
Defined.
