(* ===== verification/CapabilityManager.v ===== *)
(** The credentials of the client of [packages/space-client]: [capability.ts], which
    keeps the capabilities an application provides and asks for new ones, and
    [transport.ts], which sends requests under them. Any number of requests are under
    way at a time; what one does between two of its waits is one step. *)
From Stdlib Require Import Ascii.
From S2P Require Import Prelude Js JsString JsonText Errors SpaceId SpaceRoutes AppSpaceAuth.

Definition MaximumCapabilityClockSkewSeconds : Z := 30.

Inductive CredentialClass := content_class | root_refs_class | management_class.
#[global] Instance CredentialClass_eq : EqDecision CredentialClass. Proof. solve_decision. Defined.
#[global] Instance CredentialClass_countable : Countable CredentialClass.
Proof.
  apply (inj_countable' (λ c, match c with content_class => 0 | root_refs_class => 1 | management_class => 2 end%nat)
           (λ n, match n with 0 => content_class | 1 => root_refs_class | _ => management_class end%nat)).
  by intros [].
Defined.
Definition CredentialClasses : list CredentialClass := [content_class; root_refs_class; management_class].

(** [credentialClassFor(permission)]. *)
Definition credentialClassFor (permission : SpaceCapabilityPermissionKind) : CredentialClass :=
  match permission with
  | nodes_read | nodes_lease => content_class
  | root_refs_read | root_refs_update => root_refs_class
  | usage_read | gc_execute => management_class
  end.

Record CapabilityRequirement := mkRequirement {
  rq_appId : string;
  rq_spaceId : string;
  rq_permission : SpaceCapabilityPermissionKind
}.
Definition rq_class (q : CapabilityRequirement) : CredentialClass := credentialClassFor (rq_permission q).
Inductive SpaceCapabilityAcquireReason := missing | expiring | requirement_miss | server_rejected.

Record SpaceCapabilityMetadata := mkCapabilityMetadata {
  cm_notBefore : option Z;
  cm_expiresAt : Z;
  cm_grants : list SpaceCapabilityGrant
}.
(** A capability record; records are compared as objects, by [cr_id]. *)
Record CapabilityRecord := mkRecord {
  cr_id : nat;
  cr_bearerToken : string;
  cr_metadata : SpaceCapabilityMetadata
}.

(** * What a provider gives *)

Definition invalidMetadata (message : string) : exn :=
  ECasCapability (mkCasCapabilityError "INVALID_CAPABILITY_METADATA" message).
Definition unsatisfied (q : CapabilityRequirement) : exn :=
  ECasCapability (mkCasCapabilityError "UNSATISFIED_CAPABILITY_REQUIREMENT"
    ("CAS capability does not satisfy " +:+ permission_name (rq_permission q) +:+ " for the requested Space")).

(** [capabilityMatches(record, requirement)], of the record's metadata. *)
Definition capabilityMatches (m : SpaceCapabilityMetadata) (q : CapabilityRequirement) : bool :=
  existsb (λ g, spaceSelectorMatches (cg_selector g) (rq_spaceId q)
                && bool_decide (rq_permission q ∈ cg_permissions g)) (cm_grants m).

Definition validUnixSeconds (j : option Json) : option Z :=
  match j with
  | Some (JInt n) => if isSafeInteger n && (0 <=? n) then Some n else None
  | _ => None
  end.
Definition is_object (j : option Json) : bool :=
  match j with Some (JObj _ | JArr _) => true | _ => false end.

Definition normalize_grant (grant : Json) : result exn SpaceCapabilityGrant :=
  _ ← throw_if (negb (is_object (Some grant))) (invalidMetadata "Capability grant metadata must be an object");
  match member "selector" grant with
  | Some (JStr s) =>
      match parseSpaceSelector s with
      | None => Throw (invalidMetadata "Capability grant metadata has an invalid selector")
      | Some parsed =>
          match member "permissions" grant with
          | Some (JArr (p :: l)) =>
              match all_some (permission_claim <$> p :: l) with
              | Some permissions => Ok (mkGrant (ps_selector parsed) (set_of permissions))
              | None => Throw (invalidMetadata "Capability grant metadata has an invalid permission")
              end
          | _ => Throw (invalidMetadata "Capability grant metadata permissions must not be empty")
          end
      end
  | _ => Throw (invalidMetadata "Capability grant metadata has an invalid selector")
  end.

(** [normalizeCapability(provided, requirement, nowMs)]: the token and the metadata of
    the record. *)
Definition normalizeCapability (provided : Json) (q : CapabilityRequirement) (nowMs : Z)
    : result exn (string * SpaceCapabilityMetadata) :=
  _ ← throw_if (negb (is_object (Some provided))) (invalidMetadata "Capability provider result must be an object");
  token ← match member "bearerToken" provided with
          | Some (JStr s) =>
              if strlen s =? 0 then Throw (invalidMetadata "Capability bearerToken must not be empty") else Ok s
          | _ => Throw (invalidMetadata "Capability bearerToken must not be empty")
          end;
  let metadata := default JNull (member "metadata" provided) in
  _ ← throw_if (negb (is_object (Some metadata))) (invalidMetadata "Capability metadata must be an object");
  _ ← throw_if (negb (match member "version" metadata with
                      | Some (JInt n) => n =? SpaceCapabilityVersion
                      | _ => false
                      end)) (invalidMetadata "Capability metadata version must be 2");
  expiresAt ← match validUnixSeconds (member "expiresAt" metadata) with
              | Some n => Ok n
              | None => Throw (invalidMetadata "Capability metadata expiresAt must be non-negative Unix seconds")
              end;
  notBefore ← match member "notBefore" metadata with
              | None => Ok None
              | Some j =>
                  match validUnixSeconds (Some j) with
                  | Some n => Ok (Some n)
                  | None => Throw (invalidMetadata "Capability metadata notBefore must be non-negative Unix seconds")
                  end
              end;
  _ ← throw_if (match notBefore with Some n => expiresAt <? n | None => false end)
        (invalidMetadata "Capability metadata time window is invalid");
  let nowSeconds := nowMs / 1000 in
  _ ← throw_if (match notBefore with
                | Some n => nowSeconds + MaximumCapabilityClockSkewSeconds <? n
                | None => false
                end) (invalidMetadata "Capability metadata is not active yet");
  _ ← throw_if (expiresAt <=? nowSeconds + MaximumCapabilityClockSkewSeconds)
        (invalidMetadata "Capability metadata is expired or too close to expiry");
  grants ← match member "grants" metadata with
           | Some (JArr (g :: l)) =>
               if MaximumSpaceCapabilityGrants <? Z.of_nat (length (g :: l))
               then Throw (invalidMetadata "Capability metadata grants must contain 1-32 entries")
               else map_result normalize_grant (g :: l)
           | _ => Throw (invalidMetadata "Capability metadata grants must contain 1-32 entries")
           end;
  let normalized := mkCapabilityMetadata notBefore expiresAt grants in
  _ ← throw_if (negb (capabilityMatches normalized q)) (unsatisfied q);
  Ok (token, normalized).

(** [replacementReason(record, requirement, nowMs)]. *)
Definition replacementReason (r : CapabilityRecord) (q : CapabilityRequirement) (nowMs : Z)
    : option SpaceCapabilityAcquireReason :=
  if cm_expiresAt (cr_metadata r) <=? nowMs / 1000 + MaximumCapabilityClockSkewSeconds then Some expiring
  else if capabilityMatches (cr_metadata r) q then None else Some requirement_miss.

(** * The manager

    [current] holds the capabilities of each class, [acquisitions] the promises of those
    being acquired. A promise has settled once its entry is deleted; what it settled
    with is kept for those that wait for it, and what it was asked for. *)

Record Acquisition := mkAcquisition {
  aq_id : nat;
  aq_requirement : CapabilityRequirement;
  aq_reason : SpaceCapabilityAcquireReason;
  aq_superseded : option CapabilityRecord;
  aq_outcome : option (result exn CapabilityRecord)
}.

(** A response, with what [json()] gives ([None] when it rejects) and the body. *)
Record HttpResponse := mkHttpResponse {
  hp_status : Z;
  hp_statusText : string;
  hp_header : string → option string;
  hp_json : option Json;
  hp_body : option (list bytes)
}.
Definition hp_ok (r : HttpResponse) : bool := (200 <=? hp_status r) && (hp_status r <=? 299).

(** A call of [request]: what it needs, the name of its operation, and whether a token
    that is refused is replaced. *)
Record Call := mkClientCall {
  cl_requirement : CapabilityRequirement;
  cl_operation : string;
  cl_retryInvalidToken : bool
}.

(** Where a call is: it resolves its requirement, waits for an acquisition - for its
    record, or ([again]) to resolve its requirement afterwards -, for the response to a
    request, or it is done. *)
Inductive Phase :=
| Resolving
| Awaiting (acquisition : nat) (again forced : bool)
| Sending (record : CapabilityRecord)
| Finished (answer : result exn HttpResponse).

(** [tk_second]: the token was refused once. *)
Record Task := mkTask { tk_call : Call; tk_second : bool; tk_phase : Phase }.

(** The state of a client, with the requests it has sent, the last first. *)
Record Client := mkClient {
  ct_now : Z;
  ct_next : nat;
  ct_current : gmap CredentialClass CapabilityRecord;
  ct_acquisitions : gmap CredentialClass Acquisition;
  ct_settled : gmap nat (CapabilityRequirement * result exn CapabilityRecord);
  ct_tasks : gmap nat Task;
  ct_sent : list (nat * CapabilityRecord)
}.
Definition Client_empty (now : Z) : Client := mkClient now 0 ∅ ∅ ∅ ∅ [].

Definition set_current t m := mkClient (ct_now m) (ct_next m) t (ct_acquisitions m) (ct_settled m) (ct_tasks m) (ct_sent m).
Definition set_acquisitions t m := mkClient (ct_now m) (ct_next m) (ct_current m) t (ct_settled m) (ct_tasks m) (ct_sent m).
Definition set_settled t m := mkClient (ct_now m) (ct_next m) (ct_current m) (ct_acquisitions m) t (ct_tasks m) (ct_sent m).
Definition set_tasks t m := mkClient (ct_now m) (ct_next m) (ct_current m) (ct_acquisitions m) (ct_settled m) t (ct_sent m).
Definition set_now n m := mkClient n (ct_next m) (ct_current m) (ct_acquisitions m) (ct_settled m) (ct_tasks m) (ct_sent m).
Definition add_sent t r m := mkClient (ct_now m) (ct_next m) (ct_current m) (ct_acquisitions m) (ct_settled m) (ct_tasks m) ((t, r) :: ct_sent m).
Definition use_id m := mkClient (ct_now m) (S (ct_next m)) (ct_current m) (ct_acquisitions m) (ct_settled m) (ct_tasks m) (ct_sent m).

(** [invalidate(record)]. *)
Definition invalidate (r : CapabilityRecord) (m : Client) : Client :=
  set_current (filter (λ e : CredentialClass * CapabilityRecord, cr_id (snd e) ≠ cr_id r) (ct_current m)) m.

(** What a resolution comes to: a record, or the wait for an acquisition. *)
Inductive Resolution := Resolved (r : CapabilityRecord) | Joined (acquisition : nat) (again : bool).

(** [acquire(requirement, reason, superseded)]. *)
Definition acquire (q : CapabilityRequirement) (reason : SpaceCapabilityAcquireReason)
    (superseded : option CapabilityRecord) (m : Client) : Client * Resolution :=
  match ct_acquisitions m !! rq_class q with
  | Some active => (m, Joined (aq_id active) false)
  | None =>
      (use_id (set_acquisitions
         (<[rq_class q := mkAcquisition (ct_next m) q reason superseded None]> (ct_acquisitions m)) m),
       Joined (ct_next m) false)
  end.

(** [resolve(requirement, forcedReason)], up to its first wait. *)
Definition candidate (q : CapabilityRequirement) (m : Client) : option CapabilityRecord :=
  head (filter (λ r, replacementReason r q (ct_now m) = None)
          (omap (λ c, ct_current m !! c) CredentialClasses)).
Definition resolve (q : CapabilityRequirement) (forced : bool) (m : Client) : Client * Resolution :=
  let preferred := ct_current m !! rq_class q in
  match (if forced then None else preferred) with
  | Some r =>
      match replacementReason r q (ct_now m) with
      | None => (m, Resolved r)
      | Some reason => acquire q reason (Some r) m
      end
  | None =>
      match (if forced then None else candidate q m) with
      | Some r => (set_current (<[rq_class q := r]> (ct_current m)) m, Resolved r)
      | None =>
          match ct_acquisitions m !! rq_class q with
          | Some active => (m, Joined (aq_id active) true)
          | None => acquire q (if forced then server_rejected else missing) preferred m
          end
      end
  end.

(** * Requests *)

(** [readError(response)]: the code and the detail. *)
Definition readError (r : HttpResponse) : option string * option string :=
  match hp_json r with
  | Some (JObj _ as body) =>
      let code := match member "error" body with Some (JStr s) => Some s | _ => None end in
      (code, match member "message" body with Some (JStr s) => Some s | _ => code end)
  | _ => (None, None)
  end.
Definition client_error (call : Call) (r : HttpResponse) : exn :=
  let '(code, detail) := readError r in
  new_CasClientError (hp_status r) (hp_statusText r) (cl_operation call) detail code.
Definition invalid_token (r : HttpResponse) : bool :=
  (hp_status r =? 401) && bool_decide (fst (readError r) = Some "invalid_token").
Definition out_of_scope (r : HttpResponse) : bool :=
  (hp_status r =? 403)
  && bool_decide (fst (readError r) ∈ [Some "insufficient_permission"; Some "resource_scope_mismatch"]).

Definition set_phase (t : nat) (k : Task) (p : Phase) (m : Client) : Client :=
  set_tasks (<[t := mkTask (tk_call k) (tk_second k) p]> (ct_tasks m)) m.
(** [fetchWith(record, route, init)]. *)
Definition send (t : nat) (k : Task) (r : CapabilityRecord) (m : Client) : Client :=
  add_sent t r (set_phase t k (Sending r) m).
(** A call resolves its requirement, and goes on until it waits. *)
Definition continue (t : nat) (k : Task) (forced : bool) (m : Client) : Client :=
  let '(m, resolution) := resolve (cl_requirement (tk_call k)) forced (set_phase t k Resolving m) in
  match resolution with
  | Resolved r => send t k r m
  | Joined acquisition again => set_phase t k (Awaiting acquisition again forced) m
  end.

(** The answer to a request: [request], after the [await] of [fetchWith]. *)
Definition respond (t : nat) (k : Task) (r : CapabilityRecord) (answer : result exn HttpResponse)
    (m : Client) : Client :=
  match answer with
  | Throw e => set_phase t k (Finished (Throw e)) m
  | Ok response =>
      if hp_ok response then set_phase t k (Finished (Ok response)) m
      else
        let failed := set_phase t k (Finished (Throw (client_error (tk_call k) response))) in
        if tk_second k then failed m
        else if invalid_token response then
          if cl_retryInvalidToken (tk_call k)
          then continue t (mkTask (tk_call k) true Resolving) true (invalidate r m)
          else failed (invalidate r m)
        else if out_of_scope response then failed (invalidate r m)
        else failed m
  end.

(** * Steps *)

(** What happens to a client: a call begins; the provider answers the acquisition of a
    class, or fails; the acquisition of a class has settled; a call that waited for one
    goes on; a request is answered, or fails; time passes. *)
Inductive Event :=
| Begins (t : nat) (call : Call)
| Provides (c : CredentialClass) (provided : result exn Json)
| Settles (c : CredentialClass)
| Wakes (t : nat)
| Responds (t : nat) (answer : result exn HttpResponse)
| Passes (now : Z).

(** The [catch] of an acquisition. *)
Definition provider_failure (e : exn) : exn :=
  match e with
  | ECasCapability _ => e
  | _ => ECasCapability (mkCasCapabilityError "PROVIDER_FAILED" "CAS capability provider failed")
  end.
Definition provide (c : CredentialClass) (a : Acquisition) (provided : result exn Json) (m : Client) : Client :=
  let settle outcome m :=
    set_acquisitions
      (<[c := mkAcquisition (aq_id a) (aq_requirement a) (aq_reason a) (aq_superseded a) (Some outcome)]>
         (ct_acquisitions m)) m in
  match (match provided with
         | Ok j => normalizeCapability j (aq_requirement a) (ct_now m)
         | Throw e => Throw (provider_failure e)
         end) with
  | Throw e => settle (Throw e) m
  | Ok (token, metadata) =>
      let r := mkRecord (ct_next m) token metadata in
      let m := match aq_superseded a with Some old => invalidate old (use_id m) | None => use_id m end in
      settle (Ok r) (set_current (<[c := r]> (ct_current m)) m)
  end.

Definition step (e : Event) (m : Client) : option Client :=
  match e with
  | Begins t call =>
      match ct_tasks m !! t with
      | Some _ => None
      | None => Some (continue t (mkTask call false Resolving) false m)
      end
  | Provides c provided =>
      a ← ct_acquisitions m !! c;
      match aq_outcome a with Some _ => None | None => Some (provide c a provided m) end
  | Settles c =>
      a ← ct_acquisitions m !! c;
      outcome ← aq_outcome a;
      Some (set_settled (<[aq_id a := (aq_requirement a, outcome)]> (ct_settled m))
              (set_acquisitions (delete c (ct_acquisitions m)) m))
  | Wakes t =>
      k ← ct_tasks m !! t;
      match tk_phase k with
      | Awaiting acquisition again forced =>
          settled ← ct_settled m !! acquisition;
          Some (match snd settled with
                | Throw e => set_phase t k (Finished (Throw e)) m
                | Ok r => if again then continue t k forced m else send t k r m
                end)
      | _ => None
      end
  | Responds t answer =>
      k ← ct_tasks m !! t;
      match tk_phase k with Sending r => Some (respond t k r answer m) | _ => None end
  | Passes now => Some (set_now now m)
  end.

Inductive reachable : Client → Prop :=
| reachable_empty now : reachable (Client_empty now)
| reachable_step e m m' : reachable m → step e m = Some m' → reachable m'.

(** * Tokens are used for what they were given for *)

(** The requests of a call. *)
Definition sends (m : Client) (t : nat) : list CapabilityRecord :=
  snd <$> filter (λ e : nat * CapabilityRecord, fst e = t) (ct_sent m).
Definition needs (k : Task) : CapabilityRequirement := cl_requirement (tk_call k).

(** The record was made for this, which some call needs. *)
Definition given (m : Client) (q : CapabilityRequirement) (r : CapabilityRecord) : Prop :=
  (cr_id r < ct_next m)%nat ∧ ∃ t k, ct_tasks m !! t = Some k ∧ needs k = q.
Definition known (m : Client) (r : CapabilityRecord) : Prop := ∃ q, given m q r.

(** Calls stay what they are. *)
Record grows (m m' : Client) : Prop := {
  gr_next : (ct_next m ≤ ct_next m')%nat;
  gr_tasks t k : ct_tasks m !! t = Some k → ∃ k', ct_tasks m' !! t = Some k' ∧ tk_call k' = tk_call k
}.
#[export] Instance grows_pre : PreOrder grows.
Proof.
  split; [intros m; split; [lia|eauto]|]. intros m1 m2 m3 [H1 H2] [H3 H4]. split; [lia|].
  intros t k (k' & Hk & E)%H2. apply H4 in Hk as (k'' & ? & ?). exists k''. by split; [|congruence].
Qed.
Lemma given_grows m m' q r : grows m m' → given m q r → given m' q r.
Proof.
  intros [Hn Ht] (Hid & t & k & Hk & Hq). split; [lia|].
  apply Ht in Hk as (k' & Hk' & E). exists t, k'. unfold needs in *. by rewrite E.
Qed.
Lemma known_grows m m' r : grows m m' → known m r → known m' r.
Proof. intros Hg [q Hq]. exists q. by eapply given_grows. Qed.
Lemma known_id m r : known m r → (cr_id r < ct_next m)%nat.
Proof. by intros [q [? _]]. Qed.

(** ** The invariant *)

Record acquisition_ok (m : Client) (c : CredentialClass) (a : Acquisition) : Prop := {
  ao_class : rq_class (aq_requirement a) = c;
  ao_id : (aq_id a < ct_next m)%nat;
  ao_task : ∃ t k, ct_tasks m !! t = Some k ∧ needs k = aq_requirement a;
  ao_open : ct_settled m !! aq_id a = None;
  ao_outcome r : aq_outcome a = Some (Ok r) → given m (aq_requirement a) r ∧ (aq_id a < cr_id r)%nat
}.

(** A call waits for an acquisition of its class, or one that has settled; one that
    replaces a refused token began after that token was there. *)
Record awaits (m : Client) (t : nat) (k : Task) (i : nat) (again forced : bool) : Prop := {
  aw_forced : forced = tk_second k;
  aw_of : (∃ a, ct_acquisitions m !! rq_class (needs k) = Some a ∧ aq_id a = i)
          ∨ ∃ q outcome, ct_settled m !! i = Some (q, outcome) ∧ rq_class q = rq_class (needs k);
  aw_new : again = false → Forall (λ r, (cr_id r < i)%nat) (sends m t)
}.

Definition attempts (k : Task) : nat := if tk_second k then 1 else 0.
Definition phase_ok (m : Client) (t : nat) (k : Task) : Prop :=
  match tk_phase k with
  | Resolving => length (sends m t) = attempts k
  | Awaiting i again forced => awaits m t k i again forced ∧ length (sends m t) = attempts k
  | Sending r => ∃ l, sends m t = r :: l ∧ length l = attempts k
  | Finished _ => (length (sends m t) ≤ 1 + attempts k)%nat
  end.
Record task_ok (m : Client) (t : nat) (k : Task) : Prop := {
  to_second : tk_second k = true → cl_retryInvalidToken (tk_call k) = true;
  to_known : Forall (known m) (sends m t);
  to_distinct : NoDup (cr_id <$> sends m t);
  to_phase : phase_ok m t k
}.

(** What an acquisition settled with was given for what it was made for. *)
Definition settled_ok (m : Client) (i : nat) (q : CapabilityRequirement) (o : result exn CapabilityRecord) : Prop :=
  (i < ct_next m)%nat ∧ ∀ r, o = Ok r → given m q r ∧ (i < cr_id r)%nat.
Lemma settled_grows m m' i q o : grows m m' → settled_ok m i q o → settled_ok m' i q o.
Proof.
  intros Hg [Hi Hr]. split; [pose proof (gr_next _ _ Hg); lia|]. intros r Hok. destruct (Hr r Hok).
  split; [by eapply given_grows|done].
Qed.

Record client_ok (m : Client) : Prop := {
  co_current c r : ct_current m !! c = Some r → known m r;
  co_acquisitions c a : ct_acquisitions m !! c = Some a → acquisition_ok m c a;
  co_distinct c c' a a' : ct_acquisitions m !! c = Some a → ct_acquisitions m !! c' = Some a' →
    aq_id a = aq_id a' → c = c';
  co_settled i q o : ct_settled m !! i = Some (q, o) → settled_ok m i q o;
  co_tasks t k : ct_tasks m !! t = Some k → task_ok m t k;
  co_sent t : ct_tasks m !! t = None → sends m t = []
}.

(** A change elsewhere leaves a call as it was. *)
Lemma task_ok_grows m m' t k : grows m m' → sends m' t = sends m t →
  (∀ i o, ct_settled m !! i = Some o → ct_settled m' !! i = Some o) →
  (∀ i a, ct_acquisitions m !! rq_class (needs k) = Some a → aq_id a = i →
     (∃ a', ct_acquisitions m' !! rq_class (needs k) = Some a' ∧ aq_id a' = i)
     ∨ ∃ q outcome, ct_settled m' !! i = Some (q, outcome) ∧ rq_class q = rq_class (needs k)) →
  task_ok m t k → task_ok m' t k.
Proof.
  intros Hg Hs Hset Hacq [H1 H2 H3 H4]. split; rewrite ?Hs; [done| |done|].
  - eapply Forall_impl; [exact H2|]. intros r. by apply known_grows.
  - unfold phase_ok in *. rewrite Hs. destruct (tk_phase k); [done| |done..].
    destruct H4 as [[A1 A2 A3] Hl]. split; [|done]. split; rewrite ?Hs; [done| |done].
    destruct A2 as [(a & Ha & Hi)|(q & o & Ho & Hr)]; [by eapply Hacq|right].
    exists q, o. split; [by apply Hset|done].
Qed.

Lemma sends_set_phase m t k p t' : sends (set_phase t k p m) t' = sends m t'.
Proof. done. Qed.
Lemma set_phase_grows m t k p :
  (∀ k0, ct_tasks m !! t = Some k0 → tk_call k0 = tk_call k) → grows m (set_phase t k p m).
Proof.
  intros Hc. split; [done|]. intros t' k'. cbn. destruct (decide (t' = t)) as [->|Hne].
  - rewrite lookup_insert_eq. intros Hk. eexists. split; [done|]. symmetry. by apply Hc.
  - rewrite lookup_insert_ne by done. eauto.
Qed.

Lemma acquisition_ok_grows m m' c a : grows m m' → ct_settled m' !! aq_id a = None →
  acquisition_ok m c a → acquisition_ok m' c a.
Proof.
  intros Hg Hs [H1 H2 (t & k & Hk & E) H4 H5]. split; [done| | |done|].
  - pose proof (gr_next _ _ Hg). lia.
  - apply (gr_tasks _ _ Hg) in Hk as (k' & Hk' & E'). exists t, k'. split; [done|]. unfold needs in *. by rewrite E'.
  - intros r Hr. destruct (H5 r Hr). split; [by eapply given_grows|done].
Qed.

(** Placing a call in a phase keeps the invariant when the call is in order there. *)
Lemma place_ok m t k p : client_ok m →
  (∀ k0, ct_tasks m !! t = Some k0 → tk_call k0 = tk_call k) →
  task_ok (set_phase t k p m) t (mkTask (tk_call k) (tk_second k) p) → client_ok (set_phase t k p m).
Proof.
  intros [H1 H2 Hd H3 H4 H5] Hc Ht. pose proof (set_phase_grows m t k p Hc) as Hg. split.
  - intros c r Hr. eapply known_grows; [exact Hg|by eapply H1].
  - intros c a Ha. eapply acquisition_ok_grows; [exact Hg|by apply (ao_open _ _ _ (H2 _ _ Ha))|by apply H2].
  - exact Hd.
  - intros i q o Hi. eapply settled_grows; [exact Hg|by apply H3].
  - intros t' k'. cbn. destruct (decide (t' = t)) as [->|Hne].
    + rewrite lookup_insert_eq. by intros [= <-].
    + rewrite lookup_insert_ne by done. intros Hk'. eapply task_ok_grows; [exact Hg|done|done| |by apply H4].
      intros i a Ha Hi. left. by exists a.
  - intros t'. cbn. rewrite lookup_insert_None. intros [? _]. by apply H5.
Qed.

(** What a resolution leaves. *)
Definition resolved_to (m m' : Client) (q : CapabilityRequirement) (forced : bool) (x : Resolution) : Prop :=
  match x with
  | Resolved r => forced = false ∧ known m' r ∧ capabilityMatches (cr_metadata r) q = true
  | Joined i again =>
      (∃ a, ct_acquisitions m' !! rq_class q = Some a ∧ aq_id a = i)
      ∧ (again = false → forced = true → i = ct_next m)
  end.
Lemma replacement_none r q n : replacementReason r q n = None → capabilityMatches (cr_metadata r) q = true.
Proof. unfold replacementReason. case_match; [done|]. by destruct (capabilityMatches _ _). Qed.

Record resolves (m m' : Client) : Prop := {
  rv_ok : client_ok m';
  rv_grows : grows m m';
  rv_tasks : ct_tasks m' = ct_tasks m;
  rv_sent : ct_sent m' = ct_sent m
}.

Lemma acquire_ok m q reason old t k : client_ok m → ct_tasks m !! t = Some k → needs k = q →
  let '(m', x) := acquire q reason old m in
  resolves m m' ∧ ∃ i, x = Joined i false ∧ (∃ a, ct_acquisitions m' !! rq_class q = Some a ∧ aq_id a = i)
    ∧ (ct_acquisitions m !! rq_class q = None → i = ct_next m).
Proof.
  intros Hok Hk Hq. unfold acquire. destruct (ct_acquisitions m !! rq_class q) as [a|] eqn:Ha.
  - split; [by split|]. exists (aq_id a). split; [done|]. split; [by exists a|done].
  - assert (grows m (use_id (set_acquisitions (<[rq_class q:=mkAcquisition (ct_next m) q reason old None]>
       (ct_acquisitions m)) m))) as Hg by (split; [cbn; lia|eauto]).
    destruct Hok as [H1 H2 Hd H3 H4 H5]. split; [split; [|done..]; split|].
    + intros c r Hr. eapply known_grows; [exact Hg|by eapply H1].
    + intros c a. cbn. destruct (decide (c = rq_class q)) as [->|Hne].
      * rewrite lookup_insert_eq. intros [= <-]. split; cbn; [done|lia|by exists t, k| |done].
        destruct (ct_settled m !! ct_next m) as [[q' o]|] eqn:E; [|done]. apply H3 in E as [? _]. lia.
      * rewrite lookup_insert_ne by done. intros Hc. eapply acquisition_ok_grows; [exact Hg| |by apply H2].
        by apply (ao_open _ _ _ (H2 _ _ Hc)).
    + intros c c' a a'. cbn. rewrite !lookup_insert_Some.
      intros [[<- <-]|[Hne Hc]] [[<- <-]|[Hne' Hc']] E; cbn in E; [done| | |by eapply Hd].
      * pose proof (ao_id _ _ _ (H2 _ _ Hc')). lia.
      * pose proof (ao_id _ _ _ (H2 _ _ Hc)). lia.
    + intros i q' o Hi. eapply settled_grows; [exact Hg|by apply H3].
    + intros t' k' Hk'. eapply task_ok_grows; [exact Hg|done|done| |by apply H4].
      intros i a' Ha' Hi. cbn. destruct (decide (rq_class (needs k') = rq_class q)) as [E|Hne].
      * rewrite E in Ha'. by rewrite Ha in Ha'.
      * rewrite lookup_insert_ne by done. left. by exists a'.
    + exact H5.
    + exists (ct_next m). split; [done|]. cbn. rewrite lookup_insert_eq. split; [by eexists|done].
Qed.

Lemma resolve_ok m q forced t k : client_ok m → ct_tasks m !! t = Some k → needs k = q →
  let '(m', x) := resolve q forced m in resolves m m' ∧ resolved_to m m' q forced x.
Proof.
  intros Hok Hk Hq.
  assert (∀ reason old, ct_acquisitions m !! rq_class q = None ∨ forced = false →
    let '(m', x) := acquire q reason old m in resolves m m' ∧ resolved_to m m' q forced x) as Hacq.
  { intros reason old Hor. pose proof (acquire_ok m q reason old t k Hok Hk Hq) as Ha.
    destruct (acquire q reason old m) as [m' x]. destruct Ha as (Hr & i & -> & Ha & Hi).
    split; [done|]. split; [done|]. intros _ Hf. destruct Hor as [Hn|Hn]; [by apply Hi|congruence]. }
  unfold resolve. destruct (if forced then None else ct_current m !! rq_class q) as [r|] eqn:Hpref.
  - destruct forced; [done|]. destruct (replacementReason r q (ct_now m)) eqn:Hrep; [by apply Hacq; right|].
    split; [by split|]. split_and!; [done|by eapply co_current|by eapply replacement_none].
  - destruct (if forced then None else candidate q m) as [r|] eqn:Hcand.
    + destruct forced; [done|]. unfold candidate in Hcand. apply head_Some_elem_of in Hcand.
      apply list_elem_of_filter in Hcand as [Hrep Hin]. apply list_elem_of_omap in Hin as (c & _ & Hc).
      pose proof (co_current _ Hok _ _ Hc) as Hkn.
      assert (grows m (set_current (<[rq_class q:=r]> (ct_current m)) m)) as Hg by (split; [done|eauto]).
      split; [|split_and!; [done|by eapply known_grows|by eapply replacement_none]].
      split; [|done..]. destruct Hok as [H1 H2 Hd H3 H4 H5]. split.
      * intros c' r'. cbn. destruct (decide (c' = rq_class q)) as [->|Hne].
        -- rewrite lookup_insert_eq. by intros [= <-].
        -- rewrite lookup_insert_ne by done. apply H1.
      * intros c' a Ha. eapply acquisition_ok_grows; [exact Hg|by apply (ao_open _ _ _ (H2 _ _ Ha))|by apply H2].
      * exact Hd.
      * intros i q' o Hi. eapply settled_grows; [exact Hg|by apply H3].
      * intros t' k' Hk'. eapply task_ok_grows; [exact Hg|done|done| |by apply H4].
        intros i a' Ha' Hi. left. by exists a'.
      * exact H5.
    + destruct (ct_acquisitions m !! rq_class q) as [a|] eqn:Ha; [|by apply Hacq; left].
      split; [by split|]. split; [by exists a|done].
Qed.

Lemma sends_add_sent m t r : sends (add_sent t r m) t = r :: sends m t.
Proof.
  unfold sends. change (ct_sent (add_sent t r m)) with ((t, r) :: ct_sent m). by rewrite filter_cons_True.
Qed.
Lemma sends_add_ne m t t' r : t' ≠ t → sends (add_sent t r m) t' = sends m t'.
Proof.
  intros Hne. unfold sends. change (ct_sent (add_sent t r m)) with ((t, r) :: ct_sent m).
  by rewrite filter_cons_False by by intros ?.
Qed.

(** A request is sent under a record of the provider that is new to the call. *)
Lemma send_ok m t k k0 r : client_ok m → ct_tasks m !! t = Some k0 → tk_call k0 = tk_call k →
  (tk_second k = true → cl_retryInvalidToken (tk_call k) = true) →
  known m r → Forall (λ r', (cr_id r' < cr_id r)%nat) (sends m t) →
  length (sends m t) = attempts k → client_ok (send t k r m).
Proof.
  intros Hok Hk0 Hcall Hsec Hkn Hnew Hlen.
  pose proof (co_tasks _ Hok _ _ Hk0) as [_ Hknown Hd _].
  unfold send. set (m1 := set_phase t k (Sending r) m).
  assert (grows m m1) as Hg by (apply set_phase_grows; congruence).
  assert (grows m (add_sent t r m1)) as Hg' by (etransitivity; [exact Hg|split; [done|eauto]]).
  destruct Hok as [H1 H2 Hdi H3 H4 H5]. split.
  - intros c r' Hr. eapply known_grows; [exact Hg'|by eapply H1].
  - intros c a Ha. eapply acquisition_ok_grows; [exact Hg'|by apply (ao_open _ _ _ (H2 _ _ Ha))|by apply H2].
  - exact Hdi.
  - intros i q o Hi. eapply settled_grows; [exact Hg'|by apply H3].
  - intros t' k'. change (ct_tasks (add_sent t r m1)) with (<[t:=mkTask (tk_call k) (tk_second k) (Sending r)]> (ct_tasks m)).
    destruct (decide (t' = t)) as [->|Hne].
    + rewrite lookup_insert_eq. intros [= <-]. split; cbn [tk_second tk_call]; rewrite ?sends_add_sent.
      * done.
      * constructor.
        -- by eapply known_grows.
        -- eapply Forall_impl; [exact Hknown|]. intros x. by apply known_grows.
      * rewrite fmap_cons. constructor; [|done]. rewrite list_elem_of_fmap. intros (x & E & Hx).
        rewrite Forall_forall in Hnew. apply Hnew in Hx. lia.
      * unfold phase_ok. cbn [tk_phase]. rewrite sends_add_sent. by exists (sends m1 t).
    + rewrite lookup_insert_ne by done. intros Hk'. eapply task_ok_grows; [exact Hg'|exact (sends_add_ne m1 t t' r Hne)|done| |by apply H4].
      intros i a Ha Hi. left. by exists a.
  - intros t'. change (ct_tasks (add_sent t r m1)) with (<[t:=mkTask (tk_call k) (tk_second k) (Sending r)]> (ct_tasks m)).
    rewrite lookup_insert_None. intros [Ht Hne]. rewrite sends_add_ne by done. by apply H5.
Qed.

(** A call that goes on: its second attempt, if it is one, looks for a new token. *)
Lemma continue_ok m t k : client_ok m →
  (∀ k0, ct_tasks m !! t = Some k0 → tk_call k0 = tk_call k) →
  (tk_second k = true → cl_retryInvalidToken (tk_call k) = true) →
  length (sends m t) = attempts k → client_ok (continue t k (tk_second k) m).
Proof.
  intros Hok Hcall Hsec Hlen. unfold continue. set (m1 := set_phase t k Resolving m).
  assert (Forall (known m) (sends m t) ∧ NoDup (cr_id <$> sends m t)) as [Hknown Hd].
  { destruct (ct_tasks m !! t) as [k0|] eqn:Hk0.
    - by destruct (co_tasks _ Hok _ _ Hk0).
    - rewrite (co_sent _ Hok _ Hk0). split; constructor. }
  assert (client_ok m1) as Hok1.
  { apply place_ok; [done|done|]. split; [done| |done|done].
    eapply Forall_impl; [exact Hknown|]. intros x. by apply known_grows, set_phase_grows. }
  assert (ct_tasks m1 !! t = Some (mkTask (tk_call k) (tk_second k) Resolving)) as Hk1 by by cbn; rewrite lookup_insert_eq.
  pose proof (resolve_ok m1 (cl_requirement (tk_call k)) (tk_second k) t _ Hok1 Hk1 eq_refl) as Hres.
  destruct (resolve _ _ m1) as [m2 x]. destruct Hres as ([Hok2 Hg2 Ht2 Hs2] & Hx).
  assert (sends m2 t = sends m t) as Hse by (unfold sends; by rewrite Hs2).
  assert (ct_tasks m2 !! t = Some (mkTask (tk_call k) (tk_second k) Resolving)) as Hk2 by by rewrite Ht2.
  destruct x as [r|i again].
  - destruct Hx as (Hf & Hkn & Hm). eapply send_ok; [done|exact Hk2|done|done|done| |by rewrite Hse].
    rewrite Hse. unfold attempts in Hlen. rewrite Hf in Hlen. destruct (sends m t); [constructor|done].
  - destruct Hx as ((a & Ha & Hi) & Hnew). apply place_ok; [done|by rewrite Hk2; intros k0 [= <-]|].
    pose proof (set_phase_grows m2 t k (Awaiting i again (tk_second k))
      ltac:(by rewrite Hk2; intros k0 [= <-])) as Hg3.
    assert (grows m (set_phase t k (Awaiting i again (tk_second k)) m2)) as Hg.
    { etransitivity; [|exact Hg3]. etransitivity; [|exact Hg2]. by apply set_phase_grows. }
    split; [done| | |].
    + rewrite sends_set_phase, Hse. eapply Forall_impl; [exact Hknown|]. intros z. by apply known_grows.
    + rewrite sends_set_phase. by rewrite Hse.
    + unfold phase_ok. cbn [tk_phase]. rewrite sends_set_phase, Hse. split; [|done]. split; [done|left; by exists a|].
      intros Hag. rewrite sends_set_phase, Hse. destruct (tk_second k) eqn:E.
      * rewrite (Hnew Hag eq_refl). eapply Forall_impl; [exact Hknown|]. intros z Hz%known_id. exact Hz.
      * unfold attempts in Hlen. rewrite E in Hlen. destruct (sends m t); [constructor|done].
Qed.

(** Forgetting a record, or an entry of time, changes no call. *)
Lemma quiet_ok m m' : client_ok m → ct_tasks m' = ct_tasks m → ct_sent m' = ct_sent m →
  ct_settled m' = ct_settled m → ct_acquisitions m' = ct_acquisitions m → (ct_next m ≤ ct_next m')%nat →
  (∀ c r, ct_current m' !! c = Some r → known m' r) → client_ok m'.
Proof.
  intros [H1 H2 Hd H3 H4 H5] Et Es Ese Ea Hn Hc. assert (grows m m') as Hg by (split; [done|rewrite Et; eauto]).
  split.
  - exact Hc.
  - rewrite Ea. intros c a Ha. eapply acquisition_ok_grows; [done|rewrite Ese; by apply (ao_open _ _ _ (H2 _ _ Ha))|by apply H2].
  - rewrite Ea. exact Hd.
  - rewrite Ese. intros i q o Hi. eapply settled_grows; [exact Hg|by apply H3].
  - rewrite Et. intros t k Hk. eapply task_ok_grows; [done|by unfold sends; rewrite Es|by rewrite Ese| |by apply H4].
    intros i a Ha Hi. left. exists a. by rewrite Ea.
  - rewrite Et. unfold sends. rewrite Es. exact H5.
Qed.
Lemma invalidate_current r m c x :
  ct_current (invalidate r m) !! c = Some x → ct_current m !! c = Some x ∧ cr_id x ≠ cr_id r.
Proof. cbn. intros [Hx Hne]%map_lookup_filter_Some. by split. Qed.
Lemma invalidate_ok r m : client_ok m → client_ok (invalidate r m).
Proof.
  intros Hok. apply (quiet_ok m); [done..|]. intros c x [Hx _]%invalidate_current. exact (co_current m Hok c x Hx).
Qed.

Lemma finish_ok m t k x : client_ok m → ct_tasks m !! t = Some k → (length (sends m t) ≤ 1 + attempts k)%nat →
  client_ok (set_phase t k (Finished x) m).
Proof.
  intros Hok Hk Hlen. apply place_ok; [done|intros k0; by rewrite Hk; intros [= <-]|].
  destruct (co_tasks _ Hok _ _ Hk) as [H1 H2 H3 _]. split; [done| |done|done].
  eapply Forall_impl; [exact H2|]. intros z. apply known_grows, set_phase_grows. intros k0. by rewrite Hk; intros [= <-].
Qed.

Lemma respond_ok m t k r answer : client_ok m → ct_tasks m !! t = Some k → tk_phase k = Sending r →
  client_ok (respond t k r answer m).
Proof.
  intros Hok Hk Hp. pose proof (co_tasks _ Hok _ _ Hk) as [Hsec _ _ Hph].
  unfold phase_ok in Hph. rewrite Hp in Hph. destruct Hph as (l & Hl & Hlen).
  assert (∀ x m', client_ok m' → ct_tasks m' = ct_tasks m → ct_sent m' = ct_sent m →
    client_ok (set_phase t k (Finished x) m')) as Hfin.
  { intros x m' Hok' Et Es. apply finish_ok; [done|by rewrite Et|]. unfold sends. rewrite Es.
    fold (sends m t). rewrite Hl. cbn. lia. }
  unfold respond. destruct answer as [response|e]; [|by apply Hfin].
  destruct (hp_ok response); [by apply Hfin|]. destruct (tk_second k) eqn:Hs; [by apply Hfin|].
  assert (client_ok (invalidate r m)) as Hinv by by apply invalidate_ok.
  destruct (invalid_token response).
  - destruct (cl_retryInvalidToken (tk_call k)) eqn:Hr; [|by apply Hfin].
    apply (continue_ok _ t (mkTask (tk_call k) true Resolving)); [done| |done|].
    + intros k0. cbn. rewrite Hk. by intros [= <-].
    + unfold attempts in Hlen. rewrite Hs in Hlen. change (sends (invalidate r m) t) with (sends m t). rewrite Hl. cbn. lia.
  - destruct (out_of_scope response); by apply Hfin.
Qed.

Lemma normalize_matches j q n token md : normalizeCapability j q n = Ok (token, md) → capabilityMatches md q = true.
Proof.
  unfold normalizeCapability. cbv zeta. do 10 (intros (? & _ & H)%bind_Ok; revert H).
  intros (? & Ht & H)%bind_Ok. revert H. injection 1 as _ <-. revert Ht. unfold throw_if.
  by destruct (capabilityMatches _ q).
Qed.

Lemma normalize_fresh j q n token md : normalizeCapability j q n = Ok (token, md) →
  n / 1000 + MaximumCapabilityClockSkewSeconds < cm_expiresAt md.
Proof.
  unfold normalizeCapability. cbv zeta. do 4 (intros (? & _ & H)%bind_Ok; revert H).
  intros (expires & _ & H)%bind_Ok. revert H. do 3 (intros (? & _ & H)%bind_Ok; revert H).
  intros (? & Ht & H)%bind_Ok. revert H. intros (? & _ & H)%bind_Ok. revert H.
  intros (? & _ & H)%bind_Ok. injection H as _ <-. cbn [cm_expiresAt].
  apply throw_if_ok in Ht. apply Z.leb_gt in Ht. exact Ht.
Qed.

(** An acquisition that is answered has a record of its own, if it has one. *)
Lemma provide_ok m c a provided : client_ok m → ct_acquisitions m !! c = Some a →
  aq_outcome a = None → client_ok (provide c a provided m).
Proof.
  intros Hok Ha Hopen. pose proof (co_acquisitions _ Hok _ _ Ha) as [Hc Hid Htask Hset _].
  set (settled outcome := mkAcquisition (aq_id a) (aq_requirement a) (aq_reason a) (aq_superseded a) (Some outcome)).
  assert (∀ m' outcome, client_ok m' → grows m m' → ct_settled m' = ct_settled m → ct_acquisitions m' = ct_acquisitions m →
    (∀ r, outcome = Ok r → given m' (aq_requirement a) r ∧ (aq_id a < cr_id r)%nat) →
    client_ok (set_acquisitions (<[c := settled outcome]> (ct_acquisitions m')) m')) as Hsettle.
  { intros m' outcome [H1 H2 Hd H3 H4 H5] Hg Es Ea Hr.
    assert (grows m' (set_acquisitions (<[c := settled outcome]> (ct_acquisitions m')) m')) as Hg' by (split; [done|eauto]).
    split; [done| | |done| |done].
    - intros c' a'. cbn. destruct (decide (c' = c)) as [->|Hne].
      + rewrite lookup_insert_eq. intros [= <-]. split; cbn; [done| | |by rewrite Es|].
        * pose proof (gr_next _ _ Hg). lia.
        * destruct Htask as (t & k & Hk & E). apply (gr_tasks _ _ Hg) in Hk as (k' & Hk' & E').
          exists t, k'. split; [done|]. unfold needs in *. by rewrite E'.
        * intros r [= Hx]. destruct (Hr r Hx). split; [by eapply given_grows|done].
      + rewrite lookup_insert_ne by done. intros Hc'. eapply acquisition_ok_grows; [exact Hg'| |by apply H2].
        by apply (ao_open _ _ _ (H2 _ _ Hc')).
    - intros c1 c2 a1 a2. cbn. rewrite Ea, !lookup_insert_Some. rewrite Ea in Hd.
      intros [[<- <-]|[? Hc1]] [[<- <-]|[? Hc2]] E; cbn in E; [done|by eapply Hd..].
    - intros t' k' Hk'. eapply task_ok_grows; [exact Hg'|done|done| |by apply H4].
      intros i a' Ha' Hi. left. cbn. destruct (decide (rq_class (needs k') = c)) as [E|Hne].
      + rewrite E in Ha' |- *. rewrite lookup_insert_eq. eexists. split; [done|]. rewrite Ea, Ha in Ha'. by injection Ha' as <-.
      + rewrite lookup_insert_ne by done. by exists a'. }
  unfold provide. destruct (match provided with Ok j => _ | Throw e => _ end) as [[token md]|e] eqn:Hp;
    [|by apply Hsettle].
  destruct provided as [j|]; [|done]. destruct Htask as (t & k & Hk & Hneeds).
  set (r := mkRecord (ct_next m) token md).
  set (m1 := match aq_superseded a with Some old => invalidate old (use_id m) | None => use_id m end).
  assert (client_ok m1 ∧ ct_next m1 = S (ct_next m) ∧ ct_tasks m1 = ct_tasks m ∧ ct_settled m1 = ct_settled m
          ∧ ct_acquisitions m1 = ct_acquisitions m) as (Hok1 & En & Et & Es & Ea).
  { assert (client_ok (use_id m)) as Hu.
    { apply (quiet_ok m); [done..|cbn; lia|]. intros c' r' Hr'. eapply (known_grows m); [split; [cbn; lia|eauto]|].
      exact (co_current m Hok c' r' Hr'). }
    unfold m1. destruct (aq_superseded a); split_and!; try done. by apply invalidate_ok. }
  assert (given m1 (aq_requirement a) r) as Hgiven.
  { split; [rewrite En; cbn; lia|]. rewrite Et. by exists t, k. }
  assert (client_ok (set_current (<[c := r]> (ct_current m1)) m1)) as Hok2.
  { apply (quiet_ok m1); [done..|]. intros c' r'. cbn. destruct (decide (c' = c)) as [->|Hne].
    - rewrite lookup_insert_eq. intros [= <-]. by exists (aq_requirement a).
    - rewrite lookup_insert_ne by done. intros Hr'. exact (co_current m1 Hok1 c' r' Hr'). }
  apply (Hsettle (set_current (<[c := r]> (ct_current m1)) m1)); [done| |done|done|].
  - split; [cbn; lia|]. cbn. rewrite Et. eauto.
  - intros r' [= <-]. split; [exact Hgiven|]. cbn. exact Hid.
Qed.

Lemma settles_ok m c a outcome : client_ok m → ct_acquisitions m !! c = Some a → aq_outcome a = Some outcome →
  client_ok (set_settled (<[aq_id a := (aq_requirement a, outcome)]> (ct_settled m))
    (set_acquisitions (delete c (ct_acquisitions m)) m)).
Proof.
  intros Hok Ha Ho. pose proof (co_acquisitions _ Hok _ _ Ha) as [Hc Hid Htask Hset Hout].
  match goal with |- client_ok ?x => assert (grows m x) as Hg by (split; [done|eauto]) end.
  assert (∀ c' a', ct_acquisitions m !! c' = Some a' → c' ≠ c → aq_id a' ≠ aq_id a) as Hdist.
  { intros c' a' Ha' Hne E. by apply Hne, (co_distinct _ Hok c' c a' a). }
  destruct Hok as [H1 H2 Hd H3 H4 H5]. split.
  - exact H1.
  - intros c' a'. cbn. rewrite lookup_delete_Some. intros [Hne Ha']. eapply acquisition_ok_grows; [exact Hg| |by apply H2].
    cbn. rewrite lookup_insert_ne by by (apply not_eq_sym, (Hdist c')). by apply (ao_open _ _ _ (H2 _ _ Ha')).
  - intros c1 c2 a1 a2. cbn. rewrite !lookup_delete_Some. intros [_ ?] [_ ?]. by eapply Hd.
  - intros i q o. cbn. destruct (decide (i = aq_id a)) as [->|Hne].
    + rewrite lookup_insert_eq. intros [= <- <-]. split; [done|]. intros r ->. by apply Hout.
    + rewrite lookup_insert_ne by done. intros Hi. eapply settled_grows; [exact Hg|by apply H3].
  - intros t k Hk. eapply task_ok_grows; [exact Hg|done| | |by apply H4].
    + intros i o Hi. cbn. rewrite lookup_insert_ne; [done|]. intros E. by rewrite <- E, Hset in Hi.
    + intros i a' Ha' Hi. destruct (decide (rq_class (needs k) = c)) as [E|Hne].
      * right. rewrite E, Ha in Ha'. injection Ha' as <-. subst i. exists (aq_requirement a), outcome. cbn.
        rewrite lookup_insert_eq. split; [done|]. by rewrite Hc.
      * left. exists a'. cbn. by rewrite lookup_delete_ne.
  - exact H5.
Qed.

(** Every step keeps the invariant. *)
Lemma client_step_ok e m m' : client_ok m → step e m = Some m' → client_ok m'.
Proof.
  intros Hok. destruct e as [t call|c provided|c|t|t answer|n]; cbn [step].
  - destruct (ct_tasks m !! t) eqn:Hk; [done|]. intros [= <-].
    apply (continue_ok _ t (mkTask call false Resolving)); [done|by rewrite Hk|done|].
    by rewrite (co_sent _ Hok _ Hk).
  - intros (a & Ha & H)%option.bind_Some. destruct (aq_outcome a) eqn:Ho; [done|]. injection H as <-. by apply provide_ok.
  - intros (a & Ha & (outcome & Ho & [= <-])%option.bind_Some)%option.bind_Some. by eapply settles_ok.
  - intros (k & Hk & H)%option.bind_Some. pose proof (co_tasks _ Hok _ _ Hk) as [Hsec Hfits Hd Hph]. unfold phase_ok in Hph.
    destruct (tk_phase k) as [|i again forced| |] eqn:Hp; try done. destruct Hph as [[Hf Hof Hnew] Hlen].
    apply option.bind_Some in H as ([q outcome] & Ho & [= <-]). cbn [snd].
    destruct outcome as [r|e]; [|apply finish_ok; [done|done|lia]].
    destruct (co_settled _ Hok _ _ _ Ho) as [_ Hr]. destruct (Hr r eq_refl) as [Hg Hid]. destruct again.
    + rewrite Hf. apply continue_ok; [done| |done|done]. intros k0. rewrite Hk. by intros [= <-].
    + eapply send_ok; [done|exact Hk|done|done|by exists q| |done].
      eapply Forall_impl; [by apply Hnew|]. intros r' Hr'. cbn in Hr'. lia.
  - intros (k & Hk & H)%option.bind_Some. destruct (tk_phase k) eqn:Hp; try done. injection H as <-. by eapply respond_ok.
  - intros [= <-]. apply (quiet_ok m); [done..|]. intros c r Hr. exact (co_current m Hok c r Hr).
Qed.

Lemma reachable_ok m : reachable m → client_ok m.
Proof. induction 1 as [n|e m m' _ IH Hs]; [by split|by eapply client_step_ok]. Qed.

(** ** Sending *)

Definition unexpired (m : Client) (r : CapabilityRecord) : Prop :=
  ct_now m / 1000 + MaximumCapabilityClockSkewSeconds < cm_expiresAt (cr_metadata r).
(** A record that is kept, grants this and is unexpired. *)
Definition good_now (m : Client) (q : CapabilityRequirement) (r : CapabilityRecord) : Prop :=
  (∃ c, ct_current m !! c = Some r) ∧ capabilityMatches (cr_metadata r) q = true ∧ unexpired m r.
Lemma replacement_fresh r q n : replacementReason r q n = None →
  n / 1000 + MaximumCapabilityClockSkewSeconds < cm_expiresAt (cr_metadata r).
Proof. unfold replacementReason. destruct (Z.leb_spec (cm_expiresAt (cr_metadata r)) (n / 1000 + MaximumCapabilityClockSkewSeconds)); [done|]. lia. Qed.

(** Resolving sends nothing and lets no time pass; a record it comes to is good now. *)
Lemma acquire_sent q reason old m : ct_sent (fst (acquire q reason old m)) = ct_sent m
  ∧ ct_now (fst (acquire q reason old m)) = ct_now m ∧ ∃ i, snd (acquire q reason old m) = Joined i false.
Proof. unfold acquire. destruct (ct_acquisitions m !! rq_class q); cbn; eauto. Qed.
Lemma resolve_sent q forced m m' x : resolve q forced m = (m', x) →
  ct_sent m' = ct_sent m ∧ ct_now m' = ct_now m ∧ ∀ r, x = Resolved r → good_now m q r.
Proof.
  intros Hr.
  assert (∀ reason old, acquire q reason old m = (m', x) → ct_sent m' = ct_sent m ∧ ct_now m' = ct_now m
    ∧ ∀ r, x = Resolved r → good_now m q r) as Hacq.
  { intros reason old Ha. destruct (acquire_sent q reason old m) as (H1 & H2 & i & H3). rewrite Ha in *. cbn in *.
    subst x. by split_and!. }
  unfold resolve in Hr. destruct (if forced then None else ct_current m !! rq_class q) as [r|] eqn:Hp.
  - destruct (replacementReason r q (ct_now m)) eqn:Hrep; [by eapply Hacq|]. injection Hr as <- <-.
    split_and!; [done..|]. intros ? [= <-]. split_and!; [|by eapply replacement_none|by eapply replacement_fresh].
    destruct forced; [done|]. by eexists.
  - destruct (if forced then None else candidate q m) as [r|] eqn:Hc.
    + injection Hr as <- <-. split_and!; [done..|]. intros ? [= <-]. destruct forced; [done|].
      apply head_Some_elem_of, list_elem_of_filter in Hc as [Hrep Hin].
      split_and!; [|by eapply replacement_none|by eapply replacement_fresh].
      apply list_elem_of_omap in Hin as (c & _ & ?). by exists c.
    + destruct (ct_acquisitions m !! rq_class q) eqn:Ha; [|by eapply Hacq]. injection Hr as <- <-. by split_and!.
Qed.

(** What a step sends: a record that is good for the call now, or the record of the
    acquisition the call waited for. *)
Definition justified_send (m : Client) (e : Event) (t : nat) (call : Call) (r : CapabilityRecord) : Prop :=
  good_now m (cl_requirement call) r
  ∨ ∃ k i forced q, e = Wakes t ∧ ct_tasks m !! t = Some k ∧ tk_phase k = Awaiting i false forced
      ∧ ct_settled m !! i = Some (q, Ok r).
Definition sends_only (m : Client) (e : Event) (call : Call) (m' : Client) : Prop :=
  ∀ t r, ct_sent m' = (t, r) :: ct_sent m → justified_send m e t call r
    ∧ ∃ k, ct_tasks m' !! t = Some k ∧ tk_call k = call.
Lemma nothing_sent m e call m' : ct_sent m' = ct_sent m → sends_only m e call m'.
Proof. intros Hs t r. rewrite Hs. intros H%(f_equal length). cbn in H. lia. Qed.
Lemma continue_sends m0 e t k forced m : ct_sent m = ct_sent m0 → ct_now m = ct_now m0 →
  (∀ c r, ct_current m !! c = Some r → ct_current m0 !! c = Some r) →
  sends_only m0 e (tk_call k) (continue t k forced m).
Proof.
  intros Hs Hn Hcur t' r. unfold continue. destruct (resolve _ forced _) as [m' x] eqn:Hr.
  apply resolve_sent in Hr as (Hs' & Hn' & Hx). destruct x as [r'|i again].
  - cbn. rewrite Hs'. cbn. rewrite Hs. intros [= <- <-]. split.
    + left. destruct (Hx r' eq_refl) as [[c Hc] [Hm Hu]]. split; [exists c; by apply Hcur|]. split; [done|].
      unfold unexpired in *. cbn in Hu. by rewrite Hn in Hu.
    + rewrite lookup_insert_eq. by eexists.
  - cbn. rewrite Hs'. cbn. rewrite Hs. intros H%(f_equal length). cbn in H. lia.
Qed.
Lemma step_sends e m m' : step e m = Some m' → ∃ call, sends_only m e call m'.
Proof.
  destruct e as [t call|c provided|c|t|t answer|n]; cbn [step].
  - destruct (ct_tasks m !! t); [done|]. intros [= <-]. exists call. exact (continue_sends m _ t (mkTask call false Resolving) false m eq_refl eq_refl ltac:(auto)).
  - intros (a & Ha & H)%option.bind_Some. destruct (aq_outcome a); [done|]. injection H as <-.
    exists (mkClientCall (aq_requirement a) EmptyString false). apply nothing_sent. unfold provide.
    destruct (match provided with Ok j => _ | Throw _ => _ end) as [[token md]|]; [|done]. by destruct (aq_superseded a).
  - intros (a & Ha & (outcome & Ho & [= <-])%option.bind_Some)%option.bind_Some.
    exists (mkClientCall (aq_requirement a) EmptyString false). by apply nothing_sent.
  - intros (k & Hk & H)%option.bind_Some. exists (tk_call k). destruct (tk_phase k) as [|i again forced| |] eqn:Hp; try done.
    apply option.bind_Some in H as ([q outcome] & Ho & [= <-]). cbn [snd] in *. destruct outcome as [r|e]; [|by apply nothing_sent].
    destruct again; [by apply continue_sends|]. intros t' r'. cbn. intros [= <- <-]. split.
    + right. exists k, i, forced, q. done.
    + rewrite lookup_insert_eq. by eexists.
  - intros (k & Hk & H)%option.bind_Some. exists (tk_call k). destruct (tk_phase k) as [| |r0|]; try done. injection H as <-.
    unfold respond. destruct answer as [response|]; [|by apply nothing_sent]. destruct (hp_ok response); [by apply nothing_sent|].
    destruct (tk_second k); [by apply nothing_sent|]. destruct (invalid_token response).
    + destruct (cl_retryInvalidToken (tk_call k)); [|by apply nothing_sent].
      apply (continue_sends m _ t (mkTask (tk_call k) true Resolving) true (invalidate r0 m)); [done..|].
      by intros c r [? _]%invalidate_current.
    + destruct (out_of_scope response); by apply nothing_sent.
  - intros [= <-]. exists (mkClientCall (mkRequirement EmptyString EmptyString nodes_read) EmptyString false).
    by apply nothing_sent.
Qed.

(** A record that is out of [current] does not come back: what is put there was there,
    for some class, or is new. *)
Lemma resolve_current q forced m m' x c r : resolve q forced m = (m', x) →
  ct_current m' !! c = Some r → ∃ c', ct_current m !! c' = Some r.
Proof.
  assert (∀ reason old, ct_current (fst (acquire q reason old m)) = ct_current m) as Ha.
  { intros reason old. unfold acquire. by destruct (ct_acquisitions m !! rq_class q). }
  unfold resolve. intros Hr Hc.
  destruct (if forced then None else ct_current m !! rq_class q) as [r1|] eqn:Hp.
  - destruct (replacementReason r1 q (ct_now m)) as [reason|].
    + specialize (Ha reason (Some r1)). rewrite Hr in Ha. cbn in Ha. rewrite Ha in Hc. by exists c.
    + injection Hr as <- _. by exists c.
  - destruct (if forced then None else candidate q m) as [r1|] eqn:Hcand.
    + injection Hr as <- _. cbn in Hc. destruct (decide (c = rq_class q)) as [->|Hne].
      * rewrite lookup_insert_eq in Hc. injection Hc as <-. destruct forced; [done|].
        apply head_Some_elem_of, list_elem_of_filter in Hcand as [_ Hin].
        apply list_elem_of_omap in Hin as (c' & _ & ?). by exists c'.
      * rewrite lookup_insert_ne in Hc by done. by exists c.
    + destruct (ct_acquisitions m !! rq_class q) eqn:E; [injection Hr as <- _; by exists c|].
      specialize (Ha (if forced then server_rejected else missing) (ct_current m !! rq_class q)).
      rewrite Hr in Ha. cbn in Ha. rewrite Ha in Hc. by exists c.
Qed.
Lemma continue_current t k forced m c r :
  ct_current (continue t k forced m) !! c = Some r → ∃ c', ct_current m !! c' = Some r.
Proof.
  unfold continue. destruct (resolve _ _ _) as [m' x] eqn:Hr. intros Hc.
  apply (resolve_current _ _ _ _ _ c r Hr). by destruct x.
Qed.
Lemma refused_stays_out e m m' c r : step e m = Some m' → ct_current m' !! c = Some r →
  (∃ c', ct_current m !! c' = Some r)
  ∨ ((ct_next m ≤ cr_id r)%nat
     ∧ ∃ j a, e = Provides c (Ok j) ∧ ct_acquisitions m !! c = Some a
         ∧ normalizeCapability j (aq_requirement a) (ct_now m) = Ok (cr_bearerToken r, cr_metadata r)).
Proof.
  destruct e as [t call|c0 provided|c0|t|t answer|n]; cbn [step].
  - destruct (ct_tasks m !! t); [done|]. intros [= <-] Hc. left. by eapply continue_current.
  - intros (a & Ha & H)%option.bind_Some. destruct (aq_outcome a); [done|]. injection H as <-. unfold provide.
    destruct provided as [j|]; [|by left; exists c].
    destruct (normalizeCapability j (aq_requirement a) (ct_now m)) as [[token md]|] eqn:Hn; [|by left; exists c].
    cbn. destruct (decide (c = c0)) as [->|Hne].
    + rewrite lookup_insert_eq. intros [= <-]. right. split; [cbn; lia|]. by exists j, a.
    + rewrite lookup_insert_ne by done. intros Hc. left. exists c.
      destruct (aq_superseded a); [by apply invalidate_current in Hc as [? _]|done].
  - intros (a & Ha & (outcome & Ho & [= <-])%option.bind_Some)%option.bind_Some Hc. left. by exists c.
  - intros (k & Hk & H)%option.bind_Some. destruct (tk_phase k); try done.
    apply option.bind_Some in H as ([q outcome] & Ho & [= <-]). cbn [snd]. intros Hc. left.
    destruct outcome as [r0|e]; [|by exists c]. destruct again; [by eapply continue_current|by exists c].
  - intros (k & Hk & H)%option.bind_Some. destruct (tk_phase k) as [| |r0|]; try done. injection H as <-. intros Hc. left.
    unfold respond in Hc. destruct answer as [response|]; [|by exists c]. destruct (hp_ok response); [by exists c|].
    destruct (tk_second k); [by exists c|].
    assert (∀ x, ct_current (invalidate r0 m) !! x = Some r → ∃ c', ct_current m !! c' = Some r) as Hi.
    { intros x [? _]%invalidate_current. by exists x. }
    destruct (invalid_token response).
    + destruct (cl_retryInvalidToken (tk_call k)); [|by eapply (Hi c)].
      apply continue_current in Hc as (c' & Hc). by eapply Hi.
    + destruct (out_of_scope response); [by eapply (Hi c)|by exists c].
  - intros [= <-] Hc. left. by exists c.
Qed.

(** ** What the provider answered *)

Definition client_step (m m' : Client) : Prop := ∃ e, step e m = Some m'.
(** In an earlier step of the run the provider answered the acquisition [i], made for
    this, with the record: it was accepted at the instant of that step. *)
Definition answered (m : Client) (i : nat) (q : CapabilityRequirement) (r : CapabilityRecord) : Prop :=
  ∃ m0 m1 c a j, reachable m0 ∧ ct_acquisitions m0 !! c = Some a ∧ aq_id a = i ∧ aq_requirement a = q
    ∧ step (Provides c (Ok j)) m0 = Some m1 ∧ rtc client_step m1 m
    ∧ normalizeCapability j q (ct_now m0) = Ok (cr_bearerToken r, cr_metadata r).
Lemma answered_later m m' i q r : client_step m m' → answered m i q r → answered m' i q r.
Proof.
  intros Hs (m0 & m1 & c & a & j & H1 & H2 & H3 & H4 & H5 & H6 & H7). exists m0, m1, c, a, j. split_and!; try done.
  by eapply rtc_r.
Qed.

(** Calls settle nothing, and what they ask for has no answer yet. *)
Definition only_asks (m m' : Client) : Prop :=
  ct_settled m' = ct_settled m
  ∧ ∀ c a, ct_acquisitions m' !! c = Some a → ct_acquisitions m !! c = Some a ∨ aq_outcome a = None.
Lemma only_asks_same m m' : ct_settled m' = ct_settled m → ct_acquisitions m' = ct_acquisitions m → only_asks m m'.
Proof. intros Hs Ha. split; [done|]. rewrite Ha. auto. Qed.
Lemma acquire_asks q reason old m : only_asks m (fst (acquire q reason old m)).
Proof.
  unfold acquire. destruct (ct_acquisitions m !! rq_class q) eqn:Ha; [by apply only_asks_same|]. split; [done|].
  intros c a. cbn. rewrite lookup_insert_Some. intros [[_ <-]|[_ Hc]]; auto.
Qed.
Lemma resolve_asks q forced m : only_asks m (fst (resolve q forced m)).
Proof.
  unfold resolve. repeat case_match; first [apply acquire_asks|by apply only_asks_same].
Qed.
Lemma continue_asks m0 t k forced m :
  ct_settled m = ct_settled m0 → ct_acquisitions m = ct_acquisitions m0 → only_asks m0 (continue t k forced m).
Proof.
  intros Hs Ha. unfold continue. pose proof (resolve_asks (cl_requirement (tk_call k)) forced (set_phase t k Resolving m)) as [H1 H2].
  destruct (resolve _ _ _) as [m' x]. cbn in H1, H2. rewrite Hs in H1. rewrite Ha in H2. by destruct x.
Qed.
Lemma respond_asks t k r answer m : only_asks m (respond t k r answer m).
Proof. unfold respond. repeat case_match; first [by apply only_asks_same|by apply continue_asks]. Qed.

(** What a step adds to the answers and to what has settled. *)
Definition answers (m : Client) (e : Event) (m' : Client) : Prop :=
  (∀ c a r, ct_acquisitions m' !! c = Some a → aq_outcome a = Some (Ok r) →
     ct_acquisitions m !! c = Some a
     ∨ ∃ j a0, e = Provides c (Ok j) ∧ ct_acquisitions m !! c = Some a0 ∧ aq_id a0 = aq_id a
         ∧ aq_requirement a0 = aq_requirement a
         ∧ normalizeCapability j (aq_requirement a) (ct_now m) = Ok (cr_bearerToken r, cr_metadata r))
  ∧ ∀ i q r, ct_settled m' !! i = Some (q, Ok r) →
     ct_settled m !! i = Some (q, Ok r)
     ∨ ∃ c a, ct_acquisitions m !! c = Some a ∧ aq_id a = i ∧ aq_requirement a = q ∧ aq_outcome a = Some (Ok r).
Lemma only_asks_answers m e m' : only_asks m m' → answers m e m'.
Proof.
  intros [Hs Ha]. split; [|intros i q r; rewrite Hs; auto].
  intros c a r [Hc|Hn]%Ha Ho; [by left|congruence].
Qed.
Lemma provide_answers c a provided m : ct_acquisitions m !! c = Some a → answers m (Provides c provided) (provide c a provided m).
Proof.
  intros Ha. unfold provide. destruct provided as [j|e].
  - destruct (normalizeCapability j (aq_requirement a) (ct_now m)) as [[token md]|e] eqn:Hn.
    + split; [|intros i q r; destruct (aq_superseded a); cbn; auto]. intros c' a' r' Hc Ho.
      assert (<[c := mkAcquisition (aq_id a) (aq_requirement a) (aq_reason a) (aq_superseded a)
        (Some (Ok (mkRecord (ct_next m) token md)))]> (ct_acquisitions m) !! c' = Some a') as Hc'
        by (revert Hc; by destruct (aq_superseded a)).
      apply lookup_insert_Some in Hc' as [[<- <-]|[_ Hc']]; [right|by left]. injection Ho as <-. by exists j, a.
    + split; [|auto]. intros c' a' r'. cbn. rewrite lookup_insert_Some. intros [[_ <-]|[_ Hc]]; [done|auto].
  - split; [|auto]. intros c' a' r'. cbn. rewrite lookup_insert_Some. intros [[_ <-]|[_ Hc]]; [done|auto].
Qed.
Lemma step_answers e m m' : step e m = Some m' → answers m e m'.
Proof.
  destruct e as [t call|c provided|c|t|t answer|n]; cbn [step].
  - destruct (ct_tasks m !! t); [done|]. intros [= <-]. by apply only_asks_answers, continue_asks.
  - intros (a & Ha & H)%option.bind_Some. destruct (aq_outcome a); [done|]. injection H as <-. by apply provide_answers.
  - intros (a & Ha & (outcome & Ho & [= <-])%option.bind_Some)%option.bind_Some. split.
    + intros c' a' r. cbn. rewrite lookup_delete_Some. intros [_ Hc]. by left.
    + intros i q r. cbn. rewrite lookup_insert_Some. intros [[Hi [= Hq Hr]]|[_ Hi]]; [right|by left]. subst. by exists c, a.
  - intros (k & Hk & H)%option.bind_Some. destruct (tk_phase k) as [|i again forced| |]; try done.
    apply option.bind_Some in H as ([q outcome] & Ho & [= <-]). cbn [snd]. apply only_asks_answers.
    destruct outcome as [r|e]; [|by apply only_asks_same]. destruct again; [by apply continue_asks|by apply only_asks_same].
  - intros (k & Hk & H)%option.bind_Some. destruct (tk_phase k); try done. injection H as <-. apply only_asks_answers, respond_asks.
  - intros [= <-]. by apply only_asks_answers, only_asks_same.
Qed.
Lemma reachable_answered m : reachable m →
  (∀ c a r, ct_acquisitions m !! c = Some a → aq_outcome a = Some (Ok r) → answered m (aq_id a) (aq_requirement a) r)
  ∧ (∀ i q r, ct_settled m !! i = Some (q, Ok r) → answered m i q r)
  ∧ ∀ c r, ct_current m !! c = Some r → ∃ i q, answered m i q r.
Proof.
  induction 1 as [n|e m m' Hr (IHa & IHs & IHc) Hs]; [done|]. assert (client_step m m') as Hms by by exists e.
  destruct (step_answers _ _ _ Hs) as [Ha Hset]. split_and!.
  - intros c a r Hc Ho. destruct (Ha c a r Hc Ho) as [Hc'|(j & a0 & -> & Ha0 & Hi & Hq & Hn)].
    + eapply answered_later; [exact Hms|by eapply IHa].
    + exists m, m', c, a0, j. rewrite Hq. by split_and!.
  - intros i q r Hi. eapply answered_later; [exact Hms|].
    destruct (Hset i q r Hi) as [Hi'|(c & a & Hc & <- & <- & Ho)]; [by apply IHs|by eapply IHa].
  - intros c r Hc. destruct (refused_stays_out _ _ _ _ _ Hs Hc) as [[c' Hc']|(_ & j & a & -> & Ha0 & Hn)].
    + destruct (IHc c' r Hc') as (i & q & H). exists i, q. by eapply answered_later.
    + exists (aq_id a), (aq_requirement a), m, m', c, a, j. by split_and!.
Qed.

(** A call is sent once, or twice. *)
Lemma sends_bound m t k : client_ok m → ct_tasks m !! t = Some k →
  (length (sends m t) ≤ if cl_retryInvalidToken (tk_call k) then 2 else 1)%nat.
Proof.
  intros Hok Hk. destruct (co_tasks _ Hok _ _ Hk) as [Hsec _ _ Hph].
  assert (attempts k ≤ if cl_retryInvalidToken (tk_call k) then 1 else 0)%nat as Ha.
  { unfold attempts. destruct (tk_second k); [by rewrite Hsec|]. case_match; lia. }
  assert (length (sends m t) ≤ 1 + attempts k)%nat as Hl; [|case_match; lia].
  unfold phase_ok in Hph. destruct (tk_phase k); [lia| |destruct Hph as (? & -> & ?); cbn; lia|done].
  destruct Hph. lia.
Qed.
(** A call that waited is sent for what it was. *)
Lemma woken_call m m' t k0 k i forced s : step (Wakes t) m = Some m' → ct_tasks m !! t = Some k0 →
  tk_phase k0 = Awaiting i false forced → ct_settled m !! i = Some s → ct_tasks m' !! t = Some k → needs k0 = needs k.
Proof.
  intros Hstep Hk0 Hp Hset Hk. cbn [step] in Hstep. rewrite Hk0 in Hstep. cbn [mbind option_bind] in Hstep.
  rewrite Hp, Hset in Hstep. cbn in Hstep. unfold needs. destruct (snd s); injection Hstep as <-; cbn in Hk;
    rewrite lookup_insert_eq in Hk; by injection Hk as <-.
Qed.


(** * A client at work *)

Fixpoint steps (l : list Event) (m : Client) : option Client :=
  match l with [] => Some m | e :: l => m ← step e m; steps l m end.
Lemma steps_reachable l m m' : reachable m → steps l m = Some m' → reachable m'.
Proof.
  revert m. induction l as [|e l IH]; intros m Hm; cbn; [by intros [= <-]|].
  intros (m1 & Hs & Hl)%option.bind_Some. eapply IH; [by eapply reachable_step|done].
Qed.

Module ClientExample.
Definition capability (token selector : string) : Json :=
  JObj [("bearerToken", JStr token);
        ("metadata", JObj [("version", JInt 2); ("expiresAt", JInt 1000);
          ("grants", JArr [JObj [("selector", JStr selector);
                                 ("permissions", JArr [JStr "cas:nodes:read"; JStr "cas:nodes:read"])]])])].
Definition read_call (space : string) : Call := mkClientCall (mkRequirement "app" space nodes_read) "read" true.
Definition refusal : HttpResponse :=
  mkHttpResponse 401 "Unauthorized" (λ _, None) (Some (JObj [("error", JStr "invalid_token")])) None.
(** A call whose token is refused, up to the wait for another one, and sent again. *)
Definition refused : option Client :=
  steps [Begins 0 (read_call "/a"); Provides content_class (Ok (capability "one" "/a"));
         Settles content_class; Wakes 0; Responds 0 (Ok refusal);
         Provides content_class (Ok (capability "two" "/a")); Settles content_class]
    (Client_empty 0).
Definition retried : option Client := m ← refused; step (Wakes 0) m.
(** Two calls that wait for one acquisition. *)
Definition joined : option Client :=
  steps [Begins 0 (read_call "/a"); Provides content_class (Ok (capability "one" "/a"));
         Settles content_class; Wakes 0; Begins 1 (read_call "/b"); Begins 2 (read_call "/c");
         Provides content_class (Ok (capability "two" "/b")); Settles content_class; Wakes 1; Wakes 2]
    (Client_empty 0).
Definition state (m : option Client) : Client := default (Client_empty 0) m.
Definition tokens (m : option Client) (t : nat) : list string := cr_bearerToken <$> sends (state m) t.
End ClientExample.

Lemma example_reachable m : is_Some (steps m (Client_empty 0)) → reachable (ClientExample.state (steps m (Client_empty 0))).
Proof. intros [m' Hm]. rewrite Hm. eapply steps_reachable; [apply (reachable_empty 0)|exact Hm]. Qed.


(** A call that finds a capability of its class for another Space joins the acquisition
    that is under way for a third one, and is sent under a token that does not grant what
    it needs. *)
Lemma joined_mismatch :
  let m := ClientExample.state ClientExample.joined in
  reachable m ∧ ∃ k r, ct_tasks m !! 2%nat = Some k ∧ sends m 2 = [r]
    ∧ capabilityMatches (cr_metadata r) (needs k) = false.
Proof.
  intros m. split; [apply example_reachable; vm_compute; by eexists|].
  eexists _, _. split; [vm_compute; reflexivity|]. split; [vm_compute; reflexivity|]. vm_compute. reflexivity.
Qed.
