(* ===== verification/DoNames.v ===== *)
(** The object keys of [packages/service-cloudflare/src/do-names.ts]. *)
From Stdlib Require Import Ascii.
From S2P Require Import Prelude Js Errors Validation Codec Store.

(** [appCanonicalNodeKey(appId, spaceId, hash)]. *)
Definition appCanonicalNodeKey (app space hash : string) : string :=
  "apps/" +:+ app +:+ "/spaces/" +:+ space +:+ "/nodes-v2/" +:+ hash.

Definition canonical_key (k : NodeKey) : string :=
  appCanonicalNodeKey (fst (fst k)) (snd (fst k)) (snd k).

(** [`_uploads/v2/${id}`], the key of a temporary upload. *)
Definition upload_key (id : string) : string := "_uploads/v2/" +:+ id.

(** An App identifier holds no slash; a node is named by a hash. *)
Definition no_slash (s : string) : Prop := Forall (λ c, c ≠ "/"%char) (chars s).
Definition node_key_ok (k : NodeKey) : Prop :=
  no_slash (fst (fst k)) ∧ is_hash (snd k) = true.

Lemma split_at_slash (a b r1 r2 : list ascii) :
  Forall (λ c, c ≠ "/"%char) a → Forall (λ c, c ≠ "/"%char) b →
  a ++ "/"%char :: r1 = b ++ "/"%char :: r2 → a = b ∧ r1 = r2.
Proof.
  intros Ha. revert b. induction Ha as [|x a Hx _ IH]; intros b Hb He.
  - destruct b as [|y b]; simpl in He; [split; congruence|].
    apply Forall_cons in Hb as [Hy _]. congruence.
  - destruct b as [|y b]; simpl in He; [congruence|].
    apply Forall_cons in Hb as [Hy Hb]. injection He as -> He.
    destruct (IH b Hb He) as [-> ->]. done.
Qed.

(** Nodes of different Apps, Spaces or hashes never share an object, although a
    Space identifier may hold any character. *)
Lemma canonical_key_inj k1 k2 :
  node_key_ok k1 → node_key_ok k2 → canonical_key k1 = canonical_key k2 → k1 = k2.
Proof.
  destruct k1 as [[a1 s1] h1], k2 as [[a2 s2] h2]. intros [Ha1 Hh1] [Ha2 Hh2] He.
  simpl in *. unfold canonical_key, appCanonicalNodeKey in He. simpl in He.
  apply (f_equal chars) in He. rewrite !chars_app in He. simplify_list_eq.
  apply split_at_slash in He as [Ha He]; [|done..]. apply (inj chars) in Ha.
  simplify_list_eq.
  assert (length (chars h1) = length (chars h2)) as Hl.
  { unfold is_hash, strlen in *. rewrite !andb_true_iff, !Z.eqb_eq in *.
    rewrite !length_chars. lia. }
  apply app_inj_2 in He as [Hs Hr]; [|simpl; by rewrite Hl].
  injection Hr as Hr. apply (inj chars) in Hs, Hr. by subst.
Qed.

Lemma canonical_key_not_upload k id : canonical_key k ≠ upload_key id.
Proof. unfold canonical_key, appCanonicalNodeKey, upload_key. done. Qed.
