(* ===== verification/Http.v ===== *)
(** The header that carries the references of a node, of
    [packages/space-protocol/src/http.ts]. *)
From Stdlib Require Import Ascii.
From S2P Require Import Prelude Js JsString Errors Codec Validation.

Definition CasNodeRefsHeader : string := "X-CAS-Refs".
Definition MaximumNodeRefs : Z := 256.

(** [refs.length > MaximumNodeRefs || refs.some((ref) => !CasHashPattern.test(ref))]. *)
Definition refs_invalid (refs : list string) : bool :=
  (MaximumNodeRefs <? Z.of_nat (length refs)) || existsb (λ r, negb (is_hash r)) refs.

Definition formatCasNodeRefsHeader (refs : list string) : result exn string :=
  _ ← throw_if (refs_invalid refs) (TypeError "CAS node refs are invalid");
  Ok (join_commas refs).

Definition parseCasNodeRefsHeader (value : option string) : result exn (list string) :=
  match value with
  | None => Throw (TypeError (CasNodeRefsHeader +:+ " is required"))
  | Some value =>
      if strlen value =? 0 then Ok []
      else
        let refs := split ","%char value in
        _ ← throw_if (refs_invalid refs) (TypeError (CasNodeRefsHeader +:+ " is invalid"));
        Ok refs
  end.

(** * The header round trips *)

Lemma refs_invalid_false refs :
  refs_invalid refs = false
  ↔ Z.of_nat (length refs) ≤ MaximumNodeRefs ∧ Forall (λ r, is_hash r = true) refs.
Proof.
  unfold refs_invalid. rewrite orb_false_iff, Z.ltb_ge. apply and_iff_compat_l.
  induction refs as [|r refs IH]; simpl; [by split|].
  rewrite orb_false_iff, negb_false_iff, Forall_cons, IH. done.
Qed.

Lemma hash_no_comma r : is_hash r = true → ","%char ∉ chars r.
Proof.
  unfold is_hash, all_chars. rewrite andb_true_iff. intros [_ Hl] Hin.
  rewrite forallb_forall in Hl. specialize (Hl ","%char (proj1 (list_elem_of_In _ _) Hin)). done.
Qed.

Lemma split_join refs :
  refs ≠ [] → Forall (λ r, is_hash r = true) refs → split ","%char (join_commas refs) = refs.
Proof.
  intros Hne Hall. unfold split. induction Hall as [|r refs Hr Hall IH]; [done|].
  destruct refs as [|r' refs].
  - simpl. rewrite split_chars_none by by apply hash_no_comma. simpl. by rewrite of_chars_chars.
  - change (join_commas (r :: r' :: refs)) with (r +:+ "," +:+ join_commas (r' :: refs)).
    rewrite chars_app, chars_app. change (chars "," ++ ?l) with (","%char :: l).
    rewrite split_chars_app by by apply hash_no_comma.
    rewrite fmap_cons, of_chars_chars. f_equal. by apply IH.
Qed.

Lemma join_nonempty r refs : is_hash r = true → strlen (join_commas (r :: refs)) =? 0 = false.
Proof.
  intros Hr. apply Z.eqb_neq. unfold is_hash, HASH_HEX_LENGTH in Hr.
  apply andb_true_iff in Hr as [Hl%Z.eqb_eq _].
  assert (length (chars r) ≤ length (chars (join_commas (r :: refs))))%nat as Hle.
  { destruct refs as [|r' refs]; [done|].
    change (join_commas (r :: r' :: refs)) with (r +:+ "," +:+ join_commas (r' :: refs)).
    rewrite chars_app, length_app. lia. }
  rewrite !length_chars in Hle. unfold strlen in *. lia.
Qed.

(** What is formatted is read back. *)
Lemma format_parse refs :
  refs_invalid refs = false → ∃ value, formatCasNodeRefsHeader refs = Ok value
     ∧ parseCasNodeRefsHeader (Some value) = Ok refs.
Proof.
  intros Hi. exists (join_commas refs). unfold formatCasNodeRefsHeader, throw_if. rewrite Hi.
  split; [done|]. unfold parseCasNodeRefsHeader. pose proof Hi as [_ Hall]%refs_invalid_false.
  destruct refs as [|r refs]; [done|]. apply Forall_cons in Hall as Hr.
  rewrite join_nonempty by by destruct Hr. rewrite split_join by done. unfold throw_if. by rewrite Hi.
Qed.

(** The references header of a node round trips: what [formatCasNodeRefsHeader]
    gives for a list of references, [parseCasNodeRefsHeader] reads as that list;
    formatting refuses exactly the lists that are too long or hold something that
    is not a hash, and reading accepts only lists that formatting would. *)
Lemma refs_header_roundtrip refs :
  (refs_invalid refs = false → ∃ value, formatCasNodeRefsHeader refs = Ok value
     ∧ parseCasNodeRefsHeader (Some value) = Ok refs)
  ∧ (refs_invalid refs = true →
     formatCasNodeRefsHeader refs = Throw (TypeError "CAS node refs are invalid"))
  ∧ ∀ value, parseCasNodeRefsHeader (Some value) = Ok refs → refs_invalid refs = false.
Proof.
  split_and!.
  - apply format_parse.
  - intros Hi. unfold formatCasNodeRefsHeader, throw_if. by rewrite Hi.
  - intros value. unfold parseCasNodeRefsHeader, throw_if. case_match; [by intros [= <-]|].
    destruct (refs_invalid (split _ _)) eqn:Hi; [done|]. cbn. by intros [= <-].
Qed.

Lemma refs_header_roundtrip_witness :
  let r := of_chars (replicate 64 "a"%char) in
  refs_invalid [r; r] = false
  ∧ ∃ value, formatCasNodeRefsHeader [r; r] = Ok value
    ∧ parseCasNodeRefsHeader (Some value) = Ok [r; r].
Proof.
  intros r. split; [reflexivity|]. apply (proj1 (refs_header_roundtrip [r; r])). reflexivity.
Defined.
