(* ===== verification/World.v ===== *)
(** The world the Space service runs in: the D1 database, the R2 bucket, the
    clock, and a schedule of what the platform does at every external call. A call
    is served, refused before it has an effect, or loses its response after it had
    one; meanwhile time passes, clients upload through presigned URLs, the usage
    reconciliation of another worker writes its observations, and Root Ref updates
    of other Spaces commit plans that are true of the database they find. The empty
    schedule serves every call at once. *)
From Stdlib Require Import Ascii.
From S2P Require Import Prelude Js MapSum Errors Codec Store SpaceCommits DoNames.

(** * The bucket

    R2 is a service outside the repository: a type of bucket states with the
    operations the code calls, and the documented behaviour it relies on. *)

Record R2Object := mkR2Object {
  obj_body : bytes;
  (* [object.checksums.sha256], kept when the upload named one *)
  obj_sha256 : option bytes
}.

Inductive put_result :=
| PutStored
| PutPrecondition   (* the promise of [put] yields [null] *)
| PutRejected.      (* the checksum named does not match *)
#[global] Instance put_result_eq_dec : EqDecision put_result.
Proof. solve_decision. Defined.

Class R2Bucket (B : Type) := {
  r2_object : B → string → option R2Object;
  (* key, body, [sha256], [onlyIf: { etagDoesNotMatch: "*" }] *)
  r2_put : B → string → bytes → option string → bool → put_result * B;
  r2_delete : B → string → B;
  (* the chunks in which [object.body] delivers its bytes *)
  r2_chunks : B → bytes → list bytes
}.

Definition checksum_ok `{Sha256} (sha : option string) (body : bytes) : Prop :=
  match sha with Some h => hex_of (sha256 body) = h | None => True end.

Class R2Laws (B : Type) `{R2Bucket B} `{Sha256} := {
  r2_put_stored b key body sha absent b' :
    r2_put b key body sha absent = (PutStored, b') →
    r2_object b' key
    = Some (mkR2Object body (match sha with Some _ => Some (sha256 body) | None => None end))
    ∧ checksum_ok sha body ∧ (absent = true → r2_object b key = None)
    ∧ (∀ key', key' ≠ key → r2_object b' key' = r2_object b key');
  r2_put_failed b key body sha absent r b' key' :
    r2_put b key body sha absent = (r, b') → r ≠ PutStored →
    r2_object b' key' = r2_object b key';
  r2_put_succeeds b key body sha absent :
    checksum_ok sha body → (absent = true → r2_object b key = None) →
    fst (r2_put b key body sha absent) = PutStored;
  r2_put_conflicts b key body sha o :
    checksum_ok sha body → r2_object b key = Some o →
    fst (r2_put b key body sha true) = PutPrecondition;
  r2_delete_key b key : r2_object (r2_delete b key) key = None;
  r2_delete_other b key key' : key' ≠ key → r2_object (r2_delete b key) key' = r2_object b key';
  r2_chunks_concat b bs : concat (r2_chunks b bs) = bs
}.

(** * Ticks *)

Inductive Outcome := Served | Refused | Lost.

(** What others do while a call is in flight. *)
Inductive EnvAction :=
| ClientPut (id : string) (body : bytes)
| UsageObserved (k : NodeKey) (storedBytes : option Z) (observedAt : Z)
| UsageRepaired (s : AppSpaceScope) (repairedAt : Z)
| RootRefsCommitted (plan : RootRefCommitPlan).

Record Tick := mkTick {
  tk_outcome : Outcome;
  tk_elapsed : Z;
  tk_env : list EnvAction
}.

Section world.
Context {B : Type} `{R2Bucket B}.

Record World := mkWorld {
  w_db : Db;
  w_bucket : B;
  w_clock : Z;
  w_sched : list Tick
}.

Definition set_db (d : Db) (w : World) : World :=
  mkWorld d (w_bucket w) (w_clock w) (w_sched w).
Definition set_bucket (b : B) (w : World) : World :=
  mkWorld (w_db w) b (w_clock w) (w_sched w).

(** The nodes a plan adds references to are stored. *)
Definition plan_stored (plan : RootRefCommitPlan) (w : World) : bool :=
  forallb (λ entry : string * Z, negb (0 <? snd entry)
    || bool_decide (is_Some (r2_object (w_bucket w) (canonical_key (rp_scope plan, fst entry)))))
    (rp_entries plan).

Definition env_step (w : World) (a : EnvAction) : World :=
  match a with
  | ClientPut id body =>
      set_bucket (snd (r2_put (w_bucket w) (upload_key id) body None false)) w
  | UsageObserved k stored at_ =>
      match writeNodeObservation k stored at_ (w_db w) with
      | Some (d, _) => set_db d w
      | None => w
      end
  | UsageRepaired s at_ =>
      match run_batch (repair_batch s at_) (w_db w) with
      | Some (d, _) => set_db d w
      | None => w
      end
  | RootRefsCommitted plan =>
      if plan_ok plan (w_db w) && plan_stored plan w then
        match commit_plan plan with
        | Ok l => match run_batch l (w_db w) with Some (d, _) => set_db d w | None => w end
        | Throw _ => w
        end
      else w
  end.

Definition advance (t : Tick) (w : World) : World :=
  mkWorld (w_db w) (w_bucket w) (w_clock w + Z.max 0 (tk_elapsed t)) (w_sched w).

(** Start an external call: the next tick says how it goes. *)
Definition enter (w : World) : Outcome * World :=
  match w_sched w with
  | [] => (Served, w)
  | t :: sched =>
      (tk_outcome t,
       advance t (foldl env_step (mkWorld (w_db w) (w_bucket w) (w_clock w) sched) (tk_env t)))
  end.

Definition Act (A : Type) : Type := M exn World A.

Definition external {A} (f : Act A) : Act A := λ w,
  let '(outcome, w) := enter w in
  match outcome with
  | Served => f w
  | Refused => (Throw (Error "Network connection lost."), w)
  | Lost => let '(_, w) := f w in (Throw (Error "Network connection lost."), w)
  end.

(** [Date.now()]. *)
Definition Date_now : Act Z := gets w_clock.

(** [await sleep(ms)]. *)
Definition sleep (ms : Z) : Act unit := modify (λ w,
  mkWorld (w_db w) (w_bucket w) (w_clock w + Z.max 0 ms) (w_sched w)).

(** ** D1 *)

(** [statement.first()] and [statement.all()]. *)
Definition d1_read {A} (q : Db → A) : Act A := external (gets (q ∘ w_db)).

(** [statement.run()]; the result is [meta.changes]. *)
Definition d1_run (s : stmt) : Act Z := external (λ w,
  match s (w_db w) with
  | Some (d, n) => (Ok n, set_db d w)
  | None => (Throw (Error "D1_ERROR: constraint failed"), w)
  end).

(** [db.batch(statements)]; the result lists the [meta.changes]. *)
Definition d1_batch (l : list stmt) : Act (list Z) := external (λ w,
  match run_batch l (w_db w) with
  | Some (d, ns) => (Ok ns, set_db d w)
  | None => (Throw (Error "D1_ERROR: constraint failed"), w)
  end).

(** ** R2 *)

(** [bucket.get(key)] and [bucket.head(key)]. *)
Definition r2_read (key : string) : Act (option R2Object) :=
  external (gets (λ w, r2_object (w_bucket w) key)).

(** [bucket.get(key, { range: { offset, length } })]: the chunks of the range. *)
Definition r2_read_range (key : string) (offset len : Z) : Act (option (list bytes)) :=
  external (gets (λ w, (λ o, r2_chunks (w_bucket w) (slice offset (offset + len) (obj_body o)))
                       <$> r2_object (w_bucket w) key)).

(** [bucket.put(key, body, { sha256, onlyIf: { etagDoesNotMatch: "*" } })]: the
    result tells whether an object was stored. *)
Definition r2_write (key : string) (body : bytes) (sha : option string) (absent : bool)
    : Act bool := external (λ w,
  let '(r, b) := r2_put (w_bucket w) key body sha absent in
  match r with
  | PutStored => (Ok true, set_bucket b w)
  | PutPrecondition => (Ok false, set_bucket b w)
  | PutRejected => (Throw (Error "put: The SHA-256 checksum you specified did not match what we received."),
                    set_bucket b w)
  end).

(** [bucket.delete(key)]. *)
Definition r2_remove (key : string) : Act unit :=
  external (modify (λ w, set_bucket (r2_delete (w_bucket w) key) w)).
End world.
Arguments World B : clear implicits.
Arguments Act B A : clear implicits.

(** * The bucket as a finite map, an instance for concrete runs *)

Definition MapBucket : Type := gmap string R2Object.

#[global] Instance MapBucket_R2 `{Sha256} : R2Bucket MapBucket := {|
  r2_object b key := b !! key;
  r2_put b key body sha absent :=
    if match sha with Some h => negb (bool_decide (hex_of (sha256 body) = h)) | None => false end
    then (PutRejected, b)
    else if absent && bool_decide (is_Some (b !! key)) then (PutPrecondition, b)
    else (PutStored,
          <[key := mkR2Object body (match sha with Some _ => Some (sha256 body) | None => None end)]> b);
  r2_delete b key := delete key b;
  r2_chunks b bs := [bs]
|}.

#[global] Instance MapBucket_laws `{Sha256} : R2Laws MapBucket.
Proof.
  split.
  - intros b key body sha absent b' Hp. cbn in Hp.
    destruct (match sha with Some h => _ | None => false end) eqn:Hs; [done|].
    destruct (absent && _) eqn:Ha; [done|]. injection Hp as <-. cbn. split_and!.
    + apply lookup_insert_eq.
    + destruct sha as [h|]; simpl; [|done]. by apply negb_false_iff, bool_decide_eq_true in Hs.
    + intros ->. apply bool_decide_eq_false in Ha. by apply eq_None_not_Some.
    + intros key' Hne. by apply lookup_insert_ne.
  - intros b key body sha absent r b' key' Hp Hr. simpl in Hp.
    repeat case_match; simplify_eq; done.
  - intros b key body sha absent Hs Ha. simpl.
    destruct sha as [h|]; simpl in *.
    + rewrite bool_decide_eq_true_2 by done. simpl. destruct absent; [|done].
      by rewrite Ha, bool_decide_eq_false_2 by (done || by intros [? ?]).
    + destruct absent; [|done].
      by rewrite Ha, bool_decide_eq_false_2 by (done || by intros [? ?]).
  - intros b key body sha o Hs Ho. simpl in *. rewrite Ho.
    destruct sha as [h|]; simpl in *; [|done]. by rewrite bool_decide_eq_true_2.
  - intros b key. apply lookup_delete_eq.
  - intros b key key' Hne. by apply lookup_delete_ne.
  - intros b bs. apply app_nil_r.
Qed.
