(* ===== verification/UsageInv.v ===== *)
(** The usage projection is exact: whatever statements run, the row of a Space in
    [cas_space_usage] holds the aggregates of its node and reservation rows, and
    there is no row for a Space that has neither. *)
From Stdlib Require Import Ascii.
From S2P Require Import Prelude Js MapSum Errors Store SpaceCommits.

(** What the tables say the usage of a Space is. *)
Definition expected_usage (s : AppSpaceScope) (d : Db) : Usage :=
  gadd (nodes_usage s d) (reservations_usage s d).

Definition is_empty_usage (u : Usage) : bool :=
  (node_count u =? 0) && (reserved_bytes u =? 0).

Definition projected (s : AppSpaceScope) (d : Db) : option Usage :=
  if is_empty_usage (expected_usage s d) then None else Some (expected_usage s d).

Definition reservations_positive (d : Db) : Prop :=
  map_Forall (λ _ r, 0 < rv_stored_bytes r) (cas_upload_reservations d).

Definition usage_inv (d : Db) : Prop :=
  reservations_positive d ∧ ∀ s, us_usage <$> (cas_space_usage d !! s) = projected s d.

(** ** The aggregates of changed tables *)

Definition in_scope (s : AppSpaceScope) (k : NodeKey) (u : Usage) : Usage :=
  if decide (fst k = s) then u else gzero.

Lemma nodes_usage_msum s d :
  nodes_usage s d = msum (λ k r, in_scope s k (node_usage r)) (cas_nodes d).
Proof. unfold nodes_usage, nodes_of. by rewrite msum_filter. Qed.

Lemma reservations_usage_msum s d :
  reservations_usage s d
  = msum (λ k r, in_scope s k (reservation_usage r)) (cas_upload_reservations d).
Proof. unfold reservations_usage, reservations_of. by rewrite msum_filter. Qed.

Lemma in_scope_same k u : in_scope (fst k) k u = u.
Proof. unfold in_scope. by rewrite decide_True. Qed.
Lemma in_scope_other s k u : fst k ≠ s → in_scope s k u = gzero.
Proof. intros. unfold in_scope. by rewrite decide_False. Qed.

Section one_table.
Context {A : Type} (f : A → Usage).

Definition table_usage (s : AppSpaceScope) (m : gmap NodeKey A) : Usage :=
  msum (λ k x, in_scope s k (f x)) m.

Lemma table_insert m k x :
  m !! k = None →
  table_usage (fst k) (<[k:=x]> m) = gadd (f x) (table_usage (fst k) m)
  ∧ ∀ s, s ≠ fst k → table_usage s (<[k:=x]> m) = table_usage s m.
Proof.
  intros Hk. unfold table_usage. split.
  - by rewrite msum_insert, in_scope_same.
  - intros s Hs. rewrite msum_insert, in_scope_other by done. apply gzero_add.
Qed.

Lemma table_update m k x y :
  m !! k = Some x →
  table_usage (fst k) (<[k:=y]> m) = gadd (gsub (table_usage (fst k) m) (f x)) (f y)
  ∧ ∀ s, s ≠ fst k → table_usage s (<[k:=y]> m) = table_usage s m.
Proof.
  intros Hk. unfold table_usage. split.
  - by rewrite (msum_update _ m k x y Hk), !in_scope_same.
  - intros s Hs. rewrite (msum_update _ m k x y Hk), !in_scope_other by done.
    by rewrite gsub_zero, gadd_zero.
Qed.

Lemma table_delete m k x :
  m !! k = Some x →
  table_usage (fst k) (delete k m) = gsub (table_usage (fst k) m) (f x)
  ∧ ∀ s, s ≠ fst k → table_usage s (delete k m) = table_usage s m.
Proof.
  intros Hk. unfold table_usage. split.
  - by rewrite (msum_delete_sub _ m k x Hk), in_scope_same.
  - intros s Hs. rewrite (msum_delete_sub _ m k x Hk), in_scope_other by done.
    apply gsub_zero.
Qed.
End one_table.

(** A Space with a node row counts at least one, with a reservation reserves
    something. *)
Lemma usage_field_hom (φ : Usage → Z) {A} (f : A → Usage) (s : AppSpaceScope) (m : gmap NodeKey A) :
  φ gzero = 0 → (∀ a b, φ (gadd a b) = φ a + φ b) →
  φ (table_usage f s m) = msum (λ k x, φ (in_scope s k (f x))) m.
Proof. intros. unfold table_usage. by apply msum_hom. Qed.

Lemma expected_counts s d :
  reservations_positive d →
  node_count (expected_usage s d)
  = mcount (λ k _, bool_decide (fst k = s)) (cas_nodes d)
  ∧ reserved_bytes (expected_usage s d)
    = msum (λ k r, if decide (fst k = s) then rv_stored_bytes r else 0)
        (cas_upload_reservations d)
  ∧ 0 ≤ reserved_bytes (expected_usage s d).
Proof.
  intros Hpos. unfold expected_usage. rewrite nodes_usage_msum, reservations_usage_msum.
  change (node_count (gadd ?a ?b)) with (node_count a + node_count b).
  change (reserved_bytes (gadd ?a ?b)) with (reserved_bytes a + reserved_bytes b).
  change (msum (λ k r, in_scope s k (node_usage r)) (cas_nodes d))
    with (table_usage node_usage s (cas_nodes d)).
  change (msum (λ k r, in_scope s k (reservation_usage r)) (cas_upload_reservations d))
    with (table_usage reservation_usage s (cas_upload_reservations d)).
  rewrite !(usage_field_hom node_count), !(usage_field_hom reserved_bytes) by done.
  assert (msum (λ k x, node_count (in_scope s k (reservation_usage x)))
            (cas_upload_reservations d) = 0) as ->.
  { change 0 with (gzero (G:=Z)). apply msum_zero. intros k x _.
    unfold in_scope. by case_decide. }
  assert (msum (λ k x, reserved_bytes (in_scope s k (node_usage x))) (cas_nodes d) = 0) as ->.
  { change 0 with (gzero (G:=Z)). apply msum_zero. intros k x _.
    unfold in_scope. by case_decide. }
  assert (∀ k x, reserved_bytes (in_scope s k (reservation_usage x))
                 = if decide (fst k = s) then rv_stored_bytes x else 0) as Hr.
  { intros k x. unfold in_scope. by case_decide. }
  split_and!.
  - rewrite Z.add_0_r. unfold mcount. apply msum_ext. intros k x _. unfold in_scope.
    case_decide; [by rewrite bool_decide_eq_true_2 | by rewrite bool_decide_eq_false_2].
  - rewrite Z.add_0_l. apply msum_ext. auto.
  - rewrite Z.add_0_l. apply msum_nonneg. intros k x Hk. rewrite Hr.
    specialize (Hpos k x Hk). simpl in Hpos. case_decide; lia.
Qed.

Lemma projected_of_node k r d :
  reservations_positive d → cas_nodes d !! k = Some r →
  projected (fst k) d = Some (expected_usage (fst k) d).
Proof.
  intros Hpos Hk. unfold projected, is_empty_usage.
  destruct (expected_counts (fst k) d Hpos) as (-> & _ & _).
  assert (0 < mcount (λ k0 _, bool_decide (fst k0 = fst k)) (cas_nodes d)).
  { apply (mcount_pos _ _ k r Hk). by apply bool_decide_eq_true. }
  by destruct (Z.eqb_spec (mcount (λ k0 _, bool_decide (fst k0 = fst k)) (cas_nodes d)) 0); [lia|].
Qed.

Lemma projected_of_reservation k r d :
  reservations_positive d → cas_upload_reservations d !! k = Some r →
  projected (fst k) d = Some (expected_usage (fst k) d).
Proof.
  intros Hpos Hk. unfold projected, is_empty_usage.
  destruct (expected_counts (fst k) d Hpos) as (_ & Hres & _).
  assert (0 < reserved_bytes (expected_usage (fst k) d)).
  { rewrite Hres. apply (msum_pos _ _ k r); [|done|].
    - intros k' r' Hk'. specialize (Hpos k' r' Hk'). simpl in Hpos. case_decide; lia.
    - rewrite decide_True by done. apply (Hpos k r Hk). }
  destruct (Z.eqb_spec (reserved_bytes (expected_usage (fst k) d)) 0); [lia|].
  by rewrite andb_false_r.
Qed.

Lemma empty_usage_zero s d :
  reservations_positive d → is_empty_usage (expected_usage s d) = true →
  expected_usage s d = gzero.
Proof.
  intros Hpos. unfold is_empty_usage.
  destruct (expected_counts s d Hpos) as (-> & Hres & _).
  rewrite andb_true_iff, !Z.eqb_eq. intros [Hn Hr].
  unfold expected_usage. rewrite nodes_usage_msum, reservations_usage_msum, !msum_zero.
  - done.
  - intros k r Hk. unfold in_scope. case_decide as Hs; [|done].
    assert (0 < reserved_bytes (expected_usage s d)); [|lia].
    rewrite Hres. apply (msum_pos _ _ k r); [|done|].
    + intros k' r' Hk'. specialize (Hpos k' r' Hk'). simpl in Hpos. case_decide; lia.
    + rewrite decide_True by done. apply (Hpos k r Hk).
  - intros k r Hk. apply in_scope_other. intros Hs.
    rewrite mcount_zero in Hn. specialize (Hn k r Hk). simpl in Hn.
    by apply bool_decide_eq_false in Hn.
Qed.

(** ** Statements keep the projection exact *)

Definition stmt_preserves (I : Db → Prop) (q : stmt) : Prop :=
  ∀ d d' n, I d → q d = Some (d', n) → I d'.

(** The row of [s] holds the aggregates even when they are zero: what a trigger
    establishes before it prunes. *)
Definition unpruned (s : AppSpaceScope) (d : Db) : Prop :=
  reservations_positive d
  ∧ us_usage <$> (cas_space_usage d !! s) = Some (expected_usage s d)
  ∧ ∀ s', s' ≠ s → us_usage <$> (cas_space_usage d !! s') = projected s' d.

Lemma unpruned_inv s d : unpruned s d → projected s d = Some (expected_usage s d) → usage_inv d.
Proof.
  intros (Hpos & Hrow & Hothers) Hs. split; [done|]. intros s'.
  destruct (decide (s' = s)) as [->|]; [by rewrite Hrow | by apply Hothers].
Qed.

Lemma expected_set_usage s t d : expected_usage s (set_usage t d) = expected_usage s d.
Proof. reflexivity. Qed.
Lemma projected_set_usage s t d : projected s (set_usage t d) = projected s d.
Proof. reflexivity. Qed.

Lemma prune_inv s d : unpruned s d → usage_inv (usage_prune s d).
Proof.
  intros (Hpos & Hrow & Hothers). unfold usage_prune.
  destruct (cas_space_usage d !! s) as [r|] eqn:Hs; [|done]. simpl in Hrow. injection Hrow as Hr.
  destruct ((node_count (us_usage r) =? 0) && (reserved_bytes (us_usage r) =? 0)) eqn:Hz;
    rewrite Hr in Hz; fold (is_empty_usage (expected_usage s d)) in Hz.
  - split; [done|]. intros s'. rewrite projected_set_usage. simpl.
    destruct (decide (s' = s)) as [->|Hne].
    + unfold projected. by rewrite lookup_delete_eq, Hz.
    + rewrite lookup_delete_ne by done. by apply Hothers.
  - apply (unpruned_inv s); [|unfold projected; by rewrite Hz].
    split_and!; [done| |done]. by rewrite Hs, <- Hr.
Qed.

Lemma adjust_inv s new old d d1 d2 :
  usage_inv d → projected s d = Some (expected_usage s d) →
  cas_space_usage d1 = cas_space_usage d → reservations_positive d1 →
  expected_usage s d1 = gsub (gadd (expected_usage s d) new) old →
  (∀ s', s' ≠ s → expected_usage s' d1 = expected_usage s' d) →
  usage_adjust s new old d1 = Some d2 →
  unpruned s d2 ∧ ∃ t, d2 = set_usage t d1.
Proof.
  intros [_ Hinv] Hproj Husage Hpos Hs Hothers. unfold usage_adjust. rewrite Husage.
  specialize (Hinv s) as Hrow. rewrite Hproj in Hrow.
  destruct (cas_space_usage d !! s) as [r|] eqn:Hr; [|done]. simpl in Hrow. injection Hrow as Hrow.
  case_match; [|done]. injection 1 as <-. split; [|by eexists]. split_and!; [done| |].
  - rewrite expected_set_usage, Hs. simpl. by rewrite lookup_insert_eq, <- Hrow.
  - intros s' Hne. rewrite projected_set_usage. unfold projected. rewrite Hothers by done.
    simpl. rewrite lookup_insert_ne by done. apply Hinv.
Qed.

Lemma upsert_inv s u d d1 d2 :
  usage_inv d → cas_space_usage d1 = cas_space_usage d → reservations_positive d1 →
  expected_usage s d1 = gadd (expected_usage s d) u →
  (∀ s', s' ≠ s → expected_usage s' d1 = expected_usage s' d) →
  usage_upsert s u d1 = Some d2 →
  unpruned s d2 ∧ ∃ t, d2 = set_usage t d1.
Proof.
  intros [Hpos0 Hinv] Husage Hpos Hs Hothers. unfold usage_upsert. rewrite Husage.
  specialize (Hinv s) as Hrow. case_match eqn:Hc; [|done]. injection 1 as <-.
  split; [|by eexists]. split_and!; [done| |].
  - rewrite expected_set_usage, Hs. simpl. rewrite lookup_insert_eq. simpl. f_equal.
    destruct (cas_space_usage d !! s) as [r|]; simpl in *; unfold projected in Hrow;
      destruct (is_empty_usage (expected_usage s d)) eqn:He; simplify_eq; [by rewrite Hrow|].
    apply empty_usage_zero in He; [|done]. rewrite He.
    by destruct u.
  - intros s' Hne. rewrite projected_set_usage. unfold projected. rewrite Hothers by done.
    simpl. rewrite lookup_insert_ne by done. apply Hinv.
Qed.

(** A statement that touches none of the three tables. *)
Lemma usage_inv_same d d' :
  usage_inv d → cas_nodes d' = cas_nodes d →
  cas_upload_reservations d' = cas_upload_reservations d →
  cas_space_usage d' = cas_space_usage d → usage_inv d'.
Proof.
  intros [Hpos Hinv] Hn Hr Hu. split.
  - unfold reservations_positive. by rewrite Hr.
  - intros s. rewrite Hu, Hinv. unfold projected, expected_usage.
    rewrite !nodes_usage_msum, !reservations_usage_msum. by rewrite Hn, Hr.
Qed.

(** ** The aggregates after a change of one table *)

Lemma expected_nodes s d :
  expected_usage s d = gadd (table_usage node_usage s (cas_nodes d))
                            (table_usage reservation_usage s (cas_upload_reservations d)).
Proof. unfold expected_usage. by rewrite nodes_usage_msum, reservations_usage_msum. Qed.

Lemma usage_add_left a b c : gadd (gadd (a : Usage) b) c = gadd (gadd b c) a.
Proof. by rewrite <- gadd_assoc, gadd_comm. Qed.

Ltac simpl_tables :=
  cbn [cas_nodes cas_upload_reservations set_nodes set_reservations].

Ltac usage_lia :=
  unfold gadd, gsub, gzero; simpl; unfold usage_map2, usage_zero;
  repeat match goal with |- context [table_usage ?f ?s ?m] =>
    destruct (table_usage f s m) end;
  simpl; f_equal; lia.

Lemma insert_node_usage k r : stmt_preserves usage_inv (insert_node k r).
Proof.
  intros d d' n Hinv. unfold insert_node. destruct (cas_nodes d !! k) eqn:Hk; [done|].
  case_match; [|done]. destruct (usage_upsert _ _ _) as [d2|] eqn:Hu; [|done].
  injection 1 as <- _. destruct (table_insert node_usage (cas_nodes d) k r Hk) as [Hs Ho].
  destruct (upsert_inv (fst k) (node_usage r) d (set_nodes (<[k:=r]> (cas_nodes d)) d) d2)
    as [Hun [t ->]]; try done.
  - apply Hinv.
  - rewrite !expected_nodes. simpl_tables. rewrite Hs. usage_lia.
  - intros s' Hne. rewrite !expected_nodes. simpl_tables. by rewrite Ho.
  - apply (unpruned_inv (fst k)); [done|].
    apply (projected_of_node k r); [apply Hun | apply lookup_insert_eq].
Qed.

Lemma update_node_usage k f : stmt_preserves usage_inv (update_node k f).
Proof.
  intros d d' n Hinv. unfold update_node. destruct (cas_nodes d !! k) as [r|] eqn:Hk.
  2:{ by injection 1 as <- _. }
  case_match; [done|]. case_match; [|done].
  destruct (usage_adjust _ _ _ _) as [d2|] eqn:Hu; [|done]. injection 1 as <- _.
  destruct (table_update node_usage (cas_nodes d) k r (f r) Hk) as [Hs Ho].
  destruct (adjust_inv (fst k) (node_usage (f r)) (node_usage r) d
              (set_nodes (<[k:=f r]> (cas_nodes d)) d) d2) as [Hun [t ->]]; try done.
  - apply (projected_of_node k r); [apply Hinv | done].
  - apply Hinv.
  - rewrite !expected_nodes. simpl_tables. rewrite Hs. usage_lia.
  - intros s' Hne. rewrite !expected_nodes. simpl_tables. by rewrite Ho.
  - apply (unpruned_inv (fst k)); [done|].
    apply (projected_of_node k (f r)); [apply Hun | apply lookup_insert_eq].
Qed.

Lemma delete_node_usage k : stmt_preserves usage_inv (delete_node k).
Proof.
  intros d d' n Hinv. unfold delete_node. destruct (cas_nodes d !! k) as [r|] eqn:Hk.
  2:{ by injection 1 as <- _. }
  case_match; [done|].
  destruct (usage_adjust _ _ _ _) as [d2|] eqn:Hu; [|done]. injection 1 as <- _.
  destruct (table_delete node_usage (cas_nodes d) k r Hk) as [Hs Ho].
  apply prune_inv.
  destruct (adjust_inv (fst k) usage_zero (node_usage r) d
              (set_nodes (delete k (cas_nodes d)) d) d2) as [Hun _]; try done.
  - apply (projected_of_node k r); [apply Hinv | done].
  - apply Hinv.
  - rewrite !expected_nodes. simpl_tables. rewrite Hs. usage_lia.
  - intros s' Hne. rewrite !expected_nodes. simpl_tables. by rewrite Ho.
Qed.

Lemma upsert_reservation_usage k r f : stmt_preserves usage_inv (upsert_reservation k r f).
Proof.
  intros d d' n Hinv. pose proof Hinv as [Hpos _]. unfold upsert_reservation.
  destruct (cas_upload_reservations d !! k) as [old|] eqn:Hk.
  - case_match; [done|]. case_match eqn:Hp; [|done]. apply Z.ltb_lt in Hp.
    destruct (usage_adjust _ _ _ _) as [d2|] eqn:Hu; [|done]. injection 1 as <- _.
    destruct (table_update reservation_usage (cas_upload_reservations d) k old (f old) Hk)
      as [Hs Ho].
    destruct (adjust_inv (fst k) (reservation_usage (f old)) (reservation_usage old) d
      (set_reservations (<[k:=f old]> (cas_upload_reservations d)) d) d2) as [Hun [t ->]]; try done.
    + by apply (projected_of_reservation k old).
    + by apply map_Forall_insert_2.
    + rewrite !expected_nodes. simpl_tables. rewrite Hs. usage_lia.
    + intros s' Hne. rewrite !expected_nodes. simpl_tables. by rewrite Ho.
    + apply (unpruned_inv (fst k)); [done|].
      apply (projected_of_reservation k (f old)); [apply Hun | apply lookup_insert_eq].
  - case_match eqn:Hp; [|done]. apply Z.ltb_lt in Hp.
    destruct (usage_upsert _ _ _) as [d2|] eqn:Hu; [|done]. injection 1 as <- _.
    destruct (table_insert reservation_usage (cas_upload_reservations d) k r Hk) as [Hs Ho].
    destruct (upsert_inv (fst k) (reservation_usage r) d
      (set_reservations (<[k:=r]> (cas_upload_reservations d)) d) d2) as [Hun [t ->]]; try done.
    + by apply map_Forall_insert_2.
    + rewrite !expected_nodes. simpl_tables. rewrite Hs. usage_lia.
    + intros s' Hne. rewrite !expected_nodes. simpl_tables. by rewrite Ho.
    + apply (unpruned_inv (fst k)); [done|].
      apply (projected_of_reservation k r); [apply Hun | apply lookup_insert_eq].
Qed.

Lemma delete_reservation_usage k : stmt_preserves usage_inv (delete_reservation k).
Proof.
  intros d d' n Hinv. pose proof Hinv as [Hpos _]. unfold delete_reservation.
  destruct (cas_upload_reservations d !! k) as [r|] eqn:Hk.
  2:{ by injection 1 as <- _. }
  case_match; [done|].
  destruct (usage_adjust _ _ _ _) as [d2|] eqn:Hu; [|done]. injection 1 as <- _.
  destruct (table_delete reservation_usage (cas_upload_reservations d) k r Hk) as [Hs Ho].
  apply prune_inv.
  destruct (adjust_inv (fst k) usage_zero (reservation_usage r) d
              (set_reservations (delete k (cas_upload_reservations d)) d) d2) as [Hun _]; try done.
  - by apply (projected_of_reservation k r).
  - by apply map_Forall_delete.
  - rewrite !expected_nodes. simpl_tables. rewrite Hs. usage_lia.
  - intros s' Hne. rewrite !expected_nodes. simpl_tables. by rewrite Ho.
Qed.

(** ** Repair *)

Lemma nodes_usage_reserved s d : reserved_bytes (nodes_usage s d) = 0.
Proof.
  unfold nodes_usage. rewrite (msum_hom reserved_bytes) by done.
  change 0 with (gzero (G:=Z)). by apply msum_zero.
Qed.

(** Reservations count in one column only. *)
Lemma reservations_usage_column s d :
  reservations_usage s d = mkUsage 0 0 0 (reserved_bytes (reservations_usage s d)) 0 0 0.
Proof.
  unfold reservations_usage. generalize (reservations_of s d). intros m.
  induction m as [|k r m Hk IH] using map_ind; [by rewrite msum_empty|].
  rewrite msum_insert by done. rewrite IH. reflexivity.
Qed.

Lemma set_reserved_expected s d :
  set_reserved (reserved_bytes (reservations_usage s d)) (nodes_usage s d) = expected_usage s d.
Proof.
  unfold expected_usage. pose proof (nodes_usage_reserved s d) as Hn.
  rewrite (reservations_usage_column s d). destruct (nodes_usage s d). simpl in *. subst.
  unfold set_reserved, usage_map2. simpl. f_equal; lia.
Qed.

(** [d'] is [d] with the row of [s] replaced by [o]. *)
Definition with_row (s : AppSpaceScope) (o : option UsageRow) (d d' : Db) : Prop :=
  ∃ t, d' = set_usage t d ∧ t !! s = o ∧ ∀ s', s' ≠ s → t !! s' = cas_space_usage d !! s'.

Lemma with_row_set s o d d' row :
  with_row s o d d' → with_row s (Some row) d (set_usage (<[s := row]> (cas_space_usage d')) d').
Proof.
  intros (t & -> & _ & Ho). exists (<[s := row]> t). split_and!; [done| |].
  - apply lookup_insert_eq.
  - intros s' Hne. rewrite lookup_insert_ne by done. by apply Ho.
Qed.

Lemma insert_usage_row s o row d d' d'' n :
  with_row s o d d' → insert_usage s row d' = Some (d'', n) → with_row s (Some row) d d''.
Proof.
  intros Hw. unfold insert_usage. case_match; [|done]. injection 1 as <- _.
  by eapply with_row_set.
Qed.

Lemma update_usage_row s o f d d' d'' n :
  with_row s o d d' → update_usage s f d' = Some (d'', n) → with_row s (f <$> o) d d''.
Proof.
  intros Hw. unfold update_usage. destruct Hw as (t & -> & Ht & Ho). simpl. rewrite Ht.
  destruct o as [row|]; simpl.
  - apply insert_usage_row with (o := Some row). by exists t.
  - injection 1 as <- _. by exists t.
Qed.

(** The repair batch rebuilds the row of its Space from the tables, whatever the
    row was, and leaves everything else. *)
Lemma repair_batch_row s at_ d d' ns :
  run_batch (repair_batch s at_) d = Some (d', ns) →
  with_row s (if decide (nodes_of s d = ∅)
              then if decide (reservations_of s d = ∅) then None
                   else Some (mkUsageRow (reservations_usage s d) at_)
              else Some (mkUsageRow (expected_usage s d) at_)) d d'.
Proof.
  unfold repair_batch. cbn [run_batch]. unfold delete_usage. cbn [mbind option_bind].
  set (d1 := set_usage (delete s (cas_space_usage d)) d).
  assert (with_row s None d d1) as H1.
  { exists (delete s (cas_space_usage d)). split_and!; [done|apply lookup_delete_eq|].
    intros. by apply lookup_delete_ne. }
  destruct (insert_usage_of_nodes s d1) as [[d2 n2]|] eqn:E2; [|done]. cbn [mbind option_bind].
  assert (with_row s (if decide (nodes_of s d = ∅) then None
                      else Some (mkUsageRow (nodes_usage s d) 0)) d d2) as H2.
  { unfold insert_usage_of_nodes in E2. change (nodes_of s d1) with (nodes_of s d) in E2.
    case_decide; [by injection E2 as <- _|]. simpl in E2. rewrite lookup_delete_eq in E2.
    by eapply insert_usage_row. }
  destruct (insert_usage_of_reservations s d2) as [[d3 n3]|] eqn:E3; [|done].
  cbn [mbind option_bind].
  assert (with_row s (if decide (nodes_of s d = ∅)
                      then if decide (reservations_of s d = ∅) then None
                           else Some (mkUsageRow (reservations_usage s d) 0)
                      else Some (mkUsageRow (nodes_usage s d) 0)) d d3) as H3.
  { unfold insert_usage_of_reservations in E3. destruct H2 as (t & -> & Ht & Ho).
    change (reservations_of s (set_usage t d)) with (reservations_of s d) in E3.
    simpl in E3. rewrite Ht in E3.
    destruct (decide (nodes_of s d = ∅)), (decide (reservations_of s d = ∅));
      try (injection E3 as <- _; by exists t).
    eapply insert_usage_row; [|exact E3]. by exists t. }
  destruct (update_reserved s d3) as [[d4 n4]|] eqn:E4; [|done]. cbn [mbind option_bind].
  destruct (update_repaired s at_ d4) as [[d5 n5]|] eqn:E5; [|done]. cbn [mbind option_bind].
  injection 1 as <- _.
  assert (reservations_usage s d3 = reservations_usage s d) as Hr
    by (by destruct H3 as (t & -> & _)).
  pose proof (update_usage_row _ _ _ _ _ _ _ H3 E4) as H4.
  pose proof (update_usage_row _ _ _ _ _ _ _ H4 E5) as H5. rewrite Hr in H5. revert H5.
  destruct (decide (nodes_of s d = ∅)), (decide (reservations_of s d = ∅)); simpl;
    rewrite ?set_reserved_expected; try done.
  by rewrite (reservations_usage_column s d).
Qed.

Lemma projected_rows s d :
  reservations_positive d →
  projected s d = if decide (nodes_of s d = ∅)
                  then if decide (reservations_of s d = ∅) then None
                       else Some (reservations_usage s d)
                  else Some (expected_usage s d).
Proof.
  intros Hpos. destruct (decide (nodes_of s d = ∅)) as [Hn|Hn].
  - assert (nodes_usage s d = gzero) as Hn0 by (unfold nodes_usage; by rewrite Hn, msum_empty).
    destruct (decide (reservations_of s d = ∅)) as [Hr|Hr].
    + unfold projected, expected_usage. rewrite Hn0. unfold reservations_usage.
      by rewrite Hr, msum_empty.
    + apply map_choose in Hr as (k & r & Hk). apply map_lookup_filter_Some in Hk as [Hk Hs].
      simpl in Hs. subst s. rewrite (projected_of_reservation k r) by done.
      unfold expected_usage. rewrite Hn0. f_equal. apply gzero_add.
  - apply map_choose in Hn as (k & r & Hk). apply map_lookup_filter_Some in Hk as [Hk Hs].
    simpl in Hs. subst s. by apply (projected_of_node k r).
Qed.

(** After a repair the projection of the Space is exact even if it was not. *)
Lemma repair_batch_usage s at_ d d' ns :
  reservations_positive d →
  (∀ s', s' ≠ s → us_usage <$> (cas_space_usage d !! s') = projected s' d) →
  run_batch (repair_batch s at_) d = Some (d', ns) → usage_inv d'.
Proof.
  intros Hpos Hothers H. apply repair_batch_row in H as (t & -> & Ht & Ho).
  split; [done|]. intros s'. rewrite projected_set_usage. simpl.
  destruct (decide (s' = s)) as [->|Hne]; [|by rewrite Ho, Hothers].
  rewrite Ht, projected_rows by done. by repeat case_decide.
Qed.
