(* ===== verification/RefInv.v ===== *)
(** The reference graph the database keeps: every edge joins two nodes that
    exist, the counters of a node are the number of edges into it and its Root Ref
    balance, and the graph has no cycle. The invariant [ref_inv] and what each
    kind of statement does to it. *)
From Stdlib Require Import Ascii.
From S2P Require Import Prelude Js MapSum Errors Store SpaceCommits World DoNames.

(** The node an edge of [p] leads to: edges stay inside a Space. *)
Definition child_key (p : NodeKey) (c : string) : NodeKey := (fst p, c).

(** [SELECT COUNT FROM cas_edges WHERE ... child_hash = ?]. *)
Definition edge_refs (k : NodeKey) (d : Db) : Z :=
  mcount (λ (e : NodeKey * nat) c, bool_decide (child_key (fst e) c = k)) (cas_edges d).

Definition ranked (rank : NodeKey → nat) (d : Db) : Prop :=
  ∀ p i c, cas_edges d !! (p, i) = Some c → (rank (child_key p c) < rank p)%nat.

Record ref_inv (d : Db) : Prop := {
  ri_parent : ∀ p i c, cas_edges d !! (p, i) = Some c → is_Some (cas_nodes d !! p);
  ri_child : ∀ p i c, cas_edges d !! (p, i) = Some c → is_Some (cas_nodes d !! child_key p c);
  ri_count : ∀ k r, cas_nodes d !! k = Some r → child_ref_count r = edge_refs k d;
  ri_root : ∀ k r, cas_nodes d !! k = Some r →
              root_ref_count r = default 0 (cas_app_root_refs d !! k);
  ri_balance : ∀ k n, cas_app_root_refs d !! k = Some n → 0 < n ∧ is_Some (cas_nodes d !! k);
  ri_acyclic : ∃ rank, ranked rank d;
  ri_keys : ∀ k r, cas_nodes d !! k = Some r → node_key_ok k
}.

(** ** What statements change *)

Lemma update_node_Some k f d d' n :
  update_node k f d = Some (d', n) →
  (cas_nodes d !! k = None ∧ d' = d) ∨
  ∃ r t, cas_nodes d !! k = Some r ∧ d' = set_usage t (set_nodes (<[k:=f r]> (cas_nodes d)) d)
         ∧ node_check (f r) = true.
Proof.
  unfold update_node. destruct (cas_nodes d !! k) as [r|]; [|injection 1 as <- _; by left].
  case_match; [done|]. case_match; [|done]. unfold usage_adjust.
  case_match; cbn [mbind option_bind].
  - case_match; [|done]. injection 1 as <- _. right. eexists _, _. done.
  - injection 1 as <- _. right. exists r, (cas_space_usage d). split_and!; try done.
Qed.

Lemma insert_node_Some k r d d' n :
  insert_node k r d = Some (d', n) →
  cas_nodes d !! k = None
  ∧ ∃ t, d' = set_usage t (set_nodes (<[k:=r]> (cas_nodes d)) d).
Proof.
  unfold insert_node. destruct (cas_nodes d !! k); [done|]. case_match; [|done].
  unfold usage_upsert. case_match; [|done]. injection 1 as <- _. split; [done|]. by eexists.
Qed.

Lemma usage_prune_shape s d : ∃ t, usage_prune s d = set_usage t d.
Proof.
  assert (d = set_usage (cas_space_usage d) d) as Hd by by destruct d.
  unfold usage_prune. repeat case_match; by eexists.
Qed.

Lemma usage_adjust_shape s new old d d' :
  usage_adjust s new old d = Some d' → ∃ t, d' = set_usage t d.
Proof.
  assert (d = set_usage (cas_space_usage d) d) as Hd by by destruct d.
  unfold usage_adjust. repeat case_match; intros; simplify_eq; by eexists.
Qed.

Lemma delete_node_Some k d d' n :
  delete_node k d = Some (d', n) →
  (cas_nodes d !! k = None ∧ d' = d) ∨
  ∃ r t, cas_nodes d !! k = Some r ∧ d' = set_usage t (set_nodes (delete k (cas_nodes d)) d).
Proof.
  unfold delete_node. destruct (cas_nodes d !! k) as [r|] eqn:Hk; [|injection 1 as <- _; by left].
  case_match; [done|]. destruct (usage_adjust _ _ _ _) as [d1|] eqn:Ha; [|done].
  apply usage_adjust_shape in Ha as [t ->]. injection 1 as <- _. right.
  destruct (usage_prune_shape (fst k) (set_usage t (set_nodes (delete k (cas_nodes d)) d)))
    as [t' ->]. by exists r, t'.
Qed.

(** The statements that leave nodes, edges and Root Refs alone. *)
Definition same_refs (d d' : Db) : Prop :=
  cas_nodes d' = cas_nodes d ∧ cas_edges d' = cas_edges d
  ∧ cas_app_root_refs d' = cas_app_root_refs d.

Lemma upsert_reservation_Some k r f d d' n :
  upsert_reservation k r f d = Some (d', n) → ∃ t u, d' = set_usage u (set_reservations t d).
Proof.
  unfold upsert_reservation. intros H. repeat (case_match; try discriminate).
  - destruct (usage_adjust _ _ _ _) as [d1|] eqn:Ha; [|done].
    apply usage_adjust_shape in Ha as [t ->]. injection H as <- _. by eexists _, _.
  - unfold usage_upsert in H. case_match; [|done]. injection H as <- _. by eexists _, _.
Qed.

Lemma delete_reservation_Some k d d' n :
  delete_reservation k d = Some (d', n) → d' = d ∨ ∃ t u, d' = set_usage u (set_reservations t d).
Proof.
  unfold delete_reservation. intros H. case_match; [|injection H as <- _; by left].
  case_match; [done|]. destruct (usage_adjust _ _ _ _) as [d1|] eqn:Ha; [|done].
  apply usage_adjust_shape in Ha as [t ->]. injection H as <- _. right.
  match goal with |- context [usage_prune ?s ?x] => destruct (usage_prune_shape s x) as [t' ->] end.
  by eexists _, _.
Qed.

Lemma edge_refs_same k d d' : cas_edges d' = cas_edges d → edge_refs k d' = edge_refs k d.
Proof. unfold edge_refs. by intros ->. Qed.

Lemma ref_inv_same d d' : same_refs d d' → ref_inv d → ref_inv d'.
Proof.
  intros (Hn & He & Hr) [H1 H2 H3 H4 H5 [rank H6] H7].
  split; rewrite ?Hn, ?He, ?Hr; try done.
  - intros k r Hk. rewrite (edge_refs_same k d d' He). by apply H3.
  - exists rank. unfold ranked. by rewrite He.
Qed.

Lemma same_refs_usage t d : same_refs d (set_usage t d).
Proof. done. Qed.

(** ** One node *)

(** A node no edge leads to. *)
Definition unreferenced (k : NodeKey) (d : Db) : Prop :=
  ∀ p i c, cas_edges d !! (p, i) = Some c → child_key p c ≠ k.

Lemma unreferenced_count k d : edge_refs k d = 0 ↔ unreferenced k d.
Proof.
  unfold edge_refs, unreferenced. rewrite mcount_zero. split.
  - intros H p i c He Hk. specialize (H (p, i) c He). simpl in H.
    by apply bool_decide_eq_false in H.
  - intros H [p i] c He. apply bool_decide_eq_false. by apply (H p i c).
Qed.

Lemma absent_unreferenced k d : ref_inv d → cas_nodes d !! k = None → unreferenced k d.
Proof.
  intros Hinv Hk p i c He Hc. destruct (ri_child d Hinv p i c He) as [r Hr].
  rewrite Hc, Hk in Hr. done.
Qed.

(** Inserting a node that did not exist. *)
Lemma insert_node_ref k r d d' n :
  ref_inv d → node_key_ok k → child_ref_count r = 0 → root_ref_count r = 0 →
  insert_node k r d = Some (d', n) →
  ref_inv d' ∧ cas_nodes d !! k = None ∧ cas_edges d' = cas_edges d
  ∧ cas_nodes d' = <[k:=r]> (cas_nodes d).
Proof.
  intros Hinv Hok Hc Hr H. apply insert_node_Some in H as (Hk & t & ->).
  pose proof (absent_unreferenced k d Hinv Hk) as Hun. split_and!; try done.
  destruct Hinv as [H1 H2 H3 H4 H5 H6 H7]. split; simpl; try done.
  - intros p i c He. destruct (decide (p = k)) as [->|]; [by rewrite lookup_insert_eq|].
    rewrite lookup_insert_ne by done. eauto.
  - intros p i c He. rewrite lookup_insert_ne by (symmetry; eauto). eauto.
  - intros k' r' Hk'. rewrite edge_refs_same with (d := d) by done.
    apply lookup_insert_Some in Hk' as [[<- <-]|[_ Hk']]; [|by apply H3].
    rewrite Hc. symmetry. by apply unreferenced_count.
  - intros k' r' Hk'. apply lookup_insert_Some in Hk' as [[<- <-]|[_ Hk']]; [|by apply H4].
    rewrite Hr. destruct (cas_app_root_refs d !! k) as [m|] eqn:Hm; [|done].
    apply H5 in Hm as [_ [? Hm]]. congruence.
  - intros k' m Hm. destruct (H5 k' m Hm) as [? [r' Hr']]. split; [done|].
    rewrite lookup_insert_ne; [eauto | congruence].
  - intros k' r' Hk'. apply lookup_insert_Some in Hk' as [[<- _]|[_ Hk']]; [done | eauto].
Qed.

(** Updating columns other than the counters and what the content says. *)
Definition keeps_counts (f : NodeRow → NodeRow) : Prop :=
  ∀ r, child_ref_count (f r) = child_ref_count r ∧ root_ref_count (f r) = root_ref_count r
       ∧ content_size (f r) = content_size r ∧ content_type (f r) = content_type r.

Lemma update_node_ref k f d d' n :
  keeps_counts f → ref_inv d → update_node k f d = Some (d', n) → ref_inv d'.
Proof.
  intros Hf Hinv [[_ ->]|(r & t & Hk & -> & _)]%update_node_Some; [done|].
  destruct Hinv as [H1 H2 H3 H4 H5 H6 H7]. destruct (Hf r) as (Hfc & Hfr & _).
  assert (∀ k', is_Some (cas_nodes d !! k') → is_Some (<[k:=f r]> (cas_nodes d) !! k')) as Hdom.
  { intros k' [r' Hr']. destruct (decide (k' = k)) as [->|].
    - by rewrite lookup_insert_eq.
    - rewrite lookup_insert_ne by done. eauto. }
  split; simpl; try done; eauto.
  - intros k' r' Hk'. rewrite edge_refs_same with (d := d) by done.
    apply lookup_insert_Some in Hk' as [[<- <-]|[_ Hk']]; [|by apply H3].
    rewrite Hfc. by apply H3.
  - intros k' r' Hk'. apply lookup_insert_Some in Hk' as [[<- <-]|[_ Hk']]; [|by apply H4].
    rewrite Hfr. by apply H4.
  - intros k' m Hm. destruct (H5 k' m Hm). split; [done | by apply Hdom].
  - intros k' r' Hk'. apply lookup_insert_Some in Hk' as [[<- _]|[_ Hk']]; eauto.
Qed.

(** ** Edges *)

(** [SET child_ref_count = child_ref_count + n]. *)
Definition add_child_refs (n : Z) (r : NodeRow) : NodeRow :=
  mkNodeRow (content_size r) (content_type r) (lease_started_at r) (lease_expires_at r)
    (child_ref_count r + n) (root_ref_count r) (ready r) (canonical_stored_bytes r)
    (canonical_observed_at r).

Definition same_nodes (d d' : Db) : Prop :=
  ∀ k, is_Some (cas_nodes d' !! k) ↔ is_Some (cas_nodes d !! k).

Lemma run_batch_cons q l d d' ns :
  run_batch (q :: l) d = Some (d', ns) →
  ∃ d1 n ns', q d = Some (d1, n) ∧ run_batch l d1 = Some (d', ns') ∧ ns = n :: ns'.
Proof.
  cbn [run_batch]. destruct (q d) as [[d1 n]|]; [|done]. cbn [mbind option_bind].
  destruct (run_batch l d1) as [[d2 ns']|] eqn:Hl; [|done]. injection 1 as <- <-.
  exists d1, n, ns'. by rewrite Hl.
Qed.

Lemma run_batch_app l1 l2 d d' ns :
  run_batch (l1 ++ l2) d = Some (d', ns) →
  ∃ d1 ns1 ns2, run_batch l1 d = Some (d1, ns1) ∧ run_batch l2 d1 = Some (d', ns2)
                ∧ ns = ns1 ++ ns2.
Proof.
  revert d ns. induction l1 as [|q l1 IH]; intros d ns H.
  - by exists d, [], ns.
  - apply run_batch_cons in H as (d1 & n & ns' & Hq & Hl & ->).
    apply IH in Hl as (d2 & ns1 & ns2 & H1 & H2 & ->).
    exists d2, (n :: ns1), ns2. cbn [run_batch]. by rewrite Hq; cbn; rewrite H1.
Qed.

Lemma insert_same_nodes k r (d : Db) :
  is_Some (cas_nodes d !! k) →
  ∀ k', is_Some (<[k:=r]> (cas_nodes d) !! k') ↔ is_Some (cas_nodes d !! k').
Proof.
  intros Hk k'. destruct (decide (k' = k)) as [->|].
  - rewrite lookup_insert_eq. split; eauto.
  - by rewrite lookup_insert_ne.
Qed.

(** A new edge out of a node nothing references, counted at its target. *)
Lemma add_edge_ref p i c d d' ns :
  ref_inv d → is_Some (cas_nodes d !! p) → unreferenced p d →
  child_key p c ≠ p → is_Some (cas_nodes d !! child_key p c) →
  run_batch [insert_edge p i c; update_node (child_key p c) (add_child_refs 1)] d = Some (d', ns) →
  ref_inv d' ∧ unreferenced p d' ∧ same_nodes d d'.
Proof.
  intros Hinv Hp Hun Hne [rc Hc] H.
  apply run_batch_cons in H as (d1 & n1 & ns1 & H1 & H & _).
  apply run_batch_cons in H as (d2 & n2 & ns2 & H2 & H & _). injection H as <- _.
  unfold insert_edge in H1. destruct (cas_edges d !! (p, i)) eqn:Hi; [done|].
  injection H1 as <- _.
  apply update_node_Some in H2 as [[H2 _]|(r & t & Hr & -> & _)]; simpl in *; [congruence|].
  simplify_eq. pose proof (insert_same_nodes (child_key p c) (add_child_refs 1 rc) d ltac:(eauto)) as Hsame.
  destruct Hinv as [I1 I2 I3 I4 I5 [rank I6] I7].
  assert (unreferenced p (set_edges (<[(p, i):=c]> (cas_edges d)) d)) as Hun'.
  { intros p' i' c' He. simpl in He.
    apply lookup_insert_Some in He as [[[= <- <-] <-]|[_ He]]; [done | eauto]. }
  assert (∀ k, mcount (λ (e : NodeKey * nat) c, bool_decide (child_key (fst e) c = k))
                 (<[(p, i):=c]> (cas_edges d))
               = bool_Z (bool_decide (child_key p c = k)) + edge_refs k d) as Hcount.
  { intros k. unfold mcount at 1. by rewrite msum_insert by done. }
  split_and!; [|exact Hun'|intros k; apply Hsame].
  split; simpl.
  - intros p' i' c' He. apply Hsame.
    apply lookup_insert_Some in He as [[[= <- <-] <-]|[_ He]]; eauto.
  - intros p' i' c' He. apply Hsame.
    apply lookup_insert_Some in He as [[[= <- <-] <-]|[_ He]]; eauto.
  - intros k r' Hk. unfold edge_refs. simpl. rewrite Hcount.
    apply lookup_insert_Some in Hk as [[<- <-]|[Hk Hk']].
    + rewrite bool_decide_eq_true_2 by done. simpl. rewrite (I3 _ _ Hc). lia.
    + rewrite bool_decide_eq_false_2 by done. simpl. by apply I3.
  - intros k r' Hk. apply lookup_insert_Some in Hk as [[<- <-]|[_ Hk]]; [|by apply I4].
    simpl. by apply I4.
  - intros k m Hm. destruct (I5 k m Hm). split; [done|]. by apply Hsame.
  - exists (λ k, if decide (k = p) then S (rank p + rank (child_key p c)) else rank k).
    intros p' i' c' He. simpl in He. rewrite (decide_False (P := child_key p' c' = p)).
    2:{ by apply (Hun' p' i'). }
    apply lookup_insert_Some in He as [[[= <- <-] <-]|[_ He]].
    + rewrite decide_True by done. lia.
    + specialize (I6 _ _ _ He). case_decide as Hpp; [subst p'|]; lia.
  - intros k r' Hk. apply lookup_insert_Some in Hk as [[<- _]|[_ Hk]]; eauto.
Qed.

(** ** Deleting a node with its edges *)

(** The children of a node: [SELECT child_hash, COUNT ... GROUP BY child_hash]. *)
Definition edges_between (p : NodeKey) (c : string) (d : Db) : Z :=
  mcount (λ (e : NodeKey * nat) c', bool_decide (fst e = p ∧ c' = c)) (cas_edges d).

(** The counters are off by [debt]. *)
Definition owes (s : AppSpaceScope) (debt : string → Z) (d : Db) : Prop :=
  ∀ k r, cas_nodes d !! k = Some r →
    child_ref_count r = edge_refs k d + (if decide (fst k = s) then debt (snd k) else 0).

Lemma pay_child s c n debt d d' m :
  owes s debt d → update_node (s, c) (add_child_refs (- n)) d = Some (d', m) →
  owes s (λ c', if decide (c' = c) then debt c' - n else debt c') d'
  ∧ same_nodes d d' ∧ cas_edges d' = cas_edges d ∧ cas_app_root_refs d' = cas_app_root_refs d
  ∧ (∀ k r', cas_nodes d' !! k = Some r' →
       ∃ r, cas_nodes d !! k = Some r ∧ root_ref_count r' = root_ref_count r).
Proof.
  intros Hd [[Hk ->]|(r & t & Hr & -> & _)]%update_node_Some.
  - split_and!; try done; [|by eauto]. intros k r Hr. rewrite (Hd k r Hr). f_equal.
    case_decide as Hs; [|done]. rewrite decide_False; [done|]. intros <-. subst s.
    destruct k; simpl in *. congruence.
  - split_and!; try done; simpl.
    + intros k r' Hk. simpl in Hk. rewrite (edge_refs_same k d) by done.
      apply lookup_insert_Some in Hk as [[<- <-]|[Hne Hk]]; simpl.
      * rewrite decide_True, decide_True by done. rewrite (Hd _ _ Hr). simpl.
        rewrite decide_True by done. lia.
      * rewrite (Hd k r' Hk). f_equal. case_decide as Hs; [|done].
        rewrite decide_False; [done|]. intros <-. subst s. by destruct k.
    + intros k. apply insert_same_nodes. eauto.
    + intros k r' Hk. apply lookup_insert_Some in Hk as [[<- <-]|[_ Hk]]; eauto.
Qed.

(** [commitDeletion] of a node nothing references: the edges and the row go, and
    the counter of every child falls by its number of edges. *)
Definition deletion_batch (k : NodeKey) (children : list (string * Z)) : list stmt :=
  delete_edges k :: delete_node k
  :: ((λ c : string * Z, update_node (child_key k (fst c)) (add_child_refs (- snd c)))
        <$> children).

Lemma pay_children s (children : list (string * Z)) debt d d' ns :
  NoDup (fst <$> children) →
  owes s debt d →
  run_batch ((λ c : string * Z, update_node (s, fst c) (add_child_refs (- snd c))) <$> children) d
  = Some (d', ns) →
  owes s (λ c', debt c' - default 0 ((list_to_map children : gmap string Z) !! c')) d'
  ∧ same_nodes d d' ∧ cas_edges d' = cas_edges d ∧ cas_app_root_refs d' = cas_app_root_refs d
  ∧ (∀ k r', cas_nodes d' !! k = Some r' →
       ∃ r, cas_nodes d !! k = Some r ∧ root_ref_count r' = root_ref_count r).
Proof.
  revert debt d ns. induction children as [|[c n] children IH]; intros debt d ns Hnd Hd H.
  - injection H as <- _. split_and!; try done; [|by eauto].
    intros k r Hk. rewrite (Hd k r Hk). case_decide; [|done].
    change (list_to_map [] : gmap string Z) with (∅ : gmap string Z). rewrite lookup_empty. simpl. lia.
  - apply run_batch_cons in H as (d1 & m & ns' & H1 & H & _). cbn [fst snd] in H1.
    apply NoDup_cons in Hnd as [Hc Hnd].
    destruct (pay_child s c n debt d d1 m Hd H1) as (Hd1 & Hs1 & He1 & Hr1 & Hk1).
    destruct (IH _ _ _ Hnd Hd1 H) as (Hd2 & Hs2 & He2 & Hr2 & Hk2).
    split_and!.
    + intros k r Hk. rewrite (Hd2 k r Hk). f_equal. case_decide; [|done].
      change (list_to_map ((c, n) :: children) : gmap string Z)
        with (<[c:=n]> (list_to_map children : gmap string Z)).
      destruct (decide (snd k = c)) as [->|Hne].
      * rewrite lookup_insert_eq. simpl.
        rewrite (not_elem_of_list_to_map_1 children c) by done. simpl. lia.
      * by rewrite lookup_insert_ne by congruence.
    + intros k. etrans; [apply Hs2 | apply Hs1].
    + congruence.
    + congruence.
    + intros k r' Hk. destruct (Hk2 k r' Hk) as (r1 & Hr1' & Hrr). destruct (Hk1 k r1 Hr1') as (r & ? & ?).
      exists r. split; [done | congruence].
Qed.

(** [children] lists the edges out of [p], grouped. *)
Definition groups (p : NodeKey) (children : list (string * Z)) (d : Db) : Prop :=
  NoDup (fst <$> children)
  ∧ ∀ c, default 0 ((list_to_map children : gmap string Z) !! c) = edges_between p c d.

Lemma delete_edges_refs p k d :
  edge_refs k d
  = mcount (λ (e : NodeKey * nat) c, bool_decide (child_key (fst e) c = k))
      (filter (λ e : NodeKey * nat * string, fst (fst e) ≠ p) (cas_edges d))
    + (if decide (fst k = fst p) then edges_between p (snd k) d else 0).
Proof.
  unfold edge_refs. rewrite mcount_filter.
  rewrite (mcount_split _ (λ (e : NodeKey * nat) c, bool_decide (fst e ≠ p))).
  f_equal. case_decide as Hs.
  - apply mcount_ext. intros [q i] c _. cbn [fst]. rewrite bool_decide_not, negb_involutive.
    destruct k as [s h]. cbn [fst snd] in *. subst s.
    rewrite <- bool_decide_and. apply bool_decide_ext. unfold child_key. split.
    + intros [[= _ ->] ->]. done.
    + intros [-> ->]. done.
  - apply mcount_zero. intros [q i] c _. cbn [fst]. rewrite bool_decide_not, negb_involutive.
    rewrite <- bool_decide_and. apply bool_decide_eq_false. unfold child_key. intros [<- ->]. done.
Qed.

Lemma deletion_ref k children d d' ns :
  ref_inv d → unreferenced k d → cas_app_root_refs d !! k = None →
  is_Some (cas_nodes d !! k) → groups k children d →
  run_batch (deletion_batch k children) d = Some (d', ns) →
  ref_inv d' ∧ cas_nodes d' !! k = None
  ∧ (∀ k', k' ≠ k → is_Some (cas_nodes d' !! k') ↔ is_Some (cas_nodes d !! k')).
Proof.
  intros Hinv Hun Hroot [r0 Hk] [Hnd Hgroups] H. unfold deletion_batch in H.
  apply run_batch_cons in H as (d1 & n1 & ns1 & H1 & H & _). injection H1 as <- _.
  apply run_batch_cons in H as (d2 & n2 & ns2 & H2 & H & _).
  apply delete_node_Some in H2 as [[H2 _]|(r & t & _ & ->)]; simpl in *; [congruence|].
  set (kept := filter (λ e : NodeKey * nat * string, fst (fst e) ≠ k) (cas_edges d)) in *.
  set (d2 := set_usage t _) in *. destruct Hinv as [I1 I2 I3 I4 I5 [rank I6] I7].
  assert (owes (fst k) (λ c, edges_between k c d) d2) as Howes.
  { intros k' r' Hk'. simpl in Hk'. apply lookup_delete_Some in Hk' as [Hne Hk'].
    rewrite (I3 k' r' Hk'), (delete_edges_refs k). unfold d2, edge_refs. simpl.
    fold kept. f_equal. }
  destruct (pay_children (fst k) children _ d2 d' ns2 Hnd Howes H)
    as (Howes' & Hsame & He & Hr & Hrows).
  assert (∀ p i c, cas_edges d' !! (p, i) = Some c → cas_edges d !! (p, i) = Some c ∧ p ≠ k) as Hkept.
  { intros p i c Hp. rewrite He in Hp. simpl in Hp.
    apply map_lookup_filter_Some in Hp as [? Hne]. done. }
  assert (∀ k', k' ≠ k → is_Some (cas_nodes d' !! k') ↔ is_Some (cas_nodes d !! k')) as Hdom.
  { intros k' Hne. etrans; [apply Hsame|]. simpl. by rewrite lookup_delete_ne. }
  split_and!; [| |done].
  - split.
    + intros p i c Hp. apply Hkept in Hp as [Hp Hne]. apply Hdom; eauto.
    + intros p i c Hp. apply Hkept in Hp as [Hp Hne]. apply Hdom; eauto.
    + intros k' r' Hk'. rewrite (Howes' k' r' Hk').
      case_decide; [rewrite Hgroups|]; lia.
    + intros k' r' Hk'. rewrite Hr. destruct (Hrows k' r' Hk') as (r1 & Hr1 & ->).
      simpl in Hr1. apply lookup_delete_Some in Hr1 as [_ Hr1]. by apply I4.
    + intros k' m Hm. rewrite Hr in Hm. simpl in Hm. destruct (I5 k' m Hm). split; [done|].
      apply Hdom; [congruence | done].
    + exists rank. intros p i c Hp. apply Hkept in Hp as [Hp _]. eauto.
    + intros k' r' Hk'. destruct (Hrows k' r' Hk') as (r1 & Hr1 & _).
      simpl in Hr1. apply lookup_delete_Some in Hr1 as [_ Hr1]. eauto.
  - assert (¬ is_Some (cas_nodes d' !! k)) as Hnone.
    { rewrite (Hsame k). simpl. rewrite lookup_delete_eq. by intros [? ?]. }
    by apply eq_None_not_Some.
Qed.

(** ** Root Refs *)

Lemma root_ref_ref k delta refCount d d' ns :
  ref_inv d → is_Some (cas_nodes d !! k) →
  default 0 refCount = default 0 (cas_app_root_refs d !! k) + delta →
  run_batch (root_ref_stmts k delta refCount) d = Some (d', ns) →
  ref_inv d' ∧ same_nodes d d'
  ∧ cas_app_root_refs d' !! k = refCount
  ∧ ∀ k', k' ≠ k → cas_app_root_refs d' !! k' = cas_app_root_refs d !! k'.
Proof.
  intros Hinv [r0 Hk] Hbal H. unfold root_ref_stmts in H.
  apply run_batch_cons in H as (d1 & n1 & ns1 & H1 & H & _).
  apply run_batch_cons in H as (d2 & n2 & ns2 & H2 & H & _). injection H as <- _.
  apply update_node_Some in H1 as [[H1 _]|(r & t & Hr & -> & _)]; [congruence|].
  pose proof (insert_same_nodes k (add_root_refs delta r) d ltac:(eauto)) as Hsame.
  destruct Hinv as [I1 I2 I3 I4 I5 [rank I6] I7].
  assert (∃ t', d2 = set_root_refs t' (set_usage t (set_nodes (<[k:=add_root_refs delta r]> (cas_nodes d)) d))
          ∧ t' !! k = refCount ∧ (∀ k', k' ≠ k → t' !! k' = cas_app_root_refs d !! k')
          ∧ (∀ n, refCount = Some n → 0 < n)) as (t' & -> & Hk' & Ho & Hpos).
  { destruct refCount as [n|]; simpl in H2.
    - unfold upsert_root_ref in H2. case_match eqn:Hp; [|done]. injection H2 as <- _.
      eexists. split_and!; [reflexivity|apply lookup_insert_eq| |].
      + intros k' Hne. by apply lookup_insert_ne.
      + intros n' [= <-]. by apply Z.ltb_lt.
    - injection H2 as <- _. eexists. split_and!; [reflexivity|apply lookup_delete_eq| |done].
      intros k' Hne. by apply lookup_delete_ne. }
  split_and!; [| |done|done].
  - split; simpl.
    + intros p i c He. apply Hsame. eauto.
    + intros p i c He. apply Hsame. eauto.
    + intros k' r' Hr'. rewrite (edge_refs_same k' d) by done.
      apply lookup_insert_Some in Hr' as [[<- <-]|[_ Hr']]; [by apply (I3 k r Hr) | by apply I3].
    + intros k' r' Hr'. apply lookup_insert_Some in Hr' as [[<- <-]|[Hne Hr']].
      * rewrite Hk'. simpl. rewrite (I4 _ _ Hr). lia.
      * rewrite Ho by done. by apply I4.
    + intros k' m Hm. destruct (decide (k' = k)) as [->|Hne].
      * split; [apply Hpos; congruence|]. apply Hsame. eauto.
      * rewrite Ho in Hm by done. destruct (I5 k' m Hm). split; [done|]. by apply Hsame.
    + by exists rank.
    + intros k' r' Hr'. apply lookup_insert_Some in Hr' as [[<- _]|[_ Hr']]; eauto.
  - intros k'. apply Hsame.
Qed.
