(* ===== verification/RootInv.v ===== *)
(** The Root Ref ledger: the revision of an App counts its events, every event has
    its request record, and the balances are what replaying the events gives. A
    commit of a plan that is true of the database keeps all of it. *)
From Stdlib Require Import Ascii.
From S2P Require Import Prelude Js MapSum Errors Store SpaceCommits DoNames World.
From S2P Require Import UsageInv RefInv.

(** The change a list of entries makes to the balance of one hash. *)
Fixpoint delta_for (hash : string) (entries : list (string * Z)) : Z :=
  match entries with
  | [] => 0
  | (h, n) :: entries => (if decide (h = hash) then n else 0) + delta_for hash entries
  end.

(** The balance the events of a database leave a node, [deltas] telling what each
    event changes. *)
Definition replayed (deltas : string * Z → list (string * Z)) (k : NodeKey) (d : Db) : Z :=
  msum (λ (key : string * Z) (e : EventRow),
    if decide ((fst key, ev_space_id e) = fst k) then delta_for (snd k) (deltas key) else 0)
    (cas_app_root_events d).

Record log_inv (d : Db) : Prop := {
  lg_events : ∀ app rev, is_Some (cas_app_root_events d !! (app, rev))
                ↔ 1 ≤ rev ≤ default 0 (cas_app_root_revisions d !! app);
  lg_requests : ∀ s id rq, cas_app_root_requests d !! (s, id) = Some rq →
                  ∃ e, cas_app_root_events d !! (fst s, rq_revision rq) = Some e
                       ∧ ev_space_id e = snd s ∧ ev_request_id e = id
                       ∧ ev_payload_hash e = rq_payload_hash rq;
  lg_logged : ∀ app rev e, cas_app_root_events d !! (app, rev) = Some e →
                ∃ rq, cas_app_root_requests d !! ((app, ev_space_id e), ev_request_id e) = Some rq
                      ∧ rq_revision rq = rev;
  lg_balances : ∃ deltas,
                (∀ key e, cas_app_root_events d !! key = Some e →
                   ev_changes_json e = changes_json (deltas key))
                ∧ ∀ k, default 0 (cas_app_root_refs d !! k) = replayed deltas k d;
  lg_revision : ∀ app n, cas_app_root_revisions d !! app = Some n → 0 ≤ n
}.

Definition same_log (d d' : Db) : Prop :=
  cas_app_root_revisions d' = cas_app_root_revisions d
  ∧ cas_app_root_events d' = cas_app_root_events d
  ∧ cas_app_root_requests d' = cas_app_root_requests d.

Lemma log_inv_same d d' :
  same_log d d' → cas_app_root_refs d' = cas_app_root_refs d → log_inv d → log_inv d'.
Proof.
  intros (Hr & He & Hq) Hb [H1 H2 H3 (deltas & H4 & H4') H5]. split.
  - by rewrite He, Hr.
  - by rewrite He, Hq.
  - by rewrite He, Hq.
  - exists deltas. split; [by rewrite He|]. intros k. unfold replayed. by rewrite Hb, He.
  - by rewrite Hr.
Qed.

(** ** The statements of the entries *)

(** A row but for its Root Refs. *)
Definition unrooted (r : NodeRow) : NodeRow := add_root_refs (- root_ref_count r) r.

Lemma unrooted_add n r : unrooted (add_root_refs n r) = unrooted r.
Proof. unfold unrooted, add_root_refs. simpl. f_equal. lia. Qed.

Lemma root_ref_stmts_shape k delta refCount d d' ns :
  run_batch (root_ref_stmts k delta refCount) d = Some (d', ns) →
  same_log d d' ∧ cas_node_uploads d' = cas_node_uploads d
  ∧ cas_node_upload_cleanup d' = cas_node_upload_cleanup d
  ∧ (usage_inv d → usage_inv d') ∧ cas_edges d' = cas_edges d
  ∧ ∀ k', unrooted <$> cas_nodes d' !! k' = unrooted <$> cas_nodes d !! k'.
Proof.
  intros H. unfold root_ref_stmts in H.
  apply run_batch_cons in H as (d1 & n1 & ns1 & H1 & H & _).
  apply run_batch_cons in H as (d2 & n2 & ns2 & H2 & H & _). injection H as <- _.
  assert (∃ t, d2 = set_root_refs t d1) as [t ->].
  { destruct refCount as [n|]; [|injection H2 as <- _; by eexists].
    unfold upsert_root_ref in H2. case_match; [|done]. injection H2 as <- _. by eexists. }
  pose proof (λ Hu, update_node_usage k (add_root_refs delta) d d1 n1 Hu H1) as Hus.
  apply update_node_Some in H1 as [[_ ->]|(r & u & Hk & -> & _)].
  - by split_and!.
  - split_and!; [done..|exact Hus|done|]. intros k'. simpl. destruct (decide (k' = k)) as [->|].
    + rewrite lookup_insert_eq, Hk. simpl. by rewrite unrooted_add.
    + by rewrite lookup_insert_ne.
Qed.

(** The groups of several entries, one after the other. *)
Record entries_effect (s : AppSpaceScope) (entries : list (string * Z)) (d d' : Db) : Prop := {
  ee_refs : ref_inv d';
  ee_nodes : same_nodes d d';
  ee_log : same_log d d';
  ee_uploads : cas_node_uploads d' = cas_node_uploads d
               ∧ cas_node_upload_cleanup d' = cas_node_upload_cleanup d;
  ee_usage : usage_inv d → usage_inv d';
  ee_edges : cas_edges d' = cas_edges d;
  ee_rows : ∀ k, unrooted <$> cas_nodes d' !! k = unrooted <$> cas_nodes d !! k;
  ee_balance : ∀ k, default 0 (cas_app_root_refs d' !! k)
                 = default 0 (cas_app_root_refs d !! k)
                   + (if decide (fst k = s) then delta_for (snd k) entries else 0)
}.

Lemma delta_for_absent h entries : h ∉ (fst <$> entries) → delta_for h entries = 0.
Proof.
  induction entries as [|[h' n] l IH]; [done|]. simpl. intros [Hne Hl]%not_elem_of_cons.
  rewrite decide_False by congruence. by rewrite IH.
Qed.

(** A hash listed once moves by its own delta. *)
Lemma delta_for_positive h entries :
  0 < delta_for h entries → NoDup (fst <$> entries) → ∃ n, (h, n) ∈ entries ∧ 0 < n.
Proof.
  induction entries as [|[h' n] l IH]; simpl; [lia|]. intros Hp [Hh Hnd]%NoDup_cons.
  case_decide as He.
  - subst h'. rewrite delta_for_absent in Hp by done. exists n. split; [left|lia].
  - destruct IH as (m & Hin & ?); [lia|done|]. exists m. split; [by right|done].
Qed.

Lemma entries_run plan (entries : list (string * Z)) : ∀ groups d d' ns,
  map_result (entry_stmts plan) entries = Ok groups → ref_inv d →
  NoDup (fst <$> entries) → forallb (entry_ok plan d) entries = true →
  run_batch (concat groups) d = Some (d', ns) →
  entries_effect (rp_scope plan) entries d d'.
Proof.
  set (s := rp_scope plan).
  induction entries as [|[h n] entries IH]; intros groups d d' ns Hg Hi Hnd Hok H.
  { injection Hg as <-. injection H as <- _. split; try done. intros k. simpl. case_decide; lia. }
  simpl in Hg. destruct (find_projection h (rp_projections plan)) as [n'|] eqn:Hf; [|done].
  simpl in Hg. destruct (map_result (entry_stmts plan) entries) as [gs|] eqn:Hgs; [|done].
  simpl in Hg. injection Hg as <-.
  change (run_batch (root_ref_stmts (s, h) n n' ++ concat gs) d = Some (d', ns)) in H.
  apply run_batch_app in H as (d1 & ns1 & ns2 & H1 & H & _).
  simpl in Hok. apply andb_true_iff in Hok as [Hk Hok]. unfold entry_ok in Hk. simpl in Hk.
  rewrite Hf in Hk. apply andb_true_iff in Hk as [Hk%bool_decide_eq_true Hn%Z.eqb_eq].
  apply NoDup_cons in Hnd as [Hh Hnd]. fold s in Hk, Hn.
  destruct (root_ref_ref (s, h) n n' d d1 ns1 Hi Hk Hn H1) as (Hi1 & Hs1 & Hb1 & Ho1).
  destruct (root_ref_stmts_shape _ _ _ _ _ _ H1) as (Hl1 & Hu1 & Hc1 & Hus1 & Hed1 & Hr1).
  destruct (IH gs d1 d' ns2 eq_refl Hi1 Hnd) as [Hi2 Hs2 Hl2 [Hu2 Hc2] Hus2 Hed2 Hr2 Hb2]; [|done|].
  { clear -Hok Hh Hs1 Ho1. induction entries as [|[h' m] l IHl]; [done|]. simpl in *.
    apply andb_true_iff in Hok as [Hk Hok]. apply not_elem_of_cons in Hh as [Hne Hh].
    rewrite IHl by done. rewrite andb_true_r. rewrite <- Hk. unfold entry_ok. simpl. f_equal.
    - apply bool_decide_ext, Hs1.
    - by rewrite Ho1 by congruence. }
  split.
  - done.
  - intros k. etrans; [apply Hs2|apply Hs1].
  - destruct Hl1 as (? & ? & ?), Hl2 as (? & ? & ?). split_and!; congruence.
  - split; congruence.
  - auto.
  - congruence.
  - intros k. by rewrite Hr2, Hr1.
  - intros k. rewrite Hb2. simpl. case_decide as Hks; [|].
    + destruct k as [s' h']. simpl in *. subst s'. case_decide as Heq.
      * subst h'. rewrite Hb1, Hn, delta_for_absent by done. lia.
      * rewrite Ho1 by congruence. lia.
    + rewrite Ho1; [lia|]. intros ->. done.
Qed.

(** ** A whole commit *)

(** The request and the event of a plan are new, and the revision is the next. *)
Record committed (plan : RootRefCommitPlan) (d d' : Db) : Prop := {
  cm_refs : ref_inv d';
  cm_nodes : same_nodes d d';
  cm_uploads : cas_node_uploads d' = cas_node_uploads d
               ∧ cas_node_upload_cleanup d' = cas_node_upload_cleanup d;
  cm_usage : usage_inv d → usage_inv d';
  cm_edges : cas_edges d' = cas_edges d;
  cm_rows : ∀ k, unrooted <$> cas_nodes d' !! k = unrooted <$> cas_nodes d !! k;
  cm_balance : ∀ k, default 0 (cas_app_root_refs d' !! k) = default 0 (cas_app_root_refs d !! k)
    + (if decide (fst k = rp_scope plan) then delta_for (snd k) (rp_entries plan) else 0);
  cm_expected : default 0 (cas_app_root_revisions d !! appId (rp_scope plan))
                = rp_expectedRevision plan;
  cm_revisions : cas_app_root_revisions d'
                 = <[appId (rp_scope plan) := rp_revision plan]> (cas_app_root_revisions d);
  cm_event : cas_app_root_events d' = <[(appId (rp_scope plan), rp_revision plan) := plan_event plan]>
               (cas_app_root_events d);
  cm_request : cas_app_root_requests d' = <[(rp_scope plan, rp_requestId plan) := plan_request plan]>
                 (cas_app_root_requests d);
  cm_fresh : cas_app_root_events d !! (appId (rp_scope plan), rp_revision plan) = None
             ∧ cas_app_root_requests d !! (rp_scope plan, rp_requestId plan) = None
}.

(** Taking the next revision: a lost compare-and-set leaves nothing. *)
Lemma revisions_run app expected revision d d' ns :
  run_batch [init_revision app; cas_revision app expected revision] d = Some (d', ns) →
  default 0 (cas_app_root_revisions d !! app) = expected
  ∧ d' = set_revisions (<[app := revision]> (cas_app_root_revisions d)) d.
Proof.
  intros H. apply run_batch_cons in H as (d1 & n1 & ns1 & H1 & H & _).
  apply run_batch_cons in H as (d2 & n2 & ns2 & H2 & H & _). injection H as <- _.
  unfold init_revision in H1. unfold cas_revision in H2.
  destruct (cas_app_root_revisions d !! app) as [n|] eqn:Hn.
  - injection H1 as <- _. rewrite Hn in H2. destruct (n =? expected) eqn:He; [|done].
    simpl in H2. case_match; [|done]. injection H2 as <- _. split; [|done].
    simpl. by apply Z.eqb_eq.
  - injection H1 as <- _. simpl in H2. rewrite lookup_insert_eq in H2.
    destruct (0 =? expected) eqn:He; [|done]. simpl in H2. case_match; [|done].
    injection H2 as <- _. split; [simpl; by apply Z.eqb_eq|].
    unfold set_revisions. simpl. by rewrite insert_insert_eq.
Qed.

Lemma commit_run plan l d d' ns :
  ref_inv d → commit_plan plan = Ok l →
  NoDup (fst <$> rp_entries plan) → forallb (entry_ok plan d) (rp_entries plan) = true →
  run_batch l d = Some (d', ns) → committed plan d d'.
Proof.
  intros Hi Hl Hnd Hok H. unfold commit_plan in Hl.
  destruct (map_result (entry_stmts plan) (rp_entries plan)) as [groups|] eqn:Hg; [|done].
  simpl in Hl. injection Hl as <-.
  change (run_batch ([init_revision (appId (rp_scope plan));
      cas_revision (appId (rp_scope plan)) (rp_expectedRevision plan) (rp_revision plan)]
    ++ concat groups ++ [insert_event (appId (rp_scope plan)) (rp_revision plan) (plan_event plan);
      insert_request (rp_scope plan, rp_requestId plan) (plan_request plan)]) d = Some (d', ns)) in H.
  apply run_batch_app in H as (d1 & ns1 & ns1' & H1 & H & _).
  apply revisions_run in H1 as [He ->].
  apply run_batch_app in H as (d2 & ns2 & ns2' & H2 & H & _).
  eapply entries_run in H2 as Hee; [|exact Hg|by apply (ref_inv_same d)|done|done].
  apply run_batch_cons in H as (d3 & n3 & ns3 & H3 & H & _).
  apply run_batch_cons in H as (d4 & n4 & ns4 & H4 & H & _). injection H as <- _.
  unfold insert_event in H3. case_match eqn:Hev; [done|]. case_match; [|done]. injection H3 as <- _.
  unfold insert_request in H4. case_match eqn:Hrq; [done|]. injection H4 as <- _.
  destruct Hee as [E1 E2 (E3 & E3' & E3'') E4 E5 E5' E6 E7]. simpl in *.
  split; simpl; try done.
  - by apply (ref_inv_same d2).
  - by rewrite E3'.
  - by rewrite E3''.
  - by rewrite <- E3', <- E3''.
Qed.

Lemma committed_log plan d d' :
  committed plan d d' → rp_revision plan = rp_expectedRevision plan + 1 →
  rp_changesJson plan = changes_json (rp_entries plan) → log_inv d → log_inv d'.
Proof.
  intros Hc Hrev Hjson [L1 L2 L3 (deltas & L4 & L4') L5].
  destruct Hc as [_ _ _ _ _ _ Hbal' Hexp Hr He Hq [Hfe Hfq]]. destruct plan as [[app space] id ph cj es exp rev ps t].
  simpl in *.
  assert (0 ≤ exp) as Hpos.
  { rewrite <- Hexp. destruct (cas_app_root_revisions d !! app) eqn:E; simpl; [eauto|lia]. }
  split.
  - intros app' rev'. rewrite He, Hr. destruct (decide (app' = app)) as [->|Hne].
    + rewrite lookup_insert_eq. simpl. destruct (decide (rev' = rev)) as [->|Hnr].
      * rewrite lookup_insert_eq. split; [lia|by eexists].
      * rewrite lookup_insert_ne by congruence. rewrite L1, Hexp. lia.
    + rewrite !lookup_insert_ne by congruence. apply L1.
  - intros s' id' rq. rewrite Hq, He. intros [[Heq <-]|[_ Hrq]]%lookup_insert_Some.
    + injection Heq as <- <-. simpl. rewrite lookup_insert_eq. by eexists.
    + destruct (L2 s' id' rq Hrq) as (e & Hev & ?). exists e. split; [|done].
      rewrite lookup_insert_ne; [done|]. intros Heq. congruence.
  - intros app' rev' e. rewrite He, Hq. intros [[Heq <-]|[_ Hev]]%lookup_insert_Some.
    + injection Heq as <- <-. simpl. rewrite lookup_insert_eq. by eexists.
    + destruct (L3 app' rev' e Hev) as (rq & Hrq & ?). exists rq. split; [|done].
      rewrite lookup_insert_ne; [done|]. intros Heq. congruence.
  - exists (λ key, if decide (key = (app, rev)) then es else deltas key). split.
    + intros key e. rewrite He. intros [[<- <-]|[Hne Hev]]%lookup_insert_Some.
      * by rewrite decide_True.
      * rewrite decide_False by done. by apply L4.
    + intros k. rewrite Hbal', L4'. unfold replayed. rewrite He.
      rewrite msum_insert by done. rewrite (decide_True (P := (app, rev) = (app, rev))) by done. simpl.
      rewrite Z.add_comm. apply f_equal2; [repeat case_decide; congruence|].
      apply msum_ext. intros key e Hev.
      by rewrite (decide_False (P := key = (app, rev))) by congruence.
  - intros app' n. rewrite Hr. intros [[<- <-]|[_ Hn]]%lookup_insert_Some; [lia|eauto].
Qed.

(** The rows of the ledger are their balances. *)
Lemma balance_row d d' k :
  ref_inv d → ref_inv d' →
  default 0 (cas_app_root_refs d' !! k) = default 0 (cas_app_root_refs d !! k) →
  cas_app_root_refs d' !! k = cas_app_root_refs d !! k.
Proof.
  intros Hi Hi' He.
  destruct (cas_app_root_refs d !! k) as [n|] eqn:Hn, (cas_app_root_refs d' !! k) as [m|] eqn:Hm;
    simpl in He; [congruence| | |done].
  - destruct (ri_balance d Hi k n Hn). lia.
  - destruct (ri_balance d' Hi' k m Hm). lia.
Qed.
