(* ===== verification/NodeLease.v ===== *)
(** The cloud-neutral node lease kernels of [packages/service/src/node-lease.ts].
    They run against a repository, here the type classes that list its methods
    over an abstract state [W]; [NodeLeaseD1.v] is the instance the service uses. *)
From Stdlib Require Import Ascii.
From S2P Require Import Prelude Js Errors Codec Validation CanonicalStream Store.

Definition DEFAULT_LEASE_MS : Z := 15 * 60 * 1000.
Definition MIN_LEASE_MS : Z := 60 * 1000.
Definition MAX_LEASE_MS : Z := 24 * 60 * 60 * 1000.
Definition DEFAULT_UPLOAD_SESSION_MS : Z := 15 * 60 * 1000.
Definition DEFAULT_UPLOAD_CLEANUP_MS : Z := 24 * 60 * 60 * 1000.
Definition DEFAULT_MAX_ACTIVE_UPLOADS : Z := 1024.

(** * Records *)

Record NodeLeaseRecord := mkLease { leaseStartedAt : Z; leaseExpiresAt : Z }.

Record CanonicalOrphanObject := mkOrphan { oo_storedBytes : Z; oo_sha256Hex : option string }.

Record CanonicalNodeLeaseRecord := mkNodeLease {
  cl_contentSize : Z;
  cl_contentType : string;
  cl_lease : NodeLeaseRecord
}.

Record ParsedUploadedNodeMetadata := mkParsedMetadata {
  pm_contentSize : Z;
  pm_contentType : string;
  pm_refs : list string
}.

Record AdoptedCanonicalNodePlan := mkAdopted {
  ap_hash : string;
  ap_metadata : ParsedUploadedNodeMetadata;
  ap_storedBytes : Z;
  ap_lease : NodeLeaseRecord;
  ap_reservationCreatedAt : Z;
  ap_reservationExpiresAt : Z
}.

Record CanonicalUploadReservation := mkReservation {
  cr_hash : string;
  cr_storedBytes : Z;
  cr_createdAt : Z;
  cr_expiresAt : Z
}.

Record CanonicalNodeUploadPlan := mkUploadPlan {
  pl_hash : string;
  pl_storedBytes : Z;
  pl_leaseDurationMs : Z
}.

Record CanonicalDirectUploadSession := mkDirectSession {
  ds_hash : string;
  ds_uploadId : string;
  ds_temporaryObjectKey : string;
  ds_storedBytes : Z;
  ds_leaseDurationMs : Z;
  ds_createdAt : Z;
  ds_expiresAt : Z
}.

(** [{ hash, ready: true, ...lease }]. *)
Record CasLeaseResult := mkLeaseResult { lr_hash : string; lr_lease : NodeLeaseRecord }.

Inductive CanonicalDirectUploadPrepareResult :=
| PrepareReady (result : CasLeaseResult)
| PrepareUpload (session : CanonicalDirectUploadSession) (replacedTemporaryObjectKey : option string).

Inductive CanonicalDirectUploadFinalizeAdmission :=
| AdmitReady (result : CasLeaseResult)
| AdmitUpload (session : CanonicalDirectUploadSession).

Inductive CanonicalNodeLeaseBeginResult :=
| BeginReady (result : CasLeaseResult)
| BeginUpload (plan : CanonicalNodeUploadPlan).

Inductive UploadedCanonicalNodeCommit :=
| CommitExisting (hash : string) (storedBytes : Z) (lease : NodeLeaseRecord)
| CommitNew (hash : string) (metadata : ParsedUploadedNodeMetadata) (storedBytes : Z)
    (lease : NodeLeaseRecord).

Record LeaseDrivenUploadValidation := mkValidation {
  lv_storedBytes : Z;
  lv_metadata : ParsedUploadedNodeMetadata
}.

Record SpaceNodeUploadRejection := mkRejection { rj_code : string; rj_message : string }.

Record LeaseDrivenUploadRecord := mkUpload {
  lu_hash : string;
  lu_generation : string;
  lu_temporaryObjectKey : string;
  lu_createdAt : Z;
  lu_expiresAt : Z;
  lu_cleanupAt : Z;
  lu_rejection : option SpaceNodeUploadRejection;
  lu_validation : option LeaseDrivenUploadValidation
}.

Inductive LeaseDrivenNodeUploadResult :=
| LeaseReady (hash : string) (lease : NodeLeaseRecord)
| AwaitingUpload (upload : LeaseDrivenUploadRecord)
| AwaitingReplacementUpload (upload : LeaseDrivenUploadRecord) (rejection : SpaceNodeUploadRejection)
| ValidatedAwaitingChildren (childHashes : list string).

(** * Repositories *)

Class NodeLeaseRepository (W : Type) := {
  readNodeLease : AppSpaceScope → string → M exn W (option NodeLeaseRecord);
  readCanonicalObject : AppSpaceScope → string → M exn W (option CanonicalOrphanObject);
  readCanonicalPrefix : AppSpaceScope → string → Z → M exn W (option (list bytes));
  isNodeReady : AppSpaceScope → string → M exn W bool;
  renewNodeLease : AppSpaceScope → string → NodeLeaseRecord → M exn W unit;
  commitAdoptedCanonicalNode : AppSpaceScope → AdoptedCanonicalNodePlan → M exn W unit
}.

Class CanonicalNodeLeaseRepository (W : Type) := {
  cn_lease :: NodeLeaseRepository W;
  readCanonicalNodeLease : AppSpaceScope → string → M exn W (option CanonicalNodeLeaseRecord);
  readNodeRefs : AppSpaceScope → string → M exn W (list string);
  reserveCanonicalUpload : AppSpaceScope → CanonicalUploadReservation → M exn W unit;
  putCanonicalObject : AppSpaceScope → string → list bytes → M exn W unit;
  commitUploadedCanonicalNode : AppSpaceScope → UploadedCanonicalNodeCommit → M exn W unit
}.

Class CanonicalDirectUploadRepository (W : Type) := {
  cd_lease :: NodeLeaseRepository W;
  readCanonicalUploadSession :
    AppSpaceScope → string → M exn W (option CanonicalDirectUploadSession);
  reserveCanonicalUploadSession : AppSpaceScope → CanonicalDirectUploadSession → M exn W unit;
  deleteCanonicalUploadSession : AppSpaceScope → string → string → M exn W unit
}.

Class LeaseDrivenNodeUploadRepository (W : Type) := {
  ld_node :: CanonicalNodeLeaseRepository W;
  countLeaseDrivenUploads : AppSpaceScope → M exn W Z;
  readCanonicalBytes : AppSpaceScope → string → M exn W (option bytes);
  readLeaseDrivenUpload : AppSpaceScope → string → M exn W (option LeaseDrivenUploadRecord);
  replaceLeaseDrivenUpload :
    AppSpaceScope → option string → LeaseDrivenUploadRecord → M exn W bool;
  stageLeaseDrivenUploadValidation :
    AppSpaceScope → string → string → LeaseDrivenUploadValidation → M exn W bool;
  (* the stored size of the temporary object *)
  readTemporaryUploadObject : AppSpaceScope → string → M exn W (option Z);
  readTemporaryUploadBytes : AppSpaceScope → string → M exn W (option bytes);
  deleteTemporaryUploadObject : AppSpaceScope → string → M exn W unit;
  deleteLeaseDrivenUpload : AppSpaceScope → string → string → M exn W unit;
  putVerifiedCanonicalBytes : AppSpaceScope → string → bytes → M exn W unit
}.

(** * Pure parts *)

Definition clampLeaseDuration (value : Z) : Z :=
  Z.min (Z.max value MIN_LEASE_MS) MAX_LEASE_MS.

Definition nextNodeLease (existing : option NodeLeaseRecord) (durationMs now : Z)
    : NodeLeaseRecord :=
  mkLease
    (match existing with
     | Some e => if now <? leaseExpiresAt e then leaseStartedAt e else now
     | None => now
     end)
    (Z.max (match existing with Some e => leaseExpiresAt e | None => 0 end) (now + durationMs)).

(** [validateLeaseHash(hash)]: the validation error as a 400. *)
Definition validateLeaseHash (hash : string) : result exn unit :=
  match validateHash hash with
  | Ok _ => Ok tt
  | Throw e => Throw (node_error 400 NodeOpErrorCodes.INVALID_REQUEST (error_message e))
  end.

Definition max_bytes (limits : CanonicalNodeLimits) : Z :=
  default MAX_CANONICAL_NODE_BYTES (maxCanonicalNodeBytes limits).

Definition sameRefs (left right : list string) : bool := bool_decide (left = right).

Definition ascii_lower (c : ascii) : ascii :=
  if in_range 0x41 0x5A c then char_of_code (code c + 0x20) else c.
Definition lower_case (s : string) : string := of_chars (ascii_lower <$> chars s).

(** [/checksum/i.test(m) && /did not match|mismatch/i.test(m)]. *)
Definition isChecksumMismatch (e : exn) : bool :=
  let m := lower_case (error_message e) in
  includes m "checksum" && (includes m "did not match" || includes m "mismatch").

Definition NODE_TOO_LARGE : SpaceNodeUploadRejection :=
  mkRejection "NODE_TOO_LARGE" "Uploaded canonical node exceeds the configured size limit".

(** [validateLeaseDrivenUpload(hash, bytes, limits)]: [inl] is [ok: true]. *)
Definition validateLeaseDrivenUpload `{Sha256} (hash : string) (bs : bytes)
    (limits : CanonicalNodeLimits)
    : result exn (LeaseDrivenUploadValidation + SpaceNodeUploadRejection) :=
  if max_bytes limits <? blen bs then Ok (inr NODE_TOO_LARGE)
  else
    digest ← hashToHex (sha256 bs);
    if negb (bool_decide (digest = hash)) then
      Ok (inr (mkRejection "NODE_DIGEST_MISMATCH"
                 "Uploaded canonical bytes did not match the requested node hash"))
    else match parseCanonicalNodeStream [bs] (Some (blen bs)) limits with
    | Ok p => Ok (inl (mkValidation (blen bs)
                         (mkParsedMetadata (ps_contentSize p) (ps_contentType p) (ps_refs p))))
    | Throw e => Ok (inr (mkRejection "INVALID_CANONICAL_NODE" (error_message e)))
    end.

(** * The lease-driven upload kernel *)

Record LeaseInput (W : Type) := mkLeaseInput {
  in_hash : string;
  in_leaseDurationMs : Z;
  (* yields the generation and the temporary key *)
  in_createIdentifiers : M exn W (string * string);
  in_limits : CanonicalNodeLimits;
  in_uploadSessionMs : option Z;
  in_uploadCleanupMs : option Z;
  in_maxActiveUploads : option Z;
  in_now : M exn W Z
}.
Arguments mkLeaseInput {W}. Arguments in_hash {W}. Arguments in_leaseDurationMs {W}.
Arguments in_createIdentifiers {W}. Arguments in_limits {W}. Arguments in_uploadSessionMs {W}.
Arguments in_uploadCleanupMs {W}. Arguments in_maxActiveUploads {W}. Arguments in_now {W}.

Definition with_validation (v : LeaseDrivenUploadValidation) (u : LeaseDrivenUploadRecord)
    : LeaseDrivenUploadRecord :=
  mkUpload (lu_hash u) (lu_generation u) (lu_temporaryObjectKey u) (lu_createdAt u)
    (lu_expiresAt u) (lu_cleanupAt u) (lu_rejection u) (Some v).

Definition storage_error (message : string) : exn :=
  node_error 503 NodeOpErrorCodes.STORAGE message.

Section lease_driven.
Context {W : Type} `{!LeaseDrivenNodeUploadRepository W} `{Sha256}.
Notation Run := (M exn W).

(** [createLeaseDrivenUpload(input, now, rejection)]. *)
Definition createLeaseDrivenUpload (input : LeaseInput W) (now : Z)
    (rejection : option SpaceNodeUploadRejection) : Run LeaseDrivenUploadRecord :=
  '(generation, temporaryObjectKey) ← in_createIdentifiers input;
  if (strlen generation =? 0) || (strlen temporaryObjectKey =? 0)
  then throw (TypeError "Canonical upload identifiers must not be empty")
  else
    let expiresAt := now + default DEFAULT_UPLOAD_SESSION_MS (in_uploadSessionMs input) in
    mret (mkUpload (in_hash input) generation temporaryObjectKey now expiresAt
            (expiresAt + default DEFAULT_UPLOAD_CLEANUP_MS (in_uploadCleanupMs input))
            rejection None).

(** The module's own [replaceLeaseDrivenUpload(...)]. *)
Definition replaceUpload (scope : AppSpaceScope) (expectedGeneration : option string)
    (upload : LeaseDrivenUploadRecord) : Run unit :=
  replaced ← replaceLeaseDrivenUpload scope expectedGeneration upload;
  lift (throw_if (negb replaced)
          (node_error 409 NodeOpErrorCodes.CONFLICT "Canonical upload generation changed")).

(** The loop over the distinct references of a validated node. *)
Fixpoint unreadyChildren (scope : AppSpaceScope) (refs : list string) : Run (list string) :=
  match refs with
  | [] => mret []
  | childHash :: refs =>
      isReady ← isNodeReady scope childHash;
      childHashes ← unreadyChildren scope refs;
      mret (if (isReady : bool) then childHashes else childHash :: childHashes)
  end.

(** [publishValidatedLeaseDrivenUpload(...)]. *)
Definition publishValidatedLeaseDrivenUpload (input : LeaseInput W) (scope : AppSpaceScope)
    (upload : LeaseDrivenUploadRecord) (validation : LeaseDrivenUploadValidation)
    (leaseDurationMs now : Z) (validatedBytes : option bytes)
    : Run LeaseDrivenNodeUploadResult :=
  let hash := in_hash input in
  childHashes ← unreadyChildren scope (set_of (pm_refs (lv_metadata validation)));
  match childHashes with
  | _ :: _ => mret (ValidatedAwaitingChildren childHashes)
  | [] =>
      bs ← match validatedBytes with
           | Some bs => mret (Some bs)
           | None => readTemporaryUploadBytes scope (lu_temporaryObjectKey upload)
           end;
      _ ← match bs with
          | Some bs => putVerifiedCanonicalBytes scope hash bs
          | None =>
              object ← readCanonicalObject scope hash;
              lift (throw_if (bool_decide (object = None))
                      (storage_error "Validated upload content is missing"))
          end;
      let lease := nextNodeLease None leaseDurationMs now in
      _ ← commitUploadedCanonicalNode scope
            (CommitNew hash (lv_metadata validation) (lv_storedBytes validation) lease);
      _ ← ignore_errors
            (_ ← deleteTemporaryUploadObject scope (lu_temporaryObjectKey upload);
             deleteLeaseDrivenUpload scope hash (lu_generation upload));
      mret (LeaseReady hash lease)
  end.

(** [replaceRejectedLeaseDrivenUpload(...)]. *)
Definition replaceRejectedLeaseDrivenUpload (input : LeaseInput W) (scope : AppSpaceScope)
    (upload : LeaseDrivenUploadRecord) (rejection : SpaceNodeUploadRejection) (now : Z)
    : Run LeaseDrivenNodeUploadResult :=
  replacement ← createLeaseDrivenUpload input now (Some rejection);
  _ ← replaceUpload scope (Some (lu_generation upload)) replacement;
  _ ← ignore_errors (deleteTemporaryUploadObject scope (lu_temporaryObjectKey upload));
  mret (AwaitingReplacementUpload replacement rejection).

(** [upload.rejection === null ? awaiting_upload : awaiting_replacement_upload]. *)
Definition awaiting (upload : LeaseDrivenUploadRecord) : LeaseDrivenNodeUploadResult :=
  match lu_rejection upload with
  | None => AwaitingUpload upload
  | Some rejection => AwaitingReplacementUpload upload rejection
  end.

Definition stageValidation (input : LeaseInput W) (scope : AppSpaceScope)
    (upload : LeaseDrivenUploadRecord) (validation : LeaseDrivenUploadValidation) : Run unit :=
  staged ← stageLeaseDrivenUploadValidation scope (in_hash input) (lu_generation upload)
             validation;
  lift (throw_if (negb staged)
          (node_error 409 NodeOpErrorCodes.CONFLICT "Canonical upload generation changed")).

(** The branch of [leaseDrivenNodeUpload] for a canonical object without a row. *)
Definition recoverCanonical (input : LeaseInput W) (scope : AppSpaceScope)
    (upload : option LeaseDrivenUploadRecord) (leaseDurationMs now : Z)
    : Run LeaseDrivenNodeUploadResult :=
  upload ← match upload with
           | Some upload => mret upload
           | None =>
               upload ← createLeaseDrivenUpload input now None;
               _ ← replaceUpload scope None upload;
               mret upload
           end;
  '(upload, validation) ←
    match lu_validation upload with
    | Some validation => mret (upload, validation)
    | None =>
        bs ← readCanonicalBytes scope (in_hash input);
        match bs with
        | None => throw (storage_error "Canonical object disappeared during recovery")
        | Some bs =>
            validated ← lift (validateLeaseDrivenUpload (in_hash input) bs (in_limits input));
            match validated with
            | inr _ => throw (storage_error "Canonical orphan failed integrity validation")
            | inl validation =>
                _ ← stageValidation input scope upload validation;
                mret (with_validation validation upload, validation)
            end
        end
    end;
  publishValidatedLeaseDrivenUpload input scope upload validation leaseDurationMs now None.

(** The branch for an upload whose temporary object is not there yet. *)
Definition awaitTemporary (input : LeaseInput W) (scope : AppSpaceScope)
    (upload : LeaseDrivenUploadRecord) (now : Z) : Run LeaseDrivenNodeUploadResult :=
  _ ← lift (throw_if (bool_decide (is_Some (lu_validation upload)))
              (storage_error "Validated upload content is missing"));
  upload ← (if lu_expiresAt upload <=? now then
              replacement ← createLeaseDrivenUpload input now (lu_rejection upload);
              _ ← replaceUpload scope (Some (lu_generation upload)) replacement;
              _ ← ignore_errors
                    (deleteTemporaryUploadObject scope (lu_temporaryObjectKey upload));
              mret replacement
            else mret upload);
  mret (awaiting upload).

(** The branch for an upload whose temporary object is there. *)
Definition validateTemporary (input : LeaseInput W) (scope : AppSpaceScope)
    (upload : LeaseDrivenUploadRecord) (storedBytes leaseDurationMs now : Z)
    : Run LeaseDrivenNodeUploadResult :=
  match lu_validation upload with
  | Some validation =>
      publishValidatedLeaseDrivenUpload input scope upload validation leaseDurationMs now None
  | None =>
      if max_bytes (in_limits input) <? storedBytes then
        replaceRejectedLeaseDrivenUpload input scope upload NODE_TOO_LARGE now
      else
        bs ← readTemporaryUploadBytes scope (lu_temporaryObjectKey upload);
        match bs with
        | None => mret (awaiting upload)
        | Some bs =>
            validated ← lift (validateLeaseDrivenUpload (in_hash input) bs (in_limits input));
            match validated with
            | inr rejection => replaceRejectedLeaseDrivenUpload input scope upload rejection now
            | inl validation =>
                _ ← stageValidation input scope upload validation;
                publishValidatedLeaseDrivenUpload input scope (with_validation validation upload)
                  validation leaseDurationMs now (Some bs)
            end
        end
  end.

(** [leaseDrivenNodeUpload(input)]. *)
Definition leaseDrivenNodeUpload (input : LeaseInput W) (scope : AppSpaceScope)
    : Run LeaseDrivenNodeUploadResult :=
  let hash := in_hash input in
  _ ← lift (validateLeaseHash hash);
  now ← in_now input;
  let leaseDurationMs := clampLeaseDuration (in_leaseDurationMs input) in
  existing ← readCanonicalNodeLease scope hash;
  canonical ← readCanonicalObject scope hash;
  match existing with
  | Some existing =>
      match canonical with
      | None => throw (storage_error ("Ready node " +:+ hash +:+ " is missing canonical content"))
      | Some _ =>
          let lease := nextNodeLease (Some (cl_lease existing)) leaseDurationMs now in
          _ ← renewNodeLease scope hash lease;
          mret (LeaseReady hash lease)
      end
  | None =>
      upload ← readLeaseDrivenUpload scope hash;
      match canonical with
      | Some _ => recoverCanonical input scope upload leaseDurationMs now
      | None =>
          upload ← match upload with
                   | Some upload => mret upload
                   | None =>
                       activeUploads ← countLeaseDrivenUploads scope;
                       _ ← lift (throw_if
                             (default DEFAULT_MAX_ACTIVE_UPLOADS (in_maxActiveUploads input)
                              <=? activeUploads)
                             (node_error 429 NodeOpErrorCodes.UPLOAD_LIMIT
                                "Space has too many active node uploads"));
                       upload ← createLeaseDrivenUpload input now None;
                       _ ← replaceUpload scope None upload;
                       mret upload
                   end;
          temporary ← readTemporaryUploadObject scope (lu_temporaryObjectKey upload);
          match temporary with
          | None => awaitTemporary input scope upload now
          | Some storedBytes =>
              validateTemporary input scope upload storedBytes leaseDurationMs now
          end
      end
  end.
End lease_driven.

(** * Renewal, adoption and streamed uploads *)

Section inspect.
Context {W : Type} `{!NodeLeaseRepository W}.
Notation Run := (M exn W).

(** [inspectCanonicalNode(repository, scope, hash, storedBytes, limits)]. *)
Definition inspectCanonicalNode (scope : AppSpaceScope) (hash : string) (storedBytes : Z)
    (limits : CanonicalNodeLimits) : Run ParsedUploadedNodeMetadata :=
  let prefixLimit := HEADER_SIZE + MAX_CONTENT_TYPE_LENGTH
                     + default MAX_NODE_REFS (maxNodeRefs limits) * HASH_SIZE in
  prefix ← readCanonicalPrefix scope hash (Z.min storedBytes prefixLimit);
  match prefix with
  | None => throw (Error "Canonical node disappeared during inspection")
  | Some prefix =>
      parsed ← lift (parseCanonicalNodeStream prefix (Some storedBytes) limits);
      mret (mkParsedMetadata (ps_contentSize parsed) (ps_contentType parsed) (ps_refs parsed))
  end.

(** [for (const childHash of parsed.refs) if (!await isNodeReady(...)) throw ...]. *)
Definition requireChildren (scope : AppSpaceScope) (refs : list string) : Run unit :=
  for_each refs (λ childHash,
    isReady ← isNodeReady scope childHash;
    lift (throw_if (negb isReady)
            (node_error 409 NodeOpErrorCodes.NOT_READY
               ("Child node " +:+ childHash +:+ " is not ready")))).

(** [leaseReadyNode(input)]. *)
Definition leaseReadyNode (scope : AppSpaceScope) (hash : string) (leaseDurationMs : Z)
    (limits : CanonicalNodeLimits) (now : Run Z) : Run CasLeaseResult :=
  _ ← lift (validateLeaseHash hash);
  now ← now;
  existing ← readNodeLease scope hash;
  match existing with
  | Some existing =>
      isReady ← isNodeReady scope hash;
      _ ← lift (throw_if (negb isReady)
                  (node_error 409 NodeOpErrorCodes.NOT_READY
                     ("Node " +:+ hash +:+ " is not ready")));
      let lease := nextNodeLease (Some existing) leaseDurationMs now in
      _ ← renewNodeLease scope hash lease;
      mret (mkLeaseResult hash lease)
  | None =>
      object ← readCanonicalObject scope hash;
      match object with
      | Some object =>
          if (max_bytes limits <? oo_storedBytes object)
             || negb (bool_decide (oo_sha256Hex object = Some hash))
          then throw (node_error 404 NodeOpErrorCodes.NOT_FOUND
                        ("Node " +:+ hash +:+ " not found"))
          else
            parsed ← try_catch (inspectCanonicalNode scope hash (oo_storedBytes object) limits)
                       (λ e, throw (node_error 409 NodeOpErrorCodes.CONFLICT (error_message e)));
            _ ← requireChildren scope (pm_refs parsed);
            let lease := nextNodeLease None leaseDurationMs now in
            _ ← commitAdoptedCanonicalNode scope
                  (mkAdopted hash parsed (oo_storedBytes object) lease now (now + MAX_LEASE_MS));
            mret (mkLeaseResult hash lease)
      | None => throw (node_error 404 NodeOpErrorCodes.NOT_FOUND
                         ("Node " +:+ hash +:+ " not found"))
      end
  end.

(** [catch (error) { if (!(error instanceof NodeOpError) || error.code !== NOT_FOUND) throw }]. *)
Definition is_not_found (e : exn) : bool :=
  match e with
  | ENodeOp e => bool_decide (noe_code e = NodeOpErrorCodes.NOT_FOUND)
  | _ => false
  end.

(** [try { return ready(await leaseReadyNode(...)) } catch ...]: [Some] is the
    early return. *)
Definition tryLeaseReady (scope : AppSpaceScope) (hash : string) (leaseDurationMs : Z)
    (limits : CanonicalNodeLimits) (now : Run Z) : Run (option CasLeaseResult) :=
  try_catch (result ← leaseReadyNode scope hash leaseDurationMs limits now;
             mret (Some result))
    (λ e, if is_not_found e then mret None else throw e).
End inspect.

Section streamed.
Context {W : Type} `{!CanonicalNodeLeaseRepository W}.
Notation Run := (M exn W).

(** [beginCanonicalNodeLease(input)]. *)
Definition beginCanonicalNodeLease (scope : AppSpaceScope) (hash : string)
    (leaseDurationMs : Z) (declaredLength : option Z) (limits : CanonicalNodeLimits)
    (now : Run Z) : Run CanonicalNodeLeaseBeginResult :=
  _ ← lift (validateLeaseHash hash);
  existing ← readCanonicalNodeLease scope hash;
  isReady ← match existing with
            | Some _ => isNodeReady scope hash
            | None => mret false
            end;
  match existing, isReady with
  | Some existing, true =>
      now ← now;
      let lease := nextNodeLease (Some (cl_lease existing)) leaseDurationMs now in
      _ ← renewNodeLease scope hash lease;
      mret (BeginReady (mkLeaseResult hash lease))
  | _, _ =>
      match declaredLength with
      | None => throw (node_error 411 NodeOpErrorCodes.INVALID_REQUEST "Content-Length is required")
      | Some declaredLength =>
          _ ← lift (throw_if (max_bytes limits <? declaredLength)
                (node_error 413 NodeOpErrorCodes.INVALID_REQUEST "Canonical node is too large"));
          now ← now;
          _ ← reserveCanonicalUpload scope
                (mkReservation hash declaredLength now (now + MAX_LEASE_MS));
          mret (BeginUpload (mkUploadPlan hash declaredLength leaseDurationMs))
      end
  end.

(** [uploadCanonicalNode(input)]. *)
Definition uploadCanonicalNode (scope : AppSpaceScope) (plan : CanonicalNodeUploadPlan)
    (body : list bytes) : Run unit :=
  try_catch (putCanonicalObject scope (pl_hash plan) body)
    (λ e, throw (node_error 400 NodeOpErrorCodes.INVALID_REQUEST
                   (if isChecksumMismatch e
                    then "Canonical node checksum does not match its hash"
                    else "Canonical node upload failed"))).

(** [finalizeCanonicalNodeLease(input)]. *)
Definition finalizeCanonicalNodeLease (scope : AppSpaceScope) (plan : CanonicalNodeUploadPlan)
    (limits : CanonicalNodeLimits) (now : Run Z) (parsed : option ParsedUploadedNodeMetadata)
    : Run CasLeaseResult :=
  let hash := pl_hash plan in
  _ ← lift (validateLeaseHash hash);
  existing ← readCanonicalNodeLease scope hash;
  now ← now;
  parsed ← match parsed with
           | Some parsed => mret parsed
           | None =>
               try_catch (inspectCanonicalNode scope hash (pl_storedBytes plan) limits)
                 (λ e, let message := error_message e in
                    throw (node_error (if includes message "too large" then 413 else 400)
                             NodeOpErrorCodes.INVALID_REQUEST message))
           end;
  _ ← match existing with
      | Some existing =>
          refs ← readNodeRefs scope hash;
          lift (throw_if (negb (cl_contentSize existing =? pm_contentSize parsed)
                          || negb (bool_decide (cl_contentType existing = pm_contentType parsed))
                          || negb (sameRefs refs (pm_refs parsed)))
                  (node_error 409 NodeOpErrorCodes.CONFLICT "Immutable metadata mismatch"))
      | None => mret tt
      end;
  _ ← requireChildren scope (pm_refs parsed);
  let lease := nextNodeLease (cl_lease <$> existing) (pl_leaseDurationMs plan) now in
  _ ← commitUploadedCanonicalNode scope
        (match existing with
         | None => CommitNew hash parsed (pl_storedBytes plan) lease
         | Some _ => CommitExisting hash (pl_storedBytes plan) lease
         end);
  mret (mkLeaseResult hash lease).

(** [leaseCanonicalNode(input)]; cancelling the caller's stream has no effect on
    the repository. *)
Definition leaseCanonicalNode (scope : AppSpaceScope) (hash : string) (leaseDurationMs : Z)
    (body : list bytes) (declaredLength : option Z) (limits : CanonicalNodeLimits)
    (now : Run Z) : Run CasLeaseResult :=
  begin ← beginCanonicalNodeLease scope hash leaseDurationMs declaredLength limits now;
  match begin with
  | BeginReady result => mret result
  | BeginUpload plan =>
      _ ← uploadCanonicalNode scope plan body;
      finalizeCanonicalNodeLease scope plan limits now None
  end.
End streamed.

Section direct.
Context {W : Type} `{!CanonicalDirectUploadRepository W}.
Notation Run := (M exn W).

(** The end of [prepareCanonicalNodeUpload]: a session that replaces [existing]. *)
Definition newUploadSession (scope : AppSpaceScope) (hash : string)
    (storedBytes leaseDurationMs : Z) (createIdentifiers : Run (string * string))
    (uploadSessionMs : option Z) (now : Z) (existing : option CanonicalDirectUploadSession)
    : Run CanonicalDirectUploadPrepareResult :=
  '(uploadId, temporaryObjectKey) ← createIdentifiers;
  if (strlen uploadId =? 0) || (strlen temporaryObjectKey =? 0)
  then throw (TypeError "Canonical upload identifiers must not be empty")
  else
    let session := mkDirectSession hash uploadId temporaryObjectKey storedBytes leaseDurationMs
                     now (now + default DEFAULT_UPLOAD_SESSION_MS uploadSessionMs) in
    _ ← reserveCanonicalUploadSession scope session;
    mret (PrepareUpload session (ds_temporaryObjectKey <$> existing)).

(** [prepareCanonicalNodeUpload(input)]. *)
Definition prepareCanonicalNodeUpload (scope : AppSpaceScope) (hash : string)
    (storedBytes leaseDurationMs : Z) (createIdentifiers : Run (string * string))
    (limits : CanonicalNodeLimits) (uploadSessionMs : option Z) (now : Run Z)
    : Run CanonicalDirectUploadPrepareResult :=
  _ ← lift (validateLeaseHash hash);
  isReady ← tryLeaseReady scope hash leaseDurationMs limits now;
  match isReady with
  | Some result => mret (PrepareReady result)
  | None =>
      _ ← lift (throw_if (negb (isSafeInteger storedBytes) || (storedBytes <? 1))
            (node_error 400 NodeOpErrorCodes.UPLOAD_INVALID "Invalid canonical upload length"));
      _ ← lift (throw_if (max_bytes limits <? storedBytes)
            (node_error 413 NodeOpErrorCodes.UPLOAD_INVALID "Canonical node is too large"));
      now ← now;
      existing ← readCanonicalUploadSession scope hash;
      match existing with
      | Some session =>
          if now <? ds_expiresAt session then
            _ ← lift (throw_if (negb (ds_storedBytes session =? storedBytes))
                  (node_error 409 NodeOpErrorCodes.UPLOAD_CONFLICT
                     "Canonical upload length conflicts with the active session"));
            mret (PrepareUpload session None)
          else newUploadSession scope hash storedBytes leaseDurationMs createIdentifiers
                 uploadSessionMs now existing
      | None => newUploadSession scope hash storedBytes leaseDurationMs createIdentifiers
                 uploadSessionMs now existing
      end
  end.

(** [admitCanonicalNodeUploadFinalization(input)]. *)
Definition admitCanonicalNodeUploadFinalization (scope : AppSpaceScope) (hash uploadId : string)
    (leaseDurationMs : Z) (limits : CanonicalNodeLimits) (now : Run Z)
    : Run CanonicalDirectUploadFinalizeAdmission :=
  _ ← lift (validateLeaseHash hash);
  isReady ← tryLeaseReady scope hash leaseDurationMs limits now;
  match isReady with
  | Some result => mret (AdmitReady result)
  | None =>
      session ← readCanonicalUploadSession scope hash;
      match session with
      | Some session =>
          _ ← lift (throw_if (negb (bool_decide (ds_uploadId session = uploadId)))
                (node_error 400 NodeOpErrorCodes.UPLOAD_INVALID
                   "Canonical upload session is invalid"));
          now ← now;
          _ ← lift (throw_if (ds_expiresAt session <=? now)
                (node_error 410 NodeOpErrorCodes.UPLOAD_EXPIRED
                   "Canonical upload session expired"));
          mret (AdmitUpload session)
      | None => throw (node_error 400 NodeOpErrorCodes.UPLOAD_INVALID
                         "Canonical upload session is invalid")
      end
  end.
End direct.
