(* ===== verification/NodeLeaseD1.v ===== *)
(** The D1/R2 adapter of [packages/service-cloudflare/src/node-lease.ts]: the
    statements and bucket calls behind every repository method of [NodeLease.v].
    The ready cache it fills is never read, so it is left out. *)
From Stdlib Require Import Ascii.
From stdpp Require Import sorting.
From S2P Require Import Prelude Js MapSum Errors Codec Validation CanonicalStream Store World.
From S2P Require Import DoNames RefInv NodeLease.

(** * Rows and records *)

Definition lease_of_row (r : NodeRow) : NodeLeaseRecord :=
  mkLease (lease_started_at r) (lease_expires_at r).

(** [WHERE ... AND ready = 1]. *)
Definition ready_node (k : NodeKey) (d : Db) : option NodeRow :=
  match cas_nodes d !! k with
  | Some r => if ready r then Some r else None
  | None => None
  end.

(** [SELECT child_hash ... ORDER BY ordinal ASC]. *)
Definition ordinal_le (a b : nat * string) : Prop := (fst a ≤ fst b)%nat.
#[global] Instance ordinal_le_dec : RelDecision ordinal_le.
Proof. intros a b. unfold ordinal_le. apply _. Defined.
Definition edges_of (p : NodeKey) (d : Db) : list (nat * string) :=
  (λ e : NodeKey * nat * string, (snd (fst e), snd e))
    <$> filter (λ e : NodeKey * nat * string, fst (fst e) = p) (map_to_list (cas_edges d)).
Definition ordered_refs (p : NodeKey) (d : Db) : list string :=
  snd <$> merge_sort ordinal_le (edges_of p d).

Definition validation_of_row (v : Z * Z * string * list string) : LeaseDrivenUploadValidation :=
  let '(stored, size, ct, refs) := v in mkValidation stored (mkParsedMetadata size ct refs).
Definition row_of_validation (v : LeaseDrivenUploadValidation) : Z * Z * string * list string :=
  (lv_storedBytes v, pm_contentSize (lv_metadata v), pm_contentType (lv_metadata v),
   pm_refs (lv_metadata v)).

Definition upload_of_row (hash : string) (r : UploadRow) : LeaseDrivenUploadRecord :=
  mkUpload hash (up_generation r) (up_temporary_object_key r) (up_created_at r)
    (up_expires_at r) (up_cleanup_at r)
    ((λ c : string * string, mkRejection (fst c) (snd c)) <$> up_rejection r)
    (validation_of_row <$> up_validation r).
Definition row_of_upload (u : LeaseDrivenUploadRecord) : UploadRow :=
  mkUploadRow (lu_generation u) (lu_temporaryObjectKey u) (lu_createdAt u) (lu_expiresAt u)
    (lu_cleanupAt u) ((λ c, (rj_code c, rj_message c)) <$> lu_rejection u)
    (row_of_validation <$> lu_validation u).

Definition session_of_row (hash : string) (r : SessionRow) : CanonicalDirectUploadSession :=
  mkDirectSession hash (ss_upload_id r) (ss_temporary_object_key r) (ss_stored_bytes r)
    (ss_lease_duration_ms r) (ss_created_at r) (ss_expires_at r).
Definition row_of_session (s : CanonicalDirectUploadSession) : SessionRow :=
  mkSessionRow (ds_uploadId s) (ds_temporaryObjectKey s) (ds_storedBytes s)
    (ds_leaseDurationMs s) (ds_createdAt s) (ds_expiresAt s).

(** * Statements *)

Definition set_lease (l : NodeLeaseRecord) (r : NodeRow) : NodeRow :=
  mkNodeRow (content_size r) (content_type r) (leaseStartedAt l) (leaseExpiresAt l)
    (child_ref_count r) (root_ref_count r) (ready r) (canonical_stored_bytes r)
    (canonical_observed_at r).

(** The update of [commitUploadedCanonicalNode] for an existing row. *)
Definition set_lease_and_bytes (l : NodeLeaseRecord) (storedBytes now : Z) (r : NodeRow)
    : NodeRow :=
  mkNodeRow (content_size r) (content_type r) (leaseStartedAt l) (leaseExpiresAt l)
    (child_ref_count r) (root_ref_count r) (ready r) (Some storedBytes) (Some now).

Definition reservation_row (r : CanonicalUploadReservation) : ReservationRow :=
  mkReservationRow (cr_storedBytes r) (cr_createdAt r) (cr_expiresAt r).

(** [INSERT INTO cas_node_upload_cleanup ... SELECT ... FROM cas_node_uploads]. *)
Definition queue_superseded (k : NodeKey) (generation : string) : stmt := λ d,
  match upload_of_generation k generation d with
  | Some r => upsert_cleanup (fst k) (up_temporary_object_key r) (up_cleanup_at r) d
  | None => Some (d, 0)
  end.

Definition set_validation (v : LeaseDrivenUploadValidation) (r : UploadRow) : UploadRow :=
  mkUploadRow (up_generation r) (up_temporary_object_key r) (up_created_at r) (up_expires_at r)
    (up_cleanup_at r) (up_rejection r) (Some (row_of_validation v)).

(** [INSERT INTO cas_upload_reservations ... SELECT ... FROM cas_node_uploads]. *)
Definition reserve_of_upload (k : NodeKey) (generation : string) (storedBytes : Z) : stmt := λ d,
  match upload_of_generation k generation d with
  | Some r =>
      let row := mkReservationRow storedBytes (up_created_at r) (up_cleanup_at r) in
      upsert_reservation k row (λ _, row) d
  | None => Some (d, 0)
  end.

(** [DELETE FROM cas_upload_reservations ... AND EXISTS (upload of the generation)]. *)
Definition delete_reservation_of_upload (k : NodeKey) (generation : string) : stmt := λ d,
  match upload_of_generation k generation d with
  | Some _ => delete_reservation k d
  | None => Some (d, 0)
  end.

(** [... AND EXISTS (direct upload session of that id)]. *)
Definition session_of_id (k : NodeKey) (uploadId : string) (d : Db) : bool :=
  match cas_direct_upload_sessions d !! k with
  | Some r => bool_decide (ss_upload_id r = uploadId)
  | None => false
  end.
Definition delete_reservation_of_session (k : NodeKey) (uploadId : string) : stmt := λ d,
  if session_of_id k uploadId d then delete_reservation k d else Some (d, 0).
Definition delete_session_of_id (k : NodeKey) (uploadId : string) : stmt := λ d,
  if session_of_id k uploadId d then delete_session k d else Some (d, 0).

(** The statements of one reference of a new node: its edge and its counter. *)
Fixpoint ref_stmts (k : NodeKey) (index : nat) (refs : list string) : list stmt :=
  match refs with
  | [] => []
  | ref :: refs =>
      insert_edge k index ref :: update_node (child_key k ref) (add_child_refs 1)
      :: ref_stmts k (S index) refs
  end.

Definition new_row (m : ParsedUploadedNodeMetadata) (storedBytes : Z) (l : NodeLeaseRecord)
    (now : Z) : NodeRow :=
  mkNodeRow (pm_contentSize m) (pm_contentType m) (leaseStartedAt l) (leaseExpiresAt l) 0 0 true
    (Some storedBytes) (Some now).

(** The batch of [commitNewNode]. *)
Definition commit_batch (k : NodeKey) (m : ParsedUploadedNodeMetadata) (storedBytes : Z)
    (l : NodeLeaseRecord) (now : Z) (first : option stmt) : list stmt :=
  option_list first
  ++ insert_node k (new_row m storedBytes l now) :: ref_stmts k 0 (pm_refs m)
  ++ [delete_reservation k; delete_session k].

(** ** Cleanup scans *)

(** [ORDER BY cleanup_at ASC, name ASC]. *)
Definition cleanup_le (a b : Z * string) : Prop :=
  fst a < fst b ∨ (fst a = fst b ∧ Is_true (String.leb (snd a) (snd b))).
#[global] Instance cleanup_le_dec : RelDecision cleanup_le.
Proof. intros a b. unfold cleanup_le. apply _. Defined.

Definition due_uploads (s : AppSpaceScope) (now limit : Z) (d : Db)
    : list (string * string * string) :=
  let due := filter (λ e : NodeKey * UploadRow, fst (fst e) = s ∧ up_cleanup_at (snd e) ≤ now)
               (map_to_list (cas_node_uploads d)) in
  let sorted := merge_sort (λ a b : NodeKey * UploadRow,
                  cleanup_le (up_cleanup_at (snd a), snd (fst a)) (up_cleanup_at (snd b), snd (fst b)))
                due in
  (λ e : NodeKey * UploadRow,
     (snd (fst e), up_generation (snd e), up_temporary_object_key (snd e)))
    <$> take (Z.to_nat limit) sorted.

Definition due_superseded (s : AppSpaceScope) (now limit : Z) (d : Db) : list string :=
  let due := filter (λ e : NodeKey * Z, fst (fst e) = s ∧ snd e ≤ now)
               (map_to_list (cas_node_upload_cleanup d)) in
  let sorted := merge_sort (λ a b : NodeKey * Z,
                  cleanup_le (snd a, snd (fst a)) (snd b, snd (fst b))) due in
  (λ e : NodeKey * Z, snd (fst e)) <$> take (Z.to_nat limit) sorted.

(** * The adapter *)

Section adapter.
Context {B : Type} `{!R2Bucket B} `{Sha256}.
Notation Run := (Act B).
Implicit Types scope : AppSpaceScope.

Definition d1_readNodeLease scope hash : Run (option NodeLeaseRecord) :=
  d1_read (λ d, lease_of_row <$> ready_node (scope, hash) d).

Definition d1_readCanonicalNodeLease scope hash : Run (option CanonicalNodeLeaseRecord) :=
  d1_read (λ d, (λ r, mkNodeLease (content_size r) (content_type r) (lease_of_row r))
                <$> ready_node (scope, hash) d).

Definition d1_readNodeRefs scope hash : Run (list string) :=
  d1_read (ordered_refs (scope, hash)).

Definition d1_readCanonicalObject scope hash : Run (option CanonicalOrphanObject) :=
  object ← r2_read (canonical_key (scope, hash));
  match object with
  | None => mret None
  | Some o =>
      match obj_sha256 o with
      | None => mret (Some (mkOrphan (blen (obj_body o)) None))
      | Some sha => hex ← lift (hashToHex sha);
                    mret (Some (mkOrphan (blen (obj_body o)) (Some hex)))
      end
  end.

Definition d1_readCanonicalBytes scope hash : Run (option bytes) :=
  object ← r2_read (canonical_key (scope, hash));
  mret (obj_body <$> object).

Definition d1_readCanonicalPrefix scope hash (len : Z) : Run (option (list bytes)) :=
  r2_read_range (canonical_key (scope, hash)) 0 len.

Definition d1_isNodeReady scope hash : Run bool :=
  row ← d1_read (ready_node (scope, hash));
  match row with
  | None => mret false
  | Some _ =>
      object ← r2_read (canonical_key (scope, hash));
      mret (bool_decide (is_Some object))
  end.

Definition d1_renewNodeLease scope hash (lease : NodeLeaseRecord) : Run unit :=
  _ ← d1_run (update_node (scope, hash) (set_lease lease)); mret tt.

Definition d1_reserveCanonicalUpload scope (r : CanonicalUploadReservation) : Run unit :=
  _ ← d1_run (upsert_reservation (scope, cr_hash r) (reservation_row r)
        (λ old, mkReservationRow (cr_storedBytes r) (rv_created_at old) (cr_expiresAt r)));
  mret tt.

Definition d1_readCanonicalUploadSession scope hash
    : Run (option CanonicalDirectUploadSession) :=
  d1_read (λ d, session_of_row hash <$> cas_direct_upload_sessions d !! (scope, hash)).

Definition d1_reserveCanonicalUploadSession scope (s : CanonicalDirectUploadSession) : Run unit :=
  let row := mkReservationRow (ds_storedBytes s) (ds_createdAt s) (ds_expiresAt s) in
  _ ← d1_batch [upsert_session (scope, ds_hash s) (row_of_session s);
                upsert_reservation (scope, ds_hash s) row (λ _, row)];
  mret tt.

Definition d1_deleteCanonicalUploadSession scope hash uploadId : Run unit :=
  _ ← d1_batch [delete_reservation_of_session (scope, hash) uploadId;
                delete_session_of_id (scope, hash) uploadId];
  mret tt.

Definition d1_readLeaseDrivenUpload scope hash : Run (option LeaseDrivenUploadRecord) :=
  d1_read (λ d, upload_of_row hash <$> cas_node_uploads d !! (scope, hash)).

Definition d1_countLeaseDrivenUploads scope : Run Z :=
  d1_read (λ d, mcount (λ k _, bool_decide (fst k = scope)) (cas_node_uploads d)).

(** [results[i].meta.changes]. *)
Definition changes (i : nat) (ns : list Z) : Z := default 0 (ns !! i).

Definition d1_replaceLeaseDrivenUpload scope (expectedGeneration : option string)
    (record : LeaseDrivenUploadRecord) : Run bool :=
  let k := (scope, lu_hash record) in
  match expectedGeneration with
  | None =>
      n ← d1_run (insert_upload k (row_of_upload record)); mret (n =? 1)
  | Some generation =>
      ns ← d1_batch [queue_superseded k generation;
                     update_upload k generation (λ _, row_of_upload record)];
      mret (changes 1 ns =? 1)
  end.

Definition d1_stageLeaseDrivenUploadValidation scope hash generation
    (v : LeaseDrivenUploadValidation) : Run bool :=
  let k := (scope, hash) in
  ns ← d1_batch [update_upload k generation (set_validation v);
                 reserve_of_upload k generation (lv_storedBytes v)];
  mret (changes 0 ns =? 1).

Definition d1_readTemporaryUploadObject scope key : Run (option Z) :=
  object ← r2_read key; mret ((blen ∘ obj_body) <$> object).

Definition d1_readTemporaryUploadBytes scope key : Run (option bytes) :=
  object ← r2_read key; mret (obj_body <$> object).

Definition d1_deleteTemporaryUploadObject scope key : Run unit :=
  _ ← r2_remove key;
  _ ← d1_run (delete_cleanup scope key);
  mret tt.

Definition d1_deleteLeaseDrivenUpload scope hash generation : Run unit :=
  _ ← d1_run (delete_upload (scope, hash) generation); mret tt.

(** The end of a conditional put that stored nothing: what is there must hash
    to the name. *)
Definition verify_existing scope hash : Run unit :=
  existing ← d1_readCanonicalBytes scope hash;
  match existing with
  | None => throw (Error "Canonical object conflicts with its hash")
  | Some bs =>
      digest ← lift (hashToHex (sha256 bs));
      lift (throw_if (negb (bool_decide (digest = hash)))
              (Error "Canonical object conflicts with its hash"))
  end.

Definition d1_putVerifiedCanonicalBytes scope hash (bs : bytes) : Run unit :=
  stored ← r2_write (canonical_key (scope, hash)) bs (Some hash) true;
  if (stored : bool) then mret tt else verify_existing scope hash.

Definition d1_putCanonicalObject scope hash (body : list bytes) : Run unit :=
  stored ← r2_write (canonical_key (scope, hash)) (concat body) (Some hash) true;
  if (stored : bool) then mret tt else verify_existing scope hash.

Definition commitNewNode scope hash (m : ParsedUploadedNodeMetadata) (storedBytes : Z)
    (lease : NodeLeaseRecord) (first : option stmt) : Run unit :=
  now ← Date_now;
  _ ← d1_batch (commit_batch (scope, hash) m storedBytes lease now first);
  mret tt.

Definition d1_commitUploadedCanonicalNode scope (plan : UploadedCanonicalNodeCommit) : Run unit :=
  match plan with
  | CommitExisting hash storedBytes lease =>
      now ← Date_now;
      _ ← d1_batch [update_node (scope, hash) (set_lease_and_bytes lease storedBytes now);
                    delete_reservation (scope, hash); delete_session (scope, hash)];
      mret tt
  | CommitNew hash m storedBytes lease => commitNewNode scope hash m storedBytes lease None
  end.

Definition d1_commitAdoptedCanonicalNode scope (plan : AdoptedCanonicalNodePlan) : Run unit :=
  let reservation := upsert_reservation (scope, ap_hash plan)
    (mkReservationRow (ap_storedBytes plan) (ap_reservationCreatedAt plan)
       (ap_reservationExpiresAt plan))
    (λ old, mkReservationRow (ap_storedBytes plan) (rv_created_at old) (rv_expires_at old)) in
  commitNewNode scope (ap_hash plan) (ap_metadata plan) (ap_storedBytes plan) (ap_lease plan)
    (Some reservation).

#[global] Instance d1_NodeLeaseRepository : NodeLeaseRepository (World B) := {|
  readNodeLease := d1_readNodeLease;
  readCanonicalObject := d1_readCanonicalObject;
  readCanonicalPrefix := d1_readCanonicalPrefix;
  isNodeReady := d1_isNodeReady;
  renewNodeLease := d1_renewNodeLease;
  commitAdoptedCanonicalNode := d1_commitAdoptedCanonicalNode
|}.

#[global] Instance d1_CanonicalNodeLeaseRepository : CanonicalNodeLeaseRepository (World B) := {|
  readCanonicalNodeLease := d1_readCanonicalNodeLease;
  readNodeRefs := d1_readNodeRefs;
  reserveCanonicalUpload := d1_reserveCanonicalUpload;
  putCanonicalObject := d1_putCanonicalObject;
  commitUploadedCanonicalNode := d1_commitUploadedCanonicalNode
|}.

#[global] Instance d1_CanonicalDirectUploadRepository
    : CanonicalDirectUploadRepository (World B) := {|
  readCanonicalUploadSession := d1_readCanonicalUploadSession;
  reserveCanonicalUploadSession := d1_reserveCanonicalUploadSession;
  deleteCanonicalUploadSession := d1_deleteCanonicalUploadSession
|}.

#[global] Instance d1_LeaseDrivenNodeUploadRepository
    : LeaseDrivenNodeUploadRepository (World B) := {|
  countLeaseDrivenUploads := d1_countLeaseDrivenUploads;
  readCanonicalBytes := d1_readCanonicalBytes;
  readLeaseDrivenUpload := d1_readLeaseDrivenUpload;
  replaceLeaseDrivenUpload := d1_replaceLeaseDrivenUpload;
  stageLeaseDrivenUploadValidation := d1_stageLeaseDrivenUploadValidation;
  readTemporaryUploadObject := d1_readTemporaryUploadObject;
  readTemporaryUploadBytes := d1_readTemporaryUploadBytes;
  deleteTemporaryUploadObject := d1_deleteTemporaryUploadObject;
  deleteLeaseDrivenUpload := d1_deleteLeaseDrivenUpload;
  putVerifiedCanonicalBytes := d1_putVerifiedCanonicalBytes
|}.

(** [cleanupExpiredLeaseDrivenUploads(scope, now, limit)]. *)
Definition cleanupExpiredLeaseDrivenUploads scope (now limit : Z) : Run Z :=
  rows ← d1_read (due_uploads scope now limit);
  deleted ← fold_m (λ deleted row,
      let '(hash, generation, key) := row in
      _ ← d1_deleteTemporaryUploadObject scope key;
      ns ← d1_batch [delete_reservation_of_upload (scope, hash) generation;
                     delete_upload (scope, hash) generation];
      mret (deleted + changes 1 ns)) 0 rows;
  let remaining := Z.max 0 (limit - deleted) in
  if remaining =? 0 then mret deleted
  else
    superseded ← d1_read (due_superseded scope now remaining);
    fold_m (λ deleted key,
      _ ← d1_deleteTemporaryUploadObject scope key; mret (deleted + 1)) deleted superseded.
End adapter.
