(* ===== verification/Described.v ===== *)
(** What the database says about a node is true of bytes that hash to its name: its
    content size, its content type and the hashes its edges lead to, in order. *)
From Stdlib Require Import Ascii.
From stdpp Require Import sorting.
From S2P Require Import Prelude Js MapSum Errors Codec Validation CanonicalStream Store.
From S2P Require Import SpaceCommits World DoNames RefInv NodeLease NodeLeaseD1.

Section described.
Context `{Sha256}.

(** A node of this size, type and references has this hash. *)
Definition describes (h : string) (contentSize : Z) (contentType : string) (refs : list string)
    : Prop :=
  ∃ hs content,
    content_type_ok contentType ∧ hashes_wf hs
    ∧ within_limits noLimits contentSize (strlen contentType) (Z.of_nat (length hs))
    ∧ refs = hex_of <$> hs ∧ contentSize = blen content
    ∧ hex_of (sha256 (encodeNode contentType hs content)) = h.

Definition meta_described (h : string) (m : ParsedUploadedNodeMetadata) : Prop :=
  describes h (pm_contentSize m) (pm_contentType m) (pm_refs m).

(** An upload that validates is described by its validation. *)
Lemma validate_described h bs limits v :
  validateLeaseDrivenUpload h bs limits = Ok (inl v) → meta_described h (lv_metadata v).
Proof.
  unfold validateLeaseDrivenUpload. case_match; [done|].
  destruct (hashToHex (sha256 bs)) as [digest|] eqn:Hd; [|done]. cbn [mbind result_bind].
  case_match eqn:Hdig; [done|]. apply negb_false_iff, bool_decide_eq_true in Hdig. subst digest.
  apply hashToHex_inv in Hd as [_ Hh].
  destruct (parseCanonicalNodeStream _ _ _) as [p|] eqn:Hp; [|done]. injection 1 as <-.
  destruct (parse_inv _ _ _ _ Hp) as (cs & ct & hs & rest & Hpre).
  destruct (parse_success _ _ _ _ _ _ _ Hpre) as (body & Hp' & _).
  rewrite Hp in Hp'. injection Hp' as ->. destruct Hpre as [Hb Hct Hhs Hlim Hdecl].
  cbn [concat] in Hb. rewrite app_nil_r in Hb. simpl in Hdecl.
  assert (cs = blen rest) as ->.
  { pose proof (blen_encode_printable ct (proj2 Hct)) as He. rewrite Hb in Hdecl.
    unfold node_size, blen in *. rewrite !length_app, length_header_bytes, length_concat_hashes in Hdecl by done.
    lia. }
  exists hs, rest. unfold meta_described. simpl. split_and!; try done.
  - by eapply within_noLimits.
  - rewrite Hh, Hb. done.
Qed.

(** ** The rows *)

Definition staged_described (h : string) (v : Z * Z * string * list string) : Prop :=
  meta_described h (lv_metadata (validation_of_row v)).

Definition rows_described (d : Db) : Prop := ∀ k r, cas_nodes d !! k = Some r →
  ∃ refs, describes (snd k) (content_size r) (content_type r) refs
          ∧ ∀ i, cas_edges d !! (k, i) = refs !! i.

(** The rows that stay say what they said. *)
Definition same_content (d d' : Db) : Prop := ∀ k r', cas_nodes d' !! k = Some r' →
  (∃ r, cas_nodes d !! k = Some r ∧ content_size r' = content_size r
        ∧ content_type r' = content_type r)
  ∧ ∀ i, cas_edges d' !! (k, i) = cas_edges d !! (k, i).

Lemma rows_described_same d d' : same_content d d' → rows_described d → rows_described d'.
Proof.
  intros Hs Hd k r' Hk. destruct (Hs k r' Hk) as [(r & Hr & -> & ->) He].
  destruct (Hd k r Hr) as (refs & Hdesc & Hrefs). exists refs. split; [done|].
  intros i. by rewrite He.
Qed.

Lemma same_content_eq d d' :
  cas_nodes d' = cas_nodes d → cas_edges d' = cas_edges d → same_content d d'.
Proof. intros Hn He k r Hk. rewrite Hn in Hk. rewrite He. split; [by exists r|done]. Qed.

(** ** The order of the references *)

#[local] Instance ordinal_le_total : Total ordinal_le.
Proof. intros a b. unfold ordinal_le. lia. Qed.
#[local] Instance ordinal_le_trans : Transitive ordinal_le.
Proof. intros a b c. unfold ordinal_le. lia. Qed.

Lemma ordered_refs_spec k refs d :
  (∀ i, cas_edges d !! (k, i) = refs !! i) → ordered_refs k d = refs.
Proof.
  intros He. unfold ordered_refs.
  assert (merge_sort ordinal_le (edges_of k d) = imap pair refs) as ->.
  2:{ rewrite fmap_imap. rewrite (imap_ext _ (const id)) by done. rewrite imap_const. apply list_fmap_id. }
  assert (∀ i c, (i, c) ∈ edges_of k d ↔ refs !! i = Some c) as Hin.
  { intros i c. rewrite <- He. unfold edges_of. rewrite list_elem_of_fmap. split.
    - intros ([[p j] c'] & [= -> ->] & Hl). apply list_elem_of_filter in Hl as [Hp Hl].
      simpl in Hp. subst p. by apply elem_of_map_to_list in Hl.
    - intros Hl. exists ((k, i), c). split; [done|]. apply list_elem_of_filter.
      split; [done|]. by apply elem_of_map_to_list. }
  apply (Sorted_unique_strong ordinal_le).
  - intros [i c] [j c'] Hi Hj Hle Hge. unfold ordinal_le in *. simpl in *.
    assert (i = j) as -> by lia. f_equal.
    rewrite merge_sort_Permutation in Hi. apply Hin in Hi.
    apply elem_of_lookup_imap in Hj as (i' & x & [= <- <-] & Hx). congruence.
  - apply Sorted_merge_sort. apply _.
  - clear. cut (∀ n, Sorted ordinal_le (imap (λ i, pair (n + i)%nat) refs)).
    { intros Hc. exact (Hc O). }
    induction refs as [|c refs IH]; intros n; [constructor|]. rewrite imap_cons. constructor.
    + rewrite (imap_ext _ (λ i, pair (S n + i)%nat)); [apply IH|]. intros i x _. simpl. by rewrite Nat.add_succ_r.
    + destruct refs as [|c' refs]; [constructor|]. rewrite imap_cons. constructor.
      unfold ordinal_le. simpl. lia.
  - rewrite merge_sort_Permutation. apply NoDup_Permutation.
    + unfold edges_of. apply NoDup_fmap_2_strong.
      * intros [[p1 i1] c1] [[p2 i2] c2] H1 H2 Heq. simpl in Heq. injection Heq as -> ->.
        apply list_elem_of_filter in H1 as [H1 _], H2 as [H2 _]. simpl in *. by subst.
      * apply NoDup_filter, NoDup_map_to_list.
    + apply (NoDup_fmap_1 fst). rewrite fmap_imap.
      rewrite (imap_ext _ (λ i _, i)) by done. clear. apply NoDup_alt. intros i j x.
      rewrite !list_lookup_imap. intros Hi Hj.
      destruct (refs !! i), (refs !! j); simpl in *; congruence.
    + intros [i c]. rewrite Hin, elem_of_lookup_imap. split.
      * intros Hr. by exists i, c.
      * by intros (j & x & [= -> ->] & Hx).
Qed.
End described.
