(* ===== verification/NodeLeaseSafe.v ===== *)
(** What the lease-driven upload kernel relies on of its repository, as a class of
    laws, and what it guarantees in return: it keeps the repository's invariant
    whatever fails on the way, it commits a node only when its children are ready
    and its content is stored, and it answers ready only for a node that is. *)
From Stdlib Require Import Ascii.
From S2P Require Import Prelude Js Errors Safe Codec Validation CanonicalStream Store.
From S2P Require Import NodeLease Described.

Class LeaseRepositoryLaws {W : Type} `{!LeaseDrivenNodeUploadRepository W} `{Sha256}
    (I0 I : Invariant W) (scope_ok : AppSpaceScope → Prop)
    (row present : AppSpaceScope → string → W → Prop)
    (leased within : AppSpaceScope → string → Z → W → Prop) (temp_ok : string → Prop) : Prop := {
  (* [I0] is [I] with every lease frozen *)
  ll_holds w : holds I0 w ↔ holds I w;
  ll_frozen w w' : keeps I0 w w' → keeps I w w';
  ll_row_frozen s h : stable I0 (row s h);
  ll_within_frozen s h t : stable I0 (within s h t);
  ll_leased_stable s h t : stable I (leased s h t);
  ll_row_stable s h : stable I (row s h);
  ll_present_stable s h : stable I (present s h);
  ll_isNodeReady s h : scope_ok s →
    safe I (λ _, True) (isNodeReady s h) (λ b w, b = true → row s h w ∧ present s h w);
  ll_readLease s h : scope_ok s →
    safe I0 (λ _, True) (readCanonicalNodeLease s h)
      (λ r w, ∀ c, r = Some c → row s h w ∧ within s h (leaseExpiresAt (cl_lease c)) w);
  ll_readObject s h : scope_ok s → is_hash h = true →
    safe I0 (λ _, True) (readCanonicalObject s h) (λ o w, is_Some o → present s h w);
  ll_readBytes s h : scope_ok s →
    safe I (λ _, True) (readCanonicalBytes s h) (λ _ _, True);
  ll_readUpload s h : scope_ok s →
    safe I (λ _, True) (readLeaseDrivenUpload s h)
      (λ r _, ∀ u, r = Some u → temp_ok (lu_temporaryObjectKey u)
         ∧ ∀ v, lu_validation u = Some v → meta_described h (lv_metadata v));
  ll_count s : scope_ok s →
    safe I (λ _, True) (countLeaseDrivenUploads s) (λ _ _, True);
  ll_replace s g u : scope_ok s → temp_ok (lu_temporaryObjectKey u) → lu_validation u = None →
    safe I (λ _, True) (replaceLeaseDrivenUpload s g u) (λ _ _, True);
  ll_stage s h g v : scope_ok s → meta_described h (lv_metadata v) →
    safe I (λ _, True) (stageLeaseDrivenUploadValidation s h g v) (λ _ _, True);
  ll_readTemporary s k : scope_ok s →
    safe I (λ _, True) (readTemporaryUploadObject s k) (λ _ _, True);
  ll_readTemporaryBytes s k : scope_ok s →
    safe I (λ _, True) (readTemporaryUploadBytes s k) (λ _ _, True);
  ll_deleteTemporary s k : scope_ok s → temp_ok k →
    safe I (λ _, True) (deleteTemporaryUploadObject s k) (λ _ _, True);
  ll_deleteUpload s h g : scope_ok s →
    safe I (λ _, True) (deleteLeaseDrivenUpload s h g) (λ _ _, True);
  ll_put s h bs : scope_ok s → is_hash h = true →
    safe I (λ _, True) (putVerifiedCanonicalBytes s h bs) (λ _, present s h);
  ll_renew s h l t : scope_ok s → is_hash h = true → t ≤ leaseExpiresAt l →
    safe I (λ w, present s h w ∧ within s h t w) (renewNodeLease s h l)
      (λ _ w, row s h w ∧ present s h w ∧ leased s h (leaseExpiresAt l) w);
  ll_commit s h m n l : scope_ok s → is_hash h = true → meta_described h m →
    safe I
      (λ w, present s h w ∧ ∀ c, c ∈ pm_refs m → row s c w ∧ present s c w)
      (commitUploadedCanonicalNode s (CommitNew h m n l))
      (λ _ w, row s h w ∧ leased s h (leaseExpiresAt l) w)
}.

Section kernel.
Context {W : Type} `{!LeaseDrivenNodeUploadRepository W} `{Sha256}.
Context (I0 I : Invariant W) (scope_ok : AppSpaceScope → Prop)
        (row present : AppSpaceScope → string → W → Prop)
        (leased within : AppSpaceScope → string → Z → W → Prop) (temp_ok : string → Prop)
        `{!LeaseRepositoryLaws I0 I scope_ok row present leased within temp_ok}.
Context (input : LeaseInput W) (scope : AppSpaceScope).
Hypothesis scope_fine : scope_ok scope.
(** The identifiers a fresh upload gets, and the clock. *)
Hypothesis identifiers_fine :
  safe I (λ _, True) (in_createIdentifiers input) (λ ids _, temp_ok (snd ids)).
Hypothesis now_fine : safe I (λ _, True) (in_now input) (λ _ _, True).
Notation safe := (safe I).
Notation hash := (in_hash input).

Definition node_ready (h : string) (w : W) : Prop := row scope h w ∧ present scope h w.

(** A ready answer is about the node asked for, which is ready and leased at
    least as long as the answer says. *)
Definition truthful (r : LeaseDrivenNodeUploadResult) (w : W) : Prop :=
  ∀ h l, r = LeaseReady h l → h = hash ∧ node_ready h w ∧ leased scope h (leaseExpiresAt l) w.

Definition upload_fine (u : LeaseDrivenUploadRecord) : Prop :=
  temp_ok (lu_temporaryObjectKey u)
  ∧ ∀ v, lu_validation u = Some v → meta_described hash (lv_metadata v).
Definition upload_new (u : LeaseDrivenUploadRecord) : Prop :=
  temp_ok (lu_temporaryObjectKey u) ∧ lu_validation u = None.

Lemma upload_new_fine u : upload_new u → upload_fine u.
Proof. intros [? Hv]. split; [done|]. by rewrite Hv. Qed.

Lemma node_ready_stable h : stable I (node_ready h).
Proof. apply stable_and; [apply ll_row_stable | apply ll_present_stable]. Qed.

Lemma unit_stable : stable I (λ _, True).
Proof. by intros ?. Qed.

Lemma readObject_sub h : is_hash h = true →
  safe (λ _, True) (readCanonicalObject scope h) (λ o w, is_Some o → present scope h w).
Proof. intros Hh. apply (safe_sub I0); [apply ll_holds|apply ll_frozen|by apply ll_readObject]. Qed.

Hint Resolve node_ready_stable unit_stable ll_row_stable ll_present_stable ll_leased_stable : safe.

Lemma not_ready_truthful P r :
  (∀ h l, r ≠ LeaseReady h l) → safe P (mret r) truthful.
Proof. intros Hr. apply safe_ret. intros w _ h l ->. by destruct (Hr h l). Qed.

Lemma create_safe now rejection :
  safe (λ _, True) (createLeaseDrivenUpload input now rejection) (λ u _, upload_new u).
Proof.
  unfold createLeaseDrivenUpload. eapply safe_bind; [apply unit_stable|apply identifiers_fine|].
  intros [generation key]. case_match; [apply safe_throw|]. apply safe_ret. by intros w [_ ?].
Qed.

Lemma replace_safe g u : upload_new u → safe (λ _, True) (replaceUpload scope g u) (λ _ _, True).
Proof.
  intros [? ?]. unfold replaceUpload. apply safe_seq; [apply unit_stable|by apply ll_replace|].
  intros b. by apply safe_lift.
Qed.

Lemma delete_temp_safe key :
  temp_ok key →
  safe (λ _, True) (ignore_errors (deleteTemporaryUploadObject scope key)) (λ _ _, True).
Proof. intros. apply safe_ignore; [apply unit_stable|by apply ll_deleteTemporary]. Qed.

Lemma stage_safe u v : meta_described hash (lv_metadata v) → safe (λ _, True) (stageValidation input scope u v) (λ _ _, True).
Proof.
  intros Hd. unfold stageValidation. apply safe_seq; [apply unit_stable|by apply ll_stage|].
  intros b. by apply safe_lift.
Qed.

Lemma unready_safe refs :
  safe (λ _, True) (unreadyChildren scope refs)
    (λ unready w, unready = [] → ∀ c, c ∈ refs → node_ready c w).
Proof.
  induction refs as [|c refs IH]; simpl.
  - apply safe_ret. intros w _ _ c Hc. by apply elem_of_nil in Hc.
  - eapply safe_bind; [apply unit_stable|by apply ll_isNodeReady|]. intros b.
    eapply safe_bind; [| |].
    + apply stable_and; [apply unit_stable|]. apply stable_impl, node_ready_stable.
    + eapply safe_pre; [|exact IH]. done.
    + intros unready. apply safe_ret. intros w [[_ Hb] Hall] He c'.
      destruct b; [|done]. intros [->|Hc']%elem_of_cons; [by apply Hb | by apply Hall].
Qed.

Lemma publish_safe u v duration now validated :
  is_hash hash = true → upload_fine u → meta_described hash (lv_metadata v) →
  safe (λ _, True)
    (publishValidatedLeaseDrivenUpload input scope u v duration now validated) truthful.
Proof.
  intros Hh [Hu _] Hd. unfold publishValidatedLeaseDrivenUpload.
  eapply safe_bind; [apply unit_stable|apply unready_safe|]. intros [|c cs].
  2:{ by apply not_ready_truthful. }
  set (children := λ w, ∀ c, c ∈ pm_refs (lv_metadata v) → node_ready c w).
  assert (stable I children) as Hst.
  { apply stable_forall. intros c. apply stable_impl, node_ready_stable. }
  apply (safe_pre _ children).
  { intros w [_ Hw] c Hc. apply Hw; [done|]. by apply elem_of_set_of. }
  apply safe_seq; [done| |].
  { destruct validated; [by apply safe_ret|].
    eapply safe_pre; [|by apply ll_readTemporaryBytes]. done. }
  intros bs. eapply (safe_bind _ _ _ _ (λ _, present scope hash)); [done| |].
  { destruct bs as [bs|].
    - eapply safe_pre; [|by apply ll_put]. done.
    - eapply safe_bind; [done| |].
      + eapply safe_pre; [|by apply readObject_sub]. done.
      + intros o. apply safe_lift. intros w [] [_ Ho] Hg. unfold throw_if in Hg.
        case_bool_decide as Hn; [done|]. apply Ho. by apply not_eq_None_Some. }
  intros [].
  set (l := nextNodeLease None duration now).
  eapply (safe_bind _ _ _ _ (λ _ w, row scope hash w ∧ leased scope hash (leaseExpiresAt l) w)).
  { apply stable_and; [done|apply ll_present_stable]. }
  { eapply safe_pre; [|by apply ll_commit]. intros w [Hc Hp]. by split. }
  intros []. apply safe_seq.
  { repeat apply stable_and;
      [done|apply ll_present_stable|apply ll_row_stable|apply ll_leased_stable]. }
  { eapply safe_pre; [|apply safe_ignore; [apply unit_stable|]]; [done|].
    apply safe_seq; [apply unit_stable|by apply ll_deleteTemporary|]. intros [].
    by apply ll_deleteUpload. }
  intros []. apply safe_ret. intros w [[_ Hp] [Hr Hl]] h l' [= <- <-]. done.
Qed.

Lemma replace_rejected_safe u rejection now :
  upload_fine u →
  safe (λ _, True) (replaceRejectedLeaseDrivenUpload input scope u rejection now) truthful.
Proof.
  intros [Hu _]. unfold replaceRejectedLeaseDrivenUpload.
  eapply safe_bind; [apply unit_stable|apply create_safe|]. intros u'.
  apply (safe_assume I (λ _, True) (upload_new u')).
  intros Hu'. apply safe_seq; [apply unit_stable|by apply replace_safe|]. intros [].
  apply safe_seq; [apply unit_stable|by apply delete_temp_safe|]. intros [].
  by apply not_ready_truthful.
Qed.

(** A new upload that is stored. *)
Lemma start_safe now rejection :
  safe (λ _, True)
    (u ← createLeaseDrivenUpload input now rejection; _ ← replaceUpload scope None u; mret u)
    (λ u _, upload_fine u).
Proof.
  eapply safe_bind; [apply unit_stable|apply create_safe|]. intros u.
  apply (safe_assume I (λ _, True) (upload_new u)). intros Hu.
  apply safe_seq; [apply unit_stable|by apply replace_safe|]. intros [].
  apply safe_ret. intros _ _. by apply upload_new_fine.
Qed.

Lemma validated_described bs v :
  validateLeaseDrivenUpload hash bs (in_limits input) = Ok (inl v) →
  meta_described hash (lv_metadata v).
Proof. apply validate_described. Qed.

Lemma recover_safe upload duration now :
  is_hash hash = true → (∀ u, upload = Some u → upload_fine u) →
  safe (λ _, True) (recoverCanonical input scope upload duration now) truthful.
Proof.
  intros Hh Hu. unfold recoverCanonical.
  eapply (safe_bind _ _ _ _ (λ u _, upload_fine u)); [apply unit_stable| |].
  { destruct upload as [u|]; [by apply safe_ret; auto|apply start_safe]. }
  intros u. apply (safe_assume I (λ _, True) (upload_fine u)). intros Huf.
  set (fine := λ p : LeaseDrivenUploadRecord * LeaseDrivenUploadValidation,
    upload_fine (fst p) ∧ meta_described hash (lv_metadata (snd p))).
  eapply (safe_bind _ _ _ _ (λ p _, fine p)); [apply unit_stable| |].
  { pose proof Huf as [Htemp Hval]. destruct (lu_validation u) as [v|] eqn:Hv.
    { apply safe_ret. intros _ _. split; [done|]. by apply Hval. }
    apply safe_seq; [apply unit_stable|by apply ll_readBytes|]. intros [bs|]; [|apply safe_throw].
    apply safe_lift_bind. intros [v|r] Hval'; [|apply safe_throw].
    pose proof (validated_described _ _ Hval') as Hd.
    apply safe_seq; [apply unit_stable|by apply stage_safe|]. intros [].
    apply safe_ret. intros _ _. split; [|done]. split; [done|]. by intros v' [= <-]. }
  intros [u' v]. apply (safe_assume I (λ _, True) (fine (u', v))). intros [? ?].
  by apply publish_safe.
Qed.

Lemma await_safe u now :
  upload_fine u → safe (λ _, True) (awaitTemporary input scope u now) truthful.
Proof.
  intros [Hu _]. unfold awaitTemporary.
  apply safe_seq; [apply unit_stable|by apply safe_lift|]. intros [].
  apply safe_seq; [apply unit_stable| |].
  - case_match; [|by apply safe_ret].
    eapply safe_bind; [apply unit_stable|apply create_safe|]. intros u'.
    apply (safe_assume I (λ _, True) (upload_new u')). intros Hu'.
    apply safe_seq; [apply unit_stable|by apply replace_safe|]. intros [].
    apply safe_seq; [apply unit_stable|by apply delete_temp_safe|]. intros []. by apply safe_ret.
  - intros u'. apply not_ready_truthful. unfold awaiting. by case_match.
Qed.

Lemma validate_safe u stored duration now :
  is_hash hash = true → upload_fine u →
  safe (λ _, True) (validateTemporary input scope u stored duration now) truthful.
Proof.
  intros Hh Hu. unfold validateTemporary. destruct (lu_validation u) as [v|] eqn:Hv.
  { apply publish_safe; [done..|]. by apply Hu. }
  case_match; [by apply replace_rejected_safe|]. pose proof Hu as [Htemp _].
  apply safe_seq; [apply unit_stable|by apply ll_readTemporaryBytes|]. intros [bs|].
  - apply safe_lift_bind. intros [v|r] Hval; [|by apply replace_rejected_safe].
    pose proof (validated_described _ _ Hval) as Hd.
    apply safe_seq; [apply unit_stable|by apply stage_safe|]. intros [].
    apply publish_safe; [done| |done]. split; [done|]. by intros v' [= <-].
  - apply not_ready_truthful. unfold awaiting. by case_match.
Qed.

Lemma lease_driven_safe :
  safe (λ _, True) (leaseDrivenNodeUpload input scope) truthful.
Proof.
  unfold leaseDrivenNodeUpload.
  eapply (safe_bind _ _ _ _ (λ _ _, is_hash hash = true)); [apply unit_stable| |].
  { apply safe_lift. intros w u _ Hv. unfold validateLeaseHash in Hv.
    destruct (validateHash hash) eqn:Hh; [|done]. by apply validateHash_spec in Hh. }
  intros []. apply (safe_assume I (λ _, True) (is_hash hash = true)). intros Hh.
  apply safe_seq; [apply unit_stable|apply now_fine|]. intros now.
  set (found := λ existing w, ∀ c, existing = Some c →
         row scope hash w ∧ within scope hash (leaseExpiresAt (cl_lease c)) w).
  eapply (safe_bind_sub I0 I); [apply ll_holds|apply ll_frozen|by intros ?|by apply ll_readLease|].
  intros existing.
  assert (stable I0 (λ w, True ∧ found existing w)) as Hst.
  { apply stable_and; [by intros ?|]. apply stable_forall. intros c. apply stable_impl, stable_and;
      [apply ll_row_frozen|apply ll_within_frozen]. }
  eapply (safe_bind_sub I0 I); [apply ll_holds|apply ll_frozen|done|eapply safe_pre; [|by apply ll_readObject]; done|].
  intros canonical. destruct existing as [existing|].
  - destruct canonical as [canonical|]; [|apply safe_throw].
    set (l := nextNodeLease (Some (cl_lease existing)) _ now).
    eapply safe_chain.
    + apply (safe_pre _ (λ w, present scope hash w
               ∧ within scope hash (leaseExpiresAt (cl_lease existing)) w)).
      { intros w [[_ Hf] Hp]. split; [by apply Hp|by apply (Hf existing)]. }
      apply (ll_renew _ _ l); [done..|]. unfold l, nextNodeLease. simpl. lia.
    + intros []. apply safe_ret. intros w (Hr & Hp & Hl) h l' [= <- <-]. done.
  - apply (safe_pre _ (λ _, True)); [done|].
    eapply safe_bind; [apply unit_stable|by apply ll_readUpload|]. intros upload.
    apply (safe_assume I (λ _, True) (∀ u, upload = Some u → upload_fine u)). intros Hu.
    destruct canonical; [by apply recover_safe|].
    eapply (safe_bind _ _ _ _ (λ u _, upload_fine u)); [apply unit_stable| |].
    + destruct upload as [u|]; [by apply safe_ret; auto|].
      apply safe_seq; [apply unit_stable|by apply ll_count|]. intros n.
      apply safe_seq; [apply unit_stable|by apply safe_lift|]. intros []. apply start_safe.
    + intros u. apply (safe_assume I (λ _, True) (upload_fine u)). intros Huf.
      pose proof Huf as [Htemp _].
      apply safe_seq; [apply unit_stable|by apply ll_readTemporary|].
      intros [stored|]; [by apply validate_safe | by apply await_safe].
Qed.
End kernel.
