(* ===== verification/Gc.v ===== *)
(** Node collection: the kernel of [packages/service/src/gc.ts] over its
    repository class, and the D1/R2 adapter of
    [packages/service-cloudflare/src/node-gc.ts]. *)
From Stdlib Require Import Ascii.
From stdpp Require Import sorting.
From S2P Require Import Prelude Js MapSum Errors Codec Store SpaceCommits World DoNames RefInv.
From S2P Require Import NodeLeaseD1.

Definition DEFAULT_GC_MAX_NODES : Z := 100.

Record NodeGcDeletion := mkDeletion {
  gd_hash : string;
  gd_contentSize : Z;
  (* [NodeGcChildReference]: hash and count *)
  gd_childReferences : list (string * Z)
}.

Record CasGcResult := mkGcResult {
  gc_examined : Z;
  gc_deleted : Z;
  gc_reclaimedContentBytes : Z
}.

Class NodeGcRepository (W : Type) := {
  findExpiredUnreferenced : AppSpaceScope → Z → Z → M exn W (list string);
  readStillExpiredUnreferenced : AppSpaceScope → string → Z → M exn W (option NodeGcDeletion);
  deleteCanonicalContent : AppSpaceScope → string → M exn W unit;
  commitDeletion : AppSpaceScope → NodeGcDeletion → M exn W unit
}.

Section kernel.
Context {W : Type} `{!NodeGcRepository W}.
Notation Run := (M exn W).

(** One turn of the loop of [collectExpiredUnreferencedNodes]; the accumulator
    is [deleted] and [reclaimedContentBytes]. *)
Definition collectCandidate (scope : AppSpaceScope) (expiresAtOrBefore : Z) (acc : Z * Z)
    (hash : string) : Run (Z * Z) :=
  deletion ← readStillExpiredUnreferenced scope hash expiresAtOrBefore;
  match deletion with
  | None => mret acc
  | Some deletion =>
      _ ← deleteCanonicalContent scope (gd_hash deletion);
      _ ← commitDeletion scope deletion;
      mret (fst acc + 1, snd acc + gd_contentSize deletion)
  end.

(** [collectExpiredUnreferencedNodes(input)]. *)
Definition collectExpiredUnreferencedNodes (scope : AppSpaceScope) (maxNodes : option Z)
    (now : Run Z) : Run CasGcResult :=
  let maxNodes := default DEFAULT_GC_MAX_NODES maxNodes in
  _ ← lift (throw_if (negb (isSafeInteger maxNodes) || (maxNodes <=? 0))
              (TypeError "maxNodes must be a positive integer"));
  expiresAtOrBefore ← now;
  candidates ← findExpiredUnreferenced scope expiresAtOrBefore maxNodes;
  '(deleted, reclaimed) ← fold_m (collectCandidate scope expiresAtOrBefore) (0, 0) candidates;
  mret (mkGcResult (Z.of_nat (length candidates)) deleted reclaimed).
End kernel.

(** * The adapter *)

(** A query without [ORDER BY] returns its rows in an order of the database's
    choice. *)
Class ScanOrder := scan_order : list string → list string.
Class ScanOrderLaws `{ScanOrder} := scan_order_perm : ∀ l, scan_order l ≡ₚ l.

(** [NOT EXISTS (SELECT 1 FROM cas_upload_reservations ... AND expires_at > ?)]. *)
Definition unreserved (k : NodeKey) (at_ : Z) (d : Db) : bool :=
  match cas_upload_reservations d !! k with
  | Some r => rv_expires_at r <=? at_
  | None => true
  end.

Definition collectable (k : NodeKey) (at_ : Z) (r : NodeRow) (d : Db) : bool :=
  (child_ref_count r =? 0) && (root_ref_count r =? 0) && (lease_expires_at r <=? at_)
  && unreserved k at_ d.

(** The query of [findExpiredUnreferenced]. *)
Definition eligible (scope : AppSpaceScope) (at_ maxNodes : Z) `{ScanOrder} (d : Db) : list string :=
  take (Z.to_nat maxNodes) (scan_order
    ((λ e : NodeKey * NodeRow, snd (fst e))
       <$> filter (λ e : NodeKey * NodeRow, fst (fst e) = scope ∧ collectable (fst e) at_ (snd e) d = true)
             (map_to_list (cas_nodes d)))).

(** [SELECT child_hash, COUNT ... WHERE parent_hash = ? GROUP BY child_hash]. *)
Definition child_groups (k : NodeKey) `{ScanOrder} (d : Db) : list (string * Z) :=
  (λ c, (c, edges_between k c d))
    <$> scan_order (elements (list_to_set (snd <$> edges_of k d) : gset string)).

(** The two queries of [readStillExpiredUnreferenced]. *)
Definition fresh_row (k : NodeKey) (at_ : Z) (d : Db) : option NodeRow :=
  if unreserved k at_ d then cas_nodes d !! k else None.

Section adapter.
Context {B : Type} `{!R2Bucket B} `{ScanOrder}.
Notation Run := (Act B).
Implicit Types scope : AppSpaceScope.

Definition d1_findExpiredUnreferenced scope at_ maxNodes : Run (list string) :=
  d1_read (eligible scope at_ maxNodes).

Definition d1_readStillExpiredUnreferenced scope hash at_ : Run (option NodeGcDeletion) :=
  fresh ← d1_read (fresh_row (scope, hash) at_);
  match fresh with
  | None => mret None
  | Some fresh =>
      if (0 <? child_ref_count fresh) || (0 <? root_ref_count fresh)
         || (at_ <? lease_expires_at fresh)
      then mret None
      else
        children ← d1_read (child_groups (scope, hash));
        mret (Some (mkDeletion hash (content_size fresh) children))
  end.

Definition d1_deleteCanonicalContent scope hash : Run unit :=
  _ ← r2_remove (canonical_key (scope, hash));
  now ← Date_now;
  _ ← d1_run (update_node (scope, hash) (observe_row None now));
  mret tt.

Definition d1_commitDeletion scope (deletion : NodeGcDeletion) : Run unit :=
  _ ← d1_batch (deletion_batch (scope, gd_hash deletion) (gd_childReferences deletion));
  mret tt.

#[global] Instance d1_NodeGcRepository : NodeGcRepository (World B) := {|
  findExpiredUnreferenced := d1_findExpiredUnreferenced;
  readStillExpiredUnreferenced := d1_readStillExpiredUnreferenced;
  deleteCanonicalContent := d1_deleteCanonicalContent;
  commitDeletion := d1_commitDeletion
|}.
End adapter.
