(* ===== verification/WorldInv.v ===== *)
(** The invariant of the whole world, and the calls that keep it: the references
    balance, the usage projection is exact, every canonical object hashes to its
    name, and every node that something refers to or leases has its content. *)
From Stdlib Require Import Ascii.
From S2P Require Import Prelude Js MapSum Errors Safe Codec Validation CanonicalStream Store.
From S2P Require Import SpaceCommits World UsageInv DoNames RefInv RootInv NodeLease.
From S2P Require Import NodeLeaseD1 Described.

(** Objects the service deletes by a key it stored are temporary uploads. *)
Definition is_upload_key (key : string) : Prop := ∃ id, key = upload_key id.

Section db.
Context `{Sha256}.

(** The tables of the temporary uploads and of the Root Ref ledger. *)
Record aux_inv (d : Db) : Prop := {
ti_uploads : ∀ k r, cas_node_uploads d !! k = Some r → is_upload_key (up_temporary_object_key r);
ti_cleanup : ∀ s key t, cas_node_upload_cleanup d !! (s, key) = Some t → is_upload_key key;
ti_log : log_inv d;
ti_staged : ∀ k r v, cas_node_uploads d !! k = Some r → up_validation r = Some v →
              staged_described (snd k) v
}.

Record db_inv (d : Db) : Prop := {
di_refs : ref_inv d;
di_usage : usage_inv d;
di_temp : aux_inv d;
di_described : rows_described d
}.

Lemma same_aux d d' :
aux_inv d → cas_node_uploads d' = cas_node_uploads d →
cas_node_upload_cleanup d' = cas_node_upload_cleanup d →
cas_app_root_refs d' = cas_app_root_refs d → same_log d d' → aux_inv d'.
Proof.
intros [H1 H2 H3 H4] Hu Hc Hr Hl. split; rewrite ?Hu, ?Hc; [done..| |done].
by apply (log_inv_same d).
Qed.
End db.

(** A node the collector must not touch: referenced, rooted or leased. *)
Definition protected (clock : Z) (r : NodeRow) : Prop :=
  0 < child_ref_count r ∨ 0 < root_ref_count r ∨ clock < lease_expires_at r.

Section world.
Context {B : Type} `{!R2Bucket B} `{Sha256} `{!R2Laws B}.
Notation World := (World B).
Implicit Types w : World.

Definition object_at (k : NodeKey) w : option R2Object :=
  r2_object (w_bucket w) (canonical_key k).

Record world_inv w : Prop := {
  wi_db : db_inv (w_db w);
  wi_bucket : ∀ k o, node_key_ok k → object_at k w = Some o →
                hex_of (sha256 (obj_body o)) = snd k;
  wi_content : ∀ k r, cas_nodes (w_db w) !! k = Some r → protected (w_clock w) r →
                is_Some (object_at k w)
}.

(** Every row is kept, with a lease related to the one it had. *)
Definition rows_kept (R : Z → Z → Prop) (d d' : Db) : Prop :=
  ∀ k r, cas_nodes d !! k = Some r →
    ∃ r', cas_nodes d' !! k = Some r' ∧ R (lease_expires_at r) (lease_expires_at r').

Lemma rows_kept_refl (R : Z → Z → Prop) `{!Reflexive R} d d' :
  cas_nodes d' = cas_nodes d → rows_kept R d d'.
Proof. intros Hn k r Hk. exists r. by rewrite Hn. Qed.
Lemma rows_kept_trans (R : Z → Z → Prop) `{!Transitive R} d1 d2 d3 :
  rows_kept R d1 d2 → rows_kept R d2 d3 → rows_kept R d1 d3.
Proof.
  intros H1 H2 k r Hk. destruct (H1 k r Hk) as (r2 & Hk2 & Hl2).
  destruct (H2 k r2 Hk2) as (r3 & Hk3 & Hl3). exists r3. split; [done|by etrans].
Qed.
Lemma rows_kept_weaken (R R' : Z → Z → Prop) d d' :
  (∀ a b, R a b → R' a b) → rows_kept R d d' → rows_kept R' d d'.
Proof. intros HR H1 k r Hk. destruct (H1 k r Hk) as (r2 & Hk2 & Hl2). eauto. Qed.
Lemma rows_kept_some R d d' k :
  rows_kept R d d' → is_Some (cas_nodes d !! k) → is_Some (cas_nodes d' !! k).
Proof. intros H1 [r Hk]. destruct (H1 k r Hk) as (r2 & Hk2 & _). by exists r2. Qed.

Definition keeps_with (R : Z → Z → Prop) w w' : Prop :=
  rows_kept R (w_db w) (w_db w')
  ∧ (∀ k, node_key_ok k → is_Some (object_at k w) → is_Some (object_at k w'))
  ∧ w_clock w ≤ w_clock w'.

(** What no call but a collection takes away, with no lease made shorter; and
    what no call but a renewal and a collection changes. *)
Notation world_keeps := (keeps_with Z.le).
Notation world_frozen := (keeps_with eq).

Lemma keeps_with_refl R `{!Reflexive R} w : keeps_with R w w.
Proof. split_and!; [by apply rows_kept_refl|done|lia]. Qed.
Lemma keeps_with_trans R `{!Transitive R} w1 w2 w3 :
  keeps_with R w1 w2 → keeps_with R w2 w3 → keeps_with R w1 w3.
Proof.
  intros (H1 & H2 & H3) (H1' & H2' & H3'). split_and!; [by eapply rows_kept_trans|eauto|lia].
Qed.
Lemma frozen_keeps w w' : world_frozen w w' → world_keeps w w'.
Proof.
  intros (H1 & H2 & H3). split_and!; [|done..]. eapply rows_kept_weaken; [|done].
  intros a b ->. lia.
Qed.

Definition world_I : Invariant World :=
  mkInvariant world_inv world_keeps (keeps_with_refl Z.le) (keeps_with_trans Z.le).
Definition frozen_I : Invariant World :=
  mkInvariant world_inv world_frozen (keeps_with_refl eq) (keeps_with_trans eq).

Definition row_at (s : AppSpaceScope) (h : string) w : Prop :=
  is_Some (cas_nodes (w_db w) !! (s, h)).
Definition present_at (s : AppSpaceScope) (h : string) w : Prop :=
  node_key_ok (s, h) ∧ is_Some (object_at (s, h) w).

Lemma row_at_stable s h : stable world_I (row_at s h).
Proof. intros w w' (Hk & _). by eapply rows_kept_some. Qed.
Lemma row_at_frozen s h : stable frozen_I (row_at s h).
Proof. intros w w' (Hk & _). by eapply rows_kept_some. Qed.
(** A lease that runs at least until [t], and one that runs at most until [t]. *)
Definition leased_at (s : AppSpaceScope) (h : string) (t : Z) w : Prop :=
  ∃ r, cas_nodes (w_db w) !! (s, h) = Some r ∧ t ≤ lease_expires_at r.
Definition lease_within (s : AppSpaceScope) (h : string) (t : Z) w : Prop :=
  ∃ r, cas_nodes (w_db w) !! (s, h) = Some r ∧ lease_expires_at r ≤ t.
Lemma leased_at_stable s h t : stable world_I (leased_at s h t).
Proof.
  intros w w' (Hk & _) (r & Hr & Ht). destruct (Hk _ _ Hr) as (r' & Hr' & Hl).
  exists r'. split; [done|]. simpl in Hl. lia.
Qed.
Lemma lease_within_frozen s h t : stable frozen_I (lease_within s h t).
Proof.
  intros w w' (Hk & _) (r & Hr & Ht). destruct (Hk _ _ Hr) as (r' & Hr' & Hl).
  exists r'. split; [done|]. simpl in Hl. lia.
Qed.
Lemma present_at_frozen s h : stable frozen_I (present_at s h).
Proof. intros w w' (_ & Hk & _) [? ?]. split; eauto. Qed.
Lemma present_at_stable s h : stable world_I (present_at s h).
Proof. intros w w' (_ & Hk & _) [? ?]. split; eauto. Qed.

(** ** Changes of the database *)

Lemma set_db_inv d w :
  world_inv w → db_inv d →
  (∀ k r, cas_nodes d !! k = Some r → protected (w_clock w) r → is_Some (object_at k w)) →
  world_inv (set_db d w).
Proof. intros [_ Hb _] Hd Hc. by split. Qed.

Lemma set_db_keeps R d w : rows_kept R (w_db w) d → keeps_with R w (set_db d w).
Proof. intros Hn. split_and!; [done|done|simpl; lia]. Qed.

Lemma set_db_same_nodes d w :
  world_inv w → db_inv d → cas_nodes d = cas_nodes (w_db w) →
  world_inv (set_db d w) ∧ world_frozen w (set_db d w).
Proof.
  intros Hw Hd Hn. split.
  - apply set_db_inv; [done..|]. rewrite Hn. by apply wi_content.
  - by apply set_db_keeps, rows_kept_refl.
Qed.

(** An update of one row that protects it only if its content is there. *)
Lemma update_node_world R `{!Reflexive R} k f n d w :
  world_inv w → keeps_counts f →
  (∀ r, cas_nodes (w_db w) !! k = Some r → R (lease_expires_at r) (lease_expires_at (f r))) →
  (∀ r, cas_nodes (w_db w) !! k = Some r → lease_expires_at (f r) ≤ Z.max (lease_expires_at r) (w_clock w)
        ∨ is_Some (object_at k w)) →
  update_node k f (w_db w) = Some (d, n) →
  world_inv (set_db d w) ∧ keeps_with R w (set_db d w).
Proof.
  intros Hw Hf HR Hlease Hu. pose proof Hw as [[Hr Hus Ht Hde] Hb Hc].
  assert (db_inv d) as Hd.
  { split; [by eapply update_node_ref|exact (update_node_usage _ _ _ _ _ Hus Hu)| |].
    - apply update_node_Some in Hu as [[_ ->]|(r & t & _ & -> & _)]; [done|].
      by apply (same_aux (w_db w)).
    - apply update_node_Some in Hu as [[_ ->]|(r & t & Hk & -> & _)]; [done|].
      revert Hde. apply rows_described_same. intros k' r' Hk'. simpl in *.
      split; [|done]. apply lookup_insert_Some in Hk' as [[<- <-]|[_ Hk']]; [|by exists r'].
      exists r. destruct (Hf r) as (_ & _ & ? & ?). done. }
  apply update_node_Some in Hu as [[_ ->]|(r & t & Hk & -> & _)].
  { split; [by apply set_db_same_nodes|]. by apply set_db_keeps, rows_kept_refl. }
  split.
  - apply set_db_inv; [done..|]. simpl. intros k' r' Hk' Hp.
    apply lookup_insert_Some in Hk' as [[<- <-]|[_ Hk']]; [|by eapply Hc].
    destruct (Hf r) as (Hfc & Hfr & _). destruct (Hlease r Hk) as [Hl|]; [|done].
    eapply Hc; [exact Hk|]. unfold protected in *. rewrite Hfc, Hfr in Hp. lia.
  - apply set_db_keeps. simpl. intros k' r' Hk'. simpl. destruct (decide (k' = k)) as [->|Hne].
    + simplify_eq. exists (f r). rewrite lookup_insert_eq. by split; [|apply HR].
    + exists r'. by rewrite lookup_insert_ne.
Qed.

Lemma observe_keeps_counts stored at_ : keeps_counts (observe_row stored at_).
Proof. done. Qed.

Lemma repair_world s at_ ns d w :
  world_inv w → run_batch (repair_batch s at_) (w_db w) = Some (d, ns) →
  world_inv (set_db d w) ∧ world_frozen w (set_db d w).
Proof.
  intros Hw Hr. pose proof Hw as [[Hrf [Hpos Hus] Ht Hde] _ _].
  apply set_db_same_nodes; [done| |].
  - split; [|eapply (repair_batch_usage s at_ (w_db w)); eauto| |].
    + apply repair_batch_row in Hr as (t & -> & _). by apply (ref_inv_same (w_db w)).
    + apply repair_batch_row in Hr as (t & -> & _). by apply (same_aux (w_db w)).
    + apply repair_batch_row in Hr as (t & -> & _). done.
  - by apply repair_batch_row in Hr as (t & -> & _).
Qed.

(** A commit of Root Refs protects only nodes that are stored. *)
Lemma commit_plan_world plan l ns d w :
  world_inv w → plan_ok plan (w_db w) = true → plan_stored plan w = true →
  commit_plan plan = Ok l → run_batch l (w_db w) = Some (d, ns) →
  world_inv (set_db d w) ∧ world_frozen w (set_db d w) ∧ committed plan (w_db w) d.
Proof.
  intros Hw Hok Hst Hl Hr. pose proof Hw as [[Hrf Hus Ht Hde] Hb Hc].
  unfold plan_ok in Hok. rewrite !andb_true_iff, !bool_decide_eq_true, !Z.eqb_eq in Hok.
  destruct Hok as ((((_ & Hrev) & Hnd) & Hjson) & Hall).
  pose proof (commit_run _ _ _ _ _ Hrf Hl Hnd Hall Hr) as Hcm.
  pose proof Hcm as [C1 C2 [C3 C3'] C4 Ce C5 C6 _ _ _ _ _]. split_and!; [| |done].
  2:{ apply set_db_keeps. intros k r Hk. specialize (C5 k). rewrite Hk in C5.
      destruct (cas_nodes d !! k) as [r'|] eqn:Hk'; [|done]. simpl in C5. apply (inj Some) in C5.
      exists r'. split; [done|]. by apply (f_equal lease_expires_at) in C5. }
  apply set_db_inv; [done| |].
  - split; [done|auto| |].
    + destruct Ht as [T1 T2 T3 T4]. split; rewrite ?C3, ?C3'; [done..| |done].
      by eapply committed_log.
    + revert Hde. apply rows_described_same. intros k r' Hk. rewrite Ce. split; [|done].
      specialize (C5 k). rewrite Hk in C5. simpl in C5.
      destruct (cas_nodes (w_db w) !! k) as [r|]; [|done]. apply (inj Some) in C5.
      exists r. split; [done|]. by rewrite (f_equal content_size C5 : content_size r' = _),
        (f_equal content_type C5 : content_type r' = _).
  - intros k r' Hk Hp. pose proof (C5 k) as Hrow. rewrite Hk in Hrow. simpl in Hrow.
    destruct (cas_nodes (w_db w) !! k) as [r|] eqn:Hk0; [|done]. apply (inj Some) in Hrow.
    pose proof (f_equal child_ref_count Hrow) as Hch. pose proof (f_equal lease_expires_at Hrow) as Hle.
    simpl in Hch, Hle.
    destruct (decide (0 < root_ref_count r' ∧ root_ref_count r = 0)) as [[Hpos Hz]|Hno].
    2:{ apply (Hc k r Hk0). unfold protected in *. rewrite <- Hch, <- Hle.
        destruct Hp as [?|[?|?]]; [by left|right; left|by do 2 right].
        rewrite (ri_root _ Hrf _ _ Hk0) in *.
        destruct (cas_app_root_refs (w_db w) !! k) as [m|] eqn:Hm; simpl in *; [|lia].
        by destruct (ri_balance _ Hrf k m Hm). }
    rewrite (ri_root _ C1 _ _ Hk), C6, <- (ri_root _ Hrf _ _ Hk0), Hz in Hpos.
    case_decide as Hs; [|lia].
    destruct (delta_for_positive (snd k) (rp_entries plan)) as (n & Hin & Hn); [lia|done|].
    unfold plan_stored in Hst. rewrite forallb_forall in Hst.
    specialize (Hst (snd k, n) ltac:(by apply list_elem_of_In)). simpl in Hst.
    rewrite (ltb_true 0 n Hn) in Hst. simpl in Hst. apply bool_decide_eq_true in Hst.
    unfold object_at. by rewrite <- Hs, <- surjective_pairing in Hst.
Qed.

(** ** Changes of the bucket *)

Lemma set_bucket_inv b w :
  world_inv w →
  (∀ k, node_key_ok k → r2_object b (canonical_key k) = object_at k w) →
  world_inv (set_bucket b w) ∧ world_frozen w (set_bucket b w).
Proof.
  intros [Hd Hb Hc] Hsame. split.
  - split; [done| |].
    + intros k o Hok Ho. unfold object_at in Ho. simpl in Ho. rewrite Hsame in Ho by done. eauto.
    + intros k r Hk Hp. unfold object_at. simpl.
      rewrite Hsame by (by eapply ri_keys; [apply di_refs|]). eauto.
  - split_and!; [by apply rows_kept_refl| |simpl; lia].
    intros k Hok Ho. unfold object_at. simpl. by rewrite Hsame.
Qed.

Lemma put_upload_same b id body sha absent r b' k :
  r2_put b (upload_key id) body sha absent = (r, b') →
  r2_object b' (canonical_key k) = r2_object b (canonical_key k).
Proof.
  intros Hp. destruct (decide (r = PutStored)) as [->|Hr].
  - apply r2_put_stored in Hp as (_ & _ & _ & Hp). apply Hp, canonical_key_not_upload.
  - by eapply r2_put_failed.
Qed.

Lemma delete_upload_same b id k :
  r2_object (r2_delete b (upload_key id)) (canonical_key k) = r2_object b (canonical_key k).
Proof. apply r2_delete_other, canonical_key_not_upload. Qed.

(** ** External calls *)

Lemma env_step_safe w a : world_inv w → world_inv (env_step w a) ∧ world_frozen w (env_step w a).
Proof.
  intros Hw. destruct a as [id body|k stored at_|s at_|plan]; unfold env_step.
  - destruct (r2_put _ _ _ _ _) as [r b] eqn:Hp. simpl.
    apply set_bucket_inv; [done|]. intros k _. by eapply put_upload_same.
  - destruct (writeNodeObservation _ _ _ _) as [[d n]|] eqn:Hu.
    + eapply update_node_world; [apply _|done|apply (observe_keeps_counts stored at_)|done| |exact Hu].
      intros r _. left. simpl. lia.
    + split; [done|apply (keeps_refl frozen_I)].
  - destruct (run_batch (repair_batch s at_) (w_db w)) as [[d ns]|] eqn:Hr; [by eapply repair_world|].
    split; [done|apply (keeps_refl frozen_I)].
  - destruct (plan_ok plan (w_db w) && plan_stored plan w) eqn:Hok;
      [|by split; [|apply (keeps_refl frozen_I)]].
    apply andb_true_iff in Hok as [Hok Hst].
    destruct (commit_plan plan) as [l|] eqn:Hl; [|by split; [|apply (keeps_refl frozen_I)]].
    destruct (run_batch l (w_db w)) as [[d ns]|] eqn:Hr; [|by split; [|apply (keeps_refl frozen_I)]].
    destruct (commit_plan_world plan l ns d w) as (? & ? & _); done.
Qed.

Lemma advance_safe t w : world_inv w → world_inv (advance t w) ∧ world_frozen w (advance t w).
Proof.
  intros [Hd Hb Hc]. split.
  - split; [done|done|]. intros k r Hk Hp. apply (Hc k r Hk). unfold protected in *. simpl in *. lia.
  - split_and!; [by apply rows_kept_refl|done|simpl; lia].
Qed.

Lemma enter_safe w o w' :
  world_inv w → enter w = (o, w') → world_inv w' ∧ world_frozen w w'.
Proof.
  intros Hw. unfold enter. destruct (w_sched w) as [|t sched].
  { injection 1 as <- <-. split; [done|apply (keeps_refl frozen_I)]. }
  injection 1 as <- <-.
  set (w0 := mkWorld (w_db w) (w_bucket w) (w_clock w) sched).
  assert (world_inv w0 ∧ world_frozen w w0) as [Hw0 Hk0].
  { destruct Hw as [? ? ?]. split; [by split|]. split_and!; [by apply rows_kept_refl|done|simpl; lia]. }
  assert (world_inv (foldl env_step w0 (tk_env t))
          ∧ world_frozen w0 (foldl env_step w0 (tk_env t))) as [Hw1 Hk1].
  { clear Hk0. generalize dependent w0. induction (tk_env t) as [|a l IH]; intros w0 Hw0; simpl.
    - split; [done|apply (keeps_refl frozen_I)].
    - destruct (env_step_safe w0 a Hw0) as [Ha Hka]. destruct (IH _ Ha) as [? ?].
      split; [done|]. by eapply (keeps_trans frozen_I). }
  destruct (advance_safe t _ Hw1) as [Hw2 Hk2]. split; [done|].
  eapply (keeps_trans frozen_I); [exact Hk0|]. by eapply (keeps_trans frozen_I).
Qed.

(** ** The gate of a Space

    While a mutation of [s] runs, the gate of its Durable Object keeps other
    mutations of [s] out, so only other Spaces commit Root Refs. *)
Definition foreign (s : AppSpaceScope) (a : EnvAction) : Prop :=
  match a with RootRefsCommitted plan => rp_scope plan ≠ s | _ => True end.
Definition gated (s : AppSpaceScope) w : Prop :=
  Forall (λ t, Forall (foreign s) (tk_env t)) (w_sched w).

(** An invariant what others do meanwhile keeps. *)
Class EnvSafe (I : Invariant World) : Prop := enter_keeps :
  ∀ w o w', holds I w → enter w = (o, w') → holds I w' ∧ keeps I w w'.

#[export] Instance frozen_EnvSafe : EnvSafe frozen_I := enter_safe.
#[export] Instance world_EnvSafe : EnvSafe world_I.
Proof. intros w o w' Hw He. destruct (enter_safe w o w' Hw He). split; [done|by apply frozen_keeps]. Qed.

(** A call is safe when its effect is, in whatever state it takes place. *)
Lemma external_safe I `{!EnvSafe I} {A} P (f : Act B A) Q :
  stable I P → safe I P f Q → safe I P (external f) Q.
Proof.
  intros HsP Hf w Hw HP. unfold external. destruct (enter w) as [o w1] eqn:He.
  destruct (enter_keeps w o w1 Hw He) as [Hw1 Hk1].
  specialize (Hf w1 Hw1 (HsP _ _ Hk1 HP)). destruct o.
  - destruct (f w1) as [[a|e] w2].
    + destruct Hf as (? & ? & ?). split_and!; [done| |done]. by eapply (keeps_trans I).
    + destruct Hf as (? & ?). split; [done|]. by eapply (keeps_trans I).
  - done.
  - destruct (f w1) as [[a|e] w2].
    + destruct Hf as (? & ? & _). split; [done|]. by eapply (keeps_trans I).
    + destruct Hf as (? & ?). split; [done|]. by eapply (keeps_trans I).
Qed.

Lemma d1_read_safe I `{!EnvSafe I} {A} P (q : Db → A) Q :
  stable I P → (∀ w, holds I w → P w → Q (q (w_db w)) w) → safe I P (d1_read q) Q.
Proof.
  intros HsP HQ. apply external_safe; [done..|]. intros w Hw HP.
  split_and!; [done|apply (keeps_refl I)|by apply HQ].
Qed.

(** A statement or batch is safe when every database it can leave is. *)
Definition db_safe (I : Invariant World) (P : World → Prop) (d : World → option Db)
    (Q : World → Prop) : Prop :=
  ∀ w d', holds I w → P w → d w = Some d' →
    holds I (set_db d' w) ∧ keeps I w (set_db d' w) ∧ Q (set_db d' w).

Lemma d1_run_safe I `{!EnvSafe I} P (q : stmt) Q :
  stable I P → db_safe I P (λ w, fst <$> q (w_db w)) Q → safe I P (d1_run q) (λ _, Q).
Proof.
  intros HsP Hq. apply external_safe; [done..|]. intros w Hw HP. specialize (Hq w).
  destruct (q (w_db w)) as [[d n]|] eqn:Hs; [apply Hq; [done..|by rewrite Hs]|].
  split; [done|apply (keeps_refl I)].
Qed.

Lemma d1_batch_safe I `{!EnvSafe I} P (l : list stmt) Q :
  stable I P → db_safe I P (λ w, fst <$> run_batch l (w_db w)) Q →
  safe I P (d1_batch l) (λ _, Q).
Proof.
  intros HsP Hq. apply external_safe; [done..|]. intros w Hw HP. specialize (Hq w).
  destruct (run_batch l (w_db w)) as [[d n]|] eqn:Hs; [apply Hq; [done..|by rewrite Hs]|].
  split; [done|apply (keeps_refl I)].
Qed.

Lemma r2_read_safe I `{!EnvSafe I} P key Q :
  stable I P → (∀ w, holds I w → P w → Q (r2_object (w_bucket w) key) w) →
  safe I P (r2_read key) Q.
Proof.
  intros HsP HQ. apply external_safe; [done..|]. intros w Hw HP.
  split_and!; [done|apply (keeps_refl I)|by apply HQ].
Qed.

Lemma Date_now_safe P : safe world_I P Date_now (λ _ _, True).
Proof. by apply safe_gets. Qed.

Lemma r2_remove_safe key :
  is_upload_key key → safe world_I (λ _, True) (r2_remove key) (λ _ _, True).
Proof.
  intros [id ->]. apply external_safe; [apply _|by intros ?|]. intros w Hw _.
  destruct (set_bucket_inv (r2_delete (w_bucket w) (upload_key id)) w Hw) as [? ?].
  { intros k _. apply delete_upload_same. }
  split_and!; [done|by apply frozen_keeps|done].
Qed.

(** The conditional put of a canonical object stores only bytes of that hash. *)
Lemma r2_write_safe (s : AppSpaceScope) h body :
  node_key_ok (s, h) →
  safe world_I (λ _, True) (r2_write (canonical_key (s, h)) body (Some h) true)
    (λ stored w, stored = true → present_at s h w).
Proof.
  intros Hok. apply external_safe; [apply _|by intros ?|]. intros w Hw _.
  destruct (r2_put _ _ _ _ _) as [r b] eqn:Hp.
  destruct (decide (r = PutStored)) as [->|Hr].
  - apply r2_put_stored in Hp as (Ho & Hsha & Habs & Hother). simpl in Hsha.
    specialize (Habs eq_refl). pose proof Hw as [Hd Hb Hc].
    assert (∀ k, node_key_ok k → k ≠ (s, h) →
              r2_object b (canonical_key k) = object_at k w) as Hsame.
    { intros k Hk Hne. apply Hother. by intros He%canonical_key_inj. }
    assert (world_inv (set_bucket b w)) as Hinv.
    { split; [done| |].
      - intros k o Hk Hko. unfold object_at in Hko. simpl in Hko.
        destruct (decide (k = (s, h))) as [->|Hne].
        + rewrite Ho in Hko. by injection Hko as <-.
        + rewrite Hsame in Hko by done. eauto.
      - intros k r Hk Hp. unfold object_at. simpl.
        destruct (decide (k = (s, h))) as [->|Hne]; [by rewrite Ho|].
        rewrite Hsame by (done || by eapply ri_keys; [apply di_refs|]). eauto. }
    assert (world_keeps w (set_bucket b w)) as Hkeep.
    { split_and!; [by apply rows_kept_refl; [apply _|]| |simpl; lia]. intros k Hk Hko. unfold object_at. simpl.
      destruct (decide (k = (s, h))) as [->|Hne]; [by rewrite Ho|]. by rewrite Hsame. }
    split_and!; [done..|]. intros _. split; [done|]. unfold object_at. simpl. by rewrite Ho.
  - destruct (set_bucket_inv b w Hw) as [? ?%frozen_keeps].
    { intros k _. by eapply r2_put_failed. }
    destruct r; [done|split_and!; done|split; done].
Qed.
End world.
#[export] Hint Resolve row_at_stable present_at_stable : safe.
