(* ===== verification/LeaseInv.v ===== *)
(** The D1/R2 adapter keeps the promises of [NodeLeaseSafe.v]: every statement it
    runs preserves the world's invariant, whatever the schedule does. *)
From Stdlib Require Import Ascii.
From stdpp Require Import sorting.
From S2P Require Import Prelude Js MapSum Errors Safe Codec Validation CanonicalStream Store.
From S2P Require Import SpaceCommits World UsageInv DoNames RefInv RootInv NodeLease.
From S2P Require Import NodeLeaseD1 Described NodeLeaseSafe WorldInv.

(** ** Batches *)

Section stmts.
Context {sha : Sha256}.

Lemma run_batch_preserves (I : Db → Prop) l d d' ns :
Forall (stmt_preserves I) l → I d → run_batch l d = Some (d', ns) → I d'.
Proof.
intros Hl. revert d ns. induction Hl as [|q l Hq _ IH]; intros d ns Hd H.
- by injection H as <- _.
- apply run_batch_cons in H as (d1 & n & ns' & H1 & H & _).
  exact (IH d1 ns' (Hq d d1 n Hd H1) H).
Qed.

Lemma insert_edge_usage p i c : stmt_preserves usage_inv (insert_edge p i c).
Proof.
intros d d' n Hd. unfold insert_edge. case_match; [done|]. injection 1 as <- _.
by apply (usage_inv_same d).
Qed.

Lemma delete_session_usage k : stmt_preserves usage_inv (delete_session k).
Proof.
intros d d' n Hd H. injection H as <- _. by apply (usage_inv_same d).
Qed.

Lemma update_node_temp k f : stmt_preserves aux_inv (update_node k f).
Proof.
intros d d' n Hd [[_ ->]|(r & t & _ & -> & _)]%update_node_Some; [done|]. by apply (same_aux d).
Qed.
Lemma insert_edge_temp p i c : stmt_preserves aux_inv (insert_edge p i c).
Proof.
intros d d' n Hd. unfold insert_edge. case_match; [done|]. injection 1 as <- _.
by apply (same_aux d).
Qed.
Lemma delete_reservation_temp k : stmt_preserves aux_inv (delete_reservation k).
Proof.
intros d d' n Hd [->|(t & u & ->)]%delete_reservation_Some; [done|]. by apply (same_aux d).
Qed.
Lemma upsert_reservation_temp k r f : stmt_preserves aux_inv (upsert_reservation k r f).
Proof.
intros d d' n Hd (t & u & ->)%upsert_reservation_Some. by apply (same_aux d).
Qed.
Lemma delete_session_temp k : stmt_preserves aux_inv (delete_session k).
Proof. intros d d' n Hd H. injection H as <- _. by apply (same_aux d). Qed.
Lemma insert_node_temp k r : stmt_preserves aux_inv (insert_node k r).
Proof.
intros d d' n Hd [_ [t ->]]%insert_node_Some. by apply (same_aux d).
Qed.

Lemma ref_stmts_Forall (P : stmt → Prop) k i refs :
(∀ j c, P (insert_edge k j c)) → (∀ c, P (update_node (child_key k c) (add_child_refs 1))) →
Forall P (ref_stmts k i refs).
Proof.
intros H1 H2. revert i. induction refs as [|c refs IH]; intros i; simpl; constructor; auto.
Qed.

(** ** The commit of a new node *)

Lemma add_child_row p c d d' n :
update_node p (add_child_refs c) d = Some (d', n) →
∀ k r', cas_nodes d' !! k = Some r' →
  ∃ r, cas_nodes d !! k = Some r ∧ root_ref_count r' = root_ref_count r
       ∧ lease_expires_at r' = lease_expires_at r ∧ (k ≠ p → r' = r).
Proof.
intros [[_ ->]|(r & t & Hr & -> & _)]%update_node_Some k r' Hk; [by eauto|]. simpl in Hk.
apply lookup_insert_Some in Hk as [[<- <-]|[Hne Hk]].
- exists r. by split_and!.
- exists r'. by split_and!.
Qed.

(** Adding the references of a node that nothing refers to yet. *)
Lemma ref_stmts_refs k refs : ∀ i d d' ns,
ref_inv d → is_Some (cas_nodes d !! k) → unreferenced k d →
(∀ c, c ∈ refs → child_key k c ≠ k ∧ is_Some (cas_nodes d !! child_key k c)) →
run_batch (ref_stmts k i refs) d = Some (d', ns) →
ref_inv d' ∧ same_nodes d d'
∧ ∀ k' r', cas_nodes d' !! k' = Some r' →
    ∃ r, cas_nodes d !! k' = Some r ∧ root_ref_count r' = root_ref_count r
         ∧ lease_expires_at r' = lease_expires_at r
         ∧ ((∀ c, c ∈ refs → k' ≠ child_key k c) → r' = r).
Proof.
induction refs as [|c refs IH]; intros i d d' ns Hinv Hk Hun Hc H.
{ injection H as <- _. split_and!; [done|done|]. eauto. }
change (ref_stmts k i (c :: refs)) with
  ([insert_edge k i c; update_node (child_key k c) (add_child_refs 1)] ++ ref_stmts k (S i) refs) in H.
apply run_batch_app in H as (d1 & ns1 & ns2 & H1 & H & _).
destruct (Hc c ltac:(left)) as [Hne Hcs].
destruct (add_edge_ref k i c d d1 ns1 Hinv Hk Hun Hne Hcs H1) as (Hinv1 & Hun1 & Hs1).
assert (∀ k' r', cas_nodes d1 !! k' = Some r' →
    ∃ r, cas_nodes d !! k' = Some r ∧ root_ref_count r' = root_ref_count r
         ∧ lease_expires_at r' = lease_expires_at r
         ∧ (k' ≠ child_key k c → r' = r)) as Hrows1.
{ apply run_batch_cons in H1 as (d0 & n0 & ns0 & H0 & H1 & _).
  apply run_batch_cons in H1 as (d2 & n2 & ns3 & H2 & H1 & _). injection H1 as <- _.
  intros k' r' Hk'. destruct (add_child_row _ _ _ _ _ H2 k' r' Hk') as (r & Hr & ?).
  exists r. split; [|done]. unfold insert_edge in H0. case_match; [done|].
  by injection H0 as <- _. }
destruct (IH (S i) d1 d' ns2 Hinv1) as (Hinv' & Hs2 & Hrows2); try done.
- by apply Hs1.
- intros c' Hc'. destruct (Hc c' ltac:(by right)). split; [done|]. by apply Hs1.
- split_and!; [done| |].
  + intros k'. etrans; [apply Hs2|apply Hs1].
  + intros k' r' Hk'. destruct (Hrows2 k' r' Hk') as (r1 & Hr1 & E1 & E2 & E3).
    destruct (Hrows1 k' r1 Hr1) as (r & Hr & F1 & F2 & F3).
    exists r. split_and!; [done|congruence|congruence|]. intros Hno. rewrite E3.
    * apply F3, Hno. left.
    * intros c' Hc'. apply Hno. by right.
Qed.

(** The reservation a commit may start with. *)
Definition reserves (k : NodeKey) (first : option stmt) : Prop :=
first = None ∨ ∃ r f, first = Some (upsert_reservation k r f).

Lemma commit_batch_columns k m n l now first d d' ns :
reserves k first → run_batch (commit_batch k m n l now first) d = Some (d', ns) →
(usage_inv d → usage_inv d') ∧ (aux_inv d → aux_inv d').
Proof.
intros Hfirst Hb. split; intros Hd; (eapply run_batch_preserves; [|done|exact Hb]);
  unfold commit_batch; apply Forall_app.
- split.
  { destruct Hfirst as [->|(r & f & ->)]; [apply Forall_nil_2|].
    apply Forall_singleton, upsert_reservation_usage. }
  apply Forall_cons. split; [apply insert_node_usage|]. apply Forall_app. split.
  { apply ref_stmts_Forall; intros; [apply insert_edge_usage|apply update_node_usage]. }
  apply Forall_cons. split; [apply delete_reservation_usage|].
  apply Forall_singleton, delete_session_usage.
- split.
  { destruct Hfirst as [->|(r & f & ->)]; [apply Forall_nil_2|].
    apply Forall_singleton, upsert_reservation_temp. }
  apply Forall_cons. split; [apply insert_node_temp|]. apply Forall_app. split.
  { apply ref_stmts_Forall; intros; [apply insert_edge_temp|apply update_node_temp]. }
  apply Forall_cons. split; [apply delete_reservation_temp|].
  apply Forall_singleton, delete_session_temp.
Qed.

(** A commit adds its node, which was not there, and touches its children only. *)
Lemma commit_batch_refs k m n l now first d d' ns :
reserves k first → node_key_ok k → ref_inv d →
(∀ c, c ∈ pm_refs m → is_Some (cas_nodes d !! child_key k c)) →
run_batch (commit_batch k m n l now first) d = Some (d', ns) →
ref_inv d'
∧ (∀ k', is_Some (cas_nodes d' !! k') ↔ k' = k ∨ is_Some (cas_nodes d !! k'))
∧ (∀ k' r', cas_nodes d' !! k' = Some r' → k' ≠ k →
    (∀ c, c ∈ pm_refs m → k' ≠ child_key k c) → cas_nodes d !! k' = Some r')
∧ rows_kept eq d d'
∧ ∃ r', cas_nodes d' !! k = Some r' ∧ lease_expires_at r' = leaseExpiresAt l.
Proof.
intros Hfirst Hok Hinv Hchildren Hb. unfold commit_batch in Hb.
apply run_batch_app in Hb as (d0 & ns0 & ns0' & Hb0 & Hb & _).
assert (same_refs d d0) as Hs0.
{ destruct Hfirst as [->|(r & f & ->)]; simpl option_list in Hb0.
  - by injection Hb0 as <- _.
  - apply run_batch_cons in Hb0 as (d0' & n0 & ns1 & Hu & Hb0 & _).
    injection Hb0 as <- _. by apply upsert_reservation_Some in Hu as (t & u & ->). }
assert (ref_inv d0) as Hinv0 by exact (ref_inv_same _ _ Hs0 Hinv). destruct Hs0 as (Hn0 & _ & _).
apply run_batch_cons in Hb as (d1 & n1 & ns1 & H1 & Hb & _).
destruct (insert_node_ref k (new_row m n l now) d0 d1 n1 Hinv0 Hok eq_refl eq_refl H1)
  as (Hinv1 & Habs & He1 & Hn1). rewrite Hn0 in *.
apply run_batch_app in Hb as (d2 & ns2 & ns2' & H2 & Hb & _).
assert (∀ c, c ∈ pm_refs m → child_key k c ≠ k ∧ is_Some (cas_nodes d1 !! child_key k c)) as Hc.
{ intros c Hin. specialize (Hchildren c Hin). assert (child_key k c ≠ k) as Hne.
  { intros E. rewrite E, Habs in Hchildren. by destruct Hchildren. }
  split; [done|]. by rewrite Hn1, lookup_insert_ne. }
destruct (ref_stmts_refs k (pm_refs m) 0 d1 d2 ns2) as (Hinv2 & Hs2 & Hrows2); try done.
{ rewrite Hn1, lookup_insert_eq. eauto. }
{ intros p i c He. rewrite He1 in He. eapply (absent_unreferenced k d0 Hinv0); [by rewrite Hn0|exact He]. }
apply run_batch_cons in Hb as (d3 & n3 & ns3 & H3 & Hb & _).
apply run_batch_cons in Hb as (d4 & n4 & ns4 & H4 & Hb & _). injection Hb as <- _.
assert (same_refs d2 d4) as Hs4.
{ injection H4 as <- _. apply delete_reservation_Some in H3 as [->|(t & u & ->)]; done. }
split_and!; [by apply (ref_inv_same d2)| | | |]; try unfold rows_kept; destruct Hs4 as (-> & _ & _).
- intros k'. etrans; [apply Hs2|]. rewrite Hn1. destruct (decide (k' = k)) as [->|Hne].
  + rewrite lookup_insert_eq. split; eauto.
  + rewrite lookup_insert_ne by done. naive_solver.
- intros k' r' Hk' Hne Hno. destruct (Hrows2 k' r' Hk') as (r & Hr & _ & _ & Hsame).
  rewrite Hn1, lookup_insert_ne in Hr by done. by rewrite Hsame.
- intros k' r Hk'. assert (k' ≠ k) as Hne by congruence.
  assert (is_Some (cas_nodes d2 !! k')) as [r' Hr'].
  { apply Hs2. rewrite Hn1, lookup_insert_ne; eauto. }
  exists r'. split; [done|]. destruct (Hrows2 k' r' Hr') as (r1 & Hr1 & _ & Hl & _).
  rewrite Hn1, lookup_insert_ne, Hk' in Hr1 by done. congruence.
- assert (is_Some (cas_nodes d2 !! k)) as [r' Hr'].
  { apply Hs2. rewrite Hn1, lookup_insert_eq. eauto. }
  exists r'. split; [done|]. destruct (Hrows2 k r' Hr') as (r1 & Hr1 & _ & Hl & _).
  rewrite Hn1, lookup_insert_eq in Hr1. injection Hr1 as <-. by rewrite Hl.
Qed.

(** The content a commit adds, and the content it leaves. *)
Lemma ref_stmts_content k refs : ∀ i d d' ns,
run_batch (ref_stmts k i refs) d = Some (d', ns) →
(∀ k' r', cas_nodes d' !! k' = Some r' → ∃ r, cas_nodes d !! k' = Some r
   ∧ content_size r' = content_size r ∧ content_type r' = content_type r)
∧ (∀ p j, p ≠ k → cas_edges d' !! (p, j) = cas_edges d !! (p, j))
∧ (∀ j, (j < i)%nat → cas_edges d' !! (k, j) = cas_edges d !! (k, j))
∧ (∀ j, (∀ j', (i ≤ j')%nat → cas_edges d !! (k, j') = None) →
     cas_edges d' !! (k, (i + j)%nat) = refs !! j).
Proof.
induction refs as [|c refs IH]; intros i d d' ns Hb.
{ injection Hb as <- _. split_and!; [by eauto|done|done|]. intros j Hn. apply Hn. lia. }
apply run_batch_cons in Hb as (d1 & n1 & ns1 & H1 & Hb & _).
apply run_batch_cons in Hb as (d2 & n2 & ns2 & H2 & Hb & _).
unfold insert_edge in H1. case_match; [done|]. injection H1 as <- _.
assert (cas_edges d2 = <[(k, i) := c]> (cas_edges d)
  ∧ ∀ k' r', cas_nodes d2 !! k' = Some r' → ∃ r, cas_nodes d !! k' = Some r
     ∧ content_size r' = content_size r ∧ content_type r' = content_type r) as [He Hr].
{ apply update_node_Some in H2 as [[_ ->]|(r & t & Hk & -> & _)]; [by eauto|].
  split; [done|]. intros k' r' Hk'. simpl in *.
  apply lookup_insert_Some in Hk' as [[<- <-]|[_ Hk']]; [by exists r|by exists r']. }
destruct (IH (S i) d2 d' ns2 Hb) as (R & E1 & E2 & E3). split_and!.
- intros k' r' Hk'. destruct (R k' r' Hk') as (r2 & Hr2 & -> & ->). by apply Hr.
- intros p j Hp. rewrite E1, He, lookup_insert_ne by congruence. done.
- intros j Hj. rewrite E2, He, lookup_insert_ne; [done| |lia]. intros Heq. injection Heq. lia.
- intros j Hn. destruct j as [|j].
  + rewrite E2 by lia. rewrite He, Nat.add_0_r, lookup_insert_eq. done.
  + replace (i + S j)%nat with (S i + j)%nat by lia. rewrite E3; [done|]. intros j' Hj'.
    rewrite He, lookup_insert_ne; [apply Hn; lia|]. intros Heq. injection Heq. lia.
Qed.

Lemma commit_batch_described k m n l now first d d' ns :
reserves k first → ref_inv d → meta_described (snd k) m →
run_batch (commit_batch k m n l now first) d = Some (d', ns) →
rows_described d → rows_described d'.
Proof.
intros Hfirst Hinv Hm Hb Hd. unfold commit_batch in Hb.
apply run_batch_app in Hb as (d0 & ns0 & ns0' & Hb0 & Hb & _).
assert (cas_nodes d0 = cas_nodes d ∧ cas_edges d0 = cas_edges d) as [Hn0 He0].
{ destruct Hfirst as [->|(r & f & ->)]; simpl option_list in Hb0.
  - by injection Hb0 as <- _.
  - apply run_batch_cons in Hb0 as (d0' & n0 & ns1 & Hu & Hb0 & _).
    injection Hb0 as <- _. by apply upsert_reservation_Some in Hu as (t & u & ->). }
apply run_batch_cons in Hb as (d1 & n1 & ns1 & H1 & Hb & _).
apply insert_node_Some in H1 as [Habs [t ->]]. rewrite Hn0 in Habs.
apply run_batch_app in Hb as (d2 & ns2 & ns2' & H2 & Hb & _).
apply ref_stmts_content in H2 as (R & E1 & _ & E3). simpl in R, E1, E3.
apply run_batch_cons in Hb as (d3 & n3 & ns3 & H3 & Hb & _).
apply run_batch_cons in Hb as (d4 & n4 & ns4 & H4 & Hb & _). injection Hb as <- _.
assert (cas_nodes d4 = cas_nodes d2 ∧ cas_edges d4 = cas_edges d2) as [Hn4 He4].
{ injection H4 as <- _. apply delete_reservation_Some in H3 as [->|(t' & u & ->)]; done. }
intros k' r' Hk'. rewrite Hn4 in Hk'. rewrite He4.
destruct (R k' r' Hk') as (r & Hr & -> & ->). rewrite Hn0 in Hr.
apply lookup_insert_Some in Hr as [[<- <-]|[Hne Hr]].
- exists (pm_refs m). split; [done|]. intros i. apply (E3 i). intros j' _. rewrite He0.
  destruct (cas_edges d !! (k, j')) as [c|] eqn:He; [|done].
  destruct (ri_parent d Hinv k j' c He). congruence.
- destruct (Hd k' r Hr) as (refs & Hdesc & Hrefs). exists refs. split; [done|].
  intros i. rewrite E1 by done. by rewrite He0.
Qed.

(** ** Upload statements

  They leave the nodes alone, and keep the invariant of the database. *)

Definition quiet (q : stmt) : Prop := ∀ d d' n,
db_inv d → q d = Some (d', n) → db_inv d' ∧ cas_nodes d' = cas_nodes d.

Lemma quiet_run_batch l d d' ns :
Forall quiet l → db_inv d → run_batch l d = Some (d', ns) →
db_inv d' ∧ cas_nodes d' = cas_nodes d.
Proof.
intros Hl. revert d ns. induction Hl as [|q l Hq _ IH]; intros d ns Hd H.
- by injection H as <- _.
- apply run_batch_cons in H as (d1 & n & ns' & H1 & H & _).
  destruct (Hq d d1 n Hd H1) as [Hd1 <-]. exact (IH d1 ns' Hd1 H).
Qed.

Lemma upload_tables d d' :
db_inv d → same_refs d d' → cas_upload_reservations d' = cas_upload_reservations d →
cas_space_usage d' = cas_space_usage d → aux_inv d' →
db_inv d' ∧ cas_nodes d' = cas_nodes d.
Proof.
intros [Hr Hu Ht Hde] Hs Hres Hus Ht'. pose proof Hs as (Hn & He & _). split; [|done].
split; [by apply (ref_inv_same d)|by apply (usage_inv_same d)|done|].
revert Hde. by apply rows_described_same, same_content_eq.
Qed.

(** A row of the upload table as the kernel writes it. *)
Definition upload_row_fine (k : NodeKey) (r : UploadRow) : Prop :=
is_upload_key (up_temporary_object_key r)
∧ ∀ v, up_validation r = Some v → staged_described (snd k) v.

Lemma upload_rows d k r : aux_inv d → cas_node_uploads d !! k = Some r → upload_row_fine k r.
Proof. intros [H1 _ _ H4] Hk. split; eauto. Qed.

Lemma set_uploads_quiet t d :
(∀ k r, t !! k = Some r → upload_row_fine k r) → db_inv d →
db_inv (set_uploads t d) ∧ cas_nodes (set_uploads t d) = cas_nodes d.
Proof.
intros Ht Hd. apply upload_tables; [done..|]. destruct Hd as [_ _ [H1 H2 H3 H4] _].
split; simpl; [|done|by apply (log_inv_same d)|].
- intros k r Hk. by destruct (Ht k r Hk).
- intros k r v Hk. destruct (Ht k r Hk) as [_ Hs]. apply Hs.
Qed.

Lemma insert_upload_quiet k r : upload_row_fine k r → quiet (insert_upload k r).
Proof.
intros Hr d d' n Hd. unfold insert_upload. case_match; [by injection 1 as <- _|].
case_match; [|done]. injection 1 as <- _. apply set_uploads_quiet; [|done].
intros k' r' [[<- <-]|[_ Hk']]%lookup_insert_Some; [done|]. eapply upload_rows; [apply Hd|done].
Qed.

Lemma update_upload_quiet k g f :
(∀ r, upload_row_fine k r → upload_row_fine k (f r)) → quiet (update_upload k g f).
Proof.
intros Hf d d' n Hd. unfold update_upload. case_match eqn:Hk; [|by injection 1 as <- _].
case_match; [|by injection 1 as <- _]. case_match; [|done]. injection 1 as <- _.
apply set_uploads_quiet; [|done]. intros k' r' [[<- <-]|[_ Hk']]%lookup_insert_Some;
  [apply Hf|]; eapply upload_rows; [apply Hd|done|apply Hd|done].
Qed.

Lemma delete_upload_quiet k g : quiet (delete_upload k g).
Proof.
intros d d' n Hd. unfold delete_upload. case_match; [|by injection 1 as <- _].
case_match; [|by injection 1 as <- _]. injection 1 as <- _. apply set_uploads_quiet; [|done].
intros k' r' [_ Hk']%lookup_delete_Some. eapply upload_rows; [apply Hd|done].
Qed.

Lemma delete_cleanup_quiet s key : quiet (delete_cleanup s key).
Proof.
intros d d' n Hd H'. injection H' as <- _. apply upload_tables; [done..|].
destruct Hd as [_ _ [H1 H2 H3 H4] _]. split; [done| |by apply (log_inv_same d)|done]. intros s' key' t Hk'. simpl in Hk'.
apply lookup_delete_Some in Hk' as [_ Hk']. eauto.
Qed.

Lemma queue_superseded_quiet k g : quiet (queue_superseded k g).
Proof.
intros d d' n Hd. unfold queue_superseded. case_match eqn:Hup; [|by injection 1 as <- _].
intros H'. injection H' as <- _.
apply upload_tables; [done..|]. destruct Hd as [_ _ [H1 H2 H3 H4] _]. split; [done| |by apply (log_inv_same d)|done].
intros s' key' t Hk'. simpl in Hk'.
apply lookup_insert_Some in Hk' as [[Heq <-]|[_ Hk']]; [|eauto].
injection Heq as <- <-. unfold upload_of_generation in Hup. repeat case_match; simplify_eq. eauto.
Qed.

Lemma upsert_reservation_quiet k r f : quiet (upsert_reservation k r f).
Proof.
intros d d' n [Hr Hu Ht Hde] Hs. pose proof (upsert_reservation_usage k r f d d' n Hu Hs).
pose proof (upsert_reservation_temp k r f d d' n Ht Hs).
apply upsert_reservation_Some in Hs as (t & u & ->). split; [|done].
split; [by apply (ref_inv_same d)|done..].
Qed.

Lemma delete_reservation_quiet k : quiet (delete_reservation k).
Proof.
intros d d' n [Hr Hu Ht Hde] Hs. pose proof (delete_reservation_usage k d d' n Hu Hs).
pose proof (delete_reservation_temp k d d' n Ht Hs).
apply delete_reservation_Some in Hs as [->|(t & u & ->)]; [done|]. split; [|done].
split; [by apply (ref_inv_same d)|done..].
Qed.

(** A statement that runs only when its upload, or session, is there. *)
Lemma reserve_of_upload_quiet k g n : quiet (reserve_of_upload k g n).
Proof.
intros d d' m Hd. unfold reserve_of_upload. case_match; [|by injection 1 as <- _].
by apply upsert_reservation_quiet.
Qed.
Lemma delete_reservation_of_upload_quiet k g : quiet (delete_reservation_of_upload k g).
Proof.
intros d d' m Hd. unfold delete_reservation_of_upload. case_match; [|by injection 1 as <- _].
by apply delete_reservation_quiet.
Qed.
End stmts.
#[export] Hint Resolve insert_upload_quiet delete_upload_quiet delete_cleanup_quiet
  queue_superseded_quiet upsert_reservation_quiet delete_reservation_quiet
  reserve_of_upload_quiet delete_reservation_of_upload_quiet : quiet.

Section laws.
Context {B : Type} `{!R2Bucket B} `{Sha256} `{!R2Laws B}.
Notation World := (World B).
Notation world_I := (world_I (B:=B)).

(** A statement after which the nodes are what they were. *)
Lemma same_nodes_safe (P : World → Prop) (f : World → option Db) :
  (∀ w d', world_inv w → P w → f w = Some d' →
     db_inv d' ∧ cas_nodes d' = cas_nodes (w_db w)) →
  db_safe world_I P f (λ _, True).
Proof.
  intros Hf w d' Hw HP Hd. destruct (Hf w d' Hw HP Hd) as [Hdb Hn].
  destruct (set_db_same_nodes d' w Hw Hdb Hn). split_and!; [done|by apply frozen_keeps|done].
Qed.

Lemma commit_new_safe (s : AppSpaceScope) h m n l now first :
  node_key_ok (s, h) → meta_described h m → reserves (s, h) first →
  db_safe world_I (λ w, present_at s h w ∧ ∀ c, c ∈ pm_refs m → row_at s c w ∧ present_at s c w)
    (λ w, fst <$> run_batch (commit_batch (s, h) m n l now first) (w_db w))
    (λ w, row_at s h w ∧ leased_at (B:=B) s h (leaseExpiresAt l) w).
Proof.
  intros Hok Hm Hfirst w d' Hw [[_ Hpres] Hchildren] Hd.
  destruct (run_batch _ _) as [[d4 ns]|] eqn:Hb; [|done]. injection Hd as ->.
  pose proof Hw as [[Hrefs Husage Htemp Hde] Hbk Hcontent].
  pose proof (commit_batch_described (s, h) _ _ _ _ _ _ _ _ Hfirst Hrefs Hm Hb Hde) as Hde'.
  destruct (commit_batch_columns _ _ _ _ _ _ _ _ _ Hfirst Hb) as [Hus Hte].
  assert (∀ c, c ∈ pm_refs m → is_Some (cas_nodes (w_db w) !! child_key (s, h) c)) as Hin
    by (intros c Hc; by apply Hchildren).
  destruct (commit_batch_refs _ _ _ _ _ _ _ _ _ Hfirst Hok Hrefs Hin Hb) as (Hrefs' & Hdom & Hrows & Hkept & Hnew).
  clear Hin.
  split_and!.
  - apply set_db_inv; [done|by split; auto|]. intros k' r' Hk' Hp.
    destruct (decide (k' = (s, h))) as [->|Hne]; [done|].
    destruct (decide (Exists (λ c, k' = child_key (s, h) c) (pm_refs m))) as [Hex|Hex].
    + apply Exists_exists in Hex as (c & Hin & ->). by destruct (Hchildren c Hin) as [_ [_ ?]].
    + apply (Hcontent k' r'); [|done]. apply Hrows; [done..|]. intros c Hin Heq. apply Hex.
      apply Exists_exists. eauto.
  - by apply frozen_keeps, set_db_keeps.
  - apply Hdom. by left.
  - destruct Hnew as (r' & Hr' & Hl). exists r'. split; [done|]. by rewrite Hl.
Qed.

Lemma quiet_run q : quiet q → safe world_I (λ _, True) (d1_run q) (λ _ _, True).
Proof.
  intros Hq. apply d1_run_safe; [apply _|by intros ?|]. apply same_nodes_safe.
  intros w d' [Hd _ _] _ Hs. destruct (q (w_db w)) as [[d n]|] eqn:Hqs; [|done].
  injection Hs as <-. by apply (Hq _ _ n).
Qed.

Lemma quiet_batch l : Forall quiet l → safe world_I (λ _, True) (d1_batch l) (λ _ _, True).
Proof.
  intros Hl. apply d1_batch_safe; [apply _|by intros ?|]. apply same_nodes_safe.
  intros w d' [Hd _ _] _ Hs. destruct (run_batch l (w_db w)) as [[d ns]|] eqn:Hqs; [|done].
  injection Hs as <-. by apply (quiet_run_batch l _ _ ns).
Qed.

Lemma true_stable : stable world_I (λ _ : World, True).
Proof. by intros ?. Qed.

(** ** Reads *)

Lemma row_key_ok k w : world_inv w → is_Some (cas_nodes (w_db w) !! k) → node_key_ok k.
Proof. intros [Hd _ _] [r Hk]. by eapply ri_keys; [apply di_refs|]. Qed.

Lemma ready_node_row k (d : Db) : is_Some (ready_node k d) → is_Some (cas_nodes d !! k).
Proof. unfold ready_node. case_match; [eauto|done]. Qed.

Lemma isNodeReady_safe s h :
  safe world_I (λ _, True) (d1_isNodeReady s h)
    (λ b w, b = true → row_at (B:=B) s h w ∧ present_at s h w).
Proof.
  unfold d1_isNodeReady. eapply safe_bind; [apply true_stable| |].
  { apply (d1_read_safe _ _ _ (λ r w, is_Some r → row_at s h w ∧ node_key_ok (s, h)));
      [apply true_stable|].
    intros w Hw _ Hr. apply ready_node_row in Hr. split; [done|by eapply row_key_ok]. }
  intros [r|]; [|by apply safe_ret].
  apply (safe_pre _ (λ w, row_at s h w ∧ node_key_ok (s, h))).
  { intros w [_ Hw]. by apply Hw. }
  apply safe_assume. intros Hok.
  eapply safe_bind; [apply row_at_stable| |].
  { apply (r2_read_safe _ _ _ (λ o w, is_Some o → present_at s h w)); [apply row_at_stable|].
    intros w Hw Hr Ho. by split. }
  intros o. apply safe_ret. intros w [Hr Hp] Hb%bool_decide_eq_true. auto.
Qed.

Lemma true_frozen : stable (frozen_I (B:=B)) (λ _ : World, True).
Proof. by intros ?. Qed.

Lemma readObject_safe s h :
  node_key_ok (s, h) →
  safe frozen_I (λ _, True) (d1_readCanonicalObject s h) (λ o w, is_Some o → present_at (B:=B) s h w).
Proof.
  intros Hok. unfold d1_readCanonicalObject. eapply safe_bind; [apply true_frozen| |].
  { apply (r2_read_safe _ _ _ (λ o w, is_Some o → present_at s h w)); [apply true_frozen|].
    intros w Hw _ Ho. by split. }
  intros [o|]; [|apply safe_ret; by intros ? _ [? ?]].
  apply (safe_pre _ (present_at s h)); [intros w [_ Hw]; by apply Hw|].
  case_match; [|by apply safe_ret]. apply safe_seq; [apply present_at_frozen|by apply safe_lift|].
  intros hex. by apply safe_ret.
Qed.

Lemma readBytes_safe s h :
  safe world_I (λ _, True) (d1_readCanonicalBytes s h)
    (λ o w, node_key_ok (s, h) → is_Some o → present_at (B:=B) s h w).
Proof.
  unfold d1_readCanonicalBytes. eapply safe_bind; [apply true_stable| |].
  { apply (r2_read_safe _ _ _ (λ o w, node_key_ok (s, h) → is_Some o → present_at s h w));
      [apply true_stable|].
    intros w Hw _ Hok Ho. by split. }
  intros o. apply safe_ret. intros w [_ Hp] Hok Ho. apply Hp; [done|].
  destruct o; [eauto|by destruct Ho].
Qed.

(** ** Writes *)

(** An unconditional part of a run that answers nothing. *)
Lemma safe_done {A} P (m : Act B A) Q :
  stable world_I P → safe world_I P m (λ _, Q) → safe world_I P (_ ← m; mret tt) (λ _, Q).
Proof.
  intros HsP Hm. eapply safe_bind; [done|exact Hm|]. intros a. apply safe_ret. by intros w [_ ?].
Qed.

Lemma put_safe s h bs :
  node_key_ok (s, h) →
  safe world_I (λ _, True) (d1_putVerifiedCanonicalBytes s h bs) (λ _, present_at (B:=B) s h).
Proof.
  intros Hok. unfold d1_putVerifiedCanonicalBytes.
  eapply safe_bind; [apply true_stable|by apply r2_write_safe|]. intros [|].
  { apply safe_ret. intros w [_ Hw]. by apply Hw. }
  apply (safe_pre _ (λ _, True)); [done|]. unfold verify_existing.
  eapply safe_bind; [apply true_stable|apply readBytes_safe|]. intros [bs'|]; [|apply safe_throw].
  apply (safe_pre _ (present_at s h)).
  { intros w [_ Hw]. by apply Hw. }
  apply safe_seq; [apply present_at_stable|by apply safe_lift|]. intros digest.
  by apply safe_lift.
Qed.

(** A statement that relies on leases nothing else moves. *)
Lemma d1_run_frozen P (q : stmt) Q :
  stable frozen_I P → db_safe world_I P (λ w, fst <$> q (w_db w)) Q →
  safe world_I P (d1_run q) (λ _, Q).
Proof.
  intros HsP Hq w Hw HP. unfold d1_run, external. destruct (enter w) as [o w1] eqn:He.
  destruct (enter_safe w o w1 Hw He) as [Hw1 Hk1]. specialize (Hq w1).
  pose proof (HsP _ _ Hk1 HP) as HP1. apply frozen_keeps in Hk1.
  destruct o; [| by split |];
    (destruct (q (w_db w1)) as [[d n]|] eqn:Hs; [|by split]);
    (destruct (Hq d Hw1 HP1) as (? & ? & ?); [by rewrite Hs|]).
  - split_and!; [done|by eapply (keeps_trans world_I)|done].
  - split; [done|by eapply (keeps_trans world_I)].
Qed.

Lemma renew_safe s h l t :
  t ≤ leaseExpiresAt l →
  safe world_I (λ w, present_at s h w ∧ lease_within s h t w) (d1_renewNodeLease s h l)
    (λ _ w, row_at s h w ∧ present_at s h w ∧ leased_at (B:=B) s h (leaseExpiresAt l) w).
Proof.
  intros Ht. unfold d1_renewNodeLease.
  eapply safe_chain; [|intros n; apply safe_ret; intros w Hw; exact Hw]. apply d1_run_frozen.
  { apply stable_and; [apply present_at_frozen|apply lease_within_frozen]. }
  intros w d Hw [[Hok Hp] (r & Hr & Hl)] Hs.
  destruct (update_node _ _ (w_db w)) as [[d' n]|] eqn:Hu; [|done]. injection Hs as ->.
  destruct (update_node_world Z.le (s, h) (set_lease l) n d w) as [? Hk]; try done.
  { intros r' Hr'. simplify_eq. simpl. lia. }
  { by right. }
  apply update_node_Some in Hu as [[? _]|(r' & u & Hr' & -> & _)]; [congruence|]. simplify_eq.
  split_and!; [done|done| |by split|].
  - eexists. simpl. by rewrite lookup_insert_eq.
  - eexists. simpl. by rewrite lookup_insert_eq.
Qed.

Lemma commit_safe s h m n l :
  node_key_ok (s, h) → meta_described h m →
  safe world_I
    (λ w, present_at s h w ∧ ∀ c, c ∈ pm_refs m → row_at s c w ∧ present_at s c w)
    (d1_commitUploadedCanonicalNode s (CommitNew h m n l))
    (λ _ w, row_at s h w ∧ leased_at (B:=B) s h (leaseExpiresAt l) w).
Proof.
  intros Hok Hm. cbn [d1_commitUploadedCanonicalNode]. unfold commitNewNode.
  assert (stable world_I (λ w : World,
    present_at s h w ∧ ∀ c, c ∈ pm_refs m → row_at s c w ∧ present_at s c w)) as Hst.
  { apply stable_and; [apply present_at_stable|]. apply stable_forall. intros c.
    apply stable_impl, stable_and; [apply row_at_stable|apply present_at_stable]. }
  apply safe_seq; [done|by apply safe_gets|]. intros now.
  apply safe_done; [done|]. apply d1_batch_safe; [apply _|done|].
  apply commit_new_safe; [done..|by left].
Qed.

Lemma delete_temporary_safe s key :
  is_upload_key key → safe world_I (λ _, True) (d1_deleteTemporaryUploadObject s key) (λ _ _, True).
Proof.
  intros Hk. unfold d1_deleteTemporaryUploadObject.
  apply safe_seq; [apply true_stable|by apply r2_remove_safe|]. intros [].
  apply safe_done; [apply true_stable|apply quiet_run; eauto with quiet].
Qed.

(** A statement whose answer is a comparison of its changes. *)
Lemma safe_answer {A C} (m : Act B A) (f : A → C) :
  safe world_I (λ _, True) m (λ _ _, True) →
  safe world_I (λ _, True) (a ← m; mret (f a)) (λ _ _, True).
Proof. intros Hm. apply safe_seq; [apply true_stable|done|]. intros a. by apply safe_ret. Qed.

Definition app_scope (s : AppSpaceScope) : Prop := no_slash (appId s).

Lemma read_true {A} (q : Db → A) : safe world_I (λ _, True) (d1_read q) (λ _ _, True).
Proof. apply d1_read_safe; [apply _|apply true_stable|done]. Qed.

Lemma row_of_upload_fine k u :
  is_upload_key (lu_temporaryObjectKey u) → lu_validation u = None →
  upload_row_fine k (row_of_upload u).
Proof. intros Hk Hv. split; [done|]. intros v. simpl. by rewrite Hv. Qed.

#[export] Instance d1_lease_laws :
  LeaseRepositoryLaws frozen_I world_I app_scope (row_at (B:=B)) present_at leased_at
    lease_within is_upload_key.
Proof.
  split; intros.
  - done.
  - by apply frozen_keeps.
  - apply row_at_frozen.
  - apply lease_within_frozen.
  - apply leased_at_stable.
  - apply row_at_stable.
  - apply present_at_stable.
  - apply isNodeReady_safe.
  - apply d1_read_safe; [apply _|apply true_frozen|]. intros w _ _ c (r & Hr & ->)%fmap_Some_1.
    unfold ready_node in Hr. case_match eqn:Hk; [|done]. split; [by eexists|].
    exists r. case_match; [|done]. simplify_eq. done.
  - by apply readObject_safe.
  - eapply safe_post; [|apply readBytes_safe]. done.
  - apply d1_read_safe; [apply _|apply true_stable|]. intros w [Hd _ _] _ u Hu.
    apply fmap_Some in Hu as (r & Hr & ->). destruct (upload_rows _ _ _ (di_temp _ Hd) Hr) as [Hk Hv].
    split; [done|]. intros v (v' & Hv' & ->)%fmap_Some. by apply Hv.
  - apply read_true.
  - cbn. unfold d1_replaceLeaseDrivenUpload. destruct g as [g|].
    + apply safe_answer, quiet_batch, Forall_cons. split; [apply queue_superseded_quiet|].
      apply Forall_singleton, update_upload_quiet. intros r _. by apply row_of_upload_fine.
    + by apply safe_answer, quiet_run, insert_upload_quiet, row_of_upload_fine.
  - apply safe_answer, quiet_batch, Forall_cons. split.
    { apply update_upload_quiet. intros r [Hk _]. split; [done|]. intros v' [= <-].
      unfold staged_described. by destruct v as [n [cs ct refs]]. }
    apply Forall_singleton, reserve_of_upload_quiet.
  - apply safe_answer, r2_read_safe; [apply _|apply true_stable|done].
  - apply safe_answer, r2_read_safe; [apply _|apply true_stable|done].
  - by apply delete_temporary_safe.
  - apply safe_done; [apply true_stable|]. apply quiet_run, delete_upload_quiet.
  - by apply put_safe.
  - by apply renew_safe.
  - by apply commit_safe.
Qed.

(** ** The cleanup of expired uploads *)

Lemma due_uploads_elem s now limit (d : Db) h g key :
  (h, g, key) ∈ due_uploads s now limit d →
  ∃ r, cas_node_uploads d !! (s, h) = Some r ∧ up_temporary_object_key r = key.
Proof.
  unfold due_uploads. intros ([[s' h'] r] & Heq & Hin)%list_elem_of_fmap. simpl in Heq.
  apply elem_of_take in Hin as (i & Hin & _). apply list_elem_of_lookup_2 in Hin.
  rewrite merge_sort_Permutation in Hin. apply list_elem_of_filter in Hin as [[Hs _] Hin].
  simpl in Hs. subst. injection Heq as -> -> ->. exists r. split; [|done].
  by apply elem_of_map_to_list in Hin.
Qed.

Lemma due_superseded_elem s now limit (d : Db) key :
  key ∈ due_superseded s now limit d → is_Some (cas_node_upload_cleanup d !! (s, key)).
Proof.
  unfold due_superseded. intros ([[s' k'] t] & Heq & Hin)%list_elem_of_fmap. simpl in Heq.
  apply elem_of_take in Hin as (i & Hin & _). apply list_elem_of_lookup_2 in Hin.
  rewrite merge_sort_Permutation in Hin. apply list_elem_of_filter in Hin as [[Hs _] Hin].
  simpl in Hs. subst. apply elem_of_map_to_list in Hin. eauto.
Qed.

Lemma cleanup_safe s now limit :
  safe world_I (λ _, True) (cleanupExpiredLeaseDrivenUploads s now limit) (λ _ _, True).
Proof.
  unfold cleanupExpiredLeaseDrivenUploads.
  eapply safe_bind; [apply true_stable| |].
  { apply (d1_read_safe _ _ _ (λ rows _, ∀ h g key, (h, g, key) ∈ rows → is_upload_key key));
      [apply true_stable|].
    intros w [Hd _ _] _ h g key (r & Hr & <-)%due_uploads_elem.
    by eapply ti_uploads; [apply di_temp|]. }
  intros rows. apply (safe_assume _ (λ _, True) (∀ h g key, (h, g, key) ∈ rows → is_upload_key key)).
  intros Hrows. apply safe_seq; [apply true_stable| |].
  { apply safe_fold_m; [apply true_stable|]. intros deleted [[h g] key] Hin.
    apply safe_seq; [apply true_stable|by apply delete_temporary_safe; eauto|]. intros [].
    apply safe_answer, quiet_batch. repeat (apply Forall_cons; split); eauto with quiet. }
  intros deleted. case_match; [by apply safe_ret|].
  eapply safe_bind; [apply true_stable| |].
  { apply (d1_read_safe _ _ _ (λ keys _, ∀ key, key ∈ keys → is_upload_key key));
      [apply true_stable|].
    intros w [Hd _ _] _ key [t Hk]%due_superseded_elem.
    by eapply ti_cleanup; [apply di_temp|]. }
  intros keys. apply (safe_assume _ (λ _, True) (∀ key, key ∈ keys → is_upload_key key)).
  intros Hkeys.
  apply safe_fold_m; [apply true_stable|]. intros d key Hin.
  by apply safe_answer, delete_temporary_safe, Hkeys.
Qed.
End laws.
