(* ===== verification/GcInv.v ===== *)
(** Collection is safe: it keeps the invariant of the world, whatever is refused or
    lost on the way, and it never takes a node that is rooted or leased, nor
    anything such a node leads to. *)
From Stdlib Require Import Ascii.
From stdpp Require Import sorting.
From S2P Require Import Prelude Js MapSum Errors Safe Codec Validation Store SpaceCommits.
From S2P Require Import SpaceCommits World UsageInv DoNames RefInv RootInv NodeLeaseD1.
From S2P Require Import Described Gc WorldInv LeaseInv.

(** ** What a collection keeps *)

(** The columns that neither an observation nor a Root Ref update writes. *)
Definition bare (r : NodeRow) : NodeRow := unrooted (observe_row None 0 r).

Lemma bare_lease r r' : bare r' = bare r → lease_expires_at r' = lease_expires_at r.
Proof. intros He. exact (f_equal lease_expires_at He). Qed.
Lemma bare_unrooted r r' : unrooted r' = unrooted r → bare r' = bare r.
Proof.
  intros He. unfold bare, unrooted, observe_row, add_root_refs in *. simpl in *.
  injection He as ????? Hr ?. by f_equal.
Qed.

(** Nothing refers to [k] any more, and its lease is over. *)
Record dead (at_ : Z) (k : NodeKey) (d : Db) : Prop := {
  dd_edges : unreferenced k d;
  dd_root : cas_app_root_refs d !! k = None;
  dd_lease : ∀ r, cas_nodes d !! k = Some r → lease_expires_at r ≤ at_
}.

Definition anchored (at_ : Z) (k : NodeKey) (r : NodeRow) (d : Db) : Prop :=
  is_Some (cas_app_root_refs d !! k) ∨ at_ < lease_expires_at r.

(** Between the check of a node of [s] and its deletion nothing moves but
    observations and the Root Refs of other Spaces. *)
Record calm_db (s : AppSpaceScope) (d d' : Db) : Prop := {
  cd_edges : cas_edges d' = cas_edges d;
  cd_roots : ∀ k, fst k = s → cas_app_root_refs d' !! k = cas_app_root_refs d !! k;
  cd_rows : ∀ k, bare <$> cas_nodes d' !! k = bare <$> cas_nodes d !! k
}.

(** Over a whole collection of [s] its nodes go, with their edges, but not the
    anchored; those of other Spaces stay. *)
Record gc_db (s : AppSpaceScope) (at_ : Z) (d d' : Db) : Prop := {
  gd_roots : ∀ k, fst k = s → cas_app_root_refs d' !! k = cas_app_root_refs d !! k;
  gd_edges : ∀ p i c, cas_edges d' !! (p, i) = Some c → cas_edges d !! (p, i) = Some c;
  gd_rows : ∀ k r', cas_nodes d' !! k = Some r' →
              (∃ r, cas_nodes d !! k = Some r ∧ lease_expires_at r' = lease_expires_at r)
              ∧ ∀ i, cas_edges d' !! (k, i) = cas_edges d !! (k, i);
  gd_anchored : ∀ k r, fst k = s → cas_nodes d !! k = Some r → anchored at_ k r d →
              ∃ r', cas_nodes d' !! k = Some r' ∧ lease_expires_at r' = lease_expires_at r;
  gd_other : ∀ k, fst k ≠ s → bare <$> cas_nodes d' !! k = bare <$> cas_nodes d !! k
}.

Lemma calm_refl s d : calm_db s d d.
Proof. done. Qed.
Lemma calm_trans s d1 d2 d3 : calm_db s d1 d2 → calm_db s d2 d3 → calm_db s d1 d3.
Proof.
  intros [H1 H2 H3] [H1' H2' H3']. split; [congruence| |]; intros k; [|by rewrite H3', H3].
  intros Hk. by rewrite H2', H2.
Qed.
Lemma calm_sym s d d' : calm_db s d d' → calm_db s d' d.
Proof. intros [H1 H2 H3]. split; [done| |done]. intros k Hk. by rewrite H2. Qed.

Lemma calm_row s d d' k r' :
  calm_db s d d' → cas_nodes d' !! k = Some r' →
  ∃ r, cas_nodes d !! k = Some r ∧ bare r' = bare r.
Proof.
  intros [_ _ Hr] Hk. specialize (Hr k). rewrite Hk in Hr. simpl in Hr.
  destruct (cas_nodes d !! k) as [r|]; [|done]. exists r. split; [done|]. by apply (inj Some).
Qed.

Lemma gc_refl s at_ d : gc_db s at_ d d.
Proof. split; [done..|eauto|eauto|done]. Qed.
Lemma gc_trans s at_ d1 d2 d3 : gc_db s at_ d1 d2 → gc_db s at_ d2 d3 → gc_db s at_ d1 d3.
Proof.
  intros [R1 E1 W1 A1 O1] [R2 E2 W2 A2 O2]. split; [|eauto| | |].
  - intros k Hk. by rewrite R2, R1.
  - intros k r3 Hk. destruct (W2 k r3 Hk) as [(r2 & Hk2 & Hl2) Hi2].
    destruct (W1 k r2 Hk2) as [(r1 & Hk1 & Hl1) Hi1].
    split; [exists r1; split; [done|congruence]|]. intros i. by rewrite Hi2, Hi1.
  - intros k r1 Hs Hk Ha. destruct (A1 k r1 Hs Hk Ha) as (r2 & Hk2 & Hl2).
    destruct (A2 k r2 Hs Hk2) as (r3 & Hk3 & Hl3).
    + destruct Ha as [Ha|Ha]; [left; by rewrite R1|right; lia].
    + exists r3. split; [done|congruence].
  - intros k Hk. by rewrite O2, O1.
Qed.

Lemma calm_gc s at_ d d' : calm_db s d d' → gc_db s at_ d d'.
Proof.
  intros Hc. pose proof Hc as [He Hr Hrows]. split; [done|by rewrite He| | |auto].
  - intros k r' Hk. destruct (calm_row _ _ _ _ _ Hc Hk) as (r & ? & ?%bare_lease).
    split; [by eauto|]. by rewrite He.
  - intros k r _ Hk _. destruct (calm_row _ _ _ _ _ (calm_sym _ _ _ Hc) Hk) as (r' & ? & ?%bare_lease).
    by eauto.
Qed.

Lemma dead_calm s at_ k d d' : fst k = s → calm_db s d d' → dead at_ k d → dead at_ k d'.
Proof.
  intros Hs Hc [H1 H2 H3]. pose proof Hc as [He Hr _]. split.
  - unfold unreferenced. by rewrite He.
  - by rewrite Hr.
  - intros r' Hk. destruct (calm_row _ _ _ _ _ Hc Hk) as (r & ? & ->%bare_lease). eauto.
Qed.

Lemma groups_calm s k children d d' : calm_db s d d' → groups k children d → groups k children d'.
Proof. intros [He _ _] [Hn Hg]. split; [done|]. intros c. unfold edges_between. rewrite He. apply Hg. Qed.

Lemma row_calm s k d d' : calm_db s d d' → is_Some (cas_nodes d !! k) → is_Some (cas_nodes d' !! k).
Proof.
  intros Hc [r Hk]. destruct (calm_row _ _ _ _ _ (calm_sym _ _ _ Hc) Hk) as (r' & ? & _). eauto.
Qed.

(** The nodes a node leads to. *)
Definition edge (d : Db) (p k : NodeKey) : Prop :=
  ∃ i c, cas_edges d !! (p, i) = Some c ∧ k = child_key p c.
Definition leads_to (d : Db) : NodeKey → NodeKey → Prop := rtc (edge d).

(** ** One deletion *)

(** The columns the payment of the children leaves. *)
Definition kept_columns (r : NodeRow) : Z * Z * string :=
  (lease_expires_at r, content_size r, content_type r).

Lemma pay_rows s (children : list (string * Z)) d d' ns :
  run_batch ((λ c : string * Z, update_node (s, fst c) (add_child_refs (- snd c))) <$> children) d
    = Some (d', ns) →
  cas_edges d' = cas_edges d ∧ cas_app_root_refs d' = cas_app_root_refs d
  ∧ ∀ k, kept_columns <$> cas_nodes d' !! k = kept_columns <$> cas_nodes d !! k
         ∧ (fst k ≠ s → cas_nodes d' !! k = cas_nodes d !! k).
Proof.
  revert d ns. induction children as [|[c n] children IH]; intros d ns H.
  - injection H as <- _. done.
  - apply run_batch_cons in H as (d1 & n1 & ns' & H1 & H & _).
    destruct (IH d1 ns' H) as (He & Hr & Hl).
    apply update_node_Some in H1 as [[_ ->]|(r & t & Hk & -> & _)]; [done|].
    split_and!; [done..|]. intros k. destruct (Hl k) as [-> Ho]. cbn [fst] in Hk. simpl in *.
    destruct (decide (k = (s, c))) as [->|].
    { rewrite lookup_insert_eq, Hk. by split. }
    rewrite lookup_insert_ne in * by done. by split.
Qed.

Lemma deletion_effect k children d d' ns :
  run_batch (deletion_batch k children) d = Some (d', ns) →
  (∀ p i c, cas_edges d' !! (p, i) = Some c ↔ cas_edges d !! (p, i) = Some c ∧ p ≠ k)
  ∧ cas_app_root_refs d' = cas_app_root_refs d
  ∧ ∀ k', kept_columns <$> cas_nodes d' !! k' = kept_columns <$> delete k (cas_nodes d) !! k'
          ∧ (fst k' ≠ fst k → cas_nodes d' !! k' = cas_nodes d !! k').
Proof.
  intros H. unfold deletion_batch in H.
  apply run_batch_cons in H as (d1 & n1 & ns1 & H1 & H & _). injection H1 as <- _.
  apply run_batch_cons in H as (d2 & n2 & ns2 & H2 & H & _).
  apply pay_rows in H as (He & Hr & Hl).
  set (kept := filter (λ e : NodeKey * nat * string, fst (fst e) ≠ k) (cas_edges d)) in *.
  assert (∀ p i c, kept !! (p, i) = Some c ↔ cas_edges d !! (p, i) = Some c ∧ p ≠ k) as Hkept.
  { intros p i c. unfold kept. by rewrite map_lookup_filter_Some. }
  apply delete_node_Some in H2 as [[H2 ->]|(r & t & _ & ->)]; simpl in *.
  - split_and!; [by intros; rewrite He|done|]. intros k'. rewrite delete_id by done. apply Hl.
  - split_and!; [by intros; rewrite He|done|]. intros k'. destruct (Hl k') as [Hle Ho]. split; [done|].
    intros Hne. rewrite Ho, lookup_delete_ne by (done || congruence). done.
Qed.

Lemma deletion_row k children d d' ns k' r' :
  run_batch (deletion_batch k children) d = Some (d', ns) → cas_nodes d' !! k' = Some r' →
  (∃ r, cas_nodes d !! k' = Some r ∧ kept_columns r' = kept_columns r)
  ∧ ∀ i, cas_edges d' !! (k', i) = cas_edges d !! (k', i).
Proof.
  intros Hb Hk. destruct (deletion_effect _ _ _ _ _ Hb) as (He & _ & Hl).
  destruct (Hl k') as [Hle _]. rewrite Hk in Hle. symmetry in Hle.
  apply fmap_Some in Hle as (r & Hk' & ?). apply lookup_delete_Some in Hk' as [Hne Hk'].
  split; [by exists r|]. intros i. apply option_eq. intros c. rewrite He. naive_solver.
Qed.

Lemma deletion_gc at_ k children d d' ns :
  dead at_ k d → run_batch (deletion_batch k children) d = Some (d', ns) →
  gc_db (fst k) at_ d d' ∧ cas_app_root_refs d' = cas_app_root_refs d.
Proof.
  intros [_ Hroot Hlease] Hb. destruct (deletion_effect _ _ _ _ _ Hb) as (He & Hr & Hl).
  split; [|done]. split.
  - by rewrite Hr.
  - intros p i c. rewrite He. by intros [? _].
  - intros k' r' Hk. destruct (deletion_row _ _ _ _ _ _ _ Hb Hk) as [(r & ? & Hc) ?].
    split; [|done]. exists r. split; [done|]. by injection Hc.
  - intros k' r _ Hk Ha. assert (k' ≠ k) as Hne.
    { intros ->. destruct Ha as [[? Ha]|Ha]; [congruence|]. specialize (Hlease r Hk). lia. }
    destruct (Hl k') as [Hle _]. rewrite lookup_delete_ne, Hk in Hle by done.
    apply fmap_Some in Hle as (r' & Hk' & Hc). exists r'. split; [done|]. by injection Hc.
  - intros k' Hne. destruct (Hl k') as [_ Ho]. by rewrite Ho.
Qed.

Lemma deletion_content k children d d' ns :
  run_batch (deletion_batch k children) d = Some (d', ns) → same_content d d'.
Proof.
  intros Hb k' r' Hk. destruct (deletion_row _ _ _ _ _ _ _ Hb Hk) as [(r & ? & Hc) ?].
  split; [|done]. exists r. by injection Hc.
Qed.

Lemma deletion_batch_columns `{Sha256} k children d d' ns :
  run_batch (deletion_batch k children) d = Some (d', ns) →
  (usage_inv d → usage_inv d') ∧ (aux_inv d → aux_inv d').
Proof.
  intros Hb. split; intros Hd; (eapply run_batch_preserves; [|done|exact Hb]);
    unfold deletion_batch; repeat (apply Forall_cons; split).
  - intros d0 d0' n Hd0 H0. injection H0 as <- _. by apply (usage_inv_same d0).
  - apply delete_node_usage.
  - apply Forall_fmap, Forall_true. intros c. apply update_node_usage.
  - intros d0 d0' n Hd0 H0. injection H0 as <- _. by apply (same_aux d0).
  - intros d0 d0' n Hd0 [[_ ->]|(r & t & _ & ->)]%delete_node_Some; [done|]. by apply (same_aux d0).
  - apply Forall_fmap, Forall_true. intros c. apply update_node_temp.
Qed.

(** ** The collection *)

Section collect.
Context {B : Type} `{!R2Bucket B} `{Sha256} `{!R2Laws B} `{ScanOrder} `{!ScanOrderLaws}.
Notation World := (World B).
Variables (at_ : Z) (s : AppSpaceScope).

Definition gc_holds (w : World) : Prop := world_inv w ∧ gated s w ∧ at_ ≤ w_clock w.

Program Definition calm_I : Invariant World :=
  mkInvariant gc_holds
    (λ w w', calm_db s (w_db w) (w_db w') ∧ w_clock w ≤ w_clock w') _ _.
Next Obligation. intros w. split; [done|lia]. Qed.
Next Obligation.
  intros w1 w2 w3 [? ?] [? ?]. split; [by eapply calm_trans|lia].
Qed.

Program Definition gc_I : Invariant World :=
  mkInvariant gc_holds
    (λ w w', gc_db s at_ (w_db w) (w_db w') ∧ w_clock w ≤ w_clock w') _ _.
Next Obligation. intros w. split; [apply gc_refl|lia]. Qed.
Next Obligation.
  intros w1 w2 w3 [? ?] [? ?]. split; [by eapply gc_trans|lia].
Qed.

Lemma observe_calm k stored t n d d' :
  update_node k (observe_row stored t) d = Some (d', n) → calm_db s d d'.
Proof.
  intros [[_ ->]|(r & u & Hk & -> & _)]%update_node_Some; [done|]. split; [done..|].
  intros k'. simpl. destruct (decide (k' = k)) as [->|]; [by rewrite lookup_insert_eq, Hk|].
  by rewrite lookup_insert_ne.
Qed.

Lemma committed_calm plan d d' :
  rp_scope plan ≠ s → ref_inv d → committed plan d d' → calm_db s d d'.
Proof.
  intros Hne Hi Hc. split.
  - by eapply cm_edges.
  - intros k Hk. apply balance_row; [done|by eapply cm_refs|]. rewrite (cm_balance _ _ _ Hc).
    rewrite decide_False by congruence. lia.
  - intros k. pose proof (cm_rows _ _ _ Hc k) as Hr.
    destruct (cas_nodes d' !! k), (cas_nodes d !! k); simpl in *; try done.
    apply (inj Some) in Hr. f_equal. by apply bare_unrooted.
Qed.

Lemma env_step_calm (w : World) a :
  world_inv w → foreign s a → calm_db s (w_db w) (w_db (env_step w a)).
Proof.
  intros Hw Hf. destruct a as [id body|k stored t|s' t|plan]; unfold env_step; [done| | |].
  - destruct (writeNodeObservation _ _ _ _) as [[d n]|] eqn:Hu; [|done]. by eapply observe_calm.
  - destruct (run_batch (repair_batch s' t) (w_db w)) as [[d ns]|] eqn:Hr; [|done].
    by apply repair_batch_row in Hr as (u & -> & _).
  - destruct (plan_ok plan (w_db w) && plan_stored plan w) eqn:Hok; [|done].
    apply andb_true_iff in Hok as [Hok Hst].
    destruct (commit_plan plan) as [l|] eqn:Hl; [|done].
    destruct (run_batch l (w_db w)) as [[d ns]|] eqn:Hr; [|done].
    destruct (commit_plan_world plan l ns d w) as (_ & _ & Hc); [done..|].
    apply (committed_calm plan); [done|apply Hw|done].
Qed.

Lemma enter_calm (w w' : World) o :
  world_inv w → gated s w → enter w = (o, w') → calm_db s (w_db w) (w_db w') ∧ gated s w'.
Proof.
  intros Hw Hg. unfold enter. unfold gated in *. destruct (w_sched w) as [|t sched] eqn:Hsched.
  { injection 1 as <- <-. by rewrite Hsched. }
  apply Forall_cons in Hg as [Ht Hg]. injection 1 as _ <-. simpl.
  assert (∀ w0 : World, w_sched w0 = sched → w_sched (foldl env_step w0 (tk_env t)) = sched) as Hs.
  { induction (tk_env t) as [|a l IH]; intros w0 Hw0; [done|]. apply Forall_cons in Ht as [_ Ht].
    simpl. apply (IH Ht). rewrite <- Hw0. destruct a; simpl; repeat case_match; done. }
  split; [|by rewrite Hs].
  clear Hs. set (w0 := mkWorld (w_db w) (w_bucket w) (w_clock w) sched).
  assert (world_inv w0) as Hw0 by (destruct Hw; by split).
  change (w_db w) with (w_db w0). generalize dependent w0. clear Hw Hg.
  induction Ht as [|a l Ha _ IH]; intros w0 Hw0; [done|]. simpl.
  eapply calm_trans; [by apply env_step_calm|]. apply IH. by apply env_step_safe.
Qed.

#[export] Instance calm_EnvSafe : EnvSafe calm_I.
Proof.
  intros w o w' (Hw & Hg & Ht) He. destruct (enter_safe w o w' Hw He) as [Hw' (_ & _ & Hc)].
  apply enter_calm in He as [He Hg']; [|done..]. split; [split_and!; [done..|lia]|]. by split.
Qed.

Lemma calm_gc_I (w w' : World) : keeps calm_I w w' → keeps gc_I w w'.
Proof. intros [Hc ?]. split; [by apply calm_gc|done]. Qed.

#[export] Instance gc_EnvSafe : EnvSafe gc_I.
Proof.
  intros w o w' Hw He. destruct (calm_EnvSafe w o w' Hw He). split; [done|].
  by apply calm_gc_I.
Qed.

Definition dead_at h (w : World) : Prop := dead at_ (s, h) (w_db w).
Definition there h (w : World) : Prop := is_Some (cas_nodes (w_db w) !! (s, h)).

Lemma dead_stable h : stable calm_I (dead_at h).
Proof. intros w w' [Hc _]. by eapply dead_calm. Qed.
Lemma there_stable h : stable calm_I (there h).
Proof. intros w w' [Hc _]. by eapply row_calm. Qed.
Lemma groups_stable k children : stable calm_I (λ w, groups k children (w_db w)).
Proof. intros w w' [Hc _]. by eapply groups_calm. Qed.

(** The counters of a row tell whether the node is dead. *)
Lemma unreferenced_row k r (d : Db) :
  ref_inv d → cas_nodes d !! k = Some r → child_ref_count r ≤ 0 → root_ref_count r ≤ 0 →
  lease_expires_at r ≤ at_ → dead at_ k d.
Proof.
  intros Hi Hk Hc Hr Hl. split.
  - apply unreferenced_count. rewrite <- (ri_count d Hi k r Hk).
    assert (0 ≤ child_ref_count r); [|lia]. rewrite (ri_count d Hi k r Hk). apply mcount_nonneg.
  - rewrite (ri_root d Hi k r Hk) in Hr. destruct (cas_app_root_refs d !! k) as [n|] eqn:E; [|done].
    destruct (ri_balance d Hi k n E). simpl in Hr. lia.
  - intros r' Hk'. congruence.
Qed.

Lemma dead_unprotected h r (w : World) :
  gc_holds w → dead_at h w → cas_nodes (w_db w) !! (s, h) = Some r → ¬ protected (w_clock w) r.
Proof.
  intros ([[Hi _ _ _] _ _] & _ & Ht) [Hu Hr Hl] Hk. specialize (Hl r Hk).
  apply unreferenced_count in Hu. unfold protected.
  rewrite (ri_count _ Hi _ r Hk), (ri_root _ Hi _ r Hk), Hr. simpl. lia.
Qed.

Lemma child_groups_groups k d : groups k (child_groups k d) d.
Proof.
  set (cs := elements (list_to_set (snd <$> edges_of k d) : gset string)).
  assert (NoDup (scan_order cs)) as Hnd.
  { rewrite scan_order_perm. apply NoDup_elements. }
  unfold groups, child_groups. fold cs.
  assert (fst <$> ((λ c, (c, edges_between k c d)) <$> scan_order cs) = scan_order cs) as Hf.
  { rewrite <- list_fmap_compose. apply list_fmap_id. }
  split; [by rewrite Hf|]. intros c.
  destruct (decide (c ∈ cs)) as [Hc|Hc].
  - rewrite (elem_of_list_to_map_1 _ c (edges_between k c d)); [done|by rewrite Hf|].
    apply list_elem_of_fmap. exists c. split; [done|]. by rewrite scan_order_perm.
  - rewrite not_elem_of_list_to_map_1; [|by rewrite Hf, scan_order_perm]. simpl. symmetry.
    unfold edges_between. apply mcount_zero. intros [p i] c' He. apply bool_decide_eq_false.
    simpl. intros [-> ->]. apply Hc. unfold cs. rewrite elem_of_elements, elem_of_list_to_set.
    apply list_elem_of_fmap. exists (i, c). split; [done|]. unfold edges_of.
    apply list_elem_of_fmap. exists ((k, i), c). split; [done|].
    apply list_elem_of_filter. split; [done|]. by apply elem_of_map_to_list.
Qed.

(** *** The repository's methods *)

Lemma still_safe h :
  safe calm_I (λ _, True) (d1_readStillExpiredUnreferenced s h at_)
    (λ r w, ∀ del, r = Some del → gd_hash del = h
       ∧ dead_at h w ∧ there h w ∧ groups (s, h) (gd_childReferences del) (w_db w)).
Proof.
  unfold d1_readStillExpiredUnreferenced.
  eapply (safe_bind _ _ _ _ (λ r w, ∀ row, r = Some row → child_ref_count row ≤ 0 →
    root_ref_count row ≤ 0 → lease_expires_at row ≤ at_ → dead_at h w ∧ there h w));
    [by intros ?| |].
  - apply d1_read_safe; [apply _|by intros ?|]. intros w [[[Hi _ _ _] _ _] _] _ row Hr Hc Hroot Hl.
    unfold fresh_row in Hr. case_match; [|done].
    split; [by eapply unreferenced_row|by exists row].
  - intros [row|]; [|by apply safe_ret]. case_match eqn:Hg; [by apply safe_ret|].
    rewrite !orb_false_iff, !Z.ltb_ge in Hg. destruct Hg as [[Hc Hr] Hl].
    apply (safe_pre _ (λ w, dead_at h w ∧ there h w)).
    { intros w [_ Hw]. by apply (Hw row). }
    assert (stable calm_I (λ w : World, dead_at h w ∧ there h w)) as Hst.
    { apply stable_and; [apply dead_stable|apply there_stable]. }
    eapply (safe_bind _ _ _ _ (λ children w, groups (s, h) children (w_db w))); [done| |].
    + apply d1_read_safe; [apply _|done|]. intros w _ _. apply child_groups_groups.
    + intros children. apply safe_ret. intros w [[? ?] ?] del [= <-]. done.
Qed.

Lemma delete_content_safe h :
  safe calm_I (λ w, dead_at h w ∧ there h w) (d1_deleteCanonicalContent s h)
    (λ _ _, True).
Proof.
  assert (stable calm_I (λ w : World, dead_at h w ∧ there h w)) as Hst.
  { apply stable_and; [apply dead_stable|apply there_stable]. }
  unfold d1_deleteCanonicalContent. apply safe_seq; [done| |].
  - apply external_safe; [apply _|done|]. intros w [Hw Ht] [Hd [r Hk]]. cbn.
    split; [|split; [split; [done|lia]|done]]. split; [|done].
    pose proof Hw as [Hdb Hb Hc].
    assert (∀ k, node_key_ok k → k ≠ (s, h) →
      r2_object (r2_delete (w_bucket w) (canonical_key (s, h))) (canonical_key k)
      = object_at k w) as Hsame.
    { intros k Hok Hne. apply r2_delete_other. intros He%canonical_key_inj; [done..|].
      by eapply ri_keys; [apply di_refs|]. }
    split; [done| |].
    + intros k o Hok Ho. unfold object_at in Ho. simpl in Ho.
      destruct (decide (k = (s, h))) as [->|Hne]; [by rewrite r2_delete_key in Ho|].
      rewrite Hsame in Ho by done. eauto.
    + intros k r' Hk' Hp. simpl in *. destruct (decide (k = (s, h))) as [->|Hne].
      { by destruct (dead_unprotected _ _ w (conj Hw Ht) Hd Hk'). }
      unfold object_at. simpl. rewrite Hsame; eauto. by eapply ri_keys; [apply di_refs|].
  - intros []. apply safe_seq; [done|by apply safe_gets|]. intros now.
    apply safe_seq; [done| |by intros; apply safe_ret].
    apply d1_run_safe; [apply _|done|]. intros w d [Hw Ht] _ Hs.
    destruct (update_node _ _ (w_db w)) as [[d' n]|] eqn:Hu; [|done]. injection Hs as ->.
    destruct (update_node_world eq (s, h) (observe_row None now) n d w) as [Hi _]; try done.
    { intros r _. left. simpl. lia. }
    split; [split; [done|exact Ht]|]. split; [|done]. split; [by eapply observe_calm|simpl; lia].
Qed.

Lemma commit_deletion_safe del :
  safe gc_I (λ w, dead_at (gd_hash del) w ∧ there (gd_hash del) w
                  ∧ groups (s, gd_hash del) (gd_childReferences del) (w_db w))
    (d1_commitDeletion s del) (λ _ _, True).
Proof.
  set (k := (s, gd_hash del)).
  set (P := λ w : World, dead_at (gd_hash del) w ∧ there (gd_hash del) w ∧ groups k (gd_childReferences del) (w_db w)).
  assert (stable calm_I P) as Hst.
  { apply stable_and; [apply dead_stable|].
    apply stable_and; [apply there_stable|apply groups_stable]. }
  assert (∀ w d ns, gc_holds w → P w →
    run_batch (deletion_batch k (gd_childReferences del)) (w_db w) = Some (d, ns) →
    gc_holds (set_db d w) ∧ gc_db s at_ (w_db w) d) as Hdb.
  { intros w d ns [Hw Ht] (Hdead & Hk & Hg) Hb. pose proof Hw as [[Hi Hus Hte Hde] _ Hc].
    destruct (deletion_gc _ _ _ _ _ _ Hdead Hb) as [Hgc Hroots]. split; [|done]. split; [|done].
    destruct (deletion_batch_columns _ _ _ _ _ Hb) as [Hus' Hte']. destruct Hdead as [Hun Hroot _].
    destruct (deletion_ref _ _ _ _ _ Hi Hun Hroot Hk Hg Hb) as (Hi' & _ & _).
    apply set_db_inv; [done| |].
    { split; auto. revert Hde. apply rows_described_same. by eapply deletion_content. }
    intros k' r' Hk' Hp.
    destruct (gd_rows _ _ _ _ Hgc k' r' Hk') as [(r & Hr & Hl) _].
    apply (Hc k' r Hr). unfold protected in *.
    rewrite (ri_count _ Hi' _ _ Hk'), (ri_root _ Hi' _ _ Hk'), Hroots in Hp.
    rewrite (ri_count _ Hi _ _ Hr), (ri_root _ Hi _ _ Hr).
    destruct Hp as [Hp|Hp]; [left|right; lia].
    assert (edge_refs k' d ≤ edge_refs k' (w_db w)); [|lia].
    apply mcount_subseteq. apply map_subseteq_spec. intros [p i] c. apply (gd_edges _ _ _ _ Hgc). }
  intros w Hw HP. unfold d1_commitDeletion, mbind, M_bind, d1_batch, external.
  destruct (enter w) as [o w1] eqn:He. destruct (calm_EnvSafe w o w1 Hw He) as [Hw1 Hk1].
  pose proof (Hst _ _ Hk1 HP) as HP1. apply calm_gc_I in Hk1.
  destruct (run_batch _ (w_db w1)) as [[d ns]|] eqn:Hb.
  - destruct (Hdb w1 d ns Hw1 HP1 Hb) as [Hd Hgc].
    assert (keeps gc_I w (set_db d w1)) as Hk.
    { eapply (keeps_trans gc_I); [exact Hk1|]. split; [done|simpl; lia]. }
    destruct o; by split.
  - destruct o; by split.
Qed.

Lemma calm_gc_holds w : holds calm_I w ↔ holds gc_I w.
Proof. done. Qed.

Lemma candidate_safe acc h :
  safe gc_I (λ _, True) (collectCandidate s at_ acc h) (λ _ _, True).
Proof.
  unfold collectCandidate.
  apply (safe_bind_sub calm_I gc_I _ _ _ _ _ calm_gc_holds calm_gc_I
           (stable_pure calm_I True) (still_safe h)). intros [del|]; [|by apply safe_ret].
  set (k := (s, gd_hash del)).
  set (P := λ w : World, dead_at (gd_hash del) w ∧ there (gd_hash del) w ∧ groups k (gd_childReferences del) (w_db w)).
  assert (stable calm_I P) as Hst.
  { apply stable_and; [apply dead_stable|].
    apply stable_and; [apply there_stable|apply groups_stable]. }
  apply (safe_pre _ P).
  { intros w [_ Hw]. destruct (Hw del eq_refl) as (Hh & ? & ? & ?). unfold P, k. by rewrite Hh. }
  eapply (safe_bind_sub calm_I gc_I _ _ _ (λ _ _, True) _ calm_gc_holds calm_gc_I Hst).
  { eapply safe_pre; [|apply delete_content_safe]. by intros w (? & ? & _). }
  intros []. apply (safe_pre _ P); [by intros w [? _]|].
  apply safe_then; [apply commit_deletion_safe|]. intros []. by apply safe_ret.
Qed.

Lemma candidates_safe hashes acc :
  safe gc_I (λ _, True) (fold_m (collectCandidate s at_) acc hashes) (λ _ _, True).
Proof. apply safe_fold_m; [by intros ?|]. intros; apply candidate_safe. Qed.
End collect.

Section theorems.
Context {B : Type} `{!R2Bucket B} `{Sha256} `{!R2Laws B} `{ScanOrder} `{!ScanOrderLaws}.
Notation World := (World B).

Lemma collect_gc s maxNodes (w w' : World) r :
  world_inv w → gated s w → collectExpiredUnreferencedNodes s maxNodes Date_now w = (r, w') →
  world_inv w' ∧ gc_db s (w_clock w) (w_db w) (w_db w') ∧ w_clock w ≤ w_clock w'.
Proof.
  intros Hw Hgate Hr.
  assert (safe (gc_I (w_clock w) s) (λ w', w_clock w' = w_clock w)
            (collectExpiredUnreferencedNodes s maxNodes Date_now) (λ _ _, True)) as Hs.
  2:{ specialize (Hs w (conj Hw (conj Hgate (Z.le_refl _))) eq_refl). rewrite Hr in Hs.
      destruct r as [a|e]; [destruct Hs as ([? ?] & [? ?] & _)|destruct Hs as ([? ?] & [? ?])]; done. }
  unfold collectExpiredUnreferencedNodes. apply safe_lift_bind. intros _ _.
  apply safe_gets_bind. intros t.
  destruct (decide (t = w_clock w)) as [->|Hne]; [|intros w0 _ [Hc1 Hc2]; congruence].
  apply (safe_pre _ (λ _, True)); [done|].
  apply safe_seq; [by intros ?| |].
  - apply d1_read_safe; [apply _|by intros ?|done].
  - intros candidates. apply safe_seq; [by intros ?|apply candidates_safe|].
    intros [deleted reclaimed]. by apply safe_ret.
Qed.

Lemma leads_to_kept s at_ (d d' : Db) k k' :
  ref_inv d' → gc_db s at_ d d' → is_Some (cas_nodes d' !! k) → leads_to d k k' →
  is_Some (cas_nodes d' !! k') ∧ (k' = k ∨ ¬ unreferenced k' d').
Proof.
  intros Hi Hgc Hk Hl. revert Hk. induction Hl as [k|p k k' (i & c & He & ->) _ IH]; intros Hk.
  { split; [done|by left]. }
  destruct Hk as [r Hr]. destruct (gd_rows _ _ _ _ Hgc p r Hr) as [_ Hedges].
  rewrite <- Hedges in He. destruct (IH (ri_child _ Hi _ _ _ He)) as [Hk' Hun].
  split; [done|]. right. destruct Hun as [->|Hun]; [|done]. intros Hu. by apply (Hu p i c).
Qed.

(** C2: a collection of a Space, whatever calls are refused or lost while it
    runs and whatever Root Refs other Spaces commit meanwhile, keeps the
    invariant of the world. A node of the Space with a Root Ref, or with a lease
    that outlives the run, is still there afterwards with its content and its
    edges, and so is every node it leads to; the nodes of other Spaces stay,
    with their content type, size, lease and child references. *)
Theorem gc_keeps_reachable s maxNodes (w w' : World) r :
  world_inv w → gated s w → collectExpiredUnreferencedNodes s maxNodes Date_now w = (r, w') →
  world_inv w'
  ∧ (∀ h row k', cas_nodes (w_db w) !! (s, h) = Some row →
       is_Some (cas_app_root_refs (w_db w) !! (s, h)) ∨ w_clock w' < lease_expires_at row →
       leads_to (w_db w) (s, h) k' →
       is_Some (cas_nodes (w_db w') !! k') ∧ is_Some (object_at k' w')
       ∧ ∀ i, cas_edges (w_db w') !! (k', i) = cas_edges (w_db w) !! (k', i))
  ∧ ∀ k, fst k ≠ s → bare <$> cas_nodes (w_db w') !! k = bare <$> cas_nodes (w_db w) !! k.
Proof.
  intros Hw Hgate Hr. destruct (collect_gc s maxNodes w w' r Hw Hgate Hr) as (Hw' & Hgc & Hclock).
  split; [done|]. split; [|exact (gd_other _ _ _ _ Hgc)]. intros h row k' Hk Ha Hl.
  pose proof Hw' as [[Hi _ _ _] _ Hc]. pose proof Hw as [[Hi0 _ _ _] _ _].
  destruct (gd_anchored _ _ _ _ Hgc (s, h) row eq_refl Hk) as (row1 & Hk1 & Hlease).
  { destruct Ha as [?|?]; [by left|right; lia]. }
  destruct (leads_to_kept s _ _ _ (s, h) k' Hi Hgc ltac:(by eexists) Hl) as [[row' Hk'] Hun].
  split_and!; [by eexists| |by apply (gd_rows _ _ _ _ Hgc k' row' Hk')].
  apply (Hc k' row' Hk'). destruct Hun as [->|Hun].
  - simplify_eq.
    destruct Ha as [[n Hn]|Ha].
    + right; left. rewrite (ri_root _ Hi _ _ Hk1), (gd_roots _ _ _ _ Hgc (s, h) eq_refl), Hn. simpl.
      by destruct (ri_balance _ Hi0 (s, h) n Hn).
    + right; right. congruence.
  - left. rewrite (ri_count _ Hi _ _ Hk'). rewrite <- unreferenced_count in Hun.
    pose proof (mcount_nonneg (λ (e : NodeKey * nat) c,
      bool_decide (child_key (fst e) c = k')) (cas_edges (w_db w'))).
    unfold edge_refs in *. lia.
Qed.
End theorems.
