(* ===== verification/RootRefs.v ===== *)
(** Root Ref updates: the kernel of [packages/service/src/root-refs.ts] over its
    repository class, the D1/R2 repository of
    [packages/service-cloudflare/src/root-refs.ts] with the cutover check of
    [root-cutover.ts], and the command handler of [domain-do.ts]. *)
From Stdlib Require Import Ascii.
From stdpp Require Import sorting.
From S2P Require Import Prelude Js MapSum Errors Codec Validation Store SpaceCommits.
From S2P Require Import DoNames World.

Definition CAS_MAX_REQUEST_ID_LENGTH : Z := 256.
Definition CAS_MAX_ROOT_REF_CHANGES : Z := 1000.
Definition CAS_MAX_ROOT_REF_DELTA : Z := 1000000.

Definition validation_error (status : Z) (code message : string) : exn :=
  ERootRefsValidation (mkRootRefsValidationError status code message).
Definition invalid_request (message : string) : exn :=
  validation_error 400 RootRefsErrorCodes.INVALID_REQUEST message.
Definition busy (message : string) : exn :=
  validation_error 409 RootRefsErrorCodes.BUSY message.
Definition retryable (message : string) : exn :=
  ERootRefsRetryable (mkRootRefsRetryableError message).

Record CanonicalRootRefsUpdate := mkCanonical {
  cu_requestId : string;
  cu_changesJson : string;
  cu_payloadHash : string;
  cu_entries : list (string * Z)
}.

(** * [canonicalizeRootRefsUpdate(input)] *)

Definition entry_le (a b : string * Z) : Prop := Is_true (String.leb (fst a) (fst b)).
#[global] Instance entry_le_dec : RelDecision entry_le.
Proof. intros a b. unfold entry_le. apply _. Defined.

(** One turn of the loop over [Object.entries(changes)]. *)
Definition canonical_entry (member : string * Json) : result exn (string * Z) :=
  let '(hash, delta) := member in
  match validateHash hash with
  | Throw _ => Throw (invalid_request ("invalid hash: " +:+ hash))
  | Ok _ =>
      match delta with
      | JInt n =>
          if negb (isSafeInteger n) || (n =? 0)
          then Throw (invalid_request ("invalid delta for " +:+ hash +:+ ": " +:+ json_String delta))
          else if CAS_MAX_ROOT_REF_DELTA <? Z.abs n
          then Throw (invalid_request ("delta for " +:+ hash +:+ " exceeds the per-hash bound"))
          else Ok (hash, n)
      | _ => Throw (invalid_request ("invalid delta for " +:+ hash +:+ ": " +:+ json_String delta))
      end
  end.

Section canonicalize.
Context `{Sha256}.

(** [sha256Hex(value)]. *)
Definition sha256Hex (value : string) : string := hex_of (sha256 (TextEncoder_encode value)).

Definition canonicalizeRootRefsUpdate (requestId changes : option Json)
    : result exn CanonicalRootRefsUpdate :=
  match requestId with
  | Some (JStr requestId) =>
      _ ← throw_if (strlen requestId =? 0)
            (invalid_request "requestId must be a non-empty string");
      _ ← throw_if (CAS_MAX_REQUEST_ID_LENGTH <? strlen requestId)
            (invalid_request ("requestId exceeds " +:+ show CAS_MAX_REQUEST_ID_LENGTH
                              +:+ " characters"));
      match changes with
      | Some (JObj members) =>
          entries ← map_result canonical_entry members;
          _ ← throw_if (Z.of_nat (length entries) =? 0)
                (invalid_request "changes must not be empty");
          _ ← throw_if (CAS_MAX_ROOT_REF_CHANGES <? Z.of_nat (length entries))
                (invalid_request ("changes exceeds the limit of " +:+ show CAS_MAX_ROOT_REF_CHANGES));
          let entries := merge_sort entry_le entries in
          let changesJson := changes_json entries in
          Ok (mkCanonical requestId changesJson (sha256Hex changesJson) entries)
      | _ => Throw (invalid_request "changes must be an object")
      end
  | _ => Throw (invalid_request "requestId must be a non-empty string")
  end.
End canonicalize.

(** * [applyRootRefsUpdate(input)] *)

Record RootRefRequestRecord := mkRequestRecord { rr_payloadHash : string; rr_revision : Z }.
Record RootRefNodeState := mkNodeState { ns_hash : string; ns_rootRefCount : Z }.
Record RootRefAppState := mkAppState { as_revision : Z; as_balances : gmap string Z }.
Inductive CommitResult := Committed | RevisionConflict.
Record RootRefsUpdateResult := mkUpdateResult { ur_idempotent : bool; ur_revision : Z }.

Class RootRefRepository (W : Type) := {
  findRequest : AppSpaceScope → string → M exn W (option RootRefRequestRecord);
  readNodes : AppSpaceScope → list string → M exn W (list RootRefNodeState);
  findUnreadyNode : AppSpaceScope → list string → M exn W (option string);
  readAppState : AppSpaceScope → M exn W RootRefAppState;
  commit : RootRefCommitPlan → M exn W CommitResult
}.

(** [new Map(nodes.map((node) => [node.hash, node]))]: a later pair wins. *)
Definition node_map (nodes : list RootRefNodeState) : gmap string Z :=
  foldl (λ m node, <[ns_hash node := ns_rootRefCount node]> m) ∅ nodes.

Definition check_entry (nodes : gmap string Z) (entry : string * Z) : result exn unit :=
  let '(hash, delta) := entry in
  match nodes !! hash with
  | None => Throw (validation_error 404 RootRefsErrorCodes.NODE_NOT_FOUND
                     ("node " +:+ hash +:+ " not found"))
  | Some rootRefCount =>
      let newCount := rootRefCount + delta in
      if newCount <? 0
      then Throw (validation_error 409 RootRefsErrorCodes.NEGATIVE_AGGREGATE
                    ("root ref count would go negative for " +:+ hash))
      else throw_if (negb (isSafeInteger newCount))
             (invalid_request ("root ref count would overflow for " +:+ hash))
  end.

Definition project_entry (nodes balances : gmap string Z) (entry : string * Z)
    : result exn (string * option Z) :=
  let '(hash, delta) := entry in
  let balance := default 0 (balances !! hash) in
  match nodes !! hash with
  | None => Throw (TypeError "Cannot read properties of undefined (reading 'rootRefCount')")
  | Some rootRefCount =>
      if negb (balance =? rootRefCount)
      then Throw (busy "Root Ref projection differs from aggregate")
      else let refCount := balance + delta in
           Ok (hash, if refCount =? 0 then None else Some refCount)
  end.

Section kernel.
Context {W : Type} `{!RootRefRepository W}.
Notation Run := (M exn W).

(** [repositoryCall(operation, fallback)]; whatever is thrown is an [Error]. *)
Definition repositoryCall {A} (operation : Run A) : Run A :=
  try_catch operation (λ error,
    match error with
    | ERootRefsValidation _ | ERootRefsRetryable _ => throw error
    | _ => throw (retryable (error_message error))
    end).

Definition applyRootRefsUpdate (scope : AppSpaceScope) (canonical : CanonicalRootRefsUpdate)
    (now : Run Z) : Run RootRefsUpdateResult :=
  let entries := cu_entries canonical in
  existing ← repositoryCall (findRequest scope (cu_requestId canonical));
  match existing with
  | Some existing =>
      if negb (bool_decide (rr_payloadHash existing = cu_payloadHash canonical))
      then throw (validation_error 409 RootRefsErrorCodes.IDEMPOTENCY_CONFLICT
                    "requestId reused with a different payload")
      else mret (mkUpdateResult true (rr_revision existing))
  | None =>
      let hashes := fst <$> entries in
      found ← repositoryCall (readNodes scope hashes);
      let nodes := node_map found in
      _ ← lift (each_result (check_entry nodes) entries);
      let positiveHashes := fst <$> filter (λ e : string * Z, 0 < snd e) entries in
      unreadyHash ← match positiveHashes with
                    | [] => mret None
                    | _ => repositoryCall (findUnreadyNode scope positiveHashes)
                    end;
      _ ← lift (match unreadyHash with
                | Some h => Throw (validation_error 409 RootRefsErrorCodes.NODE_NOT_READY
                                     ("node " +:+ h +:+ " is not ready"))
                | None => Ok tt
                end);
      app ← repositoryCall (readAppState scope);
      let revision := as_revision app + 1 in
      _ ← lift (throw_if (negb (isSafeInteger revision)) (busy "App revision exhausted"));
      projections ← lift (map_result (project_entry nodes (as_balances app)) entries);
      appliedAt ← now;
      commitResult ← repositoryCall (commit
        (mkPlan scope (cu_requestId canonical) (cu_payloadHash canonical)
           (cu_changesJson canonical) entries (as_revision app) revision projections appliedAt));
      match commitResult with
      | RevisionConflict => throw (retryable "App revision allocation lost a conflict")
      | Committed => mret (mkUpdateResult false revision)
      end
  end.

(** ** [withRootRefsRetry(operation, options)] *)

Record RootRefsRetryOptions := mkRetryOptions {
  ro_maxAttempts : option Z;
  ro_baseDelayMs : option Z;
  ro_maxDelayMs : option Z;
  ro_jitter : option bool
}.

Definition is_retryable (e : exn) : bool :=
  match e with ERootRefsRetryable _ => true | _ => false end.

(** The delay after a failed attempt. [Math.random()] is [random / 2^53]. *)
Definition retry_delay (baseDelayMs maxDelayMs : Z) (jitter : bool) (attempt random : Z) : Z :=
  let delay := Z.min maxDelayMs (baseDelayMs * 2 ^ (attempt - 1)) in
  if jitter then delay * (2 ^ 53 + random) / 2 ^ 54 else delay.

Section retry.
Context {A : Type} (operation : Run A) (options : RootRefsRetryOptions)
        (random : Run Z) (sleep : Z → Run unit).
Notation maxAttempts := (default 5 (ro_maxAttempts options)).

(** The loop, from its [attempt]th turn; [fuel] more turns are possible. *)
Fixpoint retry_loop (fuel : nat) (attempt : Z) : Run A :=
  try_catch operation (λ error,
    if negb (is_retryable error) || (maxAttempts <=? attempt) then throw error
    else match fuel with
         | O => throw error
         | S fuel =>
             r ← random;
             _ ← sleep (retry_delay (default 25 (ro_baseDelayMs options))
                          (default 800 (ro_maxDelayMs options))
                          (default true (ro_jitter options)) attempt r);
             retry_loop fuel (attempt + 1)
         end).

(** Turn [maxAttempts] throws, so that many turns are enough. *)
Definition withRootRefsRetry : Run A := retry_loop (Z.to_nat maxAttempts) 1.
End retry.
End kernel.

(** * The repository *)

Section adapter.
Context {B : Type} `{!R2Bucket B}.
Notation Run := (Act B).
Implicit Types scope : AppSpaceScope.

(** [assertRootRefCutover(db)]. *)
Definition assertRootRefCutover : Run unit :=
  marker ← d1_read cas_app_root_cutover;
  if (marker : bool) then mret tt
  else
    legacy ← d1_read legacy_pending;
    lift (throw_if legacy (Error "Root Ref offline cutover required")).

Definition d1_findRequest scope (requestId : string) : Run (option RootRefRequestRecord) :=
  _ ← assertRootRefCutover;
  d1_read (λ d, (λ r, mkRequestRecord (rq_payload_hash r) (rq_revision r))
                <$> cas_app_root_requests d !! (scope, requestId)).

Fixpoint d1_readNodes scope (hashes : list string) : Run (list RootRefNodeState) :=
  match hashes with
  | [] => mret []
  | hash :: hashes =>
      row ← d1_read (λ d, root_ref_count <$> cas_nodes d !! (scope, hash));
      nodes ← d1_readNodes scope hashes;
      mret (match row with Some n => mkNodeState hash n :: nodes | None => nodes end)
  end.

Fixpoint d1_findUnreadyNode scope (hashes : list string) : Run (option string) :=
  match hashes with
  | [] => mret None
  | hash :: hashes =>
      object ← r2_read (canonical_key (scope, hash));
      match object with
      | None => mret (Some hash)
      | Some _ => d1_findUnreadyNode scope hashes
      end
  end.

(** The rows of one Space, by hash. *)
Definition balances_of scope (d : Db) : gmap string Z :=
  list_to_map ((λ e : NodeKey * Z, (snd (fst e), snd e))
    <$> filter (λ e : NodeKey * Z, fst (fst e) = scope) (map_to_list (cas_app_root_refs d))).

Definition d1_readAppState scope : Run RootRefAppState :=
  revision ← d1_read (λ d, cas_app_root_revisions d !! appId scope);
  balances ← d1_read (balances_of scope);
  mret (mkAppState (default 0 revision) balances).

Definition d1_commit (plan : RootRefCommitPlan) : Run CommitResult :=
  batch ← lift (commit_plan plan);
  _ ← d1_batch batch;
  mret Committed.

#[global] Instance d1_RootRefRepository : RootRefRepository (World B) := {|
  findRequest := d1_findRequest;
  readNodes := d1_readNodes;
  findUnreadyNode := d1_findUnreadyNode;
  readAppState := d1_readAppState;
  commit := d1_commit
|}.

(** [executeRootRefsUpdate(input)]. *)
Definition executeRootRefsUpdate scope (canonical : CanonicalRootRefsUpdate)
    : Run RootRefsUpdateResult := applyRootRefsUpdate scope canonical Date_now.
End adapter.
