(* ===== verification/RootBody.v ===== *)
(** The body of a Root Ref update: [parseRootRefsBody] of
    [packages/service/src/root-refs.ts]. *)
From Stdlib Require Import Ascii.
From S2P Require Import Prelude Js JsonText MapSum Errors Codec Validation Store SpaceCommits.
From S2P Require Import SpaceCommits DoNames World RootRefs.

(** The match of [/"([0-9a-f]{64})"\s*:/] at the start of a text: the hash and the
    length of the match. *)
Definition key_match (l : list ascii) : option (string * nat) :=
  match l with
  | c :: r =>
      let hash := of_chars (take 64 r) in
      if bool_decide (c = quote_char) && is_hash hash then
        match drop 64 r with
        | c :: after =>
            let rest := trim_start after in
            if bool_decide (c = quote_char) then
              match rest with
              | ":"%char :: rest => Some (hash, (length l - length rest)%nat)
              | _ => None
              end
            else None
        | [] => None
        end
      else None
  | [] => None
  end.

(** The matches of the global expression; [skip] characters belong to the last. *)
Fixpoint hash_keys (skip : nat) (l : list ascii) : list string :=
  match l with
  | [] => []
  | _ :: l' =>
      match skip with
      | S skip => hash_keys skip l'
      | O =>
          match key_match l with
          | Some (hash, n) => hash :: hash_keys (n - 1) l'
          | None => hash_keys 0 l'
          end
      end
  end.

(** The first hash seen before. *)
Fixpoint first_duplicate (seen keys : list string) : option string :=
  match keys with
  | [] => None
  | hash :: keys => if bool_decide (hash ∈ seen) then Some hash else first_duplicate (hash :: seen) keys
  end.

(** [parseRootRefsBody(text)]: the members [requestId] and [changes]. *)
Definition parseRootRefsBody (text : string) : result exn (option Json * option Json) :=
  match first_duplicate [] (hash_keys 0 (chars text)) with
  | Some hash => Throw (invalid_request ("duplicate JSON key: " +:+ hash))
  | None =>
      match JSON_parse (chars text) with
      | None => Throw (invalid_request "request body is not valid JSON")
      | Some (JObj members) => Ok (find_member "requestId" members, find_member "changes" members)
      | Some _ => Throw (invalid_request "request body must be an object")
      end
  end.

Lemma find_member_distinct name members j :
  Forall (λ m : string * Json, json_distinct (snd m)) members →
  find_member name members = Some j → json_distinct j.
Proof.
  induction 1 as [|[n v] members Hv _ IH]; [done|]. simpl. case_bool_decide; [|done].
  by intros [= <-].
Qed.

(** The members of the changes have distinct names. *)
Lemma parseRootRefsBody_distinct text requestId changes members :
  parseRootRefsBody text = Ok (requestId, changes) → changes = Some (JObj members) →
  NoDup (fst <$> members).
Proof.
  unfold parseRootRefsBody. destruct (first_duplicate _ _); [done|].
  destruct (JSON_parse _) as [j|] eqn:Hj; [|done]. apply JSON_parse_distinct in Hj.
  destruct j as [| | | | | |top]; try done. intros [= _ <-] Hm.
  inversion Hj as [? _ Hno|?|? Hn Hd]; subst; [by destruct (Hno top)|].
  apply (find_member_distinct _ _ _ Hd) in Hm. inversion Hm as [? _ Hno'|?|? ? ?]; subst; [|done].
  by destruct (Hno' members).
Qed.
