(* ===== verification/RootSafe.v ===== *)
(** Root Ref updates count exactly once: whatever calls are refused or lose their
    response, whatever other Spaces commit meanwhile, and however often the update
    is retried, the ledger stays consistent, and an update that answers has one
    event, the one its request record names. *)
From Stdlib Require Import Ascii.
From stdpp Require Import sorting.
From S2P Require Import Prelude Js MapSum Errors Safe Codec Validation Store SpaceCommits.
From S2P Require Import SpaceCommits DoNames World UsageInv RefInv RootInv WorldInv LeaseInv.
From S2P Require Import RootRefs.

(** ** The ledger only grows *)

Record log_grows (d d' : Db) : Prop := {
  gr_requests : ∀ key rq, cas_app_root_requests d !! key = Some rq →
                  cas_app_root_requests d' !! key = Some rq;
  gr_events : ∀ key e, cas_app_root_events d !! key = Some e →
                cas_app_root_events d' !! key = Some e;
  gr_revision : ∀ app, default 0 (cas_app_root_revisions d !! app)
                  ≤ default 0 (cas_app_root_revisions d' !! app);
  gr_frozen : ∀ app, default 0 (cas_app_root_revisions d' !! app)
                = default 0 (cas_app_root_revisions d !! app) →
                ∀ k, fst (fst k) = app → cas_app_root_refs d' !! k = cas_app_root_refs d !! k
}.

Lemma log_grows_same d d' :
  same_log d d' → cas_app_root_refs d' = cas_app_root_refs d → log_grows d d'.
Proof.
  intros (Hr & He & Hq) Hb. split.
  - by rewrite Hq.
  - by rewrite He.
  - by rewrite Hr.
  - by rewrite Hb.
Qed.

Lemma log_grows_refl d : log_grows d d.
Proof. by apply log_grows_same. Qed.

Lemma log_grows_trans d1 d2 d3 : log_grows d1 d2 → log_grows d2 d3 → log_grows d1 d3.
Proof.
  intros [Q1 E1 R1 F1] [Q2 E2 R2 F2]. split; [eauto|eauto| |].
  - intros app. specialize (R1 app). specialize (R2 app). lia.
  - intros app Heq k Hk. specialize (R1 app). specialize (R2 app).
    rewrite (F2 app), (F1 app); [done|lia|done|lia|done].
Qed.

Lemma committed_grows plan d d' :
  rp_revision plan = rp_expectedRevision plan + 1 → ref_inv d → committed plan d d' →
  log_grows d d'.
Proof.
  intros Hrev Hi Hc. pose proof Hc as [C1 _ _ _ _ _ Cb Cx Cr Ce Cq [Hfe Hfq]]. split.
  - intros key rq Hk. rewrite Cq. rewrite lookup_insert_ne; [done|congruence].
  - intros key e Hk. rewrite Ce. rewrite lookup_insert_ne; [done|congruence].
  - intros app. rewrite Cr. destruct (decide (app = appId (rp_scope plan))) as [->|Hne].
    + rewrite lookup_insert_eq, Cx. simpl. lia.
    + by rewrite lookup_insert_ne.
  - intros app. rewrite Cr. destruct (decide (app = appId (rp_scope plan))) as [->|Hne].
    + rewrite lookup_insert_eq, Cx. simpl. lia.
    + intros _ k Hk. apply balance_row; [done..|]. rewrite Cb.
      rewrite decide_False; [lia|]. intros Hs. by rewrite Hs in Hk.
Qed.

(** ** Pure facts of the kernel *)

(** What [canonicalizeRootRefsUpdate] promises of its result. *)
Record canonical_ok `{Sha256} (c : CanonicalRootRefsUpdate) : Prop := {
  co_nodup : NoDup (fst <$> cu_entries c);
  co_entries : Forall (λ e, is_hash (fst e) = true ∧ snd e ≠ 0
                 ∧ Z.abs (snd e) ≤ CAS_MAX_ROOT_REF_DELTA) (cu_entries c);
  co_json : cu_changesJson c = changes_json (cu_entries c);
  co_payload : cu_payloadHash c = sha256Hex (cu_changesJson c)
}.

Lemma map_result_Ok {E A C} (f : A → result E C) l l' :
  map_result f l = Ok l' ↔ Forall2 (λ x y, f x = Ok y) l l'.
Proof.
  revert l'. induction l as [|x l IH]; intros l'; simpl.
  - split; [injection 1 as <-; constructor|by inversion 1].
  - destruct (f x) as [y|e] eqn:Hf; simpl.
    + destruct (map_result f l) as [ys|e] eqn:Hl; simpl.
      * split; [injection 1 as <-; constructor; [done|by apply IH]|].
        inversion 1 as [|? ? ? ? Hy Hys]; subst. rewrite Hf in Hy. injection Hy as <-.
        apply IH in Hys. by injection Hys as <-.
      * split; [done|]. inversion 1 as [|? ? ? ? Hy Hys]; subst. by apply IH in Hys.
    + split; [done|]. inversion 1; congruence.
Qed.

Lemma each_result_Ok {E A} (f : A → result E unit) l u :
  each_result f l = Ok u ↔ Forall (λ x, f x = Ok tt) l.
Proof.
  destruct u. induction l as [|x l IH]; simpl.
  - split; [constructor|done].
  - rewrite Forall_cons. destruct (f x) as [[]|e] eqn:Hf; simpl; [rewrite IH|].
    + split; [by split|by intros [_ ?]].
    + split; [done|by intros [? _]].
Qed.

Lemma node_map_elem nodes : ∀ (m : gmap string Z) h,
  is_Some (foldl (λ (m : gmap string Z) node, <[ns_hash node := ns_rootRefCount node]> m) m nodes !! h) →
  is_Some (m !! h) ∨ ∃ node, node ∈ nodes ∧ ns_hash node = h.
Proof.
  induction nodes as [|node nodes IH]; intros m h; [by left|]. simpl.
  intros [Hi|(n & Hn & Hh)]%IH.
  - destruct (decide (ns_hash node = h)) as [He|Hne].
    + right. exists node. split; [left|done].
    + rewrite lookup_insert_ne in Hi by done. by left.
  - right. exists n. split; [by right|done].
Qed.

Lemma balances_of_lookup s d h : balances_of s d !! h = cas_app_root_refs d !! (s, h).
Proof.
  unfold balances_of. set (l := filter _ _).
  assert (∀ h n, (h, n) ∈ ((λ e : NodeKey * Z, (snd (fst e), snd e)) <$> l)
            ↔ cas_app_root_refs d !! (s, h) = Some n) as Hin.
  { intros h' n. rewrite list_elem_of_fmap. split.
    - intros ([[s' h''] n'] & [= -> ->] & Hl). apply list_elem_of_filter in Hl as [Hs Hl].
      simpl in Hs. subst s'. by apply elem_of_map_to_list in Hl.
    - intros Hn. exists ((s, h'), n). split; [done|]. apply list_elem_of_filter.
      split; [done|]. by apply elem_of_map_to_list. }
  assert (NoDup (fst <$> ((λ e : NodeKey * Z, (snd (fst e), snd e)) <$> l))) as Hnd.
  { rewrite <- list_fmap_compose. apply NoDup_fmap_2_strong.
    - intros [[s1 h1] n1] [[s2 h2] n2] H1 H2 He. simpl in He. subst h2.
      apply list_elem_of_filter in H1 as [Hs1 H1], H2 as [Hs2 H2]. simpl in Hs1, Hs2. subst.
      apply elem_of_map_to_list in H1, H2. congruence.
    - apply NoDup_filter, NoDup_map_to_list. }
  apply option_eq. intros n. rewrite <- Hin. by rewrite elem_of_list_to_map.
Qed.

Lemma project_entries nodes balances entries ps :
  map_result (project_entry nodes balances) entries = Ok ps →
  NoDup (fst <$> entries) → ∀ h delta, (h, delta) ∈ entries →
  ∃ n, find_projection h ps = Some n ∧ default 0 n = default 0 (balances !! h) + delta.
Proof.
  intros Hps%map_result_Ok. induction Hps as [|[h n] [h' p] entries ps He _ IH]; [set_solver|].
  intros [Hh Hnd]%NoDup_cons h0 delta Hin. unfold project_entry in He.
  repeat case_match; simplify_eq; simpl; apply elem_of_cons in Hin as [[= -> ->]|Hin];
    try (rewrite bool_decide_eq_true_2 by done; eexists; split; [done|]; simpl; lia).
  all: rewrite bool_decide_eq_false_2; [by apply IH|]; intros ->; apply Hh, list_elem_of_fmap;
    by exists (h0, delta).
Qed.

Section root.
Context {B : Type} `{!R2Bucket B} `{Sha256} `{!R2Laws B}.
Notation World := (World B).

Program Definition root_I : Invariant World :=
  mkInvariant world_inv (λ w w', keeps_with eq w w' ∧ log_grows (w_db w) (w_db w')) _ _.
Next Obligation. intros w. split; [apply (keeps_refl frozen_I)|apply log_grows_refl]. Qed.
Next Obligation.
  intros w1 w2 w3 [? ?] [? ?]. split; [by eapply (keeps_trans frozen_I)|by eapply log_grows_trans].
Qed.

Lemma env_step_grows (w : World) a : world_inv w → log_grows (w_db w) (w_db (env_step w a)).
Proof.
  intros Hw. destruct a as [id body|k stored t|s' t|plan]; unfold env_step;
    [apply log_grows_refl| | |].
  - destruct (writeNodeObservation _ _ _ _) as [[d n]|] eqn:Hu; [|apply log_grows_refl].
    by apply update_node_Some in Hu as [[_ ->]|(r & u & _ & -> & _)]; apply log_grows_same.
  - destruct (run_batch (repair_batch s' t) (w_db w)) as [[d ns]|] eqn:Hr; [|apply log_grows_refl].
    by apply repair_batch_row in Hr as (u & -> & _); apply log_grows_same.
  - destruct (plan_ok plan (w_db w) && plan_stored plan w) eqn:Hok; [|apply log_grows_refl].
    apply andb_true_iff in Hok as [Hok Hst].
    destruct (commit_plan plan) as [l|] eqn:Hl; [|apply log_grows_refl].
    destruct (run_batch l (w_db w)) as [[d ns]|] eqn:Hr; [|apply log_grows_refl].
    destruct (commit_plan_world plan l ns d w) as (_ & _ & Hc); [done..|].
    apply (committed_grows plan); [|apply Hw|done].
    unfold plan_ok in Hok. rewrite !andb_true_iff, !Z.eqb_eq in Hok. by destruct Hok as [[[[_ ?] _] _] _].
Qed.

#[export] Instance root_EnvSafe : EnvSafe root_I.
Proof.
  intros w o w' Hw He. destruct (enter_safe w o w' Hw He) as [Hw' Hk]. split; [done|].
  split; [done|]. clear Hk Hw'. unfold enter in He. destruct (w_sched w) as [|t sched].
  { injection He as <- <-. apply log_grows_refl. }
  injection He as _ <-. simpl.
  set (w0 := mkWorld (w_db w) (w_bucket w) (w_clock w) sched).
  assert (world_inv w0) as Hw0 by (destruct Hw; by split).
  change (w_db w) with (w_db w0). generalize dependent w0. clear Hw.
  induction (tk_env t) as [|a l IH]; intros w0 Hw0; [apply log_grows_refl|]. simpl.
  eapply log_grows_trans; [by apply env_step_grows|]. apply IH. by apply env_step_safe.
Qed.

Lemma root_row_stable s h : stable root_I (row_at (B:=B) s h).
Proof. intros w w' [Hk _]. by apply row_at_frozen. Qed.
Lemma root_present_stable s h : stable root_I (present_at (B:=B) s h).
Proof. intros w w' [Hk _]. by apply present_at_frozen. Qed.

(** The record of a request. *)
Definition recorded (s : AppSpaceScope) (id payload : string) (rev : Z) (w : World) : Prop :=
  ∃ t, cas_app_root_requests (w_db w) !! (s, id) = Some (mkRequestRow payload rev t).

Lemma recorded_stable s id payload rev : stable root_I (recorded s id payload rev).
Proof. intros w w' [_ Hg] [t Hr]. exists t. by apply (gr_requests _ _ Hg). Qed.

(** The balances a reader saw are those of the revision it saw. *)
Definition balances_at (s : AppSpaceScope) (rev : Z) (balances : gmap string Z) (w : World) : Prop :=
  rev ≤ default 0 (cas_app_root_revisions (w_db w) !! appId s)
  ∧ (default 0 (cas_app_root_revisions (w_db w) !! appId s) = rev →
     ∀ h, balances !! h = cas_app_root_refs (w_db w) !! (s, h)).

Lemma balances_at_stable s rev balances : stable root_I (balances_at s rev balances).
Proof.
  intros w w' [_ Hg] [Hle Hb]. pose proof (gr_revision _ _ Hg (appId s)) as Hr.
  split; [lia|]. intros He h. rewrite (gr_frozen _ _ Hg (appId s)); [|lia|done].
  apply Hb. lia.
Qed.

(** ** The repository's methods *)

Lemma root_true_stable : stable root_I (λ _ : World, True).
Proof. by intros ?. Qed.

Lemma repositoryCall_safe {A} P (m : Act B A) Q :
  stable root_I P → safe root_I P m Q → safe root_I P (repositoryCall m) Q.
Proof.
  intros HsP Hm. apply safe_catch; [done..|]. intros e. destruct e; apply safe_throw.
Qed.

Lemma cutover_safe P : stable root_I P → safe root_I P assertRootRefCutover (λ _ _, True).
Proof.
  intros HsP. unfold assertRootRefCutover. apply safe_seq; [done| |].
  { apply d1_read_safe; [apply _|done|done]. }
  intros [|]; [by apply safe_ret|]. apply safe_seq; [done| |].
  { apply d1_read_safe; [apply _|done|done]. }
  intros legacy. by apply safe_lift.
Qed.

Lemma findRequest_safe s id :
  safe root_I (λ _, True) (d1_findRequest s id)
    (λ r w, ∀ rr, r = Some rr → recorded s id (rr_payloadHash rr) (rr_revision rr) w).
Proof.
  unfold d1_findRequest. apply safe_seq; [apply root_true_stable|apply cutover_safe, root_true_stable|].
  intros _. apply d1_read_safe; [apply _|apply root_true_stable|]. intros w _ _ rr Hr.
  apply fmap_Some in Hr as ([p v t] & Hr & ->). by exists t.
Qed.

Lemma readNodes_safe s hashes :
  safe root_I (λ _, True) (d1_readNodes s hashes)
    (λ nodes w, ∀ node, node ∈ nodes → row_at s (ns_hash node) w).
Proof.
  induction hashes as [|h hashes IH]; simpl.
  - apply safe_ret. intros w _ node Hn. by apply elem_of_nil in Hn.
  - eapply (safe_bind _ _ _ _ (λ r w, is_Some r → row_at s h w)); [apply root_true_stable| |].
    { apply d1_read_safe; [apply _|apply root_true_stable|]. intros w _ _ Hr.
      by apply fmap_is_Some in Hr. }
    intros r. apply (safe_pre _ (λ w, is_Some r → row_at s h w)); [by intros w [_ Hw]|].
    assert (stable root_I (λ w : World, is_Some r → row_at s h w)) as Hst.
    { apply stable_impl, root_row_stable. }
    eapply safe_bind; [done|eapply safe_pre; [|exact IH]; done|]. intros nodes.
    apply safe_ret. intros w [Hr Hn] node Hin. destruct r as [n|]; [|by apply Hn].
    apply elem_of_cons in Hin as [->|Hin]; [by apply Hr|by apply Hn].
Qed.

Lemma findUnready_safe s hashes :
  safe root_I (λ _, True) (d1_findUnreadyNode s hashes)
    (λ r w, r = None → ∀ h, h ∈ hashes → node_key_ok (s, h) → present_at s h w).
Proof.
  induction hashes as [|h hashes IH]; simpl.
  - apply safe_ret. intros w _ _ h Hh. by apply elem_of_nil in Hh.
  - eapply (safe_bind _ _ _ _ (λ r w, node_key_ok (s, h) → is_Some r → present_at s h w));
      [apply root_true_stable| |].
    { apply r2_read_safe; [apply _|apply root_true_stable|]. intros w _ _ Hok Ho. by split. }
    intros [o|]; [|by apply safe_ret].
    set (P := λ w : World, node_key_ok (s, h) → present_at s h w).
    apply (safe_pre _ P); [intros w [_ Hw] Hok; by apply Hw|].
    eapply safe_weaken; [| |eapply safe_keep; [|exact IH]].
    + intros w HP. exact (conj Logic.I HP).
    + intros r w [Hr HP] Hn h' Hin Hok.
      apply elem_of_cons in Hin as [->|Hin]; [by apply HP|by apply Hr].
    + apply stable_impl, root_present_stable.
Qed.

Lemma readAppState_safe s :
  safe root_I (λ _, True) (d1_readAppState s)
    (λ app w, balances_at s (as_revision app) (as_balances app) w).
Proof.
  unfold d1_readAppState.
  eapply (safe_bind _ _ _ _ (λ r w, default 0 r ≤ default 0 (cas_app_root_revisions (w_db w) !! appId s)));
    [apply root_true_stable| |].
  { apply d1_read_safe; [apply _|apply root_true_stable|]. intros w _ _. lia. }
  intros r. set (P := λ w : World, default 0 r ≤ default 0 (cas_app_root_revisions (w_db w) !! appId s)).
  apply (safe_pre _ P); [by intros w [_ Hw]|].
  assert (stable root_I P) as Hst.
  { intros w w' [_ Hg] Hp. pose proof (gr_revision _ _ Hg (appId s)). unfold P in *. lia. }
  eapply (safe_bind _ _ _ _ (λ b w, balances_at s (default 0 r) b w)); [done| |].
  { apply d1_read_safe; [apply _|done|]. intros w _ Hp. split; [done|]. intros _ h.
    apply balances_of_lookup. }
  intros b. apply safe_ret. by intros w [_ Hw].
Qed.

(** ** The commit *)

(** What holds of the database when a plan commits. *)
Record ready_plan (plan : RootRefCommitPlan) (balances : gmap string Z) (w : World) : Prop := {
  rdp_rows : ∀ e, e ∈ rp_entries plan → row_at (rp_scope plan) (fst e) w;
  rdp_stored : ∀ e, e ∈ rp_entries plan → 0 < snd e → present_at (rp_scope plan) (fst e) w;
  rdp_balances : balances_at (rp_scope plan) (rp_expectedRevision plan) balances w
}.

Lemma ready_plan_stable plan balances : stable root_I (ready_plan plan balances).
Proof.
  intros w w' Hk [H1 H2 H3]. split.
  - intros e He. eapply root_row_stable; [exact Hk|auto].
  - intros e He Hp. eapply root_present_stable; [exact Hk|auto].
  - by eapply balances_at_stable.
Qed.

Lemma plan_stored_true plan balances (w : World) :
  ready_plan plan balances w → plan_stored plan w = true.
Proof.
  intros [_ Hst _]. unfold plan_stored. apply forallb_forall. intros [h n] Hin.
  apply list_elem_of_In in Hin. cbn [fst snd].
  destruct (0 <? n) eqn:Hn; [|done]. apply Z.ltb_lt in Hn. simpl.
  apply bool_decide_eq_true. by destruct (Hst (h, n) Hin Hn).
Qed.

Lemma plan_ok_true plan balances (w : World) :
  ready_plan plan balances w →
  default 0 (cas_app_root_revisions (w_db w) !! appId (rp_scope plan)) = rp_expectedRevision plan →
  rp_revision plan = rp_expectedRevision plan + 1 →
  NoDup (fst <$> rp_entries plan) → rp_changesJson plan = changes_json (rp_entries plan) →
  (∀ h delta, (h, delta) ∈ rp_entries plan → ∃ n, find_projection h (rp_projections plan) = Some n
     ∧ default 0 n = default 0 (balances !! h) + delta) →
  plan_ok plan (w_db w) = true.
Proof.
  intros [Hrows _ [_ Hbal]] Hexp Hrev Hnd Hjson Hproj. unfold plan_ok.
  rewrite Hexp, Z.eqb_refl, Hrev, Z.eqb_refl, Hjson, !bool_decide_eq_true_2 by done. simpl.
  apply forallb_forall. intros [h n] Hin. apply list_elem_of_In in Hin. unfold entry_ok. simpl.
  rewrite bool_decide_eq_true_2 by exact (Hrows _ Hin).
  destruct (Hproj h n Hin) as (m & -> & ->). simpl. apply Z.eqb_eq. by rewrite (Hbal Hexp).
Qed.

Lemma commit_plan_expected plan l d d' ns :
  commit_plan plan = Ok l → run_batch l d = Some (d', ns) →
  default 0 (cas_app_root_revisions d !! appId (rp_scope plan)) = rp_expectedRevision plan.
Proof.
  unfold commit_plan. destruct (map_result _ _) as [groups|]; [|done]. simpl.
  injection 1 as <-. intros Hb.
  apply (run_batch_app [init_revision _; cas_revision _ _ _]) in Hb as (d1 & ns1 & ns2 & H1 & _).
  by apply revisions_run in H1 as [H1 _].
Qed.

Lemma commit_plan_safe plan balances :
  rp_revision plan = rp_expectedRevision plan + 1 →
  NoDup (fst <$> rp_entries plan) → rp_changesJson plan = changes_json (rp_entries plan) →
  (∀ h delta, (h, delta) ∈ rp_entries plan → ∃ n, find_projection h (rp_projections plan) = Some n
     ∧ default 0 n = default 0 (balances !! h) + delta) →
  safe root_I (ready_plan plan balances) (d1_commit plan)
    (λ _, recorded (rp_scope plan) (rp_requestId plan) (rp_payloadHash plan) (rp_revision plan)).
Proof.
  intros Hrev Hnd Hjson Hproj. unfold d1_commit. apply safe_lift_bind. intros l Hl.
  eapply (safe_bind _ _ _ _ (λ _, recorded (rp_scope plan) (rp_requestId plan)
    (rp_payloadHash plan) (rp_revision plan))); [apply ready_plan_stable| |].
  - apply d1_batch_safe; [apply _|apply ready_plan_stable|]. intros w d Hw Hp Hs.
    destruct (run_batch l (w_db w)) as [[d' ns]|] eqn:Hb; [|done]. injection Hs as ->.
    pose proof (commit_plan_expected _ _ _ _ _ Hl Hb) as Hexp.
    pose proof (plan_ok_true plan balances w Hp Hexp Hrev Hnd Hjson Hproj) as Hok.
    pose proof (plan_stored_true plan balances w Hp) as Hst.
    destruct (commit_plan_world plan l ns d w Hw Hok Hst Hl Hb) as (Hw' & Hk & Hc).
    split; [done|]. split; [split; [done|]|].
    + apply (committed_grows plan); [done|apply Hw|done].
    + exists (rp_appliedAt plan). simpl. rewrite (cm_request _ _ _ Hc). by rewrite lookup_insert_eq.
  - intros ns. apply safe_ret. by intros w [_ ?].
Qed.

(** ** The update *)

Definition counted (s : AppSpaceScope) (c : CanonicalRootRefsUpdate) (r : RootRefsUpdateResult)
    (w : World) : Prop :=
  recorded s (cu_requestId c) (cu_payloadHash c) (ur_revision r) w.

Lemma nodes_rows s c nodes (w : World) :
  Forall (λ e, check_entry (node_map nodes) e = Ok tt) (cu_entries c) →
  (∀ node, node ∈ nodes → row_at s (ns_hash node) w) →
  ∀ e, e ∈ cu_entries c → row_at s (fst e) w.
Proof.
  intros Hc Hn [h n] Hin. rewrite Forall_forall in Hc. specialize (Hc _ Hin). simpl in *.
  destruct (node_map nodes !! h) as [m|] eqn:Hm; [|done].
  destruct (node_map_elem nodes ∅ h) as [[? He]|(node & Hnode & <-)].
  - unfold node_map in Hm. rewrite Hm. by eexists.
  - by rewrite lookup_empty in He.
  - auto.
Qed.

Lemma apply_safe s c :
  app_scope s → canonical_ok c →
  safe root_I (λ _, True) (executeRootRefsUpdate s c) (λ r, counted s c r).
Proof.
  intros Hs [Hnd Hents Hjson _]. unfold executeRootRefsUpdate, applyRootRefsUpdate.
  eapply safe_bind; [apply root_true_stable|
    apply repositoryCall_safe; [apply root_true_stable|apply findRequest_safe]|].
  intros [rr|].
  { case_match eqn:Hp; [apply safe_throw|]. apply safe_ret. intros w [_ Hr].
    apply negb_false_iff, bool_decide_eq_true in Hp. specialize (Hr rr eq_refl).
    rewrite Hp in Hr. exact Hr. }
  apply (safe_pre _ (λ _, True)); [done|].
  eapply safe_bind; [apply root_true_stable|
    apply repositoryCall_safe; [apply root_true_stable|apply readNodes_safe]|].
  intros nodes. apply safe_lift_bind. intros u Hu%each_result_Ok. clear u.
  set (rows := λ w : World, ∀ e, e ∈ cu_entries c → row_at s (fst e) w).
  assert (stable root_I rows) as Hst.
  { intros w w' Hk Hr e He. eapply root_row_stable; [exact Hk|auto]. }
  apply (safe_pre _ rows); [intros w [_ Hn]; exact (nodes_rows s c nodes w Hu Hn)|].
  set (positive := fst <$> filter (λ e : string * Z, 0 < snd e) (cu_entries c)).
  assert (∀ e, e ∈ cu_entries c → 0 < snd e → fst e ∈ positive) as Hpos.
  { intros e He Hp. apply list_elem_of_fmap. exists e. split; [done|]. by apply list_elem_of_filter. }
  eapply (safe_bind _ _ _ _ (λ r w, r = None → ∀ h, h ∈ positive → node_key_ok (s, h) → present_at s h w));
    [done| |].
  { clearbody positive. destruct positive as [|h hs].
    - apply safe_ret. intros w _ _ h Hh. by apply elem_of_nil in Hh.
    - apply repositoryCall_safe; [done|]. eapply safe_pre; [|apply findUnready_safe]. done. }
  intros unready. apply safe_lift_bind. intros u Hun.
  destruct unready as [h|]; [done|].
  set (stored := λ w : World, rows w ∧ ∀ e, e ∈ cu_entries c → 0 < snd e → present_at s (fst e) w).
  assert (stable root_I stored) as Hst'.
  { intros w w' Hk [Hr Hp]. split; [by eapply Hst|]. intros e He He'.
    eapply root_present_stable; [exact Hk|auto]. }
  apply (safe_pre _ stored).
  { intros w [Hr Hp]. split; [done|]. intros e He He'. apply Hp; [done|by apply Hpos|].
    split; [done|]. rewrite Forall_forall in Hents. by destruct (Hents e He). }
  eapply safe_bind; [done|apply repositoryCall_safe;
    [done|eapply safe_pre; [|apply readAppState_safe]; done]|].
  intros app. apply safe_lift_bind. intros u' _. clear u'. apply safe_lift_bind. intros ps Hps.
  apply safe_gets_bind. intros t.
  set (plan := mkPlan s (cu_requestId c) (cu_payloadHash c) (cu_changesJson c) (cu_entries c)
                 (as_revision app) (as_revision app + 1) ps t).
  apply (safe_pre _ (ready_plan plan (as_balances app))).
  { intros w [[[Hr Hp] Hb] _]. by split. }
  eapply safe_bind; [apply ready_plan_stable|apply repositoryCall_safe;
    [apply ready_plan_stable|apply (commit_plan_safe plan (as_balances app)); try done]|].
  { intros h delta Hin. eapply project_entries; eauto. }
  intros [|]; [|apply safe_throw]. apply safe_ret. by intros w [_ Hr].
Qed.

Lemma retry_safe {A} (m : Act B A) options random sleep Q :
  safe root_I (λ _, True) m Q → safe root_I (λ _, True) random (λ _ _, True) →
  (∀ ms, safe root_I (λ _, True) (sleep ms) (λ _ _, True)) →
  safe root_I (λ _, True) (withRootRefsRetry m options random sleep) Q.
Proof.
  intros Hm Hr Hs. unfold withRootRefsRetry. generalize 1.
  induction (Z.to_nat (default 5 (ro_maxAttempts options))) as [|fuel IH]; intros attempt;
    (apply safe_catch; [apply root_true_stable|done|]; intros e; case_match; [apply safe_throw|]).
  - apply safe_throw.
  - apply safe_seq; [apply root_true_stable|done|]. intros r.
    apply safe_seq; [apply root_true_stable|apply Hs|]. intros _. apply IH.
Qed.
End root.
