(* ===== verification/RootCanon.v ===== *)
(** The canonical form of a Root Ref update: it is well formed, it does not depend
    on the order of the keys, and canonicalizing what a Space forwards to the App
    gives it back. *)
From Stdlib Require Import Ascii.
From stdpp Require Import sorting.
From S2P Require Import Prelude Js MapSum Errors Safe Codec Validation Store SpaceCommits.
From S2P Require Import SpaceCommits DoNames World UsageInv RefInv RootInv WorldInv LeaseInv.
From S2P Require Import RootRefs RootSafe.

#[global] Instance entry_le_total : Total entry_le.
Proof. intros a b. apply (total String.le). Qed.
#[global] Instance entry_le_trans : Transitive entry_le.
Proof. intros a b c. apply (transitivity (R := String.le)). Qed.

(** A list with distinct keys has one sorted form. *)
Lemma sorted_entries_unique l1 l2 :
  NoDup (fst <$> l1) → Sorted entry_le l1 → Sorted entry_le l2 → l1 ≡ₚ l2 → l1 = l2.
Proof.
  intros Hnd H1 H2 Hp. apply (Sorted_unique_strong entry_le); [|done..].
  intros [h1 n1] [h2 n2] Hx1 Hx2 Hle Hge. rewrite <- Hp in Hx2.
  assert (h1 = h2) as -> by by apply (anti_symm String.le).
  f_equal. clear -Hnd Hx1 Hx2. induction l1 as [|[h n] l IH]; [by apply elem_of_nil in Hx1|].
  apply NoDup_cons in Hnd as [Hh Hnd].
  assert (∀ m, (h, m) ∉ l) as Hno.
  { intros m Hm. apply Hh, list_elem_of_fmap. by exists (h, m). }
  apply elem_of_cons in Hx1 as [Hx1|Hx1], Hx2 as [Hx2|Hx2]; simplify_eq;
    [done|by destruct (Hno n2)|by destruct (Hno n1)|by apply IH].
Qed.

Definition entry_fine (e : string * Z) : Prop :=
  is_hash (fst e) = true ∧ snd e ≠ 0 ∧ Z.abs (snd e) ≤ CAS_MAX_ROOT_REF_DELTA.

Lemma canonical_entry_Ok h j e :
  canonical_entry (h, j) = Ok e ↔ fst e = h ∧ j = JInt (snd e) ∧ entry_fine e.
Proof.
  unfold canonical_entry, entry_fine, CAS_MAX_ROOT_REF_DELTA. split.
  - destruct (validateHash h) as [u|] eqn:Hh; [|done]. apply validateHash_spec in Hh.
    destruct j as [| |n| | | |]; try done. case_match eqn:Hs; [done|]. case_match eqn:Hb; [done|].
    injection 1 as <-. apply orb_false_iff in Hs as [_ Hs].
    apply Z.eqb_neq in Hs. apply Z.ltb_ge in Hb. done.
  - destruct e as [h' n]. cbn [fst snd]. intros (-> & -> & Hh & Hn & Hb).
    assert (validateHash h = Ok tt) as -> by by apply validateHash_spec.
    assert (isSafeInteger n = true) as -> by (apply isSafeInteger_spec; lia).
    rewrite (proj2 (Z.eqb_neq n 0)), (proj2 (Z.ltb_ge _ _)) by done. done.
Qed.

(** The members an entry list stands for. *)
Definition members_of (entries : list (string * Z)) : list (string * Json) :=
  (λ e, (fst e, JInt (snd e))) <$> entries.

Lemma canonical_entries_Ok members entries :
  map_result canonical_entry members = Ok entries
  ↔ members = members_of entries ∧ Forall entry_fine entries.
Proof.
  rewrite map_result_Ok. split.
  - induction 1 as [|[h j] e members entries He _ [-> IH]]; [done|].
    apply canonical_entry_Ok in He as (<- & -> & ?). split; [done|by constructor].
  - intros [-> Hf]. induction Hf as [|e entries He _ IH]; [constructor|].
    constructor; [|done]. by apply canonical_entry_Ok.
Qed.

Lemma members_of_keys entries : fst <$> members_of entries = fst <$> entries.
Proof. unfold members_of. by rewrite <- list_fmap_compose. Qed.

Section canon.
Context `{Sha256}.

(** The conditions under which an update is accepted, and its canonical form. *)
Record accepts (requestId : string) (members : list (string * Json))
    (c : CanonicalRootRefsUpdate) : Prop := {
  ac_id : 0 < strlen requestId ≤ CAS_MAX_REQUEST_ID_LENGTH;
  ac_members : members ≡ₚ members_of (cu_entries c);
  ac_count : 0 < Z.of_nat (length members) ≤ CAS_MAX_ROOT_REF_CHANGES;
  ac_entries : Forall entry_fine (cu_entries c);
  ac_sorted : Sorted entry_le (cu_entries c);
  ac_form : c = mkCanonical requestId (changes_json (cu_entries c))
                  (sha256Hex (changes_json (cu_entries c))) (cu_entries c)
}.

Lemma canonicalize_accepts requestId members c :
  NoDup (fst <$> members) →
  canonicalizeRootRefsUpdate (Some (JStr requestId)) (Some (JObj members)) = Ok c
  ↔ accepts requestId members c.
Proof.
  intros Hnd. unfold canonicalizeRootRefsUpdate. split.
  - intros Hc. do 2 peel_guard Hc.
    destruct (map_result canonical_entry members) as [entries|] eqn:He; [|done].
    apply canonical_entries_Ok in He as [-> Hf]. cbn [mbind result_bind] in Hc.
    do 2 peel_guard Hc. injection Hc as <-.
    rewrite ?Z.eqb_neq, ?Z.ltb_ge in *.
    assert (length (members_of entries) = length entries) as Hl by apply length_fmap.
    split; simpl.
    + unfold strlen in *. lia.
    + apply fmap_Permutation. by rewrite merge_sort_Permutation.
    + lia.
    + by rewrite merge_sort_Permutation.
    + apply Sorted_merge_sort. apply _.
    + done.
  - intros [[Hi1 Hi2] Hm [Hc1 Hc2] Hf Hs Hform].
    rewrite (throw_if_false (strlen requestId =? 0)) by (apply Z.eqb_neq; lia).
    cbn [mbind result_bind]. rewrite throw_if_false by by apply ltb_false. cbn [mbind result_bind].
    assert (∃ entries, members = members_of entries ∧ entries ≡ₚ cu_entries c) as (entries & -> & Hp).
    { apply Permutation_map_inv in Hm as (entries & -> & Hp). by exists entries. }
    assert (map_result canonical_entry (members_of entries) = Ok entries) as ->.
    { apply canonical_entries_Ok. split; [done|]. by rewrite Hp. }
    cbn [mbind result_bind]. unfold members_of in Hc1, Hc2. rewrite length_fmap in Hc1, Hc2.
    rewrite (throw_if_false (_ =? 0)) by (apply Z.eqb_neq; lia). cbn [mbind result_bind].
    rewrite throw_if_false by by apply ltb_false. cbn [mbind result_bind].
    rewrite Hform. f_equal.
    assert (merge_sort entry_le entries = cu_entries c) as ->; [|by rewrite Hform].
    rewrite members_of_keys in Hnd. apply sorted_entries_unique; [| | done |].
    + by rewrite merge_sort_Permutation.
    + apply Sorted_merge_sort. apply _.
    + by rewrite merge_sort_Permutation.
Qed.

Lemma accepts_ok requestId members c :
  NoDup (fst <$> members) → accepts requestId members c → canonical_ok c.
Proof.
  intros Hnd [_ Hm _ Hf _ Hform]. split.
  - rewrite Hm, members_of_keys in Hnd. done.
  - done.
  - by rewrite Hform.
  - by rewrite Hform.
Qed.

(** C39: canonicalizing an update accepts exactly the requests with an identifier
    of 1 to 256 characters and 1 to 1000 members, each a node hash with a
    non-zero integer delta of at most a million; the result is well formed (its
    JSON and payload hash are those of its sorted entries), does not depend on
    the order of the members, and is what canonicalizing the command a Space
    forwards to its App gives again. *)
Theorem canonicalize_canonical requestId members c :
  NoDup (fst <$> members) →
  (canonicalizeRootRefsUpdate (Some (JStr requestId)) (Some (JObj members)) = Ok c
   ↔ accepts requestId members c)
  ∧ (canonicalizeRootRefsUpdate (Some (JStr requestId)) (Some (JObj members)) = Ok c →
     canonical_ok c
     ∧ (∀ members', members' ≡ₚ members →
          canonicalizeRootRefsUpdate (Some (JStr requestId)) (Some (JObj members')) = Ok c)
     ∧ canonicalizeRootRefsUpdate (Some (JStr (cu_requestId c)))
         (Some (JObj (members_of (cu_entries c)))) = Ok c).
Proof.
  intros Hnd. split; [by apply canonicalize_accepts|].
  rewrite canonicalize_accepts by done. intros Ha.
  assert (∀ members', members' ≡ₚ members →
    canonicalizeRootRefsUpdate (Some (JStr requestId)) (Some (JObj members')) = Ok c) as Hperm.
  { intros members' Hp. apply canonicalize_accepts; [by rewrite Hp|].
    destruct Ha as [H1 H2 H3 H4 H5 H6]. split; [done| |by rewrite Hp|done..]. by rewrite Hp. }
  split_and!; [by eapply accepts_ok|done|].
  assert (cu_requestId c = requestId) as -> by by rewrite (ac_form _ _ _ Ha).
  apply Hperm. symmetry. apply Ha.
Qed.
End canon.
