(* ===== verification/AuditReads.v ===== *)
(** Reading the Root Ref ledger, of [packages/service-cloudflare/src/audit-reads.ts]:
    pages of balances, each a snapshot of one revision, with their cursors, and
    pages of events. *)
From Stdlib Require Import Ascii.
From stdpp Require Import sorting.
From S2P Require Import Prelude Js JsonText MapSum Errors Codec Validation Store SpaceCommits.
From S2P Require Import SpaceCommits DoNames World RootRefs.

Definition CAS_AUDIT_DEFAULT_LIMIT : Z := 200.
Definition CAS_AUDIT_MAX_LIMIT : Z := 1000.

Module AuditReadErrorCodes.
Definition INVALID_REQUEST := "INVALID_REQUEST".
Definition INVALID_CURSOR := "INVALID_CURSOR".
Definition ROOT_REF_SNAPSHOT_CHANGED := "ROOT_REF_SNAPSHOT_CHANGED".
End AuditReadErrorCodes.

Definition audit_error (status : Z) (code message : string) : exn :=
  EAuditRead (mkAuditReadError status code message).
Definition snapshotChanged : exn :=
  audit_error 409 AuditReadErrorCodes.ROOT_REF_SNAPSHOT_CHANGED "App revision changed while reading".

Record AppRootBalanceRow := mkBalance { br_spaceId : string; br_hash : string; br_count : Z }.
Record AppRootRefsPage := mkRefsPage {
  pg_revision : Z;
  pg_refs : list AppRootBalanceRow;
  pg_nextCursor : option string
}.
Record AppRootEventRow := mkEvent {
  er_revision : Z;
  er_spaceId : string;
  er_requestId : string;
  er_payloadHash : string;
  (* the members of the record, in the order of [Object.entries] *)
  er_changes : list (string * Z);
  er_appliedAt : Z
}.
Record AppRootEventsPage := mkEventsPage {
  ep_events : list AppRootEventRow;
  ep_latestRevision : Z;
  ep_nextAfter : Z
}.

(** [parseAuditLimit(value)]; [None] is [null]. *)
Definition parseAuditLimit (value : option Z) : option Z :=
  match value with
  | None => Some CAS_AUDIT_DEFAULT_LIMIT
  | Some n => if isSafeInteger n && (1 <=? n) && (n <=? CAS_AUDIT_MAX_LIMIT) then Some n else None
  end.

(** * Cursors *)

Record RefsCursor := mkRefsCursor {
  rc_revision : Z;
  rc_appId : string;
  rc_spaceFilter : option string;
  rc_lastSpace : string;
  rc_lastHash : string
}.

Definition json_of_cursor (c : RefsCursor) : Json :=
  JObj [("version", JInt 2); ("kind", JStr "refs"); ("revision", JInt (rc_revision c));
        ("appId", JStr (rc_appId c));
        ("spaceFilter", match rc_spaceFilter c with Some s => JStr s | None => JNull end);
        ("lastSpace", JStr (rc_lastSpace c)); ("lastHash", JStr (rc_lastHash c))].
Definition encodeRefsCursor (c : RefsCursor) : string :=
  of_chars (btoa (JSON_stringify (json_of_cursor c))).

Definition cursor_of_json (j : Json) : option RefsCursor :=
  match j with
  | JObj m =>
      match find_member "version" m, find_member "kind" m, find_member "revision" m, find_member "appId" m,
            find_member "spaceFilter" m, find_member "lastSpace" m, find_member "lastHash" m with
      | Some (JInt version), Some (JStr kind), Some (JInt revision), Some (JStr app),
        Some filter, Some (JStr lastSpace), Some (JStr lastHash) =>
          if negb (version =? 2) || negb (bool_decide (kind = "refs"))
             || negb (isSafeInteger revision) || (revision <? 0) then None
          else match filter with
               | JNull => Some (mkRefsCursor revision app None lastSpace lastHash)
               | JStr s => Some (mkRefsCursor revision app (Some s) lastSpace lastHash)
               | _ => None
               end
      | _, _, _, _, _, _, _ => None
      end
  | _ => None
  end.
Definition decodeRefsCursor (value : string) : option RefsCursor :=
  text ← atob (chars value); j ← JSON_parse text; cursor_of_json j.

(** * The queries *)

(** [(space_id, hash) > (?, ?)], and the order of the rows. *)
Definition after_row (lastSpace lastHash : string) (r : AppRootBalanceRow) : bool :=
  str_ltb lastSpace (br_spaceId r)
  || (bool_decide (lastSpace = br_spaceId r) && str_ltb lastHash (br_hash r)).
Definition row_le (a b : AppRootBalanceRow) : Prop :=
  after_row (br_spaceId b) (br_hash b) a = false.
#[global] Instance row_le_dec : RelDecision row_le.
Proof. intros a b. unfold row_le. apply _. Defined.

(** [AND space_id = ?], when a Space is named. *)
Definition in_space (filter_ : option string) (space : string) : bool :=
  match filter_ with Some s => bool_decide (space = s) | None => true end.

(** The rows of an App, of one Space when [filter] names it, in order. *)
Definition balance_rows (app : string) (filter_ : option string) (d : Db) : list AppRootBalanceRow :=
  merge_sort row_le ((λ e : NodeKey * Z, mkBalance (snd (fst (fst e))) (snd (fst e)) (snd e))
    <$> filter (λ e : NodeKey * Z, fst (fst (fst e)) = app
                                   ∧ in_space filter_ (snd (fst (fst e))) = true)
        (map_to_list (cas_app_root_refs d))).
Definition rows_after (app : string) (filter_ : option string) (lastSpace lastHash : string) (d : Db)
    : list AppRootBalanceRow :=
  filter (λ r, after_row lastSpace lastHash r = true) (balance_rows app filter_ d).

Definition event_le (a b : Z * EventRow) : Prop := fst a ≤ fst b.
#[global] Instance event_le_dec : RelDecision event_le.
Proof. intros a b. unfold event_le. apply _. Defined.

(** The events of an App with [after < revision <= latest], in order. *)
Definition event_rows (app : string) (space : option string) (after latest : Z) (d : Db)
    : list (Z * EventRow) :=
  merge_sort event_le ((λ e : (string * Z) * EventRow, (snd (fst e), snd e))
    <$> filter (λ e : (string * Z) * EventRow, fst (fst e) = app ∧ after < snd (fst e) ≤ latest
                                              ∧ in_space space (ev_space_id (snd e)) = true)
        (map_to_list (cas_app_root_events d))).

(** [parseChanges(text)]. *)
Definition change_of_member (m : string * Json) : result exn (string * Z) :=
  let '(hash, delta) := m in
  match delta with
  | JInt n => if is_hash hash && isSafeInteger n && negb (n =? 0) then Ok (hash, n)
              else Throw (Error "invalid stored Root Ref delta")
  | _ => Throw (Error "invalid stored Root Ref delta")
  end.
Definition parseChanges (text : string) : result exn (list (string * Z)) :=
  match JSON_parse (chars text) with
  | None => Throw (Error "SyntaxError")
  | Some (JObj members) => map_result change_of_member members
  | Some _ => Throw (Error "invalid stored Root Ref event")
  end.

Section reads.
Context {B : Type} `{!R2Bucket B}.
Notation Run := (Act B).

Definition readAppRevision (app : string) : Run Z :=
  d1_read (λ d, default 0 (cas_app_root_revisions d !! app)).

(** [limit] rows and whether there are more. *)
Definition page_of (app : string) (filter_ : option string) (revision limit : Z)
    (rows : list AppRootBalanceRow) : AppRootRefsPage :=
  let refs := take (Z.to_nat limit) rows in
  mkRefsPage revision refs
    (if limit <? Z.of_nat (length rows) then
       match last refs with
       | Some l => Some (encodeRefsCursor
                           (mkRefsCursor revision app filter_ (br_spaceId l) (br_hash l)))
       | None => None
       end
     else None).

(** The attempts of [listAppRootRefs]. *)
Fixpoint list_attempts (app : string) (filter_ : option string) (limit : Z)
    (cursor : option RefsCursor) (attempts : nat) : Run AppRootRefsPage :=
  match attempts with
  | O => throw snapshotChanged
  | S attempts =>
      revision ← readAppRevision app;
      _ ← lift (match cursor with
                | Some c => throw_if (negb (rc_revision c =? revision)) snapshotChanged
                | None => Ok tt
                end);
      rows ← d1_read (λ d, take (Z.to_nat (limit + 1)) (rows_after app filter_
               (match cursor with Some c => rc_lastSpace c | None => EmptyString end)
               (match cursor with Some c => rc_lastHash c | None => EmptyString end) d));
      again ← readAppRevision app;
      if negb (again =? revision) then
        match cursor with
        | Some _ => throw snapshotChanged
        | None => list_attempts app filter_ limit cursor attempts
        end
      else mret (page_of app filter_ revision limit rows)
  end.

Definition listAppRootRefs (app : string) (spaceId_ : option string) (limit : option Z)
    (cursor : option string) : Run AppRootRefsPage :=
  _ ← assertRootRefCutover;
  match parseAuditLimit limit with
  | None => throw (audit_error 400 AuditReadErrorCodes.INVALID_REQUEST "invalid list limit")
  | Some limit =>
      cursor ← lift (match cursor with
                     | None => Ok None
                     | Some text =>
                         match decodeRefsCursor text with
                         | None => Throw (audit_error 400 AuditReadErrorCodes.INVALID_CURSOR "malformed cursor")
                         | Some c => Ok (Some c)
                         end
                     end);
      _ ← lift (match cursor with
                | Some c => throw_if (negb (bool_decide (rc_appId c = app))
                                      || negb (bool_decide (rc_spaceFilter c = spaceId_)))
                              (audit_error 400 AuditReadErrorCodes.INVALID_CURSOR "cursor scope differs")
                | None => Ok tt
                end);
      list_attempts app spaceId_ limit cursor 4
  end.

Definition event_of_row (row : Z * EventRow) : result exn AppRootEventRow :=
  changes ← parseChanges (ev_changes_json (snd row));
  Ok (mkEvent (fst row) (ev_space_id (snd row)) (ev_request_id (snd row)) (ev_payload_hash (snd row))
        changes (ev_applied_at (snd row))).

Definition listAppRootEvents (app : string) (spaceId_ : option string) (after limit : option Z)
    : Run AppRootEventsPage :=
  _ ← assertRootRefCutover;
  let after := default 0 after in
  match parseAuditLimit limit with
  | None => throw (audit_error 400 AuditReadErrorCodes.INVALID_REQUEST "invalid event page")
  | Some limit =>
      _ ← lift (throw_if (negb (isSafeInteger after) || (after <? 0))
                  (audit_error 400 AuditReadErrorCodes.INVALID_REQUEST "invalid event page"));
      latestRevision ← readAppRevision app;
      rows ← d1_read (λ d, take (Z.to_nat (limit + 1)) (event_rows app spaceId_ after latestRevision d));
      events ← lift (map_result event_of_row (take (Z.to_nat limit) rows));
      mret (mkEventsPage events latestRevision
        (if limit <? Z.of_nat (length rows)
         then match last events with Some e => er_revision e | None => 0 end
         else Z.max after latestRevision))
  end.
End reads.
