(* ===== verification/AuditSafe.v ===== *)
(** Reading the Root Ref ledger is exact: a cursor decodes to itself, the pages of a
    walk are together the balances of one revision, whatever is committed
    meanwhile, and the changes an event stores parse back to its entries. *)
From Stdlib Require Import Ascii.
From stdpp Require Import sorting.
From S2P Require Import Prelude Js JsString JsonText MapSum Errors Safe Codec Validation Store.
From S2P Require Import SpaceCommits.
From S2P Require Import SpaceCommits DoNames World UsageInv RefInv RootInv WorldInv LeaseInv.
From S2P Require Import RootRefs RootSafe RootCanon AuditReads.

(** * Cursors *)

Lemma json_of_cursor_plain c : isSafeInteger (rc_revision c) = true → json_plain (json_of_cursor c).
Proof.
  intros Hs. constructor.
  - apply (bool_decide_eq_true_1 _). vm_compute. reflexivity.
  - repeat constructor.
  - repeat constructor; [done|]. by destruct (rc_spaceFilter c); constructor.
Qed.

Lemma cursor_of_json_of_cursor c :
  cursor_of_json (json_of_cursor c)
  = if negb (isSafeInteger (rc_revision c)) || (rc_revision c <? 0) then None else Some c.
Proof. destruct c as [rev app [fil|] space hash]; reflexivity. Qed.

Lemma cursor_round_trip c :
  0 ≤ rc_revision c ≤ MAX_SAFE_INTEGER → decodeRefsCursor (encodeRefsCursor c) = Some c.
Proof.
  intros Hr. unfold decodeRefsCursor, encodeRefsCursor, chars, of_chars.
  rewrite String.list_ascii_of_string_of_list_ascii, base64_round_trip. rewrite bind_Some.
  assert (isSafeInteger (rc_revision c) = true) as Hs.
  { apply isSafeInteger_spec. unfold MAX_SAFE_INTEGER in Hr. lia. }
  rewrite JSON_round_trip by by apply json_of_cursor_plain. rewrite bind_Some.
  rewrite cursor_of_json_of_cursor, Hs, (proj2 (Z.ltb_ge _ _)) by lia. done.
Qed.

(** * The order of the rows *)


Definition row_lt (a b : AppRootBalanceRow) : Prop := after_row (br_spaceId a) (br_hash a) b = true.

Lemma row_lt_spec a b :
  row_lt a b ↔ ¬ String.le (br_spaceId b) (br_spaceId a)
               ∨ br_spaceId a = br_spaceId b ∧ ¬ String.le (br_hash b) (br_hash a).
Proof.
  unfold row_lt, after_row. rewrite orb_true_iff, andb_true_iff, !str_ltb_spec, bool_decide_eq_true.
  done.
Qed.

Lemma row_le_spec a b : row_le a b ↔ ¬ row_lt b a.
Proof. unfold row_le, row_lt. by rewrite not_true_iff_false. Qed.

#[global] Instance row_lt_trans : Transitive row_lt.
Proof.
  intros a b c. rewrite !row_lt_spec.
  assert (∀ x y z, ¬ String.le y x → ¬ String.le z y → ¬ String.le z x) as Ht.
  { intros x y z H1 H2 H3. destruct (total String.le x y) as [H|H]; [|done].
    apply H2. by etrans. }
  intros [H1|[E1 H1]] [H2|[E2 H2]].
  - left. by eapply Ht.
  - left. by rewrite <- E2.
  - left. by rewrite E1.
  - right. split; [congruence|]. by eapply Ht.
Qed.
Lemma row_lt_irrefl a : ¬ row_lt a a.
Proof. rewrite row_lt_spec. intros [H|[_ H]]; by apply H. Qed.
Lemma row_lt_total a b :
  row_lt a b ∨ row_lt b a ∨ br_spaceId a = br_spaceId b ∧ br_hash a = br_hash b.
Proof.
  rewrite !row_lt_spec.
  destruct (decide (String.le (br_spaceId b) (br_spaceId a))) as [H1|]; [|naive_solver].
  destruct (decide (String.le (br_spaceId a) (br_spaceId b))) as [H2|]; [|naive_solver].
  assert (br_spaceId a = br_spaceId b) as E by by apply (anti_symm String.le).
  destruct (decide (String.le (br_hash b) (br_hash a))) as [H3|]; [|naive_solver].
  destruct (decide (String.le (br_hash a) (br_hash b))) as [H4|]; [|naive_solver].
  right; right. split; [done|]. by apply (anti_symm String.le).
Qed.

#[global] Instance row_le_total : Total row_le.
Proof.
  intros a b. rewrite !row_le_spec. destruct (decide (after_row (br_spaceId a) (br_hash a) b = true)) as [H|H].
  - left. intros H'. apply (row_lt_irrefl a). by etrans.
  - by right.
Qed.
#[global] Instance row_le_trans : Transitive row_le.
Proof.
  intros a b c. rewrite !row_le_spec. intros H1 H2 H3.
  destruct (row_lt_total a b) as [H|[H|[E1 E2]]].
  - apply H2. by etrans.
  - done.
  - apply H2. rewrite row_lt_spec in *. by rewrite <- E1, <- E2.
Qed.

(** ** Keyset pages of a strictly sorted list *)

Lemma take_drop_filter (L : list AppRootBalanceRow) n l :
  StronglySorted row_lt L → last (take n L) = Some l →
  filter (λ r, after_row (br_spaceId l) (br_hash l) r = true) L = drop n L.
Proof.
  intros Hs. revert n. induction Hs as [|x L Hs IH Hx]; intros n Hl; [by rewrite take_nil in Hl|].
  destruct n as [|n]; [done|]. simpl take in Hl. simpl drop.
  assert (¬ row_lt l x) as Hle.
  { intros Hlt. apply last_Some_elem_of in Hl. apply elem_of_cons in Hl as [->|Hin].
    - by eapply row_lt_irrefl.
    - rewrite Forall_forall in Hx. apply (row_lt_irrefl x).
      transitivity l; [|done]. apply Hx. apply (subseteq_take n L _ Hin). }
  rewrite filter_cons_False by exact Hle. destruct (take n L) as [|y L'] eqn:Ht.
  - injection Hl as ->. destruct n as [|n]; [|by destruct L].
    simpl. clear -Hx. induction Hx as [|y L Hy HL IH]; [done|].
    rewrite filter_cons_True by exact Hy. by rewrite IH.
  - apply IH. by rewrite Ht.
Qed.

Lemma filter_sorted (P : AppRootBalanceRow → Prop) `{∀ x, Decision (P x)} L :
  StronglySorted row_lt L → StronglySorted row_lt (filter P L).
Proof.
  induction 1 as [|x L Hs IH Hx]; [constructor|].
  destruct (decide (P x)); [rewrite filter_cons_True by done|by rewrite filter_cons_False].
  constructor; [done|]. apply Forall_forall. intros y [_ Hy]%list_elem_of_filter.
  rewrite Forall_forall in Hx. by apply Hx.
Qed.

(** ** The rows of a database *)

Definition row_of (e : NodeKey * Z) : AppRootBalanceRow :=
  mkBalance (snd (fst (fst e))) (snd (fst e)) (snd e).

Lemma balance_rows_elem app f d r :
  r ∈ balance_rows app f d
  ↔ cas_app_root_refs d !! ((app, br_spaceId r), br_hash r) = Some (br_count r)
    ∧ in_space f (br_spaceId r) = true.
Proof.
  unfold balance_rows. rewrite merge_sort_Permutation, list_elem_of_fmap. split.
  - intros ([[[a s] h] n] & -> & [[Ha Hs] He]%list_elem_of_filter). simpl in *. subst a.
    apply elem_of_map_to_list in He. done.
  - intros [Hr Hs]. destruct r as [s h n]. exists (((app, s), h), n). split; [done|].
    apply list_elem_of_filter. split; [done|]. by apply elem_of_map_to_list.
Qed.

Lemma balance_rows_keys app f d r r' :
  r ∈ balance_rows app f d → r' ∈ balance_rows app f d →
  br_spaceId r = br_spaceId r' → br_hash r = br_hash r' → r = r'.
Proof.
  rewrite !balance_rows_elem. intros [H1 _] [H2 _] Es Eh. rewrite Es, Eh, H2 in H1.
  destruct r, r'. simpl in *. congruence.
Qed.

Lemma balance_rows_NoDup app f d : NoDup (balance_rows app f d).
Proof.
  unfold balance_rows. rewrite merge_sort_Permutation. apply NoDup_fmap_2_strong.
  - intros [[[a s] h] n] [[[a' s'] h'] n'] H1 H2 [= -> -> ->].
    apply list_elem_of_filter in H1 as [[Ha _] _], H2 as [[Ha' _] _]. simpl in *. by subst.
  - apply NoDup_filter, NoDup_map_to_list.
Qed.

Lemma balance_rows_sorted app f d : StronglySorted row_lt (balance_rows app f d).
Proof.
  pose proof (balance_rows_keys app f d) as Hk. pose proof (balance_rows_NoDup app f d) as Hnd.
  assert (Sorted row_le (balance_rows app f d)) as Hs by (apply Sorted_merge_sort; apply _).
  apply Sorted_StronglySorted in Hs; [|apply _]. revert Hk Hnd.
  induction Hs as [|r L Hs IH Hr]; intros Hk Hnd; [constructor|].
  apply NoDup_cons in Hnd as [Hr' Hnd]. constructor.
  - apply IH; [|done]. intros r1 r2 H1 H2. apply Hk; by right.
  - apply Forall_forall. intros r' Hin. rewrite Forall_forall in Hr. specialize (Hr r' Hin).
    destruct (row_lt_total r r') as [H|[H|[E1 E2]]]; [done|by apply row_le_spec in Hr|].
    destruct Hr'. rewrite (Hk r r'); [done|by left|by right|done..].
Qed.

(** Databases with the same balances have the same rows. *)
Lemma balance_rows_same app f d d' :
  (∀ k, fst (fst k) = app → cas_app_root_refs d' !! k = cas_app_root_refs d !! k) →
  balance_rows app f d' = balance_rows app f d.
Proof.
  intros Hsame. apply (Sorted_unique_strong row_le).
  - intros r1 r2 H1 H2 Hle Hge. apply (balance_rows_keys app f d).
    + apply balance_rows_elem. rewrite <- Hsame by done. by apply balance_rows_elem.
    + done.
    + rewrite row_le_spec in Hle, Hge. by destruct (row_lt_total r1 r2) as [?|[?|[? _]]].
    + rewrite row_le_spec in Hle, Hge. by destruct (row_lt_total r1 r2) as [?|[?|[_ ?]]].
  - apply Sorted_merge_sort. apply _.
  - apply Sorted_merge_sort. apply _.
  - apply NoDup_Permutation; [apply balance_rows_NoDup..|]. intros r.
    rewrite !balance_rows_elem. by rewrite Hsame.
Qed.

Lemma app_rows_refs_ok app f d r :
  ref_inv d → r ∈ balance_rows app f d → br_hash r ≠ EmptyString.
Proof.
  intros Hi [Hr _]%balance_rows_elem. apply (ri_balance _ Hi) in Hr as (_ & row & Hrow).
  apply (ri_keys _ Hi) in Hrow. destruct Hrow as [_ Hh]. simpl in Hh. by intros E; rewrite E in Hh.
Qed.

(** Without a cursor every row follows. *)
Lemma rows_after_start app f d :
  ref_inv d → rows_after app f EmptyString EmptyString d = balance_rows app f d.
Proof.
  intros Hi. unfold rows_after.
  assert (Forall (λ r, br_hash r ≠ EmptyString) (balance_rows app f d)) as Hh.
  { apply Forall_forall. intros r. by apply app_rows_refs_ok. }
  induction Hh as [|r L Hr _ IH]; [done|]. rewrite filter_cons_True; [by f_equal|].
  unfold after_row. destruct r as [[|c s] [|c' h] n]; try done.
Qed.

(** After the last row of a page comes the rest. *)
Lemma rows_after_last app f s h d n l :
  last (take n (rows_after app f s h d)) = Some l →
  rows_after app f (br_spaceId l) (br_hash l) d = drop n (rows_after app f s h d).
Proof.
  intros Hl. assert (after_row s h l = true) as Hal.
  { apply last_Some_elem_of in Hl. apply subseteq_take in Hl.
    by apply list_elem_of_filter in Hl as [? _]. }
  rewrite <- (take_drop_filter _ n l); [|apply filter_sorted, balance_rows_sorted|done].
  unfold rows_after. rewrite list_filter_filter_l; [done|]. intros r Hr.
  change (row_lt (mkBalance s h 0) r). transitivity l; done.
Qed.

(** * Pages *)

Definition app_revision (app : string) (d : Db) : Z := default 0 (cas_app_root_revisions d !! app).

Definition cursor_space (c : option RefsCursor) : string :=
  match c with Some c => rc_lastSpace c | None => EmptyString end.
Definition cursor_hash (c : option RefsCursor) : string :=
  match c with Some c => rc_lastHash c | None => EmptyString end.

(** The rows of a database that follow a cursor. *)
Definition remaining (app : string) (f : option string) (c : option RefsCursor) (d : Db)
    : list AppRootBalanceRow := rows_after app f (cursor_space c) (cursor_hash c) d.

(** A page is what a database at its revision has after the cursor. *)
Record page_at (app : string) (f : option string) (limit : Z) (c : option RefsCursor)
    (page : AppRootRefsPage) (d : Db) : Prop := {
  pa_revision : app_revision app d = pg_revision page;
  pa_cursor : ∀ c', c = Some c' → rc_revision c' = pg_revision page;
  pa_page : page = page_of app f (pg_revision page) limit
              (take (Z.to_nat (limit + 1)) (remaining app f c d))
}.

Section pages.
Context {B : Type} `{!R2Bucket B} `{Sha256} `{!R2Laws B}.
Notation World := (World B).
Implicit Types (app : string) (f : option string).

(** What holds of some database between [d0] and now. *)
Definition sometime (d0 : Db) (P : Db → Prop) (w : World) : Prop :=
  ∃ d, db_inv d ∧ log_grows d0 d ∧ log_grows d (w_db w) ∧ P d.

Lemma sometime_stable d0 P : stable root_I (sometime d0 P).
Proof.
  intros w w' [_ Hg] (d & Hi & H0 & H1 & HP). exists d. split_and!; [done..| |done].
  by eapply log_grows_trans.
Qed.
Lemma since_stable d0 : stable root_I (λ w : World, log_grows d0 (w_db w)).
Proof. intros w w' [_ Hg] H0. by eapply log_grows_trans. Qed.
Hint Resolve sometime_stable since_stable : safe.

Lemma list_attempts_safe d0 app f limit cursor attempts :
  safe root_I (λ w, log_grows d0 (w_db w)) (list_attempts app f limit cursor attempts)
    (λ page, sometime d0 (page_at app f limit cursor page)).
Proof.
  induction attempts as [|n IH]; [apply safe_throw|]. cbn [list_attempts].
  unfold readAppRevision.
  eapply (safe_bind _ _ _ _ (λ rev, sometime d0 (λ d, rev = app_revision app d))); [auto with safe| |].
  { apply d1_read_safe; [apply _|auto with safe|]. intros w [Hi _ _] H0.
    exists (w_db w). split_and!; [done..|apply log_grows_refl|done]. }
  intros revision. apply safe_lift_bind. intros [] Hc.
  eapply (safe_bind _ _ _ _ (λ rows, sometime d0 (λ d, revision ≤ app_revision app d
    ∧ rows = take (Z.to_nat (limit + 1)) (remaining app f cursor d)))); [auto with safe| |].
  { apply d1_read_safe; [apply _|auto with safe|].
    intros w [Hi _ _] [H0 (d & _ & _ & Hg & ->)].
    exists (w_db w). split_and!; [done..|apply log_grows_refl|apply (gr_revision _ _ Hg)|done]. }
  intros rows.
  eapply (safe_bind _ _ _ _ (λ again, sometime d0 (λ d, revision ≤ app_revision app d ≤ again
    ∧ rows = take (Z.to_nat (limit + 1)) (remaining app f cursor d)))); [auto 10 with safe| |].
  { apply d1_read_safe; [apply _|auto 10 with safe|].
    intros w _ [_ (d & Hi & H0 & Hg & Hr & ->)].
    exists d. split_and!; [done..|apply (gr_revision _ _ Hg)|done]. }
  intros again. destruct (again =? revision) eqn:He; cbn [negb].
  - apply Z.eqb_eq in He as ->. apply safe_ret. intros w [_ (d & Hi & H0 & Hg & Hr & ->)].
    exists d. split_and!; [done..|]. split; simpl; [lia| |done].
    intros c' ->. apply throw_if_ok, negb_false_iff, Z.eqb_eq in Hc. done.
  - destruct cursor; [apply safe_throw|]. eapply safe_pre; [|exact IH]. by intros w [[[H0 _] _] _].
Qed.

(** The cursor a text gives, accepted for an App and a filter. *)
Definition accepted_cursor app f (text : option string) (c : option RefsCursor) : Prop :=
  match text with
  | None => c = None
  | Some text => ∃ c', decodeRefsCursor text = Some c' ∧ c = Some c'
                       ∧ rc_appId c' = app ∧ rc_spaceFilter c' = f
  end.

Lemma listAppRootRefs_safe d0 app f limit text :
  safe root_I (λ w, log_grows d0 (w_db w)) (listAppRootRefs app f limit text)
    (λ page w, ∃ n c, parseAuditLimit limit = Some n ∧ accepted_cursor app f text c
                      ∧ sometime d0 (page_at app f n c page) w).
Proof.
  unfold listAppRootRefs. apply safe_seq; [auto with safe|apply cutover_safe; auto with safe|].
  intros _. destruct (parseAuditLimit limit) as [n|]; [|apply safe_throw].
  apply safe_lift_bind. intros c Hc. apply safe_lift_bind. intros u Hu.
  eapply safe_post; [|apply list_attempts_safe]. intros page w Hp. exists n, c.
  split_and!; [done| |done]. destruct text as [text|]; simpl; [|by simplify_eq].
  destruct (decodeRefsCursor text) as [c'|]; simplify_eq/=.
  apply throw_if_ok, orb_false_iff in Hu as [H1 H2].
  apply negb_false_iff, bool_decide_eq_true in H1. apply negb_false_iff, bool_decide_eq_true in H2.
  by exists c'.
Qed.

(** Reading page after page, with anything in between. *)
Inductive walk app f limit : option string → World → list AppRootRefsPage → World → Prop :=
| walk_last text w page w' :
    listAppRootRefs app f limit text w = (Ok page, w') → pg_nextCursor page = None →
    walk app f limit text w [page] w'
| walk_next text w page w1 next w2 pages w' :
    listAppRootRefs app f limit text w = (Ok page, w1) → pg_nextCursor page = Some next →
    world_inv w2 → log_grows (w_db w1) (w_db w2) →
    walk app f limit (Some next) w2 pages w' →
    walk app f limit text w (page :: pages) w'.

Lemma page_rows app f limit c page d :
  1 ≤ limit → page_at app f limit c page d →
  match pg_nextCursor page with
  | None => pg_refs page = remaining app f c d
  | Some text =>
      ∃ l, last (pg_refs page) = Some l
           ∧ pg_refs page = take (Z.to_nat limit) (remaining app f c d)
           ∧ text = encodeRefsCursor
                      (mkRefsCursor (pg_revision page) app f (br_spaceId l) (br_hash l))
  end.
Proof.
  intros Hlim [_ _ Hp]. rewrite Hp. unfold page_of. cbn [pg_nextCursor pg_refs pg_revision].
  rewrite take_take. replace (Z.to_nat limit `min` Z.to_nat (limit + 1))%nat with (Z.to_nat limit) by lia.
  rewrite length_take. destruct (limit <? _) eqn:Hl.
  - apply Z.ltb_lt in Hl. destruct (last (take (Z.to_nat limit) _)) as [l|] eqn:Hlast.
    + by exists l.
    + apply last_None, (f_equal length) in Hlast. rewrite length_take in Hlast. simpl in Hlast. lia.
  - apply Z.ltb_ge in Hl. rewrite take_ge by lia. done.
Qed.

Lemma page_frozen app f limit c c' page d d' :
  page_at app f limit c page d → app_revision app d' = pg_revision page →
  log_grows d d' → remaining app f c' d' = remaining app f c' d.
Proof.
  intros [Hr _ _] Hr' Hg. unfold remaining, rows_after.
  rewrite (balance_rows_same app f d d'); [done|]. apply (gr_frozen _ _ Hg).
  unfold app_revision in *. lia.
Qed.

Lemma parseAuditLimit_spec limit n :
  parseAuditLimit limit = Some n → 1 ≤ n ≤ CAS_AUDIT_MAX_LIMIT.
Proof.
  unfold parseAuditLimit. destruct limit as [m|]; [|by intros [= <-]].
  destruct (_ && _) eqn:Hm; [|done]. rewrite !andb_true_iff, !Z.leb_le in Hm. intros [= <-]. lia.
Qed.

Lemma app_revision_pos app d : db_inv d → 0 ≤ app_revision app d.
Proof.
  intros [_ _ [_ _ [_ _ _ _ Hr]] _]. unfold app_revision.
  destruct (cas_app_root_revisions d !! app) eqn:Ha; [by eapply Hr|done].
Qed.

Lemma walk_rows app f limit text w pages w' :
  walk app f limit text w pages w' → world_inv w →
  app_revision app (w_db w') ≤ MAX_SAFE_INTEGER →
  log_grows (w_db w) (w_db w') ∧ ∃ c d,
    accepted_cursor app f text c ∧ (∀ c', c = Some c' → rc_revision c' = app_revision app d)
    ∧ sometime (w_db w) (λ d', d' = d) w'
    ∧ Forall (λ p, pg_revision p = app_revision app d) pages
    ∧ concat (pg_refs <$> pages) = remaining app f c d.
Proof.
  induction 1 as [text w page w' Hl Hn|text w page w1 next w2 pages w' Hl Hn Hw2 Hg Hwalk IH];
    intros Hw Hsafe;
    pose proof (listAppRootRefs_safe (w_db w) app f limit text w Hw (log_grows_refl _)) as Hs;
    rewrite Hl in Hs; destruct Hs as (Hw1 & [_ Hg0] & n & c & Hpl & Hc & d & Hi & Hd0 & Hd1 & Hp);
    pose proof (parseAuditLimit_spec _ _ Hpl) as Hn1;
    pose proof (page_rows app f n c page d ltac:(lia) Hp) as Hrows; rewrite Hn in Hrows;
    pose proof (pa_revision _ _ _ _ _ _ Hp) as Hr.
  - split; [done|]. exists c, d. split_and!; [done| |by exists d| |].
    + intros c' ->. rewrite Hr. by apply Hp.
    + constructor; [|done]. by rewrite Hr.
    + simpl. by rewrite Hrows, app_nil_r.
  - destruct Hrows as (l & Hlast & Hrefs & ->).
    destruct (IH Hw2 Hsafe) as (Hg2 & c2 & d2 & (c' & Hc' & -> & _) & Hrev & Hsome & Hall & Hcat).
    destruct Hsome as (? & Hi2 & Hd20 & Hd21 & ->).
    assert (log_grows d d2) as Hdd.
    { eapply log_grows_trans; [done|]. by eapply log_grows_trans. }
    assert (log_grows d (w_db w')) as Hdw by by eapply log_grows_trans.
    assert (0 ≤ pg_revision page ≤ MAX_SAFE_INTEGER) as Hpr.
    { rewrite <- Hr. pose proof (gr_revision _ _ Hdw app). pose proof (app_revision_pos app d Hi).
      unfold app_revision in *. lia. }
    rewrite cursor_round_trip in Hc' by done. injection Hc' as <-.
    specialize (Hrev _ eq_refl). cbn [rc_revision] in Hrev.
    split; [by eapply log_grows_trans, log_grows_trans|]. exists c, d. split_and!; [done| | | |].
    + intros c' ->. rewrite Hr. by apply Hp.
    + by exists d.
    + constructor; [done|]. by rewrite Hr, Hrev.
    + rewrite fmap_cons. cbn [concat]. rewrite Hcat, (page_frozen app f n c _ page d d2) by done.
      unfold remaining in *. cbn [cursor_space cursor_hash rc_lastSpace rc_lastHash].
      rewrite Hrefs in Hlast |- *. rewrite (rows_after_last _ _ _ _ _ _ _ Hlast).
      apply take_drop.
Qed.

(** C36: reading the Root Refs of an App page by page, each page with the cursor of
    the one before, yields every balance of one revision of the App exactly
    once and in order, whatever commits, failures and reads of others happen in
    between: a page of another revision is never accepted. *)
Theorem root_ref_pages_complete app f limit w pages w' :
  walk app f limit None w pages w' → world_inv w →
  app_revision app (w_db w') ≤ MAX_SAFE_INTEGER →
  ∃ d, log_grows (w_db w) d ∧ log_grows d (w_db w')
    ∧ Forall (λ p, pg_revision p = app_revision app d) pages
    ∧ (∀ space hash n, mkBalance space hash n ∈ concat (pg_refs <$> pages)
         ↔ cas_app_root_refs d !! ((app, space), hash) = Some n ∧ in_space f space = true)
    ∧ StronglySorted row_lt (concat (pg_refs <$> pages)).
Proof.
  intros Hwalk Hw Hsafe.
  destruct (walk_rows _ _ _ _ _ _ _ Hwalk Hw Hsafe) as (_ & c & d & Hc & _ & Hs & Hall & ->).
  destruct Hs as (? & Hi & H0 & H1 & ->). simpl in Hc. subst c. exists d. split_and!; [done..| |].
  - intros space hash n. unfold remaining. cbn [cursor_space cursor_hash].
    rewrite rows_after_start by apply Hi. by rewrite balance_rows_elem.
  - apply filter_sorted, balance_rows_sorted.
Qed.
End pages.

(** * The changes of an event *)

Lemma hash_not_index h : is_hash h = true → index_key h = None.
Proof.
  intros Hh. unfold index_key. destruct (negb _ && _ && _ && _) eqn:Hi; [exfalso|done].
  rewrite !andb_true_iff, Z.ltb_lt in Hi. destruct Hi as [[[_ Hd] Hz] Hv].
  unfold is_hash, strlen, HASH_HEX_LENGTH in Hh. apply andb_true_iff in Hh as [Hl%Z.eqb_eq _].
  assert (length (chars h) = 64%nat) as Hl'.
  { rewrite length_chars. lia. }
  clear Hl. rename Hl' into Hl.
  destruct (chars h) as [|c l]; [done|]. simpl hd in Hz. apply orb_true_iff in Hz as [Hz|Hz].
  { apply bool_decide_eq_true in Hz. injection Hz as -> ->. done. }
  apply negb_true_iff, bool_decide_eq_false in Hz.
  cbn [forallb] in Hd. apply andb_true_iff in Hd as [Hc Hd].
  change (c :: l) with ([c] ++ l) in Hv. rewrite digits_val_app in Hv.
  pose proof (digits_val_nonneg l Hd) as H0. simpl in Hl.
  replace (length l) with 63%nat in Hv by lia. change (Z.of_nat 63) with 63 in Hv.
  assert (1 ≤ digits_val [c]) as H1; [|change (2 ^ 32 - 1) with 4294967295 in Hv;
    change (10 ^ 63) with (10 ^ 10 * 10 ^ 53) in Hv; lia].
  clear -Hc Hz. unfold digits_val. simpl. pose proof (digit_val_range c Hc) as Hr.
  destruct (decide (digit_val c = 0)) as [He|]; [|lia]. destruct Hz.
  revert He Hc. destruct c as [[] [] [] [] [] [] [] []]; done.
Qed.

Lemma hash_char_plain c : is_lower_hex c = true → escape_char c = [c].
Proof. by destruct c as [[] [] [] [] [] [] [] []]. Qed.

Lemma quoted_hash h : is_hash h = true → chars (quoted h) = json_quote h.
Proof.
  intros Hh. unfold is_hash in Hh. apply andb_true_iff in Hh as [_ Hh].
  unfold quoted, json_quote. change (String ?c ?s +:+ ?t) with (String c (s +:+ t)).
  unfold all_chars in Hh. change (chars (String ?c ?s)) with (c :: chars s).
  f_equal. rewrite chars_app. f_equal. induction (chars h) as [|c l IH]; [done|].
  cbn [forallb] in Hh. apply andb_true_iff in Hh as [Hc Hl].
  rewrite fmap_cons. cbn [concat]. by rewrite hash_char_plain, <- IH.
Qed.

Lemma json_members_text entries :
  Forall (λ e, is_hash (fst e) = true) entries →
  chars (json_members entries) = comma_join (List.map member_text (members_of entries)).
Proof.
  induction 1 as [|[h n] l Hh _ IH]; [done|]. destruct l as [|e l].
  - cbn [json_members]. rewrite !chars_app. cbn [fst] in Hh. rewrite quoted_hash by done. done.
  - change (json_members ((h, n) :: e :: l))
      with (quoted h +:+ ":" +:+ show n +:+ "," +:+ json_members (e :: l)).
    change (List.map member_text (members_of ((h, n) :: e :: l)))
      with (member_text (h, JInt n) :: List.map member_text (members_of (e :: l))).
    rewrite comma_join_cons by done. rewrite !chars_app, IH. cbn [fst] in Hh.
    rewrite quoted_hash by done. unfold member_text. cbn [fst snd JSON_stringify].
    by rewrite <- app_assoc.
Qed.

Lemma changes_json_text entries :
  Forall (λ e, is_hash (fst e) = true) entries →
  chars (changes_json entries) = JSON_stringify (JObj (members_of entries)).
Proof.
  intros He. unfold changes_json. rewrite !chars_app, json_members_text by done. done.
Qed.

Lemma members_of_plain entries :
  NoDup (fst <$> entries) → Forall entry_fine entries → json_plain (JObj (members_of entries)).
Proof.
  intros Hnd Hf. constructor.
  - by rewrite members_of_keys.
  - apply Forall_fmap. eapply Forall_impl; [done|]. intros e (? & _). by apply hash_not_index.
  - apply Forall_fmap. eapply Forall_impl; [done|]. intros e (_ & _ & Hb). constructor.
    apply isSafeInteger_spec. unfold CAS_MAX_ROOT_REF_DELTA in Hb. lia.
Qed.

Lemma parse_entries entries :
  NoDup (fst <$> entries) → Forall entry_fine entries →
  parseChanges (changes_json entries) = Ok entries.
Proof.
  intros Hnd Hf. unfold parseChanges.
  rewrite changes_json_text by by (eapply Forall_impl; [done|]; intros e [? _]).
  rewrite JSON_round_trip by by apply members_of_plain.
  apply map_result_Ok. induction Hf as [|[h n] l (Hh & Hn & Hb) _ IH]; [constructor|].
  apply NoDup_cons in Hnd as [_ Hnd]. constructor; [|by apply IH]. cbn [fst snd] in *.
  unfold change_of_member, CAS_MAX_ROOT_REF_DELTA in *. rewrite Hh.
  assert (isSafeInteger n = true) as -> by (apply isSafeInteger_spec; lia).
  by rewrite (proj2 (Z.eqb_neq n 0)).
Qed.

