(* ===== verification/DomainDo.v ===== *)
(** The App Root Ref Durable Object of
    [packages/service-cloudflare/src/domain-do.ts], and the forwarding of Root Ref
    commands to it by a Space ([#forwardRootRefs] of [space-do.ts]). Tracing is
    left out. *)
From Stdlib Require Import Ascii.
From stdpp Require Import sorting.
From S2P Require Import Prelude Js JsonText MapSum Errors Safe Codec Validation Store.
From S2P Require Import SpaceCommits.
From S2P Require Import SpaceCommits DoNames World UsageInv RefInv RootInv WorldInv LeaseInv.
From S2P Require Import RootRefs RootSafe RootCanon AuditReads AuditSafe.

(** A JSON response. *)
Record Response := mkResponse { rs_status : Z; rs_body : Json }.

(** [errorResponse(status, code, message)]. *)
Definition errorResponse (status : Z) (code message : string) : Response :=
  mkResponse status (JObj [("error", JStr code); ("message", JStr message)]).

(** [requireHeader(request, name)]. *)
Definition requireHeader (value : option string) (name : string) : result exn string :=
  match value with
  | Some v => _ ← throw_if (strlen v =? 0) (invalid_request ("missing " +:+ name)); Ok v
  | None => Throw (invalid_request ("missing " +:+ name))
  end.

(** [parseMaxAttempts(value)]. *)
Definition parseMaxAttempts (value : option string) : option Z :=
  match Number_of_text <$> value with
  | Some (JInt n) => if isSafeInteger n && (1 <=? n) then Some n else None
  | _ => None
  end.

(** [body.name], of a value that should be an object. *)
Definition get_member (body : Json) (name : string) : result exn (option Json) :=
  match body with
  | JNull => Throw (TypeError ("Cannot read properties of null (reading '" +:+ name +:+ "')"))
  | JObj members => Ok (find_member name members)
  | _ => Ok None
  end.

Definition success_response (r : RootRefsUpdateResult) : Response :=
  mkResponse 200 (JObj [("success", JBool true); ("idempotent", JBool (ur_idempotent r));
                        ("revision", JInt (ur_revision r))]).

Section domain.
Context {B : Type} `{!R2Bucket B} `{Sha256}.
Notation Run := (Act B).
(** [Math.random()], scaled, and the configured bound. *)
Variables (random : Run Z) (maxAttempts : option string).

Definition domain_options : RootRefsRetryOptions :=
  mkRetryOptions (parseMaxAttempts maxAttempts) None None None.

Definition domain_command (scope : AppSpaceScope) (body : Json) : Run Response :=
  try_catch
    (requestId ← lift (get_member body "requestId");
     changes ← lift (get_member body "changes");
     canonical ← lift (canonicalizeRootRefsUpdate requestId changes);
     result ← withRootRefsRetry (executeRootRefsUpdate scope canonical) domain_options random sleep;
     mret (success_response result))
    (λ error,
      match error with
      | ERootRefsValidation e =>
          mret (errorResponse (rve_status e) (rve_code e) (rve_message e))
      | _ => mret (errorResponse 503 RootRefsErrorCodes.BUSY "root refs update failed")
      end).

(** [fetch(request)]: the two headers and the text of the body. *)
Definition domain_fetch (appHeader spaceHeader : option string) (text : list ascii)
    : Run Response :=
  match (app ← requireHeader appHeader "X-CAS-App-Id";
         space ← requireHeader spaceHeader "X-CAS-Space-Id";
         Ok (app, space)) with
  | Throw (ERootRefsValidation e) =>
      mret (errorResponse (rve_status e) (rve_code e) (rve_message e))
  | Throw _ =>
      mret (errorResponse 400 RootRefsErrorCodes.INVALID_REQUEST
              "Root Ref command headers are invalid")
  | Ok scope =>
      match JSON_parse text with
      | None => mret (errorResponse 400 RootRefsErrorCodes.INVALID_REQUEST
                        "Root Ref command body is not valid JSON")
      | Some body => domain_command scope body
      end
  end.

(** What [#forwardRootRefs] sends. *)
Definition forwarded_body (canonical : CanonicalRootRefsUpdate) : Json :=
  JObj [("requestId", JStr (cu_requestId canonical));
        ("changes", JObj (members_of (cu_entries canonical)))].

(** [#forwardRootRefs], from the parsed body: canonicalize and forward one
    command; the call to the other object can fail like any other. *)
Definition forwardRootRefs (scope : AppSpaceScope) (requestId changes : option Json)
    : Run Response :=
  match canonicalizeRootRefsUpdate requestId changes with
  | Throw (ERootRefsValidation e) =>
      mret (errorResponse (rve_status e) (rve_code e) (rve_message e))
  | Throw _ =>
      mret (errorResponse 400 RootRefsErrorCodes.INVALID_REQUEST "root refs update is invalid")
  | Ok canonical =>
      external (domain_fetch (Some (appId scope)) (Some (spaceId scope))
        (JSON_stringify (forwarded_body canonical)))
  end.
End domain.

Section theorems.
Context {B : Type} `{!R2Bucket B} `{Sha256} `{!R2Laws B}.
Notation World := (World B).
Variables (random : Act B Z) (maxAttempts : option string).
Hypothesis random_pure : ∀ w, snd (random w) = w.

Lemma random_safe (P : World → Prop) : safe root_I P random (λ _ _, True).
Proof.
  intros w Hw _. specialize (random_pure w). destruct (random w) as [[n|e] w']; simpl in *;
    subst w'; split_and!; try done; try apply (keeps_refl frozen_I); apply log_grows_refl.
Qed.

Lemma sleep_safe ms : safe root_I (λ _, True) (sleep (B:=B) ms) (λ _ _, True).
Proof.
  intros w [Hd Hb Hc] _. cbn. split_and!;
    [|split_and!; [by apply rows_kept_refl; [apply _|]|done|simpl; lia]|apply log_grows_refl|done].
  split; [done|done|]. intros k r Hk Hp. apply (Hc k r Hk). unfold protected in *. simpl in *. lia.
Qed.

(** The event that counts an update, the only one of its request. *)
Definition counted_once (scope : AppSpaceScope) (c : CanonicalRootRefsUpdate) (rev : Z)
    (w : World) : Prop :=
  (∃ e, cas_app_root_events (w_db w) !! (appId scope, rev) = Some e
        ∧ ev_space_id e = spaceId scope ∧ ev_request_id e = cu_requestId c
        ∧ ev_payload_hash e = cu_payloadHash c)
  ∧ ∀ rev' e', cas_app_root_events (w_db w) !! (appId scope, rev') = Some e' →
      ev_space_id e' = spaceId scope → ev_request_id e' = cu_requestId c → rev' = rev.

Lemma counted_counted_once scope c r (w : World) :
  world_inv w → counted scope c r w → counted_once scope c (ur_revision r) w.
Proof.
  intros [[_ _ [_ _ [_ L2 L3 _ _]]] _ _] [t Hr]. destruct scope as [app space]. split.
  - destruct (L2 _ _ _ Hr) as (e & He & ? & ? & ?). by exists e.
  - intros rev' e' He Hs Hi. destruct (L3 _ _ _ He) as (rq & Hrq & <-).
    simpl in *. rewrite Hs, Hi, Hr in Hrq. by injection Hrq as <-.
Qed.

Definition answered (scope : AppSpaceScope) (requestId changes : option Json)
    (response : Response) (w : World) : Prop :=
  ∀ r, response = success_response r →
  ∃ c, canonicalizeRootRefsUpdate requestId changes = Ok c ∧ counted scope c r w.

Lemma error_answered scope requestId changes status code message (P : World → Prop) :
  safe root_I P (mret (errorResponse status code message)) (answered scope requestId changes).
Proof. apply safe_ret. intros w _ r Hr. done. Qed.

(** Keys of a JSON object are distinct. *)
Definition distinct_keys (changes : option Json) : Prop :=
  ∀ members, changes = Some (JObj members) → NoDup (fst <$> members).

Lemma canonicalize_ok requestId changes c :
  distinct_keys changes → canonicalizeRootRefsUpdate requestId changes = Ok c → canonical_ok c.
Proof.
  intros Hd Hc. destruct requestId as [[]|]; try done. destruct changes as [[]|]; try done;
    try (unfold canonicalizeRootRefsUpdate in Hc; by do 2 peel_guard Hc).
  specialize (Hd _ eq_refl). apply canonicalize_accepts in Hc; [|done]. by eapply accepts_ok.
Qed.

Lemma domain_command_safe scope members :
  app_scope scope → distinct_keys (find_member "changes" members) →
  safe root_I (λ _, True) (domain_command random maxAttempts scope (JObj members))
    (answered scope (find_member "requestId" members) (find_member "changes" members)).
Proof.
  intros Hs Hd. unfold domain_command. apply safe_catch; [apply root_true_stable| |].
  - apply safe_lift_bind. intros ? [= <-]. apply safe_lift_bind. intros ? [= <-].
    apply safe_lift_bind. intros c Hc.
    eapply safe_bind; [apply root_true_stable|apply retry_safe|].
    + apply apply_safe; [done|]. by eapply canonicalize_ok.
    + apply random_safe.
    + apply sleep_safe.
    + intros r. apply safe_ret. intros w [_ Hw] r' Heq. injection Heq as H1 H2.
      exists c. split; [done|]. destruct r, r'. simpl in *. by subst.
  - intros e. destruct e; apply error_answered.
Qed.

Lemma forwarded_plain c :
  NoDup (fst <$> cu_entries c) → Forall entry_fine (cu_entries c) → json_plain (forwarded_body c).
Proof.
  intros Hn Hf. constructor.
  - apply (bool_decide_eq_true_1 _). vm_compute. reflexivity.
  - repeat constructor.
  - apply Forall_cons. split; [constructor|]. apply Forall_singleton. by apply members_of_plain.
Qed.

Lemma domain_fetch_safe scope text members :
  app_scope scope → JSON_parse text = Some (JObj members) → distinct_keys (find_member "changes" members) →
  safe root_I (λ _, True)
    (domain_fetch random maxAttempts (Some (appId scope)) (Some (spaceId scope)) text)
    (answered scope (find_member "requestId" members) (find_member "changes" members)).
Proof.
  intros Hs Ht Hd. unfold domain_fetch, requireHeader, throw_if. rewrite Ht.
  destruct scope as [app space].
  cbn [fst snd]. destruct (strlen app =? 0); [apply error_answered|].
  destruct (strlen space =? 0); [apply error_answered|]. cbn [mbind result_bind].
  by apply domain_command_safe.
Qed.

Lemma forward_safe scope requestId changes :
  app_scope scope → distinct_keys changes →
  safe root_I (λ _, True) (forwardRootRefs random maxAttempts scope requestId changes)
    (answered scope requestId changes).
Proof.
  intros Hs Hd. unfold forwardRootRefs.
  destruct (canonicalizeRootRefsUpdate requestId changes) as [c|e] eqn:Hc.
  2:{ destruct e; apply error_answered. }
  destruct requestId as [[| | | |id| |]|]; try done.
  destruct changes as [[| | | | | |members]|]; try (unfold canonicalizeRootRefsUpdate in Hc; by do 2 peel_guard Hc).
  pose proof (Hd _ eq_refl) as Hnd. pose proof (proj1 (canonicalize_accepts _ _ _ Hnd) Hc) as Ha.
  apply external_safe; [apply _|apply root_true_stable|].
  eapply safe_post; [|apply domain_fetch_safe; [done|apply JSON_round_trip|]].
  - intros response w Hw r Hr. destruct (Hw r Hr) as (c' & Hc' & Hcount).
    exists c'. split; [|done].
    change (canonicalizeRootRefsUpdate (Some (JStr (cu_requestId c)))
              (Some (JObj (members_of (cu_entries c)))) = Ok c') in Hc'.
    rewrite <- Hc'. symmetry. assert (cu_requestId c = id) as -> by by rewrite (ac_form _ _ _ Ha).
    etrans; [|symmetry; exact Hc]. apply canonicalize_accepts.
    + rewrite <- (ac_members _ _ _ Ha). done.
    + destruct Ha as [A1 A2 A3 A4 A5 A6]. split; try done. by rewrite <- A2.
  - apply forwarded_plain; [by rewrite <- members_of_keys, <- (ac_members _ _ _ Ha)|apply Ha].
  - simpl. intros members' [= <-]. by rewrite <- (ac_members _ _ _ Ha).
Qed.

(** C3: a Root Ref command that a Space forwards to its App counts exactly once.
    Whatever calls are refused or lose their response, however often the update
    is retried and whatever other Spaces commit meanwhile, the invariant of the
    world holds afterwards; and when the command is answered with a success of
    revision [rev], the ledger of the App has at [rev] one event of this Space
    with this request identifier and payload, and no other event of the request.
    (That the balances are what the events add up to is part of the invariant.) *)
Theorem root_refs_counted_once scope requestId changes (w w' : World) res :
  app_scope scope → distinct_keys changes → world_inv w →
  forwardRootRefs random maxAttempts scope requestId changes w = (res, w') →
  world_inv w' ∧ log_grows (w_db w) (w_db w')
  ∧ ∀ r, res = Ok (success_response r) →
    ∃ c, canonicalizeRootRefsUpdate requestId changes = Ok c
         ∧ counted_once scope c (ur_revision r) w'.
Proof.
  intros Hs Hd Hw Hr. pose proof (forward_safe scope requestId changes Hs Hd w Hw Logic.I) as Hsafe.
  rewrite Hr in Hsafe. destruct res as [response|e].
  - destruct Hsafe as (Hw' & [_ Hg] & Ha). split_and!; [done..|]. intros r [= ->].
    destruct (Ha r eq_refl) as (c & Hc & Hcount). exists c. split; [done|].
    by apply counted_counted_once.
  - destruct Hsafe as (Hw' & [_ Hg]). by split_and!.
Qed.
End theorems.
