(* ===== verification/NodeRead.v ===== *)
(** Reading a node: the kernels of [packages/service/src/node-read.ts] and
    [node-usage.ts] over their repository classes, and the D1/R2 repositories of
    [packages/service-cloudflare/src/node-read.ts] and [node-usage.ts]. *)
From Stdlib Require Import Ascii.
From stdpp Require Import sorting.
From S2P Require Import Prelude Js MapSum Errors Codec Validation CanonicalStream Store.
From S2P Require Import SpaceCommits DoNames World RefInv NodeLease NodeLeaseD1.

(** * Ranges *)

(** [Number(digits)], of a string of decimal digits. *)
Definition Number_of_digits (l : list ascii) : Z := Number_of_bigint (digits_val l).

(** The regular expression of a byte range: [bytes=], digits, a dash and digits;
    the result is the two groups of digits. *)
Definition match_range (header : string) : option (list ascii * list ascii) :=
  if startsWith header "bytes=" then
    let rest := drop 6 (chars header) in
    match index_of "-"%char rest with
    | Some i =>
        let first := take i rest in
        let last := drop (S i) rest in
        if forallb is_digit first && forallb is_digit last then Some (first, last) else None
    | None => None
    end
  else None.

Definition rangeNotSatisfiable (size : Z) : exn :=
  ENodeOp (mkNodeOpError 416 NodeOpErrorCodes.INVALID_REQUEST "Range is not satisfiable"
    [("Content-Range", "bytes */" +:+ show size)]).

(** [match[i] === "" ? undefined : Number(match[i])]. *)
Definition range_bound (group : list ascii) : option Z :=
  match group with [] => None | _ => Some (Number_of_digits group) end.

(** [n !== undefined && (!Number.isSafeInteger(n) || n < 0)]. *)
Definition bad_bound (n : option Z) : bool :=
  match n with Some n => negb (isSafeInteger n) || (n <? 0) | None => false end.

(** [parseNodeContentRange(header, size)]: the offset and the length, [None] for
    [undefined]. *)
Definition parseNodeContentRange (header : option string) (size : Z)
    : result exn (option (Z * Z)) :=
  match header with
  | None => Ok None
  | Some header =>
      match match_range header with
      | None => Throw (rangeNotSatisfiable size)
      | Some (g1, g2) =>
          if (bool_decide (g1 = []) && bool_decide (g2 = [])) || (size =? 0)
          then Throw (rangeNotSatisfiable size)
          else
            let first := range_bound g1 in
            let last := range_bound g2 in
            if bad_bound first || bad_bound last then Throw (rangeNotSatisfiable size)
            else match first with
                 | None =>
                     match last with
                     | None => Throw (rangeNotSatisfiable size)
                     | Some last =>
                         if last =? 0 then Throw (rangeNotSatisfiable size)
                         else let length := Z.min last size in Ok (Some (size - length, length))
                     end
                 | Some first =>
                     if (size <=? first)
                        || match last with Some last => last <? first | None => false end
                     then Throw (rangeNotSatisfiable size)
                     else let end_ := match last with
                                      | None => size - 1
                                      | Some last => Z.min last (size - 1)
                                      end in
                          Ok (Some (first, end_ - first + 1))
                 end
      end
  end.

(** * The kernels *)

Record NodeReadRecord := mkNodeRead {
  nr_contentSize : Z;
  nr_contentType : string;
  nr_leaseStartedAt : Z;
  nr_leaseExpiresAt : Z;
  nr_childRefCount : Z;
  nr_rootRefCount : Z
}.

Record NodeContentStream := mkContentStream {
  cs_body : list bytes;
  cs_contentType : string;
  cs_contentSize : Z;
  cs_refs : list string;
  (* start and end *)
  cs_range : option (Z * Z)
}.

Record CasNodeMetadata := mkMetadata {
  md_hash : string;
  md_size : Z;
  md_contentType : string;
  md_refs : list string
}.
Record CasNodeState := mkNodeStateRecord {
  st_leaseStartedAt : Z;
  st_leaseExpiresAt : Z;
  st_childRefCount : Z;
  st_rootRefCount : Z
}.

Record NodeUsageEntry := mkUsageEntry {
  ue_hash : string;
  ue_contentSize : Z;
  ue_leaseExpiresAt : Z
}.

(** [CasUsage]. *)
Record CasUsage := mkCasUsage {
  cu_nodeCount : Z;
  cu_readyContentBytes : Z;
  cu_readyStoredBytes : Z;
  cu_reservedBytes : Z;
  cu_notReadyNodeCount : Z;
  cu_leasedNodeCount : Z
}.

Class NodeReadRepository (W : Type) := {
  readNode : AppSpaceScope → string → M exn W (option NodeReadRecord);
  readOrderedRefs : AppSpaceScope → string → M exn W (list string);
  (* offset and length *)
  readCanonicalRange : AppSpaceScope → string → Z → Z → M exn W (option (list bytes))
}.

Class NodeUsageRepository (W : Type) := {
  listNodes : AppSpaceScope → M exn W (list NodeUsageEntry);
  readCanonicalStoredBytes : AppSpaceScope → string → M exn W (option Z);
  readReservedBytes : AppSpaceScope → M exn W Z
}.

Section kernel.
Context {W : Type} `{!NodeReadRepository W}.
Notation Run := (M exn W).

Definition readNodeContent (scope : AppSpaceScope) (hash : string)
    (rangeHeader : option string) : Run (option NodeContentStream) :=
  node ← readNode scope hash;
  match node with
  | None => mret None
  | Some node =>
      refs ← readOrderedRefs scope hash;
      requestedRange ← lift (parseNodeContentRange rangeHeader (nr_contentSize node));
      let logicalOffset := match requestedRange with Some r => fst r | None => 0 end in
      let logicalLength :=
        match requestedRange with Some r => snd r | None => nr_contentSize node end in
      let physicalOffset := HEADER_SIZE + blen (TextEncoder_encode (nr_contentType node))
        + Z.of_nat (length refs) * HASH_SIZE in
      body ← readCanonicalRange scope hash (physicalOffset + logicalOffset) logicalLength;
      match body with
      | None => mret None
      | Some body =>
          mret (Some (mkContentStream body (nr_contentType node) (nr_contentSize node) refs
            (match requestedRange with
             | None => None
             | Some _ => Some (logicalOffset, logicalOffset + logicalLength - 1)
             end)))
      end
  end.

Definition readNodeMetadata (scope : AppSpaceScope) (hash : string)
    : Run (option (CasNodeMetadata * CasNodeState)) :=
  node ← readNode scope hash;
  match node with
  | None => mret None
  | Some node =>
      refs ← readOrderedRefs scope hash;
      mret (Some (mkMetadata hash (nr_contentSize node) (nr_contentType node) refs,
                  mkNodeStateRecord (nr_leaseStartedAt node) (nr_leaseExpiresAt node)
                    (nr_childRefCount node) (nr_rootRefCount node)))
  end.
End kernel.

Section usage.
Context {W : Type} `{!NodeUsageRepository W}.
Notation Run := (M exn W).

(** One turn of the loop of [readNodeUsage]. *)
Definition add_node (scope : AppSpaceScope) (acc : CasUsage) (node : NodeUsageEntry)
    : Run CasUsage :=
  storedBytes ← readCanonicalStoredBytes scope (ue_hash node);
  mret (mkCasUsage (cu_nodeCount acc)
    (cu_readyContentBytes acc + ue_contentSize node)
    (cu_readyStoredBytes acc + match storedBytes with Some n => n | None => 0 end)
    (cu_reservedBytes acc)
    (cu_notReadyNodeCount acc + match storedBytes with Some _ => 0 | None => 1 end)
    (cu_leasedNodeCount acc + if 0 <? ue_leaseExpiresAt node then 1 else 0)).

Definition readNodeUsage (scope : AppSpaceScope) : Run CasUsage :=
  nodes ← listNodes scope;
  totals ← fold_m (add_node scope) (mkCasUsage (Z.of_nat (length nodes)) 0 0 0 0 0) nodes;
  reservedBytes ← readReservedBytes scope;
  mret (mkCasUsage (cu_nodeCount totals) (cu_readyContentBytes totals)
    (cu_readyStoredBytes totals) reservedBytes (cu_notReadyNodeCount totals)
    (cu_leasedNodeCount totals)).
End usage.

(** * The repositories *)

Section adapter.
Context {B : Type} `{!R2Bucket B}.
Notation Run := (Act B).
Implicit Types scope : AppSpaceScope.

Definition read_of_row (r : NodeRow) : NodeReadRecord :=
  mkNodeRead (content_size r) (content_type r) (lease_started_at r) (lease_expires_at r)
    (child_ref_count r) (root_ref_count r).

Definition d1_readNode scope hash : Run (option NodeReadRecord) :=
  d1_read (λ d, read_of_row <$> cas_nodes d !! (scope, hash)).
Definition d1_readOrderedRefs scope hash : Run (list string) :=
  d1_read (ordered_refs (scope, hash)).
Definition d1_readCanonicalRange scope hash (offset len : Z) : Run (option (list bytes)) :=
  r2_read_range (canonical_key (scope, hash)) offset len.

#[global] Instance d1_NodeReadRepository : NodeReadRepository (World B) := {|
  readNode := d1_readNode;
  readOrderedRefs := d1_readOrderedRefs;
  readCanonicalRange := d1_readCanonicalRange
|}.

(** The rows of a Space, in an order of the database's choice: that of the map. *)
Definition d1_listNodes scope : Run (list NodeUsageEntry) :=
  d1_read (λ d, (λ e : NodeKey * NodeRow,
      mkUsageEntry (snd (fst e)) (content_size (snd e)) (lease_expires_at (snd e)))
    <$> map_to_list (nodes_of scope d)).
Definition d1_readCanonicalStoredBytes scope hash : Run (option Z) :=
  object ← r2_read (canonical_key (scope, hash));
  mret ((blen ∘ obj_body) <$> object).
Definition d1_readReservedBytes scope : Run Z :=
  d1_read (λ d, reserved_bytes (reservations_usage scope d)).

#[global] Instance d1_NodeUsageRepository : NodeUsageRepository (World B) := {|
  listNodes := d1_listNodes;
  readCanonicalStoredBytes := d1_readCanonicalStoredBytes;
  readReservedBytes := d1_readReservedBytes
|}.
End adapter.
