(* ===== verification/NodeReadSafe.v ===== *)
(** Reading answers with the node: byte ranges are those of RFC 7233, and a read
    returns the content type, the references and the bytes of the node the hash
    names, while other work goes on. *)
From Stdlib Require Import Ascii.
From stdpp Require Import sorting.
From S2P Require Import Prelude Js MapSum Errors Safe Codec Validation CanonicalStream Store.
From S2P Require Import SpaceCommits DoNames World UsageInv RefInv RootInv NodeLease.
From S2P Require Import NodeLeaseD1 Described NodeLeaseSafe WorldInv LeaseInv NodeRead.

(** * Ranges *)

Lemma bad_range_bound g :
  forallb is_digit g = true →
  bad_bound (range_bound g) = false →
  range_bound g = match g with [] => None | _ => Some (digits_val g) end
  ∧ (g ≠ [] → 0 ≤ digits_val g ≤ MAX_SAFE_INTEGER).
Proof.
  intros Hd. pose proof (digits_val_nonneg g Hd) as Hn. unfold range_bound, Number_of_digits.
  destruct g as [|c g]; [done|]. intros [Hs _]%orb_false_iff. apply negb_false_iff in Hs.
  apply isSafeInteger_Number in Hs as [-> Hlt]; [|done].
  split; [done|]. intros _. unfold MAX_SAFE_INTEGER. lia.
Qed.

Lemma good_range_bound g :
  forallb is_digit g = true → digits_val g ≤ MAX_SAFE_INTEGER →
  bad_bound (range_bound g) = false
  ∧ range_bound g = match g with [] => None | _ => Some (digits_val g) end.
Proof.
  intros Hd Hm. pose proof (digits_val_nonneg g Hd) as Hn.
  unfold range_bound, Number_of_digits, MAX_SAFE_INTEGER in *. destruct g as [|c g]; [done|].
  rewrite Number_of_bigint_small by lia. split; [|done]. simpl.
  rewrite (proj2 (isSafeInteger_spec _)) by lia. simpl. by apply Z.ltb_ge.
Qed.

(** The range a header asks for, when it can be satisfied. *)
Definition satisfiable (g1 g2 : list ascii) (size off len : Z) : Prop :=
  let a := digits_val g1 in
  let b := digits_val g2 in
  (g1 ≠ [] ∧ g2 = [] ∧ a < size ∧ a ≤ MAX_SAFE_INTEGER ∧ off = a ∧ len = size - a)
  ∨ (g1 ≠ [] ∧ g2 ≠ [] ∧ a < size ∧ a ≤ b ∧ b ≤ MAX_SAFE_INTEGER
     ∧ off = a ∧ len = Z.min b (size - 1) - a + 1)
  ∨ (g1 = [] ∧ g2 ≠ [] ∧ 0 < size ∧ 0 < b ∧ b ≤ MAX_SAFE_INTEGER
     ∧ off = size - Z.min b size ∧ len = Z.min b size).

Lemma match_range_digits header g1 g2 :
  match_range header = Some (g1, g2) → forallb is_digit g1 = true ∧ forallb is_digit g2 = true.
Proof.
  unfold match_range. repeat case_match; try done. intros [= <- <-].
  match goal with H : _ && _ = true |- _ => by apply andb_true_iff in H end.
Qed.

Lemma range_accepts header size off len :
  0 ≤ size →
  parseNodeContentRange (Some header) size = Ok (Some (off, len))
  ↔ ∃ g1 g2, match_range header = Some (g1, g2) ∧ satisfiable g1 g2 size off len.
Proof.
  intros Hsize. unfold parseNodeContentRange. split.
  - destruct (match_range header) as [[g1 g2]|] eqn:Hm; [|done].
    pose proof (match_range_digits _ _ _ Hm) as [Hd1 Hd2].
    pose proof (digits_val_nonneg _ Hd1). pose proof (digits_val_nonneg _ Hd2).
    case_match eqn:Hg; [done|]. apply orb_false_iff in Hg as [Hg Hz%Z.eqb_neq].
    case_match eqn:Hb; [done|]. apply orb_false_iff in Hb as [Hb1 Hb2].
    apply bad_range_bound in Hb1 as [-> Hm1]; [|done]. apply bad_range_bound in Hb2 as [-> Hm2]; [|done].
    intros Hr. exists g1, g2. split; [done|]. unfold satisfiable.
    destruct g1 as [|c1 g1], g2 as [|c2 g2]; simpl in Hg; try done.
    + case_match eqn:Hl; [done|]. apply Z.eqb_neq in Hl. injection Hr as <- <-.
      right; right. specialize (Hm2 ltac:(done)). split_and!; try done; lia.
    + case_match eqn:Hl; [done|]. rewrite orb_false_r, Z.leb_gt in Hl. injection Hr as <- <-.
      left. specialize (Hm1 ltac:(done)). split_and!; try done; lia.
    + case_match eqn:Hl; [done|]. rewrite orb_false_iff, Z.leb_gt, Z.ltb_ge in Hl.
      injection Hr as <- <-. right; left. specialize (Hm2 ltac:(done)). split_and!; try done; lia.
  - intros (g1 & g2 & Hm & Hs). rewrite Hm. apply match_range_digits in Hm as [Hd1 Hd2].
    pose proof (digits_val_nonneg _ Hd1). pose proof (digits_val_nonneg _ Hd2).
    assert (digits_val g1 ≤ MAX_SAFE_INTEGER ∧ digits_val g2 ≤ MAX_SAFE_INTEGER) as [Hm1 Hm2].
    { destruct Hs as [(_ & -> & Hs)|[(_ & _ & Hs)|(-> & _ & Hs)]];
        unfold digits_val, MAX_SAFE_INTEGER in *; simpl in *; lia. }
    destruct (good_range_bound g1 Hd1 Hm1) as [-> ->], (good_range_bound g2 Hd2 Hm2) as [-> ->].
    unfold satisfiable in Hs. destruct g1 as [|c1 g1], g2 as [|c2 g2]; simpl negb; simpl andb;
      rewrite ?bool_decide_false by done; simpl; try naive_solver.
    + destruct Hs as [Hs|[Hs|Hs]]; try naive_solver. destruct Hs as (_ & _ & H1 & H2 & H3 & -> & ->).
      rewrite !(proj2 (Z.eqb_neq _ _)) by lia. done.
    + destruct Hs as [Hs|[Hs|Hs]]; try naive_solver. destruct Hs as (_ & _ & H1 & H2 & -> & ->).
      rewrite (proj2 (Z.eqb_neq _ _)), (proj2 (Z.leb_gt _ _)) by lia. simpl.
      repeat f_equal. lia.
    + destruct Hs as [Hs|[Hs|Hs]]; try naive_solver.
      destruct Hs as (_ & _ & H1 & H2 & H3 & -> & ->).
      rewrite (proj2 (Z.eqb_neq _ _)), (proj2 (Z.leb_gt _ _)), (proj2 (Z.ltb_ge _ _)) by lia. done.
Qed.


(** * What a read answers *)

Section read.
Context {B : Type} `{!R2Bucket B} `{!Sha256} `{!R2Laws B}.
Notation World := (World B).
Implicit Types (s : AppSpaceScope) (w : World).

(** The row a world has for a node describes it. *)
Lemma row_describes s h w r :
  world_inv w → cas_nodes (w_db w) !! (s, h) = Some r →
  ∃ hs content, node_of h (content_type r) hs content ∧ content_size r = blen content
    ∧ ordered_refs (s, h) (w_db w) = hex_of <$> hs.
Proof.
  intros Hw Hr. destruct (di_described _ (wi_db _ Hw) _ _ Hr) as (refs & Hd & He).
  destruct Hd as (hs & content & Hct & Hhs & Hlim & -> & Hsz & Hh). exists hs, content.
  split_and!; [|done|by apply ordered_refs_spec]. by rewrite Hsz in Hlim.
Qed.

(** What a read of the range [range] answers about a node. *)
Definition serves (ct : string) (hs : list bytes) (content : bytes)
    (range : option (Z * Z)) (answer : NodeContentStream) : Prop :=
  cs_contentType answer = ct ∧ cs_contentSize answer = blen content
  ∧ cs_refs answer = hex_of <$> hs
  ∧ match range with
    | None => concat (cs_body answer) = content ∧ cs_range answer = None
    | Some (off, len) => concat (cs_body answer) = slice off (off + len) content
                         ∧ cs_range answer = Some (off, off + len - 1)
    end.

Lemma slice_encoded ct hs content off len :
  content_type_ok ct → hashes_wf hs → 0 ≤ off → 0 ≤ len → off + len ≤ blen content →
  let base := HEADER_SIZE + blen (TextEncoder_encode ct) + Z.of_nat (length hs) * HASH_SIZE in
  slice (base + off) (base + off + len) (encodeNode ct hs content) = slice off (off + len) content.
Proof.
  intros Hct Hhs Hoff Hlen Hle base. unfold slice, encodeNode.
  replace (Z.to_nat (base + off + len - (base + off))) with (Z.to_nat (off + len - off)) by lia.
  f_equal. rewrite !app_assoc.
  replace (Z.to_nat (base + off)) with
    (length ((header_bytes (blen content) (strlen ct) (Z.of_nat (length hs))
      ++ TextEncoder_encode ct) ++ concat hs) + Z.to_nat off)%nat; [by rewrite drop_app_add|].
  rewrite !length_app, length_header_bytes, length_concat_hashes by done.
  unfold base, HEADER_SIZE, HASH_SIZE, blen. lia.
Qed.

Lemma read_row_safe s h :
  safe world_I (λ _, True) (d1_readNode s h)
    (λ n w, match n with
            | None => True
            | Some n => row_at s h w ∧ ∃ hs content,
                node_of h (nr_contentType n) hs content ∧ nr_contentSize n = blen content
            end).
Proof.
  apply d1_read_safe; [apply _|by intros ?|]. intros w Hw _.
  destruct (cas_nodes (w_db w) !! (s, h)) as [r|] eqn:Hr; simpl; [|done].
  split; [by exists r|]. destruct (row_describes _ _ _ _ Hw Hr) as (hs & content & ? & ? & _).
  by exists hs, content.
Qed.

Lemma read_refs_safe s h ct hs content :
  collision_free h → node_of h ct hs content →
  safe world_I (row_at s h) (d1_readOrderedRefs s h) (λ refs _, refs = hex_of <$> hs).
Proof.
  intros Hcf Hn. apply d1_read_safe; [apply _|auto with safe|]. intros w Hw [r Hr].
  destruct (row_describes _ _ _ _ Hw Hr) as (hs' & content' & Hn' & _ & ->).
  by destruct (node_of_unique _ _ _ _ _ _ _ Hcf Hn Hn') as (_ & -> & _).
Qed.

Lemma read_range_safe s h ct hs content off len :
  collision_free h → node_of h ct hs content → 0 ≤ off → 0 ≤ len → off + len ≤ blen content →
  safe world_I (row_at s h)
    (d1_readCanonicalRange s h
      (HEADER_SIZE + blen (TextEncoder_encode ct) + Z.of_nat (length hs) * HASH_SIZE + off) len)
    (λ body _, ∀ chunks, body = Some chunks → concat chunks = slice off (off + len) content).
Proof.
  intros Hcf Hn Hoff Hlen Hle. apply external_safe; [apply _|auto with safe|].
  intros w Hw [r Hr]. split_and!; [done|apply (keeps_refl world_I)|]. intros chunks Hc.
  destruct (r2_object (w_bucket w) (canonical_key (s, h))) as [o|] eqn:Ho; [|done].
  simpl in Hc. injection Hc as <-. rewrite r2_chunks_concat.
  pose proof (ri_keys _ (di_refs _ (wi_db _ Hw)) _ _ Hr) as Hok.
  pose proof (wi_bucket _ Hw (s, h) o Hok Ho) as Hh. destruct Hn as (Hct & Hhs & Hlim & Hn).
  rewrite (Hcf _ _ Hh Hn). by apply slice_encoded.
Qed.

(** C16: [readNodeContent] over the D1 and R2 repository, in any state the service
    can be in and whatever happens between its calls, answers with the node the
    hash names or not at all: the content type, the size and the child hashes are
    those of the node, and the body is its content, or exactly the range that the
    header asks for. *)
Theorem readNodeContent_correct s h header w answer w' ct hs content :
  collision_free h → node_of h ct hs content → world_inv w →
  readNodeContent s h header w = (Ok (Some answer), w') →
  ∃ range, parseNodeContentRange header (blen content) = Ok range
    ∧ serves ct hs content range answer ∧ world_inv w'.
Proof.
  intros Hcf Hn Hw Hrun.
  assert (safe world_I (λ _, True) (readNodeContent s h header) (λ answer _,
    ∀ a, answer = Some a → ∃ range, parseNodeContentRange header (blen content) = Ok range
      ∧ serves ct hs content range a)) as Hsafe.
  2:{ specialize (Hsafe w Hw I). rewrite Hrun in Hsafe. destruct Hsafe as (? & _ & Hs).
      destruct (Hs answer eq_refl) as (range & ? & ?). by exists range. }
  clear w w' Hw Hrun answer. unfold readNodeContent. cbn [readNode readOrderedRefs readCanonicalRange d1_NodeReadRepository].
  eapply safe_bind; [by intros ?|apply read_row_safe|]. intros [n|]; [|by apply safe_ret].
  eapply (safe_pre _ (λ w, row_at s h w ∧ (nr_contentType n = ct ∧ nr_contentSize n = blen content))).
  { intros w [_ (Hrow & hs' & content' & Hn' & Hsz)]. split; [done|].
    destruct (node_of_unique _ _ _ _ _ _ _ Hcf Hn Hn') as (-> & _ & ->). done. }
  apply safe_assume. intros [Hct Hsz]. rewrite Hct, Hsz.
  eapply safe_bind; [auto with safe|by eapply read_refs_safe|]. intros refs.
  apply (safe_assume world_I (row_at s h) (refs = hex_of <$> hs)). intros ->.
  apply safe_lift_bind. intros range Hrange.
  assert (0 ≤ match range with Some r => fst r | None => 0 end
    ∧ 0 ≤ match range with Some r => snd r | None => blen content end
    ∧ match range with Some r => fst r | None => 0 end
      + match range with Some r => snd r | None => blen content end ≤ blen content) as (H1 & H2 & H3).
  { destruct range as [[off len]|]; simpl; [|unfold blen; lia].
    destruct header as [header|]; [|done]. apply range_accepts in Hrange as (g1 & g2 & Hm & Hs); [|unfold blen; lia].
    apply match_range_digits in Hm as [Hd1%digits_val_nonneg Hd2%digits_val_nonneg].
    unfold satisfiable in Hs. lia. }
  rewrite length_fmap.
  eapply safe_bind; [auto with safe|by apply read_range_safe|]. intros body.
  apply (safe_assume world_I (row_at s h) (∀ chunks, body = Some chunks → concat chunks =
    slice match range with Some r => fst r | None => 0 end
      (match range with Some r => fst r | None => 0 end
       + match range with Some r => snd r | None => blen content end) content)).
  intros Hbody. destruct body as [body|]; [|by apply safe_ret].
  specialize (Hbody body eq_refl). apply safe_ret. intros w _ a [= <-]. exists range.
  split; [done|]. split_and!; [done..|]. destruct range as [[off len]|]; simpl in *; [done|].
  split; [|done]. rewrite Hbody. apply slice_all.
Qed.
End read.
