(* ===== verification/SpaceDo.v ===== *)
(** The Space Durable Object of [packages/service-cloudflare/src/space-do.ts]: its
    lease, read, metadata, usage, collection and Root Ref operations over the
    kernels, and the presigner of [r2-upload-presigner.ts]. Tracing and timing are
    left out. *)
From Stdlib Require Import Ascii.
From stdpp Require Import sorting.
From S2P Require Import Prelude Js JsonText Uri MapSum Errors Codec Validation Store SpaceCommits.
From S2P Require Import DoNames.
From S2P Require Import Http World NodeLease NodeLeaseD1 Gc RootRefs RootBody AuditReads DomainDo.
From S2P Require Import NodeRead.

(** A request: its method and path, [url.searchParams.get], [headers.get] and the
    text of its body. *)
Record SpaceRequest := mkSpaceRequest {
  sr_method : string;
  sr_pathname : string;
  sr_search : string → option string;
  sr_header : string → option string;
  sr_text : string
}.
(** [request.json()], with a rejection as [None]. *)
Definition sr_json (request : SpaceRequest) : option Json := JSON_parse (chars (sr_text request)).

(** A response: JSON with extra headers, or a stream. *)
Inductive Reply :=
| JsonReply (r : Response) (headers : list (string * string))
| ContentReply (status : Z) (headers : list (string * string)) (body : list bytes).

(** [SpaceCasDoEnv]. *)
Record SpaceCasDoEnv := mkSpaceEnv {
  CAS_R2_ACCOUNT_ID : option string;
  CAS_R2_BUCKET_NAME : option string;
  CAS_R2_ACCESS_KEY_ID : option string;
  CAS_R2_SECRET_ACCESS_KEY : option string;
  CAS_UPLOAD_URL_EXPIRY_SECONDS : option string;
  CAS_RETRY_MAX_ATTEMPTS : option string
}.

(** * Parsing requests *)

Definition bad_request (message : string) : exn :=
  node_error 400 NodeOpErrorCodes.INVALID_REQUEST message.

(** [requireHeader(request, name)] of this module. *)
Definition requireNodeHeader (request : SpaceRequest) (name : string) : result exn string :=
  match sr_header request name with
  | Some v => _ ← throw_if (strlen v =? 0) (bad_request ("missing " +:+ name)); Ok v
  | None => Throw (bad_request ("missing " +:+ name))
  end.

(** [physicalScope(request)]; [inr] is the response. *)
Definition scope_error (message : string) : Reply :=
  JsonReply (errorResponse 400 "INVALID_SCOPE_HEADERS" message) [].
Definition physicalScope (request : SpaceRequest) : AppSpaceScope + Reply :=
  let header := sr_header request in
  if bool_decide (is_Some (header "X-CAS-Stack-Id")) || bool_decide (is_Some (header "X-CAS-Tenant-Id"))
  then inr (scope_error "legacy scope headers are forbidden")
  else match header "X-CAS-App-Id", header "X-CAS-Space-Id" with
       | Some app, Some space =>
           if negb (strlen app =? 0) && negb (strlen space =? 0) then inl (app, space)
           else inr (scope_error "one complete scope header family is required")
       | _, _ => inr (scope_error "one complete scope header family is required")
       end.

(** The lease duration of the body of [#handleSpaceLease]. *)
Definition parseLeaseBody (body : option Json) : result exn Z :=
  let invalid := bad_request "leaseDurationMs must be a positive integer" in
  match body with
  | Some (JObj [(name, value)]) =>
      if negb (bool_decide (name = "leaseDurationMs")) then Throw invalid
      else match value with
           | JInt n => if negb (isSafeInteger n) || (n <=? 0) then Throw invalid else Ok n
           | _ => Throw invalid
           end
  | _ => Throw invalid
  end.

(** [#uploadExpirySeconds()]. *)
Definition uploadExpirySeconds (env : SpaceCasDoEnv) : result exn Z :=
  let invalid := storage_error "Direct upload expiry is invalid" in
  match Number_of_text (default "300" (CAS_UPLOAD_URL_EXPIRY_SECONDS env)) with
  | JInt n =>
      if negb (isSafeInteger n) || (n <? 1) || (604800 <? n) then Throw invalid else Ok n
  | _ => Throw invalid
  end.

(** [body?.maxNodes ?? DEFAULT_GC_MAX_NODES], and its check. *)
Definition parseMaxNodes (body : option Json) : result exn Z :=
  let invalid := bad_request "maxNodes must be a positive integer" in
  match (match body with Some (JObj members) => find_member "maxNodes" members | _ => None end) with
  | None | Some JNull => Ok DEFAULT_GC_MAX_NODES
  | Some (JInt n) => if negb (isSafeInteger n) || (n <=? 0) then Throw invalid else Ok n
  | Some _ => Throw invalid
  end.

(** [parseRootRefsLimit(value)] and [parseRootRefsCursor(value)]. *)
Definition parseRootRefsLimit (value : option string) : result exn Z :=
  let invalid := bad_request "root refs limit must be between 1 and 200" in
  match value with
  | None => Ok 50
  | Some text =>
      match Number_of_text text with
      | JInt n => if negb (isSafeInteger n) || (n <? 1) || (200 <? n) then Throw invalid else Ok n
      | _ => Throw invalid
      end
  end.
Definition parseRootRefsCursor (value : option string) : result exn string :=
  match value with
  | None => Ok EmptyString
  | Some text =>
      match decodeRefsCursor text with
      | None => Throw (bad_request "root refs cursor is invalid")
      | Some _ => Ok text
      end
  end.

(** * Presigned uploads *)

Definition CanonicalUploadContentType : string := "application/vnd.unidocs.cas-node.v1".

Record PresignedR2Upload := mkPresigned {
  pu_url : string;
  pu_expiresAt : Z;
  pu_headers : list (string * string)
}.

(** [requireComponent(value, name)]. *)
Definition requireComponent (value name : string) : result exn unit :=
  throw_if ((strlen value =? 0) || some_char (λ c, (code c =? 0x0D) || (code c =? 0x0A)) value)
    (TypeError (name +:+ " must not be empty")).

Section presigner.
(** [AwsClient.sign] of a PUT, from the access key, its secret, the text of the
    URL, the expiry it carries as [X-Amz-Expires], and the headers: the signed URL. *)
Variable sign : string → string → string → Z → list (string * string) → result exn string.

(** [encodeURIComponent] of a string of the model, which is well formed. *)
Definition encoded (s : string) : string :=
  of_chars (default [] (encodeURIComponent (points s))).
(** [segments.join("/")]. *)
Fixpoint join_slash (l : list string) : string :=
  match l with [] => EmptyString | [x] => x | x :: l => x +:+ "/" +:+ join_slash l end.
Definition upload_headers : list (string * string) :=
  [("Content-Type", CanonicalUploadContentType); ("If-None-Match", "*")].

(** [new R2UploadPresigner(config)], then [signPut(objectKey)]. *)
Definition signPut (accountId bucketName accessKeyId secretAccessKey : string)
    (expiresInSeconds now : Z) (objectKey : string) : result exn PresignedR2Upload :=
  _ ← requireComponent accountId "R2 account ID";
  _ ← requireComponent bucketName "R2 bucket name";
  _ ← throw_if (negb (isSafeInteger expiresInSeconds) || (expiresInSeconds <? 1)
                || (604800 <? expiresInSeconds))
        (TypeError "R2 upload URL expiry must be an integer between 1 and 604800 seconds");
  _ ← requireComponent accessKeyId "R2 access key ID";
  _ ← requireComponent secretAccessKey "R2 secret access key";
  _ ← each_result (λ segment, requireComponent segment "R2 object key segment")
        (split "/"%char objectKey);
  url ← sign accessKeyId secretAccessKey
          ("https://" +:+ encoded accountId +:+ ".r2.cloudflarestorage.com/" +:+ encoded bucketName
           +:+ "/" +:+ join_slash (encoded <$> split "/"%char objectKey))
          expiresInSeconds upload_headers;
  Ok (mkPresigned url (now + expiresInSeconds * 1000) upload_headers).

(** [#uploadPresigner(expiresInSeconds, now)] and the call of it. *)
Definition presignUpload (env : SpaceCasDoEnv) (expiresInSeconds now : Z) (objectKey : string)
    : result exn PresignedR2Upload :=
  let unconfigured := storage_error "Direct canonical upload is not configured" in
  match CAS_R2_ACCOUNT_ID env, CAS_R2_BUCKET_NAME env,
        CAS_R2_ACCESS_KEY_ID env, CAS_R2_SECRET_ACCESS_KEY env with
  | Some account, Some bucket, Some key, Some secret =>
      _ ← throw_if ((strlen account =? 0) || (strlen bucket =? 0) || (strlen key =? 0)
                    || (strlen secret =? 0)) unconfigured;
      signPut account bucket key secret expiresInSeconds now objectKey
  | _, _, _, _ => Throw unconfigured
  end.
End presigner.

(** * The JSON of the answers *)

Definition json_headers (l : list (string * string)) : Json :=
  JObj ((λ h : string * string, (fst h, JStr (snd h))) <$> l).
Definition json_upload (u : PresignedR2Upload) : Json :=
  JObj [("method", JStr "PUT"); ("url", JStr (pu_url u)); ("expiresAt", JInt (pu_expiresAt u));
        ("headers", json_headers (pu_headers u))].
Definition json_rejection (r : SpaceNodeUploadRejection) : Json :=
  JObj [("code", JStr (rj_code r)); ("message", JStr (rj_message r))].

Definition json_ready (hash : string) (l : NodeLeaseRecord) : Json :=
  JObj [("state", JStr "ready"); ("hash", JStr hash);
        ("leaseStartedAt", JInt (leaseStartedAt l)); ("leaseExpiresAt", JInt (leaseExpiresAt l))].
Definition json_awaiting_children (hash : string) (childHashes : list string) : Json :=
  JObj [("state", JStr "validated_awaiting_children"); ("hash", JStr hash);
        ("childHashes", JArr (JStr <$> childHashes))].
Definition json_awaiting_upload (hash : string) (u : PresignedR2Upload) : Json :=
  JObj [("state", JStr "awaiting_upload"); ("hash", JStr hash); ("upload", json_upload u)].
Definition json_awaiting_replacement (hash : string) (r : SpaceNodeUploadRejection)
    (u : PresignedR2Upload) : Json :=
  JObj [("state", JStr "awaiting_replacement_upload"); ("hash", JStr hash);
        ("rejection", json_rejection r); ("upload", json_upload u)].

Definition json_usage (u : CasUsage) : Json :=
  JObj [("nodeCount", JInt (cu_nodeCount u)); ("readyContentBytes", JInt (cu_readyContentBytes u));
        ("readyStoredBytes", JInt (cu_readyStoredBytes u)); ("reservedBytes", JInt (cu_reservedBytes u));
        ("notReadyNodeCount", JInt (cu_notReadyNodeCount u));
        ("leasedNodeCount", JInt (cu_leasedNodeCount u))].
Definition json_gc (r : CasGcResult) : Json :=
  JObj [("examined", JInt (gc_examined r)); ("deleted", JInt (gc_deleted r));
        ("reclaimedContentBytes", JInt (gc_reclaimedContentBytes r))].
Definition json_metadata (r : CasNodeMetadata * CasNodeState) : Json :=
  let '(m, s) := r in
  JObj [("metadata", JObj [("hash", JStr (md_hash m)); ("size", JInt (md_size m));
                           ("contentType", JStr (md_contentType m));
                           ("refs", JArr (JStr <$> md_refs m))]);
        ("state", JObj [("leaseStartedAt", JInt (st_leaseStartedAt s));
                        ("leaseExpiresAt", JInt (st_leaseExpiresAt s));
                        ("childRefCount", JInt (st_childRefCount s));
                        ("rootRefCount", JInt (st_rootRefCount s))])].

Definition json_reply (j : Json) : Reply := JsonReply (mkResponse 200 j) [].

(** The response of [#handleRead] for a node. *)
Definition content_reply (content : NodeContentStream) : result exn Reply :=
  refs ← formatCasNodeRefsHeader (cs_refs content);
  let length := match cs_range content with
                | None => cs_contentSize content
                | Some (start, end_) => end_ - start + 1
                end in
  let headers := [("Accept-Ranges", "bytes"); ("Content-Length", show length);
                  ("Content-Type", cs_contentType content); (CasNodeRefsHeader, refs)] in
  Ok (match cs_range content with
      | None => ContentReply 200 headers (cs_body content)
      | Some (start, end_) =>
          ContentReply 206
            (headers ++ [("Content-Range", "bytes " +:+ show start +:+ "-" +:+ show end_ +:+ "/"
                                           +:+ show (cs_contentSize content))])
            (cs_body content)
      end).

(** * The operations *)

Section space.
Context {B : Type} `{!R2Bucket B} `{!Sha256} `{!ScanOrder}.
Notation Run := (Act B).
Variables (env : SpaceCasDoEnv) (sign : string → string → string → Z → list (string * string) → result exn string).
(** [crypto.randomUUID()], and [Math.random()] scaled. *)
Variables (randomUUID : Run string) (random : Run Z).
Implicit Types scope : AppSpaceScope.

Definition space_lease_input (hash : string) (leaseDurationMs uploadExpirySeconds now : Z)
    : LeaseInput (World B) :=
  mkLeaseInput hash leaseDurationMs
    (id ← randomUUID; mret (id, upload_key id))
    noLimits (Some (uploadExpirySeconds * 1000)) None None (mret now).

(** [#evaluateSpaceLease(...)]. *)
Definition evaluateSpaceLease scope (hash : string) (leaseDurationMs uploadExpirySeconds now : Z)
    : Run Json :=
  result ← leaseDrivenNodeUpload (space_lease_input hash leaseDurationMs uploadExpirySeconds now) scope;
  match result with
  | LeaseReady hash lease => mret (json_ready hash lease)
  | ValidatedAwaitingChildren childHashes => mret (json_awaiting_children hash childHashes)
  | AwaitingReplacementUpload upload rejection =>
      signed ← lift (presignUpload sign env uploadExpirySeconds now (lu_temporaryObjectKey upload));
      mret (json_awaiting_replacement hash rejection signed)
  | AwaitingUpload upload =>
      signed ← lift (presignUpload sign env uploadExpirySeconds now (lu_temporaryObjectKey upload));
      mret (json_awaiting_upload hash signed)
  end.

(** [#handleLease] and [#handleSpaceLease], of a request that joins no other. *)
Definition handleSpaceLease scope (request : SpaceRequest) : Run Reply :=
  hash ← lift (requireNodeHeader request "X-CAS-Hash");
  leaseDurationMs ← lift (parseLeaseBody (sr_json request));
  now ← Date_now;
  seconds ← lift (uploadExpirySeconds env);
  answer ← evaluateSpaceLease scope hash leaseDurationMs seconds now;
  mret (json_reply answer).

Definition not_found (message : string) : Reply :=
  JsonReply (errorResponse 404 NodeOpErrorCodes.NOT_FOUND message) [].

(** [#handleRead(request, store)]. *)
Definition handleRead scope (request : SpaceRequest) : Run Reply :=
  hash ← lift (requireNodeHeader request "X-CAS-Hash");
  content ← readNodeContent scope hash (sr_header request "Range");
  match content with
  | None => mret (not_found ("Node " +:+ hash +:+ " not found or not ready"))
  | Some content => lift (content_reply content)
  end.

(** [#handleMetadata(request, store)]. *)
Definition handleMetadata scope (request : SpaceRequest) : Run Reply :=
  hash ← lift (requireNodeHeader request "X-CAS-Hash");
  result ← readNodeMetadata scope hash;
  match result with
  | None => mret (not_found ("Node " +:+ hash +:+ " not found"))
  | Some r => mret (json_reply (json_metadata r))
  end.

(** [#handleGc(request, store)]. *)
Definition handleGc scope (request : SpaceRequest) : Run Reply :=
  maxNodes ← lift (parseMaxNodes (sr_json request));
  now ← Date_now;
  _ ← cleanupExpiredLeaseDrivenUploads scope now maxNodes;
  r ← collectExpiredUnreferencedNodes scope (Some maxNodes) Date_now;
  mret (json_reply (json_gc r)).

Definition handleUsage scope : Run Reply :=
  u ← readNodeUsage scope; mret (json_reply (json_usage u)).

(** The update of Root Refs. *)
Definition handleRootRefs scope (request : SpaceRequest) : Run Reply :=
  response ← (match parseRootRefsBody (sr_text request) with
              | Ok (requestId, changes) =>
                  forwardRootRefs random (CAS_RETRY_MAX_ATTEMPTS env) scope requestId changes
              | Throw (ERootRefsValidation e) =>
                  mret (errorResponse (rve_status e) (rve_code e) (rve_message e))
              | Throw _ => mret (errorResponse 400 RootRefsErrorCodes.INVALID_REQUEST
                                   "root refs update is invalid")
              end);
  mret (JsonReply response []).

(** [listRootRefs(input)] and its JSON. *)
Definition listRootRefs scope (limit : Z) (cursor : string) : Run Json :=
  page ← listAppRootRefs (appId scope) (Some (spaceId scope)) (Some limit)
           (if bool_decide (cursor = EmptyString) then None else Some cursor);
  mret (JObj [("revision", JInt (pg_revision page));
              ("items", JArr ((λ row, JObj [("hash", JStr (br_hash row)); ("refCount", JInt (br_count row))])
                              <$> pg_refs page));
              ("nextCursor", match pg_nextCursor page with Some t => JStr t | None => JNull end)]).
Definition handleListRootRefs scope (request : SpaceRequest) : Run Reply :=
  limit ← lift (parseRootRefsLimit (sr_search request "limit"));
  cursor ← lift (parseRootRefsCursor (sr_search request "cursor"));
  j ← listRootRefs scope limit cursor;
  mret (json_reply j).

Definition unimplemented : Reply :=
  JsonReply (errorResponse 501 "SERVICE_UNAVAILABLE" "Space CAS operation not implemented yet") [].

Definition is_route (request : SpaceRequest) (pathname method : string) : bool :=
  bool_decide (sr_pathname request = pathname) && bool_decide (sr_method request = method).

(** The routes of [fetch]. *)
Definition route scope (request : SpaceRequest) : Run Reply :=
  if is_route request "/updateRootRefs" "POST" then handleRootRefs scope request
  else if is_route request "/rootRefs" "GET" then handleListRootRefs scope request
  else if is_route request "/lease" "POST" then handleSpaceLease scope request
  else if is_route request "/read" "GET" then handleRead scope request
  else if is_route request "/metadata" "GET" then handleMetadata scope request
  else if is_route request "/usage" "GET" then handleUsage scope
  else if is_route request "/gc" "POST" then handleGc scope request
  else mret unimplemented.

(** The [catch] of [fetch]. *)
Definition error_reply (error : exn) : Reply :=
  match error with
  | EAuditRead e =>
      JsonReply (errorResponse (are_status e)
                   (if bool_decide (are_code e = AuditReadErrorCodes.INVALID_CURSOR)
                    then "INVALID_REQUEST" else are_code e) (are_message e)) []
  | ENodeOp e => JsonReply (errorResponse (noe_status e) (noe_code e) (noe_message e)) (noe_headers e)
  | _ => JsonReply (errorResponse 503 NodeOpErrorCodes.STORAGE "Space CAS operation failed") []
  end.

(** [fetch(request)]. *)
Definition space_fetch (request : SpaceRequest) : Run Reply :=
  match physicalScope request with
  | inr reply => mret reply
  | inl scope => try_catch (route scope request) (λ error, mret (error_reply error))
  end.
End space.
