(* ===== verification/SpaceSafe.v ===== *)
(** The Space service as a whole: whatever is requested of Spaces, in whatever
    order and with whatever failures, the invariant of the world holds, leases only
    grow until they run out, and a node that was answered ready can be read, byte
    for byte, for as long as its lease runs. *)
From Stdlib Require Import Ascii.
From stdpp Require Import sorting.
From S2P Require Import Prelude Js JsonText MapSum Errors Safe Codec Validation CanonicalStream.
From S2P Require Import Store SpaceCommits DoNames Http World UsageInv RefInv RootInv.
From S2P Require Import NodeLease NodeLeaseD1 Described NodeLeaseSafe Gc WorldInv LeaseInv GcInv.
From S2P Require Import RootRefs RootBody RootSafe RootCanon AuditReads AuditSafe DomainDo.
From S2P Require Import NodeRead NodeReadSafe SpaceDo.

Section service.
Context {B : Type} `{!R2Bucket B} `{!Sha256} `{!R2Laws B} `{!ScanOrder} `{!ScanOrderLaws}.
Notation World := (World B).
Notation world_I := (world_I (B:=B)).
Variables (env : SpaceCasDoEnv) (sign : string → string → string → Z → list (string * string) → result exn string).
Variables (randomUUID : Act B string) (random : Act B Z).
Hypothesis uuid_pure : ∀ w, snd (randomUUID w) = w.
Hypothesis random_pure : ∀ w, snd (random w) = w.
Implicit Types s scope : AppSpaceScope.

(** A run that keeps the invariant and loses nothing. *)
Notation harmless m := (safe world_I (λ _, True) m (λ _ _, True)).

Lemma harmless_seq {A C} (m : Act B A) (f : A → Act B C) :
  harmless m → (∀ a, harmless (f a)) → harmless (m ≫= f).
Proof. apply safe_seq, true_stable. Qed.
Lemma harmless_ret {A} (a : A) : harmless (mret a : Act B A).
Proof. by apply safe_ret. Qed.
Lemma harmless_lift {A} (r : result exn A) : harmless (lift r : Act B A).
Proof. by apply safe_lift. Qed.
Lemma harmless_r2_read key : harmless (r2_read (B:=B) key).
Proof. apply r2_read_safe; [apply _|apply true_stable|done]. Qed.
Lemma harmless_r2_range key offset len : harmless (r2_read_range (B:=B) key offset len).
Proof. apply external_safe; [apply _|apply true_stable|]. by apply safe_gets. Qed.
Lemma harmless_root {A} (m : Act B A) Q : safe root_I (λ _, True) m Q → harmless m.
Proof.
  intros Hm. apply (safe_post _ _ _ Q); [done|]. apply (safe_sub root_I); [done| |done].
  intros w w' [Hk _]. by apply frozen_keeps.
Qed.
Lemma harmless_pure {A} (m : Act B A) : (∀ w, snd (m w) = w) → harmless m.
Proof.
  intros Hm w Hw _. specialize (Hm w). destruct (m w) as [[a|e] w']; simpl in *; subst w';
    split_and!; try done; apply (keeps_refl world_I).
Qed.
Lemma harmless_fold {A X} (f : X → A → Act B X) acc l :
  (∀ b x, harmless (f b x)) → harmless (fold_m f acc l).
Proof. intros Hf. apply safe_fold_m; [apply true_stable|]. intros b x _. apply Hf. Qed.

Hint Resolve harmless_ret harmless_lift harmless_r2_read harmless_r2_range read_true : harmless.
Ltac harmless := repeat (apply harmless_seq; [solve [auto with harmless]|intros ?]; try case_match);
  auto with harmless.

(** ** Every route but the collection is harmless *)

Lemma read_content_harmless s h header : harmless (readNodeContent s h header).
Proof.
  unfold readNodeContent. apply harmless_seq; [apply read_true|]. intros [n|]; [|apply harmless_ret].
  apply harmless_seq; [apply read_true|]. intros refs. apply harmless_seq; [apply harmless_lift|].
  intros range. apply harmless_seq; [apply harmless_r2_range|]. intros [body|]; apply harmless_ret.
Qed.

Lemma handleRead_harmless s request : harmless (handleRead s request).
Proof.
  apply harmless_seq; [apply harmless_lift|]. intros h.
  apply harmless_seq; [apply read_content_harmless|]. intros [c|]; auto with harmless.
Qed.

Lemma handleMetadata_harmless s request : harmless (handleMetadata s request).
Proof.
  apply harmless_seq; [apply harmless_lift|]. intros h. apply harmless_seq.
  - apply harmless_seq; [apply read_true|]. intros [n|]; [|apply harmless_ret].
    apply harmless_seq; [apply read_true|]. intros refs. apply harmless_ret.
  - intros [r|]; auto with harmless.
Qed.

Lemma handleUsage_harmless s : harmless (handleUsage s).
Proof.
  apply harmless_seq; [|auto with harmless]. apply harmless_seq; [apply read_true|]. intros nodes.
  apply harmless_seq.
  - apply harmless_fold. intros b x. apply harmless_seq; [|auto with harmless].
    apply harmless_seq; auto with harmless.
  - intros totals. apply harmless_seq; [apply read_true|]. auto with harmless.
Qed.

Lemma list_harmless app f limit text : harmless (listAppRootRefs app f limit text).
Proof.
  apply (harmless_root _ (λ _ _, True)). intros w Hw _.
  pose proof (listAppRootRefs_safe (w_db w) app f limit text w Hw (log_grows_refl _)) as Hs.
  destruct (listAppRootRefs app f limit text w) as [[page|e] w']; naive_solver.
Qed.

Lemma handleList_harmless s request : harmless (handleListRootRefs s request).
Proof.
  do 2 (apply harmless_seq; [apply harmless_lift|]; intros ?).
  apply harmless_seq; [|auto with harmless]. apply harmless_seq; [apply list_harmless|].
  auto with harmless.
Qed.

Lemma handleRootRefs_harmless s request :
  app_scope s → harmless (handleRootRefs env random s request).
Proof.
  intros Hs. apply harmless_seq; [|auto with harmless].
  destruct (parseRootRefsBody (sr_text request)) as [[id changes]|e] eqn:Hp.
  - eapply harmless_root, forward_safe; [done..|]. intros members Hm.
    by eapply parseRootRefsBody_distinct.
  - destruct e; apply harmless_ret.
Qed.

(** What a lease answers. *)
Definition lease_told (s : AppSpaceScope) (reply : Reply) (w : World) : Prop :=
  ∀ h l, reply = json_reply (json_ready h l) →
    row_at s h w ∧ present_at s h w ∧ leased_at s h (leaseExpiresAt l) w.

Lemma json_ready_inj h l h' l' : json_ready h l = json_ready h' l' → h = h' ∧ l = l'.
Proof. intros [= -> ? ?]. destruct l, l'. simpl in *. by subst. Qed.

Lemma handleSpaceLease_safe s request :
  app_scope s →
  safe world_I (λ _, True) (handleSpaceLease env sign randomUUID s request) (lease_told s).
Proof.
  intros Hs. unfold handleSpaceLease.
  apply safe_seq; [apply true_stable|apply harmless_lift|]. intros h.
  apply safe_seq; [apply true_stable|apply harmless_lift|]. intros duration.
  apply safe_seq; [apply true_stable|by apply safe_gets|]. intros now.
  apply safe_seq; [apply true_stable|apply harmless_lift|]. intros seconds.
  unfold evaluateSpaceLease. set (input := space_lease_input _ _ _ _ _).
  eapply (safe_bind _ _ _ _ (λ j, lease_told s (json_reply j))); [apply true_stable| |].
  2:{ intros j. apply safe_ret. by intros w [_ ?]. }
  eapply (safe_bind _ _ _ _ (truthful row_at present_at leased_at input s)); [apply true_stable| |].
  { apply (lease_driven_safe frozen_I world_I app_scope row_at present_at leased_at lease_within
      is_upload_key); [done| |by apply safe_ret].
    eapply safe_bind; [apply true_stable|by apply harmless_pure|]. intros id.
    apply safe_ret. intros w _. by exists id. }
  assert (∀ P u (k : PresignedR2Upload → Json), (∀ p h l, k p ≠ json_ready h l) →
    safe world_I P (signed ← lift (presignUpload sign env seconds now u); mret (k signed))
      (λ j, lease_told s (json_reply j))) as Hsigned.
  { intros P u k Hk. apply safe_lift_bind. intros p _. apply safe_ret. intros w _ h' l' [= He].
    by destruct (Hk p h' l'). }
  intros [h' l'|u|u rej|children]; [|by apply Hsigned|by apply Hsigned|].
  - apply safe_ret. intros w [_ Ht] h2 l2 [= -> ? ?]. destruct (Ht _ _ eq_refl) as (_ & [? ?] & ?).
    destruct l', l2. simpl in *. by subst.
  - apply safe_ret. by intros w _ h2 l2 He.
Qed.

(** ** The collection *)

(** A run in which the gate of a Space stays closed. *)
Definition stays_gated s {A} (m : Act B A) : Prop := ∀ w, gated s w → gated s (snd (m w)).

Lemma enter_gated s (w w' : World) o : gated s w → enter w = (o, w') → gated s w'.
Proof.
  unfold enter, gated. destruct (w_sched w) as [|t sched] eqn:Hs; [by intros ? [= <- <-]; rewrite Hs|].
  intros [Ht Hg]%Forall_cons [= _ <-]. cbn [advance w_sched].
  assert (∀ w0 : World, w_sched (foldl env_step w0 (tk_env t)) = w_sched w0) as ->; [|done].
  clear. induction (tk_env t) as [|a l IH]; intros w0; [done|]. cbn [foldl]. rewrite IH.
  destruct a; simpl; repeat case_match; done.
Qed.

Lemma gated_bind s {A C} (m : Act B A) (f : A → Act B C) :
  stays_gated s m → (∀ a, stays_gated s (f a)) → stays_gated s (m ≫= f).
Proof.
  intros Hm Hf w Hw. specialize (Hm w Hw). unfold mbind, M_bind.
  destruct (m w) as [[a|e] w1]; [by apply Hf|done].
Qed.
Lemma gated_ret s {A} (a : A) : stays_gated s (mret a : Act B A).
Proof. by intros w. Qed.
Lemma gated_fold s {A X} (f : X → A → Act B X) acc l :
  (∀ b x, stays_gated s (f b x)) → stays_gated s (fold_m f acc l).
Proof.
  intros Hf. revert acc. induction l as [|x l IH]; intros acc; [apply gated_ret|].
  apply gated_bind; [apply Hf|done].
Qed.
Lemma gated_external s {A} (f : Act B A) :
  (∀ w, w_sched (snd (f w)) = w_sched w) → stays_gated s (external f).
Proof.
  intros Hf w Hw. unfold external. destruct (enter w) as [o w1] eqn:He.
  pose proof (enter_gated _ _ _ _ Hw He) as Hw1. specialize (Hf w1). unfold gated in *.
  destruct o; [by rewrite Hf|done|]. destruct (f w1) as [r w2]. simpl in *. by rewrite Hf.
Qed.

Lemma cleanup_gated s now limit : stays_gated s (cleanupExpiredLeaseDrivenUploads (B:=B) s now limit).
Proof.
  assert (∀ key, stays_gated s (d1_deleteTemporaryUploadObject (B:=B) s key)) as Hdel.
  { intros key. apply gated_bind; [by apply gated_external|]. intros [].
    apply gated_bind; [|intros; apply gated_ret]. apply gated_external. intros w.
    by destruct (delete_cleanup s key (w_db w)) as [[? ?]|]. }
  apply gated_bind; [by apply gated_external|]. intros rows. apply gated_bind.
  - apply gated_fold. intros n [[h g] key]. apply gated_bind; [done|]. intros [].
    apply gated_bind; [|intros; apply gated_ret]. apply gated_external. intros w.
    by destruct (run_batch _ (w_db w)) as [[? ?]|].
  - intros n. cbv zeta. case_match; [apply gated_ret|]. apply gated_bind; [by apply gated_external|].
    intros keys. apply gated_fold. intros n' key. apply gated_bind; [done|]. intros. apply gated_ret.
Qed.

(** What a request does to the world: leases that have not run out are as they
    were, or longer. *)
Record request_step (w w' : World) : Prop := {
  rs_inv : world_inv w';
  rs_clock : w_clock w ≤ w_clock w';
  rs_leases : ∀ s h t, leased_at s h t w → w_clock w' < t → leased_at s h t w'
}.

Lemma request_step_refl w : world_inv w → request_step w w.
Proof. intros Hw. by split; [|lia|]. Qed.
Lemma request_step_trans w1 w2 w3 :
  request_step w1 w2 → request_step w2 w3 → request_step w1 w3.
Proof.
  intros [I1 C1 L1] [I2 C2 L2]. split; [done|lia|]. intros s h t Hl Ht.
  apply L2; [apply L1; [done|lia]|done].
Qed.

Lemma kept_step w w' : world_inv w' → keeps_with Z.le w w' → request_step w w'.
Proof.
  intros Hw Hk. split; [done|apply Hk|]. intros s h t Hl _. by eapply leased_at_stable.
Qed.
Lemma harmless_step {A} (m : Act B A) w : harmless m → world_inv w → request_step w (snd (m w)).
Proof.
  intros Hm Hw. specialize (Hm w Hw I). destruct (m w) as [[a|e] w']; apply kept_step; apply Hm.
Qed.

Lemma collect_step s maxNodes (w : World) :
  world_inv w → gated s w →
  request_step w (snd (collectExpiredUnreferencedNodes s maxNodes Date_now w)).
Proof.
  intros Hw Hg. destruct (collectExpiredUnreferencedNodes s maxNodes Date_now w) as [r w'] eqn:Hr.
  destruct (collect_gc s maxNodes w w' r Hw Hg Hr) as (Hw' & Hgc & Hc). split; [done..|].
  intros s' h t (row & Hrow & Ht) Hlt. simpl in Hlt. destruct (decide (s' = s)) as [->|Hne].
  - destruct (gd_anchored _ _ _ _ Hgc (s, h) row eq_refl Hrow) as (row' & Hrow' & Hl).
    { right. lia. }
    exists row'. simpl. split; [done|lia].
  - pose proof (gd_other _ _ _ _ Hgc (s', h) Hne) as Hb. rewrite Hrow in Hb. simpl in Hb.
    destruct (cas_nodes (w_db w') !! (s', h)) as [row'|] eqn:Hrow'; [|done]. simpl in Hb.
    apply (inj Some), bare_lease in Hb. exists row'. simpl. split; [done|lia].
Qed.

Lemma handleGc_step s request (w : World) :
  world_inv w → gated s w → request_step w (snd (handleGc s request w)).
Proof.
  intros Hw Hg. unfold handleGc.
  destruct (parseMaxNodes (sr_json request)) as [n|e]; [|by apply request_step_refl].
  change (request_step w (snd ((_ ← cleanupExpiredLeaseDrivenUploads s (w_clock w) n;
    r ← collectExpiredUnreferencedNodes s (Some n) Date_now; mret (json_reply (json_gc r))) w))).
  pose proof (harmless_step _ w (cleanup_safe s (w_clock w) n) Hw) as Hs1.
  pose proof (cleanup_gated s (w_clock w) n w Hg) as Hg1. unfold mbind, M_bind.
  destruct (cleanupExpiredLeaseDrivenUploads s (w_clock w) n w) as [[m|e] w1]; [|done].
  simpl in Hs1, Hg1. pose proof (collect_step s (Some n) w1 (rs_inv _ _ Hs1) Hg1) as Hs2.
  destruct (collectExpiredUnreferencedNodes s (Some n) Date_now w1) as [[r|e] w2]; simpl in *;
    by eapply request_step_trans.
Qed.

(** ** Requests *)

Notation fetch := (space_fetch env sign randomUUID random).

Lemma route_step s request (w : World) :
  app_scope s → world_inv w → gated s w →
  request_step w (snd (route env sign randomUUID random s request w)).
Proof.
  intros Hs Hw Hg. unfold route.
  destruct (is_route request "/updateRootRefs" "POST").
  { apply harmless_step; [by apply handleRootRefs_harmless|done]. }
  destruct (is_route request "/rootRefs" "GET").
  { apply harmless_step; [apply handleList_harmless|done]. }
  destruct (is_route request "/lease" "POST").
  { apply harmless_step; [|done]. eapply safe_post; [|by apply handleSpaceLease_safe]. done. }
  destruct (is_route request "/read" "GET"); [apply harmless_step; [apply handleRead_harmless|done]|].
  destruct (is_route request "/metadata" "GET").
  { apply harmless_step; [apply handleMetadata_harmless|done]. }
  destruct (is_route request "/usage" "GET"); [apply harmless_step; [apply handleUsage_harmless|done]|].
  destruct (is_route request "/gc" "POST"); [by apply handleGc_step|by apply request_step_refl].
Qed.

(** The Space a request names has a proper App, and its gate is closed. *)
Definition admitted (request : SpaceRequest) (w : World) : Prop :=
  ∀ scope, physicalScope request = inl scope → app_scope scope ∧ gated scope w.

Lemma fetch_step request (w : World) :
  world_inv w → admitted request w →
  ∃ reply w', fetch request w = (Ok reply, w') ∧ request_step w w'.
Proof.
  intros Hw Ha. unfold space_fetch. destruct (physicalScope request) as [scope|reply] eqn:Hp.
  - destruct (Ha scope Hp) as [Hs Hg]. pose proof (route_step scope request w Hs Hw Hg) as Hr.
    unfold try_catch. destruct (route _ _ _ _ _ _ w) as [[reply|e] w']; by eexists _, w'.
  - exists reply, w. split; [done|by apply request_step_refl].
Qed.

(** A ready answer is the truth. *)
Lemma fetch_ready request scope h l (w w' : World) :
  world_inv w → admitted request w → physicalScope request = inl scope →
  is_route request "/lease" "POST" = true →
  fetch request w = (Ok (json_reply (json_ready h l)), w') →
  leased_at scope h (leaseExpiresAt l) w'.
Proof.
  intros Hw Ha Hp Hroute. destruct (Ha scope Hp) as [Hs _]. unfold space_fetch. rewrite Hp. unfold route.
  assert (sr_pathname request = "/lease") as Hpath.
  { apply andb_true_iff in Hroute as [Hroute _]. by apply bool_decide_eq_true in Hroute. }
  assert (∀ path method, path ≠ "/lease" → is_route request path method = false) as Hother.
  { intros path method Hne. unfold is_route. rewrite Hpath. by rewrite bool_decide_eq_false_2. }
  rewrite (Hother "/updateRootRefs" "POST"), (Hother "/rootRefs" "GET"), Hroute by done.
  unfold try_catch. pose proof (handleSpaceLease_safe scope request Hs w Hw I) as Hsafe.
  destruct (handleSpaceLease _ _ _ _ _ w) as [[reply|e] w1].
  - intros [= -> ->]. destruct Hsafe as (_ & _ & Ht). by destruct (Ht h l eq_refl) as (_ & _ & ?).
  - intros [= He _]. unfold error_reply in He. destruct e; done.
Qed.

(** The world when a request arrives: later, and with what will happen while it is
    served. *)
Definition arrive (delay : Z) (sched : list Tick) (w : World) : World :=
  mkWorld (w_db w) (w_bucket w) (w_clock w + Z.max 0 delay) sched.

Inductive history : World → list (SpaceRequest * Reply) → World → Prop :=
| history_nil w : history w [] w
| history_step w delay sched request reply w1 l w2 :
    admitted request (arrive delay sched w) →
    fetch request (arrive delay sched w) = (Ok reply, w1) →
    history w1 l w2 → history w ((request, reply) :: l) w2.

Lemma arrive_step delay sched w : world_inv w → request_step w (arrive delay sched w).
Proof.
  intros [Hd Hb Hc]. split; [|simpl; lia|done]. split; [done|done|].
  intros k r Hk Hp. apply (Hc k r Hk). unfold protected in *. simpl in *. lia.
Qed.

Lemma history_request_step w l w' : world_inv w → history w l w' → request_step w w'.
Proof.
  intros Hw Hh. induction Hh as [w|w delay sched request reply w1 l w2 Ha Hf _ IH].
  - by apply request_step_refl.
  - pose proof (arrive_step delay sched w Hw) as Harr.
    destruct (fetch_step request _ (rs_inv _ _ Harr) Ha) as (reply' & w1' & Hf' & Hreq).
    rewrite Hf in Hf'. injection Hf' as <- <-.
    eapply request_step_trans; [done|]. eapply request_step_trans; [done|]. by apply IH, Hreq.
Qed.

(** ** Reading what is leased *)

Lemma external_quiet {A} (f : Act B A) (w : World) : w_sched w = [] → external f w = f w.
Proof. intros Hs. unfold external, enter. rewrite Hs. by destruct (f w). Qed.
Lemma d1_read_quiet {A} (q : Db → A) (w : World) :
  w_sched w = [] → d1_read q w = (Ok (q (w_db w)), w).
Proof. intros Hs. unfold d1_read. by rewrite external_quiet. Qed.

Lemma read_available s h t (w : World) ct hs content :
  collision_free h → node_of h ct hs content → world_inv w →
  leased_at s h t w → w_clock w < t → w_sched w = [] →
  ∃ body, concat body = content
    ∧ readNodeContent s h None w
      = (Ok (Some (mkContentStream body ct (blen content) (hex_of <$> hs) None)), w).
Proof.
  intros Hcf Hn Hw (r & Hr & Ht) Hlt Hs.
  destruct (row_describes _ _ _ _ Hw Hr) as (hs' & content' & Hn' & Hsz & Hrefs).
  destruct (node_of_unique _ _ _ _ _ _ _ Hcf Hn Hn') as (-> & -> & ->).
  destruct (wi_content _ Hw (s, h) r Hr) as [o Ho]. { right; right. lia. }
  pose proof (ri_keys _ (di_refs _ (wi_db _ Hw)) _ _ Hr) as Hok.
  pose proof (wi_bucket _ Hw (s, h) o Hok Ho) as Hh. pose proof Hn' as (Hct & Hhs & Hlim & He).
  pose proof (Hcf _ _ Hh He) as Hbody. unfold object_at in Ho.
  set (base := HEADER_SIZE + blen (TextEncoder_encode (content_type r)) + Z.of_nat (length hs') * HASH_SIZE).
  exists (r2_chunks (w_bucket w) (slice (base + 0) (base + 0 + blen content') (obj_body o))). split.
  - rewrite r2_chunks_concat, Hbody. unfold base. rewrite slice_encoded by (done || unfold blen; lia).
    apply slice_all.
  - assert (d1_readNode s h w = (Ok (Some (read_of_row r)), w)) as E1.
    { unfold d1_readNode. rewrite d1_read_quiet by done. by rewrite Hr. }
    assert (d1_readOrderedRefs s h w = (Ok (hex_of <$> hs'), w)) as E2.
    { unfold d1_readOrderedRefs. rewrite d1_read_quiet by done. by rewrite Hrefs. }
    assert (d1_readCanonicalRange s h (base + 0) (blen content') w
      = (Ok (Some (r2_chunks (w_bucket w) (slice (base + 0) (base + 0 + blen content') (obj_body o)))), w)) as E3.
    { unfold d1_readCanonicalRange, r2_read_range. rewrite external_quiet by done. unfold gets.
      by rewrite Ho. }
    unfold readNodeContent. cbn [readNode readOrderedRefs readCanonicalRange d1_NodeReadRepository].
    unfold mbind, M_bind. rewrite E1. cbn [nr_contentSize nr_contentType read_of_row]. rewrite E2.
    unfold lift. cbn [parseNodeContentRange]. rewrite length_fmap, Hsz. fold base. by rewrite E3.
Qed.

(** The headers of a whole node. *)
Definition content_headers (ct refs : string) (content : bytes) : list (string * string) :=
  [("Accept-Ranges", "bytes"); ("Content-Length", show (blen content)); ("Content-Type", ct);
   (CasNodeRefsHeader, refs)].

Lemma node_refs_header h ct hs content :
  node_of h ct hs content → refs_invalid (hex_of <$> hs) = false.
Proof.
  intros (_ & Hhs & Hlim & _). apply refs_invalid_false. rewrite length_fmap. split.
  - destruct Hlim as (_ & _ & _ & [_ Hrefs] & _). exact Hrefs.
  - apply Forall_fmap. eapply Forall_impl; [exact Hhs|]. intros raw Hraw. by apply is_hash_hex_of.
Qed.

Lemma read_route scope request :
  is_route request "/read" "GET" = true →
  route env sign randomUUID random scope request = handleRead scope request.
Proof.
  intros Hr. assert (sr_pathname request = "/read") as Hpath.
  { apply andb_true_iff in Hr as [Hr _]. by apply bool_decide_eq_true in Hr. }
  assert (∀ path method, path ≠ "/read" → is_route request path method = false) as Hother.
  { intros path method Hne. unfold is_route. rewrite Hpath. by rewrite bool_decide_eq_false_2. }
  unfold route. rewrite (Hother "/updateRootRefs" "POST"), (Hother "/rootRefs" "GET"),
    (Hother "/lease" "POST") by done. by rewrite Hr.
Qed.

Lemma handleRead_whole scope request h ct hs content body (w w' : World) refs :
  sr_header request "X-CAS-Hash" = Some h → sr_header request "Range" = None →
  strlen h =? 0 = false →
  readNodeContent scope h None w
    = (Ok (Some (mkContentStream body ct (blen content) (hex_of <$> hs) None)), w') →
  formatCasNodeRefsHeader (hex_of <$> hs) = Ok refs →
  handleRead scope request w = (Ok (ContentReply 200 (content_headers ct refs content) body), w').
Proof.
  intros Hhash Hrange Hlen Hrun Hrefs. unfold handleRead, requireNodeHeader. rewrite Hhash, Hlen.
  rewrite Hrange. unfold mbind, M_bind. simpl lift. unfold lift. rewrite Hrun.
  unfold content_reply. cbn [cs_refs]. by rewrite Hrefs.
Qed.

(** A node answered ready, and a read of it while its lease runs. *)
Lemma read_after_ready scope hash lease request read w l w' delay ct hs content :
  collision_free hash → node_of hash ct hs content → world_inv w →
  physicalScope request = inl scope → is_route request "/lease" "POST" = true →
  history w ((request, json_reply (json_ready hash lease)) :: l) w' →
  physicalScope read = inl scope → is_route read "/read" "GET" = true →
  sr_header read "X-CAS-Hash" = Some hash → sr_header read "Range" = None →
  w_clock w' + Z.max 0 delay < leaseExpiresAt lease →
  ∃ refs body, fst (fetch read (arrive delay [] w'))
      = Ok (ContentReply 200 (content_headers ct refs content) body)
    ∧ concat body = content ∧ parseCasNodeRefsHeader (Some refs) = Ok (hex_of <$> hs).
Proof.
  intros Hcf Hn Hw Hp Hroute Hh Hpr Hread Hhash Hrange Hlt.
  assert (world_inv w' ∧ leased_at scope hash (leaseExpiresAt lease) w') as [Hw' Hl].
  { inversion Hh as [|? d sched ? ? w1 ? ? Ha Hf Hrest]; subst.
    pose proof (arrive_step d sched w Hw) as Harr. pose proof (rs_inv _ _ Harr) as Hw0.
    pose proof (fetch_ready _ _ _ _ _ _ Hw0 Ha Hp Hroute Hf) as Hl.
    destruct (fetch_step _ _ Hw0 Ha) as (reply & w1' & Hf' & Hs1). rewrite Hf in Hf'.
    injection Hf' as <- <-. pose proof (history_request_step _ _ _ (rs_inv _ _ Hs1) Hrest) as Hs2.
    split; [apply Hs2|]. apply (rs_leases _ _ Hs2); [done|]. lia. }
  destruct (read_available scope hash (leaseExpiresAt lease) (arrive delay [] w') ct hs content)
    as (body & Hbody & Hrun); [done..|by apply (arrive_step delay [] w')|done|done|done|].
  destruct (format_parse (hex_of <$> hs) (node_refs_header _ _ _ _ Hn)) as (refs & Hr1 & Hr2).
  assert (strlen hash =? 0 = false) as Hlen.
  { destruct Hl as (r & Hr & _). destruct (ri_keys _ (di_refs _ (wi_db _ Hw')) _ _ Hr) as [_ Hk].
    apply andb_true_iff in Hk as [Hk%Z.eqb_eq _]. apply Z.eqb_neq. simpl in Hk. rewrite Hk. done. }
  exists refs, body. split_and!; [|done|done].
  apply (f_equal fst (y := (Ok (ContentReply 200 (content_headers ct refs content) body), arrive delay [] w'))).
  unfold space_fetch. rewrite Hpr. rewrite (read_route scope read Hread). unfold try_catch.
  by rewrite (handleRead_whole scope read hash ct hs content body _ _ refs Hhash Hrange Hlen Hrun Hr1).
Qed.

(** C1: what the service calls ready can be read for as long as it says. After
    a lease request for a hash was answered ready, whatever requests follow, of
    this and of other Spaces, collections of garbage included, whatever calls are
    refused or lost while they are served, and whatever Root Refs other Spaces
    commit meanwhile: a read of the hash that arrives before the lease ran out
    (and whose own calls are served) answers 200 with exactly the content, the
    content type and the references of the node the hash names. *)
Theorem ready_node_readable scope hash lease request read w l w' delay ct hs content :
  collision_free hash → node_of hash ct hs content → world_inv w →
  physicalScope request = inl scope → is_route request "/lease" "POST" = true →
  history w ((request, json_reply (json_ready hash lease)) :: l) w' →
  physicalScope read = inl scope → is_route read "/read" "GET" = true →
  sr_header read "X-CAS-Hash" = Some hash → sr_header read "Range" = None →
  w_clock w' + Z.max 0 delay < leaseExpiresAt lease →
  ∃ refs body, fst (fetch read (arrive delay [] w'))
      = Ok (ContentReply 200 (content_headers ct refs content) body)
    ∧ concat body = content ∧ parseCasNodeRefsHeader (Some refs) = Ok (hex_of <$> hs).
Proof. apply read_after_ready. Qed.
End service.
