(* ===== verification/SpaceActor.v ===== *)
(** From a public request to a Space: matching, authorization and dispatch, of
    [packages/service/src/actor.ts]. The App administration plane is left out. *)
From Stdlib Require Import Ascii.
From S2P Require Import Prelude Js JsString JsonText Errors Uri SpaceId SpaceRoutes AppSpaceAuth.
From S2P Require Import DoNames Http DomainDo SpaceDo.

Definition RETIRED_LEASE_HEADERS : list string :=
  ["X-CAS-Lease-Duration"; "X-CAS-Upload-Length"; "X-CAS-Upload-Id"].

(** A public request: its URL, method, headers and the text of its body. *)
Record PublicRequest := mkPublic {
  pr_method : string;
  pr_url : Url;
  pr_header : string → option string;
  pr_text : string
}.

(** A header value as [Headers] keeps it: without white space at its ends, and a
    [TypeError] for what no header may hold. *)
Definition http_white (c : Z) : bool := (c =? 9) || (c =? 10) || (c =? 13) || (c =? 32).
Fixpoint drop_white (l : Points) : Points :=
  match l with
  | c :: r => if http_white c then drop_white r else l
  | [] => []
  end.
Definition strip_white (l : Points) : Points := rev (drop_white (rev (drop_white l))).
Definition header_value (l : Points) : result exn string :=
  let v := strip_white l in
  if existsb (λ c, (255 <? c) || (c =? 0) || (c =? 10) || (c =? 13)) v
  then Throw (TypeError "Invalid header value")
  else Ok (string_of_codes v).

(** [canonicalActorKey(appId, component)]. *)
Definition canonicalActorKey (appId component : Points) : result exn (list ascii) :=
  _ ← throw_if (bool_decide (appId = []) || bool_decide (component = []))
        (TypeError "actor key parts must not be empty");
  match encodeURIComponent appId, encodeURIComponent component with
  | Some a, Some c => Ok (a ++ "|"%char :: c)
  | _, _ => Throw (Error "URIError: URI malformed")
  end.

(** What a call becomes: an answer at once, or a request for the actor of a key. *)
Inductive Dispatch :=
| Answer (reply : Reply)
| Forward (key : list ascii) (request : SpaceRequest).

Definition invalid_request (message : string) : Dispatch :=
  Answer (JsonReply (errorResponse 400 "INVALID_REQUEST" message) []).

(** [new Headers(...)] of a few names. *)
Fixpoint header_of (headers : list (string * string)) (name : string) : option string :=
  match headers with
  | [] => None
  | (n, v) :: headers => if bool_decide (n = name) then Some v else header_of headers name
  end.
Fixpoint headers_of (headers : list (string * Points)) : result exn (list (string * string)) :=
  match headers with
  | [] => Ok []
  | (n, v) :: headers => v ← header_value v; l ← headers_of headers; Ok ((n, v) :: l)
  end.

(** [value.split(";", 1)[0].trim()]. *)
Definition media_type (value : string) : string :=
  match split ";"%char value with
  | first :: _ => of_chars (trim_text (chars first))
  | [] => EmptyString
  end.

(** [dispatchDataRequest(request, route, platform, actorKey, headers)]. *)
Definition forward (key : list ascii) (method pathname : string) (search : string → option string)
    (headers : list (string * Points)) (text : string) : result exn Dispatch :=
  headers ← headers_of headers;
  Ok (Forward key (mkSpaceRequest method pathname search (header_of headers) text)).
Definition no_search (name : string) : option string := None.

Definition dispatchDataRequest (request : PublicRequest) (route : AppSpaceRoute) (key : list ascii)
    (headers : list (string * Points)) : result exn Dispatch :=
  match route with
  | listRootRefsRoute _ _ =>
      forward key "GET" "/rootRefs"
        (λ name, if bool_decide (name ∈ ["limit"; "cursor"]) then head (getAll name (pr_url request)) else None)
        headers EmptyString
  | updateRootRefsRoute _ _ =>
      forward key "POST" "/updateRootRefs" no_search headers (pr_text request)
  | readContent _ _ hash =>
      forward key "GET" "/read" no_search
        (headers ++ ("X-CAS-Hash", hash)
         :: match pr_header request "Range" with
            | Some range => if strlen range =? 0 then [] else [("Range", points range)]
            | None => []
            end) EmptyString
  | readMetadata _ _ hash =>
      forward key "GET" "/metadata" no_search (headers ++ [("X-CAS-Hash", hash)]) EmptyString
  | leaseRoute _ _ hash =>
      if existsb (λ name, bool_decide (is_Some (pr_header request name))) RETIRED_LEASE_HEADERS
      then Ok (invalid_request "Legacy node lease headers are not supported by App/Space")
      else if negb (bool_decide (media_type <$> pr_header request "Content-Type" = Some "application/json"))
      then Ok (invalid_request "App/Space node lease requires application/json")
      else forward key "POST" "/lease" no_search
             (headers ++ [("X-CAS-Hash", hash); ("Content-Type", points "application/json")])
             (pr_text request)
  | usage _ _ => forward key "GET" "/usage" no_search headers EmptyString
  | gc _ _ => forward key "POST" "/gc" no_search headers (pr_text request)
  end.

(** [dispatchSpaceRequest(context, call)]. *)
Definition dispatchSpaceRequest (request : PublicRequest) (route : AppSpaceRoute)
    (call : VerifiedAppSpaceCall) : result exn Dispatch :=
  key ← canonicalActorKey (points (vc_appId call)) (points (vc_spaceId call));
  dispatchDataRequest request route key
    [("X-CAS-App-Id", points (vc_appId call)); ("X-CAS-Space-Id", points (vc_spaceId call));
     ("X-CAS-Route-Family", points "app-space")].

(** [spaceAuthorizationErrorResponse(error)]. *)
Definition spaceAuthorizationErrorResponse (error : exn) : Reply :=
  match error with
  | ECapability e => JsonReply (errorResponse (cae_status e) (cae_code e) (cae_message e)) []
  | _ => JsonReply (mkResponse 401 (JObj [("error", JStr "CAS capability validation failed")])) []
  end.

(** The Space plane of the service's [fetch]: match, authorize, dispatch, and let the
    actor answer. A rejection of [fetch] is an exception. *)
Section service.
Context {St : Type}.
Notation Run := (M exn St).
Variables (authorizeSpaceRequest : PublicRequest → AppSpaceRoute → Run VerifiedAppSpaceCall)
  (actor_fetch : list ascii → SpaceRequest → Run Reply)
  (otherwise : PublicRequest → Run Reply).

Definition service_fetch (request : PublicRequest) : Run Reply :=
  match matchAppSpaceRoute (pr_method request) (Some (pr_url request)) with
  | None => otherwise request
  | Some route =>
      call ← try_catch (c ← authorizeSpaceRequest request route; mret (inl c))
               (λ error, mret (inr (spaceAuthorizationErrorResponse error)));
      match call with
      | inr reply => mret reply
      | inl call =>
          d ← lift (dispatchSpaceRequest request route call);
          match d with
          | Answer reply => mret reply
          | Forward key r => actor_fetch key r
          end
      end
  end.
End service.

(** * What reaches a Space *)

(** The permission that governs a request of a Space's actor, by its route. *)
Definition space_permission (r : SpaceRequest) : option SpaceCapabilityPermissionKind :=
  if is_route r "/updateRootRefs" "POST" then Some root_refs_update
  else if is_route r "/rootRefs" "GET" then Some root_refs_read
  else if is_route r "/lease" "POST" then Some nodes_lease
  else if is_route r "/read" "GET" then Some nodes_read
  else if is_route r "/metadata" "GET" then Some nodes_read
  else if is_route r "/usage" "GET" then Some usage_read
  else if is_route r "/gc" "POST" then Some gc_execute
  else None.

(** A text that a header keeps as it is. *)
Definition header_clean (s : string) : Prop := header_value (points s) = Ok s.

Lemma string_of_points s : string_of_codes (points s) = s.
Proof. apply string_of_codes_chars. Qed.

Lemma header_value_clean s :
  s ≠ EmptyString → Forall (λ c, 33 ≤ code c) (chars s) → header_clean s.
Proof.
  intros _ Hs. unfold header_clean, header_value.
  assert (∀ l, Forall (λ c, 33 ≤ c) l → drop_white l = l) as Hd.
  { intros l Hl. destruct Hl as [|c l Hc _]; [done|]. simpl. unfold http_white.
    by rewrite !(proj2 (Z.eqb_neq _ _)) by lia. }
  assert (Forall (λ c, 33 ≤ c) (points s)) as Hp by by apply Forall_fmap.
  assert (strip_white (points s) = points s) as ->.
  { unfold strip_white. rewrite (Hd (points s)) by done.
    rewrite Hd by (by apply Forall_rev). apply rev_involutive. }
  destruct (existsb _ _) eqn:He; [|by rewrite string_of_points].
  apply existsb_exists in He as (c & Hc & Hbad). apply list_elem_of_In, list_elem_of_fmap in Hc as (x & -> & Hx).
  rewrite Forall_forall in Hs. specialize (Hs x Hx). pose proof (code_range x). lia.
Qed.

(** Identifiers of Spaces are never changed by a header. *)
Lemma space_clean s : validateSpaceId s = None → s ≠ EmptyString ∧ header_clean s.
Proof.
  intros [_ Hp]%valid_spec. apply pattern_path in Hp as (segments & [Hne Hs] & ->).
  assert (path segments ≠ EmptyString) as Hpath by by destruct segments.
  split; [done|]. apply header_value_clean; [done|]. rewrite chars_path.
  apply Forall_concat, Forall_fmap. eapply Forall_impl; [exact Hs|]. intros l Hl. simpl.
  apply Forall_cons. split; [by vm_compute|]. unfold is_segment in Hl.
  apply andb_true_iff in Hl as [_ Hl]. apply Forall_forall. intros c Hc. rewrite forallb_forall in Hl.
  apply list_elem_of_In, Hl in Hc. revert Hc. destruct c as [[] [] [] [] [] [] [] []]; vm_compute; by intros.
Qed.

(** The headers of every forwarded request begin with its scope. *)
Lemma headers_scope app space more headers name :
  header_clean app → header_clean space →
  headers_of (("X-CAS-App-Id", points app) :: ("X-CAS-Space-Id", points space) :: more) = Ok headers →
  ∃ more', headers_of more = Ok more'
    ∧ header_of headers name
      = if bool_decide ("X-CAS-App-Id" = name) then Some app
        else if bool_decide ("X-CAS-Space-Id" = name) then Some space else header_of more' name.
Proof.
  intros Ha Hs. cbn [headers_of]. rewrite Ha, Hs. cbn [mbind result_bind].
  destruct (headers_of more) as [more'|]; [|done]. cbn [mbind result_bind]. intros [= <-]. by exists more'.
Qed.
Lemma header_of_app name l1 l2 :
  header_of (l1 ++ l2) name = match header_of l1 name with Some v => Some v | None => header_of l2 name end.
Proof. induction l1 as [|[n v] l1 IH]; simpl; [done|]. by case_bool_decide. Qed.
Lemma headers_of_names l l' : headers_of l = Ok l' → fst <$> l' = fst <$> l.
Proof.
  revert l'. induction l as [|[n p] l IH]; intros l'; simpl; [by intros [= <-]|].
  destruct (header_value p) as [v|]; [|done]. cbn [mbind result_bind].
  destruct (headers_of l) as [r|]; [|done]. intros [= <-]. rewrite fmap_cons. f_equal. by apply IH.
Qed.
Lemma header_of_none l name : name ∉ (fst <$> l) → header_of l name = None.
Proof.
  induction l as [|[n v] l IH]; [done|]. rewrite fmap_cons, not_elem_of_cons. intros [Hn Hl]. simpl.
  rewrite bool_decide_eq_false_2 by (by intros ->). by apply IH.
Qed.

(** What a forwarded request keeps of its call. *)
Record scoped (app space : string) (hash : option Points) (key : list ascii) (r : SpaceRequest) : Prop := {
  scoped_scope : physicalScope r = inl (app, space);
  scoped_key : canonicalComposite (points app) (points space) = Ok key;
  scoped_hash : ∀ h, hash = Some h →
    ∃ v, header_value h = Ok v ∧ sr_header r "X-CAS-Hash" = Some v
}.

Lemma forward_scoped app space hash key method pathname search more text d :
  header_clean app → header_clean space → strlen app ≠ 0 → strlen space ≠ 0 →
  canonicalComposite (points app) (points space) = Ok key →
  "X-CAS-Stack-Id" ∉ (fst <$> more) → "X-CAS-Tenant-Id" ∉ (fst <$> more) →
  (∀ h, hash = Some h → ∃ rest, more = ("X-CAS-Route-Family", points "app-space") :: ("X-CAS-Hash", h) :: rest) →
  forward key method pathname search
    (("X-CAS-App-Id", points app) :: ("X-CAS-Space-Id", points space) :: more) text = Ok d →
  ∃ r, d = Forward key r ∧ scoped app space hash key r
       ∧ sr_pathname r = pathname ∧ sr_method r = method ∧ sr_text r = text.
Proof.
  intros Ha Hs Hna Hns Hkey Hst Hte Hhash. unfold forward. destruct (headers_of _) as [l|] eqn:Hl; [|done].
  cbn [mbind result_bind]. intros [= <-]. eexists. split; [done|]. split; [|done]. split; [|done|].
  - destruct (headers_scope _ _ _ _ EmptyString Ha Hs Hl) as (more' & Hm & _).
    assert (∀ name, header_of l name = if bool_decide ("X-CAS-App-Id" = name) then Some app
        else if bool_decide ("X-CAS-Space-Id" = name) then Some space else header_of more' name) as Hget.
    { intros name. destruct (headers_scope _ _ _ _ name Ha Hs Hl) as (m & Hm' & Hg).
      rewrite Hm in Hm'. by injection Hm' as <-. }
    pose proof (headers_of_names _ _ Hm) as Hn. rewrite <- Hn in Hst, Hte.
    assert (header_of l "X-CAS-Stack-Id" = None) as H1 by (rewrite Hget; exact (header_of_none _ _ Hst)).
    assert (header_of l "X-CAS-Tenant-Id" = None) as H2 by (rewrite Hget; exact (header_of_none _ _ Hte)).
    assert (header_of l "X-CAS-App-Id" = Some app) as H3 by (rewrite Hget; reflexivity).
    assert (header_of l "X-CAS-Space-Id" = Some space) as H4 by (rewrite Hget; reflexivity).
    unfold physicalScope. cbn [sr_header]. rewrite H1, H2, H3, H4.
    by rewrite !(proj2 (Z.eqb_neq _ _)).
  - intros h Hh. destruct (Hhash h Hh) as (rest & ->). cbn [headers_of] in Hl. revert Hl.
    rewrite Ha, Hs. cbn [mbind result_bind].
    change (header_value (points "app-space")) with (Ok (E := exn) "app-space"). cbn [mbind result_bind].
    destruct (header_value h) as [v|]; [|done]. cbn [mbind result_bind].
    destruct (headers_of rest) as [rest'|]; [|done]. cbn [mbind result_bind]. intros [= <-].
    exists v. split; [done|]. reflexivity.
Qed.

(** The two names of an actor agree. *)
Lemma actorKey_composite a c key : canonicalActorKey a c = Ok key → canonicalComposite a c = Ok key.
Proof. unfold canonicalActorKey, canonicalComposite. by destruct (_ || _). Qed.


Module ActorExample.
Definition route : AppSpaceRoute := leaseRoute "app" "/team/drive" (points "ab").
Definition request : PublicRequest :=
  mkPublic "POST" (mkUrl "/v1/cas/nodes/ab/lease" [("appId", "app"); ("spaceId", "/team/drive")])
    (header_of [("Content-Type", "application/json; charset=utf-8"); ("X-CAS-Space-Id", "/other")])
    "{}".
End ActorExample.

