(* ===== verification/AppGc.v ===== *)
(** Garbage collection and usage of an App over its Spaces, of
    [packages/service/src/app-gc.ts] and [app-usage.ts] with their adapters in
    [packages/service-cloudflare/src/]. Spaces are collected by requests to their
    actors. *)
From Stdlib Require Import Ascii.
From stdpp Require Import sorting.
From S2P Require Import Prelude Js JsString JsonText MapSum Errors Uri Store World.
From S2P Require Import NodeLeaseD1 SpaceRoutes DomainDo SpaceDo SpaceActor.

Definition DEFAULT_APP_GC_MAX_SPACES : Z := 20.
Definition DEFAULT_APP_GC_MAX_NODES_PER_SPACE : Z := 100.

Definition app_gc_error (code message : string) : exn := EAppGc (mkAppGcError code message).
Definition unavailable (message : string) : exn := app_gc_error "SERVICE_UNAVAILABLE" message.

Record AppGcResult := mkAppGcResult {
  ag_spacesExamined : Z;
  ag_spacesWithDeletions : Z;
  ag_nodesExamined : Z;
  ag_nodesDeleted : Z;
  ag_reclaimedContentBytes : Z;
  ag_nextCursor : option string
}.

(** * Cursors *)

Definition json_of_gc_cursor (appId lastSpaceId : string) : Json :=
  JObj [("version", JInt 1); ("appId", JStr appId); ("lastSpaceId", JStr lastSpaceId)].
(** [encodeAppGcCursor(cursor)] and [decodeAppGcCursor(value)]. *)
Definition encodeAppGcCursor (appId lastSpaceId : string) : string :=
  of_chars (btoa (JSON_stringify (json_of_gc_cursor appId lastSpaceId))).
Definition gc_cursor_of_json (j : Json) : option (string * string) :=
  match j with
  | JObj m =>
      match find_member "version" m, find_member "appId" m, find_member "lastSpaceId" m with
      | Some (JInt version), Some (JStr app), Some (JStr last) =>
          if negb (version =? 1) || (strlen app =? 0) || (strlen last =? 0) then None
          else Some (app, last)
      | _, _, _ => None
      end
  | _ => None
  end.
Definition decodeAppGcCursor (value : string) : option (string * string) :=
  text ← atob (chars value); j ← JSON_parse text; gc_cursor_of_json j.

(** * The answers of a Space *)

Definition reply_status (r : Reply) : Z :=
  match r with JsonReply r _ => rs_status r | ContentReply status _ _ => status end.
(** [await response.json()]; [None] for an exception. *)
Definition reply_json (r : Reply) : option Json :=
  match r with
  | JsonReply r _ => JSON_parse (JSON_stringify (rs_body r))
  | ContentReply _ _ body => JSON_parse (chars (string_of_codes (TextDecoder_decode (concat body))))
  end.

Record SpaceGc := mkSpaceGc { sg_examined : Z; sg_deleted : Z; sg_reclaimed : Z }.

(** [CasGcResultSchema.safeParse(body)]: safe non-negative integers. *)
Definition count_member (name : string) (m : list (string * Json)) : option Z :=
  match find_member name m with
  | Some (JInt n) => if isSafeInteger n && (0 <=? n) then Some n else None
  | _ => None
  end.
Definition CasGcResultSchema (body : Json) : option SpaceGc :=
  match body with
  | JObj m =>
      examined ← count_member "examined" m;
      deleted ← count_member "deleted" m;
      reclaimed ← count_member "reclaimedContentBytes" m;
      Some (mkSpaceGc examined deleted reclaimed)
  | _ => None
  end.

(** The checks of [collectSpaceGarbage] on one answer. *)
Definition parseSpaceGc (requested : Z) (response : Reply) : result exn SpaceGc :=
  _ ← throw_if (negb ((200 <=? reply_status response) && (reply_status response <=? 299)))
        (unavailable ("Space garbage collection failed with HTTP " +:+ show (reply_status response)));
  match reply_json response with
  | None => Throw (unavailable "Space garbage collection returned invalid JSON")
  | Some body =>
      match CasGcResultSchema body with
      | None => Throw (unavailable "Space garbage collection returned an invalid result")
      | Some parsed =>
          _ ← throw_if ((requested <? sg_examined parsed) || (sg_examined parsed <? sg_deleted parsed))
                (unavailable "Space garbage collection returned an invalid result");
          Ok parsed
      end
  end.

(** * The coordinator *)

Class AppGcSpaceRepository (W : Type) :=
  listUsageBearingSpaceIds : string → string → Z → M exn W (list string).

(** [validateSpacePage(rows, afterSpaceId, maximumRows)]. *)
Fixpoint validateOrder (previous : string) (rows : list string) : result exn unit :=
  match rows with
  | [] => Ok tt
  | spaceId :: rows =>
      _ ← throw_if ((strlen spaceId =? 0) || negb (str_ltb previous spaceId))
            (unavailable "App garbage-collection Space page was not ordered");
      validateOrder spaceId rows
  end.
Definition validateSpacePage (rows : list string) (afterSpaceId : string) (maximumRows : Z)
    : result exn unit :=
  _ ← throw_if (maximumRows <? Z.of_nat (length rows))
        (unavailable "App garbage-collection Space page exceeded its limit");
  validateOrder afterSpaceId rows.

Section coordinator.
Context {W : Type} `{!AppGcSpaceRepository W}.
Notation Run := (M exn W).
(** [spaceActors.fetch(key, request)]. *)
Variable actor_fetch : list ascii → SpaceRequest → Run Reply.

Definition gc_request (app space : string) (requested : Z) : SpaceRequest :=
  mkSpaceRequest "POST" "/gc" no_search
    (header_of [("Content-Type", "application/json"); ("X-CAS-App-Id", app);
                ("X-CAS-Space-Id", space); ("X-CAS-Route-Family", "app-admin-gc")])
    (of_chars (JSON_stringify (JObj [("maxNodes", JInt requested)]))).

Definition add_gc (a b : SpaceGc) : SpaceGc :=
  mkSpaceGc (sg_examined a + sg_examined b) (sg_deleted a + sg_deleted b) (sg_reclaimed a + sg_reclaimed b).

(** The loop of [collectSpaceGarbage]; every turn but the last examines a node at
    least, so that [remaining] bounds the turns. *)
Fixpoint collectSpace_loop (fuel : nat) (app space : string) (remaining : Z) (acc : SpaceGc) : Run SpaceGc :=
  match fuel with
  | O => mret acc
  | S fuel =>
      if remaining <=? 0 then mret acc
      else
        key ← lift (canonicalActorKey (points app) (points space));
        response ← actor_fetch key (gc_request app space remaining);
        parsed ← lift (parseSpaceGc remaining response);
        let acc := add_gc acc parsed in
        if (sg_examined parsed =? 0) || (sg_deleted parsed =? 0) then mret acc
        else collectSpace_loop fuel app space (remaining - sg_examined parsed) acc
  end.
Definition collectSpaceGarbage (app space : string) (maxNodes : Z) : Run SpaceGc :=
  collectSpace_loop (S (Z.to_nat maxNodes)) app space maxNodes (mkSpaceGc 0 0 0).

(** One turn of the loop over Spaces: the Spaces with deletions, and the totals. *)
Definition collectOne (app : string) (maxNodesPerSpace : Z) (acc : Z * SpaceGc) (space : string)
    : Run (Z * SpaceGc) :=
  result ← collectSpaceGarbage app space maxNodesPerSpace;
  let totals := add_gc (snd acc) result in
  let withDeletions := if 0 <? sg_deleted result then fst acc + 1 else fst acc in
  _ ← lift (throw_if (negb (isSafeInteger (sg_examined totals) && isSafeInteger (sg_deleted totals)
                            && isSafeInteger (sg_reclaimed totals)))
              (unavailable "App garbage-collection totals exceeded safe integer limits"));
  mret (withDeletions, totals).

(** [runAppGarbageCollection(input)]. *)
Definition runAppGarbageCollection (app : string) (cursor : option string)
    (maxSpaces maxNodesPerSpace : option Z) : Run AppGcResult :=
  let maxSpaces := default DEFAULT_APP_GC_MAX_SPACES maxSpaces in
  let maxNodesPerSpace := default DEFAULT_APP_GC_MAX_NODES_PER_SPACE maxNodesPerSpace in
  _ ← lift (throw_if (negb (isSafeInteger maxSpaces) || (maxSpaces <=? 0))
              (TypeError "maxSpaces must be a positive safe integer"));
  _ ← lift (throw_if (negb (isSafeInteger maxNodesPerSpace) || (maxNodesPerSpace <=? 0))
              (TypeError "maxNodesPerSpace must be a positive safe integer"));
  _ ← lift (throw_if (strlen app =? 0) (TypeError "appId must not be empty"));
  let invalid := app_gc_error "INVALID_CURSOR" "The garbage-collection cursor is invalid" in
  afterSpaceId ← lift (match cursor with
                       | None => Ok EmptyString
                       | Some text =>
                           match decodeAppGcCursor text with
                           | Some (app', last) => if bool_decide (app' = app) then Ok last else Throw invalid
                           | None => Throw invalid
                           end
                       end);
  rows ← listUsageBearingSpaceIds app afterSpaceId (maxSpaces + 1);
  _ ← lift (validateSpacePage rows afterSpaceId (maxSpaces + 1));
  let spaces := take (Z.to_nat maxSpaces) rows in
  '(withDeletions, totals) ← fold_m (collectOne app maxNodesPerSpace) (0, mkSpaceGc 0 0 0) spaces;
  mret (mkAppGcResult (Z.of_nat (length spaces)) withDeletions (sg_examined totals) (sg_deleted totals)
          (sg_reclaimed totals)
          (if maxSpaces <? Z.of_nat (length rows) then
             match last spaces with
             | Some l => Some (encodeAppGcCursor app l)
             | None => None
             end
           else None)).
End coordinator.

(** * Usage *)

Class AppUsageRepository (W : Type) := readAppUsageRow : string → M exn W Usage.

(** [readAppUsage(input)]; the answer keeps the columns but the last. *)
Definition readAppUsage {W} `{!AppUsageRepository W} (app : string) : M exn W Usage :=
  projection ← readAppUsageRow app;
  if 0 <? unobserved_node_count projection then throw EAppUsageUnavailable else mret projection.

(** * The adapters *)

Section adapters.
Context {B : Type} `{!R2Bucket B}.

Definition string_le (a b : string) : Prop := str_ltb b a = false.
#[local] Instance string_le_dec : RelDecision string_le.
Proof. intros a b. unfold string_le. apply _. Defined.

(** [SELECT space_id ... WHERE ... ORDER BY space_id LIMIT ?]. *)
Definition usage_bearing (app after : string) (d : Db) : list string :=
  merge_sort string_le ((λ e : AppSpaceScope * UsageRow, spaceId (fst e)) <$>
    filter (λ e : AppSpaceScope * UsageRow, appId (fst e) = app
              ∧ (0 < node_count (us_usage (snd e)) ∨ 0 < reserved_bytes (us_usage (snd e)))
              ∧ str_ltb after (spaceId (fst e)) = true)
      (map_to_list (cas_space_usage d))).
#[export] Instance CloudflareAppGcRepository : AppGcSpaceRepository (World B) := λ app after limit,
  d1_read (λ d, take (Z.to_nat limit) (usage_bearing app after d)).

(** The sums of [APP_USAGE_QUERY]. *)
Definition app_usage (app : string) (d : Db) : Usage :=
  msum (λ _, us_usage) (filter (λ e : AppSpaceScope * UsageRow, appId (fst e) = app) (cas_space_usage d)).
#[export] Instance CloudflareAppUsageRepository : AppUsageRepository (World B) := λ app,
  d1_read (app_usage app).
End adapters.
