(* ===== verification/AppGcSafe.v ===== *)
(** Collecting an App: the loop over one Space ends, the totals are within what was
    asked for, the whole is a history of collection requests of the App's Spaces,
    and the usage reported of an App is that of its rows. *)
From Stdlib Require Import Ascii.
From stdpp Require Import sorting.
From S2P Require Import Prelude Js JsString JsonText MapSum Errors Safe Codec Uri Store.
From S2P Require Import SpaceCommits World.
From S2P Require Import DoNames UsageInv RefInv NodeLeaseD1 Gc WorldInv LeaseInv DomainDo SpaceDo.
From S2P Require Import SpaceSafe.
From S2P Require Import SpaceRoutes SpaceActor AppGc.

(** * One answer *)

Lemma parseSpaceGc_inv requested response r :
  parseSpaceGc requested response = Ok r →
  0 ≤ sg_deleted r ≤ sg_examined r ∧ sg_examined r ≤ requested ∧ 0 ≤ sg_reclaimed r.
Proof.
  unfold parseSpaceGc. destruct (negb _); [done|]. cbn [throw_if mbind result_bind].
  destruct (reply_json response) as [[| | | | | |m]|]; try done.
  destruct (CasGcResultSchema (JObj m)) as [p|] eqn:Hp; [|done].
  destruct (_ || _) eqn:Hc; [done|]. cbn [throw_if mbind result_bind]. intros [= <-].
  apply orb_false_iff in Hc as [H1%Z.ltb_ge H2%Z.ltb_ge].
  assert (∀ name n, count_member name m = Some n → 0 ≤ n) as Hcount.
  { intros name n. unfold count_member. destruct (find_member name m) as [[| |z| | | |]|]; try done.
    destruct (_ && _) eqn:Hz; [|done]. intros [= <-]. lia. }
  unfold CasGcResultSchema in Hp.
  destruct (count_member "examined" m) as [e|] eqn:He; [|done].
  destruct (count_member "deleted" m) as [d|] eqn:Hd; [|done].
  destruct (count_member "reclaimedContentBytes" m) as [c|] eqn:Hr; [|done].
  injection Hp as <-. simpl in *. apply Hcount in He, Hd, Hr. lia.
Qed.

(** * The loop over one Space *)

Section loop.
Context {W : Type} (actor_fetch : list ascii → SpaceRequest → M exn W Reply).
Notation loop := (collectSpace_loop actor_fetch).

(** More fuel than there are nodes left makes no difference. *)
Lemma collectSpace_fuel app space : ∀ fuel fuel' remaining acc w,
  (Z.to_nat remaining < fuel)%nat → (fuel ≤ fuel')%nat →
  loop fuel' app space remaining acc w = loop fuel app space remaining acc w.
Proof.
  induction fuel as [|fuel IH]; intros fuel' remaining acc w Hf Hle; [lia|].
  destruct fuel' as [|fuel']; [lia|]. cbn [collectSpace_loop].
  destruct (remaining <=? 0) eqn:Hr; [done|]. apply Z.leb_gt in Hr. unfold mbind, M_bind, lift.
  destruct (canonicalActorKey _ _) as [key|e]; [|done]. destruct (actor_fetch _ _ w) as [[response|e] w1]; [|done].
  destruct (parseSpaceGc remaining response) as [parsed|e] eqn:Hp; [|done].
  apply parseSpaceGc_inv in Hp as (Hd & He & _).
  destruct (_ || _) eqn:Hz; [done|]. apply orb_false_iff in Hz as [Hz1%Z.eqb_neq _].
  apply IH; lia.
Qed.

(** C34: the loop over the nodes of one Space always ends: for every budget it is its
    own unrolling, without any bound on the turns. It asks the actor for what is
    left of the budget, and goes on with what the answer leaves of it, unless
    nothing was examined or nothing deleted. *)
Theorem collectSpaceGarbage_unrolls app space remaining acc w :
  let run remaining acc := loop (S (Z.to_nat remaining)) app space remaining acc in
  run remaining acc w
  = (if remaining <=? 0 then mret acc
     else
       key ← lift (canonicalActorKey (points app) (points space));
       response ← actor_fetch key (gc_request app space remaining);
       parsed ← lift (parseSpaceGc remaining response);
       if (sg_examined parsed =? 0) || (sg_deleted parsed =? 0) then mret (add_gc acc parsed)
       else run (remaining - sg_examined parsed) (add_gc acc parsed)) w.
Proof.
  intros run. unfold run at 1. cbn [collectSpace_loop]. destruct (remaining <=? 0) eqn:Hr; [done|].
  apply Z.leb_gt in Hr. unfold mbind, M_bind, lift.
  destruct (canonicalActorKey _ _) as [key|e]; [|done]. destruct (actor_fetch _ _ w) as [[response|e] w1]; [|done].
  destruct (parseSpaceGc remaining response) as [parsed|e] eqn:Hp; [|done].
  apply parseSpaceGc_inv in Hp as (Hd & He & _).
  destruct (_ || _) eqn:Hz; [done|]. apply orb_false_iff in Hz as [Hz1%Z.eqb_neq _].
  apply collectSpace_fuel; lia.
Qed.

(** ** Bounds *)

(** The totals of a part that may examine [n] more nodes. *)
Definition gc_within (a b : SpaceGc) (n : Z) : Prop :=
  sg_examined a ≤ sg_examined b ≤ sg_examined a + n
  ∧ 0 ≤ sg_deleted b - sg_deleted a ≤ sg_examined b - sg_examined a
  ∧ sg_reclaimed a ≤ sg_reclaimed b.
Lemma gc_within_refl a n : 0 ≤ n → gc_within a a n.
Proof. unfold gc_within. lia. Qed.

Lemma collectSpace_within app space fuel : ∀ remaining acc r w w',
  0 ≤ remaining → loop fuel app space remaining acc w = (Ok r, w') → gc_within acc r remaining.
Proof.
  induction fuel as [|fuel IH]; intros remaining acc r w w' Hrem; cbn [collectSpace_loop].
  { intros [= <- _]. by apply gc_within_refl. }
  destruct (remaining <=? 0) eqn:Hr; [intros [= <- _]; by apply gc_within_refl|].
  unfold mbind, M_bind, lift. destruct (canonicalActorKey _ _) as [key|e]; [|done].
  destruct (actor_fetch _ _ w) as [[response|e] w1]; [|done].
  destruct (parseSpaceGc remaining response) as [parsed|e] eqn:Hp; [|done].
  apply parseSpaceGc_inv in Hp as (Hd & He & Hc). destruct (_ || _).
  - intros [= <- _]. unfold gc_within, add_gc. simpl. lia.
  - intros H'. apply IH in H'; [|lia]. unfold gc_within, add_gc in *. simpl in *. lia.
Qed.

Lemma collectOne_within app maxNodes acc space acc' w w' :
  0 ≤ maxNodes → collectOne actor_fetch app maxNodes acc space w = (Ok acc', w') →
  gc_within (snd acc) (snd acc') maxNodes ∧ fst acc ≤ fst acc' ≤ fst acc + 1.
Proof.
  intros Hn. unfold collectOne, collectSpaceGarbage, mbind, M_bind.
  destruct (loop _ _ _ _ _ w) as [[r|e] w1] eqn:Hl; [|done].
  apply collectSpace_within in Hl; [|done]. unfold lift. destruct (throw_if _ _) as [|e]; [|done].
  intros [= <- _]. unfold gc_within, add_gc in *. simpl in *. case_match; lia.
Qed.

Lemma collect_all_within app maxNodes : 0 ≤ maxNodes → ∀ spaces acc acc' w w',
  fold_m (collectOne actor_fetch app maxNodes) acc spaces w = (Ok acc', w') →
  gc_within (snd acc) (snd acc') (Z.of_nat (length spaces) * maxNodes)
  ∧ fst acc ≤ fst acc' ≤ fst acc + Z.of_nat (length spaces).
Proof.
  intros Hn. induction spaces as [|s spaces IH]; intros acc acc' w w'; cbn [fold_m].
  { intros [= <- _]. split; [apply gc_within_refl; simpl; lia|simpl; lia]. }
  unfold mbind, M_bind. destruct (collectOne _ _ _ _ _ w) as [[a|e] w1] eqn:Ho; [|done].
  apply collectOne_within in Ho as [H1 H2]; [|done]. intros [H3 H4]%IH. cbn [length].
  unfold gc_within in *. nia.
Qed.
End loop.

(** * The coordinator *)

Lemma gc_cursor_of_json_of app last :
  gc_cursor_of_json (json_of_gc_cursor app last)
  = if (strlen app =? 0) || (strlen last =? 0) then None else Some (app, last).
Proof. reflexivity. Qed.
Lemma gc_cursor_round_trip app last :
  strlen app ≠ 0 → strlen last ≠ 0 → decodeAppGcCursor (encodeAppGcCursor app last) = Some (app, last).
Proof.
  intros Ha Hl. unfold decodeAppGcCursor, encodeAppGcCursor. rewrite chars_of_chars, base64_round_trip.
  rewrite bind_Some. rewrite JSON_round_trip.
  - rewrite bind_Some, gc_cursor_of_json_of. by rewrite !(proj2 (Z.eqb_neq _ _)).
  - constructor; [|repeat constructor|repeat constructor].
    apply (bool_decide_eq_true_1 _). vm_compute. reflexivity.
Qed.

(** A page that passes the check ascends strictly from its cursor. *)
Definition ascending : list string → Prop := StronglySorted (λ a b, str_ltb a b = true).
Lemma validateOrder_ascending rows : ∀ previous, validateOrder previous rows = Ok tt → ascending (previous :: rows).
Proof.
  induction rows as [|s rows IH]; intros previous; cbn [validateOrder]; [repeat constructor|].
  destruct (strlen s =? 0); [done|]. destruct (str_ltb previous s) eqn:Hlt; [|done].
  cbn [orb negb throw_if mbind result_bind]. intros Hs%IH. constructor; [done|].
  apply StronglySorted_inv in Hs as [_ Hs]. constructor; [done|].
  eapply Forall_impl; [exact Hs|]. cbv beta. intros t Ht. by eapply str_ltb_trans.
Qed.
Lemma validateOrder_nonempty previous rows s : validateOrder previous rows = Ok tt → s ∈ rows → strlen s ≠ 0.
Proof.
  intros Hv Hs. apply validateOrder_ascending, StronglySorted_inv in Hv as [_ Hv]. rewrite Forall_forall in Hv.
  specialize (Hv s Hs). by destruct s, previous.
Qed.
(** What an ascending page is cut into: what is up to the last of the first part, and
    what comes after it. *)
Lemma ascending_cut (rows : list string) n l :
  ascending rows → last (take n rows) = Some l →
  (∀ s, s ∈ take n rows → s = l ∨ str_ltb s l = true) ∧ (∀ s, s ∈ drop n rows → str_ltb l s = true).
Proof.
  intros Hs Hl. rewrite <- (take_drop n rows) in Hs. apply last_Some in Hl as [pre Hpre]. rewrite Hpre in *.
  rewrite <- app_assoc in Hs. split; intros s Hin.
  - apply elem_of_app in Hin as [Hin| ->%list_elem_of_singleton]; [right|by left].
    apply (StronglySorted_app_1_elem_of (λ a b, str_ltb a b = true) pre ([l] ++ drop n rows) s l Hs Hin). left.
  - assert (ascending (l :: drop n rows)) as Hd by (clear -Hs; induction pre; [done|by inversion Hs; auto]).
    apply StronglySorted_inv in Hd as [_ Hd]. rewrite Forall_forall in Hd. by apply Hd.
Qed.

Section bounds.
Context {W : Type} `{!AppGcSpaceRepository W} (actor_fetch : list ascii → SpaceRequest → M exn W Reply).

(** Where a call begins: what its cursor says of this App. *)
Definition resumes (app : string) (cursor : option string) (after : string) : Prop :=
  match cursor with
  | None => after = EmptyString
  | Some text => decodeAppGcCursor text = Some (app, after)
  end.

(** C33: what one call of the coordinator reports is within what it was allowed,
    whatever its Spaces answer: at most [maxSpaces] Spaces, at most
    [maxNodesPerSpace] nodes examined for each, no more deleted than examined, and
    Spaces with deletions among the Spaces examined. It reads the page of Spaces after
    its cursor, in ascending order, and collects the first [maxSpaces] of them; its
    report is of these. When the page has more it returns a cursor, and only then: a
    call with that cursor resumes after the last Space collected, with every Space of
    the page that was collected up to it and every one that was not beyond it. *)
Theorem app_gc_bounded app cursor maxSpaces maxNodes r w w' :
  runAppGarbageCollection actor_fetch app cursor maxSpaces maxNodes w = (Ok r, w') →
  let spaces := default DEFAULT_APP_GC_MAX_SPACES maxSpaces in
  let nodes := default DEFAULT_APP_GC_MAX_NODES_PER_SPACE maxNodes in
  0 ≤ ag_spacesExamined r ≤ spaces
  ∧ 0 ≤ ag_spacesWithDeletions r ≤ ag_spacesExamined r
  ∧ 0 ≤ ag_nodesDeleted r ≤ ag_nodesExamined r
  ∧ ag_nodesExamined r ≤ ag_spacesExamined r * nodes
  ∧ 0 ≤ ag_reclaimedContentBytes r
  ∧ ∃ after rows w1,
      let collected := take (Z.to_nat spaces) rows in
      let remaining := drop (Z.to_nat spaces) rows in
      resumes app cursor after
      ∧ listUsageBearingSpaceIds app after (spaces + 1) w = (Ok rows, w1)
      ∧ ascending (after :: rows)
      ∧ fold_m (collectOne actor_fetch app nodes) (0, mkSpaceGc 0 0 0) collected w1
        = (Ok (ag_spacesWithDeletions r,
               mkSpaceGc (ag_nodesExamined r) (ag_nodesDeleted r) (ag_reclaimedContentBytes r)), w')
      ∧ ag_spacesExamined r = Z.of_nat (length collected)
      ∧ (ag_nextCursor r = None ↔ remaining = [])
      ∧ ∀ c, ag_nextCursor r = Some c →
          ∃ l, last collected = Some l
            ∧ (∀ after', resumes app (Some c) after' ↔ after' = l)
            ∧ (∀ s, s ∈ collected → s = l ∨ str_ltb s l = true)
            ∧ (∀ s, s ∈ remaining → str_ltb l s = true).
Proof.
  intros Hrun spaces nodes. unfold runAppGarbageCollection in Hrun. fold spaces nodes in Hrun.
  cbv zeta in Hrun. unfold mbind, M_bind, lift in Hrun.
  destruct (throw_if (negb (isSafeInteger spaces) || _) _) as [[]|] eqn:H1; [|done].
  apply throw_if_ok, orb_false_iff in H1 as [_ H1%Z.leb_gt].
  destruct (throw_if (negb (isSafeInteger nodes) || _) _) as [[]|] eqn:H2; [|done].
  apply throw_if_ok, orb_false_iff in H2 as [_ H2%Z.leb_gt].
  destruct (throw_if (strlen app =? 0) _) as [[]|] eqn:H3; [|done]. apply throw_if_ok, Z.eqb_neq in H3.
  destruct (match cursor with None => _ | Some _ => _ end) as [after|] eqn:Hafter; [|done].
  destruct (listUsageBearingSpaceIds app after (spaces + 1) w) as [[rows|e] w1] eqn:Hrows; [|done].
  destruct (validateSpacePage rows after (spaces + 1)) as [[]|] eqn:Hv; [|done].
  unfold validateSpacePage in Hv. destruct (throw_if _ _) as [[]|]; [|done]. cbn [mbind result_bind] in Hv.
  destruct (fold_m _ _ _ w1) as [[[withDeletions [e d b]]|e] w2] eqn:Hf; [|done].
  assert (0 ≤ nodes) as Hn by lia. pose proof (collect_all_within _ _ _ Hn _ _ _ _ _ Hf) as [Hw Hd].
  injection Hrun as <- <-. unfold gc_within in Hw. cbn -[encodeAppGcCursor strlen] in *.
  assert (Z.of_nat (length (take (Z.to_nat spaces) rows)) ≤ spaces) by (rewrite length_take; lia).
  split_and!; try lia. exists after, rows, w1.
  pose proof (validateOrder_ascending _ _ Hv) as Hasc. split_and!; try done.
  - unfold resumes. destruct cursor as [text|]; [|by injection Hafter as <-].
    destruct (decodeAppGcCursor text) as [[app' l]|]; [|done]. case_bool_decide; [|done]. subst app'. by injection Hafter as <-.
  - rewrite <- skipn_all_iff. destruct (Z.ltb_spec spaces (Z.of_nat (length rows))) as [Hm|Hm]; [|split; [lia|done]].
    destruct (last (take (Z.to_nat spaces) rows)) as [l|] eqn:Hl; [split; [done|lia]|].
    apply last_None in Hl. apply (f_equal length) in Hl. rewrite length_take in Hl. simpl in Hl. lia.
  - intros c. destruct (spaces <? _); [|done]. destruct (last (take (Z.to_nat spaces) rows)) as [l|] eqn:Hl; [|done].
    intros [= <-]. exists l. split; [done|]. split.
    + assert (strlen l ≠ 0) as Hne.
      { apply last_Some_elem_of, elem_of_take in Hl as (i & Hi & _).
        eapply validateOrder_nonempty; [exact Hv|]. by eapply list_elem_of_lookup_2. }
      intros after'. unfold resumes. rewrite gc_cursor_round_trip by done. naive_solver.
    + apply (ascending_cut rows _ _ ltac:(by apply StronglySorted_inv in Hasc as [? _]) Hl).
Qed.
End bounds.

(** * Over the Spaces of the service *)

Section service.
Context {B : Type} `{!R2Bucket B} `{!Sha256} `{!R2Laws B} `{!ScanOrder} `{!ScanOrderLaws}.
Notation World := (World B).
Notation world_I := (world_I (B:=B)).
Variables (env : SpaceCasDoEnv) (sign : string → string → string → Z → list (string * string) → result exn string).
Variables (randomUUID : Act B string) (random : Act B Z).
Hypothesis uuid_pure : ∀ w, snd (randomUUID w) = w.
Hypothesis random_pure : ∀ w, snd (random w) = w.
(** When a request reaches its actor and what happens while it is served, the gate of
    its Space closed. *)
Variable during : World → SpaceRequest → Z * list Tick.
Hypothesis gate : ∀ w request scope, physicalScope request = inl scope →
  Forall (λ t, Forall (foreign scope) (tk_env t)) (snd (during w request)).

Notation history := (history env sign randomUUID random).

(** [spaceActors.fetch]: the actor of a Space serves the request. The key only selects
    the object; which Space it serves is in the headers of the request, and the key is
    made of the same two identifiers ([collectSpace_loop]). *)
Definition space_actors (key : list ascii) (request : SpaceRequest) : Act B Reply := λ w,
  let '(delay, sched) := during w request in
  space_fetch env sign randomUUID random request (arrive delay sched w).
Notation run := (collectSpace_loop space_actors).

Lemma history_app (w : World) l1 w1 l2 w2 : history w l1 w1 → history w1 l2 w2 → history w (l1 ++ l2) w2.
Proof. induction 1; [done|]. intros. econstructor; eauto. Qed.

Lemma gc_request_scope app space n :
  strlen app ≠ 0 → strlen space ≠ 0 → physicalScope (gc_request app space n) = inl (app, space).
Proof.
  intros Ha Hs.
  transitivity (if negb (strlen app =? 0) && negb (strlen space =? 0) then inl (app, space)
                else inr (scope_error "one complete scope header family is required") : AppSpaceScope + Reply);
    [reflexivity|]. by rewrite !(proj2 (Z.eqb_neq _ _)).
Qed.

(** One request of the coordinator is one step of a history. *)
Lemma space_actors_step app space n key (w : World) :
  no_slash app → strlen app ≠ 0 → strlen space ≠ 0 → world_inv w →
  ∃ reply w', space_actors key (gc_request app space n) w = (Ok reply, w')
    ∧ history w [(gc_request app space n, reply)] w' ∧ world_inv w'.
Proof.
  intros Hns Ha Hs Hw. unfold space_actors. pose proof (gate w (gc_request app space n)) as Hg.
  destruct (during w (gc_request app space n)) as [delay sched]. simpl in Hg.
  assert (admitted (gc_request app space n) (arrive delay sched w)) as Had.
  { intros scope Hp. split; [|by apply Hg]. rewrite gc_request_scope in Hp by done.
    by injection Hp as <-. }
  destruct (fetch_step env sign randomUUID random uuid_pure random_pure _ _
    (rs_inv _ _ (arrive_step delay sched w Hw)) Had) as (reply & w' & Hf & Hstep).
  exists reply, w'. split_and!; [done| |apply Hstep].
  eapply history_step; [exact Had|exact Hf|constructor].
Qed.

(** A history of collections of Spaces of the App. *)
Definition collects (app : string) (l : list (SpaceRequest * Reply)) : Prop :=
  Forall (λ e, ∃ space n, strlen space ≠ 0 ∧ fst e = gc_request app space n) l.

Lemma nothing_collected app (w : World) :
  world_inv w → ∃ l, history w l w ∧ collects app l ∧ world_inv w.
Proof. intros Hw. exists []. split_and!; [constructor|constructor|done]. Qed.

Lemma actorKey_nonempty app space key :
  canonicalActorKey (points app) (points space) = Ok key → strlen app ≠ 0 ∧ strlen space ≠ 0.
Proof. destruct app, space; try done. Qed.

Lemma collectSpace_history app space fuel : ∀ remaining acc (w w' : World) res,
  no_slash app → world_inv w → run fuel app space remaining acc w = (res, w') →
  ∃ l, history w l w' ∧ collects app l ∧ world_inv w'.
Proof.
  induction fuel as [|fuel IH]; intros remaining acc w w' res Hns Hw; cbn [collectSpace_loop].
  { intros [= <- <-]. by apply nothing_collected. }
  destruct (remaining <=? 0); [intros [= <- <-]; by apply nothing_collected|].
  unfold mbind, M_bind, lift. destruct (canonicalActorKey _ _) as [key|e] eqn:Hk.
  2:{ intros [= <- <-]. by apply nothing_collected. }
  apply actorKey_nonempty in Hk as [Ha Hs].
  destruct (space_actors_step app space remaining key w Hns Ha Hs Hw) as (reply & w1 & -> & Hh & Hw1).
  assert (collects app [(gc_request app space remaining, reply)]) as Hc.
  { constructor; [|constructor]. by exists space, remaining. }
  destruct (parseSpaceGc remaining reply) as [parsed|e]; [|by intros [= <- <-]; eexists].
  destruct (_ || _); [by intros [= <- <-]; eexists|].
  intros Hrun. destruct (IH _ _ _ _ _ Hns Hw1 Hrun) as (l & Hl & Hcl & Hw').
  eexists. split_and!; [by eapply history_app|by apply Forall_app|done].
Qed.

Lemma collect_all_history app maxNodes spaces : ∀ acc (w w' : World) res,
  no_slash app → world_inv w →
  fold_m (collectOne space_actors app maxNodes) acc spaces w = (res, w') →
  ∃ l, history w l w' ∧ collects app l ∧ world_inv w'.
Proof.
  induction spaces as [|s spaces IH]; intros acc w w' res Hns Hw; cbn [fold_m].
  { intros [= <- <-]. by apply nothing_collected. }
  unfold mbind at 1, M_bind at 1. unfold collectOne at 1, collectSpaceGarbage, mbind, M_bind.
  destruct (run _ app s maxNodes _ w) as [r w1] eqn:Hr.
  destruct (collectSpace_history _ _ _ _ _ _ _ _ Hns Hw Hr) as (l1 & Hl1 & Hc1 & Hw1).
  destruct r as [r|e]; [|intros [= <- <-]; by exists l1].
  unfold lift. destruct (throw_if _ _) as [u|e]; [|intros [= <- <-]; by exists l1].
  intros Hf. destruct (IH _ _ _ _ Hns Hw1 Hf) as (l2 & Hl2 & Hc2 & Hw2).
  exists (l1 ++ l2). split_and!; [by eapply history_app|by apply Forall_app|done].
Qed.

(** C19: collecting a whole App is nothing but collecting its Spaces through their
    actors. Whatever the budgets and the cursor, whatever calls fail, and whether the
    coordinator answers or throws: from the world in which it has read its page of
    Spaces, it reaches the world it leaves by a history of collection requests of
    Spaces of this App. So everything that holds of histories holds of it: a node
    that was answered ready stays readable until its lease runs out. *)
Theorem app_gc_is_history app cursor maxSpaces maxNodes (w w' : World) res :
  no_slash app → world_inv w →
  runAppGarbageCollection space_actors app cursor maxSpaces maxNodes w = (res, w') →
  ∃ w1 l, world_inv w1 ∧ keeps world_I w w1 ∧ history w1 l w' ∧ collects app l ∧ world_inv w'.
Proof.
  intros Hns Hw Hrun.
  assert (∀ w1, world_inv w1 → keeps world_I w w1 →
    ∃ w2 l, world_inv w2 ∧ keeps world_I w w2 ∧ history w2 l w1 ∧ collects app l ∧ world_inv w1) as Hnone.
  { intros w1 Hw1 Hk. destruct (nothing_collected app w1 Hw1) as (l & Hl). by exists w1, l. }
  pose proof (Hnone w Hw (keeps_refl world_I w)) as Hstart.
  unfold runAppGarbageCollection in Hrun. cbv zeta in Hrun. unfold mbind, M_bind, lift in Hrun.
  destruct (throw_if _ _) as [[]|]; [|by injection Hrun as _ <-].
  destruct (throw_if (negb (isSafeInteger (default DEFAULT_APP_GC_MAX_NODES_PER_SPACE maxNodes)) || _) _) as [[]|];
    [|by injection Hrun as _ <-].
  destruct (throw_if (strlen app =? 0) _) as [[]|]; [|by injection Hrun as _ <-].
  destruct (match cursor with None => _ | Some _ => _ end) as [after|]; [|by injection Hrun as _ <-].
  set (page := listUsageBearingSpaceIds _ _ _) in Hrun.
  assert (safe world_I (λ _, True) page (λ _ _, True)) as Hpage by apply read_true.
  specialize (Hpage w Hw Logic.I). destruct (page w) as [[rows|e] w1].
  2:{ injection Hrun as _ <-. destruct Hpage. by apply Hnone. }
  destruct Hpage as (Hw1 & Hk & _).
  destruct (validateSpacePage _ _ _) as [[]|].
  2:{ injection Hrun as _ <-. by apply Hnone. }
  destruct (fold_m _ _ _ w1) as [r w2] eqn:Hf.
  destruct (collect_all_history _ _ _ _ _ _ _ Hns Hw1 Hf) as (l & Hl & Hc & Hw2).
  exists w1, l. destruct r as [[withDeletions totals]|e]; injection Hrun as _ <-; by split_and!.
Qed.
End service.

(** * Usage *)

Lemma msum_add_fun `{Countable K} {A} `{CommGroup G} (f g : K → A → G) (m : gmap K A) :
  msum (λ k x, gadd (f k x) (g k x)) m = gadd (msum f m) (msum g m).
Proof.
  induction m as [|k x m Hk IH] using map_ind; [by rewrite !msum_empty, gadd_zero|].
  rewrite !msum_insert, IH by done. rewrite <- !gadd_assoc. f_equal. apply gadd_swap.
Qed.

(** The rows of the Spaces of an App. *)
Definition app_rows (app : string) (d : Db) : gmap AppSpaceScope UsageRow :=
  filter (λ e : AppSpaceScope * UsageRow, appId (fst e) = app) (cas_space_usage d).

(** A sum over Spaces of what a table holds for each is the sum over the table. *)
Lemma msum_scopes {A} (f : A → Usage) (rows : gmap AppSpaceScope UsageRow) (m : gmap NodeKey A) :
  msum (λ s _, table_usage f s m) rows
  = msum (λ k x, if decide (is_Some (rows !! fst k)) then f x else gzero) m.
Proof.
  induction m as [|k x m Hk IH] using map_ind.
  { rewrite msum_empty. apply msum_zero. intros s r _. apply msum_empty. }
  rewrite msum_insert by done. rewrite <- IH.
  rewrite (msum_ext _ (λ s _, gadd (in_scope s k (f x)) (table_usage f s m))).
  2:{ intros s r _. unfold table_usage. by rewrite msum_insert. }
  rewrite msum_add_fun. f_equal. case_decide as Hr.
  - destruct Hr as [r Hr]. rewrite (msum_delete _ _ _ _ Hr), in_scope_same.
    rewrite msum_zero; [apply gadd_zero|]. intros s r' [Hs _]%lookup_delete_Some. by apply in_scope_other.
  - apply msum_zero. intros s r Hs. apply in_scope_other. intros <-. apply Hr. by exists r.
Qed.

(** What an App stores and has reserved, row by row. *)
Definition app_total (app : string) (d : Db) : Usage :=
  gadd (msum (λ k r, if decide (appId (fst k) = app) then node_usage r else gzero) (cas_nodes d))
       (msum (λ k r, if decide (appId (fst k) = app) then reservation_usage r else gzero)
          (cas_upload_reservations d)).

Lemma app_usage_total app d : usage_inv d → app_usage app d = app_total app d.
Proof.
  intros [Hpos Hrows]. unfold app_usage. fold (app_rows app d).
  rewrite (msum_ext _ (λ s _, gadd (table_usage node_usage s (cas_nodes d))
                                (table_usage reservation_usage s (cas_upload_reservations d)))).
  2:{ intros s r [Hr _]%map_lookup_filter_Some. specialize (Hrows s). rewrite Hr in Hrows.
      unfold projected in Hrows. destruct (is_empty_usage _); [done|]. injection Hrows as ->.
      unfold expected_usage. by rewrite nodes_usage_msum, reservations_usage_msum. }
  rewrite msum_add_fun, !msum_scopes.
  assert (∀ k, (is_Some (cas_nodes d !! k) ∨ is_Some (cas_upload_reservations d !! k)) →
    is_Some (app_rows app d !! fst k) ↔ appId (fst k) = app) as Hrow.
  { intros k Hk. unfold app_rows. split.
    - by intros [r [_ Hr]%map_lookup_filter_Some].
    - intros Happ. specialize (Hrows (fst k)).
      assert (projected (fst k) d = Some (expected_usage (fst k) d)) as Hp.
      { destruct Hk as [[r Hr]|[r Hr]]; [by eapply projected_of_node|by eapply projected_of_reservation]. }
      rewrite Hp in Hrows. destruct (cas_space_usage d !! fst k) as [r|] eqn:Hr; [|done].
      exists r. by apply map_lookup_filter_Some. }
  unfold app_total. f_equal; apply msum_ext; intros k r Hk.
  - specialize (Hrow k (or_introl (ex_intro _ r Hk))). repeat case_decide; tauto.
  - specialize (Hrow k (or_intror (ex_intro _ r Hk))). repeat case_decide; tauto.
Qed.

(** C20: the usage an App is told is that of its rows: the number of nodes, their
    content and stored bytes, the nodes without content, the leased and the
    unobserved nodes of all its Spaces, and the bytes its uploads reserve, summed
    over the tables themselves although the query only reads the projection. While
    any of its nodes has not been observed, it is told that usage is unavailable. *)
Theorem app_usage_exact `{!R2Bucket B} `{!Sha256} app (w : World B) :
  world_inv w → w_sched w = [] →
  readAppUsage app w
  = (if 0 <? unobserved_node_count (app_total app (w_db w)) then Throw EAppUsageUnavailable
     else Ok (app_total app (w_db w)), w).
Proof.
  intros Hw Hs. unfold readAppUsage, readAppUsageRow, CloudflareAppUsageRepository, mbind, M_bind.
  rewrite d1_read_quiet by done. rewrite app_usage_total by apply Hw. by case_match.
Qed.
