(* ===== verification/BlobIndex.v ===== *)
(** The blob index of [packages/space-blob-client/src/blob-index.ts]: the node a blob
    client stores above the chunks of a large content, its validation, and its canonical
    encoding. The CBOR library of the client packages, [cborg], is a parameter:
    canonical encoding ([rfc8949EncodeOptions]) and decoding of plain values, with the
    law the formats rely on, and an instance that computes. A field that was decoded may
    hold any value until it is validated. *)
From Stdlib Require Import Ascii.
From stdpp Require Import sorting.
From S2P Require Import Prelude Js JsString JsonText Errors Validation.

(** [encode(value, rfc8949EncodeOptions)] and [decode(bytes)]. *)
Class Cbor := {
  cbor_encode : Json → bytes;
  cbor_decode : bytes → result exn Json
}.

(** Arrays of arrays of scalars: values without maps. *)
Fixpoint flat (j : Json) : bool :=
  match j with
  | JObj _ => false
  | JArr l => forallb flat l
  | _ => true
  end.

(** What was encoded decodes to itself, except that the canonical form orders the
    keys of a map. *)
Class CborLaws `{Cbor} := cbor_round_trip : ∀ members,
  json_plain (JObj members) → Forall (λ m, flat (snd m) = true) members →
  ∃ members', cbor_decode (cbor_encode (JObj members)) = Ok (JObj members')
    ∧ members' ≡ₚ members.

(** [left.length === right.length && left.every(...)]. *)
Definition equalBytes (left right : bytes) : bool := bool_decide (left = right).

(** [Number.isSafeInteger(value)], and the number. *)
Definition safe_number (value : option Json) : option Z :=
  match value with
  | Some (JInt z) => if isSafeInteger z then Some z else None
  | _ => None
  end.
(** [Number(value)] of a value found to be a safe integer. *)
Definition number (value : Json) : Z := match value with JInt z => z | _ => 0 end.

(** [value > bound] of a number printed as [text] that is no integer, for an
    integer [bound >= 0]. *)
Definition frac_exceeds (bound : Z) (text : string) : bool :=
  let '(d, r) := span_digits (chars text) in
  bool_decide (text = "Infinity")
  || (negb (bool_decide (d = [])) && negb (bool_decide ("e"%char ∈ r)) && (bound <=? digits_val d)).
(** [value.length > bound]: reading a member of [null] throws. *)
Definition length_exceeds (bound : Z) (value : Json) : result exn bool :=
  match value with
  | JNull => Throw (TypeError "Cannot read properties of null (reading 'length')")
  | JStr s => Ok (bound <? strlen s)
  | JArr l => Ok (bound <? Z.of_nat (length l))
  | JObj members =>
      Ok (match find_member "length" members with
          | None | Some JNull | Some (JBool _) => false
          | Some (JInt z) => bound <? z
          | Some (JFrac text) => frac_exceeds bound text
          | Some other =>
              match Number_of_text (json_String other) with
              | JInt z => bound <? z
              | JFrac text => frac_exceeds bound text
              | _ => false
              end
          end)
  | _ => Ok false
  end.
(** [!/^[\x20-\x7e]+$/.test(value) || value.length > 1024]. *)
Definition bad_media_type (value : Json) : result exn bool :=
  let text := json_String value in
  if negb (all_chars is_printable text && (0 <? strlen text)) then Ok true
  else length_exceeds 1024 value.

Lemma safe_number_Some v z : safe_number v = Some z ↔ v = Some (JInt z) ∧ isSafeInteger z = true.
Proof.
  destruct v as [[]|]; cbn [safe_number]; try (split; [done|intros [? _]; congruence]).
  destruct (isSafeInteger z0) eqn:H; split; try done; [intros [= ->]; auto|intros [[= ->] ?]; done|].
  intros [[= ->] ?]. congruence.
Qed.

(** A printable media type of 1 to 1024 characters. *)
Definition media_type_ok (s : string) : Prop :=
  all_chars is_printable s = true ∧ 0 < strlen s ≤ 1024.
Lemma bad_media_type_str s : bad_media_type (JStr s) = Ok false ↔ media_type_ok s.
Proof.
  unfold bad_media_type, media_type_ok. cbn [json_String length_exceeds].
  destruct (all_chars is_printable s); cbn [andb negb]; [|split; [congruence|intros [? _]; congruence]].
  destruct (Z.ltb_spec 0 (strlen s)); cbn [negb]; [|split; [congruence|intros [_ ?]; lia]].
  split; [intros [= ?%Z.ltb_ge]|intros [_ ?]; f_equal; apply Z.ltb_ge]; lia || (split; [done|lia]).
Qed.

(** * An instance that computes: JSON texts, one byte for each character *)

#[export] Instance json_cbor : Cbor := {|
  cbor_encode j := (λ c, to_byte (code c)) <$> JSON_stringify j;
  cbor_decode b := match JSON_parse (char_of_code ∘ byte_val <$> b) with
                   | Some j => Ok j
                   | None => Throw (Error "CBOR decode error")
                   end
|}.
Lemma json_cbor_round j : json_plain j → cbor_decode (cbor_encode j) = Ok j.
Proof.
  intros Hj. cbn [cbor_encode cbor_decode json_cbor]. rewrite <- list_fmap_compose.
  replace (((char_of_code ∘ byte_val) ∘ λ c, to_byte (code c)) <$> JSON_stringify j) with (JSON_stringify j).
  { by rewrite JSON_round_trip. }
  rewrite <- (list_fmap_id (JSON_stringify j)) at 1. apply list_fmap_ext. intros _ c _. unfold compose.
  rewrite byte_val_to_byte, Z.mod_small by (pose proof (code_range c); lia). by rewrite char_of_code_code.
Qed.
#[export] Instance json_cbor_laws : CborLaws.
Proof. intros members Hj _. exists members. split; [by apply json_cbor_round|done]. Qed.

(** * The index *)

Definition BlobChunkContentType := "application/vnd.unicas.blob-chunk".
Definition BlobIndexContentType := "application/vnd.unicas.blob-index+cbor;version=1".
Definition BlobChunkBytes : Z := 32 * 1024 * 1024.
Definition BlobIndexFanout : Z := 256.

(** A child is its [size]. *)
Record CasBlobIndexV1 := mkBlobIndex {
  bi_version : Json;
  bi_level : Json;
  bi_size : Json;
  bi_mediaType : Json;
  bi_children : list Json
}.

(** [validateSafeSize(value, name, allowZero)]. *)
Definition validateSafeSize (value : Json) (name : string) (allowZero : bool) : result exn Z :=
  let error := TypeError (name +:+ " must be a " +:+ (if allowZero then "non-negative" else "positive")
                          +:+ " safe integer") in
  match safe_number (Some value) with
  | None => Throw error
  | Some n => if (if allowZero then n <? 0 else n <=? 0) then Throw error else Ok n
  end.

(** The loop over the children, from [index] on. *)
Fixpoint childrenTotal (index : Z) (total : Z) (children : list Json) : result exn Z :=
  match children with
  | [] => Ok total
  | child :: children =>
      size ← validateSafeSize child ("Blob index child " +:+ show index +:+ " size") false;
      let total := total + size in
      _ ← throw_if (negb (isSafeInteger total)) (TypeError "Blob index child sizes overflow");
      childrenTotal (index + 1) total children
  end.

(** [validateBlobIndex(value)]. *)
Definition validateBlobIndex (value : CasBlobIndexV1) : result exn unit :=
  _ ← throw_if (negb (match bi_version value with JInt 1 => true | _ => false end))
        (TypeError "Blob index version must be 1");
  _ ← validateSafeSize (bi_level value) "Blob index level" true;
  size ← validateSafeSize (bi_size value) "Blob index size" false;
  bad ← bad_media_type (bi_mediaType value);
  _ ← throw_if bad (TypeError "Blob index mediaType must be 1-1024 printable ASCII characters");
  let count := Z.of_nat (length (bi_children value)) in
  _ ← throw_if ((count <? 1) || (BlobIndexFanout <? count))
        (TypeError ("Blob index must contain 1-" +:+ show BlobIndexFanout +:+ " children"));
  total ← childrenTotal 0 0 (bi_children value);
  throw_if (negb (total =? size))
    (TypeError ("Blob index size mismatch: expected " +:+ show size +:+ ", got " +:+ show total)).

Definition wireValue (value : CasBlobIndexV1) : Json :=
  JObj [("v", bi_version value); ("l", bi_level value); ("s", bi_size value);
        ("m", bi_mediaType value); ("c", JArr (bi_children value))].

Definition sorted_keys (members : list (string * Json)) : list string :=
  merge_sort String.le (fst <$> members).
(** [decoded.name] of a required field: [undefined] fails the validation as [null]
    does. *)
Definition field (name : string) (members : list (string * Json)) : Json :=
  default JNull (find_member name members).

Section blob_index.
Context `{!Cbor}.

Definition encodeBlobIndex (value : CasBlobIndexV1) : result exn bytes :=
  _ ← validateBlobIndex value;
  Ok (cbor_encode (wireValue value)).

Definition decodeBlobIndex (b : bytes) : result exn CasBlobIndexV1 :=
  decoded ← cbor_decode b;
  match decoded with
  | JObj members =>
      _ ← throw_if (negb (bool_decide (join_commas (sorted_keys members) = "c,l,m,s,v")))
            (TypeError "Blob index contains unknown or missing fields");
      match field "c" members with
      | JArr sizes =>
          let value := mkBlobIndex (field "v" members) (field "l" members) (field "s" members)
                         (field "m" members) sizes in
          _ ← validateBlobIndex value;
          canonical ← encodeBlobIndex value;
          _ ← throw_if (negb (equalBytes b canonical)) (TypeError "Blob index encoding is not canonical");
          Ok value
      | _ => Throw (TypeError "Blob index children must be an array")
      end
  | _ => Throw (TypeError "Blob index must be a CBOR map")
  end.
End blob_index.

(** * What a valid index is *)

Definition sum_sizes (sizes : list Z) : Z := foldr Z.add 0 sizes.

Lemma sum_sizes_cons n sizes : sum_sizes (n :: sizes) = n + sum_sizes sizes.
Proof. done. Qed.

(** The index of a node at [level] above children of these sizes. *)
Definition blob_index (level : Z) (mediaType : string) (sizes : list Z) : CasBlobIndexV1 :=
  mkBlobIndex (JInt 1) (JInt level) (JInt (sum_sizes sizes)) (JStr mediaType) (JInt <$> sizes).

(** The tree part of a valid index: its level and the sizes of its children. *)
Record index_ok (level : Z) (sizes : list Z) : Prop := {
  io_level : 0 ≤ level ≤ MAX_SAFE_INTEGER;
  io_children : 1 ≤ Z.of_nat (length sizes) ≤ BlobIndexFanout;
  io_sizes : Forall (λ n, 0 < n) sizes;
  io_total : sum_sizes sizes ≤ MAX_SAFE_INTEGER
}.

Lemma validateSafeSize_spec value name zero n :
  validateSafeSize value name zero = Ok n
  ↔ value = JInt n ∧ (if zero then 0 ≤ n else 0 < n) ∧ n ≤ MAX_SAFE_INTEGER.
Proof.
  unfold validateSafeSize. split.
  - destruct (safe_number (Some value)) as [m|] eqn:Hs; [|done].
    apply safe_number_Some in Hs as [[= ->] Hs%isSafeInteger_spec]. unfold MAX_SAFE_INTEGER.
    destruct zero; case_match eqn:Hb; intros [= ->]; [apply Z.ltb_ge in Hb|apply Z.leb_gt in Hb]; split_and!; lia || done.
  - unfold MAX_SAFE_INTEGER. intros (-> & Hn & Hm).
    assert (safe_number (Some (JInt n)) = Some n) as ->.
    { apply safe_number_Some. split; [done|]. apply isSafeInteger_spec. destruct zero; lia. }
    destruct zero; [rewrite (proj2 (Z.ltb_ge _ _))|rewrite (proj2 (Z.leb_gt _ _))]; done.
Qed.

Lemma sum_sizes_pos sizes : Forall (λ n, 0 < n) sizes → 0 ≤ sum_sizes sizes.
Proof. induction 1; simpl; lia. Qed.
Lemma childrenTotal_spec index total children n :
  0 ≤ total ≤ MAX_SAFE_INTEGER →
  childrenTotal index total children = Ok n
  ↔ ∃ sizes, children = JInt <$> sizes ∧ Forall (λ n, 0 < n) sizes
      ∧ n = total + sum_sizes sizes ∧ n ≤ MAX_SAFE_INTEGER.
Proof.
  unfold MAX_SAFE_INTEGER. revert index total. induction children as [|child children IH]; intros index total Ht; cbn [childrenTotal].
  - split.
    + intros [= <-]. exists []. split_and!; done || simpl; lia.
    + intros ([|? ?] & ? & _ & -> & _); [|done]. f_equal. simpl. lia.
  - split.
    + destruct (validateSafeSize child _ false) as [size|] eqn:Hv; [|done].
      apply validateSafeSize_spec in Hv as (-> & Hs & _). cbn [mbind result_bind].
      destruct (isSafeInteger (total + size)) eqn:Hi; [|done]. apply isSafeInteger_spec in Hi.
      cbn. rewrite IH by lia. intros (sizes & -> & Hf & -> & Hle). exists (size :: sizes).
      split_and!; [done|by constructor|simpl; lia|done].
    + intros ([|size sizes] & Heq & Hf & -> & Hle); [done|]. injection Heq as -> ->.
      apply Forall_cons in Hf as [Hs Hf]. pose proof (sum_sizes_pos _ Hf). cbn [sum_sizes foldr] in *.
      fold (sum_sizes sizes) in *.
      rewrite (proj2 (validateSafeSize_spec (JInt size) _ false size)) by (unfold MAX_SAFE_INTEGER; split_and!; done || lia).
      cbn [mbind result_bind]. rewrite (proj2 (isSafeInteger_spec (total + size))) by lia. cbn.
      apply IH; [lia|]. exists sizes. split_and!; done || lia.
Qed.

(** An index that passes is one of a level and sizes, whatever its media type. *)
Lemma validateBlobIndex_spec value :
  validateBlobIndex value = Ok tt
  ↔ ∃ level sizes, index_ok level sizes ∧ bad_media_type (bi_mediaType value) = Ok false
      ∧ value = mkBlobIndex (JInt 1) (JInt level) (JInt (sum_sizes sizes)) (bi_mediaType value) (JInt <$> sizes).
Proof.
  unfold validateBlobIndex. split.
  - intros H. destruct value as [version level size media children]. cbn [bi_version bi_level bi_size bi_mediaType bi_children] in *.
    destruct version as [| |[|[]|]| | | |]; try done. cbn [throw_if negb mbind result_bind] in H.
    destruct (validateSafeSize level _ true) as [l|] eqn:Hl; [|done].
    destruct (validateSafeSize size _ false) as [s|] eqn:Hs; [|done].
    apply validateSafeSize_spec in Hl as (-> & Hl), Hs as (-> & Hs). cbn [mbind result_bind] in H.
    destruct (bad_media_type media) as [[]|] eqn:Hm; [done| |done]. cbn [throw_if mbind result_bind] in H.
    destruct (throw_if (_ || _) _) as [[]|] eqn:Hc; [|done].
    apply throw_if_ok, orb_false_iff in Hc as [Hc1%Z.ltb_ge Hc2%Z.ltb_ge]. cbn [mbind result_bind] in H.
    destruct (childrenTotal _ _ _) as [total|] eqn:Ht; [|done].
    apply childrenTotal_spec in Ht as (sizes & -> & Hf & -> & Hle); [|done].
    cbn [mbind result_bind] in H. apply throw_if_ok, negb_false_iff, Z.eqb_eq in H.
    rewrite length_fmap in Hc1, Hc2. exists l, sizes. split_and!; [|done|by rewrite <- H].
    split; lia || done.
  - intros (level & sizes & [Hl Hc Hf Ht] & Hm & ->). cbn [bi_version bi_level bi_size bi_mediaType bi_children].
    cbn [throw_if negb mbind result_bind].
    rewrite (proj2 (validateSafeSize_spec (JInt level) _ true level)) by done. cbn [mbind result_bind].
    assert (0 < sum_sizes sizes) as Hpos.
    { destruct sizes as [|n sizes]; [simpl in Hc; lia|]. apply Forall_cons in Hf as [Hn Hf'].
      pose proof (sum_sizes_pos _ Hf'). simpl. fold (sum_sizes sizes). lia. }
    rewrite (proj2 (validateSafeSize_spec (JInt (sum_sizes sizes)) _ false _)) by done. cbn [mbind result_bind].
    rewrite Hm. cbn [throw_if mbind result_bind]. rewrite length_fmap.
    rewrite (proj2 (Z.ltb_ge _ _)), (proj2 (Z.ltb_ge _ _)) by lia. cbn [orb throw_if mbind result_bind].
    assert (childrenTotal 0 0 (JInt <$> sizes) = Ok (sum_sizes sizes)) as ->.
    { apply childrenTotal_spec; [done|]. exists sizes. split_and!; done. }
    cbn [mbind result_bind]. by rewrite Z.eqb_refl.
Qed.

(** A media type the validation accepts. The format means a string; the validation asks
    the text of the value to be printable and its [length], if it has one, to be at most
    1024. *)
Definition media_accepted (media : Json) : Prop :=
  match media with
  | JStr s => media_type_ok s
  | _ => all_chars is_printable (json_String media) = true ∧ 0 < strlen (json_String media)
         ∧ length_exceeds 1024 media = Ok false
  end.
Lemma media_accepted_spec media : bad_media_type media = Ok false ↔ media_accepted media.
Proof.
  assert (bad_media_type media = Ok false ↔ all_chars is_printable (json_String media) = true
    ∧ 0 < strlen (json_String media) ∧ length_exceeds 1024 media = Ok false) as Hany.
  { unfold bad_media_type. destruct (all_chars _ _); cbn [andb negb]; [|split; [done|by intros [? _]]].
    destruct (Z.ltb_spec 0 (strlen (json_String media))); cbn [negb]; [tauto|split; [done|intros (_ & ? & _); lia]]. }
  destruct media; try apply Hany. apply bad_media_type_str.
Qed.
(** What the format asks of an index. *)
Record index_valid (value : CasBlobIndexV1) : Prop := {
  iv_version : bi_version value = JInt 1;
  iv_mediaType : media_accepted (bi_mediaType value);
  iv_tree : ∃ level sizes, index_ok level sizes ∧ bi_level value = JInt level
    ∧ bi_size value = JInt (sum_sizes sizes) ∧ bi_children value = JInt <$> sizes
}.
Lemma validate_valid value : validateBlobIndex value = Ok tt ↔ index_valid value.
Proof.
  rewrite validateBlobIndex_spec. split.
  - intros (level & sizes & Hok & Hm%media_accepted_spec & ->). split; [done..|]. by exists level, sizes.
  - intros [Hv Hm%media_accepted_spec (level & sizes & Hok & Hl & Hs & Hc)]. exists level, sizes.
    split_and!; [done..|]. destruct value. cbn in *. by subst.
Qed.

Lemma blob_index_valid level media sizes :
  validateBlobIndex (blob_index level media sizes) = Ok tt ↔ index_ok level sizes ∧ media_type_ok media.
Proof.
  rewrite validateBlobIndex_spec. split.
  - intros (l & ss & Hok & Hm & Heq). cbn [bi_mediaType blob_index] in Hm. apply bad_media_type_str in Hm.
    unfold blob_index in Heq. injection Heq as -> Hs Hss.
    apply (list_fmap_eq_inj JInt) in Hss as ->; [done|]. by intros ? ? [=].
  - intros [Hok Hm]. exists level, sizes. split_and!; [done|by apply bad_media_type_str|done].
Qed.

(** * The encoding *)

Section laws.
Context `{!Cbor, !CborLaws}.

Lemma find_member_Permutation name (ms ms' : list (string * Json)) :
  NoDup (fst <$> ms) → ms' ≡ₚ ms → find_member name ms' = find_member name ms.
Proof.
  intros Hnd Hp. symmetry in Hp. revert Hnd. induction Hp as [|[n j] l l' Hp IH|[n1 j1] [n2 j2] l|l1 l2 l3 H1 IH1 H2 IH2];
    cbn [find_member fmap list_fmap fst]; intros Hnd; [done| | |].
  - apply NoDup_cons in Hnd as [_ Hnd]. case_match; [done|by apply IH].
  - apply NoDup_cons in Hnd as [Hnin _]. rewrite not_elem_of_cons in Hnin. repeat case_bool_decide; simplify_eq; try done.
    naive_solver.
  - rewrite IH2; [by apply IH1|]. by rewrite <- H1.
Qed.

Lemma decode_encoded level media sizes b :
  encodeBlobIndex (blob_index level media sizes) = Ok b →
  decodeBlobIndex b = Ok (blob_index level media sizes).
Proof.
  intros He. pose proof He as He0. unfold encodeBlobIndex in He.
  destruct (validateBlobIndex _) as [[]|] eqn:Hv; [|done]. injection He as <-.
  apply blob_index_valid in Hv as Hok. destruct Hok as [[Hl Hc Hf Ht] Hm].
  set (ms := [("v", JInt 1); ("l", JInt level); ("s", JInt (sum_sizes sizes));
              ("m", JStr media); ("c", JArr (JInt <$> sizes))]).
  assert (∀ n, 0 ≤ n ≤ MAX_SAFE_INTEGER → json_plain (JInt n)) as Hint.
  { intros n Hn. constructor. apply isSafeInteger_spec. unfold MAX_SAFE_INTEGER in Hn. lia. }
  assert (Forall (λ n, 0 < n ≤ MAX_SAFE_INTEGER) sizes) as Hall.
  { clear -Hf Ht. unfold MAX_SAFE_INTEGER in *. induction Hf as [|n sizes Hn Hf IH]; [constructor|].
    pose proof (sum_sizes_pos _ Hf). simpl in Ht. fold (sum_sizes sizes) in Ht. constructor; [lia|apply IH; lia]. }
  assert (NoDup (fst <$> ms)) as Hnd by (apply (bool_decide_unpack _); vm_compute; exact I).
  destruct (cbor_round_trip ms) as (ms' & Hd & Hp).
  { constructor; [done|repeat constructor|]. pose proof (sum_sizes_pos _ Hf).
    apply Forall_cons; split; [by apply Hint|]. do 2 (apply Forall_cons; split; [by apply Hint|]).
    repeat constructor. cbn [snd]. apply Forall_fmap. eapply Forall_impl; [exact Hall|]. intros n [? ?]. apply Hint. split; [lia|done]. }
  { repeat constructor. cbn [snd flat]. clear. induction sizes; done. }
  unfold decodeBlobIndex. change (wireValue (blob_index level media sizes)) with (JObj ms). rewrite Hd.
  cbn [mbind result_bind].
  assert (sorted_keys ms' = ["c"; "l"; "m"; "s"; "v"]) as ->.
  { apply (Sorted_unique String.le); [apply Sorted_merge_sort; apply _|repeat constructor; by vm_compute|].
    unfold sorted_keys. rewrite merge_sort_Permutation, Hp. apply (bool_decide_unpack _). by vm_compute. }
  cbn [throw_if negb join_commas]. rewrite bool_decide_true by done. cbn [negb throw_if mbind result_bind].
  unfold field. rewrite !(find_member_Permutation _ ms ms' Hnd Hp).
  change (find_member "v" ms) with (Some (JInt 1)). change (find_member "l" ms) with (Some (JInt level)).
  change (find_member "s" ms) with (Some (JInt (sum_sizes sizes))).
  change (find_member "m" ms) with (Some (JStr media)).
  change (find_member "c" ms) with (Some (JArr (JInt <$> sizes))). cbn [from_option id].
  fold (blob_index level media sizes).
  rewrite Hv, He0. cbn [mbind result_bind]. unfold equalBytes. by rewrite bool_decide_true.
Qed.

(** C23: the encoding of blob indexes is canonical. An index encodes exactly when it is
    valid: version 1, a printable media type of at most 1024 characters, a level, and 1
    to 256 children of positive sizes with their sum, all within the safe integers.
    Bytes that decode are the encoding of the index they decode to, which is valid, so
    no two byte strings stand for one index. And every index over a media type that
    encodes decodes to itself. *)
Theorem blob_index_round_trip :
  (∀ value, (∃ b, encodeBlobIndex value = Ok b) ↔ index_valid value)
  ∧ (∀ b value, decodeBlobIndex b = Ok value → index_valid value ∧ encodeBlobIndex value = Ok b)
  ∧ ∀ level mediaType sizes b,
      encodeBlobIndex (blob_index level mediaType sizes) = Ok b →
      decodeBlobIndex b = Ok (blob_index level mediaType sizes).
Proof.
  split_and!.
  - intros value. rewrite <- validate_valid. unfold encodeBlobIndex.
    destruct (validateBlobIndex value) as [[]|e]; cbn [mbind result_bind]; split; eauto; [by intros [? ?]|done].
  - intros b value Hd. unfold decodeBlobIndex in Hd. destruct (cbor_decode b) as [[| | | | | |members]|]; try done.
    cbn [mbind result_bind] in Hd. destruct (throw_if _ _) as [[]|]; [|done]. cbn [mbind result_bind] in Hd.
    destruct (field "c" members) as [| | | | |sizes|]; try done.
    destruct (validateBlobIndex _) as [[]|] eqn:Hv; [|done]. cbn [mbind result_bind] in Hd.
    destruct (encodeBlobIndex _) as [canonical|] eqn:He; [|done]. cbn [mbind result_bind] in Hd.
    destruct (throw_if _ _) as [[]|] eqn:Hb; [|done]. injection Hd as <-.
    apply throw_if_ok, negb_false_iff, bool_decide_eq_true in Hb as <-. split; [|done]. by apply validate_valid.
  - apply decode_encoded.
Qed.
End laws.
