(* ===== verification/FileManifest.v ===== *)
(** The file manifest of [packages/space-file-client/src/file-manifest.ts] and
    [file-protocol.ts]: the sorted list of the files and directories of a tree, its
    validation and its canonical encoding. *)
From Stdlib Require Import Ascii.
From stdpp Require Import sorting.
From S2P Require Import Prelude Js JsString JsMap JsonText Errors BlobIndex.

Definition FileManifestContentType := "application/vnd.unicas.file-manifest+cbor;version=1".
Definition FileManifestVersion : Z := 1.
Definition FileManifestMaxFiles : Z := 256.
Definition FileManifestMaxEntries : Z := 4096.
Definition FileManifestMaxPathBytes : Z := 1024.

(** The [ref] and the [size] are numbers, integers once they are validated. *)
Inductive SpaceFileManifestEntry :=
| SpaceDirectoryEntry (path : string)
| SpaceFileEntry (path : string) (ref size : Json) (mediaType : string).
Definition entry_path (e : SpaceFileManifestEntry) : string :=
  match e with SpaceDirectoryEntry path | SpaceFileEntry path _ _ _ => path end.
Definition is_file (e : SpaceFileManifestEntry) : bool :=
  match e with SpaceDirectoryEntry _ => false | SpaceFileEntry _ _ _ _ => true end.

Record SpaceFileManifestV1 := mkFileManifest {
  fm_version : Json;
  fm_entries : list SpaceFileManifestEntry
}.

Definition backslash : string := String JsonText.backslash EmptyString.
(** [/[\u0000-\u001f\u007f]/]. *)
Definition is_control (c : ascii) : bool := in_range 0 0x1f c || (code c =? 0x7f).
Definition bad_segment (segment : string) : bool :=
  (strlen segment =? 0) || bool_decide (segment = ".") || bool_decide (segment = "..").

(** [validatePath(path)]. *)
Definition validatePath (path : string) : result exn unit :=
  _ ← throw_if ((strlen path =? 0) || (FileManifestMaxPathBytes <? blen (TextEncoder_encode path)))
        (TypeError ("File path must be 1-" +:+ show FileManifestMaxPathBytes +:+ " UTF-8 bytes"));
  _ ← throw_if (startsWith path "/" || endsWith path "/" || includes path backslash || some_char is_control path)
        (TypeError ("Invalid file path: " +:+ path));
  throw_if (existsb bad_segment (split "/"%char path)) (TypeError ("Invalid file path: " +:+ path)).

(** The test of a media type known to be a string. *)
Definition bad_media (mediaType : string) : bool :=
  negb (all_chars is_printable mediaType && (0 <? strlen mediaType)) || (1024 <? strlen mediaType).

(** The loop of [validateFileManifest] over the entries, with its variables; it ends
    with the number of files. *)
Fixpoint validate_entries (previousPath : string) (fileCount : Z) (filePaths : list string)
    (entries : list SpaceFileManifestEntry) : result exn Z :=
  match entries with
  | [] => Ok fileCount
  | entry :: entries =>
      let path := entry_path entry in
      _ ← validatePath path;
      _ ← throw_if (negb (str_ltb previousPath path))
            (TypeError "File manifest entries must be uniquely sorted by path");
      _ ← each_result (λ filePath, throw_if (startsWith path (filePath +:+ "/"))
                         (TypeError ("File manifest path descends from file: " +:+ filePath))) filePaths;
      match entry with
      | SpaceDirectoryEntry _ => validate_entries path fileCount filePaths entries
      | SpaceFileEntry _ ref size mediaType =>
          _ ← throw_if (negb (match ref with JInt r => r =? fileCount | _ => false end))
                (TypeError "File manifest file refs must be contiguous in path order");
          _ ← throw_if (match safe_number (Some size) with Some n => n <? 0 | None => true end)
                (TypeError "File size must be a non-negative safe integer");
          _ ← throw_if (bad_media mediaType)
                (TypeError "File media type must be 1-1024 printable ASCII characters");
          validate_entries path (fileCount + 1) (filePaths ++ [path]) entries
      end
  end.

Definition validateFileManifest (value : SpaceFileManifestV1) : result exn unit :=
  _ ← throw_if (negb (match fm_version value with JInt v => v =? FileManifestVersion | _ => false end))
        (TypeError "File manifest version must be 1");
  _ ← throw_if (FileManifestMaxEntries <? Z.of_nat (length (fm_entries value)))
        (TypeError ("File manifest must contain at most " +:+ show FileManifestMaxEntries +:+ " entries"));
  fileCount ← validate_entries EmptyString 0 [] (fm_entries value);
  throw_if (FileManifestMaxFiles <? fileCount)
    (TypeError ("File manifest must contain at most " +:+ show FileManifestMaxFiles +:+ " files")).

Definition compareFileManifestPaths (left right : string) : Z :=
  if str_ltb left right then -1 else if str_ltb right left then 1 else 0.

(** [sorted.map(...)] with the counter [ref]. *)
Fixpoint number_files (ref : Z) (entries : list SpaceFileManifestEntry) : list SpaceFileManifestEntry :=
  match entries with
  | [] => []
  | SpaceDirectoryEntry path :: entries => SpaceDirectoryEntry path :: number_files ref entries
  | SpaceFileEntry path _ size mediaType :: entries =>
      SpaceFileEntry path (JInt ref) size mediaType :: number_files (ref + 1) entries
  end.
Definition sort_entries (entries : list SpaceFileManifestEntry) : list SpaceFileManifestEntry :=
  js_sort (λ left right, compareFileManifestPaths (entry_path left) (entry_path right)) entries.

Definition createFileManifest (entries : list SpaceFileManifestEntry) : result exn SpaceFileManifestV1 :=
  let manifest := mkFileManifest (JInt FileManifestVersion) (number_files 0 (sort_entries entries)) in
  _ ← validateFileManifest manifest;
  Ok manifest.

Definition encode_entry (entry : SpaceFileManifestEntry) : Json :=
  match entry with
  | SpaceDirectoryEntry path => JArr [JStr "d"; JStr path]
  | SpaceFileEntry path ref size mediaType => JArr [JStr "f"; JStr path; ref; size; JStr mediaType]
  end.
Definition manifest_value (value : SpaceFileManifestV1) : Json :=
  JObj [("v", fm_version value); ("e", JArr (encode_entry <$> fm_entries value))].

(** [typeof value === "number"]. *)
Definition is_number (value : Json) : bool := match value with JInt _ | JFrac _ => true | _ => false end.

Definition decodeEntry (value : Json) : result exn SpaceFileManifestEntry :=
  match value with
  | JArr [JStr tag; JStr path] =>
      if bool_decide (tag = "d") then Ok (SpaceDirectoryEntry path)
      else Throw (TypeError "File manifest entry is invalid")
  | JArr [JStr tag; JStr path; ref; size; JStr mediaType] =>
      if bool_decide (tag = "f") && is_number ref && is_number size
      then Ok (SpaceFileEntry path ref size mediaType)
      else Throw (TypeError "File manifest entry is invalid")
  | JArr _ => Throw (TypeError "File manifest entry is invalid")
  | _ => Throw (TypeError "File manifest entry must be an array")
  end.

(** [fileManifestRefs(manifest, refs)]. A [ref] is a position, as was validated. *)
Definition fileManifestRefs (manifest : SpaceFileManifestV1) (refs : list string)
    : result exn (JsMap string) :=
  _ ← validateFileManifest manifest;
  let files := filter (λ e, is_file e = true) (fm_entries manifest) in
  _ ← throw_if (negb (Z.of_nat (length files) =? Z.of_nat (length refs)))
        (TypeError "File manifest refs do not match its file entries");
  Ok (map_of ((λ e, (entry_path e,
                     match e with
                     | SpaceFileEntry _ (JInt ref) _ _ => default EmptyString (refs !! Z.to_nat ref)
                     | _ => EmptyString
                     end)) <$> files)).

Section file_manifest.
Context `{!Cbor}.

Definition encodeFileManifest (value : SpaceFileManifestV1) : result exn bytes :=
  _ ← validateFileManifest value;
  Ok (cbor_encode (manifest_value value)).

Definition decodeFileManifest (b : bytes) : result exn SpaceFileManifestV1 :=
  decoded ← cbor_decode b;
  match decoded with
  | JObj members =>
      match field "e" members with
      | JArr values =>
          _ ← throw_if (negb (bool_decide (join_commas (sorted_keys members) = "e,v")))
                (TypeError "File manifest contains unknown or missing fields");
          entries ← map_result decodeEntry values;
          let manifest := mkFileManifest (field "v" members) entries in
          _ ← validateFileManifest manifest;
          canonical ← encodeFileManifest manifest;
          _ ← throw_if (negb (equalBytes b canonical)) (TypeError "File manifest encoding is not canonical");
          Ok manifest
      | _ => Throw (TypeError "File manifest contains unknown or missing fields")
      end
  | _ => Throw (TypeError "File manifest must be a CBOR map")
  end.
End file_manifest.

(** * Paths *)

(** A path of a tree: segments with names, no control character and no backslash. *)
Record tree_path (path : string) : Prop := {
  tp_segments : Forall (λ s, bad_segment s = false) (split "/"%char path);
  tp_chars : Forall (λ c, is_control c = false ∧ c ≠ JsonText.backslash) (chars path)
}.
(** [path] lies below [directory]. *)
Definition below (directory path : string) : bool := startsWith path (directory +:+ "/").

Lemma below_spec d p : below d p = true ↔ ∃ t, p = d +:+ "/" +:+ t.
Proof.
  unfold below. rewrite startsWith_app. split; intros [t ->]; exists t; by rewrite (assoc_L String.append).
Qed.
Lemma below_lt d p : below d p = true → str_ltb d p = true.
Proof. intros [t ->]%below_spec. apply str_ltb_extend. Qed.
Lemma below_trans a b c : below a b = true → below b c = true → below a c = true.
Proof.
  rewrite !below_spec. intros [t ->] [u ->]. exists (t +:+ "/" +:+ u). by rewrite <- !(assoc_L String.append).
Qed.
Lemma below_irrefl a : below a a = false.
Proof. apply not_true_is_false. intros H%below_lt. by rewrite str_ltb_irrefl in H. Qed.

Lemma split_cons_empty c s : split c s = [EmptyString] ↔ s = EmptyString.
Proof.
  unfold split. split; [|by intros ->]. intros H. apply (inj chars).
  destruct (split_chars c (chars s)) as [|w [|]] eqn:Hs; try done. apply split_chars_join in Hs.
  injection H as H. apply (f_equal chars) in H. rewrite chars_of_chars in H. subst w. done.
Qed.
Lemma bad_segment_empty : bad_segment EmptyString = true.
Proof. done. Qed.
(** The tests on the ends of a path are implied by those on its segments. *)
Lemma good_segments_ends path :
  Forall (λ s, bad_segment s = false) (split "/"%char path) →
  startsWith path "/" = false ∧ endsWith path "/" = false ∧ path ≠ EmptyString.
Proof.
  unfold split. rewrite Forall_fmap. intros Hs. split_and!.
  - apply not_true_is_false. intros [t ->]%startsWith_app. rewrite chars_app in Hs. cbn in Hs.
    apply Forall_cons in Hs as [Hs _]. done.
  - apply not_true_is_false. intros [t ->]%endsWith_chars. rewrite chars_app in Hs. change (chars "/") with ["/"%char] in Hs.
    rewrite (split_chars_sep "/"%char (chars t) []) in Hs. apply Forall_app in Hs as [_ Hs].
    apply Forall_cons in Hs as [Hs _]. done.
  - intros ->. apply Forall_cons in Hs as [Hs _]. done.
Qed.
Lemma path_tests path :
  (startsWith path "/" || endsWith path "/" || includes path backslash || some_char is_control path = false
   ∧ existsb bad_segment (split "/"%char path) = false) ↔ tree_path path.
Proof.
  rewrite !orb_false_iff. split.
  - intros [[[[_ _] Hb] Hc] Hs]. split.
    + apply Forall_forall. intros s Hin. apply not_true_is_false. intros Hbad. revert Hs. apply not_false_iff_true.
      apply existsb_exists. exists s. split; [by apply list_elem_of_In|done].
    + apply Forall_forall. intros c Hin. split.
      * apply not_true_is_false. intros Hbad. revert Hc. apply not_false_iff_true.
        apply existsb_exists. exists c. split; [by apply list_elem_of_In|done].
      * intros ->. revert Hb. apply not_false_iff_true. by apply includes_char.
  - intros [Hs Hc]. destruct (good_segments_ends path Hs) as (H1 & H2 & _). rewrite Forall_forall in Hs; rewrite Forall_forall in Hc.
    split_and!; try done.
    + apply not_true_is_false. intros Hb%includes_char. by apply Hc in Hb as [_ ?].
    + apply not_true_is_false. intros (c & Hin & Hb)%existsb_exists. apply list_elem_of_In, Hc in Hin as [? _]. congruence.
    + apply not_true_is_false. intros (s & Hin & Hb)%existsb_exists. apply list_elem_of_In, Hs in Hin. congruence.
Qed.
Lemma validatePath_spec path :
  validatePath path = Ok tt ↔ tree_path path ∧ blen (TextEncoder_encode path) ≤ FileManifestMaxPathBytes.
Proof.
  unfold validatePath. rewrite <- path_tests. split.
  - destruct (_ || (FileManifestMaxPathBytes <? _)) eqn:Hl; [done|]. apply orb_false_iff in Hl as [_ Hl%Z.ltb_ge].
    cbn [throw_if mbind result_bind]. destruct (startsWith _ _ || _ || _ || _); [done|].
    cbn [throw_if mbind result_bind]. destruct (existsb _ _); done.
  - intros [Hp Hl]. assert (path ≠ EmptyString) as Hne.
    { apply path_tests in Hp as [Hs _]. by apply good_segments_ends in Hs as (_ & _ & ?). }
    destruct Hp as [-> ->]. rewrite (proj2 (Z.ltb_ge _ _) Hl). destruct path; [done|].
    assert (strlen (String a path) =? 0 = false) as -> by (apply Z.eqb_neq; unfold strlen; simpl; lia). done.
Qed.

(** * What a valid manifest is *)

Definition file_paths (entries : list SpaceFileManifestEntry) : list string :=
  entry_path <$> filter (λ e, is_file e = true) entries.
Definition path_lt (a b : string) : Prop := str_ltb a b = true.
#[export] Instance path_lt_trans : Transitive path_lt.
Proof. intros a b c. apply str_ltb_trans. Qed.

Definition entry_ok (e : SpaceFileManifestEntry) : Prop :=
  validatePath (entry_path e) = Ok tt ∧
  match e with
  | SpaceDirectoryEntry _ => True
  | SpaceFileEntry _ _ size mediaType =>
      (∃ n, size = JInt n ∧ 0 ≤ n ≤ MAX_SAFE_INTEGER) ∧ media_type_ok mediaType
  end.
(** No entry lies below a file. *)
Definition no_file_above (files paths : list string) : Prop :=
  ∀ f p, f ∈ files → p ∈ paths → below f p = false.

(** The entries of a valid manifest. *)
Record manifest_ok (entries : list SpaceFileManifestEntry) : Prop := {
  mo_entries : Forall entry_ok entries;
  mo_sorted : StronglySorted path_lt (entry_path <$> entries);
  mo_tree : no_file_above (file_paths entries) (entry_path <$> entries);
  mo_refs : number_files 0 entries = entries;
  mo_count : Z.of_nat (length entries) ≤ FileManifestMaxEntries;
  mo_files : Z.of_nat (length (file_paths entries)) ≤ FileManifestMaxFiles
}.

Lemma file_paths_cons e entries :
  file_paths (e :: entries) = if is_file e then entry_path e :: file_paths entries else file_paths entries.
Proof. unfold file_paths. rewrite filter_cons. destruct (is_file e); by case_decide. Qed.
Lemma file_paths_subset entries p : p ∈ file_paths entries → p ∈ (entry_path <$> entries).
Proof. intros (e & -> & [_ He]%list_elem_of_filter)%list_elem_of_fmap. apply list_elem_of_fmap. by exists e. Qed.

Lemma bad_media_spec mediaType : bad_media mediaType = false ↔ media_type_ok mediaType.
Proof.
  unfold bad_media, media_type_ok. rewrite orb_false_iff, negb_false_iff, andb_true_iff, Z.ltb_lt, Z.ltb_ge. naive_solver lia.
Qed.
Lemma bad_size_spec size :
  match safe_number (Some size) with Some n => n <? 0 | None => true end = false
  ↔ ∃ n, size = JInt n ∧ 0 ≤ n ≤ MAX_SAFE_INTEGER.
Proof.
  unfold MAX_SAFE_INTEGER. destruct (safe_number (Some size)) as [n|] eqn:Hs.
  - apply safe_number_Some in Hs as [[= ->] Hn%isSafeInteger_spec]. rewrite Z.ltb_ge. split; [eauto with lia|].
    by intros (m & [= ->] & ? & ?).
  - split; [done|]. intros (n & -> & Hn). enough (safe_number (Some (JInt n)) = Some n) by congruence.
    apply safe_number_Some. split; [done|]. apply isSafeInteger_spec. lia.
Qed.
Lemma bind_throw_if {A} (c : bool) (e : exn) (k : result exn A) r :
  (_ ← throw_if c e; k) = Ok r ↔ c = false ∧ k = Ok r.
Proof. destruct c; cbn [throw_if mbind result_bind]; naive_solver. Qed.
Lemma bind_unit {A} (m : result exn unit) (k : result exn A) r :
  (_ ← m; k) = Ok r ↔ m = Ok tt ∧ k = Ok r.
Proof. destruct m as [[]|]; cbn [mbind result_bind]; naive_solver. Qed.
Lemma each_throw_if {A} (c : A → bool) (e : A → exn) l :
  each_result (λ x, throw_if (c x) (e x)) l = Ok tt ↔ ∀ x, x ∈ l → c x = false.
Proof.
  induction l as [|x l IH]; cbn [each_result]; [split; [by intros _ x ?%elem_of_nil|done]|].
  rewrite bind_throw_if, IH. setoid_rewrite elem_of_cons. naive_solver.
Qed.
Lemma Sorted_cons2 a b l : Sorted path_lt (a :: b :: l) ↔ path_lt a b ∧ Sorted path_lt (b :: l).
Proof.
  split.
  - intros H. inversion_clear H as [|? ? Hs Hh]. by inversion_clear Hh.
  - intros [Hab Hs]. constructor; [done|by constructor].
Qed.

Lemma validate_entries_spec entries : ∀ previous count files n,
  validate_entries previous count files entries = Ok n ↔
    Forall entry_ok entries ∧ Sorted path_lt (previous :: (entry_path <$> entries))
    ∧ no_file_above (files ++ file_paths entries) (entry_path <$> entries)
    ∧ number_files count entries = entries ∧ n = count + Z.of_nat (length (file_paths entries)).
Proof.
  induction entries as [|e entries IH]; intros previous count files n.
  - cbn [validate_entries fmap list_fmap number_files]. split.
    + intros [= <-]. split_and!; [constructor|by repeat constructor|by intros ? ? ? ?%elem_of_nil|done|]. cbn. lia.
    + intros (_ & _ & _ & _ & ->). cbn. f_equal. lia.
  - cbn [validate_entries]. cbv zeta. rewrite bind_unit, bind_throw_if, negb_false_iff, bind_unit, each_throw_if.
    fold (below). cbn [fmap list_fmap]. rewrite Sorted_cons2, Forall_cons, file_paths_cons.
    set (paths := list_fmap _ _ entry_path entries). unfold entry_ok at 1.
    assert (∀ fs, Sorted path_lt (entry_path e :: paths) → no_file_above (files ++ fs) paths →
      (∀ f, f ∈ fs → f = entry_path e ∨ f ∈ paths) → (∀ x, x ∈ files → startsWith (entry_path e) (x +:+ "/") = false) →
      no_file_above (files ++ fs) (entry_path e :: paths)) as Hcons.
    { intros fs Hs Hn Hfs He f p Hf [->|Hp]%elem_of_cons; [|by apply Hn].
      apply elem_of_app in Hf as [Hf|Hf]; [by apply He|]. destruct (Hfs f Hf) as [->|Hin]; [apply below_irrefl|].
      apply Sorted_StronglySorted in Hs; [|apply _]. inversion_clear Hs as [|? ? _ Hall].
      rewrite Forall_forall in Hall. apply Hall in Hin. apply not_true_is_false. intros Hb%below_lt.
      pose proof (str_ltb_trans _ _ _ Hin Hb) as Hc. by rewrite str_ltb_irrefl in Hc. }
    assert (∀ fs fs', (∀ x, x ∈ fs' → x ∈ fs) → no_file_above fs (entry_path e :: paths) → no_file_above fs' paths) as Htail.
    { intros fs fs' Hsub Hn f p Hf Hp. apply Hn; [by apply Hsub|by right]. }
    pose proof (file_paths_subset entries) as Hsubset.
    destruct e as [path|path ref size mediaType]; cbn [is_file entry_path number_files] in *.
    + rewrite IH. split.
      * intros (Hp & Hlt & He & Hok & Hs & Hn & Hnum & ->). split_and!; try done; [|by rewrite Hnum].
        apply Hcons; try done. intros f Hf. right. by apply Hsubset.
      * intros ((( Hp & _) & Hok) & (Hlt & Hs) & Hn & Hnum & ->). injection Hnum as Hnum. split_and!; try done.
        -- intros x Hx. apply (Hn x path); [apply elem_of_app; by left|left].
        -- by eapply Htail; [|exact Hn].
    + rewrite !bind_throw_if, bad_size_spec, bad_media_spec, IH, negb_false_iff. split.
      * intros (Hp & Hlt & He & Href & Hsize & Hmedia & Hok & Hs & Hn & Hnum & ->).
        destruct ref as [| |r| | | |]; try done. apply Z.eqb_eq in Href as ->. rewrite Hnum, <- app_assoc in *. cbn [app] in *.
        split_and!; try done; [|cbn [length]; lia]. apply Hcons; try done.
        intros f [->|Hf]%elem_of_cons; [by left|]. right. by apply Hsubset.
      * intros ((( Hp & Hsize & Hmedia) & Hok) & (Hlt & Hs) & Hn & Hnum & ->). injection Hnum as <- Hnum.
        split_and!; try done.
        -- intros x Hx. apply (Hn x path); [apply elem_of_app; by left|left].
        -- apply Z.eqb_refl.
        -- eapply Htail; [|exact Hn]. intros x. rewrite <- app_assoc. done.
        -- cbn [length]. lia.
Qed.

Lemma validateFileManifest_spec value :
  validateFileManifest value = Ok tt ↔ fm_version value = JInt 1 ∧ manifest_ok (fm_entries value).
Proof.
  unfold validateFileManifest. rewrite !bind_throw_if, negb_false_iff, Z.ltb_ge. split.
  - intros (Hv & Hc & H). destruct (fm_version value) as [| |v| | | |]; try done. apply Z.eqb_eq in Hv as ->.
    destruct (validate_entries _ _ _ _) as [n|] eqn:Hn; [|done]. cbn [mbind result_bind] in H.
    apply validate_entries_spec in Hn as (Hok & Hs & Ht & Hnum & ->). apply throw_if_ok, Z.ltb_ge in H.
    split; [done|]. split; try done.
    apply Sorted_StronglySorted in Hs; [|apply _]. by inversion_clear Hs.
  - intros [-> [Hok Hs Ht Hnum Hc Hf]]. split_and!; try done.
    rewrite (proj2 (validate_entries_spec (fm_entries value) EmptyString 0 []
                      (Z.of_nat (length (file_paths (fm_entries value)))))).
    2: { split_and!; try done. constructor; [by apply StronglySorted_Sorted|].
         destruct (fm_entries value) as [|e entries]; cbn [fmap list_fmap]; constructor.
         apply Forall_cons in Hok as [[Hp _] _]. apply validatePath_spec in Hp as [[Hp _] _].
         apply good_segments_ends in Hp as (_ & _ & Hp). by destruct (entry_path e). }
    cbn [mbind result_bind]. rewrite (proj2 (Z.ltb_ge _ _)) by lia. done.
Qed.

(** * Making a manifest *)

(** What a listing in any order must satisfy. *)
Record listing_ok (entries : list SpaceFileManifestEntry) : Prop := {
  lo_entries : Forall entry_ok entries;
  lo_distinct : NoDup (entry_path <$> entries);
  lo_tree : no_file_above (file_paths entries) (entry_path <$> entries);
  lo_count : Z.of_nat (length entries) ≤ FileManifestMaxEntries;
  lo_files : Z.of_nat (length (file_paths entries)) ≤ FileManifestMaxFiles
}.
Definition entry_lt (a b : SpaceFileManifestEntry) : Prop := path_lt (entry_path a) (entry_path b).
#[export] Instance entry_lt_trans : Transitive entry_lt.
Proof. intros a b c. apply path_lt_trans. Qed.

Lemma number_files_paths r entries : entry_path <$> number_files r entries = entry_path <$> entries.
Proof. revert r. induction entries as [|[] entries IH]; intros r; cbn [number_files]; rewrite ?fmap_cons; [done|..]; by rewrite IH. Qed.
Lemma number_files_files r entries : file_paths (number_files r entries) = file_paths entries.
Proof. revert r. induction entries as [|[] entries IH]; intros r; cbn [number_files]; rewrite ?file_paths_cons; [done|..]; cbn; by rewrite IH. Qed.
Lemma number_files_idem r entries : number_files r (number_files r entries) = number_files r entries.
Proof. revert r. induction entries as [|[] entries IH]; intros r; cbn [number_files]; [done|..]; by rewrite IH. Qed.
Lemma number_files_ok r entries : Forall entry_ok (number_files r entries) ↔ Forall entry_ok entries.
Proof. revert r. induction entries as [|[] entries IH]; intros r; cbn [number_files]; rewrite ?Forall_cons, ?IH; done. Qed.
Lemma number_files_length r entries : length (number_files r entries) = length entries.
Proof. rewrite <- (length_fmap entry_path), number_files_paths. apply length_fmap. Qed.

#[export] Instance file_paths_Permutation : Proper ((≡ₚ) ==> (≡ₚ)) file_paths.
Proof. intros l l' Hp. unfold file_paths. by rewrite Hp. Qed.
Lemma listing_ok_Permutation l l' : l ≡ₚ l' → listing_ok l → listing_ok l'.
Proof.
  intros Hp [H1 H2 H3 H4 H5]. pose proof (file_paths_Permutation _ _ Hp) as Hf.
  split; [by rewrite <- Hp|by rewrite <- Hp| |by rewrite <- Hp|by rewrite <- Hf].
  intros f p. rewrite <- Hf, <- Hp. apply H3.
Qed.

Lemma compare_paths_le a b : compareFileManifestPaths a b ≤ 0 ↔ str_ltb b a = false.
Proof.
  unfold compareFileManifestPaths. destruct (str_ltb a b) eqn:H.
  - split; [intros _|lia]. apply not_true_is_false. intros H'. pose proof (str_ltb_trans _ _ _ H H'). by rewrite str_ltb_irrefl in *.
  - destruct (str_ltb b a); split; done || lia.
Qed.
Lemma sort_entries_Permutation entries : sort_entries entries ≡ₚ entries.
Proof. apply js_sort_Permutation. Qed.
Lemma sort_entries_sorted entries : NoDup (entry_path <$> entries) → StronglySorted entry_lt (sort_entries entries).
Proof.
  intros Hnd. rewrite <- sort_entries_Permutation in Hnd. unfold sort_entries in *.
  assert (StronglySorted (λ a b, compareFileManifestPaths (entry_path a) (entry_path b) ≤ 0)
            (js_sort (λ a b, compareFileManifestPaths (entry_path a) (entry_path b)) entries)) as Hs.
  { apply js_sort_sorted.
    - intros a b c. rewrite !compare_paths_le. intros Hab Hbc. apply not_true_is_false. intros Hca.
      destruct (str_ltb (entry_path b) (entry_path c)) eqn:H.
      + pose proof (str_ltb_trans _ _ _ H Hca). congruence.
      + rewrite (str_ltb_total _ _ H Hbc) in Hab. congruence.
    - intros a b Hlt. apply compare_paths_le. apply not_true_is_false. intros H. unfold compareFileManifestPaths in Hlt.
      rewrite H in Hlt. done. }
  revert Hs Hnd. generalize (js_sort (λ a b, compareFileManifestPaths (entry_path a) (entry_path b)) entries).
  clear. intros l Hs. induction Hs as [|a l _ IH Ha]; [constructor|]. rewrite fmap_cons. intros [Hn Hnd]%NoDup_cons.
  constructor; [by apply IH|]. rewrite Forall_forall in *. intros b Hb. pose proof (proj1 (compare_paths_le _ _) (Ha b Hb)) as Hle.
  unfold entry_lt, path_lt. apply not_false_iff_true. intros Hlt. apply Hn. rewrite (str_ltb_total _ _ Hlt Hle).
  apply list_elem_of_fmap. by exists b.
Qed.
Lemma StronglySorted_paths entries : StronglySorted entry_lt entries ↔ StronglySorted path_lt (entry_path <$> entries).
Proof.
  induction entries as [|e entries IH]; [split; constructor|]. rewrite fmap_cons. split.
  - intros H. inversion_clear H. constructor; [by apply IH|]. by apply Forall_fmap.
  - intros H. inversion_clear H as [|? ? Hs Hf]. constructor; [by apply IH|]. rewrite Forall_fmap in Hf. exact Hf.
Qed.
Lemma StronglySorted_distinct paths : StronglySorted path_lt paths → NoDup paths.
Proof.
  induction 1 as [|p paths _ IH Hp]; constructor; [|done]. intros Hin. rewrite Forall_forall in Hp.
  apply Hp in Hin. unfold path_lt in Hin. by rewrite str_ltb_irrefl in Hin.
Qed.
(** One listing has one order. *)
Lemma sorted_listing_unique l l' : StronglySorted entry_lt l → StronglySorted entry_lt l' → l ≡ₚ l' → l = l'.
Proof.
  assert (AntiSymm (=) entry_lt).
  { intros a b Hab Hba. pose proof (entry_lt_trans _ _ _ Hab Hba) as H. unfold entry_lt, path_lt in H. by rewrite str_ltb_irrefl in H. }
  by apply StronglySorted_unique.
Qed.

Lemma manifest_ok_listing entries :
  manifest_ok (number_files 0 (sort_entries entries)) ↔ listing_ok entries.
Proof.
  pose proof (sort_entries_Permutation entries) as Hp. split.
  - intros [H1 H2 H3 H4 H5 H6]. apply (listing_ok_Permutation _ _ Hp).
    rewrite number_files_ok in H1. rewrite number_files_paths in H2. rewrite number_files_files, number_files_paths in H3.
    rewrite number_files_length in H5. rewrite number_files_files in H6. split; try done. by apply StronglySorted_distinct.
  - intros Hl. pose proof (sort_entries_sorted entries (lo_distinct _ Hl)) as Hs.
    apply (listing_ok_Permutation _ _ (symmetry Hp)) in Hl as [H1 H2 H3 H4 H5]. split.
    + by rewrite number_files_ok.
    + rewrite number_files_paths. by apply StronglySorted_paths.
    + by rewrite number_files_files, number_files_paths.
    + apply number_files_idem.
    + by rewrite number_files_length.
    + by rewrite number_files_files.
Qed.
Lemma createFileManifest_ok entries m :
  createFileManifest entries = Ok m
  ↔ listing_ok entries ∧ m = mkFileManifest (JInt 1) (number_files 0 (sort_entries entries)).
Proof.
  unfold createFileManifest. rewrite bind_unit, validateFileManifest_spec. cbn [fm_version fm_entries].
  rewrite manifest_ok_listing. naive_solver.
Qed.

(** C29: a manifest is made of exactly the listings with valid paths, sizes and media
    types, distinct paths, nothing below a file, and at most 4096 entries and 256
    files. It is the listing in the order of its paths with the files numbered from
    0, so it does not depend on the order of the listing. *)
Theorem createFileManifest_spec entries :
  (∀ m, createFileManifest entries = Ok m ↔
     listing_ok entries ∧
     ∃ sorted, sorted ≡ₚ entries ∧ StronglySorted entry_lt sorted
       ∧ m = mkFileManifest (JInt FileManifestVersion) (number_files 0 sorted))
  ∧ ∀ entries' m, entries' ≡ₚ entries →
      createFileManifest entries' = Ok m ↔ createFileManifest entries = Ok m.
Proof.
  split.
  - intros m. rewrite createFileManifest_ok. split.
    + intros [Hl ->]. split; [done|]. exists (sort_entries entries).
      split_and!; [apply sort_entries_Permutation|by apply sort_entries_sorted, lo_distinct|done].
    + intros (Hl & sorted & Hp & Hs & ->). split; [done|].
      rewrite (sorted_listing_unique sorted (sort_entries entries)); [done|done|by apply sort_entries_sorted, lo_distinct|].
      by rewrite sort_entries_Permutation.
  - intros entries' m Hp. rewrite !createFileManifest_ok.
    assert (listing_ok entries' ↔ listing_ok entries) as Hiff by (split; by apply listing_ok_Permutation).
    assert (listing_ok entries → sort_entries entries' = sort_entries entries) as Heq.
    { intros Hl. apply sorted_listing_unique; [by apply sort_entries_sorted, lo_distinct, Hiff|by apply sort_entries_sorted, lo_distinct|].
      by rewrite !sort_entries_Permutation. }
    rewrite Hiff. split; intros [Hl ->]; by rewrite Heq.
Qed.

(** * The encoding *)

Lemma decode_encode_entry e : entry_ok e → (∃ r, number_files r [e] = [e]) →
  decodeEntry (encode_entry e) = Ok e.
Proof.
  destruct e as [path|path ref size mediaType]; [done|]. by intros [_ [(n & -> & _) _]] (r & [= <-]).
Qed.
Lemma number_files_each entries : ∀ r, number_files r entries = entries →
  Forall (λ e, ∃ r', r ≤ r' < r + Z.of_nat (length entries) ∧ number_files r' [e] = [e]) entries.
Proof.
  induction entries as [|e entries IH]; intros r; cbn [number_files length]; [constructor|].
  destruct e as [path|path ref size mediaType]; cbn [number_files].
  - intros [= He]. constructor; [exists r; split; [lia|done]|]. eapply Forall_impl; [by apply IH|].
    intros e (r' & Hr & He'). exists r'. split; [lia|done].
  - intros [= <- He]. constructor; [exists r; split; [lia|done]|]. eapply Forall_impl; [by apply IH|].
    intros e (r' & Hr & He'). exists r'. split; [lia|done].
Qed.
Lemma decode_entries entries : manifest_ok entries → map_result decodeEntry (encode_entry <$> entries) = Ok entries.
Proof.
  intros [Hok _ _ Hn _ _]. apply number_files_each in Hn.
  assert (Forall (λ e, decodeEntry (encode_entry e) = Ok e) entries) as Hd.
  { rewrite Forall_forall in *. intros e He. apply decode_encode_entry; [by apply Hok|].
    destruct (Hn e He) as (r & _ & ?). by exists r. }
  clear -Hd. induction Hd as [|e entries He _ IH]; [done|]. cbn [fmap list_fmap map_result]. rewrite He. cbn [mbind result_bind].
  fold (encode_entry <$> entries). by rewrite IH.
Qed.
Lemma plain_int n : 0 ≤ n ≤ MAX_SAFE_INTEGER → json_plain (JInt n).
Proof. intros Hn. constructor. apply isSafeInteger_spec. unfold MAX_SAFE_INTEGER in Hn. lia. Qed.
Lemma entries_plain entries : manifest_ok entries → Forall json_plain (encode_entry <$> entries).
Proof.
  intros [Hok _ _ Hn Hc _]. apply number_files_each in Hn. rewrite Forall_fmap. rewrite Forall_forall in *.
  intros e He. destruct (Hok e He) as [_ H]. destruct (Hn e He) as (r & Hr & Hre).
  destruct e as [path|path ref size mediaType]; cbn [compose encode_entry].
  - repeat constructor.
  - destruct H as [(n & -> & Hsize) _]. injection Hre as <-. unfold FileManifestMaxEntries in Hc.
    constructor. repeat (constructor; [first [by constructor|apply plain_int; unfold MAX_SAFE_INTEGER in *; lia]|]). constructor.
Qed.

Section laws.
Context `{!Cbor, !CborLaws}.

Lemma decode_manifest m b : encodeFileManifest m = Ok b → decodeFileManifest b = Ok m.
Proof.
  intros He. pose proof He as He0. apply bind_unit in He as [Hv [= <-]]. pose proof Hv as Hm.
  apply validateFileManifest_spec in Hm as [Hver Hok].
  set (ms := [("v", JInt 1); ("e", JArr (encode_entry <$> fm_entries m))]).
  assert (NoDup (fst <$> ms)) as Hnd by (apply (bool_decide_unpack _); vm_compute; exact I).
  assert (manifest_value m = JObj ms) as Hms by (unfold manifest_value; by rewrite Hver).
  destruct (cbor_round_trip ms) as (ms' & Hd & Hp).
  { constructor; [done|repeat constructor|]. constructor; [by apply plain_int|]. constructor; [|constructor]. constructor. by apply entries_plain. }
  { constructor; [done|]. constructor; [|constructor]. cbn [snd flat].
    pose proof (entries_plain _ Hok) as Hplain. destruct Hok as [Hok _ _ Hn _ _]. apply number_files_each in Hn.
    rewrite forallb_forall. intros j Hj. apply list_elem_of_In, list_elem_of_fmap in Hj as (e & -> & He).
    rewrite Forall_forall in Hok, Hn. destruct (Hok e He) as [_ Hsize]. destruct (Hn e He) as (r & _ & Hre).
    destruct e as [path|path ref size mediaType]; [done|]. destruct Hsize as [(n & -> & _) _]. by injection Hre as <-. }
  unfold decodeFileManifest. rewrite Hms, Hd. cbn [mbind result_bind].
  assert (sorted_keys ms' = ["e"; "v"]) as ->.
  { apply (Sorted_unique String.le); [apply Sorted_merge_sort; apply _|repeat constructor; by vm_compute|].
    unfold sorted_keys. rewrite merge_sort_Permutation, Hp. apply (bool_decide_unpack _). by vm_compute. }
  unfold field. rewrite !(find_member_Permutation _ ms ms' Hnd Hp).
  change (find_member "v" ms) with (Some (JInt 1)).
  change (find_member "e" ms) with (Some (JArr (encode_entry <$> fm_entries m))). cbn [from_option id join_commas].
  rewrite bool_decide_true by done. cbn [negb throw_if mbind result_bind]. rewrite decode_entries by done. cbn [mbind result_bind].
  replace (mkFileManifest (JInt 1) (fm_entries m)) with m by (destruct m; cbn in *; by subst).
  rewrite Hv, He0. cbn [mbind result_bind]. rewrite Hms. unfold equalBytes. by rewrite bool_decide_true.
Qed.

(** C30: the encoding of file manifests is canonical. Bytes that decode are the encoding
    of the manifest they decode to, which is valid: version 1, valid and distinct paths
    in order, nothing below a file, the files numbered in order. And every manifest
    that encodes decodes to itself. *)
Theorem file_manifest_round_trip :
  (∀ b m, decodeFileManifest b = Ok m →
     encodeFileManifest m = Ok b ∧ fm_version m = JInt 1 ∧ manifest_ok (fm_entries m))
  ∧ ∀ m b, encodeFileManifest m = Ok b → decodeFileManifest b = Ok m.
Proof.
  split; [|apply decode_manifest].
  intros b m Hd. unfold decodeFileManifest in Hd. destruct (cbor_decode b) as [[| | | | | |members]|]; try done.
  cbn [mbind result_bind] in Hd. destruct (field "e" members) as [| | | | |values|]; try done.
  apply bind_throw_if in Hd as [_ Hd]. destruct (map_result decodeEntry values) as [entries|]; [|done].
  cbn [mbind result_bind] in Hd. apply (bind_unit (validateFileManifest _)) in Hd as [Hv Hd].
  destruct (encodeFileManifest _) as [canonical|] eqn:He; [|done]. cbn [mbind result_bind] in Hd.
  apply (bind_throw_if _ _ (Ok _)) in Hd as [Hb [= <-]]. apply negb_false_iff, bool_decide_eq_true in Hb as <-.
  split; [done|]. by apply validateFileManifest_spec.
Qed.
End laws.
