(* ===== verification/NodeContent.v ===== *)
(** The interface of the node-level client and the storing of one node through it,
    of [packages/space-client/src/types.ts] and
    [packages/space-blob-client/src/node-content.ts]: the canonical node is leased,
    uploaded to where the answer says, and leased again. Abort signals are left
    out. *)
From S2P Require Import Prelude Js JsString JsonText Errors Safe Codec Validation CanonicalStream.

(** [space-protocol/src/types.ts]: the answers to a lease request. *)
Record SpaceNodeUploadInstructions := mkUploadInstructions {
  ui_method : string;
  ui_url : string;
  ui_expiresAt : Z;
  ui_headers : list (string * string)
}.
Record SpaceNodeUploadRejection := mkUploadRejection { ur_code : string; ur_message : string }.
Inductive SpaceNodeLeaseResult :=
| ready (hash : string) (leaseStartedAt leaseExpiresAt : Z)
| awaiting_upload (hash : string) (upload : SpaceNodeUploadInstructions)
| awaiting_replacement_upload (hash : string) (rejection : SpaceNodeUploadRejection)
    (upload : SpaceNodeUploadInstructions)
| validated_awaiting_children (hash : string) (childHashes : list string).

Record CasNodeMetadata := mkNodeMetadata {
  nm_hash : string;
  nm_size : Z;
  nm_contentType : string;
  nm_refs : list string
}.
Record CasNodeRange := mkNodeRange { nr_offset : Z; nr_length : option Z }.
Record CasRootRefsResult := mkRootRefsResult {
  rs_success : bool;
  rs_idempotent : option bool;
  rs_revision : option Z
}.

(** [AppCasClient], the methods the blob and file clients call, in the state [W] of
    everything outside. A stream of bytes is the list of chunks it delivers. *)
Class AppCasClient (W : Type) := {
  readNode : string → string → M exn W (CasNodeMetadata * list bytes);
  readMetadata : string → string → M exn W CasNodeMetadata;
  readContent : string → string → option CasNodeRange → M exn W (list bytes);
  leaseNode : string → string → Z → M exn W SpaceNodeLeaseResult;
  updateRootRefs : string → string → list (string * Z) → M exn W CasRootRefsResult
}.

(** [HttpFetcher] for uploads: the status and status text of a PUT. *)
Record UploadResponse := mkUploadResponse { up_status : Z; up_statusText : string }.
Definition up_ok (r : UploadResponse) : bool := (200 <=? up_status r) && (up_status r <=? 299).
Class UploadFetcher (W : Type) :=
  upload_fetch : string → string → list (string * string) → bytes → M exn W UploadResponse.

Definition DefaultSpaceNodeLeaseDurationMs : Z := 15 * 60 * 1000.

Section node_content.
Context {W : Type} `{!AppCasClient W, !UploadFetcher W, !Sha256}.
Notation Run := (M exn W).

(** [encodeCanonicalNode(content, contentType, refs)]: the hash and the bytes. *)
Definition encodeCanonicalNode (content : bytes) (contentType : string) (refs : list string)
    : result exn (string * bytes) :=
  childHashes ← map_result hexToHash refs;
  let header := encodeHeader (blen content) contentType (Z.of_nat (length childHashes)) in
  digest ← computeNodeDigest header contentType childHashes content;
  hash ← hashToHex digest;
  b ← concatenateNodeBytes header (TextEncoder_encode contentType) childHashes content;
  Ok (hash, b).

Definition rejected (r : SpaceNodeUploadRejection) : exn := Error (ur_code r +:+ ": " +:+ ur_message r).

(** [uploadCanonicalNode(cas, spaceId, hash, bytes, options, uploadFetcher)]: the
    loop over the remaining attempts, with the last answer. *)
Fixpoint upload_attempts (attempts : nat) (spaceId hash : string) (b : bytes) (durationMs : Z)
    (result : SpaceNodeLeaseResult) (uploaded : bool) : Run SpaceNodeLeaseResult :=
  match attempts with
  | O =>
      match result with
      | awaiting_replacement_upload _ rejection _ => throw (rejected rejection)
      | _ => throw (Error ("CAS node " +:+ hash +:+ " did not become ready"))
      end
  | S attempts =>
      let again uploaded :=
        result ← leaseNode spaceId hash durationMs;
        upload_attempts attempts spaceId hash b durationMs result uploaded in
      let send (upload : SpaceNodeUploadInstructions) :=
        response ← upload_fetch (ui_url upload) (ui_method upload) (ui_headers upload) b;
        _ ← lift (throw_if (negb (up_ok response) && negb (up_status response =? 412))
              (new_CasClientError (up_status response) (up_statusText response) "upload" None None));
        again true in
      match result with
      | ready _ _ _ => mret result
      | validated_awaiting_children _ childHashes =>
          _ ← for_each childHashes (λ childHash,
                child ← leaseNode spaceId childHash durationMs;
                match child with
                | ready _ _ _ => mret tt
                | _ => throw (Error ("CAS child node " +:+ childHash +:+ " is not ready"))
                end);
          again uploaded
      | awaiting_replacement_upload _ rejection upload =>
          if uploaded then throw (rejected rejection) else send upload
      | awaiting_upload _ upload => send upload
      end
  end.
Definition uploadCanonicalNode (spaceId hash : string) (b : bytes) (durationMs : option Z)
    : Run SpaceNodeLeaseResult :=
  let durationMs := default DefaultSpaceNodeLeaseDurationMs durationMs in
  result ← leaseNode spaceId hash durationMs;
  upload_attempts 3 spaceId hash b durationMs result false.

Definition leaseNodeContent (spaceId hash : string) (content : bytes) (contentType : string)
    (refs : list string) (durationMs : option Z) : Run SpaceNodeLeaseResult :=
  '(actual, b) ← lift (encodeCanonicalNode content contentType refs);
  _ ← lift (throw_if (negb (bool_decide (actual = hash)))
        (Error ("CAS node digest mismatch: expected " +:+ hash +:+ ", got " +:+ actual)));
  uploadCanonicalNode spaceId actual b durationMs.

Definition storeNodeContent (spaceId : string) (content : bytes) (contentType : string)
    (refs : list string) (durationMs : option Z) : Run string :=
  '(hash, b) ← lift (encodeCanonicalNode content contentType refs);
  _ ← uploadCanonicalNode spaceId hash b durationMs;
  mret hash.

(** The answer to the last lease request is only looked at for a rejection: a node
    that becomes ready with it is reported as one that did not. *)
Lemma last_answer_forgotten spaceId hash b durationMs h s e uploaded w :
  fst (upload_attempts 0 spaceId hash b durationMs (ready h s e) uploaded w)
  = Throw (Error ("CAS node " +:+ hash +:+ " did not become ready")).
Proof. done. Qed.
End node_content.

(** * What the client relies on of the service *)

(** A node as its bytes stand for it. *)
Record CasNode := mkCasNode {
  cn_contentType : string;
  cn_refs : list string;
  cn_content : bytes
}.
Definition node_hash `{Sha256} (n : CasNode) : result exn string :=
  '(hash, _) ← encodeCanonicalNode (cn_content n) (cn_contentType n) (cn_refs n);
  Ok hash.

(** The part of a content a range asks for. *)
Definition in_range_of (range : option CasNodeRange) (content : bytes) : bytes :=
  match range with
  | None => content
  | Some r =>
      match nr_length r with
      | None => drop (Z.to_nat (nr_offset r)) content
      | Some len => slice (nr_offset r) (nr_offset r + len) content
      end
  end.
(** A range that a content of this size satisfies. *)
Definition range_within (range : option CasNodeRange) (size : Z) : Prop :=
  match range with
  | None => True
  | Some r => 0 ≤ nr_offset r < size
              ∧ match nr_length r with None => True | Some len => 0 < len ∧ nr_offset r + len ≤ size end
  end.

(** A call of the model that no execution of the code makes. *)
Definition out_of_fuel : exn := RangeError "out of fuel".
Definition not_fuel (e : exn) : Prop := e ≠ out_of_fuel.

(** The laws of a Space that keeps what it answered ready: [node_at h n] says that
    the Space has the node [n] under [h] for as long as the invariant speaks of.
    Reads of such nodes return them; a lease request may fail, but when it answers
    ready, the Space has a valid node with that hash. *)
Class CasStore {W : Type} (I : Invariant W) `{!AppCasClient W, !UploadFetcher W, !Sha256}
    (spaceId : string) := {
  node_at : string → CasNode → W → Prop;
  node_at_stable h n : stable I (node_at h n);
  readNode_reads h n :
    covers I (λ _, False) (node_at h n) (readNode spaceId h)
      (λ r _, fst r = mkNodeMetadata h (blen (cn_content n)) (cn_contentType n) (cn_refs n)
              ∧ concat (snd r) = cn_content n);
  readMetadata_reads h n :
    covers I (λ _, False) (node_at h n) (readMetadata spaceId h)
      (λ m _, m = mkNodeMetadata h (blen (cn_content n)) (cn_contentType n) (cn_refs n));
  readContent_reads h n range :
    range_within range (blen (cn_content n)) →
    covers I (λ _, False) (node_at h n) (readContent spaceId h range)
      (λ chunks _, concat chunks = in_range_of range (cn_content n));
  leaseNode_leases h durationMs :
    covers I not_fuel (λ _, True) (leaseNode spaceId h durationMs)
      (λ r w, match r with
              | ready _ _ _ => ∃ ct hs content, node_of h ct hs content
                               ∧ node_at h (mkCasNode ct (hex_of <$> hs) content) w
              | _ => True
              end);
  updateRootRefs_counts requestId changes :
    covers I not_fuel (λ _, True) (updateRootRefs spaceId requestId changes) (λ _ _, True);
  upload_fetch_sends url method headers b :
    covers I not_fuel (λ _, True) (upload_fetch url method headers b) (λ _ _, True)
}.

(** The bytes a client lays out are those of one valid node at most: the lengths of
    its parts are told by the header. *)
Lemma hexToHash_length r x : hexToHash r = Ok x → length x = 32%nat.
Proof.
  unfold hexToHash. destruct (negb (strlen r =? HASH_SIZE * 2)); [done|]. generalize 32%nat. intros n Hx.
  assert (x = hex_pairs n (chars r)) as -> by congruence. apply length_hex_pairs.
Qed.
Lemma hexes_hashes refs hs : map_result hexToHash refs = Ok hs → hashes_wf hs.
Proof.
  revert hs. induction refs as [|r refs IH]; intros hs; cbn [map_result]; [intros [= <-]; constructor|].
  destruct (hexToHash r) as [x|] eqn:Hx; [|done]. cbn [mbind result_bind].
  destruct (map_result hexToHash refs) as [hs'|]; [|done]. cbn. intros [= <-].
  constructor; [by eapply hexToHash_length|by apply IH].
Qed.
Lemma hexes_valid refs hs :
  Forall (λ r, is_hash r = true) refs → map_result hexToHash refs = Ok hs → refs = hex_of <$> hs.
Proof.
  intros Hv. revert hs. induction Hv as [|r refs Hr _ IH]; intros hs; cbn [map_result]; [by intros [= <-]|].
  destruct (is_hash_raw r Hr) as (raw & Hraw & -> & ->). cbn [mbind result_bind].
  destruct (map_result hexToHash refs) as [hs'|]; [|done]. cbn. intros [= <-]. by rewrite fmap_cons, <- IH.
Qed.
Lemma encodeCanonicalNode_layout `{!Sha256} content ct refs h b :
  encodeCanonicalNode content ct refs = Ok (h, b) →
  ∃ hs, map_result hexToHash refs = Ok hs ∧ hashes_wf hs ∧ h = hex_of (sha256 b) ∧ length (sha256 b) = 32%nat
    ∧ b = header_bytes (blen content) (blen (TextEncoder_encode ct)) (Z.of_nat (length hs))
          ++ TextEncoder_encode ct ++ concat hs ++ content.
Proof.
  unfold encodeCanonicalNode. destruct (map_result hexToHash refs) as [hs|] eqn:Hhs; [|done].
  pose proof (hexes_hashes _ _ Hhs) as Hwf. cbn [mbind result_bind]. unfold computeNodeDigest.
  rewrite encodeHeader_layout, canonicalDigestInput_layout by done. cbn [mbind result_bind].
  destruct (hashToHex _) as [hash|] eqn:Hh; [|done]. apply hashToHex_inv in Hh as [Hlen ->]. cbn [mbind result_bind].
  rewrite concatenateNodeBytes_layout by (done || apply length_header_bytes). cbn [mbind result_bind].
  intros [= <- <-]. by exists hs.
Qed.
Lemma same_node `{!Sha256} content ct refs h b ct0 hs0 content0 :
  encodeCanonicalNode content ct refs = Ok (h, b) → Forall (λ r, is_hash r = true) refs →
  collision_free h → node_of h ct0 hs0 content0 →
  mkCasNode ct0 (hex_of <$> hs0) content0 = mkCasNode ct refs content.
Proof.
  intros (hs & Hhs & Hwf & -> & _ & Hb)%encodeCanonicalNode_layout Hrefs Hcf (Hct & Hwf0 & Hlim & Hh0).
  pose proof (Hcf _ _ eq_refl Hh0) as He. rewrite Hb in He. unfold encodeNode in He.
  apply app_inj_1 in He as [Hhd He]; [|by rewrite !length_header_bytes].
  destruct Hct as [Hlen Hp]. rewrite <- (blen_encode_printable ct0 Hp) in Hhd, Hlen.
  assert (∀ n z, le_value (le_bytes n z) = z mod 256 ^ Z.of_nat n) as Hle by (intros; apply le_value_bytes).
  unfold header_bytes in Hhd.
  apply app_inv_head in Hhd. do 2 apply app_inv_head in Hhd.
  apply app_inj_1 in Hhd as [H8 Hhd]; [|by rewrite !length_le_bytes].
  apply app_inj_1 in Hhd as [H4 Hhd]; [|by rewrite !length_le_bytes].
  apply app_inj_1 in Hhd as [H2 _]; [|by rewrite !length_le_bytes].
  apply (f_equal le_value) in H8, H4, H2. rewrite !Hle in H8, H4, H2.
  pose proof (f_equal length He) as Htot. rewrite !length_app, !length_concat_hashes in Htot by done.
  destruct Hlim as (_ & _ & Hcl & Hrc & Hsz). unfold node_size, noLimits, blen in *.
  cbn [default from_option id maxNodeRefs maxCanonicalNodeBytes] in Hrc, Hsz. unfold MAX_NODE_REFS, MAX_CANONICAL_NODE_BYTES in *.
  assert (∀ x y n, 0 ≤ x → 0 ≤ y < 256 ^ Z.of_nat n → x mod 256 ^ Z.of_nat n = y mod 256 ^ Z.of_nat n →
    ∃ q, 0 ≤ q ∧ x = 256 ^ Z.of_nat n * q + y) as Hq.
  { intros x y n Hx Hy Hm. rewrite (Z.mod_small y) in Hm by done. exists (x / 256 ^ Z.of_nat n).
    split; [apply Z.div_pos; lia|]. rewrite <- Hm. apply Z.div_mod. lia. }
  apply Hq in H8 as (q8 & ? & H8); [|lia|simpl; lia]. apply Hq in H4 as (q4 & ? & H4); [|lia|simpl; lia].
  apply Hq in H2 as (q2 & ? & H2); [|lia|simpl; lia].
  change (256 ^ Z.of_nat 8) with 18446744073709551616 in H8. change (256 ^ Z.of_nat 4) with 4294967296 in H4.
  change (256 ^ Z.of_nat 2) with 65536 in H2.
  assert (length (TextEncoder_encode ct) = length (TextEncoder_encode ct0) ∧ length hs = length hs0) as [Hl1 Hl2].
  { lia. }
  apply app_inj_1 in He as [Hct0 He]; [|done]. apply TextEncoder_inj in Hct0 as <-.
  apply app_inj_1 in He as [Hcat <-]; [|by rewrite !length_concat_hashes, Hl2].
  assert (hs = hs0) as <-; [|by rewrite (hexes_valid _ _ Hrefs Hhs)].
  clear -Hwf Hwf0 Hcat Hl2. revert hs0 Hwf0 Hcat Hl2. induction Hwf as [|x hs Hx _ IH]; intros [|y hs0] Hwf0 Hcat Hl2; try done.
  apply Forall_cons in Hwf0 as [Hy Hwf0]. cbn [concat] in Hcat. apply app_inj_1 in Hcat as [-> Hcat]; [|by rewrite Hx, Hy].
  by rewrite (IH hs0) by (done || by injection Hl2).
Qed.
Lemma node_hash_is_hash `{!Sha256} n h : node_hash n = Ok h → is_hash h = true.
Proof.
  unfold node_hash. destruct (encodeCanonicalNode _ _ _) as [[h' b]|] eqn:He; [|done]. intros [= <-].
  apply encodeCanonicalNode_layout in He as (hs & _ & _ & -> & Hl & _). by apply is_hash_hex_of.
Qed.

Section stored.
Context {W : Type} (I : Invariant W) `{!AppCasClient W, !UploadFetcher W, !Sha256} (spaceId : string).
Context `{!CasStore I spaceId}.
Notation stores h w := (∃ ct hs content, node_of h ct hs content
  ∧ node_at h (mkCasNode ct (hex_of <$> hs) content) w).

Lemma upload_attempts_stores attempts hash b durationMs result uploaded :
  covers I not_fuel
    (λ w, match result with ready _ _ _ => stores hash w | _ => True end)
    (upload_attempts attempts spaceId hash b durationMs result uploaded)
    (λ _ w, stores hash w).
Proof.
  revert result uploaded. induction attempts as [|attempts IH]; intros result uploaded; cbn [upload_attempts].
  { destruct result; by apply covers_throw. }
  assert (∀ uploaded, covers I not_fuel (λ _, True)
    (result ← leaseNode spaceId hash durationMs;
     upload_attempts attempts spaceId hash b durationMs result uploaded) (λ _ w, stores hash w)) as Hagain.
  { intros up. eapply covers_bind; [apply stable_pure|apply leaseNode_leases|]. intros r.
    eapply covers_pre; [|apply IH]. by intros w [_ Hr]. }
  assert (∀ upload, covers I not_fuel (λ _, True)
    (response ← upload_fetch (ui_url upload) (ui_method upload) (ui_headers upload) b;
     _ ← lift (throw_if (negb (up_ok response) && negb (up_status response =? 412))
           (new_CasClientError (up_status response) (up_statusText response) "upload" None None));
     result ← leaseNode spaceId hash durationMs;
     upload_attempts attempts spaceId hash b durationMs result true) (λ _ w, stores hash w)) as Hsend.
  { intros upload. apply covers_seq; [apply stable_pure|apply upload_fetch_sends|]. intros response.
    apply covers_lift_bind; [|intros _ _; apply Hagain]. intros e. by destruct (negb _ && _); intros [= <-]. }
  destruct result as [h s e|h upload|h rejection upload|h children].
  - by apply covers_ret.
  - apply Hsend.
  - destruct uploaded; [by apply covers_throw|apply Hsend].
  - apply covers_seq; [apply stable_pure| |intros _; apply Hagain].
    apply covers_for_each; [apply stable_pure|]. intros child _.
    apply covers_seq; [apply stable_pure|eapply covers_post; [|apply leaseNode_leases]; done|].
    intros []; by apply covers_ret || apply covers_throw.
Qed.

Lemma set_hashes_throws target offset hashes e :
  set_hashes target offset hashes = Throw e → not_fuel e.
Proof.
  revert target offset. induction hashes as [|hash hashes IH]; intros target offset; cbn [set_hashes]; [done|].
  unfold typed_set, throw_if. case_match; [by intros [= <-]|]. apply IH.
Qed.
Lemma hexes_throw refs e : map_result hexToHash refs = Throw e → not_fuel e.
Proof.
  induction refs as [|r refs IH]; [done|]. cbn [map_result]. destruct (hexToHash r) eqn:Hr; cbn [mbind result_bind].
  2:{ intros [= <-]. unfold hexToHash in Hr. destruct (negb _); by simplify_eq. }
  destruct (map_result hexToHash refs); [done|]. cbn. intros [= <-]. by apply IH.
Qed.
Lemma encode_throws content contentType refs e :
  encodeCanonicalNode content contentType refs = Throw e → not_fuel e.
Proof.
  assert (∀ target src offset e, typed_set target src offset = Throw e → not_fuel e) as Hset.
  { intros ? ? ? ?. unfold typed_set, throw_if. case_match; [by intros [= <-]|done]. }
  unfold encodeCanonicalNode, computeNodeDigest, canonicalDigestInput, concatenateNodeBytes, hashToHex.
  repeat (cbv zeta; cbn [mbind result_bind]; first
    [ match goal with
      | |- (result_bind _ _ _ _ _ = _) → _ => unfold result_bind at 1
      | |- context [typed_set ?a ?b ?c] =>
          let H := fresh in destruct (typed_set a b c) eqn:H; [|cbn; intros [= <-]; by apply Hset in H]
      | |- context [set_hashes ?a ?b ?c] =>
          let H := fresh in destruct (set_hashes a b c) as [[]|] eqn:H; [|cbn; intros [= <-]; by apply set_hashes_throws in H]
      | |- context [map_result hexToHash ?l] =>
          let H := fresh in destruct (map_result hexToHash l) eqn:H; [|cbn; intros [= <-]; by apply hexes_throw in H]
      | |- context [if ?b then Throw _ else _] => destruct b; [cbn; by intros [= <-]|]
      end ]); done.
Qed.

(** Storing a node answers with its hash, and the Space then has it. *)
Lemma storeNodeContent_stores content contentType refs durationMs :
  covers I not_fuel (λ _, True) (storeNodeContent spaceId content contentType refs durationMs)
    (λ hash w, node_hash (mkCasNode contentType refs content) = Ok hash
      ∧ (Forall (λ r, is_hash r = true) refs → collision_free hash →
         node_at hash (mkCasNode contentType refs content) w)).
Proof.
  unfold storeNodeContent. apply covers_lift_bind.
  { intros e He. by apply encode_throws in He. }
  intros [hash b] He. assert (node_hash (mkCasNode contentType refs content) = Ok hash) as Hn.
  { unfold node_hash. cbn [cn_content cn_contentType cn_refs]. by rewrite He. }
  unfold uploadCanonicalNode. eapply covers_bind; [apply stable_pure| |].
  - eapply covers_bind; [apply stable_pure|apply leaseNode_leases|]. intros r.
    eapply covers_pre; [|apply upload_attempts_stores]. by intros w [_ Hr].
  - intros r. apply covers_ret. intros w [_ Hs]. split; [done|]. intros Hrefs Hcf.
    destruct Hs as (ct & hs & c & Hof & Hat). by rewrite <- (same_node _ _ _ _ _ _ _ _ He Hrefs Hcf Hof).
Qed.
End stored.
