(* ===== verification/HttpClient.v ===== *)
(** The client of a Space over HTTP, of [packages/space-client/src/client.ts]: the
    request of each operation and what its response is taken for, and what they come
    to when the service of this development answers. Abort signals are left out; a
    cache stands before two of the operations ([BrowserCache]). *)
From Stdlib Require Import Ascii.
From stdpp Require Import sorting.
From S2P Require Import Prelude Js JsString JsonText Uri MapSum Errors Safe Codec Validation.
From S2P Require Import CanonicalStream SpaceId Store SpaceCommits DoNames Http World UsageInv.
From S2P Require Import RefInv.
From S2P Require Import RootInv NodeLease NodeLeaseD1 Described NodeLeaseSafe Gc WorldInv.
From S2P Require Import LeaseInv.
From S2P Require Import GcInv RootRefs RootBody RootSafe AuditReads DomainDo NodeRead.
From S2P Require Import NodeReadSafe.
From S2P Require Import SpaceDo SpaceSafe SpaceRoutes AppSpaceAuth SpaceActor CapabilityManager.
From S2P Require NodeContent.

(** * Requests *)

(** What [transport.request] is given: the call, the address and the [init]. *)
Record ClientRequest := mkClientRequest {
  cq_call : Call;
  cq_url : Url;
  cq_method : string;
  cq_headers : list (string * string);
  cq_body : option string
}.

Section client.
Variable appId : string.

(** [path(spaceId)]. *)
Definition path (spaceId : string) : result exn unit :=
  match validateSpaceId spaceId with Some error => Throw (TypeError error) | None => Ok tt end.
Definition client_request (route : AppSpaceRoute) (limit : option Z) (cursor : option string)
    (operation : string) (retry : bool) (headers : list (string * string)) (body : option string)
    : result exn ClientRequest :=
  _ ← path (route_spaceId route);
  url ← appSpaceRoutes route limit cursor;
  Ok (mkClientRequest
        (mkClientCall (mkRequirement appId (route_spaceId route) (spaceOperationPolicyFor route)) operation retry)
        url (route_method route) headers body).
Definition get_request (route : AppSpaceRoute) (operation : string) (headers : list (string * string)) :=
  client_request route None None operation true headers None.
Definition json_content : list (string * string) := [("Content-Type", "application/json")].

Definition validateRange (range : option NodeContent.CasNodeRange) : result exn unit :=
  match range with
  | None => Ok tt
  | Some r =>
      _ ← throw_if (negb (isSafeInteger (NodeContent.nr_offset r)) || (NodeContent.nr_offset r <? 0))
            (TypeError "CAS node range offset must be a non-negative safe integer");
      throw_if (match NodeContent.nr_length r with
                | Some n => negb (isSafeInteger n) || (n <? 0)
                | None => false
                end) (TypeError "CAS node range length must be a non-negative safe integer")
  end.
Definition range_header (r : NodeContent.CasNodeRange) : string :=
  "bytes=" +:+ show (NodeContent.nr_offset r) +:+ "-"
  +:+ match NodeContent.nr_length r with
      | None => EmptyString
      | Some n => show (NodeContent.nr_offset r + n - 1)
      end.

Definition readNode_request (spaceId : string) (hash : Points) : result exn ClientRequest :=
  get_request (readContent appId spaceId hash) "readNode" [].
Definition readMetadata_request (spaceId : string) (hash : Points) : result exn ClientRequest :=
  get_request (readMetadata appId spaceId hash) "metadata" [].
(** [None]: an empty range is answered without a request. *)
Definition readContent_request (spaceId : string) (hash : Points) (range : option NodeContent.CasNodeRange)
    : result exn (option ClientRequest) :=
  _ ← validateRange range;
  _ ← path spaceId;
  match range with
  | Some r =>
      if bool_decide (NodeContent.nr_length r = Some 0) then Ok None
      else q ← get_request (readContent appId spaceId hash) "read" [("Range", range_header r)]; Ok (Some q)
  | None => q ← get_request (readContent appId spaceId hash) "read" []; Ok (Some q)
  end.
Definition leaseNode_request (spaceId : string) (hash : Points) (durationMs : Z) : result exn ClientRequest :=
  _ ← throw_if (negb (isSafeInteger durationMs) || (durationMs <=? 0))
        (TypeError "CAS lease duration must be a positive safe integer");
  client_request (leaseRoute appId spaceId hash) None None "lease" false json_content
    (Some (of_chars (JSON_stringify (JObj [("leaseDurationMs", JInt durationMs)])))).
Definition listRootRefs_request (spaceId : string) (limit : option Z) (cursor : option string)
    : result exn ClientRequest :=
  client_request (listRootRefsRoute appId spaceId) limit cursor "listRootRefs" true [] None.
Definition updateRootRefs_request (spaceId : string) (update : Json) : result exn ClientRequest :=
  client_request (updateRootRefsRoute appId spaceId) None None "updateRootRefs" false json_content
    (Some (of_chars (JSON_stringify update))).
Definition usage_request (spaceId : string) : result exn ClientRequest :=
  get_request (usage appId spaceId) "usage" [].
Definition gc_request (spaceId : string) (maxNodes : option Z) : result exn ClientRequest :=
  client_request (gc appId spaceId) None None "gc" false
    (match maxNodes with Some _ => json_content | None => [] end)
    ((λ n, of_chars (JSON_stringify (JObj [("maxNodes", JInt n)]))) <$> maxNodes).
End client.

(** * Responses

    What an operation takes a response for; the JSON answers are passed on as they
    are. *)

Definition json_answer (r : HttpResponse) : result exn Json :=
  match hp_json r with Some j => Ok j | None => Throw (Error "SyntaxError") end.
Definition readMetadata_answer (r : HttpResponse) : result exn Json :=
  body ← json_answer r;
  match body with
  | JNull => Throw (TypeError "Cannot read properties of null (reading 'metadata')")
  | _ => Ok (default JNull (member "metadata" body))
  end.
Definition readContent_answer (r : HttpResponse) : result exn (list bytes) :=
  match hp_body r with
  | Some chunks => Ok chunks
  | None => Throw (new_CasClientError 502 "Missing response body" "read" None None)
  end.
Definition readNode_answer (hash : string) (r : HttpResponse)
    : result exn (NodeContent.CasNodeMetadata * list bytes) :=
  let size := match hp_header r "Content-Length" with
              | Some text => match Number_of_text text with
                             | JInt n => if isSafeInteger n && (0 <=? n) then Some n else None
                             | _ => None
                             end
              | None => None
              end in
  let invalid := new_CasClientError 502 "Invalid node response" "readNode" in
  match hp_header r "Content-Type", size, hp_body r with
  | Some contentType, Some size, Some chunks =>
      if strlen contentType =? 0 then Throw (invalid None None)
      else
        match parseCasNodeRefsHeader (hp_header r CasNodeRefsHeader) with
        | Ok refs => Ok (NodeContent.mkNodeMetadata hash size contentType refs, chunks)
        | Throw e => Throw (invalid (Some (error_message e)) None)
        end
  | _, _, _ => Throw (invalid None None)
  end.

(** The answer to a lease request: its [state] tells which it is. *)
Definition ready_of (j : Json) : option (string * Z * Z) :=
  match member "state" j, member "hash" j, member "leaseStartedAt" j, member "leaseExpiresAt" j with
  | Some (JStr s), Some (JStr h), Some (JInt t), Some (JInt e) =>
      if bool_decide (s = "ready") then Some (h, t, e) else None
  | _, _, _, _ => None
  end.

(** * Over the wire

    A request as the service receives it, and a reply as the client does. The base
    address is an origin; JSON travels as the value it is the text of. *)

Definition public_request (token : string) (q : ClientRequest) : PublicRequest :=
  mkPublic (cq_method q) (cq_url q)
    (header_of (cq_headers q ++ [("Authorization", "Bearer " +:+ token)]))
    (default EmptyString (cq_body q)).
Definition http_response (reply : Reply) : HttpResponse :=
  match reply with
  | JsonReply r headers =>
      mkHttpResponse (rs_status r) EmptyString (header_of headers) (Some (rs_body r))
        (Some [TextEncoder_encode (of_chars (JSON_stringify (rs_body r)))])
  | ContentReply status headers body =>
      mkHttpResponse status EmptyString (header_of headers)
        (JSON_parse (chars (string_of_codes (TextDecoder_decode (concat body))))) (Some body)
  end.

(** The service takes a request for an operation of a Space that the call was
    authorized for, and forwards it to the actor of that Space. *)
Definition forwarded (app space token : string) (q : ClientRequest) (r : SpaceRequest) : Prop :=
  ∃ route call key, matchAppSpaceRoute (cq_method q) (Some (cq_url q)) = Some route
    ∧ vc_appId call = app ∧ vc_spaceId call = space
    ∧ dispatchSpaceRequest (public_request token q) route call = Ok (Forward key r).

Lemma hash_chars h : is_hash h = true → Forall (λ c, 33 ≤ code c) (chars h) ∧ strlen h = 64.
Proof.
  unfold is_hash, all_chars. intros [Hl%Z.eqb_eq Hc]%andb_true_iff. split; [|exact Hl].
  apply Forall_forall. intros c Hin. rewrite forallb_forall in Hc. apply list_elem_of_In, Hc in Hin.
  revert Hin. destruct c as [[] [] [] [] [] [] [] []]; vm_compute; by intros.
Qed.
Lemma hash_route h : is_hash h = true →
  points h ≠ [] ∧ Forall scalar (points h) ∧ points h ≠ points "." ∧ points h ≠ points "..".
Proof.
  intros [_ Hl]%hash_chars. unfold strlen in Hl. rewrite <- length_chars in Hl.
  split_and!; [..|apply points_scalar| |]; try (intros E; apply (f_equal length) in E; unfold points in E;
    rewrite !length_fmap in E; cbn in E; lia).
Qed.

(** ** What the actor is given *)

Lemma client_request_inv app route limit cursor op retry headers body q :
  client_request app route limit cursor op retry headers body = Ok q →
  validateSpaceId (route_spaceId route) = None ∧ strlen (route_appId route) ≠ 0
  ∧ appSpaceRoutes route limit cursor = Ok (cq_url q) ∧ cq_method q = route_method route
  ∧ cq_headers q = headers ∧ cq_body q = body.
Proof.
  unfold client_request, path. destruct (validateSpaceId _) eqn:Hs; [done|]. cbn [mbind result_bind].
  destruct (appSpaceRoutes route limit cursor) as [url|] eqn:Hu; [|done]. cbn [mbind result_bind]. intros [= <-].
  split_and!; try done. revert Hu. unfold appSpaceRoutes, queryForScope.
  intros (pathname & _ & (search & (? & Ht%throw_if_ok & _)%bind_Ok & _)%bind_Ok)%bind_Ok. by apply Z.eqb_neq in Ht.
Qed.

Lemma node_route_ok app space h route :
  strlen app ≠ 0 → validateSpaceId space = None → is_hash h = true →
  route_appId route = app → route_spaceId route = space → route_hash route = Some (points h) → route_ok route.
Proof.
  intros Ha Hs Hh <- <- Hr. split_and!; [done..|]. rewrite Hr. intros ? [= <-]. by apply hash_route.
Qed.

Lemma forward_node app space h key method pathname more text d :
  header_clean app → validateSpaceId space = None → strlen app ≠ 0 → is_hash h = true →
  canonicalActorKey (points app) (points space) = Ok key →
  Forall (λ e : string * Points, fst e ∉ ["X-CAS-Stack-Id"; "X-CAS-Tenant-Id"; "Range"]) more →
  forward key method pathname no_search
    ([("X-CAS-App-Id", points app); ("X-CAS-Space-Id", points space); ("X-CAS-Route-Family", points "app-space")]
     ++ ("X-CAS-Hash", points h) :: more) text = Ok d →
  ∃ r, d = Forward key r ∧ physicalScope r = inl (app, space) ∧ sr_pathname r = pathname ∧ sr_method r = method
    ∧ sr_text r = text ∧ sr_header r "X-CAS-Hash" = Some h ∧ sr_header r "Range" = None.
Proof.
  intros Hca Hs Ha Hh Hkey Hmore Hf. destruct (space_clean _ Hs) as [Hne Hcs].
  assert (strlen space ≠ 0) as Hns by (unfold strlen; destruct space; [done|cbn; lia]).
  assert (∀ name, name ∈ ["X-CAS-Stack-Id"; "X-CAS-Tenant-Id"; "Range"] →
    name ∉ fst <$> (("X-CAS-Route-Family", points "app-space") :: ("X-CAS-Hash", points h) :: more)) as Hnames.
  { intros name Hin. rewrite !fmap_cons, !not_elem_of_cons. split_and!; [set_solver..|].
    rewrite list_elem_of_fmap. intros (e & -> & He). rewrite Forall_forall in Hmore. by apply (Hmore e He). }
  destruct (forward_scoped app space (Some (points h)) key method pathname no_search
    (("X-CAS-Route-Family", points "app-space") :: ("X-CAS-Hash", points h) :: more) text d)
    as (r & -> & [Hsc _ Hhash] & Hp & Hm & Ht); [done..|by apply actorKey_composite| | | |exact Hf|].
  1,2: apply Hnames; set_solver.
  { intros ? [= <-]. by eexists. }
  exists r. split_and!; try done.
  - destruct (Hhash _ eq_refl) as (v & Hv & Hr). apply hash_chars in Hh as [Hc Hl].
    assert (header_clean h) as Hcl by (apply header_value_clean; [by intros ->|done]).
    unfold header_clean in Hcl. congruence.
  - unfold forward in Hf. apply bind_Ok in Hf as (l & Hl & [= <-]). cbn [sr_header].
    destruct (headers_scope _ _ _ _ "Range" Hca Hcs Hl) as (more' & Hm' & ->). cbn [bool_decide].
    rewrite !bool_decide_eq_false_2 by done. apply header_of_none. rewrite (headers_of_names _ _ Hm').
    apply Hnames. set_solver.
Qed.

Lemma read_forwarded app space h token q r : header_clean app → is_hash h = true →
  readNode_request app space (points h) = Ok q → forwarded app space token q r →
  physicalScope r = inl (app, space) ∧ is_route r "/read" "GET" = true
  ∧ sr_header r "X-CAS-Hash" = Some h ∧ sr_header r "Range" = None.
Proof.
  intros Hca Hh Hq (route & call & key & Hm & Happ & Hsp & Hd).
  apply client_request_inv in Hq as (Hs & Ha & Hu & Hme & Hhd & _). cbn [route_spaceId route_appId route_method] in *.
  destruct (route_matched (readContent app space (points h)) None None) as (url & Hu' & Hm').
  { by eapply node_route_ok. }
  cbn [route_method] in Hm'. rewrite Hu in Hu'. injection Hu' as <-. rewrite Hme, Hm' in Hm. injection Hm as <-.
  unfold dispatchSpaceRequest in Hd. rewrite Happ, Hsp in Hd. apply bind_Ok in Hd as (key' & Hkey & Hd).
  cbn [dispatchDataRequest] in Hd. unfold public_request in Hd. rewrite Hhd in Hd. cbn [pr_header List.app header_of] in Hd.
  rewrite bool_decide_eq_false_2 in Hd by done.
  eapply (forward_node app space h key' "GET" "/read" []) in Hd as (r' & [= -> ->] & ? & Hp & Hme' & _ & ? & ?); [|done..|by constructor].
  split_and!; try done. unfold is_route. by rewrite Hp, Hme'.
Qed.

Lemma lease_forwarded app space h durationMs token q r : header_clean app → is_hash h = true →
  leaseNode_request app space (points h) durationMs = Ok q → forwarded app space token q r →
  physicalScope r = inl (app, space) ∧ is_route r "/lease" "POST" = true
  ∧ sr_header r "X-CAS-Hash" = Some h
  ∧ sr_text r = of_chars (JSON_stringify (JObj [("leaseDurationMs", JInt durationMs)])).
Proof.
  intros Hca Hh Hq (route & call & key & Hm & Happ & Hsp & Hd).
  unfold leaseNode_request in Hq. apply bind_Ok in Hq as (? & _ & Hq).
  apply client_request_inv in Hq as (Hs & Ha & Hu & Hme & Hhd & Hb). cbn [route_spaceId route_appId route_method] in *.
  destruct (route_matched (leaseRoute app space (points h)) None None) as (url & Hu' & Hm').
  { by eapply node_route_ok. }
  cbn [route_method] in Hm'. rewrite Hu in Hu'. injection Hu' as <-. rewrite Hme, Hm' in Hm. injection Hm as <-.
  unfold dispatchSpaceRequest in Hd. rewrite Happ, Hsp in Hd. apply bind_Ok in Hd as (key' & Hkey & Hd).
  cbn [dispatchDataRequest] in Hd. unfold public_request in Hd. rewrite Hhd, Hb in Hd.
  change (existsb _ RETIRED_LEASE_HEADERS) with false in Hd. cbn iota in Hd.
  change (negb _) with false in Hd. cbn iota in Hd. cbn [pr_text default] in Hd.
  eapply (forward_node app space h key' "POST" "/lease" [("Content-Type", points "application/json")])
    in Hd as (r' & [= -> ->] & ? & Hp & Hme' & ? & ? & ?); [|done..|].
  - split_and!; try done. unfold is_route. by rewrite Hp, Hme'.
  - constructor; [set_solver|constructor].
Qed.

(** ** A lease request and a read *)

Lemma run_bind {A C W} (m : M exn W A) (f : A → M exn W C) w c w' :
  (m ≫= f) w = (Ok c, w') → ∃ a w1, m w = (Ok a, w1) ∧ f a w1 = (Ok c, w').
Proof. unfold mbind, M_bind. destruct (m w) as [[a|e] w1]; [|done]. by exists a, w1. Qed.

Section service.
Context {B : Type} `{!R2Bucket B} `{!Sha256} `{!R2Laws B} `{!ScanOrder} `{!ScanOrderLaws}.
Variables (env : SpaceCasDoEnv) (sign : string → string → string → Z → list (string * string) → result exn string).
Variables (randomUUID : Act B string) (random : Act B Z).
Hypothesis uuid_pure : ∀ w, snd (randomUUID w) = w.
Hypothesis random_pure : ∀ w, snd (random w) = w.
Notation fetch := (space_fetch env sign randomUUID random).

(** Only a lease answers ready. *)
Lemma evaluate_ready scope h d u n w j w' x :
  evaluateSpaceLease (B := B) env sign randomUUID scope h d u n w = (Ok j, w') → ready_of j = Some x →
  ∃ h' lease, j = json_ready h' lease ∧ x = (h', leaseStartedAt lease, leaseExpiresAt lease).
Proof.
  unfold evaluateSpaceLease. intros (r & w1 & _ & Hr)%run_bind Hx. destruct r;
    (try apply run_bind in Hr as (? & ? & _ & Hr)); unfold mret, M_ret in Hr; injection Hr as <- _; try done.
  eexists _, _. split; [done|]. cbn in Hx. by injection Hx as <-.
Qed.
Lemma lease_reply scope request (w w' : World B) reply x :
  physicalScope request = inl scope → is_route request "/lease" "POST" = true →
  fetch request w = (Ok reply, w') → hp_json (http_response reply) ≫= ready_of = Some x →
  ∃ h lease, reply = json_reply (json_ready h lease) ∧ x = (h, leaseStartedAt lease, leaseExpiresAt lease).
Proof.
  intros Hp Hroute Hf Hx. unfold space_fetch in Hf. rewrite Hp in Hf. unfold route in Hf.
  assert (sr_pathname request = "/lease") as Hpath.
  { apply andb_true_iff in Hroute as [Hr _]. by apply bool_decide_eq_true in Hr. }
  assert (∀ path method, path ≠ "/lease" → is_route request path method = false) as Hother.
  { intros path method Hne. unfold is_route. rewrite Hpath. by rewrite bool_decide_eq_false_2. }
  rewrite (Hother "/updateRootRefs" "POST"), (Hother "/rootRefs" "GET"), Hroute in Hf by done.
  unfold try_catch in Hf. destruct (handleSpaceLease _ _ _ _ _ w) as [[r|e] w1] eqn:Hl.
  - injection Hf as -> _. unfold handleSpaceLease in Hl.
    do 4 (apply run_bind in Hl as (? & ? & _ & Hl)). apply run_bind in Hl as (j & w2 & Hj & [= <- _]).
    destruct (evaluate_ready _ _ _ _ _ _ _ _ _ Hj Hx) as (h & lease & -> & ->). by exists h, lease.
  - injection Hf as <- _. unfold error_reply in Hx. by destruct e.
Qed.

Lemma length_number content : blen content < 2 ^ 53 →
  match Number_of_text (show (blen content)) with
  | JInt n => if isSafeInteger n && (0 <=? n) then Some n else None
  | _ => None
  end = Some (blen content).
Proof.
  intros Hl. assert (0 ≤ blen content) by (unfold blen; lia). rewrite Number_of_show by lia.
  assert (isSafeInteger (blen content) = true) as -> by (apply isSafeInteger_spec; lia).
  by rewrite (proj2 (Z.leb_le _ _)) by lia.
Qed.

(** C11: What a client is told is what it gets: when its lease request is answered ready,
    then whatever other requests the service serves, a read of the node that arrives
    before the lease it was told runs out, and whose own calls are served, gives the
    client the node's content, its size, content type and references. The requests are
    those the client builds, as the service matches, authorizes and forwards them. *)
Theorem client_reads_leased app space token token' durationMs hash lq rq lease read w reply l w' delay t e
    ct hs content :
  is_hash hash = true → collision_free hash → node_of hash ct hs content → world_inv w → header_clean app →
  leaseNode_request app space (points hash) durationMs = Ok lq → forwarded app space token lq lease →
  history env sign randomUUID random w ((lease, reply) :: l) w' →
  hp_json (http_response reply) ≫= ready_of = Some (hash, t, e) →
  readNode_request app space (points hash) = Ok rq → forwarded app space token' rq read →
  w_clock w' + Z.max 0 delay < e →
  ∃ answer chunks, fst (fetch read (arrive delay [] w')) = Ok answer
    ∧ hp_ok (http_response answer) = true
    ∧ readNode_answer hash (http_response answer)
      = Ok (NodeContent.mkNodeMetadata hash (blen content) ct (hex_of <$> hs), chunks)
    ∧ concat chunks = content.
Proof.
  intros Hhash Hcf Hn Hw Hca Hlq Hlf Hh Hready Hrq Hrf Hlt.
  destruct (lease_forwarded _ _ _ _ _ _ _ Hca Hhash Hlq Hlf) as (Hp & Hroute & _ & _).
  destruct (read_forwarded _ _ _ _ _ _ Hca Hhash Hrq Hrf) as (Hp' & Hroute' & Hhh & Hrange).
  assert (∃ ls, reply = json_reply (json_ready hash ls) ∧ leaseExpiresAt ls = e) as (ls & -> & He).
  { inversion Hh as [|? d sched ? ? w1 ? ? Ha Hf Hrest]; subst.
    destruct (lease_reply _ _ _ _ _ _ Hp Hroute Hf Hready) as (h' & ls & -> & [= <- _ ->]). by exists ls. }
  destruct (read_after_ready env sign randomUUID random uuid_pure random_pure (app, space) hash ls lease read
    w l w' delay ct hs content) as (refs & body & Hrun & Hbody & Hrefs); [done..|by rewrite He|].
  exists (ContentReply 200 (content_headers ct refs content) body), body. split; [done|]. split; [done|]. split; [|done].
  destruct Hn as (Hct & _ & Hlim & _).
  unfold readNode_answer, http_response. cbn [hp_header hp_body].
  change (header_of (content_headers ct refs content) "Content-Length") with (Some (show (blen content))).
  change (header_of (content_headers ct refs content) "Content-Type") with (Some ct).
  change (header_of (content_headers ct refs content) CasNodeRefsHeader) with (Some refs).
  destruct Hlim as (_ & Hc & Hctl & Hrc & Hsize).
  assert (blen content < 2 ^ 53) as Hlen.
  { unfold node_size, MAX_CANONICAL_NODE_BYTES, HEADER_SIZE, HASH_SIZE in Hsize. simpl in Hsize. lia. }
  by rewrite length_number, (proj2 (Z.eqb_neq _ _)), Hrefs by (done || lia).
Qed.
End service.
