(* ===== verification/BrowserCache.v ===== *)
(** The node cache of a browser, of [packages/space-browser-cache]: [cache-core.ts] and
    [index.ts]. Caches live in realms (tabs and workers), share the databases of their
    origin and tell each other by messages what to forget. Any number of calls are under
    way; what one does between two of its waits is one step, the transactions of a
    database run one by one in the order they were created, and any of them may fail.
    Entries are objects: [get] sets the time of an entry that others hold. *)
From Stdlib Require Import Ascii.
From S2P Require Import Prelude Js JsString JsMap JsonText Errors.
From S2P Require NodeContent.

(** * Entries and configuration *)

Notation CasNodeMetadata := NodeContent.CasNodeMetadata.
Notation CasNodeRange := NodeContent.CasNodeRange.

Record Entry := mkEntry {
  en_id : string;
  en_namespace : string;
  en_principal : string;
  en_bytes : Z;
  en_touched : Z;
  en_metadata : option CasNodeMetadata;
  en_content : option bytes
}.
Definition set_touched (now : Z) (e : Entry) : Entry :=
  mkEntry (en_id e) (en_namespace e) (en_principal e) (en_bytes e) now (en_metadata e) (en_content e).

Record AppCasNodeCacheKey := mkCacheKey {
  ck_version : Z;
  ck_appId : string;
  ck_spaceId : string;
  ck_hash : string
}.
Inductive EntryKind := metadata_kind | content_kind.
Definition kind_name (kind : EntryKind) : string :=
  match kind with metadata_kind => "metadata" | content_kind => "content" end.

(** The parts of a parsed endpoint that the code reads. *)
Record EndpointUrl := mkEndpointUrl {
  eu_username : string;
  eu_password : string;
  eu_search : string;
  eu_hash : string;
  eu_href : string
}.
Class EndpointParser := parse_endpoint : string → option EndpointUrl.

Record BrowserCasNodeCacheOptions := mkCacheOptions {
  op_endpoint : string;
  op_principal : string;
  op_databaseName : option string;
  op_maxBytes : option Z;
  op_maxMemoryBytes : option Z;
  op_maxEntryBytes : option Z
}.

(** What a cache is made with. *)
Record CacheConfig := mkConfig {
  cf_realm : nat;
  cf_endpoint : string;
  cf_principal : string;
  cf_namespace : string;
  cf_databaseName : string;
  cf_maxBytes : Z;
  cf_maxMemoryBytes : Z;
  cf_maxEntryBytes : Z
}.

Definition default_databaseName : string := "unicas-node-cache-v2".
Definition namespaceParts (endpoint principal : string) : list Json := [JStr "v2"; JStr endpoint; JStr principal].
Definition namespace_text (endpoint principal : string) : string :=
  of_chars (JSON_stringify (JArr (namespaceParts endpoint principal))).

(** [s.replace(/\/$/, "")]. *)
Definition drop_slash (s : string) : string :=
  match rev (chars s) with
  | c :: l => if bool_decide (c = "/"%char) then of_chars (rev l) else s
  | [] => s
  end.

Definition keyParts (key : AppCasNodeCacheKey) (kind : EntryKind) : result exn (list Json) :=
  if ck_version key =? 1
  then Ok [JStr "v2"; JStr (ck_appId key); JStr (ck_spaceId key); JStr (ck_hash key); JStr (kind_name kind)]
  else Throw (TypeError "App/Space cache requires a v1 cache key").
Definition keyId (cf : CacheConfig) (key : AppCasNodeCacheKey) (kind : EntryKind) : result exn string :=
  parts ← keyParts key kind;
  Ok (of_chars (JSON_stringify (JArr (JStr (cf_namespace cf) :: parts)))).

(** * Caches *)

(** [database]: the promise of the connection. *)
Inductive Connection := unopened | opening | opened | unavailable.

Record Cache := mkCache {
  ca_config : CacheConfig;
  ca_memory : JsMap nat;
  ca_memoryBytes : Z;
  ca_pending : gmap string nat;
  ca_generation : nat;
  ca_closed : bool;
  ca_clock : Z;
  ca_database : Connection
}.
Definition set_memory m n ca :=
  mkCache (ca_config ca) m n (ca_pending ca) (ca_generation ca) (ca_closed ca) (ca_clock ca) (ca_database ca).
Definition set_pending p ca :=
  mkCache (ca_config ca) (ca_memory ca) (ca_memoryBytes ca) p (ca_generation ca) (ca_closed ca) (ca_clock ca) (ca_database ca).
Definition set_clock n ca :=
  mkCache (ca_config ca) (ca_memory ca) (ca_memoryBytes ca) (ca_pending ca) (ca_generation ca) (ca_closed ca) n (ca_database ca).
Definition set_database d ca :=
  mkCache (ca_config ca) (ca_memory ca) (ca_memoryBytes ca) (ca_pending ca) (ca_generation ca) (ca_closed ca) (ca_clock ca) d.
Definition set_closed ca :=
  mkCache (ca_config ca) (ca_memory ca) (ca_memoryBytes ca) (ca_pending ca) (ca_generation ca) true (ca_clock ca) (ca_database ca).

Definition createBrowserNodeCacheCore `{EndpointParser} (realm : nat) (now : Z)
    (options : BrowserCasNodeCacheOptions) : result exn Cache :=
  match parse_endpoint (op_endpoint options) with
  | None => Throw (TypeError "Invalid URL")
  | Some url =>
      let present s := negb (strlen s =? 0) in
      _ ← throw_if (present (eu_username url) || present (eu_password url) || present (eu_search url)
                    || present (eu_hash url))
            (TypeError "Cache endpoint must not contain credentials, query, or fragment");
      _ ← throw_if (strlen (op_principal options) =? 0) (TypeError "Cache principal is required");
      let maxBytes := default (64 * 1024 * 1024) (op_maxBytes options) in
      let maxMemoryBytes := default (8 * 1024 * 1024) (op_maxMemoryBytes options) in
      let maxEntryBytes := default (4 * 1024 * 1024) (op_maxEntryBytes options) in
      _ ← each_result (λ limit, throw_if (negb (isSafeInteger limit) || (limit <? 0))
                                  (TypeError "Cache limits must be non-negative safe integers"))
            [maxBytes; maxMemoryBytes; maxEntryBytes];
      let endpointValue := drop_slash (eu_href url) in
      Ok (mkCache
            (mkConfig realm endpointValue (op_principal options)
               (namespace_text endpointValue (op_principal options))
               (default default_databaseName (op_databaseName options))
               maxBytes maxMemoryBytes maxEntryBytes)
            [] 0 ∅ 0 false now unopened)
  end.

Definition invalidate (ca : Cache) : Cache :=
  mkCache (ca_config ca) [] 0 ∅ (S (ca_generation ca)) (ca_closed ca) (ca_clock ca) (ca_database ca).
Definition next_tick (now : Z) (ca : Cache) : Z := Z.max (ca_clock ca + 1) now.

Definition Heap : Type := list Entry.
Definition bytes_at (h : Heap) (l : nat) : Z := match h !! l with Some e => en_bytes e | None => 0 end.

(** The loop of [remember]. The map is never empty while it runs ([evict_oldest_ok]). *)
Fixpoint evict_oldest (h : Heap) (maxMemoryBytes : Z) (memory : JsMap nat) (memoryBytes : Z) : JsMap nat * Z :=
  match memory with
  | [] => ([], memoryBytes)
  | oldest :: rest =>
      if maxMemoryBytes <? memoryBytes
      then evict_oldest h maxMemoryBytes rest (memoryBytes - bytes_at h (snd oldest))
      else (memory, memoryBytes)
  end.
Definition remember (h : Heap) (id : string) (l : nat) (ca : Cache) : Cache :=
  let '(memory, memoryBytes) :=
    match map_get id (ca_memory ca) with
    | Some old => (map_delete id (ca_memory ca), ca_memoryBytes ca - bytes_at h old)
    | None => (ca_memory ca, ca_memoryBytes ca)
    end in
  let max := cf_maxMemoryBytes (ca_config ca) in
  if max <? bytes_at h l then set_memory memory memoryBytes ca
  else let '(memory, memoryBytes) := evict_oldest h max (map_set id l memory) (memoryBytes + bytes_at h l) in
       set_memory memory memoryBytes ca.

(** * Databases *)

(** What a call to clear is about: the caches of a namespace, or of a principal. *)
Inductive Scope := NamespaceScope (namespace : string) | PrincipalScope (principal : string).
#[global] Instance Scope_eq : EqDecision Scope. Proof. solve_decision. Defined.
Definition covers (s : Scope) (namespace principal : string) : bool :=
  match s with
  | NamespaceScope n => bool_decide (namespace = n)
  | PrincipalScope p => bool_decide (principal = p)
  end.
Definition entry_in (s : Scope) (e : Entry) : bool := covers s (en_namespace e) (en_principal e).
Definition cache_in (s : Scope) (databaseName : string) (cf : CacheConfig) : bool :=
  covers s (cf_namespace cf) (cf_principal cf) && bool_decide (cf_databaseName cf = databaseName).

Inductive Transaction :=
| TxGet (id : string)
| TxTouch (id : string) (l : nat)
| TxPut (entry : Entry) (namespace : string) (maxBytes : Z)
| TxDelete (s : Scope).

(** The object store, and the transactions created on it with the calls that wait. *)
Record Database := mkDatabase { db_nodes : gmap string Entry; db_queue : list (nat * Transaction) }.
Definition Database_empty : Database := mkDatabase ∅ [].

(** [index.getAll(key)]: by primary key. *)
Definition by_id (e1 e2 : Entry) : Z :=
  match String.compare (en_id e1) (en_id e2) with Lt => -1 | Eq => 0 | Gt => 1 end.
Definition all_in (s : Scope) (nodes : gmap string Entry) : list Entry :=
  js_sort by_id (filter (λ e, entry_in s e = true) (snd <$> map_to_list nodes)).
Definition total_bytes (l : list Entry) : Z := foldr (λ e n, en_bytes e + n) 0 l.

Fixpoint evict_stored (maxBytes total : Z) (candidates : list Entry) (nodes : gmap string Entry)
    : gmap string Entry :=
  match candidates with
  | [] => nodes
  | candidate :: rest =>
      if total <=? maxBytes then nodes
      else evict_stored maxBytes (total - en_bytes candidate) rest (delete (en_id candidate) nodes)
  end.
(** The transaction of [put]. *)
Definition put_nodes (e : Entry) (namespace : string) (maxBytes : Z) (nodes : gmap string Entry)
    : gmap string Entry :=
  let nodes := <[en_id e := e]> nodes in
  let entries := all_in (NamespaceScope namespace) nodes in
  evict_stored maxBytes (total_bytes entries)
    (js_sort (λ left right, en_touched left - en_touched right) entries) nodes.
Definition delete_nodes (s : Scope) (nodes : gmap string Entry) : gmap string Entry :=
  foldr (λ e nodes, delete (en_id e) nodes) nodes (all_in s nodes).

(** * Calls *)

(** What a call keeps: its cache, key, signal ([Some true] when aborted), the text of its
    key, and the generation of the cache when it began. *)
Record CallInfo := mkCall {
  cl_cache : nat;
  cl_key : AppCasNodeCacheKey;
  cl_signal : option bool;
  cl_id : string;
  cl_epoch : nat
}.
Definition aborted (k : CallInfo) : bool := default false (cl_signal k).
Definition unsignalled (k : CallInfo) : bool := match cl_signal k with None => true | Some _ => false end.
Definition AbortError : exn := Error "AbortError".

(** Where [get] and [put] wait: for the connection, for the store ([None] until it
    answers), for a transaction; and that they returned. *)
Inductive GetPhase :=
| GetDb (epoch : nat) (entry : option nat)
| GetStore (epoch : nat) (reply : option (option nat))
| GetTouch (epoch : nat) (entry : nat) (replied : bool)
| GetReturned (entry : option nat).
Inductive PutPhase :=
| PutDb (entry : nat) (epoch : nat)
| PutTransaction (replied : bool)
| PutReturned.

Inductive MetadataPhase :=
| MetadataGet (g : GetPhase)
| MetadataJoined (operation : nat)
| MetadataLoading
| MetadataPut (m : CasNodeMetadata) (p : PutPhase)
| MetadataSettled (answer : result exn CasNodeMetadata)
| MetadataDone (answer : result exn CasNodeMetadata).
(** [ReadPassed]: the stream of the load is passed on. [ReadStream]: the stream given to
    the caller, with what is kept, what has been counted and what has been delivered. *)
Inductive ReadPhase :=
| ReadGet (g : GetPhase)
| ReadPassed
| ReadLoading
| ReadStream (parts : bytes) (count : Z) (cacheable : bool) (delivered : bytes)
| ReadPut (delivered : bytes) (p : PutPhase)
| ReadDone (answer : result exn bytes).
(** [ClearDb usable]: whether [db()] was called on a cache that was open. *)
Inductive ClearPhase :=
| ClearDb (usable : bool)
| ClearTransaction
| ClearDone (cleared : bool).

Inductive Task :=
| MetadataTask (k : CallInfo) (p : MetadataPhase)
| ReadTask (k : CallInfo) (range : option CasNodeRange) (p : ReadPhase)
| ClearTask (cache : option nat) (s : Scope) (databaseName : string) (p : ClearPhase).

(** * The world *)

Inductive Payload := LoadedMetadata (m : CasNodeMetadata) | LoadedContent (content : bytes).
(** A load that was completed, with the cache it was made for. *)
Record Load := mkLoad { ld_config : CacheConfig; ld_key : AppCasNodeCacheKey; ld_payload : Payload }.

Record World := mkWorld {
  caches : gmap nat Cache;
  liveCaches : list nat;
  heap : Heap;
  databases : gmap string Database;
  inbox : list (nat * Scope);
  tasks : gmap nat Task;
  loads : list Load
}.
Definition World_empty : World := mkWorld ∅ [] [] ∅ [] ∅ [].
Definition set_caches x w := mkWorld x (liveCaches w) (heap w) (databases w) (inbox w) (tasks w) (loads w).
Definition set_liveCaches x w := mkWorld (caches w) x (heap w) (databases w) (inbox w) (tasks w) (loads w).
Definition set_heap x w := mkWorld (caches w) (liveCaches w) x (databases w) (inbox w) (tasks w) (loads w).
Definition set_databases x w := mkWorld (caches w) (liveCaches w) (heap w) x (inbox w) (tasks w) (loads w).
Definition set_inbox x w := mkWorld (caches w) (liveCaches w) (heap w) (databases w) x (tasks w) (loads w).
Definition set_tasks x w := mkWorld (caches w) (liveCaches w) (heap w) (databases w) (inbox w) x (loads w).
Definition set_loads x w := mkWorld (caches w) (liveCaches w) (heap w) (databases w) (inbox w) (tasks w) x.

Definition on_cache (c : nat) (f : Cache → Cache) (w : World) : World := set_caches (alter f c (caches w)) w.
Definition place (t : nat) (k : Task) (w : World) : World := set_tasks (<[t := k]> (tasks w)) w.
Definition database (d : string) (w : World) : Database := default Database_empty (databases w !! d).
Definition enqueue (d : string) (t : nat) (tx : Transaction) (w : World) : World :=
  let db := database d w in
  set_databases (<[d := mkDatabase (db_nodes db) (db_queue db ++ [(t, tx)])]> (databases w)) w.
Definition allocate (e : Entry) (w : World) : World := set_heap (heap w ++ [e]) w.
Definition touch (l : nat) (now : Z) (w : World) : World := set_heap (alter (set_touched now) l (heap w)) w.

(** [db()] of a cache that is open. *)
Definition open_database (ca : Cache) : Cache :=
  match ca_database ca with unopened => set_database opening ca | _ => ca end.
(** The promise of the connection: [None] while it is pending. *)
Definition connected (ca : Cache) : option bool :=
  match ca_database ca with opened => Some true | unavailable => Some false | _ => None end.
Definition stale (ca : Cache) (epoch : nat) : bool := ca_closed ca || negb (epoch =? ca_generation ca)%nat.

(** ** [get] *)

Definition get_begin (c : nat) (ca : Cache) (id : string) (w : World) : GetPhase * World :=
  if ca_closed ca then (GetReturned None, w)
  else (GetDb (ca_generation ca) (map_get id (ca_memory ca)), on_cache c open_database w).

(** What follows the read of the entry; [ok]: whether a transaction can be created. *)
Definition get_check (t c : nat) (ca : Cache) (id : string) (epoch : nat) (store : bool)
    (entry : option nat) (now : Z) (ok : bool) (w : World) : GetPhase * World :=
  if stale ca epoch then (GetReturned None, w)
  else
    match entry with
    | None => (GetReturned None, w)
    | Some l =>
        let touched := next_tick now ca in
        let w := touch l touched w in
        let w := on_cache c (λ ca, remember (heap w) id l (set_clock touched ca)) w in
        if store && ok
        then (GetTouch epoch l false, enqueue (cf_databaseName (ca_config ca)) t (TxTouch id l) w)
        else (GetReturned (Some l), w)
    end.

(** One step of [get] from where it waits; [None] while it has to. *)
Definition get_resume (t c : nat) (id : string) (g : GetPhase) (now : Z) (ok : bool) (w : World)
    : option (GetPhase * World) :=
  ca ← caches w !! c;
  match g with
  | GetDb epoch entry =>
      store ← connected ca;
      match entry with
      | Some _ => Some (get_check t c ca id epoch store entry now ok w)
      | None =>
          if store
          then if ok then Some (GetStore epoch None, enqueue (cf_databaseName (ca_config ca)) t (TxGet id) w)
               else Some (GetReturned None, w)
          else Some (GetStore epoch (Some None), w)
      end
  | GetStore epoch reply =>
      entry ← reply;
      Some (get_check t c ca id epoch true entry now ok w)
  | GetTouch epoch l replied =>
      if replied then Some (GetReturned (if stale ca epoch then None else Some l), w) else None
  | GetReturned _ => None
  end.

(** ** [put] *)

Definition put_begin (c : nat) (ca : Cache) (l : nat) (e : Entry) (epoch : nat) (w : World) : PutPhase * World :=
  let cf := ca_config ca in
  if stale ca epoch || (cf_maxBytes cf <? en_bytes e) || (cf_maxEntryBytes cf <? en_bytes e)
  then (PutReturned, w)
  else (PutDb l epoch, on_cache c (λ ca, open_database (remember (heap w) (en_id e) l ca)) w).

Definition put_resume (t c : nat) (p : PutPhase) (ok : bool) (w : World) : option (PutPhase * World) :=
  ca ← caches w !! c;
  match p with
  | PutDb l epoch =>
      store ← connected ca;
      if negb store || stale ca epoch then Some (PutReturned, w)
      else
        match heap w !! l with
        | Some e =>
            if ok
            then Some (PutTransaction false,
                       enqueue (cf_databaseName (ca_config ca)) t
                         (TxPut e (cf_namespace (ca_config ca)) (cf_maxBytes (ca_config ca))) w)
            else Some (PutReturned, w)
        | None => None
        end
  | PutTransaction replied => if replied then Some (PutReturned, w) else None
  | PutReturned => None
  end.
(** A new entry is made, and put. *)
Definition store_entry (k : CallInfo) (ca : Cache) (n now : Z) (m : option CasNodeMetadata)
    (content : option bytes) (w : World) : PutPhase * World :=
  let touched := next_tick now ca in
  let e := mkEntry (cl_id k) (cf_namespace (ca_config ca)) (cf_principal (ca_config ca)) n touched m content in
  let w := on_cache (cl_cache k) (set_clock touched) w in
  put_begin (cl_cache k) (set_clock touched ca) (length (heap w)) e (cl_epoch k) (allocate e w).

(** ** [metadata] *)

(** [JSON.stringify(metadata)], of its four fields. *)
Definition metadata_json (m : CasNodeMetadata) : Json :=
  JObj [("hash", JStr (NodeContent.nm_hash m)); ("size", JInt (NodeContent.nm_size m));
        ("contentType", JStr (NodeContent.nm_contentType m)); ("refs", JArr (JStr <$> NodeContent.nm_refs m))].
Definition metadata_bytes (m : CasNodeMetadata) : Z :=
  Z.of_nat (length (TextEncoder_encode (of_chars (JSON_stringify (metadata_json m))))).

(** A call begins: the generation is read, the signal and the key are looked at. *)
Definition begin_call (c : nat) (ca : Cache) (key : AppCasNodeCacheKey) (signal : option bool)
    (kind : EntryKind) : CallInfo * result exn unit :=
  let k id := mkCall c key signal id (ca_generation ca) in
  if default false signal then (k EmptyString, Throw AbortError)
  else match keyId (ca_config ca) key kind with
       | Ok id => (k id, Ok tt)
       | Throw e => (k EmptyString, Throw e)
       end.
Definition begin_metadata (t c : nat) (ca : Cache) (key : AppCasNodeCacheKey) (signal : option bool) (w : World)
    : World :=
  match begin_call c ca key signal metadata_kind with
  | (k, Throw e) => place t (MetadataTask k (MetadataDone (Throw e))) w
  | (k, Ok _) => let '(g, w) := get_begin c ca (cl_id k) w in place t (MetadataTask k (MetadataGet g)) w
  end.

(** The cache was consulted. *)
Definition metadata_found (t : nat) (k : CallInfo) (ca : Cache) (entry : option nat) (w : World)
    : MetadataPhase * World :=
  if aborted k then (MetadataDone (Throw AbortError), w)
  else
    match (l ← entry; e ← heap w !! l; en_metadata e) with
    | Some m => (MetadataDone (Ok m), w)
    | None =>
        match (if unsignalled k then ca_pending ca !! cl_id k else None) with
        | Some operation => (MetadataJoined operation, w)
        | None =>
            (MetadataLoading,
             if unsignalled k
             then on_cache (cl_cache k) (λ ca, set_pending (<[cl_id k := t]> (ca_pending ca)) ca) w else w)
        end
    end.
(** [load()] settled. *)
Definition metadata_loaded (k : CallInfo) (ca : Cache) (answer : result exn CasNodeMetadata) (now : Z) (w : World)
    : MetadataPhase * World :=
  match answer with
  | Throw e => (MetadataSettled (Throw e), w)
  | Ok m =>
      let w := set_loads (mkLoad (ca_config ca) (cl_key k) (LoadedMetadata m) :: loads w) w in
      if aborted k then (MetadataSettled (Throw AbortError), w)
      else if bool_decide (NodeContent.nm_hash m = ck_hash (cl_key k))
      then let '(p, w) := store_entry k ca (metadata_bytes m) now (Some m) None w in (MetadataPut m p, w)
      else (MetadataSettled (Ok m), w)
  end.
Definition settled (k : Task) : option (result exn CasNodeMetadata) :=
  match k with MetadataTask _ (MetadataSettled r | MetadataDone r) => Some r | _ => None end.

Definition metadata_resume (t : nat) (k : CallInfo) (ca : Cache) (p : MetadataPhase) (now : Z) (ok : bool)
    (w : World) : option (MetadataPhase * World) :=
  match p with
  | MetadataGet (GetReturned entry) => Some (metadata_found t k ca entry w)
  | MetadataGet g => '(g, w) ← get_resume t (cl_cache k) (cl_id k) g now ok w; Some (MetadataGet g, w)
  | MetadataJoined operation =>
      task ← tasks w !! operation;
      r ← settled task;
      Some (MetadataDone r, w)
  | MetadataPut m PutReturned => Some (MetadataSettled (Ok m), w)
  | MetadataPut m p => '(p, w) ← put_resume t (cl_cache k) p ok w; Some (MetadataPut m p, w)
  | MetadataSettled r =>
      Some (MetadataDone r,
            on_cache (cl_cache k)
              (λ ca, set_pending (if bool_decide (ca_pending ca !! cl_id k = Some t)
                                  then delete (cl_id k) (ca_pending ca) else ca_pending ca) ca) w)
  | MetadataLoading | MetadataDone _ => None
  end.

(** ** [read] *)

Definition validateRange (range : option CasNodeRange) : result exn unit :=
  match range with
  | None => Ok tt
  | Some r =>
      throw_if (negb (isSafeInteger (NodeContent.nr_offset r)) || (NodeContent.nr_offset r <? 0)
                || match NodeContent.nr_length r with
                   | Some n => negb (isSafeInteger n) || (n <? 0)
                   | None => false
                   end) (TypeError "CAS node range must contain non-negative safe integers")
  end.
Definition begin_read (t c : nat) (ca : Cache) (key : AppCasNodeCacheKey) (range : option CasNodeRange)
    (signal : option bool) (w : World) : World :=
  let k := mkCall c key signal EmptyString (ca_generation ca) in
  let done r := place t (ReadTask k range (ReadDone r)) w in
  if default false signal then done (Throw AbortError)
  else
    match validateRange range with
    | Throw e => done (Throw e)
    | Ok _ =>
        if bool_decide (range ≫= NodeContent.nr_length = Some 0) then done (Ok [])
        else
          match begin_call c ca key signal content_kind with
          | (k, Throw e) => done (Throw e)
          | (k, Ok _) => let '(g, w) := get_begin c ca (cl_id k) w in place t (ReadTask k range (ReadGet g)) w
          end
    end.

(** [blob.slice(offset, end)], of an offset that is not negative. *)
Definition slice (offset : Z) (stop : option Z) (b : bytes) : bytes :=
  let from := drop (Z.to_nat offset) b in
  match stop with Some n => take (Z.to_nat (n - offset)) from | None => from end.
Definition cached_range (range : option CasNodeRange) (content : bytes) : result exn bytes :=
  match range with
  | None => Ok content
  | Some r =>
      if Z.of_nat (length content) <=? NodeContent.nr_offset r
      then Throw (RangeError "Range starts beyond cached node content")
      else Ok (slice (NodeContent.nr_offset r) ((λ n, NodeContent.nr_offset r + n) <$> NodeContent.nr_length r) content)
  end.
Definition read_found (k : CallInfo) (range : option CasNodeRange) (ca : Cache) (entry : option nat) (w : World)
    : ReadPhase :=
  if aborted k then ReadDone (Throw AbortError)
  else
    match (l ← entry; e ← heap w !! l; en_content e) with
    | Some content => ReadDone (cached_range range content)
    | None =>
        let cf := ca_config ca in
        match range with
        | Some _ => ReadPassed
        | None => if ca_closed ca || (cf_maxEntryBytes cf =? 0) || (cf_maxBytes cf =? 0) then ReadPassed else ReadLoading
        end
    end.

(** [pull]: a chunk arrived, or the source is done ([None]). *)
Definition read_chunk (k : CallInfo) (ca : Cache) (parts : bytes) (count : Z) (cacheable : bool) (delivered : bytes)
    (chunk : option bytes) (now : Z) (w : World) : ReadPhase * World :=
  let w := match chunk with
           | None => set_loads (mkLoad (ca_config ca) (cl_key k) (LoadedContent delivered) :: loads w) w
           | Some _ => w
           end in
  if aborted k then (ReadDone (Throw AbortError), w)
  else
    match chunk with
    | None =>
        if cacheable
        then let '(p, w) := store_entry k ca (Z.max 1 count) now None (Some parts) w in (ReadPut delivered p, w)
        else (ReadDone (Ok delivered), w)
    | Some chunk =>
        let count := count + Z.of_nat (length chunk) in
        let '(cacheable, parts) :=
          if Z.min (cf_maxEntryBytes (ca_config ca)) (cf_maxBytes (ca_config ca)) <? count
          then (false, []) else (cacheable, parts) in
        let parts := if cacheable then parts ++ chunk else parts in
        (ReadStream parts count cacheable (delivered ++ chunk), w)
    end.
Definition read_resume (t : nat) (k : CallInfo) (range : option CasNodeRange) (ca : Cache) (p : ReadPhase)
    (now : Z) (ok : bool) (w : World) : option (ReadPhase * World) :=
  match p with
  | ReadGet (GetReturned entry) => Some (read_found k range ca entry w, w)
  | ReadGet g => '(g, w) ← get_resume t (cl_cache k) (cl_id k) g now ok w; Some (ReadGet g, w)
  | ReadPut delivered PutReturned => Some (ReadDone (Ok delivered), w)
  | ReadPut delivered p => '(p, w) ← put_resume t (cl_cache k) p ok w; Some (ReadPut delivered p, w)
  | ReadPassed | ReadLoading | ReadStream _ _ _ _ | ReadDone _ => None
  end.

(** ** [clear], [clearBrowserNodeCachesCore], [close] *)

(** Every live cache of the realm in the scope is invalidated, and the others are told. *)
Definition invalidate_live (realm : nat) (s : Scope) (d : string) (w : World) : World :=
  foldr (λ c w,
           match caches w !! c with
           | Some ca => if (cf_realm (ca_config ca) =? realm)%nat && cache_in s d (ca_config ca)
                        then on_cache c invalidate w else w
           | None => w
           end) w (liveCaches w).
Definition post_message (sender : option nat) (s : Scope) (d : string) (w : World) : World :=
  let receivers := filter (λ e : nat * Cache, Some (fst e) ≠ sender ∧ ca_closed (snd e) = false
                                              ∧ cf_databaseName (ca_config (snd e)) = d) (map_to_list (caches w)) in
  set_inbox (inbox w ++ ((λ e, (fst e, s)) <$> receivers)) w.
Definition begin_clear (t c : nat) (ca : Cache) (w : World) : World :=
  let cf := ca_config ca in
  let s := NamespaceScope (cf_namespace cf) in
  let d := cf_databaseName cf in
  let w := invalidate_live (cf_realm cf) s d w in
  let w := if ca_closed ca then w else on_cache c open_database (post_message (Some c) s d w) in
  place t (ClearTask (Some c) s d (ClearDb (negb (ca_closed ca)))) w.
Definition clearBrowserNodeCachesCore (t realm : nat) (principal d : string) (w : World) : World :=
  let s := PrincipalScope principal in
  place t (ClearTask None s d (ClearDb true)) (post_message None s d (invalidate_live realm s d w)).
Definition clear_resume (t : nat) (cache : option nat) (s : Scope) (d : string) (p : ClearPhase) (ok : bool)
    (w : World) : option (ClearPhase * World) :=
  match p with
  | ClearDb usable =>
      store ← match cache with
              | Some c => if usable then ca ← caches w !! c; connected ca else Some false
              | None => Some true
              end;
      if store && ok then Some (ClearTransaction, enqueue d t (TxDelete s) w) else Some (ClearDone false, w)
  | ClearTransaction | ClearDone _ => None
  end.
Definition close (c : nat) (w : World) : World :=
  set_liveCaches (filter (λ c', c' ≠ c) (liveCaches w)) (on_cache c (λ ca, invalidate (set_closed ca)) w).

(** ** Transactions

    What the first transaction of a database comes to, and what the call that waits for
    it learns. *)

Definition learn_get (id : option nat) (g : GetPhase) : GetPhase :=
  match g with
  | GetStore epoch None => GetStore epoch (Some id)
  | GetTouch epoch l false => GetTouch epoch l true
  | _ => g
  end.
Definition learn_put (p : PutPhase) : PutPhase :=
  match p with PutTransaction false => PutTransaction true | _ => p end.
Definition learn (entry : option nat) (cleared : bool) (k : Task) : Task :=
  match k with
  | MetadataTask k (MetadataGet g) => MetadataTask k (MetadataGet (learn_get entry g))
  | MetadataTask k (MetadataPut m p) => MetadataTask k (MetadataPut m (learn_put p))
  | ReadTask k r (ReadGet g) => ReadTask k r (ReadGet (learn_get entry g))
  | ReadTask k r (ReadPut delivered p) => ReadTask k r (ReadPut delivered (learn_put p))
  | ClearTask c s d ClearTransaction => ClearTask c s d (ClearDone cleared)
  | _ => k
  end.

Definition run_transaction (h : Heap) (tx : Transaction) (nodes : gmap string Entry) : gmap string Entry :=
  match tx with
  | TxGet _ => nodes
  | TxTouch id l =>
      match nodes !! id with
      | Some persisted =>
          let touched := match h !! l with Some e => en_touched e | None => 0 end in
          <[id := set_touched touched persisted]> nodes
      | None => nodes
      end
  | TxPut e namespace maxBytes => put_nodes e namespace maxBytes nodes
  | TxDelete s => delete_nodes s nodes
  end.
Definition commit (d : string) (ok : bool) (w : World) : option World :=
  let db := database d w in
  match db_queue db with
  | [] => None
  | (t, tx) :: queue =>
      let nodes := if ok then run_transaction (heap w) tx (db_nodes db) else db_nodes db in
      let read := if ok then match tx with TxGet id => db_nodes db !! id | _ => None end else None in
      let w1 := set_databases (<[d := mkDatabase nodes queue]> (databases w)) w in
      let w2 := match read with Some e => allocate e w1 | None => w1 end in
      let entry := match read with Some _ => Some (length (heap w)) | None => None end in
      Some (set_tasks (alter (learn entry ok) t (tasks w2)) w2)
  end.

(** ** Steps *)

Inductive Event :=
| Creates (c realm : nat) (now : Z) (options : BrowserCasNodeCacheOptions)
| Connects (c : nat) (ok : bool)
| BeginsMetadata (t c : nat) (key : AppCasNodeCacheKey) (signal : option bool)
| BeginsRead (t c : nat) (key : AppCasNodeCacheKey) (range : option CasNodeRange) (signal : option bool)
| BeginsClear (t c : nat)
| BeginsClearPrincipal (t realm : nat) (principal databaseName : string)
| Closes (c : nat)
| Resumes (t : nat) (now : Z) (ok : bool)
| LoadsMetadata (t : nat) (answer : result exn CasNodeMetadata) (now : Z)
| LoadsContent (t : nat) (answer : result exn unit)
| Pulls (t : nat) (chunk : result exn (option bytes)) (now : Z)
| Cancels (t : nat)
| Aborts (t : nat)
| Commits (databaseName : string) (ok : bool)
| Delivers (n : nat).

Definition fresh (t : nat) (w : World) : option unit :=
  match tasks w !! t with Some _ => None | None => Some tt end.
Definition abort_call (k : CallInfo) : CallInfo :=
  mkCall (cl_cache k) (cl_key k) (Some true) (cl_id k) (cl_epoch k).

Definition step `{EndpointParser} (e : Event) (w : World) : option World :=
  match e with
  | Creates c realm now options =>
      match caches w !! c, createBrowserNodeCacheCore realm now options with
      | None, Ok ca => Some (set_liveCaches (c :: liveCaches w) (set_caches (<[c := ca]> (caches w)) w))
      | _, _ => None
      end
  | Connects c ok =>
      ca ← caches w !! c;
      match ca_database ca with
      | opening =>
          Some (on_cache c (set_database (if ok && negb (ca_closed ca) then opened else unavailable)) w)
      | _ => None
      end
  | BeginsMetadata t c key signal =>
      _ ← fresh t w;
      ca ← caches w !! c;
      Some (begin_metadata t c ca key signal w)
  | BeginsRead t c key range signal =>
      _ ← fresh t w;
      ca ← caches w !! c;
      Some (begin_read t c ca key range signal w)
  | BeginsClear t c =>
      _ ← fresh t w;
      ca ← caches w !! c;
      Some (begin_clear t c ca w)
  | BeginsClearPrincipal t realm principal d =>
      _ ← fresh t w;
      Some (clearBrowserNodeCachesCore t realm principal d w)
  | Closes c => Some (close c w)
  | Resumes t now ok =>
      task ← tasks w !! t;
      match task with
      | MetadataTask k p =>
          ca ← caches w !! cl_cache k;
          '(p, w) ← metadata_resume t k ca p now ok w;
          Some (place t (MetadataTask k p) w)
      | ReadTask k range p =>
          ca ← caches w !! cl_cache k;
          '(p, w) ← read_resume t k range ca p now ok w;
          Some (place t (ReadTask k range p) w)
      | ClearTask c s d p =>
          '(p, w) ← clear_resume t c s d p ok w;
          Some (place t (ClearTask c s d p) w)
      end
  | LoadsMetadata t answer now =>
      task ← tasks w !! t;
      match task with
      | MetadataTask k MetadataLoading =>
          ca ← caches w !! cl_cache k;
          let '(p, w) := metadata_loaded k ca answer now w in
          Some (place t (MetadataTask k p) w)
      | _ => None
      end
  | LoadsContent t answer =>
      task ← tasks w !! t;
      match task with
      | ReadTask k range ReadLoading =>
          Some (place t (ReadTask k range (match answer with
                                           | Ok _ => ReadStream [] 0 true []
                                           | Throw e => ReadDone (Throw e)
                                           end)) w)
      | _ => None
      end
  | Pulls t chunk now =>
      task ← tasks w !! t;
      match task with
      | ReadTask k range (ReadStream parts count cacheable delivered) =>
          match chunk with
          | Throw e => Some (place t (ReadTask k range (ReadDone (Throw e))) w)
          | Ok chunk =>
              ca ← caches w !! cl_cache k;
              let '(p, w) := read_chunk k ca parts count cacheable delivered chunk now w in
              Some (place t (ReadTask k range p) w)
          end
      | _ => None
      end
  | Cancels t =>
      task ← tasks w !! t;
      match task with
      | ReadTask k range (ReadStream _ _ _ _) => Some (place t (ReadTask k range (ReadDone (Throw AbortError))) w)
      | _ => None
      end
  | Aborts t =>
      task ← tasks w !! t;
      match task with
      | MetadataTask k p => if unsignalled k then None else Some (place t (MetadataTask (abort_call k) p) w)
      | ReadTask k range p =>
          if unsignalled k then None
          else Some (place t (ReadTask (abort_call k) range
                                (match p with ReadStream _ _ _ _ => ReadDone (Throw AbortError) | _ => p end)) w)
      | ClearTask _ _ _ _ => None
      end
  | Commits d ok => commit d ok w
  | Delivers n =>
      '(c, s) ← inbox w !! n;
      let w := set_inbox (take n (inbox w) ++ drop (S n) (inbox w)) w in
      Some (on_cache c (λ ca, if negb (ca_closed ca) && covers s (cf_namespace (ca_config ca)) (cf_principal (ca_config ca))
                              then invalidate ca else ca) w)
  end.

Inductive reachable `{EndpointParser} : World → Prop :=
| reachable_empty : reachable World_empty
| reachable_step e w w' : reachable w → step e w = Some w' → reachable w'.
