(* ===== verification/BrowserCacheSafe.v ===== *)
(** What the node cache of a browser promises ([BrowserCache]): an answer was loaded for
    the same key and principal, the memory and the database keep within their limits,
    and clearing leaves nothing behind. *)
From Stdlib Require Import Ascii.
From S2P Require Import Prelude Js JsString JsMap JsonText Errors BrowserCache.
From S2P Require NodeContent.

(** * Keys *)

Lemma stringify_inj l1 l2 :
  of_chars (JSON_stringify (JArr (JStr <$> l1))) = of_chars (JSON_stringify (JArr (JStr <$> l2))) → l1 = l2.
Proof.
  intros H%(f_equal chars). rewrite !chars_of_chars in H.
  assert (∀ l, json_plain (JArr (JStr <$> l))) as Hp.
  { intros l. constructor. apply Forall_fmap, Forall_true. intros s. apply plain_str. }
  apply (f_equal JSON_parse) in H. rewrite !JSON_round_trip in H by apply Hp. simplify_eq.
  apply list_fmap_eq_inj in H; [done|]. by intros ?? [= ->].
Qed.

Definition config_ok (cf : CacheConfig) : Prop :=
  cf_namespace cf = namespace_text (cf_endpoint cf) (cf_principal cf)
  ∧ 0 ≤ cf_maxBytes cf ∧ 0 ≤ cf_maxMemoryBytes cf.

Lemma namespace_inj cf cf' : config_ok cf → config_ok cf' → cf_namespace cf = cf_namespace cf' →
  cf_endpoint cf = cf_endpoint cf' ∧ cf_principal cf = cf_principal cf'.
Proof.
  intros [-> _] [-> _] H. apply (stringify_inj ["v2"; _; _] ["v2"; _; _]) in H. by simplify_eq.
Qed.
Lemma keyId_text cf key kind id : keyId cf key kind = Ok id →
  ck_version key = 1
  ∧ id = of_chars (JSON_stringify (JArr (JStr <$> [cf_namespace cf; "v2"; ck_appId key; ck_spaceId key;
                                                  ck_hash key; kind_name kind]))).
Proof.
  unfold keyId, keyParts. destruct (Z.eqb_spec (ck_version key) 1) as [E|]; [|done].
  intros H. injection H as H. split; [done|]. by rewrite <- H.
Qed.
Lemma keyId_inj cf key kind cf' key' kind' id : keyId cf key kind = Ok id → keyId cf' key' kind' = Ok id →
  cf_namespace cf = cf_namespace cf' ∧ key = key' ∧ kind = kind'.
Proof.
  intros [Hv ->]%keyId_text [Hv' H]%keyId_text. apply stringify_inj in H.
  destruct key, key'; simplify_eq/=. by destruct kind, kind'.
Qed.

(** * The memory of a cache *)

Definition mem_sum (h : Heap) (m : JsMap nat) : Z := foldr (λ e n, bytes_at h (snd e) + n) 0 m.
Record memory_ok (h : Heap) (max : Z) (m : JsMap nat) (n : Z) : Prop := {
  mo_wf : map_wf m;
  mo_at id l : (id, l) ∈ m → ∃ e, h !! l = Some e ∧ en_id e = id;
  mo_sum : n = mem_sum h m;
  mo_max : n ≤ max
}.

#[local] Arguments mem_sum : simpl never.
Lemma mem_sum_nil h : mem_sum h [] = 0.
Proof. done. Qed.
Lemma mem_sum_cons h e m : mem_sum h (e :: m) = bytes_at h (snd e) + mem_sum h m.
Proof. done. Qed.
Lemma mem_sum_app h m1 m2 : mem_sum h (m1 ++ m2) = mem_sum h m1 + mem_sum h m2.
Proof. induction m1 as [|e m1 IH]; [done|]. rewrite <- app_comm_cons, !mem_sum_cons, IH. lia. Qed.
Lemma mem_sum_nonneg h m : (∀ l, 0 ≤ bytes_at h l) → 0 ≤ mem_sum h m.
Proof. intros Hh. induction m as [|e m IH]; [done|]. rewrite mem_sum_cons. specialize (Hh (snd e)). lia. Qed.
Lemma map_delete_absent {V} id (m : JsMap V) : id ∉ (fst <$> m) → map_delete id m = m.
Proof.
  intros Hn. induction m as [|[k v] m IH]; [done|]. rewrite fmap_cons, not_elem_of_cons in Hn. destruct Hn as [Hk Hn].
  unfold map_delete. rewrite filter_cons_True by (simpl in *; congruence). f_equal. by apply IH.
Qed.
Lemma map_delete_sum h id m old : map_wf m → map_get id m = Some old →
  mem_sum h (map_delete id m) = mem_sum h m - bytes_at h old.
Proof.
  induction m as [|[k v] m IH]; [done|]. unfold map_wf. rewrite fmap_cons, NoDup_cons. intros [Hk Hm].
  cbn [map_get]. unfold map_delete. case_bool_decide as E; intros H.
  - simplify_eq/=. rewrite filter_cons_False by (simpl in *; congruence).
    rewrite mem_sum_cons. change (filter _ m) with (map_delete id m).
    rewrite map_delete_absent by done. cbn. lia.
  - rewrite filter_cons_True by (simpl in *; congruence). rewrite !mem_sum_cons.
    change (filter _ m) with (map_delete id m). rewrite (IH Hm H). lia.
Qed.

(** The loop of [remember] ends within the limit, and never meets an empty map. *)
Lemma evict_oldest_ok h max m : 0 ≤ max → map_wf m → (∀ l, 0 ≤ bytes_at h l) →
  let '(m', n) := evict_oldest h max m (mem_sum h m) in
  map_wf m' ∧ (∀ e, e ∈ m' → e ∈ m) ∧ n = mem_sum h m' ∧ n ≤ max.
Proof.
  intros Hmax Hwf Hh. induction m as [|e m IH]; cbn [evict_oldest]; [done|]. rewrite mem_sum_cons.
  destruct (Z.ltb_spec max (bytes_at h (snd e) + mem_sum h m)) as [Hlt|Hle].
  - replace (bytes_at h (snd e) + mem_sum h m - bytes_at h (snd e)) with (mem_sum h m) by lia.
    unfold map_wf in Hwf. rewrite fmap_cons in Hwf. apply NoDup_cons in Hwf as [_ Hwf].
    specialize (IH Hwf). destruct (evict_oldest _ _ _ _) as [m' n]. destruct IH as (? & Hin & ? & ?).
    repeat split; try done. intros e' He'. right. by apply Hin.
  - repeat split; try done.
Qed.

Lemma remember_memory h id l ca e : (∀ l, 0 ≤ bytes_at h l) → 0 ≤ cf_maxMemoryBytes (ca_config ca) →
  h !! l = Some e → en_id e = id →
  memory_ok h (cf_maxMemoryBytes (ca_config ca)) (ca_memory ca) (ca_memoryBytes ca) →
  memory_ok h (cf_maxMemoryBytes (ca_config ca)) (ca_memory (remember h id l ca)) (ca_memoryBytes (remember h id l ca)).
Proof.
  intros Hh Hmax Hl Hid [Hwf Hat Hsum Hle]. unfold remember.
  set (p := match map_get id (ca_memory ca) with Some _ => _ | None => _ end).
  assert (p = (map_delete id (ca_memory ca), mem_sum h (map_delete id (ca_memory ca)))
          ∧ mem_sum h (map_delete id (ca_memory ca)) ≤ cf_maxMemoryBytes (ca_config ca)) as [-> Hp].
  { subst p. destruct (map_get id (ca_memory ca)) as [old|] eqn:E.
    - rewrite (map_delete_sum _ _ _ _ Hwf E). pose proof (Hh old). split; [by rewrite Hsum|lia].
    - apply map_get_None in E. rewrite map_delete_absent by done. split; [by rewrite Hsum|lia]. }
  cbn beta iota.
  assert (map_wf (map_delete id (ca_memory ca))) as Hwf' by by apply map_delete_wf.
  assert (∀ id' l', (id', l') ∈ map_delete id (ca_memory ca) → ∃ e, h !! l' = Some e ∧ en_id e = id') as Hat'.
  { intros id' l' [_ Hin]%map_delete_elem. by apply Hat. }
  destruct (Z.ltb_spec (cf_maxMemoryBytes (ca_config ca)) (bytes_at h l)); [by split|].
  assert (id ∉ (fst <$> map_delete id (ca_memory ca))) as Hnew.
  { intros ([k v] & -> & [Hne _]%map_delete_elem)%list_elem_of_fmap. done. }
  rewrite map_set_new by done.
  replace (mem_sum h (map_delete id (ca_memory ca)) + bytes_at h l)
    with (mem_sum h (map_delete id (ca_memory ca) ++ [(id, l)])) by (rewrite mem_sum_app, mem_sum_cons, mem_sum_nil; cbn; lia).
  pose proof (evict_oldest_ok h (cf_maxMemoryBytes (ca_config ca)) (map_delete id (ca_memory ca) ++ [(id, l)]) Hmax) as He.
  destruct (evict_oldest _ _ _ _) as [m' n].
  destruct He as (Hwf2 & Hin & Hn & Hn2); [|done|].
  { rewrite <- map_set_new by done. by apply map_set_wf. }
  split; cbn; [done| |done|done].
  intros id' l' [Hi|Hi%list_elem_of_singleton]%Hin%elem_of_app; [by apply Hat'|]. simplify_eq. by exists e.
Qed.

(** * The invariant *)

Definition payload_kind (p : Payload) : EntryKind :=
  match p with LoadedMetadata _ => metadata_kind | LoadedContent _ => content_kind end.
(** The load was made for this text of a key. *)
Definition made_for (ld : Load) (id : string) : Prop :=
  keyId (ld_config ld) (ld_key ld) (payload_kind (ld_payload ld)) = Ok id.
Definition answered (lds : list Load) (id : string) (p : Payload) : Prop :=
  ∃ ld, ld ∈ lds ∧ made_for ld id ∧ ld_payload ld = p.

(** The entry keeps what was loaded for its key. *)
Record entry_ok (lds : list Load) (e : Entry) : Prop := {
  eo_bytes : 0 ≤ en_bytes e;
  eo_metadata m : en_metadata e = Some m → answered lds (en_id e) (LoadedMetadata m);
  eo_content b : en_content e = Some b → answered lds (en_id e) (LoadedContent b)
}.
Definition nodes_ok (lds : list Load) (nodes : gmap string Entry) : Prop :=
  ∀ id e, nodes !! id = Some e → en_id e = id ∧ entry_ok lds e.
Definition loc_ok (w : World) (id : string) (l : nat) : Prop := ∃ e, heap w !! l = Some e ∧ en_id e = id.

Definition is_operation (p : MetadataPhase) : Prop :=
  match p with MetadataLoading | MetadataPut _ _ | MetadataSettled _ | MetadataDone _ => True | _ => False end.
(** The call [op] is loading, or has loaded, what the key stands for. *)
Definition joined (w : World) (id : string) (op : nat) : Prop :=
  ∃ k p, tasks w !! op = Some (MetadataTask k p) ∧ cl_id k = id ∧ is_operation p.
Definition call_id (w : World) (t : nat) (id : string) : Prop :=
  match tasks w !! t with Some (MetadataTask k _ | ReadTask k _ _) => cl_id k = id | _ => False end.

Record cache_ok (w : World) (ca : Cache) : Prop := {
  ko_config : config_ok (ca_config ca);
  ko_memory : memory_ok (heap w) (cf_maxMemoryBytes (ca_config ca)) (ca_memory ca) (ca_memoryBytes ca);
  ko_pending id op : ca_pending ca !! id = Some op → joined w id op;
  ko_closed : ca_closed ca = true → ca_memory ca = []
}.
(** What [put] is given belongs to the namespace of the cache. *)
Definition of_cache (cf : CacheConfig) (e : Entry) : Prop :=
  en_namespace e = cf_namespace cf ∧ en_principal e = cf_principal cf.
Definition transaction_ok (w : World) (d : string) (t : nat) (tx : Transaction) : Prop :=
  is_Some (tasks w !! t) ∧ match tx with
  | TxGet id => call_id w t id
  | TxTouch _ _ | TxDelete _ => True
  | TxPut e namespace maxBytes =>
      entry_ok (loads w) e
      ∧ ∃ c ca, caches w !! c = Some ca ∧ cf_databaseName (ca_config ca) = d
          ∧ cf_namespace (ca_config ca) = namespace ∧ cf_maxBytes (ca_config ca) = maxBytes
          ∧ of_cache (ca_config ca) e
  end.

(** They hold the generation in which the call began. *)
Definition get_ok (w : World) (k : CallInfo) (g : GetPhase) : Prop :=
  match g with GetDb epoch _ | GetStore epoch _ | GetTouch epoch _ _ => epoch = cl_epoch k | GetReturned _ => True end
  ∧ match g with
    | GetDb _ (Some l) | GetStore _ (Some (Some l)) | GetTouch _ l _ | GetReturned (Some l) => loc_ok w (cl_id k) l
    | _ => True
    end.
Definition put_ok (w : World) (cf : CacheConfig) (k : CallInfo) (p : PutPhase) : Prop :=
  match p with PutDb l epoch => epoch = cl_epoch k ∧ ∃ e, heap w !! l = Some e ∧ of_cache cf e | _ => True end.
Definition metadata_ok (w : World) (cf : CacheConfig) (k : CallInfo) (p : MetadataPhase) : Prop :=
  match p with
  | MetadataDone (Throw _) => True
  | _ =>
      keyId cf (cl_key k) metadata_kind = Ok (cl_id k)
      ∧ match p with
        | MetadataGet g => get_ok w k g
        | MetadataJoined op => joined w (cl_id k) op
        | MetadataPut m p => answered (loads w) (cl_id k) (LoadedMetadata m) ∧ put_ok w cf k p
        | MetadataSettled (Ok m) | MetadataDone (Ok m) => answered (loads w) (cl_id k) (LoadedMetadata m)
        | _ => True
        end
  end.
Definition read_ok (w : World) (cf : CacheConfig) (k : CallInfo) (range : option CasNodeRange) (p : ReadPhase) : Prop :=
  match p with
  | ReadDone (Throw _) => True
  | ReadDone (Ok b) =>
      (range ≫= NodeContent.nr_length = Some 0 ∧ b = [])
      ∨ keyId cf (cl_key k) content_kind = Ok (cl_id k)
        ∧ ∃ content, answered (loads w) (cl_id k) (LoadedContent content) ∧ cached_range range content = Ok b
  | _ =>
      keyId cf (cl_key k) content_kind = Ok (cl_id k)
      ∧ match p with
        | ReadGet g => get_ok w k g
        | ReadLoading => range = None
        | ReadStream parts count cacheable delivered =>
            range = None ∧ 0 ≤ count ∧ (cacheable = true → parts = delivered)
        | ReadPut delivered p =>
            range = None ∧ answered (loads w) (cl_id k) (LoadedContent delivered) ∧ put_ok w cf k p
        | _ => True
        end
  end.
Definition task_ok (w : World) (k : Task) : Prop :=
  match k with
  | MetadataTask k p =>
      ∃ ca, caches w !! cl_cache k = Some ca ∧ (cl_epoch k ≤ ca_generation ca)%nat ∧ metadata_ok w (ca_config ca) k p
  | ReadTask k range p =>
      ∃ ca, caches w !! cl_cache k = Some ca ∧ (cl_epoch k ≤ ca_generation ca)%nat ∧ read_ok w (ca_config ca) k range p
  | ClearTask _ _ _ _ => True
  end.

(** A namespace takes no more of the store than its caches allow. *)
Definition total (s : Scope) (nodes : gmap string Entry) : Z := total_bytes (all_in s nodes).
Definition within (w : World) (d : string) (nodes : gmap string Entry) : Prop := ∀ namespace limit, 0 ≤ limit →
  (∀ c ca, caches w !! c = Some ca → cache_in (NamespaceScope namespace) d (ca_config ca) = true →
     cf_maxBytes (ca_config ca) ≤ limit) →
  total (NamespaceScope namespace) nodes ≤ limit.

Record world_ok (w : World) : Prop := {
  wo_loads ld : ld ∈ loads w → config_ok (ld_config ld);
  wo_heap l e : heap w !! l = Some e → entry_ok (loads w) e;
  wo_nodes d : nodes_ok (loads w) (db_nodes (database d w));
  wo_queue d t tx : (t, tx) ∈ db_queue (database d w) → transaction_ok w d t tx;
  wo_caches c ca : caches w !! c = Some ca → cache_ok w ca;
  wo_tasks t k : tasks w !! t = Some k → task_ok w k;
  wo_live c ca : caches w !! c = Some ca → ca_closed ca = false → c ∈ liveCaches w;
  wo_within d : within w d (db_nodes (database d w))
}.

(** ** What never changes back *)

Definition same_call (k k' : CallInfo) : Prop :=
  cl_id k = cl_id k' ∧ cl_cache k = cl_cache k' ∧ cl_epoch k = cl_epoch k'.
Definition advances (k k' : Task) : Prop :=
  match k, k' with
  | MetadataTask k p, MetadataTask k' p' => same_call k k' ∧ (is_operation p → is_operation p')
  | ReadTask k _ _, ReadTask k' _ _ => same_call k k'
  | ClearTask _ _ _ _, ClearTask _ _ _ _ => True
  | _, _ => False
  end.
Record follows (ca ca' : Cache) : Prop := {
  fo_config : ca_config ca' = ca_config ca;
  fo_generation : (ca_generation ca ≤ ca_generation ca')%nat;
  fo_closed : ca_closed ca = true → ca_closed ca' = true
}.
#[export] Instance follows_pre : PreOrder follows.
Proof. split; [by split|]. intros ca1 ca2 ca3 [? ? ?] [? ? ?]. split; [congruence|lia|auto]. Qed.
Record grows (w w' : World) : Prop := {
  gr_loads : loads w ⊆ loads w';
  gr_heap l e : heap w !! l = Some e → ∃ n, heap w' !! l = Some (set_touched n e);
  gr_caches c ca : caches w !! c = Some ca → ∃ ca', caches w' !! c = Some ca' ∧ follows ca ca';
  gr_tasks t k : tasks w !! t = Some k → ∃ k', tasks w' !! t = Some k' ∧ advances k k'
}.
Lemma advances_refl k : advances k k.
Proof. by destruct k. Qed.
Lemma advances_trans k1 k2 k3 : advances k1 k2 → advances k2 k3 → advances k1 k3.
Proof. destruct k1, k2, k3; unfold advances, same_call; try done; intuition congruence. Qed.
Lemma set_touched_same e : set_touched (en_touched e) e = e.
Proof. by destruct e. Qed.
#[export] Instance grows_pre : PreOrder grows.
Proof.
  split.
  - intros w. split; try done; try solve [eexists; split; [done|]; by auto using advances_refl].
    intros l e H. exists (en_touched e). by rewrite set_touched_same.
  - intros w1 w2 w3 [L1 H1 C1 T1] [L2 H2 C2 T2]. split.
    + by etrans.
    + intros l e (n & H)%H1. apply H2 in H as (n' & H). by exists n'.
    + intros c ca (ca' & H & E)%C1. apply C2 in H as (ca2 & ? & ?). exists ca2. split; [done|by etrans].
    + intros t k (k' & H & A)%T1. apply T2 in H as (k2 & ? & ?). exists k2. eauto using advances_trans.
Qed.

Lemma answered_mono lds lds' id p : lds ⊆ lds' → answered lds id p → answered lds' id p.
Proof. intros Hs (ld & ? & ? & ?). exists ld. eauto. Qed.
Lemma entry_ok_mono lds lds' e : lds ⊆ lds' → entry_ok lds e → entry_ok lds' e.
Proof. intros Hs [? Hm Hc]. split; eauto using answered_mono. Qed.
Lemma entry_ok_touched lds n e : entry_ok lds e → entry_ok lds (set_touched n e).
Proof. by intros [? Hm Hc]. Qed.
Lemma nodes_ok_mono lds lds' nodes : lds ⊆ lds' → nodes_ok lds nodes → nodes_ok lds' nodes.
Proof. intros Hs Hn id e [? ?]%Hn. eauto using entry_ok_mono. Qed.
Lemma loc_ok_grows w w' id l : grows w w' → loc_ok w id l → loc_ok w' id l.
Proof. intros Hg (e & H & ?). apply (gr_heap _ _ Hg) in H as (n & H). by eexists. Qed.
Lemma joined_grows w w' id op : grows w w' → joined w id op → joined w' id op.
Proof.
  intros Hg (k & p & H & <- & Hp). apply (gr_tasks _ _ Hg) in H as ([k' p'| |] & H & A); try done.
  destruct A as [[E _] A]. exists k', p'. auto.
Qed.
Lemma call_id_grows w w' t id : grows w w' → call_id w t id → call_id w' t id.
Proof.
  unfold call_id. intros Hg. destruct (tasks w !! t) as [k|] eqn:E; [|done].
  apply (gr_tasks _ _ Hg) in E as (k' & -> & A). destruct k, k'; try done; [destruct A as [[<- _] _]|destruct A as [<- _]]; done.
Qed.
Lemma bytes_at_grows w w' l e : grows w w' → heap w !! l = Some e → bytes_at (heap w') l = bytes_at (heap w) l.
Proof. unfold bytes_at. intros Hg H. rewrite H. by apply (gr_heap _ _ Hg) in H as (n & ->). Qed.
Lemma memory_ok_grows w w' max m n : grows w w' → memory_ok (heap w) max m n → memory_ok (heap w') max m n.
Proof.
  intros Hg [Hwf Hat -> Hle]. assert (mem_sum (heap w') m = mem_sum (heap w) m) as E.
  { clear Hwf Hle. induction m as [|[id l] m IH]; [done|]. rewrite !mem_sum_cons, IH by (intros ???; apply Hat; by right).
    destruct (Hat id l) as (e & He & _); [left|]. simpl. by erewrite bytes_at_grows. }
  split; try done.
  intros id l H. destruct (Hat _ _ H) as (e & He & ?). apply (gr_heap _ _ Hg) in He as (k & He). by eexists.
Qed.
Lemma cache_ok_grows w w' ca : grows w w' → cache_ok w ca → cache_ok w' ca.
Proof. intros Hg [? Hm Hp]. split; eauto using memory_ok_grows, joined_grows. Qed.
Lemma task_grows w w' t : grows w w' → is_Some (tasks w !! t) → is_Some (tasks w' !! t).
Proof. intros Hg [k Hk]. apply (gr_tasks _ _ Hg) in Hk as (k' & Hk & _). by eexists. Qed.
Lemma within_grows w w' d nodes : grows w w' → within w d nodes → within w' d nodes.
Proof.
  intros Hg Hn ns limit H0 Hl. apply Hn; [done|]. intros c ca (ca' & Hc & Hf)%(gr_caches _ _ Hg) Hin.
  rewrite <- (fo_config _ _ Hf). apply (Hl c); [done|]. by rewrite (fo_config _ _ Hf).
Qed.
Lemma transaction_ok_grows w w' d t tx : grows w w' → transaction_ok w d t tx → transaction_ok w' d t tx.
Proof.
  intros Hg [Ht H]. split; [by eapply task_grows|]. destruct tx; [by eapply call_id_grows|done| |done].
  destruct H as (He & c & ca & Hc & Hd & Hn & Hm & Ho). split; [by eapply entry_ok_mono; [apply Hg|]|].
  apply (gr_caches _ _ Hg) in Hc as (ca' & Hc & E). exists c, ca'. by rewrite (fo_config _ _ E).
Qed.
Lemma get_ok_grows w w' k g : grows w w' → get_ok w k g → get_ok w' k g.
Proof. intros Hg [He Hl]. split; [done|]. destruct g as [? [?|]|? [[?|]|]|? ? ?|[?|]]; eauto using loc_ok_grows. Qed.
Lemma put_ok_grows w w' cf k p : grows w w' → put_ok w cf k p → put_ok w' cf k p.
Proof.
  intros Hg. destruct p; cbn; try done. intros (? & e & He & Ho). split; [done|].
  apply (gr_heap _ _ Hg) in He as (n & He). by exists (set_touched n e).
Qed.
Lemma metadata_ok_grows w w' cf k p : grows w w' → metadata_ok w cf k p → metadata_ok w' cf k p.
Proof.
  intros Hg. pose proof (gr_loads _ _ Hg).
  destruct p as [g|op| |m p|[m|]|[m|]]; cbn; intuition eauto using get_ok_grows, joined_grows, answered_mono, put_ok_grows.
Qed.
Lemma read_ok_grows w w' cf k range p : grows w w' → read_ok w cf k range p → read_ok w' cf k range p.
Proof.
  intros Hg. pose proof (gr_loads _ _ Hg).
  destruct p as [g| | | |m p|[m|]]; cbn; try solve [intuition eauto using get_ok_grows, answered_mono, put_ok_grows].
  intros [?|(? & content & ? & ?)]; [by left|]. right. split; [done|]. exists content. eauto using answered_mono.
Qed.
Lemma cached_task_grows w w' k : grows w w' → task_ok w k → task_ok w' k.
Proof.
  intros Hg. destruct k as [k p|k r p|]; cbn; [| |done];
    intros (ca & Hc & Hle & Hk); apply (gr_caches _ _ Hg) in Hc as (ca' & Hc & [E Hgen _]); exists ca'; rewrite E;
    (split; [done|]); (split; [lia|]); eauto using metadata_ok_grows, read_ok_grows.
Qed.

(** ** The changes of a step keep it *)

Definition kept (w w' : World) : Prop := world_ok w' ∧ grows w w'.
#[export] Instance kept_trans : Transitive kept.
Proof. intros w1 w2 w3 [_ G1] [? G2]. split; [done|by etrans]. Qed.
Lemma kept_refl w : world_ok w → kept w w.
Proof. by split. Qed.

(** What is new is in order, and the rest is as it was. *)
Lemma keep w w' : world_ok w → grows w w' →
  (∀ ld, ld ∈ loads w' → ld ∈ loads w ∨ config_ok (ld_config ld)) →
  (∀ l e, heap w' !! l = Some e →
     (∃ l0 e0 n, heap w !! l0 = Some e0 ∧ e = set_touched n e0) ∨ entry_ok (loads w) e) →
  (∀ d, db_nodes (database d w') = db_nodes (database d w)
        ∨ nodes_ok (loads w') (db_nodes (database d w')) ∧ within w' d (db_nodes (database d w'))) →
  (∀ d t tx, (t, tx) ∈ db_queue (database d w') → (t, tx) ∈ db_queue (database d w) ∨ transaction_ok w' d t tx) →
  (∀ c ca, caches w' !! c = Some ca → caches w !! c = Some ca ∨ cache_ok w' ca) →
  (∀ t k, tasks w' !! t = Some k → tasks w !! t = Some k ∨ task_ok w' k) →
  (∀ c ca', caches w' !! c = Some ca' → ca_closed ca' = false →
     c ∈ liveCaches w' ∨ liveCaches w' = liveCaches w ∧ ∃ ca, caches w !! c = Some ca ∧ ca_closed ca = false) →
  kept w w'.
Proof.
  intros Hw Hg HL HH HN HQ HC HT HV. pose proof (gr_loads _ _ Hg) as Hl. split; [|done]. split.
  - intros ld [?|?]%HL; [by apply (wo_loads _ Hw)|done].
  - intros l e [(l0 & e0 & n & H & ->)|H]%HH; [apply entry_ok_touched|]; eapply entry_ok_mono; eauto using wo_heap.
  - intros d. destruct (HN d) as [->|[? _]]; [|done]. eapply nodes_ok_mono; [done|by apply wo_nodes].
  - intros d t tx [H|?]%HQ; [|done]. eapply transaction_ok_grows; [done|by apply wo_queue].
  - intros c ca [H|?]%HC; [|done]. eapply cache_ok_grows; [done|by eapply wo_caches].
  - intros t k [H|?]%HT; [|done]. eapply cached_task_grows; [done|by eapply wo_tasks].
  - intros c ca Hc Ho. destruct (HV c ca Hc Ho) as [?|(-> & ca0 & ? & ?)]; [done|by eapply wo_live].
  - intros d. destruct (HN d) as [->|[_ ?]]; [|done]. by eapply within_grows, wo_within.
Qed.
Ltac same_heap := let H := fresh in intros ?? H; left; eexists _, _, _; split; [exact H|symmetry; apply set_touched_same].
Ltac same_live := let H := fresh in let H0 := fresh in intros ?? H H0; right; split; [reflexivity|]; eexists; split; [exact H|exact H0].
Ltac same_rest := try done; try solve [by left|intros; by left|same_heap|same_live].
Ltac same_caches := try solve [cbn; intros; eexists; split; [eassumption|]; first [reflexivity|apply advances_refl]].

Lemma put_task_ok w t k : world_ok w → (∀ k0, tasks w !! t = Some k0 → advances k0 k) → task_ok w k →
  kept w (place t k w).
Proof.
  intros Hw Ha Hk.
  assert (grows w (place t k w)) as Hg.
  { split; try done; same_caches; cbn.
    - intros l e H. exists (en_touched e). by rewrite set_touched_same.
    - intros t' k' H. destruct (decide (t' = t)) as [->|].
      + exists k. rewrite lookup_insert_eq. eauto.
      + exists k'. rewrite lookup_insert_ne by done. eauto using advances_refl. }
  apply keep; same_rest.
  intros t' k'. cbn. rewrite lookup_insert_Some. intros [[_ <-]|[_ H]]; [right; by eapply cached_task_grows|by left].
Qed.
Lemma on_cache_ok w c f : world_ok w →
  (∀ ca, caches w !! c = Some ca → follows ca (f ca) ∧ cache_ok w (f ca)) → kept w (on_cache c f w).
Proof.
  intros Hw Hf.
  assert (grows w (on_cache c f w)) as Hg.
  { split; try done; same_caches; cbn.
    - intros l e H. exists (en_touched e). by rewrite set_touched_same.
    - intros c' ca H. destruct (decide (c' = c)) as [->|].
      + exists (f ca). rewrite lookup_alter_eq, H. by split; [|apply Hf].
      + exists ca. by rewrite lookup_alter_ne. }
  apply keep; same_rest.
  - intros c' ca. cbn. destruct (decide (c' = c)) as [->|]; [|rewrite lookup_alter_ne by done; by left].
    rewrite lookup_alter_eq. intros (ca0 & H & ->)%fmap_Some. right. eapply cache_ok_grows; [done|]. by apply Hf.
  - intros c' ca. cbn. destruct (decide (c' = c)) as [->|]; [|rewrite lookup_alter_ne by done; intros; right; eauto].
    rewrite lookup_alter_eq. intros (ca0 & H & ->)%fmap_Some Ho. right. split; [done|]. exists ca0. split; [done|].
    destruct (Hf _ H) as [[_ _ Hcl] _]. destruct (ca_closed ca0); [by rewrite Hcl in Ho|done].
Qed.
Lemma allocate_ok w e : world_ok w → entry_ok (loads w) e → kept w (allocate e w).
Proof.
  intros Hw He. assert (grows w (allocate e w)) as Hg.
  { split; try done; same_caches; cbn.
    intros l e' H. exists (en_touched e'). rewrite set_touched_same. by apply lookup_app_l_Some. }
  apply keep; same_rest.
  intros l e'. cbn. rewrite lookup_app_Some. intros [H|[_ H]].
  - left. exists l, e', (en_touched e'). by rewrite set_touched_same.
  - apply list_lookup_singleton_Some in H as [_ <-]. by right.
Qed.
Lemma heap_touch w l n l' :
  heap (touch l n w) !! l' = if decide (l' = l) then set_touched n <$> heap w !! l else heap w !! l'.
Proof.
  unfold touch. simpl heap. destruct (decide (l' = l)) as [->|]; [apply list_lookup_alter_eq|].
  by apply list_lookup_alter_ne.
Qed.
Lemma touch_ok w l n : world_ok w → kept w (touch l n w).
Proof.
  intros Hw. assert (grows w (touch l n w)) as Hg.
  { split; try done; same_caches.
    intros l' e H. rewrite heap_touch. destruct (decide (l' = l)) as [->|].
    - exists n. by rewrite H.
    - exists (en_touched e). by rewrite set_touched_same. }
  apply keep; same_rest.
  intros l' e. rewrite heap_touch. destruct (decide (l' = l)) as [->|].
  - intros (e0 & H & ->)%fmap_Some. left. by exists l, e0, n.
  - intros H. left. exists l', e, (en_touched e). by rewrite set_touched_same.
Qed.
Lemma database_insert d d' db w :
  database d (set_databases (<[d' := db]> (databases w)) w) = if decide (d = d') then db else database d w.
Proof.
  unfold database. cbn. destruct (decide (d = d')) as [->|]; [by rewrite lookup_insert_eq|by rewrite lookup_insert_ne].
Qed.
Lemma grows_databases w x : grows w (set_databases x w).
Proof.
  split; try done; same_caches. intros l e H. exists (en_touched e). by rewrite set_touched_same.
Qed.
Lemma enqueue_ok w d t tx : world_ok w → transaction_ok w d t tx → kept w (enqueue d t tx w).
Proof.
  intros Hw Ht. pose proof (grows_databases w (<[d:=mkDatabase (db_nodes (database d w)) (db_queue (database d w) ++ [(t, tx)])]> (databases w))) as Hg.
  apply keep; same_rest.
  - intros d'. left. unfold enqueue. rewrite database_insert. by destruct (decide (d' = d)) as [->|].
  - intros d' t' tx'. unfold enqueue. rewrite database_insert. destruct (decide (d' = d)) as [->|]; [|by left]. cbn.
    rewrite elem_of_app, list_elem_of_singleton. intros [?|[= -> ->]]; [by left|]. right. by eapply transaction_ok_grows.
Qed.
Lemma set_loads_ok w ld : world_ok w → config_ok (ld_config ld) → kept w (set_loads (ld :: loads w) w).
Proof.
  intros Hw Hld. assert (grows w (set_loads (ld :: loads w) w)) as Hg.
  { split; try done; same_caches; [set_solver|].
    intros l e H. exists (en_touched e). by rewrite set_touched_same. }
  apply keep; same_rest.
  intros ld'. cbn. rewrite elem_of_cons. intros [->|?]; [by right|by left].
Qed.

(** ** [get] and [put] *)

Lemma heap_bytes w l : world_ok w → 0 ≤ bytes_at (heap w) l.
Proof. intros Hw. unfold bytes_at. destruct (heap w !! l) eqn:E; [|done]. by apply (wo_heap _ Hw) in E as []. Qed.
Lemma remember_frame h id l ca : follows ca (remember h id l ca)
  ∧ ca_config (remember h id l ca) = ca_config ca ∧ ca_pending (remember h id l ca) = ca_pending ca
  ∧ ca_closed (remember h id l ca) = ca_closed ca.
Proof. unfold remember. repeat (case_match; simplify_eq/=); by repeat split. Qed.
Lemma remember_ok w id l ca : world_ok w → loc_ok w id l → ca_closed ca = false → cache_ok w ca →
  cache_ok w (remember (heap w) id l ca).
Proof.
  intros Hw (e & He & Hid) Ho [Hc Hm Hp Hcl]. destruct (remember_frame (heap w) id l ca) as (_ & E1 & E2 & E3).
  split; rewrite ?E1, ?E2, ?E3, ?Ho; try done. eapply remember_memory; eauto using heap_bytes. apply Hc.
Qed.
Lemma same_cache_ok w ca ca' : cache_ok w ca → ca_config ca' = ca_config ca → ca_memory ca' = ca_memory ca →
  ca_memoryBytes ca' = ca_memoryBytes ca → ca_pending ca' = ca_pending ca →
  ca_closed ca' = ca_closed ca ∨ ca_memory ca = [] → cache_ok w ca'.
Proof.
  intros [? ? ? ?] E1 E2 E3 E4 E5. split; rewrite ?E1, ?E2, ?E3, ?E4; try done. destruct E5 as [->| ->]; done.
Qed.
Lemma invalidated_ok w ca : config_ok (ca_config ca) → cache_ok w (invalidate ca).
Proof.
  intros Hc. split; cbn; [done| |by intros id op; rewrite lookup_empty|done].
  split; [apply NoDup_nil_2|by intros ?? ?%not_elem_of_nil|done|apply Hc].
Qed.
Lemma open_database_frame ca : follows ca (open_database ca) ∧ ca_config (open_database ca) = ca_config ca
  ∧ ca_memory (open_database ca) = ca_memory ca ∧ ca_memoryBytes (open_database ca) = ca_memoryBytes ca
  ∧ ca_pending (open_database ca) = ca_pending ca ∧ ca_closed (open_database ca) = ca_closed ca.
Proof. unfold open_database. by case_match. Qed.
Lemma open_database_ok w ca : cache_ok w ca → cache_ok w (open_database ca).
Proof. intros H. destruct (open_database_frame ca) as (? & ? & ? & ? & ? & ?). eapply same_cache_ok; eauto. Qed.
Lemma open_database_kept w c : world_ok w → kept w (on_cache c open_database w).
Proof.
  intros Hw. apply on_cache_ok; [done|]. intros ca Hc. split; [apply open_database_frame|].
  by eapply open_database_ok, wo_caches.
Qed.
Lemma stale_open ca epoch : stale ca epoch = false → ca_closed ca = false ∧ epoch = ca_generation ca.
Proof. unfold stale. destruct (ca_closed ca), (Nat.eqb_spec epoch (ca_generation ca)); done. Qed.

Lemma memory_loc w c ca id l : world_ok w → caches w !! c = Some ca → map_get id (ca_memory ca) = Some l → loc_ok w id l.
Proof. intros Hw Hc H%map_get_elem. apply (wo_caches _ Hw) in Hc as [_ [_ Hat _ _] _ _]. by apply Hat. Qed.

Lemma get_begin_ok w k ca g w' : world_ok w → caches w !! cl_cache k = Some ca → cl_epoch k = ca_generation ca →
  get_begin (cl_cache k) ca (cl_id k) w = (g, w') → kept w w' ∧ get_ok w' k g ∧ tasks w' = tasks w.
Proof.
  intros Hw Hc He. unfold get_begin. case_match; intros [= <- <-]; [by split; [apply kept_refl|]|].
  pose proof (open_database_kept w (cl_cache k) Hw) as Hk.
  split; [done|]. split; [|done]. split; [done|]. destruct (map_get _ (ca_memory ca)) eqn:E; [|done].
  eapply loc_ok_grows; [apply Hk|]. by eapply memory_loc.
Qed.
Lemma get_check_ok w t k ca epoch store r now ok g w' : world_ok w → caches w !! cl_cache k = Some ca →
  is_Some (tasks w !! t) → epoch = cl_epoch k → (∀ l, r = Some l → loc_ok w (cl_id k) l) →
  get_check t (cl_cache k) ca (cl_id k) epoch store r now ok w = (g, w') →
  kept w w' ∧ get_ok w' k g ∧ tasks w' = tasks w.
Proof.
  intros Hw Hc Ht He Hr. unfold get_check.
  destruct (stale ca epoch) eqn:Es; [intros [= <- <-]; by split; [apply kept_refl|]|]. apply stale_open in Es as [Ho _].
  destruct r as [l|]; [|intros [= <- <-]; by split; [apply kept_refl|]].
  set (w1 := touch l _ w). set (w2 := on_cache _ _ w1).
  assert (kept w w1) as K1 by by apply touch_ok.
  assert (kept w1 w2) as K2.
  { destruct K1 as [Hw1 Hg1]. apply on_cache_ok; [done|]. intros ca' Hca. change (caches w1) with (caches w) in Hca. simplify_eq.
    split; [by etrans; [|apply remember_frame]|].
    apply remember_ok; [done|by eapply loc_ok_grows; [|apply Hr]|done|].
    eapply same_cache_ok; [by eapply (wo_caches _ Hw1)|done..|by left]. }
  assert (loc_ok w2 (cl_id k) l) as Hl by (eapply loc_ok_grows; [|by apply Hr]; etrans; [apply K1|apply K2]).
  destruct (store && ok); intros [= <- <-].
  - assert (kept w2 (enqueue (cf_databaseName (ca_config ca)) t (TxTouch (cl_id k) l) w2)) as K3.
    { apply enqueue_ok; [apply K2|by split]. }
    split; [by etrans; [|etrans]|]. split; [|done]. split; [done|]. eapply loc_ok_grows; [apply K3|done].
  - split; [by etrans|by split].
Qed.
Lemma get_resume_ok w t k g now ok g' w' : world_ok w → call_id w t (cl_id k) → get_ok w k g →
  get_resume t (cl_cache k) (cl_id k) g now ok w = Some (g', w') → kept w w' ∧ get_ok w' k g' ∧ tasks w' = tasks w.
Proof.
  intros Hw Ht [He Hg]. assert (is_Some (tasks w !! t)) as Hs by (unfold call_id in Ht; by destruct (tasks w !! t)).
  unfold get_resume. intros (ca & Hc & H)%option.bind_Some.
  destruct g as [epoch r|epoch r|epoch l replied|r]; [| | |done].
  - apply option.bind_Some in H as (store & _ & H). destruct r as [l|].
    + simplify_eq. eapply get_check_ok; eauto. by intros l' [= <-].
    + destruct store; [destruct ok|]; simplify_eq; try by split; [apply kept_refl|].
      split; [by apply enqueue_ok|done].
  - apply option.bind_Some in H as (r' & -> & H). simplify_eq. eapply get_check_ok; eauto. by intros l ->.
  - destruct replied; [|done]. simplify_eq. split; [by apply kept_refl|]. split; [|done].
    by destruct (stale ca _).
Qed.

Lemma put_begin_ok w k ca l e epoch p w' : world_ok w → caches w !! cl_cache k = Some ca → heap w !! l = Some e →
  of_cache (ca_config ca) e → epoch = cl_epoch k → put_begin (cl_cache k) ca l e epoch w = (p, w') →
  kept w w' ∧ put_ok w' (ca_config ca) k p ∧ tasks w' = tasks w.
Proof.
  intros Hw Hc Hl Ho Hk. unfold put_begin. destruct (stale ca epoch) eqn:Es; [intros [= <- <-]; by split; [apply kept_refl|]|].
  apply stale_open in Es as [Hopen _].
  case_match; intros [= <- <-]; [by split; [apply kept_refl|]|].
  split; [|split; [split; [done|by exists e]|done]].
  apply on_cache_ok; [done|]. intros ca' Hca. simplify_eq.
  split; [etrans; [apply remember_frame|apply open_database_frame]|].
  apply open_database_ok, remember_ok; [done|by exists e|done|by eapply wo_caches].
Qed.
Lemma put_resume_ok w t k cf p ok p' w' : world_ok w → (∀ ca, caches w !! cl_cache k = Some ca → ca_config ca = cf) →
  is_Some (tasks w !! t) → put_ok w cf k p → put_resume t (cl_cache k) p ok w = Some (p', w') →
  kept w w' ∧ put_ok w' cf k p' ∧ tasks w' = tasks w.
Proof.
  intros Hw Hcf Ht Hp. unfold put_resume. intros (ca & Hc & H)%option.bind_Some. specialize (Hcf _ Hc). subst cf.
  destruct p as [l epoch|replied|]; [| |done].
  - apply option.bind_Some in H as (store & _ & H). destruct Hp as (-> & e & He & Ho).
    destruct (negb store || stale ca _); [simplify_eq; by split; [apply kept_refl|]|]. rewrite He in H.
    destruct ok; simplify_eq; [|by split; [apply kept_refl|]]. split; [|done].
    apply enqueue_ok; [done|]. split; [done|]. split; [by eapply wo_heap|]. exists (cl_cache k), ca. repeat split; try done; apply Ho.
  - destruct replied; simplify_eq. by split; [apply kept_refl|].
Qed.

Lemma set_clock_ok w c n : world_ok w → kept w (on_cache c (set_clock n) w).
Proof.
  intros Hw. apply on_cache_ok; [done|]. intros ca Hc. split; [done|]. by eapply same_cache_ok; [eapply wo_caches|..|left].
Qed.
Lemma store_entry_ok w k ca n now m b p w' : world_ok w → caches w !! cl_cache k = Some ca → 0 ≤ n →
  (∀ m', m = Some m' → answered (loads w) (cl_id k) (LoadedMetadata m')) →
  (∀ b', b = Some b' → answered (loads w) (cl_id k) (LoadedContent b')) →
  store_entry k ca n now m b w = (p, w') → kept w w' ∧ put_ok w' (ca_config ca) k p ∧ tasks w' = tasks w.
Proof.
  intros Hw Hc Hn Hm Hb. unfold store_entry.
  set (e := mkEntry _ _ _ _ _ _ _). set (w1 := on_cache _ _ w).
  assert (kept w w1) as K1 by by apply set_clock_ok.
  assert (kept w1 (allocate e w1)) as K2 by (apply allocate_ok; [apply K1|by split]).
  intros H. eapply put_begin_ok in H as (K3 & Hp & E).
  - split; [by etrans; [|etrans]|]. by split.
  - apply K2.
  - cbn. by rewrite lookup_alter_eq, Hc.
  - change (heap (allocate e w1)) with (heap w1 ++ [e]). by apply list_lookup_middle.
  - done.
  - done.
Qed.

(** ** The steps of a call *)

Lemma place_next w w' t k : kept w w' → tasks w' = tasks w →
  (∀ k0, tasks w !! t = Some k0 → advances k0 k) → task_ok w' k → kept w (place t k w').
Proof. intros K E Ha Hk. etrans; [exact K|]. apply put_task_ok; [apply K|by rewrite E|done]. Qed.
Definition of_call (w : World) (k : CallInfo) (ca : Cache) : Prop :=
  caches w !! cl_cache k = Some ca ∧ (cl_epoch k ≤ ca_generation ca)%nat.
Lemma metadata_place w w' t k p ca : kept w w' → tasks w' = tasks w → of_call w k ca →
  (∀ k0, tasks w !! t = Some k0 → ∃ p0, k0 = MetadataTask k p0 ∧ (is_operation p0 → is_operation p)) →
  metadata_ok w' (ca_config ca) k p → kept w (place t (MetadataTask k p) w').
Proof.
  intros K E [Hc Hle] Ha Hp. apply place_next; [done|done| |].
  - intros k0 (p0 & -> & H)%Ha. by split.
  - apply (gr_caches _ _ (proj2 K)) in Hc as (ca' & Hc & [Ec ? _]). exists ca'. rewrite Ec. split; [done|]. by split; [lia|].
Qed.
Lemma read_place w w' t k r p ca : kept w w' → tasks w' = tasks w → of_call w k ca →
  (∀ k0, tasks w !! t = Some k0 → ∃ p0, k0 = ReadTask k r p0) →
  read_ok w' (ca_config ca) k r p → kept w (place t (ReadTask k r p) w').
Proof.
  intros K E [Hc Hle] Ha Hp. apply place_next; [done|done| |].
  - by intros k0 (p0 & ->)%Ha.
  - apply (gr_caches _ _ (proj2 K)) in Hc as (ca' & Hc & [Ec ? _]). exists ca'. rewrite Ec. split; [done|]. by split; [lia|].
Qed.

Lemma begin_call_ok c ca key signal kind k u : begin_call c ca key signal kind = (k, Ok u) →
  keyId (ca_config ca) key kind = Ok (cl_id k).
Proof.
  unfold begin_call. case_match; [done|]. destruct (keyId _ _ _) as [id|] eqn:E; [|done]. by intros [= <- _].
Qed.
Lemma begin_call_cache c ca key signal kind k u : begin_call c ca key signal kind = (k, u) →
  cl_cache k = c ∧ cl_key k = key ∧ cl_epoch k = ca_generation ca.
Proof. unfold begin_call. repeat case_match; by intros [= <- _]. Qed.
Lemma of_call_begun w k ca : caches w !! cl_cache k = Some ca → cl_epoch k = ca_generation ca → of_call w k ca.
Proof. intros ? E. split; [done|lia]. Qed.

Lemma begin_metadata_ok w t c ca key signal : world_ok w → tasks w !! t = None → caches w !! c = Some ca →
  kept w (begin_metadata t c ca key signal w).
Proof.
  intros Hw Ht Hc. unfold begin_metadata. destruct (begin_call _ _ _ _ _) as [k u] eqn:E.
  pose proof (begin_call_cache _ _ _ _ _ _ _ E) as (<- & <- & He). pose proof (of_call_begun _ _ _ Hc He) as Hk.
  destruct u as [u|e].
  - apply begin_call_ok in E as Hid. destruct (get_begin _ _ _ _) as [g w'] eqn:G.
    eapply get_begin_ok in G as (K & Hg & Et); [|done..]. eapply metadata_place; eauto; [by intros k0; rewrite Ht|by split].
  - eapply metadata_place; eauto using kept_refl; [by intros k0; rewrite Ht|done].
Qed.
Lemma begin_read_ok w t c ca key range signal : world_ok w → tasks w !! t = None → caches w !! c = Some ca →
  kept w (begin_read t c ca key range signal w).
Proof.
  intros Hw Ht Hc. unfold begin_read.
  assert (∀ k r, cl_cache k = c → cl_epoch k = ca_generation ca →
            match r with Throw _ => True | Ok b => range ≫= NodeContent.nr_length = Some 0 ∧ b = [] end →
            kept w (place t (ReadTask k range (ReadDone r)) w)) as Hdone.
  { intros k r <- He Hr. eapply read_place; eauto using kept_refl, of_call_begun; [by intros k0; rewrite Ht|].
    destruct r; [by left|done]. }
  case_match; [by apply Hdone|]. case_match; [|by apply Hdone]. case_bool_decide as Hz; [by apply Hdone|].
  destruct (begin_call _ _ _ _ _) as [k u'] eqn:E. pose proof (begin_call_cache _ _ _ _ _ _ _ E) as (Ec & Ek & He).
  destruct u' as [u'|e]; [|by apply Hdone]. subst c key.
  apply begin_call_ok in E as Hid. destruct (get_begin _ _ _ _) as [g w'] eqn:G.
  eapply get_begin_ok in G as (K & Hg & Et); [|done..].
  eapply read_place; eauto using of_call_begun; [by intros k0; rewrite Ht|by split].
Qed.

Lemma metadata_at_id w l id e m : world_ok w → loc_ok w id l → heap w !! l = Some e → en_metadata e = Some m →
  answered (loads w) id (LoadedMetadata m).
Proof. intros Hw (e1 & H & <-) He Hm. assert (e1 = e) as -> by congruence. apply (wo_heap _ Hw) in He as []. eauto. Qed.
Lemma content_at_id w l id e b : world_ok w → loc_ok w id l → heap w !! l = Some e → en_content e = Some b →
  answered (loads w) id (LoadedContent b).
Proof. intros Hw (e1 & H & <-) He Hb. assert (e1 = e) as -> by congruence. apply (wo_heap _ Hw) in He as []. eauto. Qed.

(** A step of a call to [metadata], with its place in the world that follows. *)
Definition metadata_next (w : World) (t : nat) (k : CallInfo) (p0 : MetadataPhase) (r : MetadataPhase * World) : Prop :=
  tasks w !! t = Some (MetadataTask k p0) → kept w (place t (MetadataTask k (fst r)) (snd r)).
Lemma metadata_next_intro w t k ca p0 p w' : kept w w' → tasks w' = tasks w → of_call w k ca →
  (is_operation p0 → is_operation p) → metadata_ok w' (ca_config ca) k p → metadata_next w t k p0 (p, w').
Proof. intros K E Hc Ha Hp Ht. eapply metadata_place; eauto. intros k0. rewrite Ht. intros [= <-]. by exists p0. Qed.

Lemma metadata_found_ok w t k ca entry : world_ok w → of_call w k ca →
  metadata_ok w (ca_config ca) k (MetadataGet (GetReturned entry)) →
  metadata_next w t k (MetadataGet (GetReturned entry)) (metadata_found t k ca entry w).
Proof.
  intros Hw Hc [Hid [_ Hg]]. unfold metadata_found.
  destruct (aborted k); [by eapply metadata_next_intro; eauto using kept_refl|].
  destruct (entry ≫= _) as [m|] eqn:Em.
  { apply option.bind_Some in Em as (l & -> & (e & He & Hm)%option.bind_Some).
    eapply metadata_next_intro; [by apply kept_refl|done|done|done|]. split; [done|]. by eapply metadata_at_id. }
  destruct (if unsignalled k then _ else _) as [op|] eqn:Ep.
  { destruct (unsignalled k); [|done]. eapply metadata_next_intro; [by apply kept_refl|done|done|done|].
    split; [done|]. destruct (wo_caches _ Hw _ _ (proj1 Hc)). eauto. }
  destruct (unsignalled k); [|by eapply metadata_next_intro; eauto using kept_refl].
  intros Ht. set (w1 := on_cache _ _ w).
  assert (kept w (place t (MetadataTask k MetadataLoading) w)) as K1.
  { eapply metadata_place; [by apply kept_refl|done|done| |by split]. intros k0. rewrite Ht. intros [= <-]. by eexists. }
  change (kept w (on_cache (cl_cache k) (λ ca, set_pending (<[cl_id k:=t]> (ca_pending ca)) ca)
                    (place t (MetadataTask k MetadataLoading) w))).
  etrans; [exact K1|]. apply on_cache_ok; [apply K1|]. intros ca' Hca. split; [done|].
  apply (wo_caches _ (proj1 K1)) in Hca as [? ? Hp ?]. split; try done. intros id op. cbn.
  rewrite lookup_insert_Some. intros [[<- <-]|[_ ?]]; [|by apply Hp].
  exists k, MetadataLoading. cbn. by rewrite lookup_insert_eq.
Qed.
Lemma metadata_loaded_ok w t k ca answer now : world_ok w → of_call w k ca →
  metadata_ok w (ca_config ca) k MetadataLoading →
  metadata_next w t k MetadataLoading (metadata_loaded k ca answer now w).
Proof.
  intros Hw Hc [Hid _]. unfold metadata_loaded.
  destruct answer as [m|e]; [|by eapply metadata_next_intro; eauto using kept_refl].
  set (ld := mkLoad _ _ _). set (w1 := set_loads _ w).
  assert (kept w w1) as K1 by (apply set_loads_ok; [done|by eapply ko_config, wo_caches, Hc]).
  assert (answered (loads w1) (cl_id k) (LoadedMetadata m)) as Hm by (exists ld; split; [left|by split]).
  destruct (aborted k); [by eapply metadata_next_intro|].
  case_bool_decide; [|by eapply metadata_next_intro].
  destruct (store_entry k ca _ now _ _ w1) as [p w2] eqn:E.
  eapply store_entry_ok in E as (K2 & Hp & Et); [|by apply K1|apply Hc|unfold metadata_bytes; lia|by intros ? [= <-]|done].
  eapply metadata_next_intro; [by etrans|done|done|done|]. split; [done|]. split; [|done].
  eapply answered_mono; [apply (gr_loads _ _ (proj2 K2))|done].
Qed.
Lemma settle_ok w k p r id : task_ok w (MetadataTask k p) → settled (MetadataTask k p) = Some r → cl_id k = id →
  match r with Ok m => answered (loads w) id (LoadedMetadata m) | Throw _ => True end.
Proof. intros (ca & _ & _ & Hp) Hr <-. destruct p; simplify_eq/=; destruct r; try done; apply Hp. Qed.

Lemma metadata_resume_ok w t k ca p now ok r : world_ok w → of_call w k ca →
  tasks w !! t = Some (MetadataTask k p) → metadata_ok w (ca_config ca) k p →
  metadata_resume t k ca p now ok w = Some r → metadata_next w t k p r.
Proof.
  intros Hw Hc Ht Hp H.
  assert (∀ g, p = MetadataGet g → ('(g, w') ← get_resume t (cl_cache k) (cl_id k) g now ok w; Some (MetadataGet g, w')) = Some r →
            metadata_next w t k p r) as Hget.
  { intros g -> ([g' w'] & G & [= <-])%option.bind_Some. destruct Hp as [Hid Hg].
    eapply get_resume_ok in G as (K & Hg' & Et); [|done|by unfold call_id; rewrite Ht|done].
    by eapply metadata_next_intro. }
  assert (∀ m q, p = MetadataPut m q → ('(q, w') ← put_resume t (cl_cache k) q ok w; Some (MetadataPut m q, w')) = Some r →
            metadata_next w t k p r) as Hput.
  { intros m q -> ([q' w'] & G & [= <-])%option.bind_Some. destruct Hp as (Hid & Hm & Hq).
    eapply put_resume_ok in G as (K & Hq' & Et); [|done| |by rewrite Ht|exact Hq]; [|by intros ca'; rewrite (proj1 Hc); intros [= <-]].
    eapply metadata_next_intro; eauto. split; [done|]. split; [|done].
    eapply answered_mono; [apply (gr_loads _ _ (proj2 K))|done]. }
  destruct p as [g|op| |m q|a|a]; cbn [metadata_resume] in H; try done.
  - destruct g; try (by eapply Hget). simplify_eq. by apply metadata_found_ok.
  - apply option.bind_Some in H as (task & Hop & H). apply option.bind_Some in H as (a & Ha & H). simplify_eq.
    destruct Hp as (Hid & k' & p' & Hk' & E & _). rewrite Hk' in Hop. simplify_eq.
    eapply metadata_next_intro; [by apply kept_refl|done|done|done|].
    eapply settle_ok in Ha; [|by eapply wo_tasks|exact E]. by destruct a.
  - destruct q; try (by eapply Hput). simplify_eq. destruct Hp as (? & ? & _).
    by eapply metadata_next_intro; eauto using kept_refl.
  - simplify_eq. eapply metadata_next_intro; try done.
    + apply on_cache_ok; [done|]. intros ca' Hca. split; [done|]. apply (wo_caches _ Hw) in Hca as [? ? Hpend ?].
      split; try done. intros id op. cbn. case_bool_decide; [rewrite lookup_delete_Some; intros [_ ?]|]; eauto.
    + destruct Hp as [? Hp]. by destruct a.
Qed.

Lemma read_same w t k r p p0 ca : world_ok w → of_call w k ca →
  tasks w !! t = Some (ReadTask k r p0) → read_ok w (ca_config ca) k r p → kept w (place t (ReadTask k r p) w).
Proof.
  intros Hw Hc Ht Hp. eapply read_place; [by apply kept_refl|done|done| |done].
  intros k0. rewrite Ht. intros [= <-]. by eexists.
Qed.
Lemma read_found_ok w k range ca entry : world_ok w →
  read_ok w (ca_config ca) k range (ReadGet (GetReturned entry)) →
  read_ok w (ca_config ca) k range (read_found k range ca entry w).
Proof.
  intros Hw [Hid [_ Hg]]. unfold read_found. destruct (aborted k); [done|].
  destruct (entry ≫= _) as [b|] eqn:Eb.
  - apply option.bind_Some in Eb as (l & -> & (e & He & Hb)%option.bind_Some).
    eapply (content_at_id w l (cl_id k)) in Hb; [|done..].
    destruct (cached_range range b) eqn:Er; [|done]. right. split; [done|]. by exists b.
  - destruct range; [done|]. by destruct (_ || _ || _).
Qed.
Lemma read_chunk_ok w t k range ca parts count cacheable delivered chunk now p w' : world_ok w →
  of_call w k ca →
  tasks w !! t = Some (ReadTask k range (ReadStream parts count cacheable delivered)) →
  read_ok w (ca_config ca) k range (ReadStream parts count cacheable delivered) →
  read_chunk k ca parts count cacheable delivered chunk now w = (p, w') →
  kept w (place t (ReadTask k range p) w').
Proof.
  intros Hw Hc Ht (Hid & -> & Hn & Hparts). unfold read_chunk.
  assert (∀ w' p, kept w w' → tasks w' = tasks w → read_ok w' (ca_config ca) k None p →
            kept w (place t (ReadTask k None p) w')) as Hnext.
  { intros w2 p2 K E Hp. eapply read_place; [done|done|done| |done]. intros k0. rewrite Ht. intros [= <-]. by eexists. }
  destruct chunk as [chunk|].
  - destruct (aborted k); [intros [= <- <-]; apply Hnext; [by apply kept_refl|done|done]|].
    destruct (Z.ltb_spec (Z.min (cf_maxEntryBytes (ca_config ca)) (cf_maxBytes (ca_config ca))) (count + Z.of_nat (length chunk)));
      intros [= <- <-]; (apply Hnext; [by apply kept_refl|done|]); (split; [done|]); split; try done; (split; [lia|]); [done|].
    intros ->. by rewrite Hparts.
  - set (ld := mkLoad _ _ _). set (w1 := set_loads _ w).
    assert (kept w w1) as K1 by (apply set_loads_ok; [done|by eapply ko_config, wo_caches, Hc]).
    assert (answered (loads w1) (cl_id k) (LoadedContent delivered)) as Ha by (exists ld; split; [left|by split]).
    destruct (aborted k); [intros [= <- <-]; by apply Hnext|].
    destruct cacheable.
    + rewrite Hparts by done. destruct (store_entry _ _ _ _ _ _ _) as [q w2] eqn:E. intros [= <- <-].
      eapply store_entry_ok in E as (K2 & Hp & Et); [|by apply K1|apply Hc|lia|done|by intros ? [= <-]].
      apply Hnext; [by etrans|done|]. split; [done|]. split; [done|]. split; [|done].
      eapply answered_mono; [apply (gr_loads _ _ (proj2 K2))|done].
    + intros [= <- <-]. apply Hnext; [done|done|]. right. split; [done|]. by exists delivered.
Qed.
Lemma read_resume_ok w t k range ca p now ok p' w' : world_ok w → of_call w k ca →
  tasks w !! t = Some (ReadTask k range p) → read_ok w (ca_config ca) k range p →
  read_resume t k range ca p now ok w = Some (p', w') → kept w (place t (ReadTask k range p') w').
Proof.
  intros Hw Hc Ht Hp H.
  assert (∀ w' p, kept w w' → tasks w' = tasks w → read_ok w' (ca_config ca) k range p →
            kept w (place t (ReadTask k range p) w')) as Hnext.
  { intros w2 p2 K E Hp2. eapply read_place; [done|done|done| |done]. intros k0. rewrite Ht. intros [= <-]. by eexists. }
  assert (∀ g, p = ReadGet g → ('(g, w') ← get_resume t (cl_cache k) (cl_id k) g now ok w; Some (ReadGet g, w')) = Some (p', w') →
            kept w (place t (ReadTask k range p') w')) as Hget.
  { intros g -> ([g' w2] & G & [= <- <-])%option.bind_Some. destruct Hp as [Hid Hg].
    eapply get_resume_ok in G as (K & Hg' & Et); [|done|by unfold call_id; rewrite Ht|done]. by apply Hnext. }
  assert (∀ d q, p = ReadPut d q → ('(q, w') ← put_resume t (cl_cache k) q ok w; Some (ReadPut d q, w')) = Some (p', w') →
            kept w (place t (ReadTask k range p') w')) as Hput.
  { intros d q -> ([q' w2] & G & [= <- <-])%option.bind_Some. destruct Hp as (Hid & Hr & Hm & Hq).
    eapply put_resume_ok in G as (K & Hq' & Et); [|done| |by rewrite Ht|exact Hq]; [|by intros ca'; rewrite (proj1 Hc); intros [= <-]].
    apply Hnext; [done|done|]. split; [done|]. split; [done|]. split; [|done].
    eapply answered_mono; [apply (gr_loads _ _ (proj2 K))|done]. }
  destruct p as [g| | | |d q|a]; cbn [read_resume] in H; try done.
  - destruct g; try (by eapply Hget). simplify_eq. apply Hnext; [by apply kept_refl|done|]. by apply read_found_ok.
  - destruct q; try (by eapply Hput). simplify_eq. destruct Hp as (? & -> & ? & _).
    apply Hnext; [by apply kept_refl|done|]. right. split; [done|]. by exists d.
Qed.

(** ** Clearing and closing *)

Lemma on_cache_invalidate_ok w c : world_ok w → kept w (on_cache c invalidate w).
Proof. intros Hw. apply on_cache_ok; [done|]. intros ca Hc.
  split; [split; cbn; [done|lia|done]|]. by eapply invalidated_ok, ko_config, wo_caches. Qed.
Lemma invalidate_live_ok realm s d w : world_ok w → kept w (invalidate_live realm s d w).
Proof.
  intros Hw. unfold invalidate_live. induction (liveCaches w) as [|c l IH]; [by apply kept_refl|]. cbn [foldr].
  case_match; [|done]. case_match; [|done]. etrans; [exact IH|]. apply on_cache_invalidate_ok, IH.
Qed.
Lemma invalidate_live_tasks realm s d w : tasks (invalidate_live realm s d w) = tasks w.
Proof. unfold invalidate_live. induction (liveCaches w) as [|c l IH]; [done|]. cbn [foldr]. by repeat case_match. Qed.
Lemma kept_inbox w x : world_ok w → kept w (set_inbox x w).
Proof.
  intros Hw. apply keep; same_rest.
  split; try done; same_caches. intros l e H. exists (en_touched e). by rewrite set_touched_same.
Qed.
Lemma kept_live w x : world_ok w →
  (∀ c ca, caches w !! c = Some ca → ca_closed ca = false → c ∈ liveCaches w → c ∈ x) → kept w (set_liveCaches x w).
Proof.
  intros Hw Hx. apply keep; same_rest.
  - split; try done; same_caches. intros l e H. exists (en_touched e). by rewrite set_touched_same.
  - intros c ca Hc Ho. left. eapply Hx; [done|done|]. by eapply wo_live.
Qed.
Lemma clear_place w w' t c s d p : kept w w' → tasks w' = tasks w →
  (∀ k0, tasks w !! t = Some k0 → ∃ p0, k0 = ClearTask c s d p0) → kept w (place t (ClearTask c s d p) w').
Proof. intros K E H. eapply place_next; [done|done| |done]. by intros k0 (p0 & ->)%H. Qed.
Lemma begin_clear_ok w t c ca : world_ok w → tasks w !! t = None → kept w (begin_clear t c ca w).
Proof.
  intros Hw Ht. unfold begin_clear.
  pose proof (invalidate_live_ok (cf_realm (ca_config ca)) (NamespaceScope (cf_namespace (ca_config ca)))
                (cf_databaseName (ca_config ca)) w Hw) as K1.
  set (w1 := invalidate_live _ _ _ w) in *. apply clear_place.
  - destruct (ca_closed ca); [done|]. etrans; [exact K1|].
    assert (kept w1 (post_message (Some c) (NamespaceScope (cf_namespace (ca_config ca))) (cf_databaseName (ca_config ca)) w1)) as K2
      by apply kept_inbox, K1.
    etrans; [exact K2|]. apply open_database_kept, K2.
  - destruct (ca_closed ca); apply invalidate_live_tasks.
  - intros k0. by rewrite Ht.
Qed.
Lemma clearBrowserNodeCachesCore_ok w t realm principal d : world_ok w → tasks w !! t = None →
  kept w (clearBrowserNodeCachesCore t realm principal d w).
Proof.
  intros Hw Ht. unfold clearBrowserNodeCachesCore.
  pose proof (invalidate_live_ok realm (PrincipalScope principal) d w Hw) as K1. apply clear_place.
  - etrans; [exact K1|]. apply kept_inbox, K1.
  - apply invalidate_live_tasks.
  - intros k0. by rewrite Ht.
Qed.
Lemma clear_resume_ok w t c s d p ok p' w' : world_ok w → tasks w !! t = Some (ClearTask c s d p) →
  clear_resume t c s d p ok w = Some (p', w') → kept w (place t (ClearTask c s d p') w').
Proof.
  intros Hw Ht H. assert (kept w w' ∧ tasks w' = tasks w) as [K E].
  { destruct p; try done. apply option.bind_Some in H as (store & _ & H).
    destruct (store && ok); simplify_eq; [|by split; [apply kept_refl|]]. split; [|done]. apply enqueue_ok; [done|].
    split; [by rewrite Ht|done]. }
  apply clear_place; [done|done|]. intros k0. rewrite Ht. intros [= <-]. by eexists.
Qed.
Lemma close_ok w c : world_ok w → kept w (close c w).
Proof.
  intros Hw. assert (kept w (on_cache c (λ ca, invalidate (set_closed ca)) w)) as K.
  { apply on_cache_ok; [done|]. intros ca Hc. split; [split; cbn; [done|lia|done]|].
    apply (invalidated_ok w (set_closed ca)). exact (ko_config _ _ (wo_caches _ Hw _ _ Hc)). }
  etrans; [exact K|]. apply kept_live; [apply K|]. intros c' ca Hc' Ho Hl. apply list_elem_of_filter. split; [|done].
  intros ->. cbn in Hc'. rewrite lookup_alter_eq in Hc'. apply fmap_Some in Hc' as (ca' & _ & ->). done.
Qed.

(** ** Transactions *)

Lemma nodes_ok_sub lds nodes nodes' : nodes' ⊆ nodes → nodes_ok lds nodes → nodes_ok lds nodes'.
Proof. intros Hs Hn id e H. apply Hn. by eapply lookup_weaken. Qed.
Lemma evict_stored_sub max total l nodes : evict_stored max total l nodes ⊆ nodes.
Proof.
  revert total nodes. induction l as [|e l IH]; intros total nodes; cbn; [done|]. case_match; [done|].
  etrans; [apply IH|apply delete_subseteq].
Qed.
Lemma delete_nodes_sub s nodes : delete_nodes s nodes ⊆ nodes.
Proof.
  unfold delete_nodes. induction (all_in s nodes) as [|e l IH]; cbn; [done|].
  etrans; [apply delete_subseteq|done].
Qed.

(** *** What a namespace takes *)

Definition keyed (nodes : gmap string Entry) : Prop := ∀ id e, nodes !! id = Some e → en_id e = id.
Definition weight (s : Scope) (e : Entry) : Z := if entry_in s e then en_bytes e else 0.
Lemma all_in_perm s nodes : all_in s nodes ≡ₚ filter (λ e, entry_in s e = true) (snd <$> map_to_list nodes).
Proof. apply js_sort_Permutation. Qed.
Lemma total_bytes_perm l l' : l ≡ₚ l' → total_bytes l = total_bytes l'.
Proof. unfold total_bytes. induction 1; cbn; lia. Qed.
Lemma elem_all_in s nodes e : e ∈ all_in s nodes → entry_in s e = true ∧ ∃ id, nodes !! id = Some e.
Proof.
  rewrite all_in_perm, list_elem_of_filter. intros [Hs ([id e'] & -> & Hin%elem_of_map_to_list)%list_elem_of_fmap].
  split; [done|]. by exists id.
Qed.
Lemma all_in_delete s nodes id e : nodes !! id = Some e →
  all_in s nodes ≡ₚ (if entry_in s e then [e] else []) ++ all_in s (delete id nodes).
Proof.
  intros H. rewrite !all_in_perm, <- (map_to_list_delete nodes id e H). cbn [fmap list_fmap]. rewrite filter_cons.
  cbn [snd]. destruct (entry_in s e); by case_decide.
Qed.
Lemma total_delete s nodes id e : nodes !! id = Some e → total s nodes = weight s e + total s (delete id nodes).
Proof.
  intros H. unfold total, weight. rewrite (total_bytes_perm _ _ (all_in_delete s nodes id e H)).
  by destruct (entry_in s e).
Qed.
Lemma total_insert s nodes id e : total s (<[id:=e]> nodes) = weight s e + total s (delete id nodes).
Proof. rewrite (total_delete s _ id e) by apply lookup_insert_eq. by rewrite delete_insert_eq. Qed.
Lemma total_delete_le s nodes id : (∀ id e, nodes !! id = Some e → 0 ≤ en_bytes e) →
  total s (delete id nodes) ≤ total s nodes.
Proof.
  intros Hb. destruct (nodes !! id) as [e|] eqn:E; [|by rewrite delete_id].
  rewrite (total_delete s _ _ _ E). unfold weight. apply Hb in E. destruct (entry_in s e); lia.
Qed.
Lemma total_empty s : total s ∅ = 0.
Proof. done. Qed.
(** Evicting brings a scope within the limit, and takes nothing from it that it needs. *)
Lemma evict_stored_within s limit : 0 ≤ limit → ∀ l nodes, keyed nodes → l ≡ₚ all_in s nodes →
  total s (evict_stored limit (total_bytes l) l nodes) ≤ limit.
Proof.
  intros H0. induction l as [|e l IH]; intros nodes Hk Hl.
  { cbn. unfold total. by rewrite <- (total_bytes_perm _ _ Hl). }
  cbn [evict_stored]. destruct (Z.leb_spec (total_bytes (e :: l)) limit).
  { unfold total. by rewrite <- (total_bytes_perm _ _ Hl). }
  destruct (elem_all_in s nodes e) as [Hs [id Hid]]; [rewrite <- Hl; left|].
  replace (total_bytes (e :: l) - en_bytes e) with (total_bytes l) by (unfold total_bytes; cbn; lia).
  rewrite (Hk _ _ Hid). apply IH.
  - intros id' e' [_ H']%lookup_delete_Some. by apply Hk.
  - rewrite (all_in_delete s nodes id e Hid), Hs in Hl. by apply Permutation.Permutation_cons_inv in Hl.
Qed.
Lemma evict_stored_le s limit n l nodes : (∀ id e, nodes !! id = Some e → 0 ≤ en_bytes e) →
  total s (evict_stored limit n l nodes) ≤ total s nodes.
Proof.
  revert n nodes. induction l as [|e l IH]; intros n nodes Hb; cbn [evict_stored]; [done|]. case_match; [done|].
  etrans; [apply IH|by apply total_delete_le]. intros id e' [_ H']%lookup_delete_Some. by eapply Hb.
Qed.
Lemma delete_all_le s l nodes : (∀ id e, nodes !! id = Some e → 0 ≤ en_bytes e) →
  total s (foldr (λ e nodes, delete (en_id e) nodes) nodes l) ≤ total s nodes
  ∧ ∀ id e, foldr (λ e nodes, delete (en_id e) nodes) nodes l !! id = Some e → 0 ≤ en_bytes e.
Proof.
  intros Hb. induction l as [|e l [IH1 IH2]]; cbn [foldr]; [done|]. split.
  - etrans; [by apply total_delete_le|done].
  - intros id e' [_ H']%lookup_delete_Some. by eapply IH2.
Qed.

Lemma nodes_bytes lds nodes : nodes_ok lds nodes → ∀ id e, nodes !! id = Some e → 0 ≤ en_bytes e.
Proof. intros Hn id e [_ []]%Hn. done. Qed.
Lemma run_transaction_within w d t tx : world_ok w → transaction_ok w d t tx →
  within w d (run_transaction (heap w) tx (db_nodes (database d w))).
Proof.
  intros Hw [_ Ht]. pose proof (wo_nodes _ Hw d) as Hn. pose proof (wo_within _ Hw d) as Hin.
  pose proof (nodes_bytes _ _ Hn) as Hb. destruct tx as [id|id l|e ns max|s]; cbn [run_transaction]; [done| | |];
    intros ns' limit H0 Hl; specialize (Hin ns' limit H0 Hl).
  - destruct (db_nodes (database d w) !! id) as [e|] eqn:E; [|done].
    rewrite total_insert, (total_delete _ _ _ _ E) in *. done.
  - destruct Ht as (He & c & ca & Hc & Hd & Hns & Hmax & Ho). unfold put_nodes.
    assert (∀ id e', (<[en_id e:=e]> (db_nodes (database d w))) !! id = Some e' → en_id e' = id ∧ 0 ≤ en_bytes e') as Hput.
    { intros id e'. rewrite lookup_insert_Some. intros [[<- <-]|[_ H]]; [split; [done|by destruct He]|].
      split; [by eapply Hn|by eapply Hb]. }
    destruct (decide (ns' = ns)) as [->|Hne].
    + assert (cf_maxBytes (ca_config ca) ≤ limit) as Hmax'.
      { apply (Hl c); [done|]. unfold cache_in, covers. rewrite Hns, Hd. by rewrite !bool_decide_eq_true_2. }
      rewrite Hmax in Hmax'. assert (0 ≤ max) as Hmax0.
      { rewrite <- Hmax. by eapply ko_config, wo_caches. }
      etrans; [|exact Hmax'].
      rewrite (total_bytes_perm (all_in _ _) (js_sort (λ left right, en_touched left - en_touched right)
        (all_in (NamespaceScope ns) (<[en_id e:=e]> (db_nodes (database d w)))))) by by rewrite js_sort_Permutation.
      apply evict_stored_within; [done| |apply js_sort_Permutation]. intros id e' H. by apply Hput in H as [].
    + etrans; [apply evict_stored_le; intros id e' H; by apply Hput in H as []|].
      rewrite total_insert. assert (weight (NamespaceScope ns') e = 0) as ->.
      { unfold weight, entry_in, covers. destruct Ho as [-> _]. rewrite bool_decide_eq_false_2; [done|congruence]. }
      etrans; [|exact Hin]. rewrite Z.add_0_l. by apply total_delete_le.
  - etrans; [|exact Hin]. by apply delete_all_le.
Qed.
Lemma run_transaction_ok w d t tx : world_ok w → transaction_ok w d t tx →
  nodes_ok (loads w) (run_transaction (heap w) tx (db_nodes (database d w))).
Proof.
  intros Hw [_ Ht]. pose proof (wo_nodes _ Hw d) as Hn. destruct tx as [id|id l|e ns max|s]; cbn [run_transaction]; [done| | |].
  - destruct (db_nodes (database d w) !! id) as [e|] eqn:E; [|done]. intros id' e'.
    rewrite lookup_insert_Some. intros [[<- <-]|[_ H]]; [|by apply Hn].
    apply Hn in E as [E He]. split; [done|by apply entry_ok_touched].
  - eapply nodes_ok_sub; [apply evict_stored_sub|]. intros id' e'. rewrite lookup_insert_Some.
    intros [[<- <-]|[_ H]]; [split; [done|apply Ht]|by apply Hn].
  - by eapply nodes_ok_sub; [apply delete_nodes_sub|].
Qed.

Lemma learn_advances entry cleared k : advances k (learn entry cleared k).
Proof. destruct k as [k []|k r []|c s d []]; by repeat split. Qed.
Lemma learn_ok w entry cleared k : task_ok w k →
  (∀ l id, entry = Some l → match k with MetadataTask k _ | ReadTask k _ _ => cl_id k = id | _ => False end → loc_ok w id l) →
  task_ok w (learn entry cleared k).
Proof.
  intros Hk Hl.
  assert (∀ k' g, (∀ l, entry = Some l → loc_ok w (cl_id k') l) → get_ok w k' g → get_ok w k' (learn_get entry g)) as Hget.
  { intros k' [|? [?|]|? ? []|] Hl' [He Hg]; split; try done. cbn. destruct entry; [by apply Hl'|done]. }
  assert (∀ cf k' q, put_ok w cf k' q → put_ok w cf k' (learn_put q)) as Hput by (by intros cf k' [|[]|]).
  destruct k as [k p|k r p|c s d []]; cbn; try done; destruct Hk as (ca & Hc & Hle & Hp).
  - destruct p as [g| | |m q| |]; exists ca; (split; [done|]); (split; [done|]); try done.
    + destruct Hp as [Hid Hg]. split; [done|]. apply Hget; [|done]. intros l Hl'. by apply Hl.
    + destruct Hp as (? & ? & Hq). split; [done|]. split; [done|]. by apply Hput.
  - destruct p as [g| | | |m q|]; exists ca; (split; [done|]); (split; [done|]); try done.
    + destruct Hp as [Hid Hg]. split; [done|]. apply Hget; [|done]. intros l Hl'. by apply Hl.
    + destruct Hp as (? & ? & ? & Hq). split; [done|]. split; [done|]. split; [done|]. by apply Hput.
Qed.
Lemma alter_task_ok w t f : world_ok w → (∀ k, tasks w !! t = Some k → advances k (f k) ∧ task_ok w (f k)) →
  kept w (set_tasks (alter f t (tasks w)) w).
Proof.
  intros Hw Hf. destruct (tasks w !! t) as [k|] eqn:E.
  - replace (alter f t (tasks w)) with (<[t := f k]> (tasks w)).
    + apply put_task_ok; [done| |by apply Hf]. intros k0. rewrite E. intros [= <-]. by apply Hf.
    + apply map_eq. intros t'. destruct (decide (t' = t)) as [->|].
      * by rewrite lookup_insert_eq, lookup_alter_eq, E.
      * by rewrite lookup_insert_ne, lookup_alter_ne.
  - rewrite alter_id by (intros k; by rewrite E). destruct w. by apply kept_refl.
Qed.

Lemma commit_ok d ok w w' : world_ok w → commit d ok w = Some w' → kept w w'.
Proof.
  intros Hw. unfold commit. destruct (db_queue (database d w)) as [|[t tx] queue] eqn:Eq; [done|].
  set (nodes := if ok then run_transaction _ _ _ else _).
  set (read := if ok then match tx with TxGet id => db_nodes (database d w) !! id | _ => None end else None).
  set (w1 := set_databases _ w). set (w2 := match read with Some e => allocate e w1 | None => w1 end).
  set (entry := match read with Some _ => _ | None => _ end). intros [= <-].
  assert (transaction_ok w d t tx) as Htx by (apply (wo_queue _ Hw); rewrite Eq; left).
  assert (kept w w1) as K1.
  { apply keep; same_rest; [apply grows_databases|..].
    - intros d'. unfold w1. rewrite database_insert. destruct (decide (d' = d)) as [->|]; [|by left]. right.
      change (nodes_ok (loads w) nodes ∧ within w d nodes). subst nodes.
      destruct ok; [split; [by eapply run_transaction_ok|by eapply run_transaction_within]|].
      split; [by apply wo_nodes|by apply wo_within].
    - intros d' t' tx'. unfold w1. rewrite database_insert. destruct (decide (d' = d)) as [->|]; [|by left].
      cbn. intros H. left. rewrite Eq. by right. }
  assert (∀ e, read = Some e → ∃ id, tx = TxGet id ∧ db_nodes (database d w) !! id = Some e) as Hread.
  { intros e. subst read. destruct ok, tx; try done. intros H. eauto. }
  assert (kept w1 w2) as K2.
  { subst w2. destruct read as [e|]; [|apply kept_refl, K1]. apply allocate_ok; [apply K1|].
    destruct (Hread e eq_refl) as (id & _ & H). change (entry_ok (loads w) e). by destruct (wo_nodes _ Hw d _ _ H). }
  assert (kept w2 (set_tasks (alter (learn entry ok) t (tasks w2)) w2)) as K3.
  { apply alter_task_ok; [apply K2|]. intros k Hk. split; [apply learn_advances|]. apply learn_ok; [by eapply wo_tasks; [apply K2|]|].
    intros l id He Hid. destruct read as [e|] eqn:Er; [|done]. destruct (Hread e eq_refl) as (id' & -> & Hnode).
    subst entry. simplify_eq.
    assert (id = id') as ->.
    { destruct Htx as [_ Htx]. unfold call_id in Htx. change (tasks w2) with (tasks w) in Hk. rewrite Hk in Htx.
      by destruct k; simplify_eq/=. }
    exists e. split; [cbn; by apply list_lookup_middle|].
    by destruct (wo_nodes _ Hw d _ _ Hnode) as [-> _]. }
  by etrans; [|etrans].
Qed.

(** ** Every step *)

Section steps.
Context `{EndpointParser}.

Lemma create_ok realm now options ca w : createBrowserNodeCacheCore realm now options = Ok ca → cache_ok w ca.
Proof.
  unfold createBrowserNodeCacheCore. case_match; [|done]. cbv zeta.
  destruct (throw_if (_ || _) _); [|done]. cbn [mbind result_bind].
  destruct (throw_if (strlen _ =? 0) _); [|done]. cbn [mbind result_bind].
  destruct (each_result _ _) as [u|] eqn:E; [|done]. cbn [mbind result_bind]. intros [= <-].
  cbn [each_result throw_if] in E.
  assert (∀ n (r : result exn unit), (_ ← (if negb (isSafeInteger n) || (n <? 0)
            then Throw (TypeError "Cache limits must be non-negative safe integers") else Ok tt); r) = Ok u →
            0 ≤ n ∧ r = Ok u) as Hlim.
  { intros n r. destruct (isSafeInteger n); [|done]. destruct (Z.ltb_spec n 0); [done|]. by split. }
  apply Hlim in E as [H1 E]. apply Hlim in E as [H2 E]. split; cbn.
  - by repeat split.
  - split; [apply NoDup_nil_2|by intros ?? ?%not_elem_of_nil|done|done].
  - intros id op. by rewrite lookup_empty.
  - done.
Qed.

Lemma create_kept w c ca : world_ok (set_liveCaches (c :: liveCaches w) w) → caches w !! c = None → (∀ w, cache_ok w ca) →
  kept (set_liveCaches (c :: liveCaches w) w) (set_liveCaches (c :: liveCaches w) (set_caches (<[c:=ca]> (caches w)) w)).
Proof.
  intros Hw Ec Hca. set (w1 := set_liveCaches _ w) in *.
  assert (grows w1 (set_caches (<[c:=ca]> (caches w)) w1)) as Hg.
  { split; try done; same_caches; cbn.
    - intros l e' He. exists (en_touched e'). by rewrite set_touched_same.
    - intros c' ca' Hc'. exists ca'. by rewrite lookup_insert_ne by congruence. }
  apply (keep w1 (set_caches (<[c:=ca]> (caches w)) w1)); same_rest.
  - intros c' ca'. cbn. rewrite lookup_insert_Some. intros [[_ <-]|[_ ?]]; [right; apply Hca|by left].
  - intros c' ca'. cbn. rewrite lookup_insert_Some. intros [[<- _]|[_ ?]] Ho; [left; left|right; eauto].
Qed.

Lemma fresh_none t w u : fresh t w = Some u → tasks w !! t = None.
Proof. unfold fresh. by destruct (tasks w !! t). Qed.

Lemma step_kept e w w' : world_ok w → step e w = Some w' → kept w w'.
Proof.
  intros Hw Hs. destruct e as [c realm now options|c ok|t c key sg|t c key r sg|t c|t realm p d|c|t now ok|t a now|t a|t chunk now|t|t|d ok|n];
    cbn [step] in Hs.
  - destruct (caches w !! c) eqn:Ec; [done|]. destruct (createBrowserNodeCacheCore _ _ _) as [ca|] eqn:E; [|done]. simplify_eq.
    assert (kept w (set_liveCaches (c :: liveCaches w) w)) as K by (apply kept_live; [done|by right]).
    etrans; [exact K|]. apply create_kept; [apply K|done|]. intros w2. by eapply create_ok.
  - apply option.bind_Some in Hs as (ca & Hc & Hs). destruct (ca_database ca); simplify_eq.
    apply on_cache_ok; [done|]. intros ca' Hc'. split; [done|]. by eapply same_cache_ok; [eapply wo_caches|..|left].
  - apply option.bind_Some in Hs as (u & Ht%fresh_none & Hs). apply option.bind_Some in Hs as (ca & Hc & Hs). simplify_eq.
    by apply begin_metadata_ok.
  - apply option.bind_Some in Hs as (u & Ht%fresh_none & Hs). apply option.bind_Some in Hs as (ca & Hc & Hs). simplify_eq.
    by apply begin_read_ok.
  - apply option.bind_Some in Hs as (u & Ht%fresh_none & Hs). apply option.bind_Some in Hs as (ca & Hc & Hs). simplify_eq.
    by apply begin_clear_ok.
  - apply option.bind_Some in Hs as (u & Ht%fresh_none & Hs). simplify_eq. by apply clearBrowserNodeCachesCore_ok.
  - simplify_eq. by apply close_ok.
  - apply option.bind_Some in Hs as (task & Ht & Hs). pose proof (wo_tasks _ Hw _ _ Ht) as Htask. destruct task as [k p|k r p|c s d p].
    + apply option.bind_Some in Hs as (ca & Hc & Hs). apply option.bind_Some in Hs as ([p' w2] & Hr & Hs). simplify_eq.
      destruct Htask as (ca' & Hc' & Hle & Hp). simplify_eq. exact (metadata_resume_ok w t k ca p now ok (p', w2) Hw (conj Hc Hle) Ht Hp Hr Ht).
    + apply option.bind_Some in Hs as (ca & Hc & Hs). apply option.bind_Some in Hs as ([p' w2] & Hr & Hs). simplify_eq.
      destruct Htask as (ca' & Hc' & Hle & Hp). simplify_eq. exact (read_resume_ok w t k r ca p now ok p' w2 Hw (conj Hc Hle) Ht Hp Hr).
    + apply option.bind_Some in Hs as ([p' w2] & Hr & Hs). simplify_eq. by eapply clear_resume_ok.
  - apply option.bind_Some in Hs as (task & Ht & Hs). pose proof (wo_tasks _ Hw _ _ Ht) as Htask.
    destruct task as [k []|k r p|c s d p]; try done. apply option.bind_Some in Hs as (ca & Hc & Hs).
    destruct Htask as (ca' & Hc' & Hle & Hp). simplify_eq.
    pose proof (metadata_loaded_ok w t k ca a now Hw (conj Hc Hle) Hp Ht) as K. destruct (metadata_loaded _ _ _ _ _). by simplify_eq.
  - apply option.bind_Some in Hs as (task & Ht & Hs). pose proof (wo_tasks _ Hw _ _ Ht) as Htask.
    destruct task as [k p|k r []|c s d p]; try done. destruct Htask as (ca & Hc & Hle & Hid & ->). simplify_eq.
    eapply read_same; [done|by split|exact Ht|]. by destruct a.
  - apply option.bind_Some in Hs as (task & Ht & Hs). pose proof (wo_tasks _ Hw _ _ Ht) as Htask.
    destruct task as [k p|k r []|c s d p]; try done. destruct Htask as (ca & Hc & Hle & Hp). destruct chunk as [chunk|e].
    + apply option.bind_Some in Hs as (ca' & Hc' & Hs). simplify_eq. destruct (read_chunk _ _ _ _ _ _ _ _ _) eqn:E. simplify_eq.
      eapply read_chunk_ok; [exact Hw|by split|exact Ht|done|done].
    + simplify_eq. by eapply read_same; [exact Hw|split; eassumption|exact Ht|].
  - apply option.bind_Some in Hs as (task & Ht & Hs). pose proof (wo_tasks _ Hw _ _ Ht) as Htask.
    destruct task as [k p|k r []|c s d p]; try done. destruct Htask as (ca & Hc & Hle & Hp). simplify_eq.
    by eapply read_same; [exact Hw|split; eassumption|exact Ht|].
  - apply option.bind_Some in Hs as (task & Ht & Hs). pose proof (wo_tasks _ Hw _ _ Ht) as Htask.
    destruct task as [k p|k r p|c s d p]; [| |done]; destruct (unsignalled k); simplify_eq; apply put_task_ok; try done.
    + intros k0. rewrite Ht. intros [= <-]. by repeat split.
    + intros k0. rewrite Ht. intros [= <-]. by repeat split.
    + destruct Htask as (ca & Hc & Hle & Hp). exists ca. split; [done|]. split; [done|]. by destruct p.
  - by eapply commit_ok.
  - apply option.bind_Some in Hs as ([c s] & _ & Hs). simplify_eq.
    assert (kept w (set_inbox (take n (inbox w) ++ drop (S n) (inbox w)) w)) as K by by apply kept_inbox.
    etrans; [exact K|]. apply on_cache_ok; [apply K|]. intros ca Hc. case_match; [|by split; [|eapply wo_caches; [apply K|]]].
    split; [split; cbn; [done|lia|done]|]. eapply invalidated_ok, ko_config, wo_caches; [apply K|done].
Qed.

Lemma reachable_world_ok w : reachable w → world_ok w.
Proof.
  induction 1 as [|e w w' _ IH Hs]; [|by eapply step_kept].
  split; try (by cbn; intros; rewrite ?lookup_empty in * ); try done.
  - by intros ld ?%not_elem_of_nil.
  - by intros d t tx ?%not_elem_of_nil.
  - intros d ns limit H0 _. exact H0.
Qed.
Lemma reachable_kept w w' e : reachable w → step e w = Some w' → kept w w'.
Proof. intros Hr. apply step_kept. by apply reachable_world_ok. Qed.
End steps.

(** * Answers, limits *)

Section theorems.
Context `{EndpointParser}.

Lemma answered_for w cf k kind p : world_ok w → config_ok cf → keyId cf (cl_key k) kind = Ok (cl_id k) →
  payload_kind p = kind → answered (loads w) (cl_id k) p →
  ∃ ld, ld ∈ loads w ∧ ld_key ld = cl_key k ∧ ld_payload ld = p
    ∧ cf_endpoint (ld_config ld) = cf_endpoint cf ∧ cf_principal (ld_config ld) = cf_principal cf.
Proof.
  intros Hw Hcf Hid <- (ld & Hin & Hm & <-). exists ld. split; [done|].
  destruct (keyId_inj _ _ _ _ _ _ _ Hm Hid) as (Hns & Hkey & _).
  destruct (namespace_inj _ _ (wo_loads _ Hw _ Hin) Hcf Hns) as [-> ->]. done.
Qed.

(** C13: whatever any caches of any tabs did before, the metadata a call to [metadata] is
    answered, and the content (or the range of it) a call to [read] is answered, were
    loaded: by a call for the same App, Space and hash, under the same endpoint and
    principal. Answers never cross principals, Spaces or nodes. *)
Theorem cached_answers_loaded w t k : reachable w →
  (∀ m, tasks w !! t = Some (MetadataTask k (MetadataDone (Ok m))) →
    ∃ ca ld, caches w !! cl_cache k = Some ca ∧ ld ∈ loads w ∧ ld_key ld = cl_key k ∧ ld_payload ld = LoadedMetadata m
      ∧ cf_endpoint (ld_config ld) = cf_endpoint (ca_config ca)
      ∧ cf_principal (ld_config ld) = cf_principal (ca_config ca))
  ∧ (∀ range b, tasks w !! t = Some (ReadTask k range (ReadDone (Ok b))) →
    (range ≫= NodeContent.nr_length = Some 0 ∧ b = [])
    ∨ ∃ ca ld content, caches w !! cl_cache k = Some ca ∧ ld ∈ loads w ∧ ld_key ld = cl_key k
        ∧ ld_payload ld = LoadedContent content ∧ cached_range range content = Ok b
        ∧ cf_endpoint (ld_config ld) = cf_endpoint (ca_config ca)
        ∧ cf_principal (ld_config ld) = cf_principal (ca_config ca)).
Proof.
  intros Hr%reachable_world_ok. split.
  - intros m Ht. destruct (wo_tasks _ Hr _ _ Ht) as (ca & Hc & _ & Hid & Ha).
    eapply answered_for in Ha as (ld & ? & ? & ? & ? & ?); [|done|by eapply ko_config, wo_caches|exact Hid|done].
    by exists ca, ld.
  - intros range b Ht. destruct (wo_tasks _ Hr _ _ Ht) as (ca & Hc & _ & [?|(Hid & content & Ha & Hcut)]); [by left|right].
    eapply answered_for in Ha as (ld & ? & ? & ? & ? & ?); [|done|by eapply ko_config, wo_caches|exact Hid|done].
    by exists ca, ld, content.
Qed.

(** C15: what a cache counts is what it holds, and that is within its limit for the
    memory; and a namespace never takes more of the database than the largest limit of
    its caches. *)
Theorem cache_within_limits w : reachable w →
  (∀ c ca, caches w !! c = Some ca →
     NoDup (fst <$> ca_memory ca) ∧ ca_memoryBytes ca = mem_sum (heap w) (ca_memory ca)
     ∧ ca_memoryBytes ca ≤ cf_maxMemoryBytes (ca_config ca))
  ∧ ∀ d namespace limit, 0 ≤ limit →
      (∀ c ca, caches w !! c = Some ca → cf_namespace (ca_config ca) = namespace →
         cf_databaseName (ca_config ca) = d → cf_maxBytes (ca_config ca) ≤ limit) →
      total (NamespaceScope namespace) (db_nodes (database d w)) ≤ limit.
Proof.
  intros Hr%reachable_world_ok. split.
  - intros c ca Hc. by destruct (ko_memory _ _ (wo_caches _ Hr _ _ Hc)).
  - intros d ns limit H0 Hl. apply (wo_within _ Hr); [done|]. intros c ca Hc.
    unfold cache_in, covers. rewrite andb_true_iff, !bool_decide_eq_true. intros [? ?]. by apply (Hl c).
Qed.

(** * Clearing *)

(** No call begins on a cache in the scope. *)
Definition begins_in (s : Scope) (d : string) (e : Event) (w : World) : bool :=
  match e with
  | BeginsMetadata _ c _ _ | BeginsRead _ c _ _ _ =>
      match caches w !! c with Some ca => cache_in s d (ca_config ca) | None => false end
  | _ => false
  end.
Inductive quiet (s : Scope) (d : string) : World → World → Prop :=
| quiet_refl w : quiet s d w w
| quiet_step e w w' w'' : step e w = Some w' → begins_in s d e w = false → quiet s d w' w'' → quiet s d w w''.
(** The call, realm, scope and database of an event that begins to clear. *)
Definition clears (e : Event) (w : World) : option (nat * nat * Scope * string) :=
  match e with
  | BeginsClear t c =>
      ca ← caches w !! c;
      Some (t, cf_realm (ca_config ca), NamespaceScope (cf_namespace (ca_config ca)), cf_databaseName (ca_config ca))
  | BeginsClearPrincipal t realm principal d => Some (t, realm, PrincipalScope principal, d)
  | _ => None
  end.

Section clear.
Variables (s : Scope) (d : string) (t : nat).

Definition outside (w : World) (c : nat) : Prop := ∃ ca, caches w !! c = Some ca ∧ cache_in s d (ca_config ca) = false.
(** The transaction puts nothing of the scope. *)
Definition harmless (tx : Transaction) : Prop := match tx with TxPut e _ _ => entry_in s e = false | _ => True end.
(** The cache remembers nothing, and its calls can no longer make it. *)
Definition call_of (k : Task) : option CallInfo :=
  match k with MetadataTask k _ | ReadTask k _ _ => Some k | ClearTask _ _ _ _ => None end.
Record swept (w : World) : Prop := {
  sw_memory c ca : caches w !! c = Some ca → cache_in s d (ca_config ca) = true → ca_memory ca = [];
  sw_calls t' task k ca : tasks w !! t' = Some task → call_of task = Some k → caches w !! cl_cache k = Some ca →
    cache_in s d (ca_config ca) = true → ca_closed ca = true ∨ (cl_epoch k < ca_generation ca)%nat
}.
(** How far the clearing has come. *)
Definition cleared (w : World) : Prop :=
  let queue := db_queue (database d w) in
  ∃ o p, tasks w !! t = Some (ClearTask o s d p)
  ∧ (∀ d', d' ≠ d → t ∉ (fst <$> db_queue (database d' w))) ∧
  match p with
  | ClearDb _ => t ∉ (fst <$> queue)
  | ClearTransaction =>
      ∃ before after, queue = before ++ (t, TxDelete s) :: after ∧ t ∉ (fst <$> before) ∧ Forall (λ x, harmless (snd x)) after
  | ClearDone true =>
      Forall (λ x, harmless (snd x)) queue
      ∧ ∀ id e, db_nodes (database d w) !! id = Some e → entry_in s e = false
  | ClearDone false => True
  end.

(** What the steps of a call [t'] may do to what is in the scope. *)
Record mild (t' : nat) (w w' : World) : Prop := {
  mi_caches c ca' : caches w' !! c = Some ca' → cache_in s d (ca_config ca') = true →
    ca_memory ca' = [] ∨ ∃ ca, caches w !! c = Some ca ∧ ca_memory ca = ca_memory ca' ∧ ca_config ca = ca_config ca';
  mi_queue d' : ∃ l, db_queue (database d' w') = db_queue (database d' w) ++ l
    ∧ Forall (λ x, fst x = t' ∧ (d' = d → harmless (snd x))) l;
  mi_nodes : db_nodes (database d w') = db_nodes (database d w)
}.
Lemma mild_refl t' w : mild t' w w.
Proof. split; [eauto|intros d'; exists []; by rewrite app_nil_r|done]. Qed.
Lemma mild_trans t' w1 w2 w3 : mild t' w1 w2 → mild t' w2 w3 → mild t' w1 w3.
Proof.
  intros [C1 Q1 N1] [C2 Q2 N2]. split.
  - intros c ca3 H3 Hin. destruct (C2 _ _ H3 Hin) as [?|(ca2 & H2 & E & E')]; [by left|].
    destruct (C1 c ca2 H2) as [?|(ca1 & H1 & ? & ?)]; [by rewrite E'|left; congruence|right].
    exists ca1. split; [done|]. split; congruence.
  - intros d'. destruct (Q1 d') as (l1 & E1 & F1), (Q2 d') as (l2 & E2 & F2). exists (l1 ++ l2).
    rewrite E2, E1, app_assoc. split; [done|]. by apply Forall_app.
  - congruence.
Qed.
Lemma mild_same t' w w' : caches w' = caches w → databases w' = databases w → mild t' w w'.
Proof.
  intros Ec Ed. split; [rewrite Ec; eauto|intros d'; exists []|]; unfold database; rewrite Ed; [by rewrite app_nil_r|done].
Qed.
Lemma mild_on_cache t' w c f : 
  (∀ ca, caches w !! c = Some ca → ca_config (f ca) = ca_config ca
     ∧ (cache_in s d (ca_config ca) = true → ca_memory (f ca) = [] ∨ ca_memory (f ca) = ca_memory ca)) →
  mild t' w (on_cache c f w).
Proof.
  intros Hf. split; [|intros d'; exists []; by rewrite app_nil_r|done]. intros c' ca'. cbn. destruct (decide (c' = c)) as [->|].
  - rewrite lookup_alter_eq. intros (ca & Hc & ->)%fmap_Some. destruct (Hf _ Hc) as [E Hm]. rewrite E. intros Hin.
    destruct (Hm Hin) as [?| ->]; [by left|]. right. by exists ca.
  - rewrite lookup_alter_ne by done. eauto.
Qed.
Lemma mild_enqueue t' w d' tx : (d' = d → harmless tx) → mild t' w (enqueue d' t' tx w).
Proof.
  intros Hx. split; [eauto|intros d2|]; unfold enqueue; rewrite database_insert.
  - destruct (decide (d2 = d')) as [->|]; [|exists []; by rewrite app_nil_r].
    exists [(t', tx)]. split; [done|]. by repeat constructor.
  - by destruct (decide (d = d')) as [->|].
Qed.

(** A call of a cache in the scope finds its generation over. *)
Definition over (ca : Cache) (epoch : nat) : Prop := cache_in s d (ca_config ca) = true → stale ca epoch = true.
Lemma swept_over w t' task k ca : swept w → tasks w !! t' = Some task → call_of task = Some k →
  caches w !! cl_cache k = Some ca → over ca (cl_epoch k).
Proof.
  intros Hs Ht Hk Hc Hin. unfold stale. destruct (sw_calls _ Hs _ _ _ _ Ht Hk Hc Hin) as [->|Hlt]; [done|].
  destruct (Nat.eqb_spec (cl_epoch k) (ca_generation ca)); [lia|]. by rewrite orb_true_r.
Qed.
Definition mildly (t' : nat) (w w' : World) : Prop := mild t' w w' ∧ tasks w' = tasks w.
Lemma mildly_refl t' w : mildly t' w w.
Proof. split; [apply mild_refl|done]. Qed.
Lemma mildly_trans t' w1 w2 w3 : mildly t' w1 w2 → mildly t' w2 w3 → mildly t' w1 w3.
Proof. intros [? ?] [? ?]. split; [by eapply mild_trans|congruence]. Qed.
Lemma mildly_enqueue t' w d' tx : (d' = d → harmless tx) → mildly t' w (enqueue d' t' tx w).
Proof. intros H'. split; [by apply mild_enqueue|done]. Qed.

Lemma get_check_mild t' c ca id epoch store r now ok w g w' : caches w !! c = Some ca → over ca epoch →
  get_check t' c ca id epoch store r now ok w = (g, w') → mildly t' w w'.
Proof.
  intros Hc Ho. unfold get_check. destruct (stale ca epoch) eqn:E; [intros [= _ <-]; apply mildly_refl|].
  destruct r as [l|]; [|intros [= _ <-]; apply mildly_refl].
  set (w1 := touch l _ w). set (w2 := on_cache c _ w1).
  assert (mildly t' w w2) as K.
  { apply (mildly_trans _ _ w1); (split; [|done]); [by apply mild_same|]. apply mild_on_cache. intros ca' Hc'.
    change (caches w1) with (caches w) in Hc'. simplify_eq. destruct (remember_frame (heap w1) id l (set_clock (next_tick now ca) ca)) as (_ & -> & _).
    split; [done|]. intros Hin%Ho. congruence. }
  destruct (store && ok); intros [= _ <-]; [|done]. eapply mildly_trans; [exact K|by apply mildly_enqueue].
Qed.
Lemma get_resume_mild t' c id g now ok w g' w' : (∀ ca, caches w !! c = Some ca →
    match g with GetDb epoch _ | GetStore epoch _ | GetTouch epoch _ _ => over ca epoch | _ => True end) →
  get_resume t' c id g now ok w = Some (g', w') → mildly t' w w'.
Proof.
  intros Ho. unfold get_resume. intros (ca & Hc & H')%option.bind_Some. specialize (Ho _ Hc). destruct g as [epoch r|epoch r|epoch l replied|r]; [| | |done].
  - apply option.bind_Some in H' as (store & _ & H'). destruct r as [l|]; [simplify_eq; by eapply get_check_mild|].
    destruct store; [destruct ok|]; simplify_eq; try apply mildly_refl. by apply mildly_enqueue.
  - apply option.bind_Some in H' as (r' & _ & H'). simplify_eq. by eapply get_check_mild.
  - destruct replied; simplify_eq. apply mildly_refl.
Qed.
Lemma put_begin_mild t' c ca l e epoch w p w' : caches w !! c = Some ca → over ca epoch →
  put_begin c ca l e epoch w = (p, w') → mildly t' w w'.
Proof.
  intros Hc Ho. unfold put_begin. destruct (stale ca epoch) eqn:E; [intros [= _ <-]; apply mildly_refl|].
  case_match; intros [= _ <-]; [apply mildly_refl|]. split; [|done]. apply mild_on_cache. intros ca' Hc'. simplify_eq.
  destruct (open_database_frame (remember (heap w) (en_id e) l ca)) as (_ & -> & _).
  destruct (remember_frame (heap w) (en_id e) l ca) as (_ & -> & _). split; [done|]. intros Hin%Ho. congruence.
Qed.
Lemma put_resume_mild t' k p ok w p' w' : (∀ ca, caches w !! cl_cache k = Some ca → over ca (cl_epoch k) ∧ put_ok w (ca_config ca) k p) →
  put_resume t' (cl_cache k) p ok w = Some (p', w') → mildly t' w w'.
Proof.
  intros Ho. unfold put_resume. intros (ca & Hc & H')%option.bind_Some. destruct (Ho _ Hc) as [Hover Hp].
  destruct p as [l epoch|replied|]; [| |done].
  - apply option.bind_Some in H' as (store & _ & H'). destruct Hp as (-> & e & He & Hns & Hpr).
    destruct (negb store); cbn [orb] in H'; [simplify_eq; apply mildly_refl|].
    destruct (stale ca (cl_epoch k)) eqn:E; [simplify_eq; apply mildly_refl|]. rewrite He in H'.
    destruct ok; simplify_eq; [|apply mildly_refl]. apply mildly_enqueue. intros Hd. cbn. unfold entry_in.
    rewrite Hns, Hpr. destruct (covers _ _ _) eqn:Ecov; [|done].
    assert (stale ca (cl_epoch k) = true); [|congruence]. apply Hover. unfold cache_in. rewrite Ecov. by apply bool_decide_eq_true.
  - destruct replied; simplify_eq. apply mildly_refl.
Qed.
Lemma store_entry_mild t' k ca n now m b w p w' : caches w !! cl_cache k = Some ca → over ca (cl_epoch k) →
  store_entry k ca n now m b w = (p, w') → mildly t' w w'.
Proof.
  intros Hc Ho. unfold store_entry. set (w1 := on_cache _ _ w). set (e := mkEntry _ _ _ _ _ _ _). intros H'.
  apply (mildly_trans _ _ (allocate e w1)).
  - apply (mildly_trans _ _ w1); (split; [|done]); [|by apply mild_same]. apply mild_on_cache. intros ca' _. by split; [|right].
  - eapply put_begin_mild; [| |exact H']; [cbn; by rewrite lookup_alter_eq, Hc|exact Ho].
Qed.

Lemma metadata_resume_mild t' k ca p now ok w p' w' : caches w !! cl_cache k = Some ca → over ca (cl_epoch k) →
  metadata_ok w (ca_config ca) k p → metadata_resume t' k ca p now ok w = Some (p', w') → mildly t' w w'.
Proof.
  intros Hc Ho Hp H'. destruct p as [g|op| |m q|a|a]; cbn [metadata_resume] in H'; try done.
  - destruct Hp as [_ [He _]].
    assert (('(g, w') ← get_resume t' (cl_cache k) (cl_id k) g now ok w; Some (MetadataGet g, w')) = Some (p', w') → mildly t' w w') as Hg.
    { intros ([g' w2] & G & [= _ <-])%option.bind_Some. eapply get_resume_mild; [|exact G]. intros ca'. rewrite Hc. intros [= <-].
      destruct g; subst; done. }
    destruct g; try by apply Hg. simplify_eq. unfold metadata_found in *.
    destruct (aborted k); simplify_eq; [apply mildly_refl|]. destruct (entry ≫= _); simplify_eq; [apply mildly_refl|].
    destruct (if unsignalled k then _ else _); simplify_eq; [apply mildly_refl|]. destruct (unsignalled k); [|apply mildly_refl].
    split; [|done]. apply mild_on_cache. intros ca' _. by split; [|right].
  - apply option.bind_Some in H' as (task & _ & H'). apply option.bind_Some in H' as (a & _ & H'). simplify_eq. apply mildly_refl.
  - destruct Hp as (_ & _ & Hq).
    assert (('(q, w') ← put_resume t' (cl_cache k) q ok w; Some (MetadataPut m q, w')) = Some (p', w') → mildly t' w w') as Hg.
    { intros ([g' w2] & G & [= _ <-])%option.bind_Some. eapply put_resume_mild; [|exact G]. intros ca'. rewrite Hc. by intros [= <-]. }
    destruct q; try by apply Hg. simplify_eq. apply mildly_refl.
  - simplify_eq. split; [|done]. apply mild_on_cache. intros ca' _. by split; [|right].
Qed.
Lemma metadata_loaded_mild t' k ca answer now w p' w' : caches w !! cl_cache k = Some ca → over ca (cl_epoch k) →
  metadata_loaded k ca answer now w = (p', w') → mildly t' w w'.
Proof.
  intros Hc Ho. unfold metadata_loaded. destruct answer as [m|e]; [|intros [= _ <-]; apply mildly_refl].
  set (w1 := set_loads _ w). assert (mildly t' w w1) as K by (split; [by apply mild_same|done]).
  destruct (aborted k); [by intros [= _ <-]|]. case_bool_decide; [|by intros [= _ <-]].
  destruct (store_entry _ _ _ _ _ _ _) eqn:E. intros [= _ <-]. eapply mildly_trans; [exact K|]. by eapply store_entry_mild; [|exact Ho|exact E].
Qed.
Lemma read_chunk_mild t' k ca parts count cacheable delivered chunk now w p w' : caches w !! cl_cache k = Some ca →
  over ca (cl_epoch k) → read_chunk k ca parts count cacheable delivered chunk now w = (p, w') → mildly t' w w'.
Proof.
  intros Hc Ho. unfold read_chunk. set (w1 := match chunk with Some _ => w | None => _ end).
  assert (mildly t' w w1) as K by (subst w1; destruct chunk; [apply mildly_refl|]; split; [by apply mild_same|done]).
  destruct (aborted k); [by intros [= _ <-]|]. destruct chunk as [chunk|].
  - case_match. by intros [= _ <-].
  - destruct cacheable; [|by intros [= _ <-]]. destruct (store_entry _ _ _ _ _ _ _) eqn:E. intros [= _ <-].
    eapply mildly_trans; [exact K|]. by eapply store_entry_mild; [|exact Ho|exact E].
Qed.
Lemma read_resume_mild t' k range ca p now ok w p' w' : caches w !! cl_cache k = Some ca → over ca (cl_epoch k) →
  read_ok w (ca_config ca) k range p → read_resume t' k range ca p now ok w = Some (p', w') → mildly t' w w'.
Proof.
  intros Hc Ho Hp H'. destruct p as [g| | | |b q|a]; cbn [read_resume] in H'; try done.
  - destruct Hp as [_ [He _]].
    assert (('(g, w') ← get_resume t' (cl_cache k) (cl_id k) g now ok w; Some (ReadGet g, w')) = Some (p', w') → mildly t' w w') as Hg.
    { intros ([g' w2] & G & [= _ <-])%option.bind_Some. eapply get_resume_mild; [|exact G]. intros ca'. rewrite Hc. intros [= <-].
      destruct g; subst; done. }
    destruct g; try by apply Hg. simplify_eq. apply mildly_refl.
  - destruct Hp as (_ & _ & _ & Hq).
    assert (('(q, w') ← put_resume t' (cl_cache k) q ok w; Some (ReadPut b q, w')) = Some (p', w') → mildly t' w w') as Hg.
    { intros ([g' w2] & G & [= _ <-])%option.bind_Some. eapply put_resume_mild; [|exact G]. intros ca'. rewrite Hc. by intros [= <-]. }
    destruct q; try by apply Hg. simplify_eq. apply mildly_refl.
Qed.

(** ** A step *)

(** What a step that is neither of the clearing call nor of a database does. *)
Definition framed (w w' : World) : Prop :=
  ∃ t' w1, t' ≠ t ∧ mildly t' w w1
    ∧ (w' = w1
       ∨ ∃ task, w' = place t' task w1
           ∧ (is_Some (tasks w !! t') ∨ ∀ k, call_of task = Some k → outside w (cl_cache k))).
Lemma framed_event w w' : mildly (S t) w w' → framed w w'.
Proof. intros K. exists (S t), w'. split; [lia|]. split; [done|by left]. Qed.
Lemma framed_place t' w w1 task : t' ≠ t → mildly t' w w1 → is_Some (tasks w !! t') → framed w (place t' task w1).
Proof. intros Ht K Hs. exists t', w1. split; [done|]. split; [done|]. right. exists task. split; [done|by left]. Qed.
Lemma framed_new t' w w1 task : t' ≠ t → mildly t' w w1 → (∀ k, call_of task = Some k → outside w (cl_cache k)) →
  framed w (place t' task w1).
Proof. intros Ht K Hs. exists t', w1. split; [done|]. split; [done|]. right. exists task. split; [done|by right]. Qed.

Lemma get_begin_mild t' c ca id w g w' : caches w !! c = Some ca → get_begin c ca id w = (g, w') → mildly t' w w'.
Proof.
  intros Hc. unfold get_begin. case_match; intros [= _ <-]; [apply mildly_refl|]. split; [|done].
  apply mild_on_cache. intros ca' _. destruct (open_database_frame ca') as (_ & -> & -> & _). by split; [|right].
Qed.
Lemma begin_metadata_framed t' c ca key sg w : t' ≠ t → caches w !! c = Some ca → outside w c →
  framed w (begin_metadata t' c ca key sg w).
Proof.
  intros Ht Hc Hn. unfold begin_metadata. destruct (begin_call _ _ _ _ _) as [k u] eqn:E.
  pose proof (begin_call_cache _ _ _ _ _ _ _ E) as (<- & _).
  destruct u; [destruct (get_begin _ _ _ _) eqn:G|]; apply framed_new; try done.
  - by eapply get_begin_mild.
  - by intros k' [= <-].
  - apply mildly_refl.
  - by intros k' [= <-].
Qed.
Lemma begin_read_framed t' c ca key r sg w : t' ≠ t → caches w !! c = Some ca → outside w c →
  framed w (begin_read t' c ca key r sg w).
Proof.
  intros Ht Hc Hn. unfold begin_read.
  assert (∀ k a, cl_cache k = c → framed w (place t' (ReadTask k r (ReadDone a)) w)) as Hdone.
  { intros k a E. apply framed_new; [done|apply mildly_refl|]. intros k' [= <-]. by rewrite E. }
  case_match; [by apply Hdone|]. case_match; [|by apply Hdone]. case_bool_decide; [by apply Hdone|].
  destruct (begin_call _ _ _ _ _) as [k u'] eqn:E. pose proof (begin_call_cache _ _ _ _ _ _ _ E) as (Ec & _).
  destruct u'; [|by apply Hdone]. destruct (get_begin _ _ _ _) eqn:G. apply framed_new; [done|by eapply get_begin_mild|].
  intros k' [= <-]. by rewrite Ec.
Qed.

Lemma on_cache_mildly t' c f w : (∀ ca, ca_config (f ca) = ca_config ca) →
  (∀ ca, ca_memory (f ca) = [] ∨ ca_memory (f ca) = ca_memory ca) → mildly t' w (on_cache c f w).
Proof. intros H1 H2. split; [|done]. apply mild_on_cache. intros ca _. split; [apply H1|intros _; apply H2]. Qed.
Lemma same_mildly t' w w' : caches w' = caches w → databases w' = databases w → tasks w' = tasks w → mildly t' w w'.
Proof. intros. split; [by apply mild_same|done]. Qed.
Lemma invalidate_live_mild t' realm sc d' w : mildly t' w (invalidate_live realm sc d' w).
Proof.
  unfold invalidate_live. induction (liveCaches w) as [|c l IH]; [apply mildly_refl|]. cbn [foldr].
  case_match; [|done]. case_match; [|done]. eapply mildly_trans; [exact IH|]. apply on_cache_mildly; [done|by left].
Qed.
Lemma begin_clear_framed t' c ca w : t' ≠ t → framed w (begin_clear t' c ca w).
Proof.
  intros Ht. unfold begin_clear. set (w1 := invalidate_live _ _ _ w).
  assert (mildly t' w w1) as K by apply invalidate_live_mild. apply framed_new; [done| |done].
  destruct (ca_closed ca); [done|]. eapply mildly_trans; [exact K|].
  eapply mildly_trans; [|apply on_cache_mildly]; [by apply same_mildly| |];
    intros ca'; destruct (open_database_frame ca') as (_ & E1 & E2 & _); [done|by right].
Qed.
Lemma clear_core_framed t' realm p d' w : t' ≠ t → framed w (clearBrowserNodeCachesCore t' realm p d' w).
Proof.
  intros Ht. unfold clearBrowserNodeCachesCore. apply framed_new; [done| |done].
  apply (mildly_trans _ _ (invalidate_live realm (PrincipalScope p) d' w)); [apply invalidate_live_mild|by apply same_mildly].
Qed.
Lemma clear_resume_mild t' o sc d' p ok w p' w' : clear_resume t' o sc d' p ok w = Some (p', w') → mildly t' w w'.
Proof.
  destruct p; try done. intros (store & _ & H')%option.bind_Some. destruct (store && ok); simplify_eq; [|apply mildly_refl].
  by apply mildly_enqueue.
Qed.

Lemma step_framed e w w' o p : world_ok w → swept w → tasks w !! t = Some (ClearTask o s d p) → step e w = Some w' →
  begins_in s d e w = false → (∀ d' ok, e ≠ Commits d' ok) → (∀ now ok, e ≠ Resumes t now ok) → framed w w'.
Proof.
  intros Hw Hs Hclear Hstep Hb Hnc Hnr.
  assert (∀ t' task, tasks w !! t' = Some task → ¬ (∃ o p, task = ClearTask o s d p) → t' ≠ t) as Hother.
  { intros t' task Ht Hne ->. rewrite Hclear in Ht. simplify_eq. eauto. }
  destruct e as [c realm now options|c ok|t' c key sg|t' c key r sg|t' c|t' realm pr d'|c|t' now ok|t' a now|t' a|t' chunk now|t'|t'|d' ok|n];
    cbn [step begins_in] in *.
  - destruct (caches w !! c) eqn:Ec; [done|]. destruct (createBrowserNodeCacheCore _ _ _) as [ca|] eqn:E; [|done]. simplify_eq.
    apply framed_event. split; [|done]. split; [|intros d'; exists []; by rewrite app_nil_r|done]. intros c' ca'. cbn.
    rewrite lookup_insert_Some. intros [[_ <-]|[_ ?]]; [|eauto]. intros _. left.
    pose proof (create_ok _ _ _ _ World_empty E) as [_ [_ Hat _ _] _ _]. destruct (ca_memory ca) as [|[id l] m]; [done|].
    destruct (Hat id l) as (e & He & _); [left|done].
  - apply option.bind_Some in Hstep as (ca & Hc & Hstep). destruct (ca_database ca); simplify_eq.
    apply framed_event, on_cache_mildly; [done|by right].
  - apply option.bind_Some in Hstep as (u & Ht%fresh_none & Hstep). apply option.bind_Some in Hstep as (ca & Hc & Hstep).
    simplify_eq. rewrite Hc in Hb. apply begin_metadata_framed; [congruence|done|by exists ca].
  - apply option.bind_Some in Hstep as (u & Ht%fresh_none & Hstep). apply option.bind_Some in Hstep as (ca & Hc & Hstep).
    simplify_eq. rewrite Hc in Hb. apply begin_read_framed; [congruence|done|by exists ca].
  - apply option.bind_Some in Hstep as (u & Ht%fresh_none & Hstep). apply option.bind_Some in Hstep as (ca & Hc & Hstep).
    simplify_eq. apply begin_clear_framed. congruence.
  - apply option.bind_Some in Hstep as (u & Ht%fresh_none & Hstep). simplify_eq. apply clear_core_framed. congruence.
  - simplify_eq. apply framed_event. apply (mildly_trans _ _ (on_cache c (λ ca, invalidate (set_closed ca)) w)).
    + apply on_cache_mildly; [done|by left].
    + by apply same_mildly.
  - apply option.bind_Some in Hstep as (task & Ht & Hstep). assert (t' ≠ t) as Hne by (intros ->; by eapply Hnr).
    pose proof (wo_tasks _ Hw _ _ Ht) as Htask. pose proof (λ k ca, swept_over w t' task k ca Hs Ht) as Hover.
    destruct task as [k q|k r q|c sc d' q].
    + apply option.bind_Some in Hstep as (ca & Hc & Hstep). apply option.bind_Some in Hstep as ([p' w2] & Hr & Hstep). simplify_eq.
      destruct Htask as (ca' & Hc' & _ & Hq). simplify_eq. apply framed_place; [done| |by rewrite Ht].
      by eapply metadata_resume_mild; [exact Hc| |exact Hq|exact Hr]; apply Hover.
    + apply option.bind_Some in Hstep as (ca & Hc & Hstep). apply option.bind_Some in Hstep as ([p' w2] & Hr & Hstep). simplify_eq.
      destruct Htask as (ca' & Hc' & _ & Hq). simplify_eq. apply framed_place; [done| |by rewrite Ht].
      by eapply read_resume_mild; [exact Hc| |exact Hq|exact Hr]; apply Hover.
    + apply option.bind_Some in Hstep as ([p' w2] & Hr & Hstep). simplify_eq.
      apply framed_place; [done|by eapply clear_resume_mild|by rewrite Ht].
  - apply option.bind_Some in Hstep as (task & Ht & Hstep). destruct task as [k []|k r q|c sc d' q]; try done.
    apply option.bind_Some in Hstep as (ca & Hc & Hstep). destruct (metadata_loaded _ _ _ _ _) eqn:E. simplify_eq.
    apply framed_place; [eapply Hother; [exact Ht|by intros (? & ? & ?)]| |by rewrite Ht].
    eapply metadata_loaded_mild; [exact Hc| |exact E]. by eapply swept_over.
  - apply option.bind_Some in Hstep as (task & Ht & Hstep). destruct task as [k q|k r []|c sc d' q]; simplify_eq.
    apply framed_place; [eapply Hother; [exact Ht|by intros (? & ? & ?)]|apply mildly_refl|by rewrite Ht].
  - apply option.bind_Some in Hstep as (task & Ht & Hstep). destruct task as [k q|k r []|c sc d' q]; try done.
    assert (t' ≠ t) as Hne by (eapply Hother; [exact Ht|by intros (? & ? & ?)]). destruct chunk as [chunk|e].
    + apply option.bind_Some in Hstep as (ca & Hc & Hstep). destruct (read_chunk _ _ _ _ _ _ _ _ _) eqn:E. simplify_eq.
      apply framed_place; [done| |by rewrite Ht]. eapply read_chunk_mild; [exact Hc| |exact E]. by eapply swept_over.
    + simplify_eq. apply framed_place; [done|apply mildly_refl|by rewrite Ht].
  - apply option.bind_Some in Hstep as (task & Ht & Hstep). destruct task as [k q|k r []|c sc d' q]; simplify_eq.
    apply framed_place; [eapply Hother; [exact Ht|by intros (? & ? & ?)]|apply mildly_refl|by rewrite Ht].
  - apply option.bind_Some in Hstep as (task & Ht & Hstep).
    destruct task as [k q|k r q|c sc d' q]; try done; destruct (unsignalled k); simplify_eq;
      (apply framed_place; [eapply Hother; [exact Ht|by intros (? & ? & ?)]|apply mildly_refl|by rewrite Ht]).
  - by destruct (Hnc d' ok).
  - apply option.bind_Some in Hstep as ([c sc] & _ & Hstep). simplify_eq. apply framed_event.
    eapply mildly_trans; [|apply on_cache_mildly]; [by apply same_mildly| |]; intros ca; case_match; auto.
Qed.

Lemma call_of_advances k k' ci : advances k k' → call_of k' = Some ci → ∃ ci0, call_of k = Some ci0 ∧ same_call ci0 ci.
Proof. destruct k, k'; try done; unfold advances; cbn; intros Ha [= <-]; eexists; (split; [done|]); try apply Ha. Qed.
Lemma task_cache w task k : task_ok w task → call_of task = Some k → ∃ ca, caches w !! cl_cache k = Some ca.
Proof. destruct task; cbn; try done; intros (ca & Hc & _) [= <-]; by exists ca. Qed.
(** The calls of the scope stay behind, whatever a step does that begins none. *)
Lemma calls_stay w w' : kept w w' → world_ok w → swept w →
  (∀ t2 task, tasks w !! t2 = None → tasks w' !! t2 = Some task → ∀ k, call_of task = Some k → outside w (cl_cache k)) →
  (∀ c ca', caches w' !! c = Some ca' → cache_in s d (ca_config ca') = true → ca_memory ca' = []) → swept w'.
Proof.
  intros [_ Hg] Hw Hs Hnew Hm. split; [done|]. intros t2 task k ca' Ht Hk Hc Hin. destruct (tasks w !! t2) as [task0|] eqn:E.
  - pose proof E as (task1 & Ht1 & Ha)%(gr_tasks _ _ Hg). simplify_eq.
    destruct (call_of_advances _ _ _ Ha Hk) as (k0 & Hk0 & _ & Ecache & Eepoch).
    destruct (task_cache _ _ _ (wo_tasks _ Hw _ _ E) Hk0) as [ca0 Hc0].
    pose proof Hc0 as (ca1 & Hc1 & [Ecf Hgen Hcl])%(gr_caches _ _ Hg). rewrite Ecache in Hc1. simplify_eq.
    destruct (sw_calls _ Hs _ _ _ _ E Hk0 Hc0) as [?|?]; [by rewrite <- Ecf|left; auto|right; lia].
  - destruct (Hnew _ _ E Ht _ Hk) as (ca0 & Hc0 & Hout).
    apply (gr_caches _ _ Hg) in Hc0 as (ca1 & Hc1 & [Ecf _ _]). simplify_eq. congruence.
Qed.
Lemma framed_swept w w' : world_ok w → kept w w' → swept w → framed w w' → swept w'.
Proof.
  intros Hw K Hs (t' & w1 & _ & [Hmi Ht1] & Hw'). apply (calls_stay w); try done.
  - intros t2 task E Ht k Hk. destruct Hw' as [->|(task' & -> & Hnew)]; [congruence|].
    cbn in Ht. destruct (decide (t2 = t')) as [->|]; [|rewrite lookup_insert_ne in Ht by done; congruence].
    rewrite lookup_insert_eq in Ht. simplify_eq. destruct Hnew as [[? ?]|Hnew]; [congruence|by apply Hnew].
  - intros c ca' Hc Hin. assert (caches w1 !! c = Some ca') as Hc1 by by destruct Hw' as [->|(task' & -> & _)].
    destruct (mi_caches _ _ _ Hmi _ _ Hc1 Hin) as [?|(ca & Hca & <- & Ecf)]; [done|].
    apply (sw_memory _ Hs c); [done|by rewrite Ecf].
Qed.
Lemma framed_cleared w w' : framed w w' → cleared w → cleared w'.
Proof.
  intros (t' & w1 & Hne & [Hmi Ht1] & Hw') (o & p & Ht & Hoq & Hp). exists o, p.
  assert (∀ d', database d' w' = database d' w1) as Ed by (intros d'; by destruct Hw' as [->|(task' & -> & _)]).
  assert (∀ d' l, Forall (λ x : nat * Transaction, fst x = t' ∧ (d' = d → harmless (snd x))) l → t ∉ (fst <$> l)) as Hnot.
  { intros d' l Hl (x & -> & Hx)%list_elem_of_fmap. rewrite Forall_forall in Hl. by destruct (Hl _ Hx). }
  split. { destruct Hw' as [->|(task' & -> & _)]; [congruence|]. cbn. rewrite lookup_insert_ne by done. congruence. }
  split.
  { intros d' Hd. rewrite Ed. destruct (mi_queue _ _ _ Hmi d') as (l & -> & Hl). rewrite fmap_app, not_elem_of_app.
    split; [by apply Hoq|by eapply Hnot]. }
  rewrite Ed. destruct (mi_queue _ _ _ Hmi d) as (l & -> & Hl). rewrite (mi_nodes _ _ _ Hmi).
  assert (Forall (λ x, harmless (snd x)) l) as Hh by (eapply Forall_impl; [exact Hl|]; intros ? [_ Hx]; by apply Hx).
  destruct p as [u| |[]]; cbv zeta in Hp |- *.
  - rewrite fmap_app, not_elem_of_app. split; [done|by eapply Hnot].
  - destruct Hp as (before & after & -> & Hb & Ha). exists before, (after ++ l). rewrite <- app_assoc.
    split; [done|]. split; [done|]. by apply Forall_app.
  - destruct Hp as [Hq Hn]. split; [by apply Forall_app|done].
  - done.
Qed.

Lemma resume_framed w w' now ok : world_ok w → swept w → cleared w → step (Resumes t now ok) w = Some w' → swept w' ∧ cleared w'.
Proof.
  intros Hw Hs (o & p & Ht & Hoq & Hp) Hstep. pose proof (step_kept _ _ _ Hw Hstep) as K. cbn [step] in Hstep.
  rewrite Ht in Hstep. cbn [mbind option_bind] in Hstep. apply option.bind_Some in Hstep as ([p' w1] & Hr & Hstep). simplify_eq.
  pose proof (clear_resume_mild t _ _ _ _ _ _ _ _ Hr) as [Hmi Ht1]. split.
  - apply (calls_stay w); try done.
    + intros t2 task E. cbn. rewrite lookup_insert_Some, Ht1. intros [[<- _]|[_ ?]]; congruence.
    + intros c ca' Hc Hin. destruct (mi_caches _ _ _ Hmi c ca' Hc Hin) as [?|(ca & Hca & <- & Ecf)]; [done|].
      apply (sw_memory _ Hs c); [done|by rewrite Ecf].
  - exists o, p'. split; [cbn; by rewrite lookup_insert_eq|]. destruct p as [u| |b]; try done. cbn [clear_resume] in Hr.
    apply option.bind_Some in Hr as (store & _ & Hr). destruct (store && ok); simplify_eq; [|done].
    assert (∀ d2, database d2 (place t (ClearTask o s d ClearTransaction) (enqueue d t (TxDelete s) w))
              = if decide (d2 = d) then mkDatabase (db_nodes (database d w)) (db_queue (database d w) ++ [(t, TxDelete s)])
                else database d2 w) as Ed by (intros d2; apply database_insert).
    split; [intros d2 Hd; rewrite Ed, decide_False by done; by apply Hoq|].
    rewrite Ed, decide_True by done. by exists (db_queue (database d w)), [].
Qed.
Lemma delete_nodes_none sc nodes id e : keyed nodes → delete_nodes sc nodes !! id = Some e → entry_in sc e = false.
Proof.
  intros Hk H'. pose proof H' as Hn. apply (lookup_weaken _ nodes) in Hn; [|apply delete_nodes_sub].
  destruct (entry_in sc e) eqn:E; [|done]. assert (e ∈ all_in sc nodes) as Hin.
  { rewrite all_in_perm. apply list_elem_of_filter. split; [done|]. apply list_elem_of_fmap. exists (id, e).
    split; [done|by apply elem_of_map_to_list]. }
  exfalso. assert (∀ l, e ∈ l → foldr (λ e nodes, delete (en_id e) nodes) nodes l !! id ≠ Some e) as Hl.
  { intros l. induction l as [|e' l IH]; cbn [foldr]; [by intros ?%not_elem_of_nil|].
    rewrite elem_of_cons, lookup_delete_Some. intros [<-|Hl] [Hne ?]; [by apply Hne, (Hk _ _ Hn)|by apply IH]. }
  by apply (Hl _ Hin).
Qed.
Lemma run_transaction_keeps_none w tx nodes : harmless tx → (∀ id e, nodes !! id = Some e → entry_in s e = false) →
  ∀ id e, run_transaction (heap w) tx nodes !! id = Some e → entry_in s e = false.
Proof.
  intros Hh Hn. destruct tx as [id'|id' l|e' ns max|sc]; cbn [run_transaction]; intros id e.
  - apply Hn.
  - destruct (nodes !! id') as [e'|] eqn:E; [|apply Hn]. rewrite lookup_insert_Some.
    intros [[_ <-]|[_ ?]]; [by apply (Hn _ _ E)|by eapply Hn].
  - intros H'. apply (lookup_weaken _ (<[en_id e':=e']> nodes)) in H'; [|apply evict_stored_sub].
    apply lookup_insert_Some in H' as [[_ <-]|[_ ?]]; [exact Hh|by eapply Hn].
  - intros H'. apply (lookup_weaken _ nodes) in H'; [by eapply Hn|apply delete_nodes_sub].
Qed.
Lemma commit_frame d' ok w w' : commit d' ok w = Some w' → caches w' = caches w
  ∧ ∃ t' tx queue entry, db_queue (database d' w) = (t', tx) :: queue ∧ tasks w' = alter (learn entry ok) t' (tasks w)
    ∧ ∀ d2, database d2 w' = if decide (d2 = d')
        then mkDatabase (if ok then run_transaction (heap w) tx (db_nodes (database d' w)) else db_nodes (database d' w)) queue
        else database d2 w.
Proof.
  unfold commit. destruct (db_queue (database d' w)) as [|[t' tx] queue] eqn:Eq; [done|].
  set (nodes := if ok then run_transaction _ _ _ else _).
  set (read := if ok then match tx with TxGet id => db_nodes (database d' w) !! id | _ => None end else None).
  set (w1 := set_databases _ w). set (w2 := match read with Some e => allocate e w1 | None => w1 end).
  intros [= <-]. split; [subst w2; by destruct read|]. eexists t', tx, queue, _. split; [done|].
  split; [cbn; f_equal; subst w2; by destruct read|]. intros d2. rewrite <- database_insert. subst w2. by destruct read.
Qed.
Lemma alter_other f t' w task : t' ≠ t → tasks w !! t = Some task → alter f t' (tasks w) !! t = Some task.
Proof. intros. by rewrite lookup_alter_ne. Qed.
Lemma commit_cleared d' ok w w' : world_ok w → cleared w → commit d' ok w = Some w' → cleared w'.
Proof.
  intros Hw (o & p & Ht & Hoq & Hp) (_ & t' & tx & queue & entry & Eq & Etasks & Edb)%commit_frame.
  assert (∀ d2, d2 ≠ d → t ∉ (fst <$> db_queue (database d2 w'))) as Hoq'.
  { intros d2 Hd. rewrite Edb. destruct (decide (d2 = d')) as [->|]; [|by apply Hoq]. cbn. intros H'.
    apply (Hoq d' Hd). rewrite Eq. by right. }
  unfold cleared. rewrite Etasks, Edb. destruct (decide (d = d')) as [<-|Hd].
  - rewrite Eq in Hp. destruct p as [u| |b]; cbv zeta in Hp.
    + rewrite fmap_cons, not_elem_of_cons in Hp. destruct Hp as [Hne Hq].
      exists o, (ClearDb u). split; [apply alter_other; [by intros E; apply Hne|done]|done].
    + destruct Hp as ([|x before] & after & Hq & Hb & Ha); cbn in Hq; simplify_eq.
      * exists o, (ClearDone ok). split; [by rewrite lookup_alter_eq, Ht|]. split; [done|]. destruct ok; [|done].
        split; [done|]. intros id e. apply delete_nodes_none. intros id' e' H'. by eapply (wo_nodes _ Hw).
      * rewrite fmap_cons, not_elem_of_cons in Hb. destruct Hb as [Hne Hb].
        exists o, ClearTransaction. split; [apply alter_other; [by intros E; apply Hne|done]|]. split; [done|].
        by exists before, after.
    + exists o, (ClearDone b). split.
      { destruct (decide (t' = t)) as [->|]; [by rewrite lookup_alter_eq, Ht|by apply alter_other]. }
      split; [done|]. destruct b; [|done]. destruct Hp as [[Hx Hq]%Forall_cons Hn].
      split; [done|]. destruct ok; [|done]. by apply run_transaction_keeps_none.
  - assert (t' ≠ t) as Hne by (intros ->; apply (Hoq d'); [done|]; rewrite Eq; left).
    exists o, p. split; [by apply alter_other|done].
Qed.
Lemma commit_swept d' ok w w' : world_ok w → swept w → commit d' ok w = Some w' → swept w'.
Proof.
  intros Hw Hs Hstep. pose proof (commit_ok _ _ _ _ Hw Hstep) as K.
  apply commit_frame in Hstep as (Ec & t' & tx & queue & entry & Eq & Etasks & _).
  apply (calls_stay w); try done; [|rewrite Ec; intros; by eapply sw_memory].
  intros t2 task E. rewrite Etasks. intros H' k _. exfalso. destruct (decide (t2 = t')) as [->|].
  - by rewrite lookup_alter_eq, E in H'.
  - rewrite lookup_alter_ne in H' by done. congruence.
Qed.

(** ** How it begins *)

Lemma invalidate_live_at realm c ca w l : caches w !! c = Some ca →
  let w' := foldr (λ c w, match caches w !! c with
                          | Some ca => if (cf_realm (ca_config ca) =? realm)%nat && cache_in s d (ca_config ca)
                                       then on_cache c invalidate w else w
                          | None => w end) w l in
  ∃ ca', caches w' !! c = Some ca' ∧ follows ca ca' ∧ (ca_memory ca = [] → ca_memory ca' = [])
    ∧ (c ∈ l → cf_realm (ca_config ca) = realm → cache_in s d (ca_config ca) = true →
       ca_memory ca' = [] ∧ (ca_generation ca < ca_generation ca')%nat).
Proof.
  intros Hc. induction l as [|c0 l IH]; cbn [foldr].
  { exists ca. split; [done|]. split; [done|]. split; [done|]. by intros ?%not_elem_of_nil. }
  set (w1 := foldr _ w l) in *. destruct IH as (ca1 & H1 & Hf & Hm & Hl). cbv zeta.
  destruct (decide (c0 = c)) as [->|Hne].
  - rewrite H1. pose proof (fo_config _ _ Hf) as E. rewrite E.
    destruct ((cf_realm (ca_config ca) =? realm)%nat && cache_in s d (ca_config ca)) eqn:Ein.
    + exists (invalidate ca1). cbn. rewrite lookup_alter_eq, H1. split; [done|].
      destruct Hf as [_ Hgen Hcl]. split; [split; cbn; [done|lia|auto]|]. split; [done|]. split; [done|]. lia.
    + exists ca1. split; [done|]. split; [done|]. split; [done|]. intros _ Hr Hin. rewrite Hr, Hin, Nat.eqb_refl in Ein. done.
  - exists ca1. split.
    { case_match; [|done]. case_match; [|done]. cbn. by rewrite lookup_alter_ne. }
    split; [done|]. split; [done|]. intros [->|Hin]%elem_of_cons; [done|by apply Hl].
Qed.
Lemma invalidated_swept realm w : world_ok w →
  (∀ c ca, caches w !! c = Some ca → cache_in s d (ca_config ca) = true → ca_closed ca = true ∨ cf_realm (ca_config ca) = realm) →
  swept (invalidate_live realm s d w).
Proof.
  intros Hw Hlive. pose proof (invalidate_live_ok realm s d w Hw) as [_ Hg].
  assert (∀ c ca', caches (invalidate_live realm s d w) !! c = Some ca' → ∃ ca, caches w !! c = Some ca) as Hold.
  { intros c. unfold invalidate_live. induction (liveCaches w) as [|c0 l IH]; cbn [foldr]; [eauto|]. intros ca'.
    case_match; [|apply IH]. case_match; [|apply IH]. cbn. destruct (decide (c = c0)) as [->|].
    - rewrite lookup_alter_eq. intros (ca1 & Hc1 & _)%fmap_Some. by eapply IH.
    - rewrite lookup_alter_ne by done. apply IH. }
  assert (∀ c ca ca', caches w !! c = Some ca → caches (invalidate_live realm s d w) !! c = Some ca' →
            cache_in s d (ca_config ca') = true →
            follows ca ca' ∧ ca_memory ca' = [] ∧ (ca_closed ca' = true ∨ (ca_generation ca < ca_generation ca')%nat)) as Hat.
  { intros c ca ca' Hc Hc' Hin. destruct (invalidate_live_at realm c ca w (liveCaches w) Hc) as (ca1 & H1 & Hf & Hm & Hl).
    change (caches (invalidate_live realm s d w) !! c = Some ca1) in H1. simplify_eq.
    rewrite (fo_config _ _ Hf) in Hin. destruct (ca_closed ca) eqn:Ecl.
    - split; [done|]. split; [apply Hm, (ko_closed _ _ (wo_caches _ Hw _ _ Hc) Ecl)|left; by apply Hf].
    - destruct (Hlive _ _ Hc Hin) as [?|Hr]; [congruence|].
      destruct Hl as [Hm0 Hgen]; [by eapply wo_live|done|done|]. split; [done|]. split; [done|by right]. }
  split.
  - intros c ca' Hc' Hin. destruct (Hold _ _ Hc') as [ca Hc]. by destruct (Hat _ _ _ Hc Hc' Hin) as (_ & ? & _).
  - intros t' task k ca' Ht Hk Hc' Hin. rewrite invalidate_live_tasks in Ht. destruct (Hold _ _ Hc') as [ca Hc].
    destruct (Hat _ _ _ Hc Hc' Hin) as (_ & _ & [?|Hgen]); [by left|right].
    assert (cl_epoch k ≤ ca_generation ca)%nat; [|lia]. pose proof (wo_tasks _ Hw _ _ Ht) as Htask.
    destruct task as [k' p|k' r p|]; simplify_eq/=; destruct Htask as (ca2 & Hc2 & Hle & _); by simplify_eq.
Qed.
Lemma swept_begun w o p x : swept w → swept (place t (ClearTask o s d p) (set_inbox x w)).
Proof.
  intros [Hm Hc]. split; [exact Hm|]. intros t' task k ca. cbn. rewrite lookup_insert_Some.
  intros [[_ <-]|[_ Ht]]; [done|]. by eapply Hc.
Qed.
Lemma swept_open c w : swept w → swept (on_cache c open_database w).
Proof.
  intros [Hm Hk].
  assert (∀ c' ca', caches (on_cache c open_database w) !! c' = Some ca' → ∃ ca, caches w !! c' = Some ca
            ∧ follows ca ca' ∧ ca_memory ca' = ca_memory ca ∧ (ca_generation ca ≤ ca_generation ca')%nat) as Hat.
  { intros c' ca'. cbn. destruct (decide (c' = c)) as [->|].
    - rewrite lookup_alter_eq. intros (ca & Hc & ->)%fmap_Some. exists ca. destruct (open_database_frame ca) as (Hf & _ & Em & _).
      split; [done|]. split; [done|]. split; [done|]. apply Hf.
    - rewrite lookup_alter_ne by done. intros Hc. by exists ca'. }
  split.
  - intros c' ca' Hc' Hin. destruct (Hat _ _ Hc') as (ca & Hc & Hf & -> & _). eapply Hm; [exact Hc|]. by rewrite <- (fo_config _ _ Hf).
  - intros t' task k ca' Ht Hcall Hc' Hin. destruct (Hat _ _ Hc') as (ca & Hc & Hf & _ & Hgen).
    destruct (Hk t' task k ca Ht Hcall Hc) as [?|?]; [by rewrite <- (fo_config _ _ Hf)|left; by apply Hf|right; lia].
Qed.
Lemma clears_swept e w w' realm : world_ok w → step e w = Some w' → clears e w = Some (t, realm, s, d) →
  (∀ c ca, caches w !! c = Some ca → cache_in s d (ca_config ca) = true → ca_closed ca = true ∨ cf_realm (ca_config ca) = realm) →
  swept w' ∧ cleared w'.
Proof.
  intros Hw Hstep Hcl Hlive. pose proof (invalidated_swept realm w Hw Hlive) as Hs.
  assert (∀ d', tasks w !! t = None → t ∉ (fst <$> db_queue (database d' w))) as Hnew.
  { intros d' Ht ([t' tx] & -> & Hin)%list_elem_of_fmap. apply (wo_queue _ Hw) in Hin as [[? ?] _]. cbn in Ht. congruence. }
  assert (∀ w2 o p, tasks w !! t = None → databases w2 = databases w → cleared (place t (ClearTask o s d (ClearDb p)) w2)) as Hclear.
  { intros w2 o p Ht Edb. exists o, (ClearDb p). split; [cbn; by rewrite lookup_insert_eq|].
    assert (∀ d2, database d2 (place t (ClearTask o s d (ClearDb p)) w2) = database d2 w) as E
      by (intros d2; unfold database; cbn; by rewrite Edb).
    split; [intros d2 _; rewrite E; by apply Hnew|]. rewrite E. by apply Hnew. }
  assert (∀ w2 realm2 s2 d2, databases (invalidate_live realm2 s2 d2 w2) = databases w2) as Edb.
  { intros. unfold invalidate_live. induction (liveCaches w2) as [|c l IH]; [done|]. cbn [foldr]. by repeat case_match. }
  destruct e; try done; cbn [step clears] in *.
  - apply option.bind_Some in Hstep as (u & Ht%fresh_none & Hstep). apply option.bind_Some in Hstep as (ca & Hc & Hstep).
    rewrite Hc in Hcl. cbn in Hcl. injection Hcl as -> Er Es Ed. injection Hstep as <-. unfold begin_clear. rewrite Er, Es, Ed.
    destruct (ca_closed ca).
    + split; [|apply Hclear; [done|apply Edb]]. apply (swept_begun _ (Some c) (ClearDb false) (inbox (invalidate_live realm s d w)) Hs).
    + split; [|apply Hclear; [done|apply (Edb w)]].
      apply (swept_open c) in Hs. exact (swept_begun _ (Some c) (ClearDb true) _ Hs).
  - apply option.bind_Some in Hstep as (u & Ht%fresh_none & Hstep). injection Hcl as -> -> Es Ed. injection Hstep as <-.
    unfold clearBrowserNodeCachesCore. rewrite Es, Ed.
    split; [exact (swept_begun _ None (ClearDb true) _ Hs)|apply Hclear; [done|apply (Edb w)]].
Qed.
Lemma step_swept e w w' : world_ok w → swept w → cleared w → step e w = Some w' → begins_in s d e w = false →
  swept w' ∧ cleared w'.
Proof.
  intros Hw Hs Hcl Hstep Hb.
  assert ((∃ d' ok, e = Commits d' ok) ∨ (∃ now ok, e = Resumes t now ok)
          ∨ (∀ d' ok, e ≠ Commits d' ok) ∧ (∀ now ok, e ≠ Resumes t now ok)) as [(d' & ok & ->)|[(now & ok & ->)|[Hnc Hnr]]].
  { destruct e as [| | | | | | |t' now ok| | | | | |d' ok|]; try (right; right; by split); [|left; eauto].
    destruct (decide (t' = t)) as [->|]; [right; left; eauto|right; right; split; congruence]. }
  { split; [by eapply commit_swept|by eapply commit_cleared]. }
  { by eapply resume_framed. }
  pose proof (step_kept _ _ _ Hw Hstep) as K. destruct Hcl as (o & p & Ht & Hp).
  assert (framed w w') as Hf by by eapply step_framed.
  split; [by eapply framed_swept|]. eapply framed_cleared; [done|]. by exists o, p.
Qed.
End clear.

Lemma quiet_clear s d t w w' : quiet s d w w' → world_ok w → swept s d w → cleared s d t w →
  world_ok w' ∧ swept s d w' ∧ cleared s d t w'.
Proof.
  induction 1 as [w|e w w' w'' Hstep Hb _ IH]; intros Hw Hs Hc; [done|].
  destruct (step_kept _ _ _ Hw Hstep) as [Hw' _]. destruct (step_swept s d t e w w' Hw Hs Hc Hstep Hb). by apply IH.
Qed.

(** C14: clearing is final. When [clear()], or [clearBrowserNodeCaches] for a principal,
    begins in the realm of every cache of its scope that is still open, and no further
    call begins on these, then from the moment its transaction is done no entry of the
    scope is stored and none is remembered, whatever loads, reads and writes were under
    way when it began. *)
Theorem clear_is_final s d t realm e w w1 w2 o : reachable w → clears e w = Some (t, realm, s, d) → step e w = Some w1 →
  (∀ c ca, caches w !! c = Some ca → cache_in s d (ca_config ca) = true →
     ca_closed ca = true ∨ cf_realm (ca_config ca) = realm) →
  quiet s d w1 w2 → tasks w2 !! t = Some (ClearTask o s d (ClearDone true)) →
  (∀ id en, db_nodes (database d w2) !! id = Some en → entry_in s en = false)
  ∧ ∀ c ca, caches w2 !! c = Some ca → cache_in s d (ca_config ca) = true → ca_memory ca = [] ∧ ca_memoryBytes ca = 0.
Proof.
  intros Hr%reachable_world_ok Hcl Hstep Hlive Hq Ht.
  destruct (clears_swept s d t e w w1 realm Hr Hstep Hcl Hlive) as [Hs Hc].
  destruct (quiet_clear s d t w1 w2 Hq) as (Hw2 & Hs2 & o2 & p2 & Ht2 & _ & Hp); [by eapply step_kept|done|done|].
  rewrite Ht in Ht2. simplify_eq. split; [apply Hp|]. intros c ca Hca Hin.
  pose proof (sw_memory _ _ _ Hs2 _ _ Hca Hin) as Em. split; [done|].
  destruct (ko_memory _ _ (wo_caches _ Hw2 _ _ Hca)) as [_ _ -> _]. by rewrite Em.
Qed.
End theorems.

(** * On concrete caches

    Two tabs of one user, and one of another; the second tab is answered from what the
    first one loaded, whole and in part; then the first tab clears while it loads. *)

Fixpoint run `{EndpointParser} (l : list Event) (w : World) : option World :=
  match l with [] => Some w | e :: l => w' ← step e w; run l w' end.
Fixpoint run_quiet `{EndpointParser} (s : Scope) (d : string) (l : list Event) (w : World) : option World :=
  match l with
  | [] => Some w
  | e :: l => if begins_in s d e w then None else w' ← step e w; run_quiet s d l w'
  end.
Lemma run_reachable `{EndpointParser} l w w' : reachable w → run l w = Some w' → reachable w'.
Proof.
  revert w. induction l as [|e l IH]; intros w Hr; cbn; [by intros [= <-]|].
  intros (w1 & Hs & Hl)%option.bind_Some. eapply IH; [by eapply reachable_step|done].
Qed.
Lemma run_quiet_quiet `{EndpointParser} s d l w w' : run_quiet s d l w = Some w' → quiet s d w w'.
Proof.
  revert w. induction l as [|e l IH]; intros w; cbn; [intros [= <-]; constructor|].
  destruct (begins_in s d e w) eqn:Eb; [done|].
  intros (w1 & Hs & Hl)%option.bind_Some. eapply quiet_step; [done|done|by apply IH].
Qed.

Module CacheExample.
#[export] Instance parser : EndpointParser := λ s, Some (mkEndpointUrl "" "" "" "" s).
Definition options (principal : string) : BrowserCasNodeCacheOptions :=
  mkCacheOptions "https://cas.example/" principal None (Some 1000) (Some 200) None.
Definition key : AppCasNodeCacheKey := mkCacheKey 1 "app" "space" "sha256:01".
Definition meta : CasNodeMetadata := NodeContent.mkNodeMetadata "sha256:01" 3 "text/plain" [].
Definition state (o : option World) : World := default World_empty o.

(** A load that is kept: the store was consulted, the answer is put. *)
Definition load_metadata (t c : nat) : list Event :=
  [BeginsMetadata t c key None; Connects c true; Resumes t 0 true; Commits default_databaseName true;
   Resumes t 0 true; Resumes t 0 true; LoadsMetadata t (Ok meta) 5; Resumes t 0 true;
   Commits default_databaseName true; Resumes t 0 true; Resumes t 0 true; Resumes t 0 true].
(** The second tab: the entry is read from the store and touched. *)
Definition cached_metadata (t c : nat) : list Event :=
  [BeginsMetadata t c key None; Connects c true; Resumes t 7 true; Commits default_databaseName true;
   Resumes t 7 true; Commits default_databaseName true; Resumes t 7 true; Resumes t 7 true].
Definition load_content (t c : nat) : list Event :=
  [BeginsRead t c key None (Some false); Resumes t 8 true; Commits default_databaseName true;
   Resumes t 8 true; Resumes t 8 true; LoadsContent t (Ok tt); Pulls t (Ok (Some (TextEncoder_encode "ab"))) 8;
   Pulls t (Ok (Some (TextEncoder_encode "c"))) 8; Pulls t (Ok None) 9; Resumes t 9 true;
   Commits default_databaseName true; Resumes t 9 true; Resumes t 9 true].
Definition cached_range_events (t c : nat) : list Event :=
  [BeginsRead t c key (Some (NodeContent.mkNodeRange 1 (Some 5))) None; Resumes t 10 true; Commits default_databaseName true;
   Resumes t 10 true; Commits default_databaseName true; Resumes t 10 true; Resumes t 10 true].
Definition answered_world : option World :=
  run ([Creates 0 0 0 (options "ann"); Creates 1 1 0 (options "ann"); Creates 2 1 0 (options "bob")]
       ++ load_metadata 0 0 ++ cached_metadata 1 1 ++ load_content 2 0 ++ cached_range_events 3 1) World_empty.

(** The other tab is closed; a load is under way when the first tab clears. *)
Definition other_key : AppCasNodeCacheKey := mkCacheKey 1 "app" "space" "sha256:02".
Definition other_meta : CasNodeMetadata := NodeContent.mkNodeMetadata "sha256:02" 1 "text/plain" [].
Definition loading_world : option World :=
  w ← answered_world;
  run [Closes 1; BeginsMetadata 4 0 other_key None; Resumes 4 20 true; Commits default_databaseName true;
       Resumes 4 20 true; Resumes 4 20 true] w.
Definition clearing_world : option World := w ← loading_world; step (BeginsClear 5 0) w.
Definition ann : Scope := NamespaceScope (namespace_text "https://cas.example" "ann").
Definition meanwhile : list Event :=
  [LoadsMetadata 4 (Ok other_meta) 21; Resumes 5 21 true; Resumes 4 21 true; Resumes 4 21 true;
   Commits default_databaseName true].
Definition cleared_world : option World :=
  w ← clearing_world;
  run_quiet ann default_databaseName meanwhile w.
(** A call that begins meanwhile finds the entry that is still stored, and remembers it. *)
Definition disturbed_world : option World :=
  w ← clearing_world;
  run [BeginsMetadata 6 0 key None; Resumes 6 21 true; Commits default_databaseName true; Resumes 5 21 true;
       Commits default_databaseName true; Resumes 6 22 true] w.
End CacheExample.
Import CacheExample.

Lemma answered_reachable : reachable (state answered_world).
Proof.
  destruct answered_world as [w|] eqn:E; [|vm_compute in E; discriminate E].
  unfold answered_world in E. eapply run_reachable; [apply reachable_empty|exact E].
Qed.
Lemma loading_reachable : reachable (state loading_world).
Proof.
  unfold loading_world. pose proof answered_reachable as Hr.
  destruct answered_world as [w|]; [|apply reachable_empty]. cbn [mbind option_bind].
  destruct (run _ w) as [w'|] eqn:E; [|apply reachable_empty]. by eapply run_reachable.
Qed.

(** The second tab is answered without a load. *)
Lemma cached_answers_loaded_witness :
  let w := state answered_world in
  length (loads w) = 2%nat
  ∧ ∃ k, tasks w !! 1%nat = Some (MetadataTask k (MetadataDone (Ok meta)))
    ∧ ∃ ca ld, caches w !! cl_cache k = Some ca ∧ ld ∈ loads w ∧ ld_key ld = cl_key k
      ∧ ld_payload ld = LoadedMetadata meta
      ∧ cf_endpoint (ld_config ld) = cf_endpoint (ca_config ca)
      ∧ cf_principal (ld_config ld) = cf_principal (ca_config ca).
Proof.
  intros w. split; [vm_compute; reflexivity|].
  assert (∃ k, tasks w !! 1%nat = Some (MetadataTask k (MetadataDone (Ok meta)))) as [k Hk]
    by (eexists; vm_compute; reflexivity).
  exists k. split; [exact Hk|]. exact (proj1 (cached_answers_loaded w 1 k answered_reachable) _ Hk).
Defined.
Lemma cache_within_limits_witness :
  let w := state answered_world in
  0 < total ann (db_nodes (database default_databaseName w)) ≤ 1000.
Proof.
  intros w. split; [vm_compute; reflexivity|].
  apply (proj2 (cache_within_limits w answered_reachable)); [done|].
  assert (Forall (λ p : nat * Cache, cf_maxBytes (ca_config (snd p)) ≤ 1000) (map_to_list (caches w))) as Hall.
  { apply (bool_decide_unpack _). vm_compute. exact I. }
  intros c ca Hc _ _. apply elem_of_map_to_list in Hc. rewrite Forall_forall in Hall. exact (Hall _ Hc).
Defined.
Lemma clear_is_final_witness :
  let w2 := state cleared_world in
  (∀ id en, db_nodes (database default_databaseName w2) !! id = Some en → entry_in ann en = false)
  ∧ ∀ c ca, caches w2 !! c = Some ca → cache_in ann default_databaseName (ca_config ca) = true →
      ca_memory ca = [] ∧ ca_memoryBytes ca = 0.
Proof.
  intros w2.
  apply (clear_is_final ann default_databaseName 5 0 (BeginsClear 5 0) (state loading_world) (state clearing_world) w2 (Some 0%nat)).
  - apply loading_reachable.
  - vm_compute. reflexivity.
  - vm_compute. reflexivity.
  - assert (Forall (λ p : nat * Cache, cache_in ann default_databaseName (ca_config (snd p)) = true →
              ca_closed (snd p) = true ∨ cf_realm (ca_config (snd p)) = 0%nat)
              (map_to_list (caches (state loading_world)))) as Hall.
    { apply (bool_decide_unpack _). vm_compute. exact I. }
    intros c ca Hc. apply elem_of_map_to_list in Hc. rewrite Forall_forall in Hall. exact (Hall _ Hc).
  - apply (run_quiet_quiet _ _ meanwhile). vm_compute. reflexivity.
  - vm_compute. reflexivity.
Defined.
(** Without the hypothesis of [clear_is_final] on calls that begin, its conclusion fails. *)
Lemma call_during_clear :
  let w := state disturbed_world in
  (∃ o, tasks w !! 5%nat = Some (ClearTask o ann default_databaseName (ClearDone true)))
  ∧ ∃ ca, caches w !! 0%nat = Some ca ∧ cache_in ann default_databaseName (ca_config ca) = true
      ∧ ca_memory ca ≠ [].
Proof.
  intros w. split; [eexists; vm_compute; reflexivity|].
  destruct (caches w !! 0%nat) as [ca|] eqn:E; [|vm_compute in E; discriminate E]. exists ca. split; [done|].
  split; vm_compute in E; injection E as <-; [by vm_compute|done].
Qed.
