(* ===== verification/BlobClient.v ===== *)
(** The blob client of [packages/space-blob-client/src/blob-client.ts]: a content is
    cut into chunks, stored as nodes under a tree of bounded indexes; a blob is read
    as a whole or by ranges. Streams are the lists of chunks they deliver; abort
    signals and the progress callback are left out. *)
From S2P Require Import Prelude Js JsString JsonText Errors Safe Codec BlobIndex NodeContent.

Record BlobTreeNode := mkTreeNode { bt_hash : string; bt_size : Z; bt_level : Z }.

(** [CasBlobRef]: the content type is that of the node, or the media type of an
    index that was read. *)
Record CasBlobRef := mkBlobRef { br_hash : string; br_size : Z; br_contentType : Json }.
Record CasBlobWriteOptions := mkWriteOptions {
  wo_contentType : string;
  wo_size : option Z;
  wo_leaseDurationMs : option Z
}.
(** A stream of bytes to store: what it delivers, and how it fails, if it does. *)
Record CasBlobSource := mkBlobSource { bs_chunks : list bytes; bs_failure : option exn }.

(** The configuration [createCasBlobClient] checks. *)
Record BlobConfig := mkBlobConfig { cf_chunkBytes : Z; cf_indexFanout : Z }.
Definition blobConfig (chunkBytes indexFanout : option Z) : result exn BlobConfig :=
  let chunkBytes := default BlobChunkBytes chunkBytes in
  _ ← throw_if (negb (isSafeInteger chunkBytes) || (chunkBytes <=? 0) || (BlobChunkBytes <? chunkBytes))
        (RangeError ("Blob chunk size must be an integer between 1 and " +:+ show BlobChunkBytes));
  let indexFanout := default BlobIndexFanout indexFanout in
  _ ← throw_if (negb (isSafeInteger indexFanout) || (indexFanout <? 2) || (BlobIndexFanout <? indexFanout))
        (RangeError ("Blob index fanout must be an integer between 2 and " +:+ show BlobIndexFanout));
  Ok (mkBlobConfig chunkBytes indexFanout).

(** * Cutting a stream into chunks *)

(** The inner loop of [chunkSource] over one value: [used] is the filled part of the
    buffer. Every turn takes at least one byte, so the length of the value is fuel
    enough. *)
Fixpoint fill_chunks (fuel : nat) (chunkBytes : Z) (used value : bytes) : list bytes * bytes :=
  match fuel, value with
  | O, _ | _, [] => ([], used)
  | S fuel, _ =>
      let n := Z.to_nat (Z.min (chunkBytes - blen used) (blen value)) in
      let used := used ++ take n value in
      if blen used =? chunkBytes then
        let '(chunks, rest) := fill_chunks fuel chunkBytes [] (drop n value) in (used :: chunks, rest)
      else fill_chunks fuel chunkBytes used (drop n value)
  end.
Fixpoint chunk_values (chunkBytes : Z) (used : bytes) (values : list bytes) : list bytes * bytes :=
  match values with
  | [] => ([], used)
  | value :: values =>
      let '(chunks, used) := fill_chunks (length value) chunkBytes used value in
      let '(more, used) := chunk_values chunkBytes used values in
      (chunks ++ more, used)
  end.
(** [chunkSource(source, chunkBytes)]: the chunks it yields before it ends or fails. *)
Definition chunkSource (chunkBytes : Z) (source : CasBlobSource) : list bytes :=
  let '(chunks, used) := chunk_values chunkBytes [] (bs_chunks source) in
  match bs_failure source with
  | Some _ => chunks
  | None => if 0 <? blen used then chunks ++ [used] else chunks
  end.

(** [assertExpectedSize(expected, actual)]. *)
Definition assertExpectedSize (expected : option Z) (actual : Z) : result exn unit :=
  match expected with
  | None => Ok tt
  | Some n => throw_if (negb (n =? actual))
                (Error ("Blob size mismatch: expected " +:+ show n +:+ ", got " +:+ show actual))
  end.

Definition validateLeaf (hash : string) (refs : list string) (contentType : string)
    (expectedLevel : option Z) : result exn unit :=
  _ ← throw_if (negb (Z.of_nat (length refs) =? 0)) (Error ("CAS node " +:+ hash +:+ " is not a blob leaf"));
  throw_if (match expectedLevel with
            | None => false
            | Some level => negb (level =? -1) || negb (bool_decide (contentType = BlobChunkContentType))
            end) (Error ("Blob tree leaf " +:+ hash +:+ " has an invalid type or level")).

(** [a === b] of two decoded values; arrays and maps are equal to themselves only. *)
Definition strict_equal (a b : Json) : bool :=
  match a, b with
  | JStr a, JStr b => bool_decide (a = b)
  | JInt a, JInt b => a =? b
  | JFrac a, JFrac b => bool_decide (a = b) && negb (bool_decide (a = "NaN"))
  | JBool a, JBool b => eqb a b
  | JNull, JNull => true
  | _, _ => false
  end.
Definition validateIndex (hash : string) (mediaType : Json) (level childCount refCount : Z)
    (expectedLevel : option Z) (expectedMediaType : Json) : result exn unit :=
  throw_if (negb (strict_equal mediaType expectedMediaType)
            || match expectedLevel with None => false | Some l => negb (level =? l) end
            || negb (childCount =? refCount))
    (Error ("Blob index " +:+ hash +:+ " metadata is inconsistent")).

Definition validateRange (range : CasNodeRange) : result exn unit :=
  _ ← throw_if (negb (isSafeInteger (nr_offset range)) || (nr_offset range <? 0))
        (TypeError "Blob range offset must be a non-negative safe integer");
  throw_if (match nr_length range with
            | None => false
            | Some len => negb (isSafeInteger len) || (len <? 0)
            end) (TypeError "Blob range length must be a non-negative safe integer").

Section blob_client.
Context {W : Type} `{!AppCasClient W, !UploadFetcher W, !Sha256, !Cbor}.
Context (spaceId : string) (config : BlobConfig).
Notation Run := (M exn W).

(** * Storing *)

Definition storeNode (content : bytes) (contentType : string) (refs : list string)
    (durationMs : option Z) : Run string :=
  storeNodeContent spaceId content contentType refs durationMs.

Definition storeIndex (children : list BlobTreeNode) (mediaType : string) (durationMs : option Z)
    : Run BlobTreeNode :=
  match children with
  | [] => throw (TypeError "Cannot read properties of undefined (reading 'level')")
  | first :: _ =>
      let level := bt_level first + 1 in
      _ ← lift (throw_if (existsb (λ child, negb (bt_level child =? level - 1)) children)
            (Error "Blob tree index children must have the same level"));
      let size := foldl (λ total child, total + bt_size child) 0 children in
      content ← lift (encodeBlobIndex
        (mkBlobIndex (JInt 1) (JInt level) (JInt size) (JStr mediaType)
           ((λ child, JInt (bt_size child)) <$> children)));
      hash ← storeNode content BlobIndexContentType (bt_hash <$> children) durationMs;
      mret (mkTreeNode hash size level)
  end.

(** [groups[index] ??= []]: the array grows, and a hole counts as an empty group. *)
Definition ensure_group (index : nat) (groups : list (list BlobTreeNode)) : list (list BlobTreeNode) :=
  groups ++ replicate (S index - length groups) [].

Fixpoint appendTreeNode (fuel : nat) (groups : list (list BlobTreeNode)) (node : BlobTreeNode)
    (mediaType : string) (durationMs : option Z) : Run (list (list BlobTreeNode)) :=
  match fuel with
  | O => throw out_of_fuel
  | S fuel =>
      let groupIndex := Z.to_nat (bt_level node + 1) in
      let groups := ensure_group groupIndex groups in
      let group := default [] (groups !! groupIndex) ++ [node] in
      if Z.of_nat (length group) =? cf_indexFanout config then
        let groups := <[groupIndex := []]> groups in
        parent ← storeIndex group mediaType durationMs;
        appendTreeNode fuel groups parent mediaType durationMs
      else mret (<[groupIndex := group]> groups)
  end.
(** A node climbs at most to a new group above the last one. *)
Definition append_fuel (groups : list (list BlobTreeNode)) : nat := S (S (length groups)).

(** The groups that are not empty, with their indexes. *)
Fixpoint populated (index : nat) (groups : list (list BlobTreeNode)) : list (nat * list BlobTreeNode) :=
  match groups with
  | [] => []
  | [] :: groups => populated (S index) groups
  | group :: groups => (index, group) :: populated (S index) groups
  end.

Fixpoint finishTree (fuel : nat) (groups : list (list BlobTreeNode)) (mediaType : string)
    (durationMs : option Z) : Run BlobTreeNode :=
  match fuel with
  | O => throw out_of_fuel
  | S fuel =>
      let entries := populated 0 groups in
      let count := foldl (λ total entry, total + Z.of_nat (length (snd entry))) 0 entries in
      match entries with
      | (index, (node :: _) as group) :: _ =>
          if count =? 1 then mret node
          else
            let groups := <[index := []]> groups in
            parent ← storeIndex group mediaType durationMs;
            groups ← appendTreeNode (append_fuel groups) groups parent mediaType durationMs;
            finishTree fuel groups mediaType durationMs
      | _ => throw (TypeError "Cannot read properties of undefined (reading 'index')")
      end
  end.

(** What [storeBlob] carries from chunk to chunk: the groups and the bytes so far. *)
Definition addChunk (options : CasBlobWriteOptions) (state : list (list BlobTreeNode) * Z) (b : bytes)
    : Run (list (list BlobTreeNode) * Z) :=
  let '(groups, measuredSize) := state in
  hash ← storeNode b BlobChunkContentType [] (wo_leaseDurationMs options);
  groups ← appendTreeNode (append_fuel groups) groups (mkTreeNode hash (blen b) (-1))
             (wo_contentType options) (wo_leaseDurationMs options);
  mret (groups, measuredSize + blen b).

Definition stream_end (source : CasBlobSource) : Run unit :=
  match bs_failure source with Some e => throw e | None => mret tt end.

(** A blob of one node, or of none. *)
Definition storeSingle (b : bytes) (options : CasBlobWriteOptions) : Run CasBlobRef :=
  hash ← storeNode b (wo_contentType options) [] (wo_leaseDurationMs options);
  _ ← lift (assertExpectedSize (wo_size options) (blen b));
  mret (mkBlobRef hash (blen b) (JStr (wo_contentType options))).

Definition storeBlob (source : CasBlobSource) (options : CasBlobWriteOptions) : Run CasBlobRef :=
  match chunkSource (cf_chunkBytes config) source with
  | [] => _ ← stream_end source; storeSingle [] options
  | [first] => _ ← stream_end source; storeSingle first options
  | first :: second :: rest =>
      state ← addChunk options ([], 0) first;
      state ← addChunk options state second;
      state ← fold_m (addChunk options) state rest;
      _ ← stream_end source;
      let '(groups, measuredSize) := state in
      root ← finishTree (append_fuel groups) groups (wo_contentType options) (wo_leaseDurationMs options);
      _ ← lift (assertExpectedSize (wo_size options) measuredSize);
      mret (mkBlobRef (bt_hash root) measuredSize (JStr (wo_contentType options)))
  end.

(** * Reading *)

(** [collectStream(stream)]. *)
Definition collectStream (chunks : list bytes) : bytes := concat chunks.

(** [decodeBlobIndex(await collectStream(await cas.readContent(spaceId, hash)))]. *)
Definition readIndex (hash : string) : Run CasBlobIndexV1 :=
  chunks ← readContent spaceId hash None;
  lift (decodeBlobIndex (collectStream chunks)).

Definition resolveBlobRef (hash : string) : Run CasBlobRef :=
  metadata ← readMetadata spaceId hash;
  if negb (bool_decide (nm_contentType metadata = BlobIndexContentType)) then
    _ ← lift (throw_if (negb (Z.of_nat (length (nm_refs metadata)) =? 0))
          (Error ("CAS node " +:+ hash +:+ " is not a blob root")));
    mret (mkBlobRef hash (nm_size metadata) (JStr (nm_contentType metadata)))
  else
    index ← readIndex hash;
    _ ← lift (throw_if (negb (Z.of_nat (length (bi_children index)) =? Z.of_nat (length (nm_refs metadata))))
          (Error ("Blob index " +:+ hash +:+ " child metadata does not match its CAS refs")));
    mret (mkBlobRef hash (number (bi_size index)) (bi_mediaType index)).

(** [for (...) yield* f(x)]. *)
Fixpoint yield_all {A} (l : list A) (f : A → Run (list bytes)) : Run (list bytes) :=
  match l with
  | [] => mret []
  | x :: l => chunks ← f x; more ← yield_all l f; mret (chunks ++ more)
  end.

(** [readNode(hash, expectedLevel, expectedMediaType)] around its recursive calls,
    which are for one level less. *)
Definition readNode_step (below : Z → string → Run (list bytes)) (hash : string)
    (expectedLevel : option Z) (expectedMediaType : Json) : Run (list bytes) :=
  metadata ← readMetadata spaceId hash;
  if negb (bool_decide (nm_contentType metadata = BlobIndexContentType)) then
    _ ← lift (validateLeaf hash (nm_refs metadata) (nm_contentType metadata) expectedLevel);
    readContent spaceId hash None
  else
    index ← readIndex hash;
    _ ← lift (validateIndex hash (bi_mediaType index) (number (bi_level index))
          (Z.of_nat (length (bi_children index))) (Z.of_nat (length (nm_refs metadata)))
          expectedLevel expectedMediaType);
    yield_all (nm_refs metadata) (below (number (bi_level index) - 1)).

(** The nodes expected at level [n - 1]; at level -1 no index is valid, since an
    index has a level from 0 on, so there is no call below. *)
Fixpoint readNode_at (n : nat) (expectedMediaType : Json) (hash : string) : Run (list bytes) :=
  readNode_step (λ level child,
    match n with
    | O => throw out_of_fuel
    | S n => readNode_at n expectedMediaType child
    end) hash (Some (Z.of_nat n - 1)) expectedMediaType.
Definition readBlobNode (hash : string) (expectedMediaType : Json) : Run (list bytes) :=
  readNode_step (λ level child, readNode_at (Z.to_nat (level + 1)) expectedMediaType child)
    hash None expectedMediaType.

(** The loop of [readRangeNode] over the children and their sizes, from
    [childStart] on. *)
Fixpoint range_children (below : string → Z → Z → Run (list bytes)) (offset endOffset childStart : Z)
    (children : list (Z * string)) : Run (list bytes) :=
  match children with
  | [] => mret []
  | (size, hash) :: children =>
      let childEnd := childStart + size in
      let intersectionStart := Z.max offset childStart in
      let intersectionEnd := Z.min endOffset childEnd in
      chunks ← (if intersectionStart <? intersectionEnd
                then below hash (intersectionStart - childStart) (intersectionEnd - intersectionStart)
                else mret []);
      if endOffset <=? childEnd then mret chunks
      else more ← range_children below offset endOffset childEnd children; mret (chunks ++ more)
  end.

Definition readRangeNode_step (below : Z → string → Z → Z → Run (list bytes)) (hash : string)
    (offset len : Z) (expectedLevel : option Z) (expectedMediaType : Json) : Run (list bytes) :=
  metadata ← readMetadata spaceId hash;
  if negb (bool_decide (nm_contentType metadata = BlobIndexContentType)) then
    _ ← lift (validateLeaf hash (nm_refs metadata) (nm_contentType metadata) expectedLevel);
    readContent spaceId hash (Some (mkNodeRange offset (Some len)))
  else
    index ← readIndex hash;
    _ ← lift (validateIndex hash (bi_mediaType index) (number (bi_level index))
          (Z.of_nat (length (bi_children index))) (Z.of_nat (length (nm_refs metadata)))
          expectedLevel expectedMediaType);
    range_children (below (number (bi_level index) - 1)) offset (offset + len) 0
      (zip (number <$> bi_children index) (nm_refs metadata)).

Fixpoint readRangeNode_at (n : nat) (expectedMediaType : Json) (hash : string) (offset len : Z)
    : Run (list bytes) :=
  readRangeNode_step (λ level child offset len,
    match n with
    | O => throw out_of_fuel
    | S n => readRangeNode_at n expectedMediaType child offset len
    end) hash offset len (Some (Z.of_nat n - 1)) expectedMediaType.
Definition readRangeNode (hash : string) (offset len : Z) (expectedMediaType : Json) : Run (list bytes) :=
  readRangeNode_step (λ level child, readRangeNode_at (Z.to_nat (level + 1)) expectedMediaType child)
    hash offset len None expectedMediaType.

(** The handle that [openBlob] returns: its [ref] and its [read]. *)
Definition openBlob (hash : string) : Run CasBlobRef := resolveBlobRef hash.

Definition ranged (ref : CasBlobRef) (range : CasNodeRange) : Run (list bytes) :=
  _ ← lift (validateRange range);
  _ ← lift (throw_if (br_size ref <? nr_offset range) (RangeError "Blob range offset exceeds blob size"));
  let len := Z.min (default (br_size ref - nr_offset range) (nr_length range))
                   (br_size ref - nr_offset range) in
  if len =? 0 then mret []
  else readRangeNode (br_hash ref) (nr_offset range) len (br_contentType ref).
Definition handle_read (ref : CasBlobRef) (range : option CasNodeRange) : Run (list bytes) :=
  match range with
  | None => readBlobNode (br_hash ref) (br_contentType ref)
  | Some range => ranged ref range
  end.
Definition handle_readBytes (ref : CasBlobRef) (offset len : Z) : Run bytes :=
  chunks ← ranged ref (mkNodeRange offset (Some len));
  mret (collectStream chunks).

(** * Retention *)

Definition retention_change (direction : Z) (reference : string * Json) : result exn (string * Z) :=
  let '(hash, count) := reference in
  match safe_number (Some count) with
  | Some n => if n <=? 0
              then Throw (TypeError ("Blob reference count for " +:+ hash +:+ " must be a positive safe integer"))
              else Ok (hash, direction * n)
  | None => Throw (TypeError ("Blob reference count for " +:+ hash +:+ " must be a positive safe integer"))
  end.
Definition updateRetention (requestId : string) (references : list (string * Json)) (direction : Z)
    : Run CasRootRefsResult :=
  changes ← lift (map_result (retention_change direction) references);
  updateRootRefs spaceId requestId changes.
Definition blob_retain (requestId : string) (references : list (string * Json)) : Run CasRootRefsResult :=
  updateRetention requestId references 1.
Definition blob_release (requestId : string) (references : list (string * Json)) : Run CasRootRefsResult :=
  updateRetention requestId references (-1).
End blob_client.
