(* ===== verification/BlobSafe.v ===== *)
(** What a blob client stores it can read: the tree of indexes above the chunks of a
    content, and every range of it. *)
From stdpp Require Import sorting.
From S2P Require Import Prelude Js JsString JsonText Errors Safe Codec Validation BlobIndex.
From S2P Require Import NodeContent BlobClient.

(** * Chunks *)

(** A content cut into full chunks and a rest. *)
Record cut_into (n : Z) (content : bytes) (chunks : list bytes) (rest : bytes) : Prop := {
  ci_concat : concat chunks ++ rest = content;
  ci_full : Forall (λ c, blen c = n) chunks;
  ci_rest : blen rest < n
}.

Lemma cut_unique n content chunks1 rest1 chunks2 rest2 :
  0 < n → cut_into n content chunks1 rest1 → cut_into n content chunks2 rest2 →
  chunks1 = chunks2 ∧ rest1 = rest2.
Proof.
  intros Hn [Hc1 Hf1 Hr1] [Hc2 Hf2 Hr2]. subst content. revert chunks2 Hf2 Hc2. unfold blen in *.
  induction Hf1 as [|c1 chunks1 H1 Hf1 IH]; intros [|c2 chunks2] Hf2 Hc2; simpl in Hc2; [done| | |].
  - apply Forall_cons in Hf2 as [H2 _]. subst rest1. rewrite !length_app in Hr1. lia.
  - subst rest2. rewrite !length_app in Hr2. lia.
  - apply Forall_cons in Hf2 as [H2 Hf2]. rewrite <- !app_assoc in Hc2.
    apply app_inj_1 in Hc2 as [-> Hc2]; [|lia]. destruct (IH _ Hf2 Hc2) as [-> ->]. done.
Qed.

Lemma fill_chunks_spec n fuel used value chunks rest :
  0 < n → blen used < n → (length value ≤ fuel)%nat →
  fill_chunks fuel n used value = (chunks, rest) → cut_into n (used ++ value) chunks rest.
Proof.
  intros Hn. unfold blen. revert used value chunks rest.
  induction fuel as [|fuel IH]; intros used value chunks rest Hu Hf; destruct value as [|b value];
    cbn [fill_chunks]; try (intros [= <- <-]; split; [by rewrite app_nil_r|constructor|done]); [simpl in Hf; lia|].
  set (v := b :: value) in *. assert (0 < length v)%nat as Hv by (simpl; lia).
  set (k := Z.to_nat (Z.min (n - blen used) (blen v))).
  assert (0 < k ≤ length v)%nat as Hk by (unfold k, blen; lia).
  assert (length (used ++ take k v) = length used + k)%nat as Hl by (rewrite length_app, length_take; lia).
  destruct (Z.eqb_spec (blen (used ++ take k v)) n) as [He|He].
  - destruct (fill_chunks fuel n [] (drop k v)) as [ys u] eqn:Hy. intros [= <- <-].
    apply IH in Hy as [Hc Hfu Hr]; [|simpl; lia|rewrite length_drop; lia]. split; [|by constructor|done].
    cbn [concat]. rewrite <- !app_assoc. f_equal. rewrite Hc. apply take_drop.
  - intros Hy. unfold blen in He. apply IH in Hy as [Hc Hfu Hr]; [|unfold k, blen in *; lia|rewrite length_drop; lia].
    split; [|done|done]. rewrite Hc, <- app_assoc. f_equal. apply take_drop.
Qed.

Lemma chunk_values_spec n used values chunks rest :
  0 < n → blen used < n → chunk_values n used values = (chunks, rest) →
  cut_into n (used ++ concat values) chunks rest.
Proof.
  intros Hn. revert used chunks rest. induction values as [|value values IH]; intros used chunks rest Hu; cbn [chunk_values].
  { intros [= <- <-]. split; [by rewrite app_nil_r|constructor|done]. }
  destruct (fill_chunks _ _ _ _) as [ys1 u1] eqn:H1. destruct (chunk_values n u1 values) as [ys2 u2] eqn:H2.
  intros [= <- <-]. apply fill_chunks_spec in H1 as [Hc1 Hf1 Hr1]; [|done..].
  apply IH in H2 as [Hc2 Hf2 Hr2]; [|done]. split; [|by apply Forall_app|done].
  rewrite concat_app, <- app_assoc, Hc2. cbn [concat]. by rewrite !app_assoc, Hc1.
Qed.

Lemma chunkSource_full n source :
  0 < n →
  ∃ full rest, cut_into n (concat (bs_chunks source)) full rest
    ∧ chunkSource n source
      = match bs_failure source with Some _ => full | None => if 0 <? blen rest then full ++ [rest] else full end.
Proof.
  intros Hn. unfold chunkSource. destruct (chunk_values n [] (bs_chunks source)) as [ys u] eqn:Hv.
  apply chunk_values_spec in Hv as Hcut; [|done..]. exists ys, u. done.
Qed.
Lemma chunkSource_content n source : 0 < n → bs_failure source = None →
  concat (chunkSource n source) = concat (bs_chunks source)
  ∧ Forall (λ c, 0 < blen c) (chunkSource n source).
Proof.
  intros Hn Hs. destruct (chunkSource_full n source Hn) as (full & rest & [Hc Hf Hr] & ->). rewrite Hs.
  assert (Forall (λ c, 0 < blen c) full) as Hpos by (eapply Forall_impl; [exact Hf|]; cbn; lia).
  rewrite <- Hc. destruct (Z.ltb_spec 0 (blen rest)).
  - split; [by rewrite concat_app; simpl; rewrite app_nil_r|]. apply Forall_app. split; [done|by constructor].
  - split; [|done]. destruct rest; [by rewrite app_nil_r|unfold blen in *; simpl in *; lia].
Qed.

(** C22: how a source delivers its bytes does not matter. A source that ends is cut
    into chunks of the configured size, the last of what is left, and never an
    empty one; two sources with the same bytes are cut into the same chunks, so
    their blobs have the same nodes and the same hash. A source that fails yields
    full chunks of what it delivered. *)
Theorem chunkSource_cuts n source :
  0 < n →
  let content := concat (bs_chunks source) in
  let chunks := chunkSource n source in
  (bs_failure source = None →
     concat chunks = content
     ∧ (∃ full rest, chunks = full ++ rest ∧ Forall (λ c, blen c = n) full
          ∧ (rest = [] ∨ ∃ last, rest = [last] ∧ 0 < blen last < n))
     ∧ ∀ source', bs_failure source' = None → concat (bs_chunks source') = content →
         chunkSource n source' = chunks)
  ∧ (bs_failure source ≠ None → Forall (λ c, blen c = n) chunks ∧ concat chunks `prefix_of` content).
Proof.
  intros Hn content chunks.
  destruct (chunkSource_full n source Hn) as (full & rest & Hcut & Hchunks). fold content in Hcut.
  pose proof Hcut as [Hc Hf Hr]. split.
  - intros Hs. split; [by apply chunkSource_content|]. unfold chunks. rewrite Hchunks, Hs. split.
    + exists full. destruct (Z.ltb_spec 0 (blen rest)); [exists [rest]|exists []; rewrite app_nil_r];
        split_and!; eauto.
    + intros source' Hs' Hsame. destruct (chunkSource_full n source' Hn) as (full' & rest' & Hcut' & ->).
      rewrite Hsame in Hcut'. rewrite Hs'. by destruct (cut_unique n content full' rest' full rest) as [-> ->].
  - intros Hs. unfold chunks. rewrite Hchunks. destruct (bs_failure source); [|done].
    split; [done|]. by exists rest.
Qed.

(** * The tree above the chunks *)

Definition leaf_node (content : bytes) : CasNode := mkCasNode BlobChunkContentType [] content.
Definition index_node (children : list BlobTreeNode) (b : bytes) : CasNode :=
  mkCasNode BlobIndexContentType (bt_hash <$> children) b.

(** A tree node with the content it stands for and the nodes that make it. *)
Record Part := mkPart { pt_node : BlobTreeNode; pt_content : bytes; pt_nodes : list CasNode }.
Notation contents ps := (concat (pt_content <$> ps)).
Notation made_of ps := (concat (pt_nodes <$> ps)).

Section tree.
Context `{!Sha256, !Cbor}.
Context (config : BlobConfig) (media : string).

(** [built k p]: a chunk at height 0, or an index above parts of one height less. *)
Fixpoint built (k : nat) (p : Part) : Prop :=
  match k with
  | O => ∃ h c, node_hash (leaf_node c) = Ok h ∧ 0 < blen c ≤ cf_chunkBytes config
           ∧ p = mkPart (mkTreeNode h (blen c) (-1)) c [leaf_node c]
  | S k => ∃ ps h b, Forall (built k) ps
             ∧ encodeBlobIndex (blob_index (Z.of_nat k) media (bt_size <$> (pt_node <$> ps))) = Ok b
             ∧ node_hash (index_node (pt_node <$> ps) b) = Ok h
             ∧ p = mkPart (mkTreeNode h (sum_sizes (bt_size <$> (pt_node <$> ps))) (Z.of_nat k))
                     (contents ps) (index_node (pt_node <$> ps) b :: made_of ps)
  end.

Lemma built_hash k p : built k p → is_hash (bt_hash (pt_node p)) = true.
Proof.
  destruct k as [|k]; cbn [built].
  - intros (h & c & Hh & _ & ->). by eapply node_hash_is_hash.
  - intros (ps & h & b & _ & _ & Hh & ->). by eapply node_hash_is_hash.
Qed.
Lemma built_hashes k ps : Forall (built k) ps → Forall (λ r, is_hash r = true) (bt_hash <$> (pt_node <$> ps)).
Proof.
  intros Hps. rewrite !Forall_fmap. eapply Forall_impl; [exact Hps|]. intros p Hp. by eapply built_hash.
Qed.

Lemma sum_sizes_blen ps :
  Forall (λ p, bt_size (pt_node p) = blen (pt_content p)) ps →
  sum_sizes (bt_size <$> (pt_node <$> ps)) = blen (contents ps).
Proof.
  unfold blen. induction 1 as [|p ps Hp _ IH]; [done|]. rewrite !fmap_cons, sum_sizes_cons, IH, Hp.
  cbn [concat]. rewrite length_app. lia.
Qed.
Lemma built_facts k p : built k p →
  bt_level (pt_node p) = Z.of_nat k - 1 ∧ bt_size (pt_node p) = blen (pt_content p).
Proof.
  revert p. induction k as [|k IH]; intros p; cbn [built].
  - intros (h & c & _ & _ & ->). done.
  - intros (ps & h & b & Hps & _ & _ & ->). cbn [pt_node bt_level bt_size pt_content]. split; [lia|].
    apply sum_sizes_blen. eapply Forall_impl; [exact Hps|]. intros p Hp. by apply IH.
Qed.

(** The groups from height [k] up: the higher ones hold the earlier content. *)
Fixpoint hold (k : nat) (groups : list (list BlobTreeNode)) (content : bytes) (nodes : list CasNode) : Prop :=
  match groups with
  | [] => content = [] ∧ nodes = []
  | g :: gs => ∃ ps c ns, g = pt_node <$> ps ∧ Forall (built k) ps
      ∧ Z.of_nat (length g) < cf_indexFanout config
      ∧ hold (S k) gs c ns ∧ content = c ++ contents ps ∧ nodes = ns ++ made_of ps
  end.

Lemma hold_pad j gs content nodes : 0 < cf_indexFanout config →
  ∀ k, hold (k + j) gs content nodes → hold k (replicate j [] ++ gs) content nodes.
Proof.
  intros Hf. induction j as [|j IH]; intros k Hh; [by rewrite Nat.add_0_r in Hh|].
  cbn [replicate app hold]. exists [], content, nodes. split_and!; try done; [|by rewrite app_nil_r..].
  apply IH. by rewrite Nat.add_succ_comm.
Qed.
Lemma populated_pad j i gs : populated i (replicate j [] ++ gs) = populated (i + j) gs.
Proof. revert i. induction j as [|j IH]; intros i; simpl; [by rewrite Nat.add_0_r|]. rewrite IH. f_equal. lia. Qed.

Definition count_entries (l : list (nat * list BlobTreeNode)) : Z :=
  foldl (λ total entry, total + Z.of_nat (length (snd entry))) 0 l.
Lemma count_from (l : list (nat * list BlobTreeNode)) z :
  foldl (λ total entry, total + Z.of_nat (length (snd entry))) z l = z + count_entries l.
Proof.
  unfold count_entries. revert z. induction l as [|e l IH]; intros z; cbn [foldl]; [lia|].
  rewrite IH, (IH (0 + _)). lia.
Qed.
Lemma populated_count i gs : 0 ≤ count_entries (populated i gs)
  ∧ (count_entries (populated i gs) = 0 → Forall (λ g, g = []) gs).
Proof.
  revert i. induction gs as [|[|x g] gs IH]; intros i; cbn [populated]; [split; [done|constructor]| |].
  - destruct (IH (S i)) as [? Hall]. split; [done|]. intros Hz. constructor; [done|by apply Hall].
  - destruct (IH (S i)) as [? Hall]. unfold count_entries. cbn [foldl snd length]. rewrite count_from. split; lia.
Qed.
Lemma hold_empty k gs content nodes : Forall (λ g, g = []) gs → hold k gs content nodes → content = [] ∧ nodes = [].
Proof.
  intros Hg. revert k content nodes. induction Hg as [|g gs -> _ IH]; intros k content nodes; cbn [hold]; [done|].
  intros (ps & c & ns & Hps & _ & _ & Hh & -> & ->). symmetry in Hps. apply fmap_nil_inv in Hps as ->.
  apply IH in Hh as [-> ->]. done.
Qed.
End tree.

Lemma encodeBlobIndex_throws `{!Cbor} v e : encodeBlobIndex v = Throw e → not_fuel e.
Proof.
  assert (∀ b e, bad_media_type b = Throw e → not_fuel e) as Hbad.
  { intros b e'. unfold bad_media_type, length_exceeds. case_match; [done|]. by destruct b; intros [= <-]. }
  assert (∀ v n z e, validateSafeSize v n z = Throw e → not_fuel e) as Hsize.
  { intros ? ? z ?. unfold validateSafeSize. repeat case_match; by intros [= <-]. }
  assert (∀ i t l e, childrenTotal i t l = Throw e → not_fuel e) as Hchildren.
  { intros i t l. revert i t. induction l as [|x l IH]; intros i t e'; cbn [childrenTotal]; [done|].
    destruct (validateSafeSize x _ _) eqn:Hs; cbn [mbind result_bind]; [|intros [= <-]; by apply Hsize in Hs].
    unfold throw_if. case_match; [by intros [= <-]|]. apply IH. }
  unfold encodeBlobIndex. destruct (validateBlobIndex v) as [[]|e'] eqn:Hv; [done|]. intros [= <-].
  unfold validateBlobIndex in Hv.
  repeat match type of Hv with
  | context [throw_if ?c ?x] => destruct (throw_if c x) as [[]|] eqn:?; cbn [mbind result_bind] in Hv
  | context [validateSafeSize ?a ?b ?c] => destruct (validateSafeSize a b c) eqn:?; cbn [mbind result_bind] in Hv
  | context [bad_media_type ?a] => destruct (bad_media_type a) eqn:?; cbn [mbind result_bind] in Hv
  | context [childrenTotal ?a ?b ?c] => destruct (childrenTotal a b c) eqn:?; cbn [mbind result_bind] in Hv
  end; try discriminate Hv; injection Hv as <-; eauto;
  match goal with Ht : throw_if _ _ = Throw _ |- _ => unfold throw_if in Ht; destruct (_ : bool) in Ht; by simplify_eq end.
Qed.

Section store.
Context {W : Type} (I : Invariant W) `{!AppCasClient W, !UploadFetcher W, !Sha256, !Cbor} (spaceId : string).
Context `{!CasStore I spaceId} (config : BlobConfig) (media : string) (durationMs : option Z).
Context (Hfanout : 2 ≤ cf_indexFanout config ≤ BlobIndexFanout) (Hchunk : 0 < cf_chunkBytes config).
Notation built := (built config media).
Notation hold := (hold config media).

(** The nodes are there, each unless its hash has collisions. *)
Definition kept (nodes : list CasNode) (w : W) : Prop :=
  Forall (λ n, ∀ h, node_hash n = Ok h → collision_free h → node_at h n w) nodes.
Lemma kept_stable nodes : stable I (kept nodes).
Proof.
  intros w w' Hk Hn. eapply Forall_impl; [exact Hn|]. intros n Hh h H1 H2.
  eapply node_at_stable; [exact Hk|]. by apply Hh.
Qed.
Lemma kept_app n1 n2 w : kept (n1 ++ n2) w ↔ kept n1 w ∧ kept n2 w.
Proof. apply Forall_app. Qed.

Lemma storeNode_keeps content contentType refs P :
  stable I P → Forall (λ r, is_hash r = true) refs →
  covers I not_fuel P (storeNode spaceId content contentType refs durationMs)
    (λ h w, P w ∧ node_hash (mkCasNode contentType refs content) = Ok h
            ∧ kept [mkCasNode contentType refs content] w).
Proof.
  intros HP Hrefs w Hw HPw.
  pose proof (storeNodeContent_stores I spaceId content contentType refs durationMs w Hw Logic.I) as Hs.
  unfold storeNode. destruct (storeNodeContent _ _ _ _ _ w) as [[h|e] w']; [|done].
  destruct Hs as (? & Hk & Hn & Hat). split_and!; [done|done|by eapply HP|done|].
  constructor; [|constructor]. intros h' Hh' Hcf. rewrite Hn in Hh'. injection Hh' as <-. by apply Hat.
Qed.

Lemma storeIndex_keeps k ps P :
  stable I P → ps ≠ [] → Forall (built k) ps →
  covers I not_fuel (λ w, P w ∧ kept (made_of ps) w) (storeIndex spaceId (pt_node <$> ps) media durationMs)
    (λ parent w, P w ∧ ∃ p, pt_node p = parent ∧ built (S k) p ∧ pt_content p = contents ps
                            ∧ kept (pt_nodes p) w).
Proof.
  intros HP Hne Hps. destruct ps as [|p0 ps0] eqn:Heq; [done|]. rewrite <- Heq in *. clear Hne.
  assert (bt_level (pt_node p0) = Z.of_nat k - 1) as Hl0.
  { rewrite Heq in Hps. apply Forall_cons in Hps as [Hp _]. by apply (built_facts config media k p0). }
  assert (storeIndex spaceId (pt_node <$> ps) media durationMs
    = content ← lift (encodeBlobIndex (blob_index (Z.of_nat k) media (bt_size <$> (pt_node <$> ps))));
      hash ← storeNode spaceId content BlobIndexContentType (bt_hash <$> (pt_node <$> ps)) durationMs;
      mret (mkTreeNode hash (sum_sizes (bt_size <$> (pt_node <$> ps))) (Z.of_nat k))) as ->.
  { assert (∀ l z, foldl (λ total child, total + bt_size child) z l = z + sum_sizes (bt_size <$> l)) as Hsum.
    { induction l as [|x l IH]; intros z; cbn [foldl]; [simpl; lia|]. rewrite IH, fmap_cons, sum_sizes_cons. lia. }
    assert (existsb (λ child, negb (bt_level child =? bt_level (pt_node p0) + 1 - 1)) (pt_node <$> ps) = false) as Hex.
    { apply not_true_iff_false. rewrite existsb_exists. intros (x & Hx & Hneq).
      apply list_elem_of_In, list_elem_of_fmap in Hx as (p & -> & Hp).
      rewrite Forall_forall in Hps. destruct (built_facts config media k p (Hps p Hp)) as [Hlp _].
      rewrite negb_true_iff, Z.eqb_neq in Hneq. lia. }
    assert (∃ rest, pt_node <$> ps = pt_node p0 :: rest) as [rest Hrest] by (rewrite Heq; by eexists).
    revert Hex Hrest. generalize (pt_node <$> ps). intros children Hex ->. unfold storeIndex.
    rewrite Hex, Hsum, Z.add_0_l. replace (bt_level (pt_node p0) + 1) with (Z.of_nat k) by lia.
    unfold blob_index. by rewrite <- (list_fmap_compose bt_size JInt). }
  apply covers_lift_bind; [intros e He; by apply encodeBlobIndex_throws in He|]. intros b Hb.
  assert (stable I (λ w, P w ∧ kept (made_of ps) w)) as Hst by (apply stable_and; [done|apply kept_stable]).
  eapply covers_bind; [exact Hst|apply storeNode_keeps; [exact Hst|by eapply built_hashes]|].
  intros h. apply covers_ret. intros w (_ & (HPw & Hk) & Hh & Hn). split; [done|].
  eexists (mkPart _ (contents ps) (index_node (pt_node <$> ps) b :: made_of ps)). cbn [pt_node pt_content pt_nodes].
  split; [reflexivity|]. split; [|split; [done|]].
  - exists ps, h, b. done.
  - apply (kept_app [_]). done.
Qed.

Lemma group_at i (g : list BlobTreeNode) gs :
  (replicate i [] ++ g :: gs) !! i = Some g ∧ ∀ g', <[i := g']> (replicate i [] ++ g :: gs) = replicate i [] ++ g' :: gs.
Proof.
  split; [|intros g'].
  - rewrite lookup_app_r by (rewrite length_replicate; lia). by rewrite length_replicate, Nat.sub_diag.
  - rewrite insert_app_r_alt by (rewrite length_replicate; lia). by rewrite length_replicate, Nat.sub_diag.
Qed.

Lemma replicate_app_S {A} i (x : A) l : replicate i x ++ x :: l = replicate (S i) x ++ l.
Proof. rewrite replicate_S_end, <- app_assoc. done. Qed.

(** A node of height [idx] is added above empty lower groups. *)
Lemma append_keeps fuel : ∀ idx gs p content nodes,
  hold idx gs content nodes → built idx p → (length gs < fuel)%nat →
  covers I not_fuel (kept (nodes ++ pt_nodes p))
    (appendTreeNode spaceId config fuel (replicate idx [] ++ gs) (pt_node p) media durationMs)
    (λ groups w, ∃ j g gs' nodes', groups = replicate j [] ++ g :: gs' ∧ g ≠ [] ∧ (idx ≤ j)%nat
       ∧ (length groups = idx + length gs ∨ (length g = 1 ∧ gs' = []))%nat
       ∧ hold j (g :: gs') (content ++ pt_content p) nodes' ∧ kept nodes' w).
Proof.
  induction fuel as [|fuel IH]; intros idx gs p content nodes Hh Hp Hf; [lia|]. cbn [appendTreeNode].
  destruct (built_facts config media idx p Hp) as [Hl _]. rewrite Hl.
  replace (Z.to_nat (Z.of_nat idx - 1 + 1)) with idx by lia. unfold ensure_group.
  assert (∀ gs : list (list BlobTreeNode), length (replicate idx [] ++ gs) = idx + length gs)%nat as Hlr
    by (intros; by rewrite length_app, length_replicate).
  rewrite Hlr. destruct gs as [|g gs].
  - cbn [length]. assert (S idx - (idx + 0) = 1)%nat as -> by lia. rewrite app_nil_r. cbn [replicate].
    destruct (group_at idx [] []) as [-> Hset]. rewrite Hset. cbn [default from_option app length id].
    destruct (Z.eqb_spec (Z.of_nat 1) (cf_indexFanout config)); [lia|].
    apply covers_ret. intros w Hk. destruct Hh as [-> ->].
    exists idx, [pt_node p], [], (pt_nodes p). split_and!; try done; [by right|].
    exists [p], [], []. cbn. rewrite !app_nil_r. split_and!; try done; [by constructor|lia].
  - assert (S idx - (idx + length (g :: gs)) = 0)%nat as -> by (simpl; lia). cbn [replicate]. rewrite app_nil_r.
    destruct (group_at idx g gs) as [-> Hset]. cbn [default from_option id].
    destruct Hh as (ps & c & ns & -> & Hps & Hlen & Hh & -> & ->).
    change ([pt_node p]) with (pt_node <$> [p]). rewrite <- fmap_app.
    assert (Forall (built idx) (ps ++ [p])) as Hps' by (apply Forall_app; split; [done|by constructor]).
    assert (contents (ps ++ [p]) = contents ps ++ pt_content p) as Hcont.
    { rewrite fmap_app, concat_app. cbn. by rewrite app_nil_r. }
    assert (made_of (ps ++ [p]) = made_of ps ++ pt_nodes p) as Hmade.
    { rewrite fmap_app, concat_app. cbn. by rewrite app_nil_r. }
    rewrite !Hset. rewrite length_fmap in Hlen. rewrite length_fmap, length_app. cbn [length].
    destruct (Z.eqb_spec (Z.of_nat (length ps + 1)) (cf_indexFanout config)) as [Hfull|Hfull].
    + eapply covers_pre; [|eapply (covers_bind _ _ (λ w, kept ns w ∧ kept (made_of (ps ++ [p])) w))].
      * intros w. rewrite Hmade, <- app_assoc, kept_app. done.
      * apply stable_and; apply kept_stable.
      * apply (storeIndex_keeps idx (ps ++ [p]) (kept ns)); [apply kept_stable|by destruct ps|done].
      * intros parent w0 Hw0 (_ & Hns & q & <- & Hq & Hqc & Hqn).
        rewrite replicate_app_S.
        assert (kept (ns ++ pt_nodes q) w0) as Hpre by by apply kept_app.
        simpl in Hf. assert (length gs < fuel)%nat as Hf' by lia.
        pose proof (IH (S idx) gs q c ns Hh Hq Hf' w0 Hw0 Hpre) as Hr.
        destruct (appendTreeNode _ _ _ _ _ _ _ w0) as [[groups|e] w1]; [|done].
        destruct Hr as (Hw1 & Hk1 & j & g' & gs' & nodes' & -> & Hg & Hj & Hlen' & Hh' & Hn').
        split_and!; [done|done|]. exists j, g', gs', nodes'. rewrite Hqc, Hcont in Hh'. rewrite <- app_assoc.
        split_and!; try done; [lia|]. destruct Hlen' as [Hlen'|?]; [left|by right].
        rewrite Hlen'. simpl. lia.
    + apply covers_ret. intros w Hk. exists idx, (pt_node <$> (ps ++ [p])), gs, ((ns ++ made_of ps) ++ pt_nodes p).
      split_and!; try done.
      * by destruct ps.
      * left. by rewrite Hlr.
      * exists (ps ++ [p]), c, ns. rewrite Hcont, Hmade, length_fmap, length_app, !app_assoc. simpl.
        split_and!; try done. lia.
Qed.
(** Groups that hold something, lowest first. *)
Definition grown (groups : list (list BlobTreeNode)) (content : bytes) (nodes : list CasNode) : Prop :=
  ∃ j g gs, groups = replicate j [] ++ g :: gs ∧ g ≠ [] ∧ hold j (g :: gs) content nodes.

Lemma finish_keeps fuel : ∀ i g gs content nodes,
  g ≠ [] → hold i (g :: gs) content nodes →
  (S (length gs) < fuel ∨ (length g = 1 ∧ gs = [] ∧ 0 < fuel))%nat →
  covers I not_fuel (kept nodes)
    (finishTree spaceId config fuel (replicate i [] ++ g :: gs) media durationMs)
    (λ root w, ∃ k p, pt_node p = root ∧ built k p ∧ pt_content p = content ∧ kept (pt_nodes p) w).
Proof.
  induction fuel as [|fuel IH]; intros i g0 gs content nodes Hg Hh Hf; [lia|]. cbn [finishTree].
  rewrite populated_pad, Nat.add_0_l. destruct g0 as [|node rest] eqn:Heq; [done|]. cbn [populated].
  rewrite <- Heq in *. cbn [foldl snd]. rewrite count_from, Z.add_0_l.
  destruct (populated_count (S i) gs) as [Hc0 Hc].
  destruct Hh as (ps & c & ns & Hgps & Hps & Hlen & Hh & -> & ->).
  destruct (Z.eqb_spec (Z.of_nat (length g0) + count_entries (populated (S i) gs)) 1) as [H1|H1].
  - apply covers_ret. intros w Hk. assert (count_entries (populated (S i) gs) = 0) as Hz.
    { rewrite Heq in H1. simpl in H1. lia. }
    apply (hold_empty config media _ _ _ _ (Hc Hz)) in Hh as [-> ->].
    rewrite Heq in Hgps. destruct ps as [|p ps]; [done|]. injection Hgps as -> Hps'.
    assert (rest = []) as -> by (rewrite Heq in H1; destruct rest; [done|simpl in H1; lia]).
    symmetry in Hps'. apply fmap_nil_inv in Hps' as ->. apply Forall_cons in Hps as [Hp _].
    exists i, p. cbn in Hk |- *. rewrite app_nil_r in Hk |- *. done.
  - destruct (group_at i g0 gs) as [_ ->]. rewrite Hgps.
    assert (ps ≠ []) as Hne by (intros ->; by rewrite Hgps in Hg).
    eapply covers_pre; [|eapply (covers_bind _ _ (λ w, kept ns w ∧ kept (made_of ps) w))].
    + intros w. rewrite kept_app. done.
    + apply stable_and; apply kept_stable.
    + by apply (storeIndex_keeps i ps (kept ns)); [apply kept_stable|..].
    + intros parent w Hw (_ & Hns & q & <- & Hq & Hqc & Hqn). rewrite replicate_app_S.
      assert (kept (ns ++ pt_nodes q) w) as Hpre by by apply kept_app.
      assert (length gs < append_fuel (replicate (S i) [] ++ gs))%nat as Hfa.
      { unfold append_fuel. rewrite length_app. lia. }
      pose proof (append_keeps (append_fuel (replicate (S i) [] ++ gs)) (S i) gs q c ns Hh Hq Hfa w Hw Hpre) as Ha.
      unfold mbind, M_bind. destruct (appendTreeNode _ _ _ _ _ _ _ w) as [[groups|e] w1]; [|done].
      destruct Ha as (Hw1 & Hk1 & j & g' & gs' & nodes' & -> & Hg' & Hj & Hlen' & Hh' & Hn').
      assert (S (length gs') < fuel ∨ (length g' = 1 ∧ gs' = [] ∧ 0 < fuel))%nat as Hf'.
      { assert (length g0 = 1 → gs = [] → False)%nat as Hmany.
        { intros Hl ->. cbn [populated] in H1. unfold count_entries in H1. simpl in H1. lia. }
        rewrite length_app, length_replicate in Hlen'. cbn [length] in Hlen'.
        destruct Hf as [Hf|(? & ? & _)]; [|exfalso; auto].
        destruct Hlen' as [Hl|[Hl ->]]; [left; lia|right; split_and!; done || lia]. }
      specialize (IH j g' gs' _ nodes' Hg' Hh' Hf' w1 Hw1 Hn').
      destruct (finishTree _ _ _ _ _ _ w1) as [[root|e] w2]; destruct IH as (Hw2 & Hk2 & IH);
        split_and!; try done; try (by eapply (keeps_trans I)).
      destruct IH as (k & p & Hpr & Hb & Hpc & Hpn). exists k, p. rewrite Hpc, Hqc. done.
Qed.

Lemma addChunk_keeps options groups size content nodes b :
  wo_contentType options = media → wo_leaseDurationMs options = durationMs →
  0 < blen b ≤ cf_chunkBytes config → hold 0 groups content nodes →
  covers I not_fuel (kept nodes) (addChunk spaceId config options (groups, size) b)
    (λ r w, snd r = size + blen b ∧ ∃ nodes', grown (fst r) (content ++ b) nodes' ∧ kept nodes' w).
Proof.
  intros Hm Hd Hb Hh. unfold addChunk. rewrite Hm, Hd.
  eapply covers_bind; [apply kept_stable|apply storeNode_keeps; [apply kept_stable|constructor]|]. intros h.
  eapply covers_assume; [intros w (_ & _ & Hn & _); exact Hn|]. intros Hn.
  set (p := mkPart (mkTreeNode h (blen b) (-1)) b [leaf_node b]).
  assert (built 0 p) as Hp by (exists h, b; done).
  eapply covers_pre; [|eapply (covers_bind _ _ (kept (nodes ++ pt_nodes p)))].
  - intros w (_ & Hk & _ & Hl). by apply kept_app.
  - apply kept_stable.
  - apply (append_keeps _ 0 groups p content nodes Hh Hp). unfold append_fuel. lia.
  - intros groups'. apply covers_ret.
    intros w (_ & j & g & gs & nodes' & -> & Hg & _ & _ & Hh' & Hk). split; [done|].
    exists nodes'. split; [|done]. by exists j, g, gs.
Qed.

Lemma grown_hold groups content nodes : grown groups content nodes → hold 0 groups content nodes.
Proof. intros (j & g & gs & -> & _ & Hh). apply hold_pad; [lia|]. done. Qed.

Lemma addChunks_keeps options first rest : ∀ groups content nodes,
  wo_contentType options = media → wo_leaseDurationMs options = durationMs →
  Forall (λ b, 0 < blen b ≤ cf_chunkBytes config) (first :: rest) → hold 0 groups content nodes →
  covers I not_fuel (kept nodes)
    (fold_m (addChunk spaceId config options) (groups, blen content) (first :: rest))
    (λ r w, snd r = blen (content ++ concat (first :: rest))
       ∧ ∃ nodes', grown (fst r) (content ++ concat (first :: rest)) nodes' ∧ kept nodes' w).
Proof.
  revert first. induction rest as [|second rest IH]; intros first groups content nodes Hm Hd Hc Hg;
    apply Forall_cons in Hc as [Hb Hc];
    (eapply covers_bind; [apply kept_stable|by eapply addChunk_keeps|]); intros [groups' size].
  - apply covers_ret. intros w (_ & Hs & Hk). cbn [concat fst snd] in *. rewrite app_nil_r. split; [|done].
    rewrite Hs. unfold blen. rewrite length_app. lia.
  - intros w Hw (_ & Hs & nodes' & Hg' & Hk'). cbn [fst snd] in Hs, Hg'.
    assert (size = blen (content ++ first)) as -> by (rewrite Hs; unfold blen; rewrite length_app; lia).
    change (concat (first :: second :: rest)) with (first ++ concat (second :: rest)). rewrite app_assoc.
    apply (IH second groups' (content ++ first) nodes'); try done. by apply grown_hold.
Qed.
End store.

(** * Reading the tree *)

Section read.
Context {W : Type} (I : Invariant W) `{!AppCasClient W, !UploadFetcher W, !Sha256, !Cbor, !CborLaws}.
Context (spaceId : string) `{!CasStore I spaceId} (config : BlobConfig) (media : string).
Notation built := (built config media).
Notation reads := (covers I (λ _, False)).

Definition present (nodes : list CasNode) (w : W) : Prop :=
  Forall (λ n, ∀ h, node_hash n = Ok h → node_at h n w) nodes.
Lemma present_stable nodes : stable I (present nodes).
Proof.
  intros w w' Hk Hn. eapply Forall_impl; [exact Hn|]. intros n Hh h Hnh.
  eapply node_at_stable; [exact Hk|]. by apply Hh.
Qed.

(** A node that is no index. *)
Lemma leaf_step {A} (leaf : CasNodeMetadata → M exn W A) (index : CasNodeMetadata → M exn W A) P h n Q :
  stable I P → (∀ w, P w → node_at h n w) → cn_contentType n ≠ BlobIndexContentType →
  reads P (leaf (mkNodeMetadata h (blen (cn_content n)) (cn_contentType n) (cn_refs n))) Q →
  reads P (metadata ← readMetadata spaceId h;
           if negb (bool_decide (nm_contentType metadata = BlobIndexContentType))
           then leaf metadata else index metadata) Q.
Proof.
  intros HP Hn Hct Hl. eapply covers_bind_fact; [done| |].
  - eapply covers_pre; [exact Hn|]. apply readMetadata_reads.
  - intros m ->. cbn [nm_contentType]. by rewrite bool_decide_false.
Qed.

(** An index of this tree. *)
Lemma index_step {A} (leaf : CasNodeMetadata → M exn W A) (K : CasNodeMetadata → CasBlobIndexV1 → M exn W A)
    P h children k b Q :
  stable I P → (∀ w, P w → node_at h (index_node children b) w) →
  encodeBlobIndex (blob_index k media (bt_size <$> children)) = Ok b →
  reads P (K (mkNodeMetadata h (blen b) BlobIndexContentType (bt_hash <$> children))
             (blob_index k media (bt_size <$> children))) Q →
  reads P (metadata ← readMetadata spaceId h;
           if negb (bool_decide (nm_contentType metadata = BlobIndexContentType))
           then leaf metadata else index ← readIndex spaceId h; K metadata index) Q.
Proof.
  intros HP Hn He HK. eapply covers_bind_fact; [done| |].
  { eapply covers_pre; [exact Hn|]. apply readMetadata_reads. }
  intros m ->. cbn [nm_contentType cn_contentType index_node]. rewrite bool_decide_true by done. cbn [negb].
  eapply (covers_bind_fact _ _ _ _ (λ v, v = blob_index k media (bt_size <$> children))); [done| |by intros v ->].
  unfold readIndex. eapply covers_bind_fact; [done| |].
  { eapply covers_pre; [exact Hn|]. by apply (readContent_reads h _ None). }
  intros chunks Hc. cbn [in_range_of cn_content index_node] in Hc. apply covers_lift. intros w _.
  unfold collectStream. rewrite Hc. by rewrite (decode_encoded _ _ _ _ He).
Qed.

Lemma validateIndex_ok h k children (lvl : option Z) :
  match lvl with None => True | Some l => l = k end →
  validateIndex h (JStr media) k (Z.of_nat (length (JInt <$> (bt_size <$> children))))
    (Z.of_nat (length (bt_hash <$> children))) lvl (JStr media) = Ok tt.
Proof.
  intros Hl. unfold validateIndex. cbn [strict_equal]. rewrite bool_decide_true by done. rewrite !length_fmap, Z.eqb_refl.
  destruct lvl as [l|]; [subst l; by rewrite Z.eqb_refl|done].
Qed.

Lemma yield_parts (f : string → M exn W (list bytes)) P ps :
  stable I P →
  Forall (λ p, reads P (f (bt_hash (pt_node p))) (λ chunks _, concat chunks = pt_content p)) ps →
  reads P (yield_all (bt_hash <$> (pt_node <$> ps)) f) (λ chunks _, concat chunks = contents ps).
Proof.
  intros HP. induction 1 as [|p ps Hp _ IH]; cbn [yield_all fmap list_fmap]; [by apply covers_ret|].
  eapply covers_bind_fact; [done|exact Hp|]. intros c1 Hc1. eapply covers_bind_fact; [done|exact IH|].
  intros c2 Hc2. apply covers_ret. intros w _. cbn [concat]. by rewrite concat_app, Hc1, Hc2.
Qed.

Lemma present_part ps p w : p ∈ ps → present (made_of ps) w → present (pt_nodes p) w.
Proof.
  intros Hp Hall. apply Forall_forall. intros n Hn. eapply Forall_forall in Hall; [exact Hall|].
  apply list_elem_of_In, in_concat. exists (pt_nodes p). split; apply list_elem_of_In; [|done].
  apply list_elem_of_fmap. by exists p.
Qed.

Lemma readNode_reads k : ∀ p, built k p →
  reads (present (pt_nodes p)) (readNode_at spaceId k (JStr media) (bt_hash (pt_node p)))
    (λ chunks _, concat chunks = pt_content p).
Proof.
  induction k as [|k IH]; intros p Hp; cbn [built] in Hp; cbn [readNode_at]; unfold readNode_step.
  - destruct Hp as (h & c & Hh & Hc & ->). cbn [pt_node pt_content pt_nodes bt_hash].
    apply leaf_step with (n := leaf_node c); [apply present_stable| |done|].
    { intros w Hw. apply Forall_cons in Hw as [Hw _]. by apply Hw. }
    cbn. eapply covers_pre; [|by apply (readContent_reads h (leaf_node c) None)].
    intros w Hw. apply Forall_cons in Hw as [Hw _]. by apply Hw.
  - destruct Hp as (ps & h & b & Hps & He & Hh & ->). cbn [pt_node pt_content pt_nodes bt_hash].
    apply index_step with (children := pt_node <$> ps) (k := Z.of_nat k) (b := b); [apply present_stable| |done|].
    { intros w Hw. apply Forall_cons in Hw as [Hw _]. by apply Hw. }
    cbn [blob_index bi_mediaType bi_level bi_children nm_refs number].
    rewrite validateIndex_ok by lia. apply covers_lift_bind; [done|]. intros _ _.
    apply yield_parts; [apply present_stable|]. apply Forall_forall. intros p Hp.
    eapply covers_pre; [|apply IH; by eapply Forall_forall in Hps].
    intros w Hw. apply Forall_cons in Hw as [_ Hw]. by eapply present_part.
Qed.

(** The part of a content between [offset] and [endOffset], where the content
    starts at [start]. *)
Definition window (offset endOffset start : Z) (content : bytes) : bytes :=
  drop (Z.to_nat (offset - start)) (take (Z.to_nat (endOffset - start)) content).

Lemma window_slice offset len content :
  0 ≤ offset → 0 ≤ len → window offset (offset + len) 0 content = slice offset (offset + len) content.
Proof.
  intros. unfold window, slice. rewrite !Z.sub_0_r, take_drop_commute. f_equal. f_equal. lia.
Qed.

Lemma range_parts (f : string → Z → Z → M exn W (list bytes)) P offset endOffset : ∀ ps start,
  stable I P → 0 ≤ start → offset < endOffset → 0 ≤ offset →
  Forall (λ p, bt_size (pt_node p) = blen (pt_content p)) ps →
  Forall (λ p, ∀ o l, 0 ≤ o → 0 < l → o + l ≤ blen (pt_content p) →
    reads P (f (bt_hash (pt_node p)) o l) (λ chunks _, concat chunks = slice o (o + l) (pt_content p))) ps →
  reads P (range_children f offset endOffset start
             (zip (bt_size <$> (pt_node <$> ps)) (bt_hash <$> (pt_node <$> ps))))
    (λ chunks _, concat chunks = window offset endOffset start (contents ps)).
Proof.
  induction ps as [|p ps IH]; intros start HP Hs Hlt Ho Hsz Hf; cbn [fmap list_fmap zip zip_with range_children concat].
  { apply covers_ret. intros w _. unfold window. by rewrite take_nil, drop_nil. }
  apply Forall_cons in Hsz as [Hp Hsz]. apply Forall_cons in Hf as [Hfp Hf]. rewrite Hp.
  set (c1 := pt_content p) in *.
  eapply (covers_bind_fact _ _ _ _ (λ chunks, concat chunks = window offset endOffset start c1)); [done| |].
  { destruct (Z.ltb_spec (Z.max offset start) (Z.min endOffset (start + blen c1))) as [Hi|Hi].
    - eapply covers_post; [|apply Hfp; lia]. intros chunks w ->. unfold window, slice. rewrite take_drop_commute.
      replace (Z.to_nat (Z.max offset start - start)) with (Z.to_nat (offset - start)) by lia. f_equal.
      unfold blen in *. destruct (Z.le_gt_cases endOffset (start + Z.of_nat (length c1))).
      + f_equal. lia.
      + rewrite !take_ge by lia. done.
    - apply covers_ret. intros w _. symmetry. unfold window. apply length_zero_iff_nil.
      rewrite length_drop, length_take. unfold blen in *. lia. }
  intros chunks Hc. destruct (Z.leb_spec endOffset (start + blen c1)) as [He|He].
  - apply covers_ret. intros w _. rewrite Hc. unfold window. rewrite take_app_le; [done|]. unfold blen in *. lia.
  - eapply covers_bind_fact; [done|apply IH; done || (unfold blen; lia)|]. intros more Hm. apply covers_ret. intros w _.
    rewrite concat_app, Hc, Hm. unfold window. rewrite (take_ge c1) by (unfold blen in *; lia).
    rewrite take_app_ge by (unfold blen in *; lia). rewrite drop_app.
    f_equal. f_equal; [unfold blen in *; lia|]. f_equal. unfold blen in *; lia.
Qed.

Lemma readRange_reads k : ∀ p, built k p → ∀ offset len,
  0 ≤ offset → 0 < len → offset + len ≤ blen (pt_content p) →
  reads (present (pt_nodes p)) (readRangeNode_at spaceId k (JStr media) (bt_hash (pt_node p)) offset len)
    (λ chunks _, concat chunks = slice offset (offset + len) (pt_content p)).
Proof.
  induction k as [|k IH]; intros p Hp offset len Ho Hl Hol; pose proof Hp as Hp0; cbn [built] in Hp;
    cbn [readRangeNode_at]; unfold readRangeNode_step.
  - destruct Hp as (h & c & Hh & Hc & ->). cbn [pt_node pt_content pt_nodes bt_hash] in *.
    apply leaf_step with (n := leaf_node c); [apply present_stable| |done|].
    { intros w Hw. apply Forall_cons in Hw as [Hw _]. by apply Hw. }
    cbn. eapply covers_pre; [|apply (readContent_reads h (leaf_node c) (Some (mkNodeRange offset (Some len))))].
    + intros w Hw. apply Forall_cons in Hw as [Hw _]. by apply Hw.
    + cbn. lia.
  - destruct Hp as (ps & h & b & Hps & He & Hh & ->). cbn [pt_node pt_content pt_nodes bt_hash] in *.
    apply index_step with (children := pt_node <$> ps) (k := Z.of_nat k) (b := b); [apply present_stable| |done|].
    { intros w Hw. apply Forall_cons in Hw as [Hw _]. by apply Hw. }
    cbn [blob_index bi_mediaType bi_level bi_children nm_refs number].
    rewrite validateIndex_ok by lia. apply covers_lift_bind; [done|]. intros _ _.
    rewrite <- (list_fmap_compose JInt number), (list_fmap_id (bt_size <$> _) : (number ∘ JInt) <$> _ = _).
    eapply covers_post; [|apply range_parts; try lia; [apply present_stable|..]].
    + intros chunks w ->. by apply window_slice; lia.
    + eapply Forall_impl; [exact Hps|]. intros p Hp. by apply (built_facts config media k).
    + apply Forall_forall. intros p Hp o l Ho' Hl' Hol'.
      eapply covers_pre; [|apply IH; [by eapply Forall_forall in Hps|done..]].
      intros w Hw. apply Forall_cons in Hw as [_ Hw]. by eapply present_part.
Qed.
End read.

(** * Blobs *)

(** Opening a blob by its hash and reading a range of it. *)
Definition readBlob {W : Type} `{!AppCasClient W, !Sha256, !Cbor} (spaceId hash : string)
    (range : option CasNodeRange) : M exn W (list bytes) :=
  ref ← openBlob spaceId hash;
  handle_read spaceId ref range.
(** A range the handle accepts: it may reach beyond the end, but not start there. *)
Definition range_ok (range : option CasNodeRange) (size : Z) : Prop :=
  match range with
  | None => True
  | Some r => isSafeInteger (nr_offset r) = true ∧ 0 ≤ nr_offset r ≤ size
              ∧ match nr_length r with None => True | Some l => isSafeInteger l = true ∧ 0 ≤ l end
  end.

Section blobs.
Context {W : Type} (I : Invariant W) `{!AppCasClient W, !UploadFetcher W, !Sha256, !Cbor, !CborLaws}.
Context (spaceId : string) `{!CasStore I spaceId} (config : BlobConfig).
Context (Hfanout : 2 ≤ cf_indexFanout config ≤ BlobIndexFanout) (Hchunk : 0 < cf_chunkBytes config).

(** The nodes of a blob: one, or those of a tree of at least two chunks. *)
Definition blob_made (media : string) (content : bytes) (hash : string) (nodes : list CasNode) : Prop :=
  (node_hash (mkCasNode media [] content) = Ok hash ∧ nodes = [mkCasNode media [] content])
  ∨ ∃ k p, built config media (S k) p ∧ bt_hash (pt_node p) = hash ∧ pt_content p = content
           ∧ nodes = pt_nodes p.

Lemma assertExpectedSize_throws expected actual e :
  assertExpectedSize expected actual = Throw e → not_fuel e.
Proof. unfold assertExpectedSize, throw_if. repeat case_match; by intros [= <-]. Qed.
Lemma assertExpectedSize_ok expected actual :
  assertExpectedSize expected actual = Ok tt → expected = None ∨ expected = Some actual.
Proof.
  destruct expected as [n|]; [|by left]. intros Hn%throw_if_ok%negb_false_iff%Z.eqb_eq. subst. by right.
Qed.

Definition stored_as (options : CasBlobWriteOptions) (content : bytes) (ref : CasBlobRef)
    (nodes : list CasNode) : Prop :=
  ref = mkBlobRef (br_hash ref) (blen content) (JStr (wo_contentType options))
  ∧ (wo_size options = None ∨ wo_size options = Some (blen content))
  ∧ blob_made (wo_contentType options) content (br_hash ref) nodes.

Lemma storeSingle_keeps b options :
  covers I not_fuel (λ _, True) (storeSingle spaceId b options)
    (λ ref w, ∃ nodes, stored_as options b ref nodes ∧ kept I spaceId nodes w).
Proof.
  unfold storeSingle. eapply covers_bind; [apply stable_pure|apply storeNode_keeps; [apply stable_pure|constructor]|]. intros h.
  apply covers_lift_bind; [intros e; apply assertExpectedSize_throws|]. intros [] Hsize%assertExpectedSize_ok.
  apply covers_ret. intros w (_ & _ & Hh & Hk). exists [mkCasNode (wo_contentType options) [] b].
  split; [|done]. split_and!; [done|done|]. by left.
Qed.

Lemma storeBlob_keeps source options :
  (∀ e, bs_failure source = Some e → not_fuel e) →
  covers I not_fuel (λ _, True) (storeBlob spaceId config source options)
    (λ ref w, bs_failure source = None
      ∧ ∃ nodes, stored_as options (concat (bs_chunks source)) ref nodes ∧ kept I spaceId nodes w).
Proof.
  intros Hfail. unfold storeBlob. destruct (chunkSource_full (cf_chunkBytes config) source Hchunk) as (full & last & Hcut & Hcs).
  assert (∀ A (m : M exn W A) P Q, (bs_failure source = None → covers I not_fuel P m Q) →
    covers I not_fuel P (_ ← stream_end source; m) Q) as Hend.
  { intros A m P Q Hm. unfold stream_end. destruct (bs_failure source) as [e|]; [|by apply Hm].
    by apply covers_throw, Hfail. }
  assert (bs_failure source = None → concat (chunkSource (cf_chunkBytes config) source) = concat (bs_chunks source)) as Hcontent.
  { intros. by apply chunkSource_content. }
  assert (Forall (λ b, 0 < blen b ≤ cf_chunkBytes config) (chunkSource (cf_chunkBytes config) source)
    ∧ (∀ first second rest, chunkSource (cf_chunkBytes config) source = first :: second :: rest →
         blen first = cf_chunkBytes config)) as [Hsizes Hfirst].
  { destruct Hcut as [_ Hf Hr].
    assert (Forall (λ b, 0 < blen b ≤ cf_chunkBytes config) full) by (eapply Forall_impl; [exact Hf|]; cbn; lia).
    rewrite Hcs. split.
    - destruct (bs_failure source); [done|]. destruct (Z.ltb_spec 0 (blen last)); [|done].
      apply Forall_app. split; [done|]. constructor; [lia|constructor].
    - intros first second rest Heq. destruct full as [|x full].
      { exfalso. destruct (bs_failure source); [done|]. by destruct (0 <? blen last). }
      apply Forall_cons in Hf as [Hx _]. destruct (bs_failure source); [by injection Heq as <-|].
      by destruct (0 <? blen last); injection Heq as <-. }
  clear Hcs Hcut. destruct (chunkSource (cf_chunkBytes config) source) as [|first [|second rest]].
  - apply Hend. intros Hn. rewrite <- Hcontent by done. eapply covers_post; [|apply storeSingle_keeps]. done.
  - apply Hend. intros Hn. rewrite <- Hcontent by done. cbn [concat]. rewrite app_nil_r.
    eapply covers_post; [|apply storeSingle_keeps]. done.
  - set (media := wo_contentType options). set (dur := wo_leaseDurationMs options).
    eapply (covers_ext _ _ _ _ (
      state ← fold_m (addChunk spaceId config options) ([], 0) (first :: second :: rest);
      _ ← stream_end source;
      let '(groups, measuredSize) := state in
      root ← finishTree spaceId config (append_fuel groups) groups media dur;
      _ ← lift (assertExpectedSize (wo_size options) measuredSize);
      mret (mkBlobRef (bt_hash root) measuredSize (JStr media)))).
    { intros w. cbn [fold_m]. unfold mbind, M_bind.
      destruct (addChunk _ _ _ _ first w) as [[s1|e] w1]; [|done].
      by destruct (addChunk _ _ _ _ second w1) as [[s2|e] w2]. }
    eapply (covers_pre _ _ (kept I spaceId [])); [intros w _; constructor|].
    eapply covers_bind; [apply kept_stable| |].
    { by apply (addChunks_keeps I spaceId config media dur Hfanout options first (second :: rest) [] [] []). }
    intros [groups size].
    eapply (covers_pre _ _ (λ w, _ ∧ _)); [intros w [_ Hs]; exact Hs|]. cbn [fst snd app].
    eapply (covers_assume _ _ _ (size = _)); [intros w [Hs _]; exact Hs|]. intros ->.
    intros w Hw (_ & nodes & Hg & Hk). revert w Hw Hk.
    change (covers I not_fuel (kept I spaceId nodes) (_ ← stream_end source;
      root ← finishTree spaceId config (append_fuel groups) groups media dur;
      _ ← lift (assertExpectedSize (wo_size options) (blen (concat (first :: second :: rest))));
      mret (mkBlobRef (bt_hash root) (blen (concat (first :: second :: rest))) (JStr media)))
      (λ ref w, bs_failure source = None ∧ ∃ nodes,
        stored_as options (concat (bs_chunks source)) ref nodes ∧ kept I spaceId nodes w)).
    apply Hend. intros Hn. rewrite <- (Hcontent Hn).
    destruct Hg as (j & g & gs & -> & Hg & Hh).
    eapply covers_bind; [apply kept_stable| |].
    { apply (finish_keeps I spaceId config media dur Hfanout _ j g gs _ nodes Hg Hh).
      left. unfold append_fuel. rewrite length_app. simpl. lia. }
    intros root. apply covers_lift_bind; [intros e; apply assertExpectedSize_throws|]. intros [] Hsz%assertExpectedSize_ok.
    apply covers_ret. intros w (_ & k & p & Hroot & Hb & Hpc & Hpk). split; [done|]. exists (pt_nodes p). split; [|done].
    split_and!; [by subst|done|]. right. destruct k as [|k].
    + exfalso. destruct Hb as (h & c & _ & Hc & ->). cbn [pt_content] in Hpc. subst c.
      apply Forall_cons in Hsizes as [_ Hsizes]. apply Forall_cons in Hsizes as [H2 _].
      specialize (Hfirst _ _ _ eq_refl). cbn [concat] in Hc. unfold blen in *. rewrite !length_app in Hc. lia.
    + exists k, p. subst root. done.
Qed.
Notation reads := (covers I (λ _, False)).

Lemma present_hd n nodes h w : present I spaceId (n :: nodes) w → node_hash n = Ok h → node_at h n w.
Proof. intros Hp Hh. apply Forall_cons in Hp as [Hn _]. by apply Hn. Qed.

Lemma openBlob_reads media content hash nodes :
  media ≠ BlobIndexContentType → blob_made media content hash nodes →
  reads (present I spaceId nodes) (openBlob spaceId hash)
    (λ r _, r = mkBlobRef hash (blen content) (JStr media)).
Proof.
  intros Hm [[Hh ->]|(k & p & Hb & <- & <- & ->)]; unfold openBlob, resolveBlobRef.
  - eapply (leaf_step I spaceId _ _ _ hash (mkCasNode media [] content)); [apply present_stable| |done|].
    { intros w Hw. by eapply present_hd. }
    by apply covers_ret.
  - pose proof (built_facts config media (S k) p Hb) as [_ Hsz].
    destruct Hb as (ps & h & b & Hps & He & Hh & ->). cbn [pt_node pt_content pt_nodes bt_hash bt_size] in *.
    eapply (index_step I spaceId media _ _ _ h (pt_node <$> ps) (Z.of_nat k) b); [apply present_stable| |done|].
    { intros w Hw. by eapply present_hd. }
    cbn [blob_index bi_children nm_refs bi_size bi_mediaType number]. rewrite !length_fmap, Z.eqb_refl.
    apply covers_lift_bind; [done|]. intros _ _. apply covers_ret. intros w _. by rewrite Hsz.
Qed.

Lemma readWhole_reads media content hash nodes :
  media ≠ BlobIndexContentType → blob_made media content hash nodes →
  reads (present I spaceId nodes) (readBlobNode spaceId hash (JStr media)) (λ chunks _, concat chunks = content).
Proof.
  intros Hm [[Hh ->]|(k & p & Hb & <- & <- & ->)]; unfold readBlobNode, readNode_step.
  - eapply (leaf_step I spaceId _ _ _ hash (mkCasNode media [] content)); [apply present_stable| |done|].
    { intros w Hw. by eapply present_hd. }
    eapply covers_pre; [|by apply (readContent_reads hash (mkCasNode media [] content) None)].
    intros w Hw. by eapply present_hd.
  - destruct Hb as (ps & h & b & Hps & He & Hh & ->). cbn [pt_node pt_content pt_nodes bt_hash bt_size] in *.
    eapply (index_step I spaceId media _ _ _ h (pt_node <$> ps) (Z.of_nat k) b); [apply present_stable| |done|].
    { intros w Hw. by eapply present_hd. }
    cbn [blob_index bi_mediaType bi_level bi_children nm_refs number].
    rewrite (validateIndex_ok media) by done. apply covers_lift_bind; [done|]. intros _ _.
    replace (Z.to_nat (Z.of_nat k - 1 + 1)) with k by lia.
    apply (yield_parts I); [apply present_stable|]. apply Forall_forall. intros p Hp.
    eapply covers_pre; [|apply (readNode_reads I spaceId config media k); by eapply Forall_forall in Hps].
    intros w Hw. apply Forall_cons in Hw as [_ Hw]. by eapply present_part.
Qed.

Lemma readPart_reads media content hash nodes offset len :
  media ≠ BlobIndexContentType → blob_made media content hash nodes →
  0 ≤ offset → 0 < len → offset + len ≤ blen content →
  reads (present I spaceId nodes) (readRangeNode spaceId hash offset len (JStr media))
    (λ chunks _, concat chunks = slice offset (offset + len) content).
Proof.
  intros Hm [[Hh ->]|(k & p & Hb & <- & <- & ->)] Ho Hl Hol; unfold readRangeNode, readRangeNode_step.
  - eapply (leaf_step I spaceId _ _ _ hash (mkCasNode media [] content)); [apply present_stable| |done|].
    { intros w Hw. by eapply present_hd. }
    eapply covers_pre; [|apply (readContent_reads hash (mkCasNode media [] content) (Some (mkNodeRange offset (Some len))))].
    + intros w Hw. by eapply present_hd.
    + cbn. lia.
  - destruct Hb as (ps & h & b & Hps & He & Hh & ->). cbn [pt_node pt_content pt_nodes bt_hash bt_size] in *.
    eapply (index_step I spaceId media _ _ _ h (pt_node <$> ps) (Z.of_nat k) b); [apply present_stable| |done|].
    { intros w Hw. by eapply present_hd. }
    cbn [blob_index bi_mediaType bi_level bi_children nm_refs number].
    rewrite (validateIndex_ok media) by done. apply covers_lift_bind; [done|]. intros _ _.
    replace (Z.to_nat (Z.of_nat k - 1 + 1)) with k by lia.
    rewrite <- (list_fmap_compose JInt number), (list_fmap_id (bt_size <$> _) : (number ∘ JInt) <$> _ = _).
    eapply covers_post; [|apply (range_parts I); try lia; [apply present_stable|..]].
    + intros chunks w ->. by apply window_slice; lia.
    + eapply Forall_impl; [exact Hps|]. intros p Hp. by apply (built_facts config media k).
    + apply Forall_forall. intros p Hp o l Ho' Hl' Hol'.
      eapply covers_pre; [|apply (readRange_reads I spaceId config media k); [by eapply Forall_forall in Hps|done..]].
      intros w Hw. apply Forall_cons in Hw as [_ Hw]. by eapply present_part.
Qed.

Lemma readBlob_reads media content hash nodes range :
  media ≠ BlobIndexContentType → blob_made media content hash nodes → range_ok range (blen content) →
  reads (present I spaceId nodes) (readBlob spaceId hash range)
    (λ chunks _, concat chunks = in_range_of range content).
Proof.
  intros Hm Hb Hr. unfold readBlob.
  eapply covers_bind_fact; [apply present_stable|by eapply openBlob_reads|]. intros ref ->.
  destruct range as [[offset len]|]; cbn [handle_read br_hash br_contentType]; [|by apply readWhole_reads].
  unfold ranged, validateRange. cbn [nr_offset nr_length br_size br_hash br_contentType].
  destruct Hr as (Hs & [Ho1 Ho2] & Hlen). cbn [nr_offset nr_length] in *. rewrite Hs, (proj2 (Z.ltb_ge offset 0)), (proj2 (Z.ltb_ge (blen content) offset)) by done.
  cbn [negb orb throw_if mbind result_bind].
  assert (match len with None => false | Some l => negb (isSafeInteger l) || (l <? 0) end = false) as ->.
  { destruct len as [l|]; [|done]. destruct Hlen as [-> Hl]. by rewrite (proj2 (Z.ltb_ge _ _)). }
  do 2 (apply covers_lift_bind; [done|]; intros _ _).
  set (l := Z.min (default (blen content - offset) len) (blen content - offset)).
  assert (0 ≤ l ≤ blen content - offset) as Hl.
  { unfold l. destruct len as [n|]; cbn [default from_option id]; [destruct Hlen; lia|lia]. }
  assert (slice offset (offset + l) content = in_range_of (Some (mkNodeRange offset len)) content) as <-.
  { unfold in_range_of, slice, l, blen. cbn [nr_offset nr_length].
    destruct len as [n|]; cbn [default from_option id]; [|rewrite take_ge; [done|rewrite length_drop; lia]].
    destruct (Z.le_gt_cases n (Z.of_nat (length content) - offset)); [f_equal; lia|].
    rewrite !take_ge; [done|rewrite length_drop; lia..]. }
  destruct (Z.eqb_spec l 0) as [->|Hne].
  - apply covers_ret. intros w _. unfold slice. by replace (Z.to_nat (offset + 0 - offset)) with O by lia.
  - apply readPart_reads; done || lia.
Qed.

(** C21: what a blob client stores, it can read. Whatever calls fail, [storeBlob] ends:
    the loops over the groups of its tree never run out. If it answers, the source
    was read to its end, the answer has the size and media type of the content and
    the size agrees with what was announced; and, unless two nodes of the blob
    share their hash with other nodes, the blob can be opened and read from any
    later state in which the Space keeps what it answered ready: as a whole, or by
    any range, of which exactly the bytes come back. (A media type that is the
    blob client's own type of indexes is left out: see the finding.) *)
Theorem blob_round_trip source options w r w1 :
  wo_contentType options ≠ BlobIndexContentType → bs_failure source ≠ Some out_of_fuel →
  holds I w → storeBlob spaceId config source options w = (r, w1) →
  holds I w1 ∧ keeps I w w1
  ∧ match r with
    | Throw e => e ≠ out_of_fuel
    | Ok ref =>
        let content := concat (bs_chunks source) in
        bs_failure source = None
        ∧ br_size ref = blen content ∧ br_contentType ref = JStr (wo_contentType options)
        ∧ (wo_size options = None ∨ wo_size options = Some (blen content))
        ∧ ∃ nodes, blob_made (wo_contentType options) content (br_hash ref) nodes
          ∧ (Forall (λ n, ∀ h, node_hash n = Ok h → collision_free h) nodes →
             ∀ w2 range, holds I w2 → keeps I w1 w2 → range_ok range (blen content) →
             ∃ chunks w3, readBlob spaceId (br_hash ref) range w2 = (Ok chunks, w3)
               ∧ concat chunks = in_range_of range content)
    end.
Proof.
  intros Hm Hf Hw Hrun.
  assert (∀ e, bs_failure source = Some e → not_fuel e) as Hf' by (intros e He ->; by apply Hf).
  pose proof (storeBlob_keeps source options Hf' w Hw Logic.I) as Hs. rewrite Hrun in Hs.
  destruct r as [ref|e]; destruct Hs as (Hw1 & Hk & Hs); split_and!; try done.
  destruct Hs as (Hn & nodes & (Href & Hsize & Hmade) & Hkept). rewrite Href. cbn [br_size br_contentType br_hash].
  split_and!; try done. exists nodes. split; [done|]. intros Hcf w2 range Hw2 Hk2 Hr.
  assert (present I spaceId nodes w2) as Hp.
  { apply (present_stable I spaceId nodes w1 w2 Hk2). eapply Forall_impl; [apply Forall_and; exact (conj Hcf Hkept)|].
    intros n [Hc Hn'] h Hh. apply Hn'; [done|]. by apply Hc. }
  pose proof (readBlob_reads _ _ _ _ range Hm Hmade Hr w2 Hw2 Hp) as Hread.
  destruct (readBlob spaceId (br_hash ref) range w2) as [[chunks|e] w3]; [|by destruct Hread as (_ & _ & [])].
  exists chunks, w3. split; [done|]. apply Hread.
Qed.
End blobs.
