(* ===== verification/FileClient.v ===== *)
(** The file client of [packages/space-file-client/src/file-client.ts]: a tree of
    files kept in memory, read from a manifest node and committed as one, and the
    catalog of the roots. Abort signals are left out. *)
From Stdlib Require Import Ascii.
From S2P Require Import Prelude Js JsString JsMap JsonText Errors Safe Codec BlobIndex.
From S2P Require Import NodeContent BlobClient.
From S2P Require Import FileManifest.

(** * Data: [types.ts] *)

Record SpaceFileRootInfo := mkRootInfo {
  ri_rootId : string;
  ri_name : string;
  ri_manifestHash : string;
  ri_revision : Z;
  ri_createdAt : Z;
  ri_updatedAt : Z
}.

(** The database port of the roots, in the state [W] of everything outside. *)
Class SpaceFileRootCatalog (W : Type) := {
  catalog_list : M exn W (list SpaceFileRootInfo);
  catalog_create (rootId name manifestHash : string) : M exn W SpaceFileRootInfo;
  catalog_update (rootId : string) (revision : Z) (name manifestHash : string) : M exn W SpaceFileRootInfo;
  catalog_delete (rootId : string) (revision : Z) : M exn W unit
}.
(** [options.createId] and [options.createRequestId]. *)
Class FileIds (W : Type) := {
  createId : M exn W string;
  createRequestId : M exn W string
}.
(** [String.prototype.localeCompare]: the order of the host's language. *)
Class Locale := localeCompare : string → string → Z.

Inductive WorkingEntry :=
| WorkingDirectory
| WorkingFile (hash : string) (size : Z) (mediaType : string).
#[export] Instance WorkingEntry_eq : EqDecision WorkingEntry.
Proof. solve_decision. Defined.
Definition is_directory (e : option WorkingEntry) : bool :=
  match e with Some WorkingDirectory => true | _ => false end.
Definition is_working_file (e : option WorkingEntry) : bool :=
  match e with Some (WorkingFile _ _ _) => true | _ => false end.
Abbreviation Entries := (JsMap WorkingEntry).

Inductive StatType := StatDirectory | StatFile (size : Z) (mediaType : string).
Record SpaceFileStat := mkFileStat { st_path : string; st_name : string; st_type : StatType }.
Definition stat_is_directory (s : SpaceFileStat) : bool :=
  match st_type s with StatDirectory => true | StatFile _ _ => false end.

(** * Paths *)

Definition normalizePath (path : string) : result exn string :=
  if bool_decide (path = "/") then Ok EmptyString
  else
    _ ← throw_if (negb (startsWith path "/") || endsWith path "/" || includes path backslash
                  || some_char is_control path) (TypeError ("Invalid absolute path: " +:+ path));
    let normalized := str_drop 1 path in
    _ ← throw_if (existsb bad_segment (split "/"%char normalized))
          (TypeError ("Invalid absolute path: " +:+ path));
    Ok normalized.

Definition normalizeMutablePath (path : string) : result exn string :=
  normalized ← normalizePath path;
  _ ← throw_if (bool_decide (normalized = EmptyString)) (TypeError "The root directory cannot be modified");
  Ok normalized.

Definition validateRootName (value : string) : result exn string :=
  let name := of_chars (trim_text (chars value)) in
  _ ← throw_if ((strlen name =? 0) || (120 <? strlen name) || some_char is_control name)
        (TypeError "Root name must be 1-120 characters without controls");
  Ok name.

Definition parentPath (path : string) : string :=
  match last_index_of "/"%char (chars path) with
  | None => EmptyString
  | Some separator => str_take separator path
  end.

Definition hasDescendant (entries : Entries) (path : string) : bool :=
  existsb (λ e, below path (fst e)) entries.

Definition requireParent (entries : Entries) (path : string) : result exn unit :=
  let parent := parentPath path in
  if bool_decide (parent = EmptyString) then Ok tt
  else
    let entry := map_get parent entries in
    throw_if (is_working_file entry
              || match entry with None => negb (hasDescendant entries parent) | Some _ => false end)
      (TypeError ("Parent directory not found: /" +:+ parent)).

(** [moveOrCopy(entries, from, to, removeSource)]. *)
Definition moveOrCopy (entries : Entries) (from to : string) (removeSource : bool) : result exn Entries :=
  source ← normalizeMutablePath from;
  target ← normalizeMutablePath to;
  let sourceEntry := map_get source entries in
  let descendants := filter (λ e, below source (fst e) = true) entries in
  _ ← throw_if (match sourceEntry with None => bool_decide (descendants = []) | Some _ => false end)
        (TypeError ("Path not found: " +:+ from));
  _ ← throw_if (bool_decide (target = source) || below source target)
        (TypeError "Cannot place a path inside itself");
  _ ← requireParent entries target;
  _ ← throw_if (map_has target entries || hasDescendant entries target)
        (TypeError ("Path already exists: " +:+ to));
  let entries := match sourceEntry with Some entry => map_set target entry entries | None => entries end in
  let entries := foldl (λ entries e,
    map_set (target +:+ str_drop (String.length source) (fst e)) (snd e) entries) entries descendants in
  Ok (if removeSource
      then foldl (λ entries e, map_delete (fst e) entries) (map_delete source entries) descendants
      else entries).

Definition toStat (path : string) (entry : WorkingEntry) : SpaceFileStat :=
  let name := match last_index_of "/"%char (chars path) with
              | None => path
              | Some separator => str_drop (S separator) path
              end in
  mkFileStat ("/" +:+ path) name
    match entry with
    | WorkingDirectory => StatDirectory
    | WorkingFile _ size mediaType => StatFile size mediaType
    end.

(** [JSON.stringify] tells the entries apart that differ. *)
Definition sameEntries (left right : Entries) : bool :=
  (Z.of_nat (length left) =? Z.of_nat (length right))
  && forallb (λ e, match map_get (fst e) right with
                   | None => false
                   | Some other => bool_decide (snd e = other)
                   end) left.

(** * The working root *)

Record FileRoot := mkFileRoot {
  fr_info : SpaceFileRootInfo;
  fr_committedName : string;
  fr_name : string;
  fr_committedEntries : Entries;
  fr_entries : Entries
}.
(** [workingRoot(initialInfo, initialEntries)]. *)
Definition workingRoot (info : SpaceFileRootInfo) (entries : Entries) : FileRoot :=
  mkFileRoot info (ri_name info) (ri_name info) entries entries.
Definition with_entries (entries : Entries) (root : FileRoot) : FileRoot :=
  mkFileRoot (fr_info root) (fr_committedName root) (fr_name root) (fr_committedEntries root) entries.

Definition dirty (root : FileRoot) : bool :=
  negb (bool_decide (fr_name root = fr_committedName root))
  || negb (sameEntries (fr_entries root) (fr_committedEntries root)).

Definition stat (root : FileRoot) (path : string) : result exn SpaceFileStat :=
  normalized ← normalizePath path;
  if bool_decide (normalized = EmptyString) then Ok (mkFileStat "/" "/" StatDirectory)
  else
    match map_get normalized (fr_entries root) with
    | Some entry => Ok (toStat normalized entry)
    | None => if hasDescendant (fr_entries root) normalized then Ok (toStat normalized WorkingDirectory)
              else Throw (TypeError ("Path not found: " +:+ path))
    end.

(** The loop of [readdir] over the entries. *)
Definition add_child (prefix : string) (children : Entries) (e : string * WorkingEntry) : Entries :=
  if negb (startsWith (fst e) prefix) then children
  else
    let remainder := str_drop (String.length prefix) (fst e) in
    if strlen remainder =? 0 then children
    else match index_of "/"%char (chars remainder) with
         | None => map_set (prefix +:+ remainder) (snd e) children
         | Some separator => map_set (prefix +:+ str_take separator remainder) WorkingDirectory children
         end.
Definition compareStats `{Locale} (left right : SpaceFileStat) : Z :=
  if Bool.eqb (stat_is_directory left) (stat_is_directory right) then localeCompare (st_name left) (st_name right)
  else if stat_is_directory left then -1 else 1.
Definition readdir `{Locale} (root : FileRoot) (path : string) : result exn (list SpaceFileStat) :=
  directory ← normalizePath path;
  found ← stat root path;
  _ ← throw_if (negb (stat_is_directory found)) (TypeError ("Not a directory: " +:+ path));
  let prefix := if bool_decide (directory = EmptyString) then EmptyString else directory +:+ "/" in
  let children := foldl (add_child prefix) [] (fr_entries root) in
  Ok (js_sort compareStats ((λ e, toStat (fst e) (snd e)) <$> children)).

Definition mkdir (root : FileRoot) (path : string) : result exn FileRoot :=
  normalized ← normalizeMutablePath path;
  _ ← requireParent (fr_entries root) normalized;
  _ ← throw_if (map_has normalized (fr_entries root) || hasDescendant (fr_entries root) normalized)
        (TypeError ("Path already exists: " +:+ path));
  Ok (with_entries (map_set normalized WorkingDirectory (fr_entries root)) root).
Definition move (root : FileRoot) (from to : string) : result exn FileRoot :=
  entries ← moveOrCopy (fr_entries root) from to true;
  Ok (with_entries entries root).
Definition copy (root : FileRoot) (from to : string) : result exn FileRoot :=
  entries ← moveOrCopy (fr_entries root) from to false;
  Ok (with_entries entries root).
Definition remove (root : FileRoot) (path : string) : result exn FileRoot :=
  normalized ← normalizeMutablePath path;
  _ ← throw_if (negb (map_has normalized (fr_entries root)) && negb (hasDescendant (fr_entries root) normalized))
        (TypeError ("Path not found: " +:+ path));
  Ok (with_entries (filter (λ e, below normalized (fst e) = false) (map_delete normalized (fr_entries root))) root).
Definition rename (root : FileRoot) (nextName : string) : result exn FileRoot :=
  name ← validateRootName nextName;
  Ok (mkFileRoot (fr_info root) (fr_committedName root) name (fr_committedEntries root) (fr_entries root)).
Definition discard (root : FileRoot) : FileRoot :=
  mkFileRoot (fr_info root) (fr_committedName root) (fr_committedName root)
    (fr_committedEntries root) (fr_committedEntries root).

(** The part of [write] before its [await], and the part after it. The content type
    of a stored blob is the string it was stored with. *)
Definition write_check (root : FileRoot) (path : string) : result exn string :=
  normalized ← normalizeMutablePath path;
  _ ← requireParent (fr_entries root) normalized;
  _ ← throw_if (is_directory (map_get normalized (fr_entries root)) || hasDescendant (fr_entries root) normalized)
        (TypeError ("Path is a directory: " +:+ path));
  Ok normalized.
Definition write_set (normalized : string) (stored : CasBlobRef) (root : FileRoot) : FileRoot :=
  with_entries (map_set normalized
    (WorkingFile (br_hash stored) (br_size stored) (json_String (br_contentType stored))) (fr_entries root)) root.

Section file_client.
Context {W : Type} `{!AppCasClient W, !UploadFetcher W, !Sha256, !Cbor}.
Context `{!SpaceFileRootCatalog W, !FileIds W}.
Context (spaceId : string) (config : BlobConfig).

(** The manifest entries of a map, sorted, with the files numbered, and the hashes
    they number. *)
Fixpoint manifest_entries (ref : Z) (sorted : Entries) : list SpaceFileManifestEntry * list string :=
  match sorted with
  | [] => ([], [])
  | (path, WorkingDirectory) :: sorted =>
      let '(entries, refs) := manifest_entries ref sorted in
      (SpaceDirectoryEntry path :: entries, refs)
  | (path, WorkingFile hash size mediaType) :: sorted =>
      let '(entries, refs) := manifest_entries (ref + 1) sorted in
      (SpaceFileEntry path (JInt ref) (JInt size) mediaType :: entries, hash :: refs)
  end.
Definition storeManifest (entries : Entries) : M exn W string :=
  let sorted := js_sort (λ left right, compareFileManifestPaths (fst left) (fst right)) entries in
  let '(manifestEntries, refs) := manifest_entries 0 sorted in
  manifest ← lift (createFileManifest manifestEntries);
  b ← lift (encodeFileManifest manifest);
  storeNodeContent spaceId b FileManifestContentType refs None.

Definition retain (hash : string) : M exn W unit :=
  requestId ← createRequestId;
  _ ← blob_retain spaceId requestId [(hash, JInt 1)];
  mret tt.
Definition release (hash : string) : M exn W unit :=
  requestId ← createRequestId;
  _ ← blob_release spaceId requestId [(hash, JInt 1)];
  mret tt.

Definition working_entry (refs : JsMap string) (e : SpaceFileManifestEntry) : string * WorkingEntry :=
  match e with
  | SpaceDirectoryEntry path => (path, WorkingDirectory)
  | SpaceFileEntry path _ size mediaType =>
      (path, WorkingFile (default EmptyString (map_get path refs)) (number size) mediaType)
  end.
Definition loadRoot (info : SpaceFileRootInfo) : M exn W FileRoot :=
  '(metadata, content) ← readNode spaceId (ri_manifestHash info);
  _ ← lift (throw_if (negb (bool_decide (nm_contentType metadata = FileManifestContentType)))
        (TypeError "File root has an unsupported manifest type"));
  manifest ← lift (decodeFileManifest (concat content));
  refs ← lift (fileManifestRefs manifest (nm_refs metadata));
  mret (workingRoot info (map_of (working_entry refs <$> fm_entries manifest))).

Definition read (root : FileRoot) (path : string) (range : option CasNodeRange) : M exn W (list bytes) :=
  normalized ← lift (normalizePath path);
  match map_get normalized (fr_entries root) with
  | None => throw (TypeError ("Path not found: " +:+ path))
  | Some WorkingDirectory => throw (TypeError ("Not a file: " +:+ path))
  | Some (WorkingFile hash _ _) => ref ← openBlob spaceId hash; handle_read spaceId ref range
  end.

(** ** Operations with an [await]

    They run on the outside together with the working root. While one of them waits,
    other calls may change the root: [meanwhile] is what they do. *)
Section awaiting.
Context (meanwhile : FileRoot → FileRoot).
Notation Run := (M exn (W * FileRoot)).

Definition await {A} (m : M exn W A) : Run A := λ '(w, root),
  let '(r, w') := m w in (r, (w', meanwhile root)).
Definition the_root : Run FileRoot := gets snd.
Definition change_root (f : FileRoot → FileRoot) : Run unit := modify (λ '(w, root), (w, f root)).

Definition write (path : string) (source : CasBlobSource) (options : CasBlobWriteOptions) : Run unit :=
  root ← the_root;
  normalized ← lift (write_check root path);
  stored ← await (storeBlob spaceId config source options);
  change_root (write_set normalized stored).

(** What [commit] does when its update succeeded. *)
Definition committed (updated : SpaceFileRootInfo) (root : FileRoot) : FileRoot :=
  mkFileRoot updated (fr_name root) (fr_name root) (fr_entries root) (fr_entries root).
(** [commit] from its manifest on. *)
Definition commit_manifest (manifestHash : string) : Run SpaceFileRootInfo :=
  root ← the_root;
  _ ← (if bool_decide (manifestHash = ri_manifestHash (fr_info root)) then mret tt
       else await (retain manifestHash));
  root ← the_root;
  updated ← try_catch
    (await (catalog_update (ri_rootId (fr_info root)) (ri_revision (fr_info root)) (fr_name root) manifestHash))
    (λ error,
      root ← the_root;
      _ ← (if bool_decide (manifestHash = ri_manifestHash (fr_info root)) then mret tt
           else await (ignore_errors (release manifestHash)));
      throw error);
  root ← the_root;
  let previousHash := ri_manifestHash (fr_info root) in
  _ ← change_root (committed updated);
  _ ← (if bool_decide (manifestHash = previousHash) then mret tt
       else await (ignore_errors (release previousHash)));
  root ← the_root;
  mret (fr_info root).
Definition commit : Run SpaceFileRootInfo :=
  root ← the_root;
  if negb (dirty root) then mret (fr_info root)
  else if sameEntries (fr_entries root) (fr_committedEntries root)
  then commit_manifest (ri_manifestHash (fr_info root))
  else manifestHash ← await (storeManifest (fr_entries root)); commit_manifest manifestHash.
End awaiting.

(** * The file system *)

Definition listRoots : M exn W (list SpaceFileRootInfo) := catalog_list.

(** A root that cannot be loaded is not one that could not be created: only the
    catalog's failure releases the manifest. *)
Definition createRoot (rawName : string) : M exn W FileRoot :=
  name ← lift (validateRootName rawName);
  manifestHash ← storeManifest [];
  _ ← retain manifestHash;
  info ← try_catch (rootId ← createId; catalog_create rootId name manifestHash)
    (λ error, _ ← ignore_errors (release manifestHash); throw error);
  loadRoot info.
Definition find_root (rootId : string) : M exn W SpaceFileRootInfo :=
  roots ← catalog_list;
  match List.find (λ candidate, bool_decide (ri_rootId candidate = rootId)) roots with
  | Some info => mret info
  | None => throw (TypeError ("File root not found: " +:+ rootId))
  end.
Definition openRoot (root : string + SpaceFileRootInfo) : M exn W FileRoot :=
  match root with
  | inl rootId => info ← find_root rootId; loadRoot info
  | inr info => loadRoot info
  end.
Definition deleteRoot (rootId : string) : M exn W unit :=
  info ← find_root rootId;
  _ ← catalog_delete rootId (ri_revision info);
  release (ri_manifestHash info).
End file_client.
