(* ===== verification/FileTree.v ===== *)
(** The tree of files a working root keeps: paths that are valid, with nothing below
    a file. Every operation of the file client keeps it; what moving, copying,
    removing and listing do to it. *)
From Stdlib Require Import Ascii.
From stdpp Require Import sorting.
From S2P Require Import Prelude Js JsString JsMap JsonText Errors NodeContent BlobClient.
From S2P Require Import FileManifest FileClient.

(** * Paths *)

Lemma app_sep_last {A} (c : A) a x b y : a ++ c :: x = b ++ c :: y → c ∉ y →
  a = b ∨ ∃ u, b = a ++ c :: u.
Proof.
  revert b. induction a as [|z a IH]; intros [|z' b]; cbn [app]; [by left| | |].
  - intros [= -> He] Hy. right. by exists b.
  - intros [= -> He] Hy. exfalso. apply Hy. rewrite <- He. apply elem_of_app. right. left.
  - intros [= -> He] Hy. destruct (IH b He Hy) as [->|[u ->]]; [by left|right; by exists u].
Qed.
Lemma app_sep_compare {A} (c : A) a x b y : a ++ c :: x = b ++ c :: y →
  a = b ∨ (∃ u, b = a ++ c :: u) ∨ ∃ u, a = b ++ c :: u.
Proof.
  revert b. induction a as [|z a IH]; intros [|z' b]; cbn [app]; [by left| | |].
  - intros [= -> He]. right. left. by exists b.
  - intros [= -> He]. right. right. by exists a.
  - intros [= -> He]. destruct (IH b He) as [->|[[u ->]|[u ->]]]; [by left|right; left; by exists u|right; right; by exists u].
Qed.

Lemma below_chars d p : below d p = true ↔ ∃ t, chars p = chars d ++ "/"%char :: t.
Proof.
  rewrite below_spec. split.
  - intros [t ->]. exists (chars t). by rewrite !chars_app.
  - intros [t Ht]. exists (of_chars t). apply (inj chars). by rewrite !chars_app, chars_of_chars.
Qed.
(** Two paths above a third lie above each other. *)
Lemma below_compare a b p : below a p = true → p = b ∨ below b p = true →
  a = b ∨ below a b = true ∨ below b a = true.
Proof.
  intros Ha [->|Hb]; [by right; left|]. apply below_chars in Ha as [x Hx], Hb as [y Hy]. rewrite Hx in Hy.
  destruct (app_sep_compare _ _ _ _ _ Hy) as [He|[[u Hu]|[u Hu]]].
  - left. by apply (inj chars).
  - right. left. apply below_chars. by exists u.
  - right. right. apply below_chars. by exists u.
Qed.

Lemma last_index_of_Some c l i : last_index_of c l = Some i →
  l = take i l ++ c :: drop (S i) l ∧ c ∉ drop (S i) l.
Proof.
  revert i. induction l as [|x l IH]; intros i; cbn [last_index_of]; [done|].
  destruct (last_index_of c l) as [j|] eqn:Hj.
  - intros [= <-]. destruct (IH j eq_refl) as [H1 H2]. cbn [take drop]. split; [cbn; by f_equal|done].
  - case_decide as Hx; [|done]. intros [= <-]. cbn. rewrite drop_0. split; [by subst|].
    clear -Hj. induction l as [|y l IH]; [apply not_elem_of_nil|]. cbn in Hj. destruct (last_index_of c l); [done|].
    case_decide; [done|]. apply not_elem_of_cons. split; [by intros ->|by apply IH].
Qed.
Lemma last_index_of_None c l : last_index_of c l = None → c ∉ l.
Proof.
  induction l as [|y l IH]; [intros _; apply not_elem_of_nil|]. cbn. destruct (last_index_of c l); [done|].
  case_decide; [done|]. intros _. apply not_elem_of_cons. split; [by intros ->|by apply IH].
Qed.
Lemma parentPath_cases p :
  (parentPath p = EmptyString ∧ ("/"%char ∉ chars p ∨ startsWith p "/" = true))
  ∨ ∃ name, parentPath p ≠ EmptyString ∧ chars p = chars (parentPath p) ++ "/"%char :: name ∧ "/"%char ∉ name.
Proof.
  unfold parentPath. destruct (last_index_of _ _) as [i|] eqn:Hi.
  - apply last_index_of_Some in Hi as [Hp Hn]. destruct (decide (str_take i p = EmptyString)) as [He|He].
    + left. split; [done|]. right. apply prefix_chars. apply (f_equal chars) in He. unfold str_take in He.
      rewrite chars_of_chars in He. rewrite He in Hp. exists (drop (S i) (chars p)). exact Hp.
    + right. exists (drop (S i) (chars p)). split_and!; [done| |done]. unfold str_take. by rewrite chars_of_chars.
  - left. split; [done|]. left. by apply last_index_of_None.
Qed.

(** What lies above a path is its parent, or above its parent. *)
Lemma below_parent f p : tree_path p → below f p = true →
  parentPath p ≠ EmptyString ∧ (f = parentPath p ∨ below f (parentPath p) = true).
Proof.
  intros [Hs _] Hb. destruct (good_segments_ends p Hs) as (Hstart & _ & _).
  apply below_chars in Hb as [t Ht]. destruct (parentPath_cases p) as [[_ [Hn|Hn]]|(name & Hne & Hp & Hn)].
  - exfalso. apply Hn. rewrite Ht. apply elem_of_app. right. left.
  - congruence.
  - split; [done|]. rewrite Hp in Ht. symmetry in Ht. destruct (app_sep_last _ _ _ _ _ Ht Hn) as [He|[u Hu]].
    + left. by apply (inj chars).
    + right. apply below_chars. by exists u.
Qed.

Lemma tree_path_below d t : tree_path (d +:+ "/" +:+ t) ↔ tree_path d ∧ tree_path t.
Proof.
  assert (chars (d +:+ "/" +:+ t) = chars d ++ "/"%char :: chars t) as He by by rewrite !chars_app.
  split.
  - intros [Hs Hc]. unfold split in Hs. rewrite He in Hs, Hc. rewrite split_chars_sep, fmap_app in Hs.
    apply Forall_app in Hs as [? ?].
    apply Forall_app in Hc as [Hc1 [_ Hc2]%Forall_cons]. split; by split.
  - intros [[H1 H2] [H3 H4]]. split.
    + unfold split in *. rewrite He, split_chars_sep, fmap_app. by apply Forall_app.
    + rewrite He. apply Forall_app. split; [done|]. apply Forall_cons. done.
Qed.

Lemma str_drop_slash t : str_drop 1 ("/" +:+ t) = t.
Proof. exact (str_drop_app "/" t). Qed.
Lemma normalizePath_spec path p :
  normalizePath path = Ok p ↔ (path = "/" ∧ p = EmptyString) ∨ (path = "/" +:+ p ∧ tree_path p).
Proof.
  unfold normalizePath. case_bool_decide as Hr.
  { subst. split; [intros [= <-]; by left|]. intros [[_ ->]|[He Hp]]; [done|].
    apply (inj (String.append "/")) in He. by subst p. }
  rewrite !bind_throw_if. split.
  - intros (Ht & Hs & [= <-]). right. apply orb_false_iff in Ht as [Ht Hc]. apply orb_false_iff in Ht as [Ht Hb].
    apply orb_false_iff in Ht as [[t ->]%negb_false_iff%startsWith_app He]. rewrite str_drop_slash in *. split; [done|].
    apply path_tests. split; [|done]. rewrite !orb_false_iff.
    assert (Forall (λ s, bad_segment s = false) (split "/"%char t)) as Hg.
    { apply Forall_forall. intros s Hin. apply not_true_is_false. intros Hbad. revert Hs. apply not_false_iff_true.
      apply existsb_exists. exists s. split; [by apply list_elem_of_In|done]. }
    destruct (good_segments_ends t Hg) as (H1 & H2 & _). split_and!; try done.
  - intros [[-> _]|[-> Hp]]; [done|]. pose proof Hp as Hp0. apply path_tests in Hp as [Ht Hs]. rewrite !orb_false_iff in Ht.
    destruct Ht as [[[_ He] Hb] Hc]. rewrite str_drop_slash. split_and!; [|done|done]. rewrite !orb_false_iff. split_and!.
    + apply negb_false_iff, startsWith_app. by exists p.
    + apply not_true_is_false. intros [q Hq]%endsWith_chars. destruct q as [|c q].
      { by destruct p. }
      injection Hq as _ Hq. revert He. apply not_false_iff_true. apply endsWith_chars. exists q. exact Hq.
    + exact Hb.
    + exact Hc.
Qed.
Lemma normalizeMutablePath_spec path p : normalizeMutablePath path = Ok p ↔ path = "/" +:+ p ∧ tree_path p.
Proof.
  unfold normalizeMutablePath. destruct (normalizePath path) as [q|e] eqn:Hn; cbn [mbind result_bind].
  - rewrite bind_throw_if, bool_decide_eq_false. apply normalizePath_spec in Hn. split.
    + intros [Hne [= <-]]. naive_solver.
    + intros [-> Hp]. destruct Hn as [[He ->]|[He Hq]].
      * apply (inj (String.append "/") p EmptyString) in He. subst p. by destruct Hp as [[? _]%Forall_cons _].
      * apply (inj (String.append "/")) in He as ->. split; [|done]. intros ->. by destruct Hq as [[? _]%Forall_cons _].
  - split; [done|]. intros Hp. assert (normalizePath path = Ok p) by (apply normalizePath_spec; by right). congruence.
Qed.

(** * The tree *)

Definition has (entries : Entries) (p : string) : Prop := is_Some (map_get p entries).
Definition is_file_at (entries : Entries) (p : string) : Prop := is_working_file (map_get p entries) = true.

Record tree_ok (entries : Entries) : Prop := {
  to_wf : map_wf entries;
  to_paths : ∀ p, has entries p → tree_path p;
  to_tree : ∀ f p, is_file_at entries f → has entries p → below f p = false
}.
Definition root_ok (root : FileRoot) : Prop := tree_ok (fr_entries root) ∧ tree_ok (fr_committedEntries root).

Lemma has_key entries p : has entries p ↔ p ∈ (fst <$> entries).
Proof.
  unfold has. destruct (map_get p entries) eqn:Hg.
  - split; [intros _|by eauto]. apply map_get_elem in Hg. apply list_elem_of_fmap. by eexists (_, _).
  - apply map_get_None in Hg. split; [by intros []|done].
Qed.
Lemma map_has_has entries p : map_has p entries = true ↔ has entries p.
Proof. by rewrite map_has_spec, has_key. Qed.
Lemma is_file_has entries p : is_file_at entries p → has entries p.
Proof. unfold is_file_at, has. by destruct (map_get p entries). Qed.
Lemma hasDescendant_spec entries p : hasDescendant entries p = true ↔ ∃ q, has entries q ∧ below p q = true.
Proof.
  unfold hasDescendant. rewrite existsb_exists. setoid_rewrite has_key. setoid_rewrite list_elem_of_fmap. split.
  - intros (e & He%list_elem_of_In & Hb). exists (fst e). eauto.
  - intros (q & (e & -> & He) & Hb). exists e. split; [by apply list_elem_of_In|done].
Qed.
Lemma hasDescendant_false entries p : hasDescendant entries p = false ↔ ∀ q, has entries q → below p q = false.
Proof.
  rewrite <- not_true_iff_false, hasDescendant_spec. split.
  - intros Hn q Hq. apply not_true_is_false. naive_solver.
  - intros Hn (q & Hq & Hb). rewrite Hn in Hb; done.
Qed.

(** Under a parent that is there, no file lies above a path. *)
Lemma requireParent_above entries p f : tree_ok entries → tree_path p →
  requireParent entries p = Ok tt → is_file_at entries f → below f p = false.
Proof.
  intros Hok Hp Hr Hf. apply not_true_is_false. intros Hb.
  destruct (below_parent f p Hp Hb) as [Hne Hfp]. unfold requireParent in Hr. rewrite bool_decide_false in Hr by done.
  apply throw_if_ok, orb_false_iff in Hr as [Hnf Hd].
  destruct Hfp as [->|Hfp].
  { unfold is_file_at in Hf. congruence. }
  destruct (map_get (parentPath p) entries) as [e|] eqn:He.
  - assert (has entries (parentPath p)) as Hh by (unfold has; by rewrite He).
    by rewrite (to_tree _ Hok f _ Hf Hh) in Hfp.
  - apply negb_false_iff, hasDescendant_spec in Hd as (q & Hq & Hpq).
    pose proof (below_trans _ _ _ Hfp Hpq) as Hb'.
    by rewrite (to_tree _ Hok f q Hf Hq) in Hb'.
Qed.

(** A tree whose entries come from one that is fine. *)
Lemma tree_ok_from entries entries' : tree_ok entries → map_wf entries' →
  (∀ p e, map_get p entries' = Some e → map_get p entries = Some e) → tree_ok entries'.
Proof.
  intros [H1 H2 H3] Hwf Hsub.
  assert (∀ p, has entries' p → has entries p) as Hhas by (intros p [e He]; exists e; by apply Hsub).
  split; [done|eauto|]. intros f p Hf Hp. apply H3; [|by apply Hhas].
  unfold is_file_at in *. destruct (map_get f entries') as [e|] eqn:He; [|done]. by rewrite (Hsub _ _ He).
Qed.
(** One more entry, below no file, and with nothing below it if it is one. *)
Lemma tree_ok_put entries p e : tree_ok entries → tree_path p →
  (∀ f, is_file_at entries f → below f p = false) →
  (is_working_file (Some e) = true → ∀ q, has entries q → below p q = false) →
  tree_ok (map_set p e entries).
Proof.
  intros [H1 H2 H3] Hp Ha Hd. split.
  - by apply map_set_wf.
  - intros q [x Hx]. rewrite map_get_set in Hx. case_bool_decide; subst; [done|]. apply H2. by exists x.
  - intros f q Hf [x Hq]. unfold is_file_at in Hf. rewrite map_get_set in Hf, Hq. repeat case_bool_decide; subst.
    + apply below_irrefl.
    + by apply Ha.
    + apply Hd; [done|by exists x].
    + apply H3; [done|by exists x].
Qed.
(** One more entry under a parent that is there. *)
Lemma tree_ok_set entries p e : tree_ok entries → tree_path p → requireParent entries p = Ok tt →
  (is_working_file (Some e) = true → hasDescendant entries p = false) →
  tree_ok (map_set p e entries).
Proof.
  intros Hok Hp Hr Hd. apply tree_ok_put; [done..| |].
  - intros f. by apply requireParent_above.
  - intros He. apply hasDescendant_false, Hd, He.
Qed.

(** A file can be put at a path: nothing lies below it and no file above it. *)
Definition lands (entries : Entries) (p : string) : Prop :=
  (∀ q, has entries q → below p q = false) ∧ (∀ f, is_file_at entries f → below f p = false).
(** That is what keeps the tree. *)
Lemma lands_spec entries p h z m : tree_ok entries → tree_path p →
  tree_ok (map_set p (WorkingFile h z m) entries) ↔ lands entries p.
Proof.
  intros Hok Hp. split; [|intros [Hd Ha]; by apply tree_ok_put].
  intros [_ _ Ht]. unfold has, is_file_at in Ht. split; intros q Hq.
  - destruct (decide (q = p)) as [->|Hne]; [apply below_irrefl|].
    apply Ht; rewrite map_get_set; [by rewrite bool_decide_true|by rewrite bool_decide_false].
  - destruct (decide (q = p)) as [->|Hne]; [apply below_irrefl|].
    apply Ht; rewrite map_get_set; [by rewrite bool_decide_false|rewrite bool_decide_true by done; by eexists].
Qed.

Lemma mkdir_ok root path root' : root_ok root → mkdir root path = Ok root' → root_ok root'.
Proof.
  intros [He Hc] H. unfold mkdir in H. destruct (normalizeMutablePath path) as [p|] eqn:Hn; [|done].
  apply normalizeMutablePath_spec in Hn as [-> Hp]. cbn [mbind result_bind] in H.
  apply bind_unit in H as [Hr H]. apply bind_throw_if in H as [_ [= <-]]. split; [|done].
  by apply tree_ok_set.
Qed.
(** What [write] checks lets its file land on the tree it checked. *)
Lemma write_check_path root path p : write_check root path = Ok p → tree_path p.
Proof.
  unfold write_check. destruct (normalizeMutablePath path) as [q|] eqn:Hn; [|done].
  apply normalizeMutablePath_spec in Hn as [-> Hp]. intros H.
  apply bind_unit in H as [_ H]. by apply bind_throw_if in H as [_ [= <-]].
Qed.
Lemma write_check_lands root path p : tree_ok (fr_entries root) → write_check root path = Ok p → lands (fr_entries root) p.
Proof.
  intros Hok H. pose proof (write_check_path _ _ _ H) as Hp. unfold write_check in H.
  destruct (normalizeMutablePath path) as [q|]; [|done]. cbn [mbind result_bind] in H.
  apply bind_unit in H as [Hr H]. apply bind_throw_if in H as [Hd [= ->]]. apply orb_false_iff in Hd as [_ Hd].
  split; [by apply hasDescendant_false|]. intros f. by apply requireParent_above.
Qed.
Lemma write_ok root p stored : root_ok root → tree_path p →
  root_ok (write_set p stored root) ↔ lands (fr_entries root) p.
Proof. intros [He Hc] Hp. unfold root_ok. cbn. rewrite lands_spec by done. tauto. Qed.

(** ** Removing *)

Lemma map_get_filter (P : string → bool) entries p : map_wf entries →
  map_get p (filter (λ e : string * WorkingEntry, P (fst e) = true) entries) = if P p then map_get p entries else None.
Proof.
  intros Hwf. pose proof (filter_wf (λ e : string * WorkingEntry, P (fst e) = true) entries Hwf) as Hwf'.
  destruct (P p) eqn:Hp.
  - destruct (map_get p entries) as [e|] eqn:Hg.
    + apply map_get_iff; [done|]. apply list_elem_of_filter. split; [done|]. by apply map_get_elem.
    + apply map_get_None. apply map_get_None in Hg. intros (x & -> & [_ Hx]%list_elem_of_filter)%list_elem_of_fmap.
      apply Hg. apply list_elem_of_fmap. by exists x.
  - apply map_get_None. intros (x & -> & [Hx _]%list_elem_of_filter)%list_elem_of_fmap. congruence.
Qed.
Lemma map_get_delete k (entries : Entries) p : map_wf entries →
  map_get p (map_delete k entries) = if bool_decide (p = k) then None else map_get p entries.
Proof.
  intros Hwf. case_bool_decide as Hp.
  - apply map_get_None. intros (x & -> & [Hx _]%list_elem_of_filter)%list_elem_of_fmap. done.
  - destruct (map_get p entries) as [e|] eqn:Hg.
    + apply map_get_iff; [by apply map_delete_wf|]. apply map_delete_elem. split; [done|]. by apply map_get_elem.
    + apply map_get_None. apply map_get_None in Hg. intros (x & -> & [_ Hx]%list_elem_of_filter)%list_elem_of_fmap.
      apply Hg. apply list_elem_of_fmap. by exists x.
Qed.
Definition at_or_below (d p : string) : bool := bool_decide (p = d) || below d p.
Lemma remove_gets root path root' : root_ok root → remove root path = Ok root' →
  ∃ d, path = "/" +:+ d ∧ tree_path d ∧ map_wf (fr_entries root') ∧ fr_committedEntries root' = fr_committedEntries root
    ∧ ∀ p, map_get p (fr_entries root') = if at_or_below d p then None else map_get p (fr_entries root).
Proof.
  intros [He Hc] H. unfold remove in H. destruct (normalizeMutablePath path) as [d|] eqn:Hn; [|done].
  apply normalizeMutablePath_spec in Hn as [-> Hd]. cbn [mbind result_bind] in H. apply bind_throw_if in H as [_ [= <-]].
  cbn [with_entries fr_entries fr_committedEntries]. exists d. pose proof (map_delete_wf d _ (to_wf _ He)) as Hwf.
  split_and!; try done.
  - by apply filter_wf.
  - intros p. assert (filter (λ e : string * WorkingEntry, below d (fst e) = false) (map_delete d (fr_entries root))
      = filter (λ e : string * WorkingEntry, negb (below d (fst e)) = true) (map_delete d (fr_entries root))) as ->.
    { apply list_filter_iff. intros e. by rewrite negb_true_iff. }
    rewrite (map_get_filter (λ q, negb (below d q))) by done. rewrite map_get_delete by apply He.
    unfold at_or_below. case_bool_decide; destruct (below d p); done.
Qed.
Lemma remove_ok root path root' : root_ok root → remove root path = Ok root' → root_ok root'.
Proof.
  intros Hok Hr. destruct (remove_gets _ _ _ Hok Hr) as (d & -> & Hd & Hwf & Hc & Hg). destruct Hok as [He Hce].
  split; [|by rewrite Hc]. eapply tree_ok_from; [exact He|done|]. intros p e. rewrite Hg. by case_match.
Qed.

(** ** Moving and copying *)

(** Where the entry at [p] comes from when the tree at [source] is placed at
    [target]. *)
Definition placed_from (source target p : string) : option string :=
  if bool_decide (p = target) then Some source
  else if below target p then Some (source +:+ str_drop (String.length target) p) else None.

Section fold_set.
Context (g : string → string).
Notation fold_set := (foldl (λ (m : Entries) e, map_set (g (fst e)) (snd e) m)).
Lemma fold_set_other l m p : (∀ e, e ∈ l → g (fst e) ≠ p) → map_get p (fold_set m l) = map_get p m.
Proof.
  revert m. induction l as [|e l IH]; intros m Hl; [done|]. cbn [foldl].
  rewrite IH by (intros x Hx; apply Hl; by right). rewrite map_get_set, bool_decide_false; [done|]. apply Hl. left.
Qed.
Lemma fold_set_at l m e : NoDup ((λ e, g (fst e)) <$> l) → e ∈ l → map_get (g (fst e)) (fold_set m l) = Some (snd e).
Proof.
  revert m. induction l as [|x l IH]; intros m Hnd; [by intros ?%elem_of_nil|]. rewrite fmap_cons in Hnd.
  apply NoDup_cons in Hnd as [Hn Hnd]. intros [->|He]%elem_of_cons; [|by apply IH]. cbn [foldl].
  rewrite fold_set_other.
  - by rewrite map_get_set, bool_decide_true.
  - intros y Hy Heq. apply Hn. apply list_elem_of_fmap. by exists y.
Qed.
Lemma fold_set_wf l m : map_wf m → map_wf (fold_set m l).
Proof. revert m. induction l as [|x l IH]; intros m Hm; [done|]. apply IH. by apply map_set_wf. Qed.
End fold_set.
Lemma fold_delete_get (l : Entries) (m : Entries) p : map_wf m →
  map_wf (foldl (λ m e, map_delete (fst e) m) m l)
  ∧ map_get p (foldl (λ m e, map_delete (fst e) m) m l)
    = if bool_decide (p ∈ (fst <$> l)) then None else map_get p m.
Proof.
  revert m. induction l as [|e l IH]; intros m Hm.
  - split; [done|]. rewrite bool_decide_false; [done|]. apply not_elem_of_nil.
  - cbn [foldl]. destruct (IH _ (map_delete_wf (fst e) m Hm)) as [Hwf ->]. split; [done|].
    rewrite map_get_delete by done. rewrite fmap_cons. repeat case_bool_decide; try done; set_solver.
Qed.

Lemma below_split d p : below d p = true → p = d +:+ str_drop (String.length d) p
  ∧ ∃ t, str_drop (String.length d) p = "/" +:+ t.
Proof. intros [t ->]%below_spec. rewrite str_drop_app. by eauto. Qed.
Lemma below_app d t : below d (d +:+ "/" +:+ t) = true.
Proof. apply below_spec. by exists t. Qed.

Record placed (entries : Entries) (s t : string) : Prop := {
  pl_source : tree_path s;
  pl_target : tree_path t;
  pl_there : ∃ q, has entries q ∧ at_or_below s q = true;
  pl_apart : at_or_below s t = false;
  pl_parent : requireParent entries t = Ok tt;
  pl_free : ∀ q, has entries q → at_or_below t q = false
}.
(** The descendants of [s], each under its new path. *)
Section place.
Context (entries : Entries) (s t : string).
Notation desc := (filter (λ e : string * WorkingEntry, below s (fst e) = true) entries).
Notation moved := (λ q, t +:+ str_drop (String.length s) q).
Notation placing m := (foldl (λ (m : Entries) (e : string * WorkingEntry), map_set (moved (fst e)) (snd e) m) m desc).
Context (Hwf : map_wf entries) (Hnt : ¬ has entries t) (Hnd : ∀ q, has entries q → below t q = false).

Lemma descendants_elem q e : (q, e) ∈ desc ↔ below s q = true ∧ map_get q entries = Some e.
Proof. rewrite list_elem_of_filter. cbn [fst]. by rewrite map_get_iff. Qed.
Lemma descendants_keys q : q ∈ (fst <$> desc) ↔ below s q = true ∧ has entries q.
Proof.
  rewrite list_elem_of_fmap. split.
  - intros ([x ex] & -> & [? ?]%descendants_elem). split; [done|by exists ex].
  - intros [Hb [x Hx]]. exists (q, x). split; [done|]. by apply descendants_elem.
Qed.
Lemma moved_distinct : NoDup ((λ e : string * WorkingEntry, moved (fst e)) <$> desc).
Proof.
  apply NoDup_fmap_2_strong.
  - intros [x ex] [y ey] Hx Hy Hxy. cbn [fst] in Hxy. apply (inj (String.append t)) in Hxy.
    apply descendants_elem in Hx as [Hbx Hx], Hy as [Hby Hy]. apply below_split in Hbx as [Hbx _], Hby as [Hby _].
    assert (x = y) as -> by (rewrite Hbx, Hby; by f_equal). congruence.
  - apply (NoDup_fmap_1 fst). by apply filter_wf.
Qed.
Lemma placing_gets m1 p : (∀ p, map_get p m1 = if bool_decide (p = t) then map_get s entries else map_get p entries) →
  map_get p (placing m1) = match placed_from s t p with Some q => map_get q entries | None => map_get p entries end.
Proof.
  intros Hm1. unfold placed_from. destruct (below t p) eqn:Hbp.
  - rewrite bool_decide_false by (intros ->; by rewrite below_irrefl in Hbp).
    destruct (below_split _ _ Hbp) as [Hp [r Hr]]. rewrite Hr in *.
    destruct (map_get (s +:+ "/" +:+ r) entries) as [e|] eqn:He.
    + assert ((s +:+ "/" +:+ r, e) ∈ desc) as Hin by (apply descendants_elem; split; [apply below_app|done]).
      pose proof (fold_set_at moved _ m1 _ moved_distinct Hin) as Hg. cbn [fst snd] in Hg.
      rewrite str_drop_app in Hg. by rewrite Hp.
    + rewrite (fold_set_other moved).
      * rewrite Hm1, bool_decide_false by (intros ->; by rewrite below_irrefl in Hbp).
        destruct (map_get p entries) eqn:Hp'; [|done]. rewrite (Hnd p) in Hbp; [done|by eexists].
      * intros [q eq] [Hbq Hq]%descendants_elem. cbn [fst]. apply below_split in Hbq as [Hbq _]. rewrite Hp.
        intros Hqr%(inj (String.append t)). rewrite Hbq, Hqr in Hq. congruence.
  - rewrite (fold_set_other moved); [rewrite Hm1; by case_bool_decide|].
    intros [q eq] [Hbq Hq]%descendants_elem. cbn [fst]. apply below_split in Hbq as [_ [r ->]]. intros <-.
    by rewrite below_app in Hbp.
Qed.
(** What is placed is not deleted with the source. *)
Lemma removing_gets m2 p : map_wf m2 → at_or_below s t = false → (∃ q, has entries q ∧ at_or_below s q = true) →
  (∀ p, map_get p m2 = match placed_from s t p with Some q => map_get q entries | None => map_get p entries end) →
  map_get p (foldl (λ (m : Entries) e, map_delete (fst e) m) (map_delete s m2) desc)
  = match placed_from s t p with
    | Some q => map_get q entries
    | None => if at_or_below s p then None else map_get p entries
    end.
Proof.
  intros Hwf2 Hst (d & Hd & Hsd) Hm2.
  destruct (fold_delete_get desc (map_delete s m2) p) as [_ ->]; [by apply map_delete_wf|].
  rewrite map_get_delete, Hm2 by done. unfold placed_from, at_or_below in *.
  apply orb_false_iff in Hst as [Hst1%bool_decide_eq_false Hst2].
  assert (below t s = false) as Hts.
  { apply not_true_is_false. intros Hts. specialize (Hnd d Hd).
    apply orb_true_iff in Hsd as [Hsd%bool_decide_eq_true|Hsd]; [congruence|]. by rewrite (below_trans _ _ _ Hts Hsd) in Hnd. }
  clear d Hd Hsd. case_bool_decide as Hin.
  - apply descendants_keys in Hin as [Hb Hh]. rewrite Hnd, Hb, orb_true_r by done.
    rewrite bool_decide_false; [done|]. intros ->. done.
  - destruct (decide (p = s)) as [->|Hps].
    + rewrite (bool_decide_true (s = s)), Hts by done. rewrite bool_decide_false by congruence. done.
    + rewrite (bool_decide_false (p = s)) by done. cbn [orb]. case_bool_decide; [done|]. destruct (below t p); [done|].
      destruct (below s p) eqn:Hb; [|done]. destruct (map_get p entries) eqn:Hp; [|done]. exfalso. apply Hin, descendants_keys.
      split; [done|by eexists].
Qed.
End place.

Lemma moveOrCopy_gets entries from to b entries' :
  map_wf entries → moveOrCopy entries from to b = Ok entries' →
  ∃ s t, from = "/" +:+ s ∧ to = "/" +:+ t ∧ placed entries s t ∧ map_wf entries'
    ∧ ∀ p, map_get p entries' = match placed_from s t p with
                                | Some q => map_get q entries
                                | None => if b && at_or_below s p then None else map_get p entries
                                end.
Proof.
  intros Hwf H. unfold moveOrCopy in H.
  destruct (normalizeMutablePath from) as [s|] eqn:Hs; [|done]. cbn [mbind result_bind] in H.
  destruct (normalizeMutablePath to) as [t|] eqn:Ht; [|done]. cbn [mbind result_bind] in H.
  apply normalizeMutablePath_spec in Hs as [-> Hs], Ht as [-> Ht].
  apply bind_throw_if in H as [Hthere H]. apply bind_throw_if in H as [Hapart H]. apply bind_unit in H as [Hparent H].
  apply bind_throw_if in H as [Hfree H]. apply orb_false_iff in Hfree as [Hnt Hnd]. rewrite hasDescendant_false in Hnd.
  assert (¬ has entries t) as Hnt' by (intros ?%map_has_has; congruence).
  assert (∃ q, has entries q ∧ at_or_below s q = true) as Hsource.
  { unfold at_or_below. destruct (map_get s entries) as [e|] eqn:He.
    - exists s. split; [by exists e|]. by rewrite bool_decide_true.
    - apply bool_decide_eq_false in Hthere. destruct (filter _ _) as [|[q e] l] eqn:Hd; [done|].
      destruct (descendants_elem entries s Hwf q e) as [[Hb Hq] _]; [rewrite Hd; left|].
      exists q. split; [by exists e|]. by rewrite Hb, orb_true_r. }
  exists s, t. split_and!; try done.
  { split; try done. intros q Hq. unfold at_or_below. rewrite (Hnd q Hq), orb_false_r. apply bool_decide_eq_false. by intros ->. }
  all: injection H as <-; set (m1 := match map_get s entries with Some e => map_set t e entries | None => entries end).
  all: assert (map_wf m1) as Hwf1 by (unfold m1; case_match; [by apply map_set_wf|done]).
  - pose proof (fold_set_wf (λ q, t +:+ str_drop (String.length s) q)
      (filter (λ e : string * WorkingEntry, below s (fst e) = true) entries) m1 Hwf1) as Hwf2.
    destruct b; [|done]. by apply (fold_delete_get _ _ EmptyString), map_delete_wf.
  - assert (∀ p, map_get p m1 = if bool_decide (p = t) then map_get s entries else map_get p entries) as Hm1.
    { intros p. unfold m1. destruct (map_get s entries) as [e|] eqn:He.
      - rewrite map_get_set. repeat case_bool_decide; congruence.
      - destruct (bool_decide_reflect (p = t)) as [->|]; [|done]. destruct (map_get t entries) as [x|] eqn:Hgt; [|done]. destruct Hnt'. by exists x. }
    intros p. destruct b; cbn [andb].
    + apply removing_gets; try done; [by apply (fold_set_wf (λ q, t +:+ str_drop (String.length s) q))|].
      intros q. by apply placing_gets.
    + by apply placing_gets.
Qed.

Lemma placed_from_spec s t p q : placed_from s t p = Some q ↔
  (p = t ∧ q = s) ∨ ∃ r, p = t +:+ "/" +:+ r ∧ q = s +:+ "/" +:+ r.
Proof.
  unfold placed_from. destruct (bool_decide_reflect (p = t)) as [->|Hp].
  - split; [intros [= ->]; by left|]. intros [[_ ->]|(r & Hr & _)]; [done|]. exfalso.
    pose proof (below_app t r) as Hb. rewrite <- Hr in Hb. by rewrite below_irrefl in Hb.
  - split.
    + destruct (below t p) eqn:Hb; [|done]. intros [= <-]. right. destruct (below_split _ _ Hb) as [Hp' [r Hr]].
      exists r. by rewrite <- Hr.
    + intros [[-> _]|(r & -> & ->)]; [done|]. by rewrite below_app, str_drop_app.
Qed.
Lemma placed_from_None s t p : placed_from s t p = None ↔ at_or_below t p = false.
Proof. unfold placed_from, at_or_below. repeat case_match; naive_solver. Qed.

Lemma below_places s t f p f' p' : placed_from s t f = Some f' → placed_from s t p = Some p' → below f p = below f' p'.
Proof.
  intros Hf Hp. apply placed_from_spec in Hf, Hp.
  assert (∀ a : string, a = a +:+ EmptyString) as Hnil by (intros a; apply (inj chars); by rewrite chars_app, app_nil_r).
  assert (∃ x y, f = t +:+ x ∧ f' = s +:+ x ∧ p = t +:+ y ∧ p' = s +:+ y) as (x & y & -> & -> & -> & ->).
  { destruct Hf as [[-> ->]|(r & -> & ->)], Hp as [[-> ->]|(r' & -> & ->)];
      [exists EmptyString, EmptyString|exists EmptyString, ("/" +:+ r')|exists ("/" +:+ r), EmptyString|exists ("/" +:+ r), ("/" +:+ r')];
      split_and!; done || apply Hnil. }
  apply eq_true_iff_eq. split; intros [t0 Ht]%below_spec; rewrite <- (assoc_L String.append) in Ht;
    apply (inj (String.append _)) in Ht as ->; apply below_spec; exists t0; by rewrite <- (assoc_L String.append).
Qed.
Lemma moveOrCopy_ok entries from to b entries' :
  tree_ok entries → moveOrCopy entries from to b = Ok entries' → tree_ok entries'.
Proof.
  intros Hok H. destruct (moveOrCopy_gets _ _ _ _ _ (to_wf _ Hok) H) as (s & t & -> & -> & [Hs Ht Hthere Hapart Hparent Hfree] & Hwf & Hg).
  assert (∀ p, has entries' p → match placed_from s t p with Some q => has entries q | None => has entries p end) as Hhas.
  { intros p. unfold has. rewrite Hg. destruct (placed_from s t p); [done|]. case_match; [by intros []|done]. }
  assert (∀ p, is_file_at entries' p → match placed_from s t p with Some q => is_file_at entries q | None => is_file_at entries p end) as Hfile.
  { intros p. unfold is_file_at. rewrite Hg. destruct (placed_from s t p); [done|]. by case_match. }
  split; [done| |].
  - intros p Hp. specialize (Hhas p Hp). destruct (placed_from s t p) as [q|] eqn:Hq; [|by apply Hok].
    apply placed_from_spec in Hq as [[-> _]|(r & -> & ->)]; [done|]. apply tree_path_below. split; [done|].
    apply (to_paths _ Hok), tree_path_below in Hhas as [_ ?]. done.
  - intros f p Hf Hp. specialize (Hhas p Hp). specialize (Hfile f Hf).
    destruct (placed_from s t f) as [f'|] eqn:Hf', (placed_from s t p) as [p'|] eqn:Hp'.
    + rewrite (below_places _ _ _ _ _ _ Hf' Hp'). by apply Hok.
    + apply not_true_is_false. intros Hb. apply placed_from_None in Hp'. unfold at_or_below in Hp'.
      apply orb_false_iff in Hp' as [_ Hp']. apply placed_from_spec in Hf' as [[-> _]|(r & -> & _)]; [congruence|].
      by rewrite (below_trans _ _ _ (below_app t r) Hb) in Hp'.
    + assert (below f t = false) as Hft by by eapply requireParent_above.
      apply not_true_is_false. intros Hb. pose proof (is_file_has _ _ Hfile) as Hhf. specialize (Hfree f Hhf).
      unfold at_or_below in Hfree. apply orb_false_iff in Hfree as [Hne%bool_decide_eq_false Hnb].
      assert (p = t ∨ below t p = true) as Hpt.
      { apply placed_from_spec in Hp' as [[-> _]|(r & -> & _)]; [by left|right; apply below_app]. }
      destruct (below_compare f t p Hb Hpt) as [?|[?|?]]; congruence.
    + by apply Hok.
Qed.

(** C27: moving or copying a tree places exactly it: what was at the source and below is
    at the target and below, nothing else is there, what was elsewhere stays, and
    nothing is left at the source of a move. It is done only where the source is
    there, the target is free, outside the source, and under a directory. *)
Theorem moveOrCopy_places entries from to removeSource entries' :
  map_wf entries → moveOrCopy entries from to removeSource = Ok entries' →
  ∃ s t, from = "/" +:+ s ∧ to = "/" +:+ t ∧ placed entries s t
    ∧ map_get t entries' = map_get s entries
    ∧ (∀ r, map_get (t +:+ "/" +:+ r) entries' = map_get (s +:+ "/" +:+ r) entries)
    ∧ ∀ p, at_or_below t p = false →
        map_get p entries' = if removeSource && at_or_below s p then None else map_get p entries.
Proof.
  intros Hwf H. destruct (moveOrCopy_gets _ _ _ _ _ Hwf H) as (s & t & -> & -> & Hpl & _ & Hg).
  exists s, t. split_and!; try done.
  - rewrite Hg. by rewrite (proj2 (placed_from_spec s t t s)) by auto.
  - intros r. rewrite Hg. rewrite (proj2 (placed_from_spec s t _ (s +:+ "/" +:+ r))); [done|]. right. by exists r.
  - intros p Hp. rewrite Hg. by rewrite (proj2 (placed_from_None s t p) Hp).
Qed.

(** * Listing *)

(** The child of [directory] with this name. *)
Definition child (directory name : string) : string :=
  if bool_decide (directory = EmptyString) then name else directory +:+ "/" +:+ name.
Definition segment_ok (name : string) : Prop := name ≠ EmptyString ∧ "/"%char ∉ chars name.

(** What an entry adds to the listing below a prefix. *)
Definition contributes (prefix : string) (e : string * WorkingEntry) : option (string * WorkingEntry) :=
  if negb (startsWith (fst e) prefix) then None
  else
    let remainder := str_drop (String.length prefix) (fst e) in
    if strlen remainder =? 0 then None
    else match index_of "/"%char (chars remainder) with
         | None => Some (prefix +:+ remainder, snd e)
         | Some separator => Some (prefix +:+ str_take separator remainder, WorkingDirectory)
         end.
Lemma add_children prefix (entries children : Entries) :
  foldl (add_child prefix) children entries
  = foldl (λ (m : Entries) e, map_set (fst e) (snd e) m) children (omap (contributes prefix) entries).
Proof.
  revert children. induction entries as [|e entries IH]; intros children; [done|]. cbn [foldl omap list_omap].
  rewrite IH. unfold add_child, contributes. by repeat (case_match; try done).
Qed.
(** Entries that agree where they have the same key make the map they list. *)
Lemma map_of_agreeing (l : Entries) k v : (∀ k v v', (k, v) ∈ l → (k, v') ∈ l → v = v') →
  map_get k (map_of l) = Some v ↔ (k, v) ∈ l.
Proof.
  unfold map_of. intros Hag. assert (map_get k (foldl (λ m e, map_set (fst e) (snd e) m) [] l) = Some v
    ↔ (k, v) ∈ l ∨ (∀ v', (k, v') ∉ l) ∧ map_get k ([] : Entries) = Some v) as ->; [|naive_solver].
  revert Hag. generalize ([] : Entries). induction l as [|[k0 v0] l IH]; intros m Hag.
  - split; [intros ?; right; split; [intros ? ?%elem_of_nil; done|done]|]. by intros [?%elem_of_nil|[_ ?]].
  - cbn [foldl fst snd]. rewrite IH by (intros ? ? ? ? ?; eapply Hag; by right). rewrite map_get_set.
    setoid_rewrite elem_of_cons. split.
    + intros [Hin|[Hn Hm]]; [left; by right|]. case_bool_decide as Hk; [injection Hm as ->; subst; left; by left|].
      right. split; [|done]. intros v' [[= -> _]|Hv']; [done|]. by apply (Hn v').
    + intros [[[= -> ->]|Hin]|[Hn Hm]].
      * destruct (decide ((k0, v0) ∈ l)) as [|Hn]; [by left|]. right. split; [|by rewrite bool_decide_true].
        intros v' Hv'. apply Hn. by rewrite (Hag k0 v0 v' ltac:(left) ltac:(by right)).
      * by left.
      * right. split; [intros v' Hv'; apply (Hn v'); by right|]. rewrite bool_decide_false; [done|].
        intros ->. apply (Hn v0). by left.
Qed.

Lemma index_of_Some c l i : index_of c l = Some i → l = take i l ++ c :: drop (S i) l ∧ c ∉ take i l.
Proof.
  revert i. induction l as [|x l IH]; intros i; cbn [index_of]; [done|]. case_decide as Hx.
  - intros [= <-]. cbn. rewrite drop_0. subst. split; [done|apply not_elem_of_nil].
  - destruct (index_of c l) as [j|] eqn:Hj; [|done]. intros [= <-]. destruct (IH j eq_refl) as [H1 H2].
    cbn [take drop app]. split; [by f_equal|]. apply not_elem_of_cons. split; [by intros ->|done].
Qed.
Lemma index_of_None c l : index_of c l = None ↔ c ∉ l.
Proof.
  induction l as [|x l IH]; cbn [index_of]; [split; [intros _; apply not_elem_of_nil|done]|].
  rewrite not_elem_of_cons. case_decide as Hx; [split; [done|by intros [? _]]|].
  destruct (index_of c l); cbn; naive_solver.
Qed.

Definition dir_prefix (d : string) : string := if bool_decide (d = EmptyString) then EmptyString else d +:+ "/".
Lemma child_prefix d name : child d name = dir_prefix d +:+ name.
Proof. unfold child, dir_prefix. case_bool_decide; [done|]. by rewrite (assoc_L String.append). Qed.
Lemma contributes_spec d p x k e : tree_path p →
  contributes (dir_prefix d) (p, x) = Some (k, e) ↔
    ∃ name, segment_ok name ∧ k = child d name ∧ ((p = k ∧ e = x) ∨ (below k p = true ∧ e = WorkingDirectory)).
Proof.
  intros Hp. unfold contributes. cbn [fst snd]. pose proof (child_prefix d) as Hchild.
  remember (dir_prefix d) as prefix eqn:Hprefix. setoid_rewrite Hchild.
  destruct (startsWith p prefix) eqn:Hst; cbn [negb].
  2:{ split; [done|]. intros (name & _ & -> & H). exfalso. revert Hst. apply not_false_iff_true, startsWith_app.
      destruct H as [[-> _]|[[t ->]%below_spec _]]; [by exists name|]. exists (name +:+ "/" +:+ t).
      by rewrite <- (assoc_L String.append). }
  apply startsWith_app in Hst as [rem ->]. rewrite str_drop_app.
  destruct (Z.eqb_spec (strlen rem) 0) as [Hz|Hz].
  { assert (rem = EmptyString) as -> by (destruct rem; [done|unfold strlen in Hz; simpl in Hz; lia]).
    split; [done|]. intros (name & [Hne _] & -> & H). exfalso. destruct H as [[H _]|[[t H]%below_spec _]].
    - apply (inj (String.append prefix) EmptyString name) in H. by subst.
    - rewrite <- (assoc_L String.append) in H. apply (inj (String.append prefix) EmptyString) in H. destruct name; done. }
  assert (∀ t, rem = EmptyString +:+ "/" +:+ t → False) as Hstart.
  { intros t ->. rewrite Hprefix in Hp. unfold dir_prefix in Hp. case_bool_decide.
    - destruct (good_segments_ends _ (tp_segments _ Hp)) as (Hs & _ & _). revert Hs. apply not_false_iff_true, startsWith_app. by eexists.
    - rewrite <- (assoc_L String.append) in Hp. apply tree_path_below in Hp as [_ Hp].
      destruct (good_segments_ends _ (tp_segments _ Hp)) as (Hs & _ & _). revert Hs. apply not_false_iff_true, startsWith_app. by eexists. }
  destruct (index_of "/"%char (chars rem)) as [i|] eqn:Hi.
  - apply index_of_Some in Hi as [Hrem Hni].
    assert (rem = str_take i rem +:+ "/" +:+ of_chars (drop (S i) (chars rem))) as Hsplit.
    { apply (inj chars). rewrite !chars_app. unfold str_take. by rewrite !chars_of_chars. }
    assert (segment_ok (str_take i rem)) as Hseg.
    { split; [intros He; rewrite He in Hsplit; by eapply Hstart|]. unfold str_take. by rewrite chars_of_chars. }
    split.
    + intros [= <- <-]. exists (str_take i rem). split_and!; [done|done|]. right. split; [|done].
      apply below_spec. exists (of_chars (drop (S i) (chars rem))). rewrite <- (assoc_L String.append). by f_equal.
    + intros (name & [Hne Hn] & -> & [[H _]|[H ->]]).
      * apply (inj (String.append prefix)) in H as ->. exfalso. apply Hn. rewrite Hrem. apply elem_of_app. right. left.
      * apply below_spec in H as [t H]. rewrite <- (assoc_L String.append) in H. apply (inj (String.append prefix)) in H.
        apply (f_equal chars) in H. rewrite Hrem, !chars_app in H.
        assert (take i (chars rem) = chars name) as Hname.
        { destruct (app_sep_compare "/"%char _ _ _ _ H) as [He|[[u Hu]|[u Hu]]]; [done| |]; exfalso.
          - apply Hn. rewrite Hu. apply elem_of_app. right. left.
          - apply Hni. rewrite Hu. apply elem_of_app. right. left. }
        unfold str_take. by rewrite Hname, of_chars_chars.
  - apply index_of_None in Hi. split.
    + intros [= <- <-]. exists rem. split_and!; [|done|by left]. split; [by intros ->|done].
    + intros (name & [Hne Hn] & -> & [[H ->]|[H _]]).
      * by apply (inj (String.append prefix)) in H as ->.
      * exfalso. apply below_spec in H as [t H]. rewrite <- (assoc_L String.append) in H. apply (inj (String.append prefix)) in H as ->.
        apply Hi. rewrite chars_app. apply elem_of_app. right. left.
Qed.

Definition listing (root : FileRoot) (d : string) : Entries :=
  foldl (add_child (dir_prefix d)) [] (fr_entries root).
Lemma listing_spec root d k e : tree_ok (fr_entries root) →
  map_get k (listing root d) = Some e ↔
    (∃ name, segment_ok name ∧ k = child d name)
    ∧ (map_get k (fr_entries root) = Some e ∨ (hasDescendant (fr_entries root) k = true ∧ e = WorkingDirectory)).
Proof.
  intros Hok. unfold listing. rewrite add_children.
  assert (∀ k e, (k, e) ∈ omap (contributes (dir_prefix d)) (fr_entries root) ↔
    (∃ name, segment_ok name ∧ k = child d name)
    ∧ (map_get k (fr_entries root) = Some e ∨ (hasDescendant (fr_entries root) k = true ∧ e = WorkingDirectory))) as Hin.
  { clear k e. intros k e. rewrite list_elem_of_omap, hasDescendant_spec. split.
    - intros ([p x] & Hpx & Hc). apply (map_get_iff _ _ _ (to_wf _ Hok)) in Hpx as Hg.
      apply contributes_spec in Hc as (name & Hseg & -> & Hcase); [|apply (to_paths _ Hok); by exists x].
      split; [by exists name|]. destruct Hcase as [[-> ->]|[Hb ->]]; [by left|]. right. split; [|done]. exists p.
      split; [by exists x|done].
    - intros ((name & Hseg & ->) & Hcase).
      assert (∃ p x, map_get p (fr_entries root) = Some x ∧
        ((p = child d name ∧ e = x) ∨ (below (child d name) p = true ∧ e = WorkingDirectory))) as (p & x & Hp & Hcase').
      { destruct Hcase as [He|[(q & [x Hx] & Hb) ->]]; [exists (child d name), e|exists q, x]; naive_solver. }
      exists (p, x). split; [by apply map_get_elem|]. apply contributes_spec; [apply (to_paths _ Hok); by exists x|]. by exists name. }
  rewrite <- Hin. apply map_of_agreeing. clear k e. intros k e e' [_ H1]%Hin [_ H2]%Hin.
  assert (∀ x, map_get k (fr_entries root) = Some x → hasDescendant (fr_entries root) k = true → x = WorkingDirectory) as Hdir.
  { intros x Hx (q & Hq & Hb)%hasDescendant_spec. destruct x as [|h z m]; [done|].
    assert (is_file_at (fr_entries root) k) as Hf by (unfold is_file_at; by rewrite Hx). by rewrite (to_tree _ Hok _ _ Hf Hq) in Hb. }
  destruct H1 as [H1|[H1 ->]], H2 as [H2|[H2 ->]]; try done; [congruence|by apply Hdir|symmetry; by apply Hdir].
Qed.
Lemma listing_wf root d : map_wf (listing root d).
Proof. unfold listing. rewrite add_children. apply map_of_wf. Qed.

Lemma stat_spec root path s : stat root path = Ok s ↔
  (path = "/" ∧ s = mkFileStat "/" "/" StatDirectory)
  ∨ ∃ p, path = "/" +:+ p ∧ tree_path p ∧ ∃ e, s = toStat p e ∧
      (map_get p (fr_entries root) = Some e
       ∨ (map_get p (fr_entries root) = None ∧ hasDescendant (fr_entries root) p = true ∧ e = WorkingDirectory)).
Proof.
  unfold stat. destruct (normalizePath path) as [p|] eqn:Hn; cbn [mbind result_bind].
  - apply normalizePath_spec in Hn. destruct (bool_decide_reflect (p = EmptyString)) as [->|Hp].
    + destruct Hn as [[-> _]|[_ Hp]]; [|by destruct (good_segments_ends _ (tp_segments _ Hp)) as (_ & _ & ?)]. split.
      * intros [= <-]. by left.
      * intros [[_ ->]|(p & Hp & Htp & _)]; [done|]. apply (inj (String.append "/") EmptyString p) in Hp. subst p.
        by destruct (good_segments_ends _ (tp_segments _ Htp)) as (_ & _ & ?).
    + destruct Hn as [[_ ?]|[-> Htp]]; [done|]. split.
      * intros H. right. exists p. split_and!; [done..|]. destruct (map_get p (fr_entries root)) as [e|]; [|destruct (hasDescendant _ p)];
          [injection H as <-; eauto|injection H as <-; exists WorkingDirectory; eauto|done].
      * intros [[Hc _]|(q & Hq & _ & e & -> & H)]; [by apply (inj (String.append "/") p EmptyString) in Hc|].
        apply (inj (String.append "/")) in Hq as ->. by destruct H as [->|(-> & -> & ->)].
  - split; [done|]. intros H. exfalso. destruct H as [[-> _]|(p & -> & Hp & _)].
    + by rewrite (proj2 (normalizePath_spec "/" EmptyString)) in Hn by auto.
    + by rewrite (proj2 (normalizePath_spec ("/" +:+ p) p)) in Hn by auto.
Qed.

Lemma toStat_path p e : st_path (toStat p e) = "/" +:+ p.
Proof. done. Qed.

(** C28: the listing of a directory shows each of its direct children once, as [stat]
    describes it, and nothing else: the directories that are only implied by the
    paths below them too. It succeeds exactly on directories, and comes in the
    order of [compareStats]. *)
Theorem readdir_lists {L : Locale} root path :
  tree_ok (fr_entries root) →
  (∀ l, readdir root path = Ok l →
     ∃ d, normalizePath path = Ok d
       ∧ (∀ s, s ∈ l ↔ ∃ name, segment_ok name ∧ stat root ("/" +:+ child d name) = Ok s)
       ∧ NoDup (st_path <$> l)
       ∧ ((∀ x y z, compareStats x y ≤ 0 → compareStats y z ≤ 0 → compareStats x z ≤ 0) →
          (∀ x y, 0 < compareStats x y → compareStats y x ≤ 0) →
          StronglySorted (λ x y, compareStats x y ≤ 0) l))
  ∧ ((∃ l, readdir root path = Ok l) ↔ ∃ s, stat root path = Ok s ∧ stat_is_directory s = true).
Proof.
  intros Hok.
  assert (∀ l, readdir root path = Ok l ↔ ∃ d s, normalizePath path = Ok d ∧ stat root path = Ok s
    ∧ stat_is_directory s = true ∧ l = js_sort compareStats ((λ e, toStat (fst e) (snd e)) <$> listing root d)) as Hrun.
  { intros l. unfold readdir, listing, dir_prefix. destruct (normalizePath path) as [d|]; cbn [mbind result_bind]; [|naive_solver].
    destruct (stat root path) as [s|]; cbn [mbind result_bind]; [|naive_solver].
    rewrite bind_throw_if, negb_false_iff. naive_solver. }
  split.
  - intros l (d & s0 & Hn & _ & _ & ->)%Hrun. exists d. split_and!; [done| | |by intros; apply js_sort_sorted].
    + intros s. rewrite js_sort_Permutation, list_elem_of_fmap. split.
      * intros ([k e] & -> & Hin). cbn [fst snd]. apply (map_get_iff _ _ _ (listing_wf root d)), (listing_spec _ _ _ _ Hok) in Hin as ((name & Hseg & ->) & H).
        exists name. split; [done|]. apply stat_spec. right. exists (child d name).
        assert (tree_path (child d name)) as Htp.
        { destruct H as [H|[(q & Hq & Hb)%hasDescendant_spec _]]; [apply (to_paths _ Hok); by exists e|].
          apply (to_paths _ Hok) in Hq. apply below_spec in Hb as [t ->]. by apply tree_path_below in Hq as [? _]. }
        split_and!; [done..|]. destruct H as [H|[H ->]]; [by eauto|].
        destruct (map_get (child d name) (fr_entries root)) as [e|] eqn:He; [|by eauto 6]. exists e. split; [|by left]. f_equal.
        destruct e as [|h z m]; [done|]. apply hasDescendant_spec in H as (q & Hq & Hb).
        assert (is_file_at (fr_entries root) (child d name)) as Hf by (unfold is_file_at; by rewrite He).
        by rewrite (to_tree _ Hok _ _ Hf Hq) in Hb.
      * intros (name & Hseg & H). apply stat_spec in H as [[Hc _]|(p & Hp & Htp & e & -> & H)].
        { exfalso. apply (inj (String.append "/") (child d name) EmptyString) in Hc. destruct Hseg as [Hne _]. unfold child in Hc.
          case_bool_decide; [done|]. by destruct d. }
        apply (inj (String.append "/")) in Hp as <-. exists (child d name, e). split; [done|]. apply map_get_elem, (listing_spec _ _ _ _ Hok).
        split; [by exists name|]. destruct H as [H|(_ & H & ->)]; auto.
    + rewrite js_sort_Permutation. rewrite <- list_fmap_compose.
      replace ((λ x : string * WorkingEntry, (st_path ∘ (λ e, toStat (fst e) (snd e))) x) <$> listing root d)
        with (String.append "/" <$> (fst <$> listing root d)) by (rewrite <- list_fmap_compose; done).
      apply NoDup_fmap_2; [apply _|apply listing_wf].
  - split.
    + intros (l & (d & s & _ & Hs & Hd & _)%Hrun). by exists s.
    + intros (s & Hs & Hd). destruct (normalizePath path) as [d|] eqn:Hn.
      * eexists. apply Hrun. by exists d, s.
      * unfold stat in Hs. by rewrite Hn in Hs.
Qed.
