(* ===== verification/FileSafe.v ===== *)
(** What the file client promises: its operations keep the tree, a tree within the
    limits can always be committed, and what was committed is what is opened. *)
From Stdlib Require Import Ascii.
From stdpp Require Import sorting.
From S2P Require Import Prelude Js JsString JsMap JsonText Errors Safe Codec BlobIndex.
From S2P Require Import NodeContent.
From S2P Require Import Validation CanonicalStream BlobClient FileManifest FileClient FileTree.

(** * The manifest of a tree *)

Definition sorted_of (entries : Entries) : Entries :=
  js_sort (λ left right, compareFileManifestPaths (fst left) (fst right)) entries.
Definition file_entries (entries : Entries) : Entries :=
  filter (λ e : string * WorkingEntry, is_working_file (Some (snd e)) = true) entries.

Lemma manifest_paths entries : ∀ r, entry_path <$> fst (manifest_entries r entries) = fst <$> entries.
Proof.
  induction entries as [|[p [|h z m]] entries IH]; intros r; cbn [manifest_entries]; [done|..].
  - specialize (IH r). destruct (manifest_entries r entries). cbn in *. by rewrite IH.
  - specialize (IH (r + 1)). destruct (manifest_entries (r + 1) entries). cbn in *. by rewrite IH.
Qed.
Lemma manifest_files entries : ∀ r, file_paths (fst (manifest_entries r entries)) = fst <$> file_entries entries.
Proof.
  induction entries as [|[p [|h z m]] entries IH]; intros r; cbn [manifest_entries]; [done|..]; unfold file_entries; rewrite filter_cons;
    cbn [snd is_working_file]; fold (file_entries entries).
  - specialize (IH r). destruct (manifest_entries r entries) as [es hs]. cbn [fst] in *. by rewrite file_paths_cons, IH.
  - specialize (IH (r + 1)). destruct (manifest_entries (r + 1) entries) as [es hs]. cbn [fst] in *.
    rewrite file_paths_cons, IH. by rewrite decide_True.
Qed.
Lemma manifest_numbered entries : ∀ r, number_files r (fst (manifest_entries r entries)) = fst (manifest_entries r entries).
Proof.
  induction entries as [|[p [|h z m]] entries IH]; intros r; cbn [manifest_entries]; [done|..].
  - specialize (IH r). destruct (manifest_entries r entries). cbn in *. by rewrite IH.
  - specialize (IH (r + 1)). destruct (manifest_entries (r + 1) entries). cbn in *. by rewrite IH.
Qed.
Lemma manifest_hashes entries : ∀ r, snd (manifest_entries r entries)
  = (λ e : string * WorkingEntry, match snd e with WorkingFile h _ _ => h | WorkingDirectory => EmptyString end) <$> file_entries entries.
Proof.
  induction entries as [|[p [|h z m]] entries IH]; intros r; cbn [manifest_entries]; [done|..]; unfold file_entries; rewrite filter_cons;
    cbn [snd is_working_file]; fold (file_entries entries).
  - specialize (IH r). by destruct (manifest_entries r entries) as [es hs].
  - specialize (IH (r + 1)). destruct (manifest_entries (r + 1) entries) as [es hs]. cbn [snd] in *. by rewrite decide_True, fmap_cons, IH.
Qed.

(** The limits of the format, on the entries of a tree. *)
Definition entry_within (e : string * WorkingEntry) : Prop :=
  blen (TextEncoder_encode (fst e)) ≤ FileManifestMaxPathBytes ∧
  match snd e with
  | WorkingDirectory => True
  | WorkingFile _ size mediaType => 0 ≤ size ≤ MAX_SAFE_INTEGER ∧ media_type_ok mediaType
  end.
Record within_limits (entries : Entries) : Prop := {
  wl_entries : Forall entry_within entries;
  wl_count : Z.of_nat (length entries) ≤ FileManifestMaxEntries;
  wl_files : Z.of_nat (length (file_entries entries)) ≤ FileManifestMaxFiles
}.
Lemma manifest_entries_ok entries : (∀ p, p ∈ (fst <$> entries) → tree_path p) → ∀ r,
  Forall entry_ok (fst (manifest_entries r entries)) ↔ Forall entry_within entries.
Proof.
  induction entries as [|[p e] entries IH]; intros Hp r; cbn [manifest_entries]; [split; constructor|].
  assert (tree_path p) as Htp by (apply Hp; left).
  assert (∀ q, q ∈ (fst <$> entries) → tree_path q) as Hp' by (intros q Hq; apply Hp; by right).
  destruct e as [|h z m].
  - specialize (IH Hp' r). destruct (manifest_entries r entries). cbn [fst] in *. rewrite !Forall_cons, IH.
    unfold entry_ok, entry_within. cbn [fst snd entry_path]. rewrite validatePath_spec. tauto.
  - specialize (IH Hp' (r + 1)). destruct (manifest_entries (r + 1) entries). cbn [fst] in *. rewrite !Forall_cons, IH.
    unfold entry_ok, entry_within. cbn [fst snd entry_path]. rewrite validatePath_spec.
    assert ((∃ n, JInt z = JInt n ∧ 0 ≤ n ≤ MAX_SAFE_INTEGER) ↔ 0 ≤ z ≤ MAX_SAFE_INTEGER) as -> by naive_solver. tauto.
Qed.

Lemma sorted_of_Permutation entries : sorted_of entries ≡ₚ entries.
Proof. apply js_sort_Permutation. Qed.
Lemma sorted_of_wf entries : map_wf entries → map_wf (sorted_of entries).
Proof. unfold map_wf. by rewrite sorted_of_Permutation. Qed.
Lemma sorted_of_get entries p : map_wf entries → map_get p (sorted_of entries) = map_get p entries.
Proof.
  intros Hwf. apply option_eq. intros e. rewrite !map_get_iff by (try apply sorted_of_wf; done). by rewrite sorted_of_Permutation.
Qed.
Lemma sorted_of_sorted entries : map_wf entries → StronglySorted path_lt (fst <$> sorted_of entries).
Proof.
  intros Hwf. pose proof (sort_entries_sorted (SpaceDirectoryEntry <$> (fst <$> entries))) as Hs.
  assert (entry_path <$> (SpaceDirectoryEntry <$> (fst <$> entries)) = (fst <$> entries)) as Hpaths.
  { rewrite <- (list_fmap_compose SpaceDirectoryEntry entry_path). by rewrite (list_fmap_id (fst <$> entries) : (entry_path ∘ SpaceDirectoryEntry) <$> _ = _). }
  rewrite Hpaths in Hs. specialize (Hs Hwf). apply StronglySorted_paths in Hs.
  assert (entry_path <$> sort_entries (SpaceDirectoryEntry <$> (fst <$> entries)) = fst <$> sorted_of entries) as Heq; [|by rewrite <- Heq].
  clear. unfold sort_entries, sorted_of. induction entries as [|[p e] entries IH]; [done|]. cbn [fmap list_fmap js_sort foldr].
  revert IH. cbn [fst]. unfold js_sort. cbn [foldr].
  generalize (foldr (sort_insert (λ left right : string * WorkingEntry, compareFileManifestPaths left.1 right.1)) [] entries) as l.
  generalize (foldr (sort_insert (λ left right, compareFileManifestPaths (entry_path left) (entry_path right))) [] (SpaceDirectoryEntry <$> (fst <$> entries))) as l'.
  intros l' l. revert l. induction l' as [|x l' IH]; intros [|y l]; cbn [fmap list_fmap]; try done. intros [= Hx Hl].
  cbn [sort_insert entry_path fst]. rewrite Hx. case_match; cbn [fmap list_fmap entry_path fst].
  - rewrite Hx. do 2 f_equal. exact Hl.
  - rewrite Hx. f_equal. by apply IH.
Qed.

(** A tree can be committed exactly within the limits. *)
Lemma tree_manifest entries m : tree_ok entries →
  createFileManifest (fst (manifest_entries 0 (sorted_of entries))) = Ok m
  ↔ within_limits entries ∧ m = mkFileManifest (JInt 1) (fst (manifest_entries 0 (sorted_of entries))).
Proof.
  intros Hok. pose proof (to_wf _ Hok) as Hwf. rewrite createFileManifest_ok.
  set (es := fst (manifest_entries 0 (sorted_of entries))).
  assert (entry_path <$> es = fst <$> sorted_of entries) as Hpaths by apply manifest_paths.
  assert (sort_entries es = es) as ->.
  { apply sorted_listing_unique; [apply sort_entries_sorted|apply StronglySorted_paths|apply sort_entries_Permutation]; rewrite Hpaths.
    - by apply sorted_of_wf.
    - by apply sorted_of_sorted. }
  assert (number_files 0 es = es) as -> by apply manifest_numbered.
  assert (listing_ok es ↔ within_limits entries) as ->; [|done].
  assert (Forall entry_ok es ↔ Forall entry_within entries) as Hentries.
  { unfold es. rewrite manifest_entries_ok, sorted_of_Permutation; [done|]. intros p Hp. rewrite sorted_of_Permutation in Hp.
    apply (to_paths _ Hok). by apply has_key. }
  assert (length es = length entries) as Hlen.
  { rewrite <- (length_fmap entry_path), Hpaths, length_fmap. by rewrite sorted_of_Permutation. }
  assert (file_entries (sorted_of entries) ≡ₚ file_entries entries) as Hfe by (unfold file_entries; by rewrite sorted_of_Permutation).
  assert (length (file_paths es) = length (file_entries entries)) as Hfiles.
  { unfold es. rewrite manifest_files, length_fmap. by rewrite Hfe. }
  split.
  - intros [H1 H2 H3 H4 H5]. split; [by apply Hentries|by rewrite <- Hlen|by rewrite <- Hfiles].
  - intros [H1 H2 H3]. split; [by apply Hentries| | |by rewrite Hlen|by rewrite Hfiles].
    + rewrite Hpaths. by apply sorted_of_wf.
    + intros f p Hf Hp. unfold es in Hf. rewrite manifest_files, Hfe in Hf. rewrite Hpaths, sorted_of_Permutation in Hp.
      apply (to_tree _ Hok); [|by apply has_key].
      apply list_elem_of_fmap in Hf as ([q e] & -> & [He Hin]%list_elem_of_filter). cbn [fst snd] in *.
      apply map_get_iff in Hin; [|done]. unfold is_file_at. by rewrite Hin.
Qed.

Definition entry_hash (e : WorkingEntry) : string :=
  match e with WorkingFile h _ _ => h | WorkingDirectory => EmptyString end.
Definition hash_of_entry (refs : list string) (e : SpaceFileManifestEntry) : string * string :=
  (entry_path e, match e with
                 | SpaceFileEntry _ (JInt ref) _ _ => default EmptyString (refs !! Z.to_nat ref)
                 | _ => EmptyString
                 end).
Lemma refs_numbered entries : ∀ (pre : list string) r, r = Z.of_nat (length pre) →
  hash_of_entry (pre ++ snd (manifest_entries r entries))
    <$> filter (λ e, is_file e = true) (fst (manifest_entries r entries))
  = (λ e : string * WorkingEntry, (fst e, entry_hash (snd e))) <$> file_entries entries.
Proof.
  induction entries as [|[p [|h z m]] entries IH]; intros pre r Hr; cbn [manifest_entries]; [done|..]; unfold file_entries; rewrite filter_cons;
    cbn [snd is_working_file]; fold (file_entries entries).
  - specialize (IH pre r Hr). destruct (manifest_entries r entries) as [es hs]. cbn [fst snd] in *. rewrite filter_cons. exact IH.
  - specialize (IH (pre ++ [h]) (r + 1)). rewrite length_app in IH. specialize (IH ltac:(cbn [length]; lia)).
    destruct (manifest_entries (r + 1) entries) as [es hs]. cbn [fst snd] in *. rewrite filter_cons. cbn [is_file].
    rewrite !decide_True, !fmap_cons by done. rewrite <- app_assoc in IH. cbn [app] in IH. rewrite IH. f_equal.
    unfold hash_of_entry. cbn [entry_path fst entry_hash]. rewrite Hr, Nat2Z.id, lookup_app_r, Nat.sub_diag by done. done.
Qed.
Lemma entries_restored (refs : JsMap string) entries : ∀ r,
  (∀ p h z m, (p, WorkingFile h z m) ∈ entries → map_get p refs = Some h) →
  working_entry refs <$> fst (manifest_entries r entries) = entries.
Proof.
  induction entries as [|[p [|h z m]] entries IH]; intros r Hrefs; cbn [manifest_entries]; [done|..].
  - specialize (IH r ltac:(intros; eapply Hrefs; by right)). destruct (manifest_entries r entries). cbn [fst] in *. by rewrite fmap_cons, IH.
  - specialize (IH (r + 1) ltac:(intros; eapply Hrefs; by right)). destruct (manifest_entries (r + 1) entries). cbn [fst] in *.
    rewrite fmap_cons, IH. cbn [working_entry]. by rewrite (Hrefs p h z m ltac:(left)).
Qed.
Lemma tree_restored entries es hs : map_wf entries → manifest_entries 0 entries = (es, hs) →
  validateFileManifest (mkFileManifest (JInt 1) es) = Ok tt →
  ∃ refs, fileManifestRefs (mkFileManifest (JInt 1) es) hs = Ok refs ∧ map_of (working_entry refs <$> es) = entries.
Proof.
  intros Hwf Hes Hv. unfold fileManifestRefs. rewrite Hv. cbn [mbind result_bind fm_entries].
  pose proof (refs_numbered entries [] 0 eq_refl) as Hrefs. pose proof (manifest_files entries 0) as Hf.
  pose proof (manifest_hashes entries 0) as Hh. rewrite Hes in *. cbn [fst snd app] in *. unfold file_paths in Hf.
  rewrite (proj2 (Z.eqb_eq _ _)).
  2:{ rewrite Hh, <- (length_fmap entry_path), Hf, !length_fmap. done. }
  cbn [negb throw_if mbind result_bind]. eexists. split; [reflexivity|].
  change (λ e, (entry_path e, _)) with (hash_of_entry hs). rewrite Hrefs.
  set (hashes := (λ e : string * WorkingEntry, (fst e, entry_hash (snd e))) <$> file_entries entries).
  assert (map_wf hashes) as Hwf' by (unfold map_wf, hashes; rewrite <- list_fmap_compose; by apply filter_wf).
  rewrite (map_of_distinct hashes) by exact Hwf'.
  replace es with (fst (manifest_entries 0 entries)) by by rewrite Hes. rewrite entries_restored; [by apply map_of_distinct|].
  intros p h z m Hin. apply map_get_iff; [done|].
  apply list_elem_of_fmap. exists (p, WorkingFile h z m). split; [done|]. by apply list_elem_of_filter.
Qed.

(** * Operations *)

Section file_client.
Context {W : Type} `{!AppCasClient W, !UploadFetcher W} {Hsha : Sha256} {Hcbor : Cbor}.
Context `{!SpaceFileRootCatalog W, !FileIds W}.
Context (spaceId : string) (config : BlobConfig).

(** Nobody else touches the root while an operation waits. *)
Definition quiet (root : FileRoot) : FileRoot := root.

(** What happens to a working root in one go: a call without an [await], the file of
    a write that checked its path before, or what a commit takes from the catalog. *)
Inductive change : FileRoot → FileRoot → Prop :=
| change_mkdir root path root' : mkdir root path = Ok root' → change root root'
| change_move root from to root' : move root from to = Ok root' → change root root'
| change_copy root from to root' : copy root from to = Ok root' → change root root'
| change_remove root path root' : remove root path = Ok root' → change root root'
| change_rename root name root' : rename root name = Ok root' → change root root'
| change_discard root : change root (discard root)
| change_write root earlier path p stored :
    write_check earlier path = Ok p → lands (fr_entries root) p → change root (write_set p stored root)
| change_commit root info : change root (committed info root).

(** One call on a working root, with whatever changes other calls make to the root
    while it waits, or anything that happens outside. A write whose place is taken
    while it waits is not among them: what it leaves behind is no tree. *)
Inductive file_step : W * FileRoot → W * FileRoot → Prop :=
| step_outside w w' root : file_step (w, root) (w', root)
| step_change w root root' : change root root' → file_step (w, root) (w, root')
| step_write meanwhile w root path source options r s :
    rtc change root (meanwhile root) →
    (∀ p, write_check root path = Ok p → lands (fr_entries (meanwhile root)) p) →
    write spaceId config meanwhile path source options (w, root) = (r, s) → file_step (w, root) s
| step_commit meanwhile w root r s :
    (∀ root, rtc change root (meanwhile root)) →
    commit spaceId meanwhile (w, root) = (r, s) → file_step (w, root) s.

(** The runs of the parts of [write] and [commit]. *)
Notation then_ r k := (match r with (Ok a, s) => k a s | (Throw e, s) => (Throw e, s) end) (only parsing).
Lemma run_root {A} (k : FileRoot → M exn (W * FileRoot) A) w root : (x ← the_root; k x) (w, root) = k root (w, root).
Proof. done. Qed.
Lemma run_await {A B} (m : M exn W A) (k : A → M exn (W * FileRoot) B) w root :
  (x ← await quiet m; k x) (w, root)
  = match m w with (Ok a, w') => k a (w', root) | (Throw e, w') => (Throw e, (w', root)) end.
Proof. unfold mbind, M_bind, await, quiet. by destruct (m w) as [[a|e] w']. Qed.
Lemma run_unless {B} (b : bool) (m : M exn W unit) (k : M exn (W * FileRoot) B) w root :
  (_ ← (if b then mret tt else await quiet m); k) (w, root)
  = if b then k (w, root)
    else match m w with (Ok _, w') => k (w', root) | (Throw e, w') => (Throw e, (w', root)) end.
Proof. destruct b; [done|]. by rewrite run_await. Qed.
Lemma ignore_errors_ok (m : M exn W unit) w : ignore_errors m w = (Ok tt, snd (m w)).
Proof. unfold ignore_errors, try_catch. by destruct (m w) as [[[]|e] w']. Qed.

Lemma write_run meanwhile path source options w root :
  write spaceId config meanwhile path source options (w, root)
  = match write_check root path with
    | Throw e => (Throw e, (w, root))
    | Ok p => match storeBlob spaceId config source options w with
              | (Ok stored, w') => (Ok tt, (w', write_set p stored (meanwhile root)))
              | (Throw e, w') => (Throw e, (w', meanwhile root))
              end
    end.
Proof.
  unfold write. rewrite run_root. unfold mbind, M_bind, lift. destruct (write_check root path) as [p|e]; [|done].
  unfold await. by destruct (storeBlob spaceId config source options w) as [[stored|e] w'].
Qed.

(** The update of the catalog, with the release of the new manifest when it fails. *)
Definition update_catalog (root : FileRoot) (manifestHash : string) : M exn W SpaceFileRootInfo :=
  try_catch (catalog_update (ri_rootId (fr_info root)) (ri_revision (fr_info root)) (fr_name root) manifestHash)
    (λ error, _ ← (if bool_decide (manifestHash = ri_manifestHash (fr_info root)) then mret tt
                   else ignore_errors (release spaceId manifestHash));
              throw error).
(** A commit on a root that nobody else touches, as a computation outside. *)
Definition publish (root : FileRoot) (manifestHash : string) : M exn W SpaceFileRootInfo :=
  let old := ri_manifestHash (fr_info root) in
  _ ← (if bool_decide (manifestHash = old) then mret tt else retain spaceId manifestHash);
  updated ← update_catalog root manifestHash;
  _ ← (if bool_decide (manifestHash = old) then mret tt else ignore_errors (release spaceId old));
  mret updated.
Definition commit_outside (root : FileRoot) : M exn W SpaceFileRootInfo :=
  if sameEntries (fr_entries root) (fr_committedEntries root) then publish root (ri_manifestHash (fr_info root))
  else manifestHash ← storeManifest spaceId (fr_entries root); publish root manifestHash.
Notation commits root m := (match m with
  | (Ok info, w') => (Ok info, (w', committed info root))
  | (Throw e, w') => (Throw e, (w', root))
  end) (only parsing).
Lemma commit_manifest_quiet hash w root :
  commit_manifest spaceId quiet hash (w, root) = commits root (publish root hash w).
Proof.
  unfold commit_manifest, publish. rewrite run_root, run_unless. unfold update_catalog, try_catch, mbind, M_bind.
  unfold await, quiet, the_root, gets, change_root, modify, throw, mret, M_ret. cbn [snd].
  assert (∀ w1, ignore_errors (release spaceId hash) w1 = (Ok tt, snd (release spaceId hash w1))) as Hi1 by (intros; apply ignore_errors_ok).
  assert (∀ w1, ignore_errors (release spaceId (ri_manifestHash (fr_info root))) w1
    = (Ok tt, snd (release spaceId (ri_manifestHash (fr_info root)) w1))) as Hi2 by (intros; apply ignore_errors_ok).
  destruct (bool_decide (hash = ri_manifestHash (fr_info root))) eqn:Hb; [|destruct (retain spaceId hash w) as [[[]|e] w1]; [|done]];
    destruct (catalog_update _ _ _ _ _) as [[updated|e] w2]; try done; cbn; rewrite ?Hb; cbn; rewrite ?Hi1, ?Hi2; try done.
Qed.
Lemma commit_quiet w root :
  commit spaceId quiet (w, root)
  = if dirty root then commits root (commit_outside root w) else (Ok (fr_info root), (w, root)).
Proof.
  unfold commit, commit_outside. rewrite run_root. destruct (dirty root); [|done]. cbn [negb].
  destruct (sameEntries _ _); [apply commit_manifest_quiet|]. rewrite run_await. unfold mbind, M_bind.
  destruct (storeManifest _ _ w) as [[hash|e] w1]; [apply commit_manifest_quiet|done].
Qed.

(** A part of an operation changes the root by changes only. *)
Definition by_changes {A} (m : M exn (W * FileRoot) A) : Prop :=
  ∀ s, rtc change (snd s) (snd (snd (m s))).
Lemma by_changes_bind {A C} (m : M exn (W * FileRoot) A) (f : A → M exn (W * FileRoot) C) :
  by_changes m → (∀ a, by_changes (f a)) → by_changes (m ≫= f).
Proof.
  intros Hm Hf s. specialize (Hm s). unfold mbind, M_bind. destruct (m s) as [[a|e] s1]; [|done].
  etrans; [exact Hm|apply Hf].
Qed.
Lemma by_changes_catch {A} (m : M exn (W * FileRoot) A) f :
  by_changes m → (∀ e, by_changes (f e)) → by_changes (try_catch m f).
Proof.
  intros Hm Hf s. specialize (Hm s). unfold try_catch. destruct (m s) as [[a|e] s1]; [done|].
  etrans; [exact Hm|apply Hf].
Qed.
Lemma by_changes_ret {A} (a : A) : by_changes (mret a).
Proof. by intros s. Qed.
Lemma by_changes_root : by_changes the_root.
Proof. by intros s. Qed.
Lemma by_changes_throw {A} e : by_changes (throw e : M exn (W * FileRoot) A).
Proof. by intros s. Qed.
Lemma by_changes_committed info : by_changes (change_root (committed info)).
Proof. intros [w root]. apply rtc_once, change_commit. Qed.
Lemma by_changes_await {A} meanwhile (m : M exn W A) :
  (∀ root, rtc change root (meanwhile root)) → by_changes (await meanwhile m).
Proof. intros Hm [w root]. unfold await. destruct (m w) as [r w']. apply Hm. Qed.
Lemma commit_by_changes meanwhile :
  (∀ root, rtc change root (meanwhile root)) → by_changes (commit spaceId meanwhile).
Proof.
  intros Hm. unfold commit, commit_manifest.
  repeat first [ apply by_changes_bind; [|intros ?] | apply by_changes_catch; [|intros ?] | apply by_changes_ret | apply by_changes_root
               | apply by_changes_throw | apply by_changes_committed | apply by_changes_await, Hm | case_match ].
Qed.

Lemma change_ok root root' : change root root' → root_ok root → root_ok root'.
Proof.
  assert (∀ root from to b es, root_ok root → moveOrCopy (fr_entries root) from to b = Ok es → root_ok (with_entries es root)) as Hmove.
  { intros r from to b es [He Hc] Hm. split; [|done]. exact (moveOrCopy_ok _ _ _ _ _ He Hm). }
  destruct 1 as [root path root' H|root from to root' H|root from to root' H|root path root' H
    |root name root' H|root|root earlier path p stored Hp Hl|root info]; intros Hok.
  - by eapply mkdir_ok.
  - unfold move in H. destruct (moveOrCopy _ _ _ _) as [es|] eqn:Hm; [|done]. injection H as <-. by eapply Hmove.
  - unfold copy in H. destruct (moveOrCopy _ _ _ _) as [es|] eqn:Hm; [|done]. injection H as <-. by eapply Hmove.
  - by eapply remove_ok.
  - unfold rename in H. destruct (validateRootName _); [|done]. by injection H as <-.
  - destruct Hok as [_ Hc]. by split.
  - apply write_ok; [done|by eapply write_check_path|done].
  - by destruct Hok.
Qed.
Lemma changes_ok root root' : rtc change root root' → root_ok root → root_ok root'.
Proof. induction 1; eauto using change_ok. Qed.

Lemma step_root_ok s s' : file_step s s' → root_ok (snd s) → root_ok (snd s').
Proof.
  destruct 1 as [w w' root|w root root' H|meanwhile w root path source options r s Hm Hl H|meanwhile w root r s Hm H];
    cbn [snd]; intros Hok.
  - done.
  - by eapply change_ok.
  - apply changes_ok in Hm; [|done]. rewrite write_run in H. destruct (write_check root path) as [p|e] eqn:Hp; [|by injection H as <- <-].
    destruct (storeBlob _ _ _ _ w) as [[stored|e] w']; injection H as <- <-; [|done].
    apply write_ok; [done|by eapply write_check_path|by apply Hl].
  - apply changes_ok with root; [|done]. pose proof (commit_by_changes meanwhile Hm (w, root)) as Hc. by rewrite H in Hc.
Qed.
Lemma steps_root_ok s s' : rtc file_step s s' → root_ok (snd s) → root_ok (snd s').
Proof. induction 1; [done|]. intros Hok. eauto using step_root_ok. Qed.

(** What is opened is a tree. *)
Lemma loadRoot_ok info w0 root w1 : loadRoot spaceId info w0 = (Ok root, w1) → root_ok root.
Proof.
  intros Hload. unfold loadRoot, mbind, M_bind, lift in Hload. destruct (readNode _ _ _) as [[[metadata content]|e] w2]; [|done].
  destruct (throw_if _ _); [|done]. destruct (decodeFileManifest _) as [m|] eqn:Hd; [|done].
  destruct (fileManifestRefs m _) as [refs|] eqn:Hr; [|done]. injection Hload as <- <-.
  unfold fileManifestRefs in Hr. apply bind_unit in Hr as [Hv _]. apply validateFileManifest_spec in Hv as [_ Hv].
  assert (tree_ok (map_of (working_entry refs <$> fm_entries m))) as Ht; [|by split].
  assert ((fst <$> (working_entry refs <$> fm_entries m)) = (entry_path <$> fm_entries m)) as Hpaths.
  { rewrite <- list_fmap_compose. apply list_fmap_ext. intros i e _. by destruct e. }
  rewrite map_of_distinct.
  2:{ rewrite Hpaths. by apply StronglySorted_distinct, mo_sorted. }
  assert (map_wf (working_entry refs <$> fm_entries m)) as Hwf.
  { unfold map_wf. rewrite Hpaths. by apply StronglySorted_distinct, mo_sorted. }
  split; [done| |].
  - intros p Hp. apply has_key in Hp. rewrite Hpaths in Hp. apply list_elem_of_fmap in Hp as (e & -> & He).
    destruct Hv as [Hv _ _ _ _ _]. rewrite Forall_forall in Hv. destruct (Hv e He) as [Hp _]. by apply validatePath_spec in Hp as [? _].
  - intros f p Hf Hp. apply (mo_tree _ Hv); [|apply has_key in Hp; by rewrite Hpaths in Hp].
    unfold is_file_at in Hf. destruct (map_get f _) as [[|h z t]|] eqn:Hg; try done.
    apply map_get_elem, list_elem_of_fmap in Hg as (e & He & Hin). apply list_elem_of_fmap. exists e.
    destruct e as [|path r size media]; [done|]. injection He as -> _ _ _. split; [done|]. by apply list_elem_of_filter.
Qed.

(** C25: the tree of a root stays well formed. Whatever sequence of calls runs on a root
    that was opened, also of calls that overlap while writes and commits wait, as long
    as each write finds, when it puts its file, that nothing lies below its path and no
    file above it: its paths are valid and distinct and nothing lies below a file, in
    the working copy and in the committed one; so a manifest can be made of it exactly
    if it is within the limits of the format, and that manifest lists it as it is. A
    write that is not overlapped always finds so, by what it checked; and one that
    does not, whatever it checked before it waited, leaves no tree. *)
Theorem file_tree_invariant info w0 root0 w1 w root :
  loadRoot spaceId info w0 = (Ok root0, w1) → rtc file_step (w1, root0) (w, root) →
  root_ok root
  ∧ (∀ m, createFileManifest (fst (manifest_entries 0 (sorted_of (fr_entries root)))) = Ok m
          ↔ within_limits (fr_entries root)
            ∧ m = mkFileManifest (JInt 1) (fst (manifest_entries 0 (sorted_of (fr_entries root)))))
  ∧ (∀ path p, write_check root path = Ok p → lands (fr_entries root) p)
  ∧ ∀ earlier path p stored, write_check earlier path = Ok p →
      root_ok (write_set p stored root) ↔ lands (fr_entries root) p.
Proof.
  intros Hload Hsteps. apply loadRoot_ok in Hload. pose proof (steps_root_ok _ _ Hsteps Hload) as Hok. cbn [snd] in Hok.
  split; [done|]. split; [intros m; apply tree_manifest, Hok|]. split.
  - intros path p. apply write_check_lands, Hok.
  - intros earlier path p stored Hp. apply write_ok; [done|by eapply write_check_path].
Qed.

(** C26: a commit that fails, on a root that nobody else touches while it waits, says why
    and leaves the working root as it was, still dirty. Either no manifest could be made
    or stored, or it could not be retained, or the update of the catalog threw: then the
    reference to a new manifest is given back, and whether that succeeds does not change
    the error. *)
Theorem commit_failure w root e w' root' :
  commit spaceId quiet (w, root) = (Throw e, (w', root')) →
  root' = root ∧ dirty root = true
  ∧ let old := ri_manifestHash (fr_info root) in
    let refused hash w1 := ∃ w2,
      catalog_update (ri_rootId (fr_info root)) (ri_revision (fr_info root)) (fr_name root) hash w1 = (Throw e, w2)
      ∧ w' = if bool_decide (hash = old) then w2 else snd (release spaceId hash w2) in
    let not_published hash w1 :=
      (hash = old ∧ refused hash w1)
      ∨ (hash ≠ old ∧ (retain spaceId hash w1 = (Throw e, w')
                       ∨ ∃ w2, retain spaceId hash w1 = (Ok tt, w2) ∧ refused hash w2)) in
    if sameEntries (fr_entries root) (fr_committedEntries root) then not_published old w
    else storeManifest spaceId (fr_entries root) w = (Throw e, w')
         ∨ ∃ hash w1, storeManifest spaceId (fr_entries root) w = (Ok hash, w1) ∧ not_published hash w1.
Proof.
  rewrite commit_quiet. destruct (dirty root); [|done]. unfold commit_outside.
  assert (∀ hash w1 w', publish root hash w1 = (Throw e, w') →
    let old := ri_manifestHash (fr_info root) in
    let refused hash w1 := ∃ w2,
      catalog_update (ri_rootId (fr_info root)) (ri_revision (fr_info root)) (fr_name root) hash w1 = (Throw e, w2)
      ∧ w' = if bool_decide (hash = old) then w2 else snd (release spaceId hash w2) in
    (hash = old ∧ refused hash w1)
    ∨ (hash ≠ old ∧ (retain spaceId hash w1 = (Throw e, w')
                     ∨ ∃ w2, retain spaceId hash w1 = (Ok tt, w2) ∧ refused hash w2))) as Hpublish.
  { clear w w' root'. intros hash w1 w'. unfold publish, update_catalog, try_catch, mbind, M_bind, mret, M_ret. cbv zeta.
    destruct (bool_decide_reflect (hash = ri_manifestHash (fr_info root))) as [Hh|Hh].
    - destruct (catalog_update _ _ _ _ w1) as [[info|e'] w2]; [done|]. intros [= -> <-]. left. eauto.
    - destruct (retain spaceId hash w1) as [[[]|e'] w2]; [|intros [= -> <-]; auto].
      destruct (catalog_update _ _ _ _ w2) as [[info|e'] w3] eqn:Hu; rewrite ignore_errors_ok; [done|].
      intros [= -> <-]. right. split; [done|]. right. eauto. }
  destruct (sameEntries _ _).
  - destruct (publish root _ w) as [[info|e'] w1] eqn:Hp; [done|]. intros [= -> -> ->]. split_and!; [done..|]. by apply Hpublish.
  - unfold mbind, M_bind. destruct (storeManifest _ _ w) as [[hash|e'] w1]; [|intros [= -> -> ->]; auto].
    destruct (publish root hash w1) as [[info|e'] w2] eqn:Hp; [done|]. intros [= -> -> ->]. split_and!; [done..|]. right.
    exists hash, w1. split; [done|]. by apply Hpublish.
Qed.
End file_client.

(** * Committing and opening *)

(** What the catalog answers, and that it and the identifiers do not disturb the
    Space. *)
Class CatalogLaws {W : Type} (I : Invariant W) `{!SpaceFileRootCatalog W, !FileIds W} := {
  catalog_update_answers rootId revision name hash :
    safe I (λ _, True) (catalog_update rootId revision name hash)
      (λ info _, ri_rootId info = rootId ∧ ri_name info = name ∧ ri_manifestHash info = hash);
  catalog_create_answers rootId name hash :
    safe I (λ _, True) (catalog_create rootId name hash)
      (λ info _, ri_rootId info = rootId ∧ ri_name info = name ∧ ri_manifestHash info = hash);
  createId_keeps : safe I (λ _, True) createId (λ _ _, True);
  createRequestId_keeps : safe I (λ _, True) createRequestId (λ _ _, True)
}.

Section round_trip.
Context {W : Type} (I : Invariant W) `{!AppCasClient W, !UploadFetcher W} {Hsha : Sha256} {Hcbor : Cbor}.
Context `{!SpaceFileRootCatalog W, !FileIds W} {Hlaws : CborLaws} {Hcat : CatalogLaws I}.
Context (spaceId : string) {Hstore : CasStore I spaceId}.

Lemma covers_safe {A} X P (m : M exn W A) Q : covers I X P m Q → safe I P m Q.
Proof. intros Hm w Hw HP. specialize (Hm w Hw HP). destruct (m w) as [[a|e] w']; [done|]. by destruct Hm as (? & ? & _). Qed.

Lemma retain_safe hash : safe I (λ _, True) (retain spaceId hash) (λ _ _, True).
Proof.
  unfold retain, blob_retain, updateRetention. apply safe_seq; [apply stable_pure|apply createRequestId_keeps|]. intros requestId.
  apply safe_seq; [apply stable_pure| |intros _; by apply safe_ret].
  apply safe_seq; [apply stable_pure|by apply safe_lift|]. intros changes. eapply covers_safe, updateRootRefs_counts.
Qed.
Lemma release_safe hash : safe I (λ _, True) (release spaceId hash) (λ _ _, True).
Proof.
  unfold release, blob_release, updateRetention. apply safe_seq; [apply stable_pure|apply createRequestId_keeps|]. intros requestId.
  apply safe_seq; [apply stable_pure| |intros _; by apply safe_ret].
  apply safe_seq; [apply stable_pure|by apply safe_lift|]. intros changes. eapply covers_safe, updateRootRefs_counts.
Qed.

(** The node of the manifest of a tree. *)
Definition file_hashes (entries : Entries) : list string := entry_hash <$> (snd <$> file_entries entries).
Definition manifest_node (entries : Entries) (n : CasNode) : Prop :=
  let '(es, hs) := manifest_entries 0 (sorted_of entries) in
  ∃ b, encodeFileManifest (mkFileManifest (JInt 1) es) = Ok b ∧ n = mkCasNode FileManifestContentType hs b.
Lemma storeManifest_stores entries : tree_ok entries → Forall (λ h, is_hash h = true) (file_hashes entries) →
  safe I (λ _, True) (storeManifest spaceId entries)
    (λ hash w, ∃ n, manifest_node entries n ∧ node_hash n = Ok hash ∧ (collision_free hash → node_at hash n w)).
Proof.
  intros Hok Hh. unfold storeManifest. fold (sorted_of entries). unfold manifest_node.
  pose proof (manifest_hashes (sorted_of entries) 0) as Hhs. pose proof (tree_manifest entries) as Htm.
  destruct (manifest_entries 0 (sorted_of entries)) as [es hs]. cbn [fst snd] in *.
  apply (safe_bind I _ _ _ (λ m _, m = mkFileManifest (JInt 1) es)); [apply stable_pure| |].
  { apply safe_lift. intros _ m _ Hm. by apply (Htm m Hok) in Hm as [_ ?]. }
  intros m. apply safe_assume. intros ->.
  apply (safe_bind I _ _ _ (λ b _, encodeFileManifest (mkFileManifest (JInt 1) es) = Ok b)); [apply stable_pure|by apply safe_lift|].
  intros b. apply safe_assume. intros Hb.
  eapply safe_post; [|eapply covers_safe, storeNodeContent_stores].
  intros hash w [Hn Hat]. exists (mkCasNode FileManifestContentType hs b). split_and!; [by exists b|done|].
  apply Hat. rewrite Hhs. rewrite Forall_fmap. unfold file_hashes in Hh. rewrite <- list_fmap_compose, Forall_fmap in Hh.
  assert (file_entries (sorted_of entries) ≡ₚ file_entries entries) as -> by (unfold file_entries; by rewrite sorted_of_Permutation).
  eapply Forall_impl; [exact Hh|]. by intros [p []].
Qed.
Lemma loadRoot_loads info entries n : map_wf entries → manifest_node entries n →
  covers I (λ _, False) (node_at (ri_manifestHash info) n) (loadRoot spaceId info)
    (λ root _, root = workingRoot info (sorted_of entries)).
Proof.
  intros Hwf Hn. unfold manifest_node in Hn. destruct (manifest_entries 0 (sorted_of entries)) as [es hs] eqn:Hes.
  destruct Hn as (b & Hb & ->). unfold loadRoot.
  eapply covers_bind_fact; [apply node_at_stable|apply readNode_reads|].
  intros [metadata content] [Hm Hc]. cbn [fst snd cn_content cn_contentType cn_refs] in *. subst metadata. rewrite Hc.
  cbn [nm_contentType nm_refs]. rewrite bool_decide_true by done. cbn [negb throw_if].
  apply covers_lift_bind; [done|]. intros _ _.
  rewrite (decode_manifest _ _ Hb). apply covers_lift_bind; [done|]. intros m [= <-].
  pose proof Hb as [Hv _]%bind_unit.
  destruct (tree_restored _ _ _ (sorted_of_wf _ Hwf) Hes Hv) as (refs & Hrefs & Hmap). rewrite Hrefs.
  apply covers_lift_bind; [done|]. intros refs' [= <-]. cbn [fm_entries]. rewrite Hmap. by apply covers_ret.
Qed.

Lemma publishes_safe root hash (R : W → Prop) : stable I R →
  safe I R (publish spaceId root hash)
    (λ info w, (ri_rootId info = ri_rootId (fr_info root) ∧ ri_name info = fr_name root ∧ ri_manifestHash info = hash) ∧ R w).
Proof.
  intros HR. eapply safe_pre with (P := λ w, True ∧ R w); [by auto|]. apply safe_keep; [done|]. unfold publish.
  apply safe_seq; [apply stable_pure|case_match; [by apply safe_ret|apply retain_safe]|]. intros _.
  eapply safe_bind; [apply stable_pure| |].
  - unfold update_catalog. apply safe_catch; [apply stable_pure|apply catalog_update_answers|]. intros e.
    apply safe_seq; [apply stable_pure| |intros _; apply safe_throw].
    case_match; [by apply safe_ret|]. apply safe_ignore; [apply stable_pure|apply release_safe].
  - intros info. cbv beta. apply safe_assume. intros Hinfo. apply safe_seq; [apply stable_pure| |intros _; by apply safe_ret].
    case_match; [by apply safe_ret|]. apply safe_ignore; [apply stable_pure|apply release_safe].
Qed.

(** C24: what is committed is what is opened. A commit of a changed tree, on a root that
    nobody else touches while it waits, stores a manifest and records it under the name of the root; afterwards nothing is left to
    commit. Unless the manifest shares its hash with another node, whoever opens the
    root from the answer, in any later state in which the Space keeps what it
    answered ready, gets the same tree: the same files with the same contents, sizes
    and media types, and the same directories. *)
Theorem commit_round_trip w root info w1 root1 :
  root_ok root → Forall (λ h, is_hash h = true) (file_hashes (fr_entries root)) → holds I w →
  commit spaceId quiet (w, root) = (Ok info, (w1, root1)) →
  holds I w1 ∧ keeps I w w1
  ∧ dirty root1 = false ∧ fr_info root1 = info ∧ fr_entries root1 = fr_entries root ∧ fr_name root1 = fr_name root
  ∧ (dirty root = true → ri_rootId info = ri_rootId (fr_info root) ∧ ri_name info = fr_name root)
  ∧ (sameEntries (fr_entries root) (fr_committedEntries root) = false → collision_free (ri_manifestHash info) →
     ∀ w2, holds I w2 → keeps I w1 w2 →
     ∃ root2 w3, loadRoot spaceId info w2 = (Ok root2, w3)
       ∧ fr_info root2 = info ∧ fr_name root2 = fr_name root
       ∧ ∀ p, map_get p (fr_entries root2) = map_get p (fr_entries root)).
Proof.
  intros [Hok _] Hh Hw. rewrite commit_quiet. destruct (dirty root) eqn:Hd.
  2:{ intros [= <- <- <-]. split_and!; try done; [by apply keeps_refl|]. intros Hs. unfold dirty in Hd. by rewrite Hs, orb_true_r in Hd. }
  destruct (commit_outside spaceId root w) as [[info'|e] w'] eqn:Hc; [|done]. intros [= -> -> <-].
  assert (safe I (λ _, True) (commit_outside spaceId root) (λ info w,
    (ri_rootId info = ri_rootId (fr_info root) ∧ ri_name info = fr_name root)
    ∧ (sameEntries (fr_entries root) (fr_committedEntries root) = false →
       ∃ n, manifest_node (fr_entries root) n ∧ (collision_free (ri_manifestHash info) → node_at (ri_manifestHash info) n w)))) as Hsafe.
  { unfold commit_outside. destruct (sameEntries _ _).
    - eapply safe_post; [|apply publishes_safe, stable_pure]. by intros i w' [(? & ? & _) _].
    - eapply safe_bind; [apply stable_pure|by apply storeManifest_stores|]. intros hash.
      eapply safe_pre with (P := λ w, ∃ n, manifest_node (fr_entries root) n ∧ (collision_free hash → node_at hash n w)); [naive_solver|].
      eapply safe_post; [|apply publishes_safe]; [intros i w' [(? & ? & ->) Hn]; auto|].
      intros w3 w4 Hk (n & Hn & Hat). exists n. split; [done|]. intros Hcf. eapply node_at_stable; [exact Hk|]. by apply Hat. }
  specialize (Hsafe w Hw Logic.I). rewrite Hc in Hsafe. destruct Hsafe as (Hw1 & Hk1 & (Hid & Hname) & Hnode).
  split_and!; try done.
  - unfold dirty. cbn [committed fr_name fr_committedName fr_entries fr_committedEntries]. rewrite bool_decide_true by done.
    cbn [negb orb]. apply negb_false_iff. unfold sameEntries. rewrite Z.eqb_refl. apply forallb_forall. intros [p e] Hin%list_elem_of_In.
    cbn [fst snd]. apply (map_get_iff _ _ _ (to_wf _ Hok)) in Hin. rewrite Hin. by apply bool_decide_true.
  - intros Hs Hcf w2 Hw2 Hk2. destruct (Hnode Hs) as (n & Hn & Hat).
    pose proof (loadRoot_loads info _ _ (to_wf _ Hok) Hn w2 Hw2 (node_at_stable _ _ _ _ Hk2 (Hat Hcf))) as Hl.
    destruct (loadRoot spaceId info w2) as [[root2|e] w3]; [|by destruct Hl as (_ & _ & [])].
    destruct Hl as (_ & _ & ->). exists (workingRoot info (sorted_of (fr_entries root))), w3. split_and!; try done.
    intros p. cbn [workingRoot fr_entries]. by apply sorted_of_get, to_wf.
Qed.
End round_trip.
