(* ===== verification/MemStore.v ===== *)
(** A Space in memory: nodes under their hashes, kept for ever, and a catalog of roots
    with a ledger of Root References. They satisfy what the client packages rely on, and
    they compute; the witnesses of their theorems run on them, and two behaviours of
    [commit] that the theorems leave room for. *)
From Stdlib Require Import Ascii.
From S2P Require Import Prelude Js JsString JsMap JsonText Errors Safe Codec Validation.
From S2P Require Import CanonicalStream BlobIndex FileManifest NodeContent BlobClient BlobSafe.
From S2P Require Import FileClient FileTree FileSafe.

(** 32 bytes that depend on every byte of the data. *)
#[local] Instance mem_sha : Sha256 := λ bs,
  le_bytes 32 (foldl (λ acc b, (acc * 65599 + byte_val b + 1) mod (2 ^ 255 - 19)) 7 bs).
Lemma mem_sha_length bs : length (sha256 bs) = 32%nat.
Proof. unfold sha256, mem_sha. apply length_le_bytes. Qed.

Definition Mem : Type := gmap string CasNode.

(** The node that valid bytes encode, if they have this hash. *)
Definition mem_parse (hash : string) (b : bytes) : option CasNode :=
  if bool_decide (hex_of (sha256 b) = hash) then
    match read_node [b] None noLimits with
    | Ok (cs, ct, refs, _, _) => Some (mkCasNode ct refs (drop (length b - Z.to_nat cs) b))
    | Throw _ => None
    end
  else None.
Definition missing : exn := Error "no such node".

#[local] Instance mem_client : AppCasClient Mem := {|
  readNode _ h w :=
    (match w !! h with
     | Some n => Ok (mkNodeMetadata h (blen (cn_content n)) (cn_contentType n) (cn_refs n), [cn_content n])
     | None => Throw missing
     end, w);
  readMetadata _ h w :=
    (match w !! h with
     | Some n => Ok (mkNodeMetadata h (blen (cn_content n)) (cn_contentType n) (cn_refs n))
     | None => Throw missing
     end, w);
  readContent _ h range w :=
    (match w !! h with Some n => Ok [in_range_of range (cn_content n)] | None => Throw missing end, w);
  leaseNode _ h durationMs w :=
    (Ok (match w !! h with
         | Some _ => ready h 0 durationMs
         | None => awaiting_upload h (mkUploadInstructions "PUT" h durationMs [])
         end), w);
  updateRootRefs _ _ _ w := (Ok (mkRootRefsResult true None None), w)
|}.
#[local] Instance mem_fetcher : UploadFetcher Mem := λ url _ _ b w,
  match w !! url with
  | Some _ => (Ok (mkUploadResponse 412 "Precondition Failed"), w)
  | None =>
      match mem_parse url b with
      | Some n => (Ok (mkUploadResponse 200 "OK"), <[url := n]> w)
      | None => (Ok (mkUploadResponse 400 "Bad Request"), w)
      end
  end.

Definition mem_node (h : string) (n : CasNode) : Prop :=
  ∃ ct hs content, node_of h ct hs content ∧ n = mkCasNode ct (hex_of <$> hs) content.
Definition mem_inv : Invariant Mem.
Proof.
  refine (mkInvariant (map_Forall mem_node) (⊆) _ _).
  - done.
  - intros w1 w2 w3. apply transitivity.
Defined.

Lemma mem_parse_node hash b n : mem_parse hash b = Some n → mem_node hash n.
Proof.
  unfold mem_parse. case_bool_decide as Hh; [|done].
  destruct (read_node _ _ _) as [[[[[cs ct] refs] size] body]|] eqn:Hr; [|done]. intros [= <-].
  apply read_node_inv in Hr as (hs & content & Hct & Hhs & Hlim & _ & Hb & -> & -> & _).
  cbn [concat] in Hb. rewrite app_nil_r in Hb. subst b. exists ct, hs, content. split.
  - split_and!; done.
  - f_equal. unfold encodeNode, blen. rewrite Nat2Z.id. rewrite !app_assoc.
    rewrite length_app, Nat.add_sub. apply drop_app_length.
Qed.

Lemma mem_reads {A} h n (f : CasNode → A) (Q : A → Mem → Prop) (m : M exn Mem A) :
  (∀ w, m w = (match w !! h with Some n => Ok (f n) | None => Throw missing end, w)) →
  (∀ w, Q (f n) w) → covers mem_inv (λ _, False) (λ w, w !! h = Some n) m Q.
Proof. intros Hm HQ w Hw Hn. rewrite Hm, Hn. split_and!; done. Qed.

#[local] Instance mem_store spaceId : CasStore mem_inv spaceId.
Proof.
  refine {| node_at h n w := w !! h = Some n |}.
  - intros h n w w' Hk Hn. by eapply lookup_weaken.
  - intros h n. eapply mem_reads; [intros w; reflexivity|]. intros _. cbn. by rewrite app_nil_r.
  - intros h n. eapply mem_reads; [intros w; reflexivity|]. done.
  - intros h n range _. eapply mem_reads; [intros w; reflexivity|]. intros _. cbn. by rewrite app_nil_r.
  - intros h durationMs w Hw _. cbn. destruct (w !! h) as [n|] eqn:Hn; split_and!; try done.
    destruct (Hw h n Hn) as (ct & hs & content & Hof & ->). by exists ct, hs, content.
  - intros requestId changes w Hw _. cbn. split_and!; done.
  - intros url method headers b w Hw _. unfold upload_fetch, mem_fetcher.
    destruct (w !! url) eqn:Hu; [split_and!; done|]. destruct (mem_parse url b) as [n|] eqn:Hp; [|split_and!; done].
    split_and!; [|by apply insert_subseteq|done]. apply map_Forall_insert_2; [by eapply mem_parse_node|done].
Defined.

(** * Blobs at work: chunks of four bytes under indexes of two children *)

Module BlobExample.
Definition config : BlobConfig := mkBlobConfig 4 2.
Definition text : bytes := TextEncoder_encode "the quick brown fox".
Definition source : CasBlobSource := mkBlobSource [take 7 text; []; drop 7 text] None.
Definition options : CasBlobWriteOptions := mkWriteOptions "text/plain" (Some 19) None.
Abbreviation run := (storeBlob (W := Mem) "space" config source options ∅).
Definition ref : CasBlobRef := match fst run with Ok r => r | Throw _ => mkBlobRef EmptyString 0 JNull end.
Definition range : option CasNodeRange := Some (mkNodeRange 3 (Some 9)).

(** What is stored is read back, in the pieces of the chunks it crosses. *)
Example reads_back :
  match run with
  | (Ok ref, w) => fst (readBlob "space" (br_hash ref) range w)
  | (Throw e, _) => Throw e
  end = Ok [TextEncoder_encode " "; TextEncoder_encode "quic"; TextEncoder_encode "k br"].
Proof. vm_cast_no_check (eq_refl (Ok (E := exn) [TextEncoder_encode " "; TextEncoder_encode "quic"; TextEncoder_encode "k br"])). Qed.

Lemma stored : is_ok (fst run) = true.
Proof. vm_cast_no_check (eq_refl true). Qed.
Lemma stored_run : run = (Ok ref, snd run).
Proof. pose proof stored as H. unfold ref. destruct run as [[r|e] w]; done. Qed.
End BlobExample.

Lemma blob_round_trip_witness :
  ∃ nodes, blob_made BlobExample.config "text/plain" BlobExample.text (br_hash BlobExample.ref) nodes.
Proof.
  destruct (blob_round_trip mem_inv "space" BlobExample.config ltac:(by split) ltac:(done)
    BlobExample.source BlobExample.options ∅ (Ok BlobExample.ref) (snd BlobExample.run)
    ltac:(done) ltac:(done) (map_Forall_empty _) BlobExample.stored_run)
    as (_ & _ & _ & _ & _ & _ & nodes & Hnodes & _).
  exists nodes. exact Hnodes.
Defined.

Lemma chunkSource_cuts_witness :
  0 < 4 ∧ concat (chunkSource 4 BlobExample.source) = BlobExample.text.
Proof. split; [done|]. exact (proj1 (proj1 (chunkSource_cuts 4 BlobExample.source ltac:(done)) eq_refl)). Defined.

Lemma blob_index_round_trip_witness :
  let b := cbor_encode (wireValue (blob_index 1 "text/plain" [8; 3])) in
  encodeBlobIndex (blob_index 1 "text/plain" [8; 3]) = Ok b
  ∧ decodeBlobIndex b = Ok (blob_index 1 "text/plain" [8; 3]).
Proof.
  intros b. assert (encodeBlobIndex (blob_index 1 "text/plain" [8; 3]) = Ok b) as He by reflexivity.
  split; [exact He|]. exact (proj2 (proj2 blob_index_round_trip) 1 "text/plain" [8; 3] b He).
Defined.

(** * A catalog in memory *)

#[local] Existing Instance mem_sha.
#[local] Existing Instance mem_client.
#[local] Existing Instance mem_fetcher.
#[local] Existing Instance mem_store.

(** The nodes, the counts of the references, and the roots. *)
Record FileMem := mkFileMem {
  fx_nodes : Mem;
  fx_refs : gmap string Z;
  fx_roots : list SpaceFileRootInfo
}.
Definition on_nodes {A} (m : M exn Mem A) : M exn FileMem A := λ w,
  let '(r, nodes) := m (fx_nodes w) in (r, mkFileMem nodes (fx_refs w) (fx_roots w)).
Definition count_refs (changes : list (string * Z)) (refs : gmap string Z) : gmap string Z :=
  foldl (λ refs c, <[fst c := default 0 (refs !! fst c) + snd c]> refs) refs changes.

#[local] Instance files_client : AppCasClient FileMem := {|
  readNode s h := on_nodes (readNode s h);
  readMetadata s h := on_nodes (readMetadata s h);
  readContent s h range := on_nodes (readContent s h range);
  leaseNode s h durationMs := on_nodes (leaseNode s h durationMs);
  updateRootRefs _ _ changes w :=
    (Ok (mkRootRefsResult true None None), mkFileMem (fx_nodes w) (count_refs changes (fx_refs w)) (fx_roots w))
|}.
#[local] Instance files_fetcher : UploadFetcher FileMem := λ url method headers b,
  on_nodes (mem_fetcher url method headers b).
#[local] Instance files_ids : FileIds FileMem := {|
  createId w := (Ok "root", w);
  createRequestId w := (Ok "request", w)
|}.

(** The update of a row under its revision; with [lost], its answer is lost. *)
Definition update_root (lost : bool) (rootId : string) (revision : Z) (name hash : string) : M exn FileMem SpaceFileRootInfo := λ w,
  match List.find (λ r, bool_decide (ri_rootId r = rootId) && (ri_revision r =? revision)) (fx_roots w) with
  | None => (Throw (Error "conflict"), w)
  | Some r =>
      let r' := mkRootInfo rootId name hash (revision + 1) (ri_createdAt r) (ri_updatedAt r + 1) in
      let roots := (λ x, if bool_decide (ri_rootId x = rootId) then r' else x) <$> fx_roots w in
      (if lost then Throw (Error "response lost") else Ok r', mkFileMem (fx_nodes w) (fx_refs w) roots)
  end.
Definition files_catalog (lost : bool) : SpaceFileRootCatalog FileMem := {|
  catalog_list w := (Ok (fx_roots w), w);
  catalog_create rootId name hash w :=
    let r := mkRootInfo rootId name hash 1 0 0 in (Ok r, mkFileMem (fx_nodes w) (fx_refs w) (fx_roots w ++ [r]));
  catalog_update := update_root lost;
  catalog_delete rootId revision w :=
    (Ok tt, mkFileMem (fx_nodes w) (fx_refs w) (filter (λ r, ri_rootId r ≠ rootId) (fx_roots w)))
|}.

Definition files_inv : Invariant FileMem.
Proof.
  refine (mkInvariant (λ w, holds mem_inv (fx_nodes w)) (λ w w', keeps mem_inv (fx_nodes w) (fx_nodes w')) _ _).
  - intros w. apply keeps_refl.
  - intros w1 w2 w3. apply keeps_trans.
Defined.
Lemma on_nodes_covers {A} X P (m : M exn Mem A) Q :
  covers mem_inv X P m Q → covers files_inv X (λ w, P (fx_nodes w)) (on_nodes m) (λ a w, Q a (fx_nodes w)).
Proof.
  intros Hm w Hw HP. specialize (Hm (fx_nodes w) Hw HP). unfold on_nodes. by destruct (m (fx_nodes w)) as [[a|e] nodes].
Qed.
Lemma files_same w w' : fx_nodes w = fx_nodes w' → keeps files_inv w w'.
Proof. intros He. change (keeps mem_inv (fx_nodes w) (fx_nodes w')). rewrite He. apply keeps_refl. Qed.
#[local] Instance files_store spaceId : CasStore files_inv spaceId.
Proof.
  refine {| node_at h n w := (mem_store spaceId).(node_at) h n (fx_nodes w) |}.
  - intros h n w w' Hk. apply ((mem_store spaceId).(node_at_stable) h n _ _ Hk).
  - intros h n. exact (on_nodes_covers _ _ _ _ ((mem_store spaceId).(NodeContent.readNode_reads) h n)).
  - intros h n. exact (on_nodes_covers _ _ _ _ ((mem_store spaceId).(readMetadata_reads) h n)).
  - intros h n range Hr. exact (on_nodes_covers _ _ _ _ ((mem_store spaceId).(readContent_reads) h n range Hr)).
  - intros h durationMs. exact (on_nodes_covers _ _ _ _ ((mem_store spaceId).(leaseNode_leases) h durationMs)).
  - intros requestId changes w Hw _. split_and!; [done|by apply files_same|done].
  - intros url method headers b. exact (on_nodes_covers _ _ _ _ ((mem_store spaceId).(upload_fetch_sends) url method headers b)).
Defined.
#[local] Existing Instance files_catalog.
#[local] Instance files_catalog_laws : @CatalogLaws FileMem files_inv (files_catalog false) files_ids.
Proof.
  split.
  - intros rootId revision name hash w Hw _. cbn. unfold update_root.
    destruct (List.find _ _) as [r|]; cbn; split_and!; try done; apply keeps_refl.
  - intros rootId name hash w Hw _. cbn. split_and!; try done; apply keeps_refl.
  - intros w Hw _. split_and!; try done; by apply files_same.
  - intros w Hw _. split_and!; try done; by apply files_same.
Qed.

(** * Files at work *)

Module FileExample.
#[local] Instance steady : SpaceFileRootCatalog FileMem := files_catalog false.
Definition config : BlobConfig := mkBlobConfig 4 2.
Definition empty : FileMem := mkFileMem ∅ ∅ [].
Definition hello : CasBlobSource := mkBlobSource [TextEncoder_encode "hello"] None.
Definition plain : CasBlobWriteOptions := mkWriteOptions "text/plain" (Some 5) None.
Definition in_root {A} (r : result exn FileRoot) (k : FileRoot → option A) : option A :=
  match r with Ok root => k root | Throw _ => None end.

(** A new root, and a tree made in it: [/a/b] is written, copied with its directory,
    and what was there is removed. *)
Abbreviation created := (createRoot (W := FileMem) "space" " docs " empty).
Abbreviation edited := (match created with
  | (Ok root, w) =>
      in_root (mkdir root "/a") (λ root,
        match write "space" config quiet "/a/b" hello plain (w, root) with
        | (Ok _, (w, root)) =>
            in_root (copy root "/a" "/c") (λ root, in_root (remove root "/a/b") (λ root, Some (w, root)))
        | _ => None
        end)
  | _ => None
  end).
Abbreviation committing := (match edited with
  | Some (w, root) => match commit "space" quiet (w, root) with
                      | (Ok info, (w, root)) => Some (info, w, root)
                      | _ => None
                      end
  | None => None
  end).
Abbreviation reopened := (match committing with
  | Some (info, w, root) => match loadRoot "space" info w with
                            | (Ok root', _) => Some (fst <$> fr_entries root', dirty root, fx_roots w = [info])
                            | _ => None
                            end
  | None => None
  end).
Example commits : ∃ φ, reopened = Some (["a"; "c"; "c/b"], false, φ).
Proof. eexists. vm_compute. reflexivity. Qed.

(** A root with a file, changed since it was opened, in a Space that knows it. *)
Definition some_hash : string := of_chars (replicate 64 "a"%char).
Definition info : SpaceFileRootInfo := mkRootInfo "root" "docs" some_hash 1 0 0.
Definition tree : Entries := [("a", WorkingDirectory); ("a/b", WorkingFile some_hash 5 "text/plain")].
Definition changed : FileRoot := mkFileRoot info "docs" "docs" [] tree.
Definition known : FileMem := mkFileMem ∅ {[ some_hash := 1 ]} [info].

Lemma tree_is_ok : tree_ok tree.
Proof.
  assert (∀ p, has tree p → p = "a" ∨ p = "a/b") as Hhas.
  { intros p Hp. apply has_key in Hp. apply elem_of_cons in Hp as [Hp|Hp]; [by left|]. right. by apply list_elem_of_singleton in Hp. }
  split.
  - apply (bool_decide_unpack _). by vm_compute.
  - intros p Hp. apply path_tests. destruct (Hhas p Hp) as [->| ->]; by vm_compute.
  - intros f p Hf Hp. destruct (Hhas f (is_file_has _ _ Hf)) as [->| ->]; [discriminate Hf|]. by destruct (Hhas p Hp) as [->| ->].
Qed.
Lemma changed_ok : root_ok changed.
Proof. split; [apply tree_is_ok|]. split; [constructor|by intros p []|by intros f p ? []]. Qed.
Abbreviation committing_tree := (commit "space" quiet (known, changed)).
Lemma commit_runs : is_ok (fst committing_tree) = true.
Proof. vm_cast_no_check (eq_refl true). Qed.
Abbreviation opening := (match committing_tree with
  | (Ok info, (w, _)) => loadRoot "space" info w
  | (Throw e, (w, _)) => (Throw e, w)
  end).
Lemma opening_runs : is_ok (fst opening) = true.
Proof. vm_cast_no_check (eq_refl true). Qed.

(** What is made while a commit waits is taken for committed, though the manifest was
    made before it: the root is not dirty, and opening it again does not show it. *)
Definition meanwhile (root : FileRoot) : FileRoot :=
  match mkdir root "/late" with Ok root => root | Throw _ => root end.
Lemma commit_forgets_late :
  match commit "space" meanwhile (known, changed) with
  | (Ok info, (w, root)) =>
      (dirty root, map_has "late" (fr_entries root),
       match loadRoot "space" info w with (Ok opened, _) => Some (map_has "late" (fr_entries opened)) | _ => None end)
  | _ => (true, false, None)
  end = (false, true, Some false).
Proof. vm_compute. reflexivity. Qed.

(** What is made at its path while a write waits lies below the file it puts there: it
    checked the path before it waited. The root is no tree then, and no commit of it
    succeeds. *)
Definition below_meanwhile (root : FileRoot) : FileRoot :=
  match mkdir root "/x" with
  | Ok root => match mkdir root "/x/y" with Ok root => root | Throw _ => root end
  | Throw _ => root
  end.
Abbreviation overlapped := (match created with
  | (Ok root, w) =>
      match write "space" config below_meanwhile "/x" hello plain (w, root) with
      | (Ok _, s) => Some s
      | _ => None
      end
  | _ => None
  end).
Lemma write_overlapped :
  match overlapped with
  | Some (w, root) =>
      Some (is_working_file (map_get "x" (fr_entries root)), map_has "x/y" (fr_entries root),
            is_ok (fst (commit "space" quiet (w, root))))
  | None => None
  end = Some (true, true, false).
Proof. vm_compute. reflexivity. Qed.

(** An update of the catalog whose answer is lost is taken for one that failed: the
    catalog names a manifest whose only reference was given back. *)
Lemma commit_releases_recorded :
  match commit (SpaceFileRootCatalog0 := files_catalog true) "space" quiet (known, changed) with
  | (Throw _, (w, _)) => (λ r, (bool_decide (ri_manifestHash r = some_hash), fx_refs w !! ri_manifestHash r)) <$> fx_roots w
  | _ => []
  end = [(false, Some 0)].
Proof. vm_compute. reflexivity. Qed.
End FileExample.

(** * Witnesses *)

#[local] Instance steady : SpaceFileRootCatalog FileMem := files_catalog false.
#[local] Instance code_units : Locale := compareFileManifestPaths.
Definition listed : list SpaceFileManifestEntry :=
  [SpaceFileEntry "a/b" (JInt 7) (JInt 5) "text/plain"; SpaceDirectoryEntry "a"].
Definition manifest : SpaceFileManifestV1 :=
  mkFileManifest (JInt 1) [SpaceDirectoryEntry "a"; SpaceFileEntry "a/b" (JInt 0) (JInt 5) "text/plain"].

Lemma createFileManifest_spec_witness :
  reverse listed ≡ₚ listed ∧ createFileManifest (reverse listed) = Ok manifest ∧ createFileManifest listed = Ok manifest.
Proof.
  assert (reverse listed ≡ₚ listed) as Hp by apply reverse_Permutation.
  assert (createFileManifest listed = Ok manifest) as Hm by by vm_compute.
  split_and!; [done| |done]. exact (proj2 (proj2 (createFileManifest_spec listed) (reverse listed) manifest Hp) Hm).
Defined.

Lemma file_manifest_round_trip_witness :
  ∃ b, encodeFileManifest manifest = Ok b ∧ decodeFileManifest b = Ok manifest ∧ manifest_ok (fm_entries manifest).
Proof.
  assert (is_ok (encodeFileManifest manifest) = true) as He by by vm_compute.
  destruct (encodeFileManifest manifest) as [b|] eqn:Hb; [|done]. exists b.
  pose proof (proj2 file_manifest_round_trip manifest b Hb) as Hd.
  split_and!; [done|done|]. exact (proj2 (proj2 (proj1 file_manifest_round_trip b manifest Hd))).
Defined.

Lemma moveOrCopy_places_witness :
  ∃ entries, moveOrCopy FileExample.tree "/a" "/c" true = Ok entries
    ∧ map_get "c/b" entries = map_get "a/b" FileExample.tree ∧ map_get "a" entries = None.
Proof.
  assert (is_ok (moveOrCopy FileExample.tree "/a" "/c" true) = true) as He by by vm_compute.
  destruct (moveOrCopy FileExample.tree "/a" "/c" true) as [entries|] eqn:Hm; [|done]. exists entries.
  destruct (moveOrCopy_places _ _ _ _ _ (to_wf _ FileExample.tree_is_ok) Hm) as (s & t & Hs & Ht & _ & _ & Hb & Ho).
  apply (inj (String.append "/") "a" s) in Hs as <-. apply (inj (String.append "/") "c" t) in Ht as <-.
  split_and!; [done|exact (Hb "b")|exact (Ho "a" eq_refl)].
Defined.

Lemma readdir_lists_witness :
  ∃ l, readdir FileExample.changed "/a" = Ok l ∧ mkFileStat "/a/b" "b" (StatFile 5 "text/plain") ∈ l.
Proof.
  destruct (readdir_lists FileExample.changed "/a" FileExample.tree_is_ok) as [Hl Hok].
  destruct (proj2 Hok) as [l Hrun]; [by eexists; split; [vm_compute|]|].
  exists l. split; [done|]. destruct (Hl l Hrun) as (d & Hd & Hin & _). assert (d = "a") as -> by (vm_compute in Hd; congruence).
  apply Hin. exists "b". split; [by split; [|apply (bool_decide_unpack _); vm_compute]|]. by vm_compute.
Defined.

Lemma meanwhile_changes root : rtc change root (FileExample.meanwhile root).
Proof.
  unfold FileExample.meanwhile. destruct (mkdir root "/late") as [root'|e] eqn:Hm; [|done].
  by eapply rtc_once, change_mkdir.
Qed.
Lemma file_tree_invariant_witness :
  ∃ w root, FileExample.opening = (Ok root, w)
    ∧ root_ok (discard (snd (snd (commit "space" FileExample.meanwhile (w, root))))).
Proof.
  pose proof FileExample.opening_runs as Hr. destruct FileExample.committing_tree as [[info|e] [w root]]; [|discriminate Hr].
  destruct (loadRoot "space" info w) as [[root0|e] w1] eqn:Hload; [|discriminate Hr]. exists w1, root0. split; [reflexivity|].
  destruct (commit "space" FileExample.meanwhile (w1, root0)) as [r [w2 root1]] eqn:Hc.
  refine (proj1 (file_tree_invariant "space" FileExample.config info w root0 w1 w2 (discard root1) Hload _)).
  eapply rtc_l; [exact (step_commit _ _ _ _ _ _ _ meanwhile_changes Hc)|].
  apply rtc_once, step_change, change_discard.
Defined.

Lemma commit_failure_witness :
  ∃ e w', commit (SpaceFileRootCatalog0 := files_catalog true) "space" quiet (FileExample.known, FileExample.changed)
          = (Throw e, (w', FileExample.changed)) ∧ dirty FileExample.changed = true.
Proof.
  assert (is_ok (fst (commit (SpaceFileRootCatalog0 := files_catalog true) "space" quiet (FileExample.known, FileExample.changed))) = false) as Hf
    by vm_cast_no_check (eq_refl false).
  destruct (commit (SpaceFileRootCatalog0 := files_catalog true) "space" quiet _) as [[info|e] [w' root']] eqn:Hc; [done|].
  exists e, w'. destruct (commit_failure (SpaceFileRootCatalog0 := files_catalog true) "space" _ _ _ _ _ Hc) as (-> & Hd & _).
  split; [exact eq_refl|exact Hd].
Defined.

Lemma commit_round_trip_witness :
  ∃ info w1 root1, FileExample.committing_tree = (Ok info, (w1, root1)) ∧ dirty root1 = false ∧ ri_name info = "docs".
Proof.
  pose proof FileExample.commit_runs as Hr.
  destruct FileExample.committing_tree as [[info|e] [w1 root1]] eqn:Hc; [|done].
  destruct (commit_round_trip files_inv "space" FileExample.known FileExample.changed info w1 root1 FileExample.changed_ok
    ltac:(by repeat constructor) ltac:(by intros h n ?) Hc) as (_ & _ & Hd & _ & _ & _ & Hname & _).
  exists info, w1, root1. split; [exact eq_refl|split; [exact Hd|]]. by apply Hname.
Defined.
