(* ===== verification/ControlStore.v ===== *)
(** The control database of [packages/service-cloudflare/src/control-schema.ts]: its
    tables with their CHECK, UNIQUE and FOREIGN KEY constraints, the statements the
    repositories run, and batches of them, which are all or nothing. A statement
    takes the database with the number of rows its predecessor changed (SQLite's
    [changes()]) and yields both anew, or the error that aborts it. *)
From Stdlib Require Import Ascii.
From S2P Require Import Prelude Js JsonText MapSum.

(** * Enumerations *)

Inductive ProviderKind := google | microsoft | github.
Inductive PlatformAuthority := PlatformAdmin | AppsCreate.
Inductive VerifiedEmailSource := GoogleOidc | GithubEmailsApi | UnicasEmailChallenge.
Inductive AppStatus := AppActive | AppSuspended.
Inductive InvitationStatus := Pending | Accepted | Expired | Revoked.
Inductive InvitationKind := AppInvitation | PlatformInvitationKind.
Inductive OAuthMetadataType := OAuthMetadata | OidcMetadata.
Inductive IssuerStatus := IssuerPending | IssuerActive | IssuerStale | IssuerIncompatible | IssuerDisabled.
Inductive KeyAlgorithm := ES256 | RS256 | EdDSA.

#[global] Instance ProviderKind_eq : EqDecision ProviderKind. Proof. solve_decision. Defined.
#[global] Instance PlatformAuthority_eq : EqDecision PlatformAuthority. Proof. solve_decision. Defined.
#[global] Instance VerifiedEmailSource_eq : EqDecision VerifiedEmailSource. Proof. solve_decision. Defined.
#[global] Instance AppStatus_eq : EqDecision AppStatus. Proof. solve_decision. Defined.
#[global] Instance InvitationStatus_eq : EqDecision InvitationStatus. Proof. solve_decision. Defined.
#[global] Instance InvitationKind_eq : EqDecision InvitationKind. Proof. solve_decision. Defined.
#[global] Instance OAuthMetadataType_eq : EqDecision OAuthMetadataType. Proof. solve_decision. Defined.
#[global] Instance IssuerStatus_eq : EqDecision IssuerStatus. Proof. solve_decision. Defined.
#[global] Instance KeyAlgorithm_eq : EqDecision KeyAlgorithm. Proof. solve_decision. Defined.

#[global] Instance PlatformAuthority_countable : Countable PlatformAuthority.
Proof.
  refine (inj_countable' (λ a, match a with PlatformAdmin => true | AppsCreate => false end)
    (λ b : bool, if b then PlatformAdmin else AppsCreate) _).
  by intros [].
Defined.

(** The text the database holds of an authority. *)
Definition authority_text (a : PlatformAuthority) : string :=
  match a with PlatformAdmin => "platform.admin" | AppsCreate => "apps.create" end.

(** * Rows

    A row is the value of its table's map, its primary key the key. Columns that hold
    the JSON of a value hold the value. *)

Record AccountRow := mkAccountRow {
  ac_blocked_at : option Z;
  ac_credential_version : Z;
  ac_primary_verified_email : option string;
  ac_email_verification_source : option VerifiedEmailSource;
  ac_email_verified_at : option Z;
  ac_created_at : Z;
  ac_updated_at : Z
}.

Record ProfileRow := mkProfileRow {
  pf_display_name : option string;
  pf_avatar_url : option string;
  pf_display_name_source : option string;
  pf_avatar_source : option string;
  pf_updated_at : Z
}.

Record IdentityRow := mkIdentityRow {
  id_account_id : string;
  id_provider : ProviderKind;
  id_issuer : string;
  id_subject : string;
  id_linked_at : Z;
  id_last_authenticated_at : option Z;
  id_unlinked_at : option Z;
  id_account_hint : option string;
  id_display_name : option string;
  id_avatar_url : option string
}.

Record AliasRow := mkAliasRow {
  al_canonical_account_id : string;
  al_created_at : Z;
  al_reason : string
}.

(** [result] is 'succeeded' ([true]) or 'denied'. *)
Record PlatformAuditRow := mkPlatformAuditRow {
  pa_actor_account_id : string;
  pa_actor_external_identity_id : string;
  pa_target_account_id : option string;
  pa_target_invitation_id : option string;
  pa_action : string;
  pa_succeeded : bool;
  pa_request_id : option string;
  pa_created_at : Z;
  pa_details_json : list ascii
}.

Record PlatformInvitationRow := mkPlatformInvitationRow {
  pi_email_constraint : string;
  pi_platform_admin : bool;
  pi_apps_create : bool;
  pi_status : InvitationStatus;
  pi_token_hash : string;
  pi_expires_at : Z;
  pi_created_at : Z;
  pi_created_by_account_id : string;
  pi_created_by_external_identity_id : string;
  pi_revision : Z
}.

Record PlatformIdempotencyRow := mkPlatformIdempotencyRow {
  px_payload_hash : string;
  px_invitation_id : string;
  px_sealed_token : string;
  px_expires_at : Z
}.

Record AppRow := mkAppRow {
  ap_display_name : string;
  ap_description : string;
  ap_status : AppStatus;
  ap_created_at : Z;
  ap_revision : Z
}.

Record AppInvitationRow := mkAppInvitationRow {
  ai_app_id : string;
  ai_status : InvitationStatus;
  ai_email_constraint : option string;
  ai_token_hash : string;
  ai_expires_at : Z;
  ai_created_at : Z;
  ai_revision : Z
}.

(** What an issuer's metadata says: columns both issuer tables share. *)
Record IssuerMetadata := mkIssuerMetadata {
  im_issuer : string;
  im_metadata_url : string;
  im_metadata_type : OAuthMetadataType;
  im_authorization_endpoint : string;
  im_token_endpoint : string;
  im_jwks_uri : string;
  im_registration_endpoint : option string;
  im_scopes_supported : list string;
  im_code_challenge_methods_supported : list string
}.

Record IssuerRow := mkIssuerRow {
  is_mode : string;
  is_metadata : IssuerMetadata;
  is_audience : string;
  is_status : IssuerStatus;
  is_verified_at : option Z;
  is_last_refresh_at : option Z;
  is_last_refresh_error : option string;
  is_jwks_digest : string;
  is_capability_max_lifetime_seconds : Z;
  is_revision : Z
}.

Record InspectionRow := mkInspectionRow {
  in_app_id : string;
  in_metadata : IssuerMetadata;
  in_audience : string;
  in_metadata_digest : string;
  in_jwks_digest : string;
  in_challenge_hash : string;
  in_capability_max_lifetime_seconds : Z;
  in_created_at : Z;
  in_expires_at : Z;
  in_used_at : option Z;
  in_revision : Z
}.

Record JwkRow := mkJwkRow { jk_algorithm : KeyAlgorithm; jk_public_jwk : Json }.

(** What a caller says of its request. *)
Record Caller := mkCaller {
  requestId : option string;
  traceId : option string;
  callerChannel : option string;
  oauthClientHandle : option string;
  toolName : option string
}.

Record ControlAuditRow := mkControlAuditRow {
  ca_app_id : option string;
  ca_action : string;
  ca_target : string;
  ca_caller : Caller;
  ca_created_at : Z;
  ca_original_account_id : string;
  ca_external_identity_id : string;
  ca_target_account_id : option string
}.

(** [App] and the receipt of an invitation, which the idempotency tables hold. *)
Record App := mkApp { app_appId : string; app_row : AppRow }.
#[global] Instance AppRow_eq : EqDecision AppRow. Proof. solve_decision. Defined.
#[global] Instance App_eq : EqDecision App. Proof. solve_decision. Defined.
(** How long the receipt of a creation is kept, of
    [packages/admin-protocol/src/concurrency.ts]. *)
Definition CAS_ADMIN_IDEMPOTENCY_RETENTION_MS : Z := 24 * 60 * 60 * 1000.
Record InvitationReceipt := mkReceipt {
  rc_invitationId : string;
  rc_acceptUrl : string;
  rc_expiresAt : Z;
  rc_revision : Z
}.

(** The method is POST and the route /admin/apps in every row. *)
Record AppIdempotencyRow := mkAppIdempotencyRow {
  ax_payload_hash : string;
  ax_response : App;
  ax_created_at : Z;
  ax_expires_at : Z
}.

Record AppInvitationIdempotencyRow := mkAppInvitationIdempotencyRow {
  ix_payload_hash : string;
  ix_response : InvitationReceipt;
  ix_created_at : Z;
  ix_expires_at : Z
}.

Record EmailChallengeBinding := mkBinding {
  eb_invitationKind : InvitationKind;
  eb_invitationId : string;
  eb_invitationTokenHash : string;
  eb_issuer : string;
  eb_subject : string;
  eb_authenticationEventId : string;
  eb_normalizedEmail : string
}.
#[global] Instance EmailChallengeBinding_eq : EqDecision EmailChallengeBinding.
Proof. solve_decision. Defined.

Record EmailChallengeRow := mkEmailChallengeRow {
  ec_binding : EmailChallengeBinding;
  ec_code_hash : string;
  ec_expires_at : Z;
  ec_attempt_count : Z;
  ec_max_attempts : Z;
  ec_send_count : Z;
  ec_last_sent_at : Z;
  ec_verified_at : option Z;
  ec_consumed_at : option Z;
  ec_invalidated_at : option Z;
  ec_created_at : Z
}.

(** * Tables *)

Record ControlDb := mkControlDb {
  cas_accounts : gmap string AccountRow;
  cas_account_profiles : gmap string ProfileRow;
  cas_external_identities : gmap string IdentityRow;
  cas_account_platform_authorities : gmap (string * PlatformAuthority) Z;
  cas_account_aliases : gmap string AliasRow;
  cas_platform_audit_events : gmap string PlatformAuditRow;
  cas_platform_invitations : gmap string PlatformInvitationRow;
  cas_platform_invitation_idempotency : gmap (string * string) PlatformIdempotencyRow;
  cas_apps : gmap string AppRow;
  cas_app_members : gmap (string * string) Z;
  cas_app_member_invitations : gmap string AppInvitationRow;
  cas_app_oauth_issuers : gmap string IssuerRow;
  cas_oauth_issuer_inspections : gmap string InspectionRow;
  cas_oauth_issuer_inspection_keys : gmap (string * string) JwkRow;
  cas_control_audit_events : gmap string ControlAuditRow;
  cas_account_app_idempotency : gmap (string * string) AppIdempotencyRow;
  cas_account_app_invitation_idempotency : gmap (string * string * string) AppInvitationIdempotencyRow;
  cas_email_challenges : gmap string EmailChallengeRow;
  cas_control_meta : gmap string Z
}.

Definition ControlDb_empty : ControlDb :=
  mkControlDb ∅ ∅ ∅ ∅ ∅ ∅ ∅ ∅ ∅ ∅ ∅ ∅ ∅ ∅ ∅ ∅ ∅ ∅ ∅.

Definition set_accounts (t : gmap string AccountRow) (d : ControlDb) : ControlDb :=
  mkControlDb t (cas_account_profiles d) (cas_external_identities d)
    (cas_account_platform_authorities d) (cas_account_aliases d) (cas_platform_audit_events d)
    (cas_platform_invitations d) (cas_platform_invitation_idempotency d) (cas_apps d)
    (cas_app_members d) (cas_app_member_invitations d) (cas_app_oauth_issuers d)
    (cas_oauth_issuer_inspections d) (cas_oauth_issuer_inspection_keys d)
    (cas_control_audit_events d) (cas_account_app_idempotency d)
    (cas_account_app_invitation_idempotency d) (cas_email_challenges d) (cas_control_meta d).
Definition set_account_profiles (t : gmap string ProfileRow) (d : ControlDb) : ControlDb :=
  mkControlDb (cas_accounts d) t (cas_external_identities d) (cas_account_platform_authorities d)
    (cas_account_aliases d) (cas_platform_audit_events d) (cas_platform_invitations d)
    (cas_platform_invitation_idempotency d) (cas_apps d) (cas_app_members d)
    (cas_app_member_invitations d) (cas_app_oauth_issuers d) (cas_oauth_issuer_inspections d)
    (cas_oauth_issuer_inspection_keys d) (cas_control_audit_events d) (cas_account_app_idempotency
    d) (cas_account_app_invitation_idempotency d) (cas_email_challenges d) (cas_control_meta d).
Definition set_external_identities (t : gmap string IdentityRow) (d : ControlDb) : ControlDb :=
  mkControlDb (cas_accounts d) (cas_account_profiles d) t (cas_account_platform_authorities d)
    (cas_account_aliases d) (cas_platform_audit_events d) (cas_platform_invitations d)
    (cas_platform_invitation_idempotency d) (cas_apps d) (cas_app_members d)
    (cas_app_member_invitations d) (cas_app_oauth_issuers d) (cas_oauth_issuer_inspections d)
    (cas_oauth_issuer_inspection_keys d) (cas_control_audit_events d) (cas_account_app_idempotency
    d) (cas_account_app_invitation_idempotency d) (cas_email_challenges d) (cas_control_meta d).
Definition set_account_platform_authorities (t : gmap (string * PlatformAuthority) Z) (d : ControlDb) : ControlDb :=
  mkControlDb (cas_accounts d) (cas_account_profiles d) (cas_external_identities d) t
    (cas_account_aliases d) (cas_platform_audit_events d) (cas_platform_invitations d)
    (cas_platform_invitation_idempotency d) (cas_apps d) (cas_app_members d)
    (cas_app_member_invitations d) (cas_app_oauth_issuers d) (cas_oauth_issuer_inspections d)
    (cas_oauth_issuer_inspection_keys d) (cas_control_audit_events d) (cas_account_app_idempotency
    d) (cas_account_app_invitation_idempotency d) (cas_email_challenges d) (cas_control_meta d).
Definition set_account_aliases (t : gmap string AliasRow) (d : ControlDb) : ControlDb :=
  mkControlDb (cas_accounts d) (cas_account_profiles d) (cas_external_identities d)
    (cas_account_platform_authorities d) t (cas_platform_audit_events d) (cas_platform_invitations
    d) (cas_platform_invitation_idempotency d) (cas_apps d) (cas_app_members d)
    (cas_app_member_invitations d) (cas_app_oauth_issuers d) (cas_oauth_issuer_inspections d)
    (cas_oauth_issuer_inspection_keys d) (cas_control_audit_events d) (cas_account_app_idempotency
    d) (cas_account_app_invitation_idempotency d) (cas_email_challenges d) (cas_control_meta d).
Definition set_platform_audit_events (t : gmap string PlatformAuditRow) (d : ControlDb) : ControlDb :=
  mkControlDb (cas_accounts d) (cas_account_profiles d) (cas_external_identities d)
    (cas_account_platform_authorities d) (cas_account_aliases d) t (cas_platform_invitations d)
    (cas_platform_invitation_idempotency d) (cas_apps d) (cas_app_members d)
    (cas_app_member_invitations d) (cas_app_oauth_issuers d) (cas_oauth_issuer_inspections d)
    (cas_oauth_issuer_inspection_keys d) (cas_control_audit_events d) (cas_account_app_idempotency
    d) (cas_account_app_invitation_idempotency d) (cas_email_challenges d) (cas_control_meta d).
Definition set_platform_invitations (t : gmap string PlatformInvitationRow) (d : ControlDb) : ControlDb :=
  mkControlDb (cas_accounts d) (cas_account_profiles d) (cas_external_identities d)
    (cas_account_platform_authorities d) (cas_account_aliases d) (cas_platform_audit_events d) t
    (cas_platform_invitation_idempotency d) (cas_apps d) (cas_app_members d)
    (cas_app_member_invitations d) (cas_app_oauth_issuers d) (cas_oauth_issuer_inspections d)
    (cas_oauth_issuer_inspection_keys d) (cas_control_audit_events d) (cas_account_app_idempotency
    d) (cas_account_app_invitation_idempotency d) (cas_email_challenges d) (cas_control_meta d).
Definition set_platform_invitation_idempotency (t : gmap (string * string) PlatformIdempotencyRow) (d : ControlDb) : ControlDb :=
  mkControlDb (cas_accounts d) (cas_account_profiles d) (cas_external_identities d)
    (cas_account_platform_authorities d) (cas_account_aliases d) (cas_platform_audit_events d)
    (cas_platform_invitations d) t (cas_apps d) (cas_app_members d) (cas_app_member_invitations d)
    (cas_app_oauth_issuers d) (cas_oauth_issuer_inspections d) (cas_oauth_issuer_inspection_keys
    d) (cas_control_audit_events d) (cas_account_app_idempotency d)
    (cas_account_app_invitation_idempotency d) (cas_email_challenges d) (cas_control_meta d).
Definition set_apps (t : gmap string AppRow) (d : ControlDb) : ControlDb :=
  mkControlDb (cas_accounts d) (cas_account_profiles d) (cas_external_identities d)
    (cas_account_platform_authorities d) (cas_account_aliases d) (cas_platform_audit_events d)
    (cas_platform_invitations d) (cas_platform_invitation_idempotency d) t (cas_app_members d)
    (cas_app_member_invitations d) (cas_app_oauth_issuers d) (cas_oauth_issuer_inspections d)
    (cas_oauth_issuer_inspection_keys d) (cas_control_audit_events d) (cas_account_app_idempotency
    d) (cas_account_app_invitation_idempotency d) (cas_email_challenges d) (cas_control_meta d).
Definition set_app_members (t : gmap (string * string) Z) (d : ControlDb) : ControlDb :=
  mkControlDb (cas_accounts d) (cas_account_profiles d) (cas_external_identities d)
    (cas_account_platform_authorities d) (cas_account_aliases d) (cas_platform_audit_events d)
    (cas_platform_invitations d) (cas_platform_invitation_idempotency d) (cas_apps d) t
    (cas_app_member_invitations d) (cas_app_oauth_issuers d) (cas_oauth_issuer_inspections d)
    (cas_oauth_issuer_inspection_keys d) (cas_control_audit_events d) (cas_account_app_idempotency
    d) (cas_account_app_invitation_idempotency d) (cas_email_challenges d) (cas_control_meta d).
Definition set_app_member_invitations (t : gmap string AppInvitationRow) (d : ControlDb) : ControlDb :=
  mkControlDb (cas_accounts d) (cas_account_profiles d) (cas_external_identities d)
    (cas_account_platform_authorities d) (cas_account_aliases d) (cas_platform_audit_events d)
    (cas_platform_invitations d) (cas_platform_invitation_idempotency d) (cas_apps d)
    (cas_app_members d) t (cas_app_oauth_issuers d) (cas_oauth_issuer_inspections d)
    (cas_oauth_issuer_inspection_keys d) (cas_control_audit_events d) (cas_account_app_idempotency
    d) (cas_account_app_invitation_idempotency d) (cas_email_challenges d) (cas_control_meta d).
Definition set_app_oauth_issuers (t : gmap string IssuerRow) (d : ControlDb) : ControlDb :=
  mkControlDb (cas_accounts d) (cas_account_profiles d) (cas_external_identities d)
    (cas_account_platform_authorities d) (cas_account_aliases d) (cas_platform_audit_events d)
    (cas_platform_invitations d) (cas_platform_invitation_idempotency d) (cas_apps d)
    (cas_app_members d) (cas_app_member_invitations d) t (cas_oauth_issuer_inspections d)
    (cas_oauth_issuer_inspection_keys d) (cas_control_audit_events d) (cas_account_app_idempotency
    d) (cas_account_app_invitation_idempotency d) (cas_email_challenges d) (cas_control_meta d).
Definition set_oauth_issuer_inspections (t : gmap string InspectionRow) (d : ControlDb) : ControlDb :=
  mkControlDb (cas_accounts d) (cas_account_profiles d) (cas_external_identities d)
    (cas_account_platform_authorities d) (cas_account_aliases d) (cas_platform_audit_events d)
    (cas_platform_invitations d) (cas_platform_invitation_idempotency d) (cas_apps d)
    (cas_app_members d) (cas_app_member_invitations d) (cas_app_oauth_issuers d) t
    (cas_oauth_issuer_inspection_keys d) (cas_control_audit_events d) (cas_account_app_idempotency
    d) (cas_account_app_invitation_idempotency d) (cas_email_challenges d) (cas_control_meta d).
Definition set_oauth_issuer_inspection_keys (t : gmap (string * string) JwkRow) (d : ControlDb) : ControlDb :=
  mkControlDb (cas_accounts d) (cas_account_profiles d) (cas_external_identities d)
    (cas_account_platform_authorities d) (cas_account_aliases d) (cas_platform_audit_events d)
    (cas_platform_invitations d) (cas_platform_invitation_idempotency d) (cas_apps d)
    (cas_app_members d) (cas_app_member_invitations d) (cas_app_oauth_issuers d)
    (cas_oauth_issuer_inspections d) t (cas_control_audit_events d) (cas_account_app_idempotency
    d) (cas_account_app_invitation_idempotency d) (cas_email_challenges d) (cas_control_meta d).
Definition set_control_audit_events (t : gmap string ControlAuditRow) (d : ControlDb) : ControlDb :=
  mkControlDb (cas_accounts d) (cas_account_profiles d) (cas_external_identities d)
    (cas_account_platform_authorities d) (cas_account_aliases d) (cas_platform_audit_events d)
    (cas_platform_invitations d) (cas_platform_invitation_idempotency d) (cas_apps d)
    (cas_app_members d) (cas_app_member_invitations d) (cas_app_oauth_issuers d)
    (cas_oauth_issuer_inspections d) (cas_oauth_issuer_inspection_keys d) t
    (cas_account_app_idempotency d) (cas_account_app_invitation_idempotency d)
    (cas_email_challenges d) (cas_control_meta d).
Definition set_account_app_idempotency (t : gmap (string * string) AppIdempotencyRow) (d : ControlDb) : ControlDb :=
  mkControlDb (cas_accounts d) (cas_account_profiles d) (cas_external_identities d)
    (cas_account_platform_authorities d) (cas_account_aliases d) (cas_platform_audit_events d)
    (cas_platform_invitations d) (cas_platform_invitation_idempotency d) (cas_apps d)
    (cas_app_members d) (cas_app_member_invitations d) (cas_app_oauth_issuers d)
    (cas_oauth_issuer_inspections d) (cas_oauth_issuer_inspection_keys d)
    (cas_control_audit_events d) t (cas_account_app_invitation_idempotency d)
    (cas_email_challenges d) (cas_control_meta d).
Definition set_account_app_invitation_idempotency (t : gmap (string * string * string) AppInvitationIdempotencyRow) (d : ControlDb) : ControlDb :=
  mkControlDb (cas_accounts d) (cas_account_profiles d) (cas_external_identities d)
    (cas_account_platform_authorities d) (cas_account_aliases d) (cas_platform_audit_events d)
    (cas_platform_invitations d) (cas_platform_invitation_idempotency d) (cas_apps d)
    (cas_app_members d) (cas_app_member_invitations d) (cas_app_oauth_issuers d)
    (cas_oauth_issuer_inspections d) (cas_oauth_issuer_inspection_keys d)
    (cas_control_audit_events d) (cas_account_app_idempotency d) t (cas_email_challenges d)
    (cas_control_meta d).
Definition set_email_challenges (t : gmap string EmailChallengeRow) (d : ControlDb) : ControlDb :=
  mkControlDb (cas_accounts d) (cas_account_profiles d) (cas_external_identities d)
    (cas_account_platform_authorities d) (cas_account_aliases d) (cas_platform_audit_events d)
    (cas_platform_invitations d) (cas_platform_invitation_idempotency d) (cas_apps d)
    (cas_app_members d) (cas_app_member_invitations d) (cas_app_oauth_issuers d)
    (cas_oauth_issuer_inspections d) (cas_oauth_issuer_inspection_keys d)
    (cas_control_audit_events d) (cas_account_app_idempotency d)
    (cas_account_app_invitation_idempotency d) t (cas_control_meta d).
Definition set_control_meta (t : gmap string Z) (d : ControlDb) : ControlDb :=
  mkControlDb (cas_accounts d) (cas_account_profiles d) (cas_external_identities d)
    (cas_account_platform_authorities d) (cas_account_aliases d) (cas_platform_audit_events d)
    (cas_platform_invitations d) (cas_platform_invitation_idempotency d) (cas_apps d)
    (cas_app_members d) (cas_app_member_invitations d) (cas_app_oauth_issuers d)
    (cas_oauth_issuer_inspections d) (cas_oauth_issuer_inspection_keys d)
    (cas_control_audit_events d) (cas_account_app_idempotency d)
    (cas_account_app_invitation_idempotency d) (cas_email_challenges d) t.

(** * Statements *)

Inductive sql_error :=
| MalformedJson            (* [json_extract('invalid', '$')] *)
| UniqueFailed (table : string)
| CheckFailed (table : string)
| ForeignKeyFailed.

(** The message D1 gives the exception. *)
Definition sql_message (e : sql_error) : string :=
  match e with
  | MalformedJson => "D1_ERROR: malformed JSON: SQLITE_ERROR"
  | UniqueFailed t => "D1_ERROR: UNIQUE constraint failed: " +:+ t +:+ ": SQLITE_CONSTRAINT"
  | CheckFailed t => "D1_ERROR: CHECK constraint failed: " +:+ t +:+ ": SQLITE_CONSTRAINT"
  | ForeignKeyFailed => "D1_ERROR: FOREIGN KEY constraint failed: SQLITE_CONSTRAINT"
  end.

Definition cstmt : Type := ControlDb * Z → result sql_error (ControlDb * Z).

(** A table: its place in the database and its constraints. [t_unique] holds of a new
    row that agrees with no other row of the table on a UNIQUE key; [t_refs] of a row
    whose foreign keys are there. *)
Record Table (K V : Type) `{Countable K} := mkTable {
  t_name : string;
  t_rows : ControlDb → gmap K V;
  t_with : gmap K V → ControlDb → ControlDb;
  t_check : K → V → bool;
  t_unique : gmap K V → K → V → bool;
  t_refs : ControlDb → K → V → bool
}.
Arguments mkTable {K V _ _}. Arguments t_name {K V _ _}. Arguments t_rows {K V _ _}.
Arguments t_with {K V _ _}. Arguments t_check {K V _ _}. Arguments t_unique {K V _ _}.
Arguments t_refs {K V _ _}.

Section statements.
Context {K V : Type} `{Countable K} (t : Table K V).
Implicit Types (d : ControlDb).

Definition stored d (k : K) : bool := bool_decide (is_Some (t_rows t d !! k)).
Definition put (k : K) (v : V) d : ControlDb := t_with t (<[k := v]> (t_rows t d)) d.

(** [INSERT INTO t (...) VALUES (...)]. *)
Definition insert_row (k : K) (v : V) : cstmt := λ '(d, _),
  if negb (t_check t k v) then Throw (CheckFailed (t_name t))
  else if stored d k || negb (t_unique t (t_rows t d) k v) then Throw (UniqueFailed (t_name t))
  else if negb (t_refs t d k v) then Throw ForeignKeyFailed
  else Ok (put k v d, 1).

(** [INSERT INTO t (...) SELECT ... WHERE c], of at most one row. *)
Definition insert_where (c : ControlDb → bool) (k : K) (v : V) : cstmt := λ '(d, n),
  if c d then insert_row k v (d, n) else Ok (d, 0).

(** [INSERT OR IGNORE INTO t (...) SELECT ... WHERE c]: a row that breaks another
    constraint than a foreign key is skipped. *)
Definition insert_or_ignore (c : ControlDb → bool) (k : K) (v : V) : cstmt := λ '(d, n),
  if c d then
    match insert_row k v (d, n) with
    | Throw (UniqueFailed _) | Throw (CheckFailed _) => Ok (d, 0)
    | r => r
    end
  else Ok (d, 0).

(** [UPDATE t SET ... WHERE key = k AND p]; no foreign key is set by any of them. *)
Definition update_row (k : K) (p : ControlDb → V → bool) (f : V → V) : cstmt := λ '(d, _),
  match t_rows t d !! k with
  | Some v =>
      if p d v then
        if negb (t_check t k (f v)) then Throw (CheckFailed (t_name t))
        else if negb (t_unique t (delete k (t_rows t d)) k (f v)) then Throw (UniqueFailed (t_name t))
        else Ok (put k (f v) d, 1)
      else Ok (d, 0)
  | None => Ok (d, 0)
  end.

(** [INSERT INTO t (...) VALUES (...) ON CONFLICT(key) DO UPDATE SET ...]. *)
Definition upsert_row (k : K) (v : V) (f : V → V) : cstmt := λ '(d, n),
  if stored d k then update_row k (λ _ _, true) f (d, n) else insert_row k v (d, n).

(** [DELETE FROM t WHERE key = k AND c]. *)
Definition delete_row (k : K) (c : ControlDb → bool) : cstmt := λ '(d, _),
  if stored d k && c d then Ok (t_with t (delete k (t_rows t d)) d, 1) else Ok (d, 0).

(** [DELETE FROM t WHERE p]. *)
Definition delete_rows (p : V → bool) : cstmt := λ '(d, _),
  Ok (t_with t (filter (λ e, negb (p (snd e)) = true) (t_rows t d)) d,
      mcount (λ _, p) (t_rows t d)).

(** [EXISTS (SELECT 1 FROM t WHERE key = k AND p)]. *)
Definition exists_row d (k : K) (p : V → bool) : bool :=
  match t_rows t d !! k with Some v => p v | None => false end.
End statements.

Definition any {V} : V → bool := λ _, true.
Definition no_check {K V} (k : K) (v : V) : bool := true.

(** [SELECT CASE WHEN c THEN 1 ELSE json_extract('invalid', '$') END]. *)
Definition guard (c : ControlDb → bool) : cstmt := λ '(d, n),
  if c d then Ok (d, n) else Throw MalformedJson.
(** The same of [changes() = 1]. *)
Definition require_changed : cstmt := λ '(d, n),
  if n =? 1 then Ok (d, n) else Throw MalformedJson.

(** A statement [... AND changes() = 1]. *)
Definition when_changed (q : cstmt) : cstmt := λ '(d, n),
  if n =? 1 then q (d, n) else Ok (d, 0).

(** [db.batch(statements)]: nothing is left of a batch that fails. *)
Fixpoint run_statements (l : list cstmt) (s : ControlDb * Z) : result sql_error (ControlDb * Z) :=
  match l with
  | [] => Ok s
  | q :: l => s' ← q s; run_statements l s'
  end.
Definition run_control_batch (l : list cstmt) (d : ControlDb) : result sql_error ControlDb :=
  '(d', _) ← run_statements l (d, 0); Ok d'.

(** * The tables of the schema *)

Definition no_unique {K V} `{Countable K} (m : gmap K V) (k : K) (v : V) : bool := true.
Definition no_refs {K V} (d : ControlDb) (k : K) (v : V) : bool := true.

Definition account_check (k : string) (a : AccountRow) : bool :=
  (strlen k =? 27) && bool_decide (str_take 5 k = "acct_")
  && match ac_blocked_at a with Some t => 0 <=? t | None => true end
  && (1 <=? ac_credential_version a)
  && match ac_email_verified_at a with Some t => 0 <=? t | None => true end
  && match ac_primary_verified_email a, ac_email_verification_source a, ac_email_verified_at a with
     | None, None, None | Some _, Some _, Some _ => true
     | _, _, _ => false
     end.
Definition Accounts : Table string AccountRow :=
  mkTable "cas_accounts" cas_accounts set_accounts account_check no_unique no_refs.

(** [account_id] is there. *)
Definition account_stored (d : ControlDb) (a : string) : bool := stored Accounts d a.

Definition Profiles : Table string ProfileRow :=
  mkTable "cas_account_profiles" cas_account_profiles set_account_profiles no_check no_unique
    (λ d k _, account_stored d k).

(** The unique index of active identities: issuer and subject. *)
Definition same_subject (issuer subject : string) (i : IdentityRow) : bool :=
  bool_decide (id_issuer i = issuer) && bool_decide (id_subject i = subject)
  && bool_decide (id_unlinked_at i = None).
Definition Identities : Table string IdentityRow :=
  mkTable "cas_external_identities" cas_external_identities set_external_identities no_check
    (λ m _ i, negb (bool_decide (id_unlinked_at i = None))
              || (mcount (λ _, same_subject (id_issuer i) (id_subject i)) m =? 0))
    (λ d _ i, account_stored d (id_account_id i)).

Definition identity_stored (d : ControlDb) (i : string) : bool := stored Identities d i.

Definition Authorities : Table (string * PlatformAuthority) Z :=
  mkTable "cas_account_platform_authorities" cas_account_platform_authorities
    set_account_platform_authorities no_check no_unique (λ d k _, account_stored d (fst k)).

Definition optional (p : string → bool) (o : option string) : bool :=
  match o with Some s => p s | None => true end.

Definition PlatformAudit : Table string PlatformAuditRow :=
  mkTable "cas_platform_audit_events" cas_platform_audit_events set_platform_audit_events no_check
    no_unique
    (λ d _ e, account_stored d (pa_actor_account_id e)
              && identity_stored d (pa_actor_external_identity_id e)
              && optional (account_stored d) (pa_target_account_id e)).

Definition PlatformInvitations : Table string PlatformInvitationRow :=
  mkTable "cas_platform_invitations" cas_platform_invitations set_platform_invitations no_check
    (λ m _ v, mcount (λ _ r, bool_decide (pi_token_hash r = pi_token_hash v)) m =? 0)
    (λ d _ v, account_stored d (pi_created_by_account_id v)
              && identity_stored d (pi_created_by_external_identity_id v)).
Definition PlatformIdempotency : Table (string * string) PlatformIdempotencyRow :=
  mkTable "cas_platform_invitation_idempotency" cas_platform_invitation_idempotency
    set_platform_invitation_idempotency no_check no_unique (λ d k _, account_stored d (fst k)).

Definition Apps : Table string AppRow :=
  mkTable "cas_apps" cas_apps set_apps no_check no_unique no_refs.
Definition app_stored (d : ControlDb) (a : string) : bool := stored Apps d a.
Definition AppMembers : Table (string * string) Z :=
  mkTable "cas_app_members" cas_app_members set_app_members no_check no_unique
    (λ d k _, app_stored d (fst k) && account_stored d (snd k)).

Definition AppInvitations : Table string AppInvitationRow :=
  mkTable "cas_app_member_invitations" cas_app_member_invitations set_app_member_invitations no_check
    (λ m _ v, mcount (λ _ r, bool_decide (ai_token_hash r = ai_token_hash v)) m =? 0)
    (λ d _ v, app_stored d (ai_app_id v)).

(** The unique index of issuers. *)
Definition OAuthIssuers : Table string IssuerRow :=
  mkTable "cas_app_oauth_issuers" cas_app_oauth_issuers set_app_oauth_issuers
    (λ _ v, (60 <=? is_capability_max_lifetime_seconds v)
          && (is_capability_max_lifetime_seconds v <=? 604800))
    (λ m _ v, mcount (λ _ r, bool_decide (im_issuer (is_metadata r) = im_issuer (is_metadata v))) m =? 0)
    no_refs.
Definition OAuthInspections : Table string InspectionRow :=
  mkTable "cas_oauth_issuer_inspections" cas_oauth_issuer_inspections set_oauth_issuer_inspections
    no_check no_unique no_refs.
Definition InspectionKeys : Table (string * string) JwkRow :=
  mkTable "cas_oauth_issuer_inspection_keys" cas_oauth_issuer_inspection_keys
    set_oauth_issuer_inspection_keys no_check no_unique (λ d k _, stored OAuthInspections d (fst k)).

Definition ControlAudit : Table string ControlAuditRow :=
  mkTable "cas_control_audit_events" cas_control_audit_events set_control_audit_events no_check no_unique
    (λ d _ e, account_stored d (ca_original_account_id e)
              && identity_stored d (ca_external_identity_id e)
              && optional (account_stored d) (ca_target_account_id e)).

Definition AppIdempotency : Table (string * string) AppIdempotencyRow :=
  mkTable "cas_account_app_idempotency" cas_account_app_idempotency set_account_app_idempotency
    no_check no_unique (λ d k _, account_stored d (fst k)).
Definition AppInvitationIdempotency : Table (string * string * string) AppInvitationIdempotencyRow :=
  mkTable "cas_account_app_invitation_idempotency" cas_account_app_invitation_idempotency
    set_account_app_invitation_idempotency no_check no_unique (λ d k _, account_stored d (fst (fst k))).

Definition challenge_check (k : string) (c : EmailChallengeRow) : bool :=
  (strlen (ec_code_hash c) =? 64) && (0 <=? ec_attempt_count c) && (0 <? ec_max_attempts c)
  && (0 <? ec_send_count c)
  && match ec_verified_at c with Some t => ec_created_at c <=? t | None => true end
  && match ec_consumed_at c, ec_verified_at c with
     | None, _ => true
     | Some t, Some v => v <=? t
     | Some _, None => false
     end
  && match ec_invalidated_at c with Some t => ec_created_at c <=? t | None => true end.
Definition EmailChallenges : Table string EmailChallengeRow :=
  mkTable "cas_email_challenges" cas_email_challenges set_email_challenges challenge_check
    no_unique no_refs.

Definition ControlMeta : Table string Z :=
  mkTable "cas_control_meta" cas_control_meta set_control_meta no_check no_unique no_refs.
