(* ===== verification/AccountBatches.v ===== *)
(** The batches of statements of [packages/service-cloudflare/src/account-repository.ts]:
    every write of accounts, identities, profiles, authorities, Apps, memberships,
    invitations and OAuth issuers. A batch opens with guards that fail it when what it
    relies on is no longer so, so its checks and its writes are one step. *)
From Stdlib Require Import Ascii.
From S2P Require Import Prelude Js JsonText MapSum ControlStore.

(** Who asks: an account and the identity it signed in with. *)
Record Actor := mkActor { actorAccountId : string; actorExternalIdentityId : string }.

(** * Conditions *)

Definition usable_account (d : ControlDb) (a : string) : bool :=
  exists_row Accounts d a (λ r, bool_decide (ac_blocked_at r = None)).
Definition active_identity (d : ControlDb) (i a : string) : bool :=
  exists_row Identities d i (λ r, bool_decide (id_account_id r = a)
                                  && bool_decide (id_unlinked_at r = None)).
Definition is_member (d : ControlDb) (app a : string) : bool := stored AppMembers d (app, a).
Definition has_authority (d : ControlDb) (a : string) (au : PlatformAuthority) : bool :=
  stored Authorities d (a, au).

(** The members of an App. *)
Definition member_count (d : ControlDb) (app : string) : Z :=
  mcount (λ k _, bool_decide (fst k = app)) (cas_app_members d).
(** The administrators that are not blocked. *)
Definition admin_count (d : ControlDb) : Z :=
  mcount (λ k _, bool_decide (snd k = PlatformAdmin) && usable_account d (fst k))
    (cas_account_platform_authorities d).
(** The identities of an account that are still linked. *)
Definition active_count (d : ControlDb) (a : string) : Z :=
  mcount (λ _ r, bool_decide (id_account_id r = a) && bool_decide (id_unlinked_at r = None))
    (cas_external_identities d).

Definition app_actor (d : ControlDb) (actor : Actor) (app : string) : bool :=
  usable_account d (actorAccountId actor)
  && active_identity d (actorExternalIdentityId actor) (actorAccountId actor)
  && is_member d app (actorAccountId actor).
Definition account_actor (d : ControlDb) (actor : Actor) : bool :=
  usable_account d (actorAccountId actor)
  && active_identity d (actorExternalIdentityId actor) (actorAccountId actor).
Definition platform_actor (d : ControlDb) (actor : Actor) : bool :=
  usable_account d (actorAccountId actor)
  && has_authority d (actorAccountId actor) PlatformAdmin
  && active_identity d (actorExternalIdentityId actor) (actorAccountId actor).

(** * Shared statements *)

(** [#requireAppActor], [#requireAccountActor], [#requirePlatformActor]. *)
Definition requireAppActor (actor : Actor) (app : string) : cstmt :=
  guard (λ d, app_actor d actor app).
Definition requireAccountActor (actor : Actor) : cstmt := guard (λ d, account_actor d actor).
Definition requirePlatformActor (actor : Actor) : cstmt := guard (λ d, platform_actor d actor).

(** [#appAuditStatement]. *)
Definition appAuditStatement (actor : Actor) (caller : Caller) (app action target eventId : string)
    (now : Z) : cstmt :=
  insert_where ControlAudit
    (λ d, active_identity d (actorExternalIdentityId actor) (actorAccountId actor)) eventId
    (mkControlAuditRow (Some app) action target caller now (actorAccountId actor)
       (actorExternalIdentityId actor) None).

Definition snapshot_init (c : ControlDb → bool) : cstmt :=
  insert_or_ignore ControlMeta c "snapshot" 0.
Definition snapshot_bump (c : ControlDb → bool) : cstmt :=
  update_row ControlMeta "snapshot" (λ d _, c d) (λ n, n + 1).

(** [#controlSnapshotStatements], and [#accountSnapshotStatements], which act when
    the audit event of the batch was written. *)
Definition controlSnapshotStatements : list cstmt :=
  [snapshot_init (λ _, true); snapshot_bump (λ _, true)].
Definition audited (eventId : string) (d : ControlDb) : bool := stored PlatformAudit d eventId.
Definition accountSnapshotStatements (eventId : string) : list cstmt :=
  [snapshot_init (audited eventId); snapshot_bump (audited eventId)].

(** * Accounts and identities *)

(** [createAccountWithIdentity]. *)
Definition create_account_batch (accountId identityId : string) (account : AccountRow)
    (profile : ProfileRow) (identity : IdentityRow) : list cstmt :=
  [insert_row Accounts accountId account;
   insert_row Profiles accountId profile;
   insert_row Identities identityId identity].

(** The account is usable and still at the version the caller saw. *)
Definition at_version (version : Z) (r : AccountRow) : bool :=
  bool_decide (ac_blocked_at r = None) && (ac_credential_version r =? version).
Definition next_version (now : Z) (r : AccountRow) : AccountRow :=
  mkAccountRow (ac_blocked_at r) (ac_credential_version r + 1) (ac_primary_verified_email r)
    (ac_email_verification_source r) (ac_email_verified_at r) (ac_created_at r) now.
Definition increment_version (a : string) (version now : Z) : cstmt :=
  update_row Accounts a (λ _, at_version version) (next_version now).

Definition coalesce {A} (a b : option A) : option A := match a with Some _ => a | None => b end.
(** A linked identity names and pictures a profile that has neither. *)
Definition adopt_profile (identityId : string) (displayName avatarUrl : option string) (now : Z)
    (p : ProfileRow) : ProfileRow :=
  let named := bool_decide (pf_display_name p = None) && bool_decide (displayName ≠ None) in
  let pictured := bool_decide (pf_avatar_url p = None) && bool_decide (avatarUrl ≠ None) in
  mkProfileRow (coalesce (pf_display_name p) displayName) (coalesce (pf_avatar_url p) avatarUrl)
    (if named then Some identityId else pf_display_name_source p)
    (if pictured then Some identityId else pf_avatar_source p)
    (if named || pictured then now else pf_updated_at p).

(** [commitLinkIdentity]. *)
Definition link_identity_batch (a : string) (version : Z) (identityId : string)
    (identity : IdentityRow) (displayName avatarUrl : option string) (now : Z) : list cstmt :=
  [guard (λ d, exists_row Accounts d a (at_version version));
   insert_row Identities identityId identity;
   update_row Profiles a (λ _ _, true) (adopt_profile identityId displayName avatarUrl now);
   increment_version a version now;
   require_changed].

Definition unlink_identity (now : Z) (r : IdentityRow) : IdentityRow :=
  mkIdentityRow (id_account_id r) (id_provider r) (id_issuer r) (id_subject r) (id_linked_at r)
    (id_last_authenticated_at r) (Some now) (id_account_hint r) (id_display_name r) (id_avatar_url r).
(** A profile keeps nothing that came from the identity. *)
Definition clear_profile_source (identityId : string) (now : Z) (p : ProfileRow) : ProfileRow :=
  let named := bool_decide (pf_display_name_source p = Some identityId) in
  let pictured := bool_decide (pf_avatar_source p = Some identityId) in
  mkProfileRow (if named then None else pf_display_name p)
    (if pictured then None else pf_avatar_url p)
    (if named then None else pf_display_name_source p)
    (if pictured then None else pf_avatar_source p)
    (if named || pictured then now else pf_updated_at p).

(** [commitUnlinkIdentity]. *)
Definition unlink_identity_batch (a : string) (version : Z) (target remaining : string) (now : Z)
    : list cstmt :=
  [guard (λ d, exists_row Accounts d a (at_version version));
   guard (λ d, bool_decide (target ≠ remaining) && active_identity d target a
               && active_identity d remaining a && (2 <=? active_count d a));
   update_row Identities target
     (λ _ r, bool_decide (id_account_id r = a) && bool_decide (id_unlinked_at r = None))
     (unlink_identity now);
   require_changed;
   update_row Profiles a (λ _ _, true) (clear_profile_source target now);
   increment_version a version now;
   require_changed].

(** [updateProfile]: each part is assigned when it is given. *)
Definition assign_profile (displayName : option (option string))
    (avatar : option (option (string * string))) (now : Z) (p : ProfileRow) : ProfileRow :=
  mkProfileRow
    (match displayName with Some n => n | None => pf_display_name p end)
    (match avatar with Some (Some (url, _)) => Some url | Some None => None | None => pf_avatar_url p end)
    (match displayName with Some _ => Some "user" | None => pf_display_name_source p end)
    (match avatar with
     | Some (Some (_, source)) => Some source
     | Some None => Some "user"
     | None => pf_avatar_source p
     end)
    now.
Definition update_profile_batch (a : string) (displayName : option (option string))
    (avatar : option (option (string * string))) (now : Z) : list cstmt :=
  [update_row Profiles a (λ _ _, true) (assign_profile displayName avatar now);
   upsert_row ControlMeta "snapshot" 1 (λ n, n + 1)].

(** [appendAccountSessionAudit]: one statement. *)
Definition session_audit_stmt (actor : Actor) (caller : Caller) (action eventId : string) (now : Z)
    : cstmt :=
  insert_where ControlAudit (λ d, account_actor d actor) eventId
    (mkControlAuditRow None action (actorAccountId actor)
       (mkCaller (requestId caller) (traceId caller) (callerChannel caller) None None) now
       (actorAccountId actor) (actorExternalIdentityId actor) None).

(** * Platform authorities and blocks *)

Definition platform_audit_row (actor : Actor) (target action : string) (request : option string)
    (now : Z) (details : list ascii) : PlatformAuditRow :=
  mkPlatformAuditRow (actorAccountId actor) (actorExternalIdentityId actor) (Some target) None action
    true request now details.
Definition authority_details (au : PlatformAuthority) (grant : bool) : list ascii :=
  JSON_stringify (JObj [("authority", JStr (authority_text au)); ("granted", JBool grant)]).

(** [commitPlatformAuthority]. *)
Definition platform_authority_batch (actor : Actor) (target : string) (au : PlatformAuthority)
    (grant : bool) (eventId : string) (request : option string) (now : Z) : list cstmt :=
  [requirePlatformActor actor;
   guard (λ d, account_stored d target);
   guard (λ d, grant || negb (bool_decide (au = PlatformAdmin))
               || negb (has_authority d target PlatformAdmin)
               || exists_row Accounts d target (λ r, bool_decide (ac_blocked_at r ≠ None))
               || (1 <? admin_count d));
   insert_where PlatformAudit
     (λ d, active_identity d (actorExternalIdentityId actor) (actorAccountId actor)
           && (if grant then negb (has_authority d target au) else has_authority d target au))
     eventId
     (platform_audit_row actor target "platform_access.authority_changed" request now
        (authority_details au grant));
   (if grant then insert_or_ignore Authorities (audited eventId) (target, au) now
    else delete_row Authorities (target, au) (audited eventId))]
  ++ accountSnapshotStatements eventId.

Definition block_account (now : Z) (r : AccountRow) : AccountRow :=
  mkAccountRow (Some now) (ac_credential_version r + 1) (ac_primary_verified_email r)
    (ac_email_verification_source r) (ac_email_verified_at r) (ac_created_at r) now.
Definition restore_account (now : Z) (r : AccountRow) : AccountRow :=
  mkAccountRow None (ac_credential_version r) (ac_primary_verified_email r)
    (ac_email_verification_source r) (ac_email_verified_at r) (ac_created_at r) now.

(** [commitPlatformBlock]. *)
Definition platform_block_batch (actor : Actor) (target : string) (blocked : bool)
    (eventId : string) (request : option string) (now : Z) : list cstmt :=
  [requirePlatformActor actor;
   guard (λ d, account_stored d target);
   guard (λ _, negb blocked || bool_decide (actorAccountId actor ≠ target));
   guard (λ d, negb blocked
               || exists_row Accounts d target (λ r, bool_decide (ac_blocked_at r ≠ None))
               || negb (has_authority d target PlatformAdmin)
               || (1 <? admin_count d));
   insert_where PlatformAudit
     (λ d, active_identity d (actorExternalIdentityId actor) (actorAccountId actor)
           && exists_row Accounts d target
                (λ r, if blocked then bool_decide (ac_blocked_at r = None)
                      else bool_decide (ac_blocked_at r ≠ None)))
     eventId
     (platform_audit_row actor target
        (if blocked then "platform_access.blocked" else "platform_access.restored") request now
        (JSON_stringify (JObj [])));
   update_row Accounts target (λ d _, audited eventId d)
     (if blocked then block_account now else restore_account now)]
  ++ accountSnapshotStatements eventId.

(** * Apps and members *)

(** [commitCreateAccountApp]. *)
Definition create_app_batch (actor : Actor) (caller : Caller) (app : App)
    (idempotency : option (string * AppIdempotencyRow)) (eventId : string) : list cstmt :=
  let a := actorAccountId actor in
  let created := ap_created_at (app_row app) in
  [guard (λ d, usable_account d a && active_identity d (actorExternalIdentityId actor) a
               && has_authority d a AppsCreate);
   insert_row Apps (app_appId app) (app_row app);
   insert_row AppMembers (app_appId app, a) created;
   insert_row ControlAudit eventId
     (mkControlAuditRow (Some (app_appId app)) "app.created" (app_appId app) caller created a
        (actorExternalIdentityId actor) None)]
  ++ match idempotency with
     | Some (key, row) => [insert_row AppIdempotency (a, key) row]
     | None => []
     end
  ++ controlSnapshotStatements.

(** [commitPatchAccountApp]; the snapshot row is not created. *)
Definition patch_app_batch (actor : Actor) (caller : Caller) (app : App) (expectedRevision : Z)
    (action eventId : string) (now : Z) : list cstmt :=
  let a := actorAccountId actor in
  [guard (λ d, is_member d (app_appId app) a
               && active_identity d (actorExternalIdentityId actor) a
               && exists_row Apps d (app_appId app) (λ r, ap_revision r =? expectedRevision));
   update_row Apps (app_appId app) (λ _ r, ap_revision r =? expectedRevision)
     (λ r, mkAppRow (ap_display_name (app_row app)) (ap_description (app_row app))
             (ap_status (app_row app)) (ap_created_at r) (ap_revision (app_row app)));
   insert_row ControlAudit eventId
     (mkControlAuditRow (Some (app_appId app)) action (app_appId app) caller now a
        (actorExternalIdentityId actor) None);
   snapshot_bump (λ _, true)].

(** [commitRemoveAppMembership]. *)
Definition remove_member_batch (actor : Actor) (caller : Caller) (app target eventId : string)
    (now : Z) : list cstmt :=
  let a := actorAccountId actor in
  [guard (λ d, is_member d app a && active_identity d (actorExternalIdentityId actor) a);
   guard (λ d, negb (is_member d app target) || (1 <? member_count d app));
   insert_where ControlAudit
     (λ d, active_identity d (actorExternalIdentityId actor) a && is_member d app target) eventId
     (mkControlAuditRow (Some app) "member.removed" target
        (mkCaller (requestId caller) (traceId caller) (callerChannel caller) None None) now a
        (actorExternalIdentityId actor) (Some target));
   delete_row AppMembers (app, target) (λ _, true);
   when_changed (snapshot_bump (λ _, true))].

(** [appendAccountAppGcAudit]: one statement. *)
Definition app_gc_audit_stmt (actor : Actor) (caller : Caller) (app eventId : string) (now : Z)
    : cstmt :=
  insert_where ControlAudit (λ d, app_actor d actor app) eventId
    (mkControlAuditRow (Some app) "app.gc.requested" app caller now (actorAccountId actor)
       (actorExternalIdentityId actor) None).

(** * Invitations to an App *)

(** [commitCreateAccountAppInvitation]. *)
Definition create_invitation_batch (actor : Actor) (caller : Caller) (invitationId : string)
    (invitation : AppInvitationRow) (idempotency : option (string * AppInvitationIdempotencyRow))
    (eventId : string) (now : Z) : list cstmt :=
  let app := ai_app_id invitation in
  [requireAppActor actor app;
   insert_row AppInvitations invitationId
     (mkAppInvitationRow app Pending (ai_email_constraint invitation) (ai_token_hash invitation)
        (ai_expires_at invitation) (ai_created_at invitation) 1);
   appAuditStatement actor caller app "member.invited" invitationId eventId now]
  ++ controlSnapshotStatements
  ++ match idempotency with
     | Some (key, row) => [insert_row AppInvitationIdempotency (actorAccountId actor, app, key) row]
     | None => []
     end.

Definition set_invitation_status (status : InvitationStatus) (r : AppInvitationRow) : AppInvitationRow :=
  mkAppInvitationRow (ai_app_id r) status (ai_email_constraint r) (ai_token_hash r)
    (ai_expires_at r) (ai_created_at r) (ai_revision r + 1).

(** [commitAccountAppInvitationTransition]: to 'revoked' ([revoke]) or 'expired'. *)
Definition invitation_transition_batch (actor : Actor) (caller : Caller) (app invitationId : string)
    (expectedRevision : Z) (revoke : bool) (eventId : string) (now : Z) : list cstmt :=
  [requireAppActor actor app;
   update_row AppInvitations invitationId
     (λ _ r, bool_decide (ai_app_id r = app) && (ai_revision r =? expectedRevision)
             && bool_decide (ai_status r = Pending)
             && (if revoke then now <? ai_expires_at r else ai_expires_at r <=? now))
     (set_invitation_status (if revoke then Revoked else Expired));
   require_changed;
   appAuditStatement actor caller app
     (if revoke then "member.invitation.revoked" else "member.invitation.expired")
     invitationId eventId now]
  ++ controlSnapshotStatements.

Record PrimaryVerifiedEmail := mkPrimaryEmail {
  pe_normalizedEmail : string;
  pe_source : VerifiedEmailSource;
  pe_verifiedAt : Z
}.

(** The challenge [evidence] names was answered for this invitation, by this identity,
    in this authentication, and is not used up: it is now. *)
Definition consume_challenge (kind : InvitationKind) (invitationId tokenHash : string) (actor : Actor)
    (challengeId authenticationEventId email : string) (now : Z) : list cstmt :=
  [update_row EmailChallenges challengeId
     (λ d c,
       let b := ec_binding c in
       bool_decide (eb_invitationKind b = kind) && bool_decide (eb_invitationId b = invitationId)
       && bool_decide (eb_invitationTokenHash b = tokenHash)
       && exists_row Identities d (actorExternalIdentityId actor)
            (λ i, bool_decide (id_account_id i = actorAccountId actor)
                  && bool_decide (id_unlinked_at i = None)
                  && bool_decide (eb_issuer b = id_issuer i) && bool_decide (eb_subject b = id_subject i))
       && bool_decide (eb_authenticationEventId b = authenticationEventId)
       && bool_decide (eb_normalizedEmail b = email)
       && bool_decide (ec_verified_at c ≠ None) && bool_decide (ec_consumed_at c = None)
       && bool_decide (ec_invalidated_at c = None) && (now <? ec_expires_at c))
     (λ c, mkEmailChallengeRow (ec_binding c) (ec_code_hash c) (ec_expires_at c)
             (ec_attempt_count c) (ec_max_attempts c) (ec_send_count c) (ec_last_sent_at c)
             (ec_verified_at c) (Some now) (ec_invalidated_at c) (ec_created_at c));
   require_changed].

(** An account without a primary address takes the one that was verified. *)
Definition initialize_primary (a : string) (email : PrimaryVerifiedEmail) (now : Z) : cstmt :=
  update_row Accounts a (λ _ r, bool_decide (ac_primary_verified_email r = None))
    (λ r, mkAccountRow (ac_blocked_at r) (ac_credential_version r) (Some (pe_normalizedEmail email))
            (Some (pe_source email)) (Some (pe_verifiedAt email)) (ac_created_at r)
            (Z.max (ac_updated_at r) now)).

(** [commitAcceptAccountAppInvitation]. *)
Definition accept_invitation_batch (actor : Actor) (caller : Caller) (app invitationId tokenHash : string)
    (primary : option PrimaryVerifiedEmail) (challenge : option (string * string))
    (eventId : string) (now : Z) : list cstmt :=
  [requireAccountActor actor]
  ++ match challenge, primary with
     | Some (challengeId, authenticationEventId), Some email =>
         consume_challenge AppInvitation invitationId tokenHash actor challengeId
           authenticationEventId (pe_normalizedEmail email) now
     | _, _ => []
     end
  ++ [update_row AppInvitations invitationId
        (λ _ r, bool_decide (ai_app_id r = app) && bool_decide (ai_token_hash r = tokenHash)
                && bool_decide (ai_status r = Pending) && (now <? ai_expires_at r))
        (set_invitation_status Accepted);
      require_changed;
      insert_or_ignore AppMembers
        (λ d, active_identity d (actorExternalIdentityId actor) (actorAccountId actor))
        (app, actorAccountId actor) now]
  ++ match primary with Some email => [initialize_primary (actorAccountId actor) email now] | None => [] end
  ++ [appAuditStatement actor caller app "member.invitation.accepted" invitationId eventId now]
  ++ controlSnapshotStatements.

(** * OAuth issuers *)

Record DiscoveredOAuthJwk := mkJwk { dk_kid : string; dk_row : JwkRow }.

(** [commitInspectAccountOAuthIssuer]. *)
Definition inspect_issuer_batch (actor : Actor) (caller : Caller) (inspectionId : string)
    (inspection : InspectionRow) (keys : list DiscoveredOAuthJwk) (eventId : string) (now : Z)
    : list cstmt :=
  let app := in_app_id inspection in
  let issuer := im_issuer (in_metadata inspection) in
  [requireAppActor actor app;
   guard (λ d, mcount (λ k r, bool_decide (im_issuer (is_metadata r) = issuer) && bool_decide (k ≠ app))
                 (cas_app_oauth_issuers d) =? 0);
   insert_row OAuthInspections inspectionId
     (mkInspectionRow app (in_metadata inspection) (in_audience inspection)
        (in_metadata_digest inspection) (in_jwks_digest inspection) (in_challenge_hash inspection)
        (in_capability_max_lifetime_seconds inspection) (in_created_at inspection)
        (in_expires_at inspection) None 1)]
  ++ ((λ key, insert_row InspectionKeys (inspectionId, dk_kid key) (dk_row key)) <$> keys)
  ++ [appAuditStatement actor caller app "oauth_issuer.inspected" issuer eventId now]
  ++ controlSnapshotStatements.

Definition use_inspection (now : Z) (r : InspectionRow) : InspectionRow :=
  mkInspectionRow (in_app_id r) (in_metadata r) (in_audience r) (in_metadata_digest r)
    (in_jwks_digest r) (in_challenge_hash r) (in_capability_max_lifetime_seconds r)
    (in_created_at r) (in_expires_at r) (Some now) (in_revision r + 1).

(** [commitActivateAccountOAuthIssuer]. *)
Definition activate_issuer_batch (actor : Actor) (caller : Caller) (app inspectionId : string)
    (expectedIssuerRevision : option Z) (issuer : IssuerRow) (eventId : string) (now : Z)
    : list cstmt :=
  let row := mkIssuerRow "external" (is_metadata issuer) (is_audience issuer) IssuerActive (Some now)
               (Some now) None (is_jwks_digest issuer) (is_capability_max_lifetime_seconds issuer)
               (is_revision issuer) in
  [requireAppActor actor app;
   guard (λ d, match expectedIssuerRevision with
               | None => negb (stored OAuthIssuers d app)
               | Some n => exists_row OAuthIssuers d app (λ r, is_revision r =? n)
               end);
   update_row OAuthInspections inspectionId
     (λ _ r, bool_decide (in_app_id r = app) && bool_decide (in_used_at r = None)
             && (now <? in_expires_at r))
     (use_inspection now);
   require_changed;
   upsert_row OAuthIssuers app row (λ _, row);
   appAuditStatement actor caller app
     (match expectedIssuerRevision with
      | None => "oauth_issuer.activated"
      | Some _ => "oauth_issuer.replaced"
      end) (im_issuer (is_metadata issuer)) eventId now]
  ++ controlSnapshotStatements.
