(* ===== verification/InvitationBatches.v ===== *)
(** The writes of [packages/service-cloudflare/src/platform-invitation-repository.ts]
    and [email-challenge-repository.ts]: invitations to the platform with the
    authorities they grant, and the challenges that prove an email address. *)
From Stdlib Require Import Ascii.
From S2P Require Import Prelude Js JsonText MapSum ControlStore AccountBatches.

(** * Platform invitations *)

Record StoredPlatformInvitation := mkStoredInvitation {
  si_invitationId : string;
  si_emailConstraint : string;
  si_authorities : list PlatformAuthority;
  si_status : InvitationStatus;
  si_tokenHash : string;
  si_expiresAt : Z;
  si_createdAt : Z;
  si_createdByAccountId : string;
  si_revision : Z
}.

Definition includes_authority (au : PlatformAuthority) (l : list PlatformAuthority) : bool :=
  bool_decide (au ∈ l).

(** [#requirePlatformAdmin] and [#requireActiveIdentity]: joins through the keys of
    the identity, the account and the authority. *)
Definition invitation_admin (d : ControlDb) (actor : Actor) : bool :=
  active_identity d (actorExternalIdentityId actor) (actorAccountId actor)
  && usable_account d (actorAccountId actor)
  && has_authority d (actorAccountId actor) PlatformAdmin.
Definition invitation_identity (d : ControlDb) (actor : Actor) : bool :=
  active_identity d (actorExternalIdentityId actor) (actorAccountId actor)
  && usable_account d (actorAccountId actor).

(** [#audit]. *)
Definition invitation_audit (eventId : string) (actor : Actor) (target : option string)
    (invitationId action : string) (request : option string) (createdAt : Z) : cstmt :=
  insert_row PlatformAudit eventId
    (mkPlatformAuditRow (actorAccountId actor) (actorExternalIdentityId actor) target
       (Some invitationId) action true request createdAt (JSON_stringify (JObj []))).

(** [commitCreateInvitation]. *)
Definition create_platform_invitation_batch (actor : Actor) (invitation : StoredPlatformInvitation)
    (key : string) (idempotency : PlatformIdempotencyRow) (eventId : string)
    (request : option string) : list cstmt :=
  [guard (λ d, invitation_admin d actor);
   insert_row PlatformInvitations (si_invitationId invitation)
     (mkPlatformInvitationRow (si_emailConstraint invitation)
        (includes_authority PlatformAdmin (si_authorities invitation))
        (includes_authority AppsCreate (si_authorities invitation)) Pending
        (si_tokenHash invitation) (si_expiresAt invitation) (si_createdAt invitation)
        (actorAccountId actor) (actorExternalIdentityId actor) 1);
   insert_row PlatformIdempotency (actorAccountId actor, key) idempotency;
   invitation_audit eventId actor None (si_invitationId invitation) "platform_invitation.created"
     request (si_createdAt invitation)]
  ++ controlSnapshotStatements.

Definition set_platform_status (status : InvitationStatus) (r : PlatformInvitationRow)
    : PlatformInvitationRow :=
  mkPlatformInvitationRow (pi_email_constraint r) (pi_platform_admin r) (pi_apps_create r) status
    (pi_token_hash r) (pi_expires_at r) (pi_created_at r) (pi_created_by_account_id r)
    (pi_created_by_external_identity_id r) (pi_revision r + 1).

(** [commitRevokeInvitation]. *)
Definition revoke_platform_invitation_batch (actor : Actor) (invitationId : string)
    (expectedRevision now : Z) (eventId : string) (request : option string) : list cstmt :=
  [guard (λ d, invitation_admin d actor);
   update_row PlatformInvitations invitationId
     (λ _ r, (pi_revision r =? expectedRevision) && bool_decide (pi_status r = Pending)
             && (now <? pi_expires_at r))
     (set_platform_status Revoked);
   require_changed;
   invitation_audit eventId actor None invitationId "platform_invitation.revoked" request now]
  ++ controlSnapshotStatements.

(** [grant(authority)]. *)
Definition grant_authority (a : string) (au : PlatformAuthority) (granted : list PlatformAuthority)
    (now : Z) : cstmt :=
  insert_or_ignore Authorities (λ _, includes_authority au granted) (a, au) now.

(** [commitAcceptInvitation]. *)
Definition accept_platform_invitation_batch (actor : Actor) (invitation : StoredPlatformInvitation)
    (tokenHash : string) (email : PrimaryVerifiedEmail) (challenge : option (string * string))
    (now : Z) (eventId : string) (request : option string) : list cstmt :=
  let a := actorAccountId actor in
  [guard (λ d, invitation_identity d actor)]
  ++ match challenge with
     | Some (challengeId, authenticationEventId) =>
         consume_challenge PlatformInvitationKind (si_invitationId invitation) tokenHash actor
           challengeId authenticationEventId (pe_normalizedEmail email) now
     | None => []
     end
  ++ [update_row PlatformInvitations (si_invitationId invitation)
        (λ _ r, bool_decide (pi_token_hash r = tokenHash) && bool_decide (pi_status r = Pending)
                && (now <? pi_expires_at r))
        (set_platform_status Accepted);
      require_changed;
      grant_authority a PlatformAdmin (si_authorities invitation) now;
      grant_authority a AppsCreate (si_authorities invitation) now;
      initialize_primary a email now;
      invitation_audit eventId actor (Some a) (si_invitationId invitation)
        "platform_invitation.accepted" request now]
  ++ controlSnapshotStatements.

(** * Email challenges *)

Definition EMAIL_CHALLENGE_TTL_MS : Z := 10 * 60 * 1000.
Definition EMAIL_CHALLENGE_MAX_ATTEMPTS : Z := 5.
Definition EMAIL_CHALLENGE_RESEND_INTERVAL_MS : Z := 60 * 1000.
Definition EMAIL_CHALLENGE_MAX_SENDS : Z := 3.

Record EmailChallengeLimits := mkLimits {
  minimumIntervalMs : Z;
  windowMs : Z;
  maxSends : Z
}.

(** Challenges to the same address for the same invitation and subject. *)
Definition same_recipient (b : EmailChallengeBinding) (c : EmailChallengeRow) : bool :=
  let b' := ec_binding c in
  bool_decide (eb_invitationKind b' = eb_invitationKind b)
  && bool_decide (eb_invitationId b' = eb_invitationId b)
  && bool_decide (eb_invitationTokenHash b' = eb_invitationTokenHash b)
  && bool_decide (eb_issuer b' = eb_issuer b) && bool_decide (eb_subject b' = eb_subject b)
  && bool_decide (eb_normalizedEmail b' = eb_normalizedEmail b).

(** How many of them were sent after [since], and how many messages. *)
Definition sent_since (d : ControlDb) (b : EmailChallengeBinding) (since : Z) : Z :=
  mcount (λ _ c, same_recipient b c && (since <? ec_last_sent_at c)) (cas_email_challenges d).
Definition sends_since (d : ControlDb) (b : EmailChallengeBinding) (since : Z) : Z :=
  msum (λ _ c, if same_recipient b c && (since <? ec_last_sent_at c) then ec_send_count c else 0)
    (cas_email_challenges d).
(** The rate limit at [now]. *)
Definition may_send (d : ControlDb) (b : EmailChallengeBinding) (limits : EmailChallengeLimits)
    (now : Z) : bool :=
  (sent_since d b (now - minimumIntervalMs limits) =? 0)
  && (sends_since d b (now - windowMs limits) <? maxSends limits).

(** [create]. *)
Definition create_challenge_batch (challengeId : string) (row : EmailChallengeRow)
    (limits : EmailChallengeLimits) : list cstmt :=
  [delete_rows EmailChallenges (λ c, ec_expires_at c <=? ec_created_at row - 24 * 60 * 60 * 1000);
   insert_where EmailChallenges (λ d, may_send d (ec_binding row) limits (ec_created_at row))
     challengeId row].

(** [pruneExpired]. *)
Definition prune_challenges_stmt (now : Z) : cstmt :=
  delete_rows EmailChallenges (λ c, ec_expires_at c <=? now).

(** [invalidate]. *)
Definition invalidate_challenge_stmt (challengeId : string) (b : EmailChallengeBinding) (now : Z)
    : cstmt :=
  update_row EmailChallenges challengeId
    (λ _ c, bool_decide (ec_binding c = b) && bool_decide (ec_consumed_at c = None)
            && bool_decide (ec_invalidated_at c = None))
    (λ c, mkEmailChallengeRow (ec_binding c) (ec_code_hash c) (ec_expires_at c) (ec_attempt_count c)
            (ec_max_attempts c) (ec_send_count c) (ec_last_sent_at c) (ec_verified_at c)
            (ec_consumed_at c) (Some now) (ec_created_at c)).

(** The statement of [verify]: one attempt is counted, and it verifies when the code
    matched. *)
Definition verify_challenge_stmt (challengeId codeHash : string) (attemptCount : Z) (matches : bool)
    (now : Z) : cstmt :=
  update_row EmailChallenges challengeId
    (λ _ c, (ec_attempt_count c =? attemptCount) && bool_decide (ec_verified_at c = None)
            && bool_decide (ec_code_hash c = codeHash) && bool_decide (ec_consumed_at c = None)
            && bool_decide (ec_invalidated_at c = None) && (now <? ec_expires_at c))
    (λ c, mkEmailChallengeRow (ec_binding c) (ec_code_hash c) (ec_expires_at c)
            (ec_attempt_count c + 1) (ec_max_attempts c) (ec_send_count c) (ec_last_sent_at c)
            (if matches then Some now else None) (ec_consumed_at c) (ec_invalidated_at c)
            (ec_created_at c)).

(** The statement of [resend]. *)
Definition resend_challenge_stmt (challengeId : string) (b : EmailChallengeBinding) (codeHash : string)
    (sendCount lastSentAt : Z) (limits : EmailChallengeLimits) (now : Z) : cstmt :=
  update_row EmailChallenges challengeId
    (λ d c, (ec_send_count c =? sendCount) && (ec_last_sent_at c =? lastSentAt)
            && bool_decide (ec_verified_at c = None) && bool_decide (ec_consumed_at c = None)
            && bool_decide (ec_invalidated_at c = None) && (now <? ec_expires_at c)
            && (ec_attempt_count c <? ec_max_attempts c) && may_send d b limits now)
    (λ c, mkEmailChallengeRow (ec_binding c) codeHash (ec_expires_at c) (ec_attempt_count c)
            (ec_max_attempts c) (ec_send_count c + 1) now (ec_verified_at c) (ec_consumed_at c)
            (ec_invalidated_at c) (ec_created_at c)).
