(* ===== verification/ControlWorld.v ===== *)
(** The world of the control plane: its database, the clock, the source of random
    bytes, and a schedule of what happens at every call of the database. A call is
    served, refused, or loses its response after it took effect; before it, time
    passes and other workers commit commands: any write of the repositories, with the
    arguments the services give it, in any number. *)
From Stdlib Require Import Ascii.
From S2P Require Import Prelude Js JsString JsonText MapSum Errors World ControlStore.
From S2P Require Import AccountBatches InvitationBatches.

(** * Commands *)

Inductive Command :=
| CreateAccount (accountId identityId : string) (account : AccountRow) (profile : ProfileRow)
    (identity : IdentityRow)
| LinkIdentity (a : string) (version : Z) (identityId : string) (identity : IdentityRow)
    (displayName avatarUrl : option string) (now : Z)
| UnlinkIdentity (a : string) (version : Z) (target remaining : string) (now : Z)
| UpdateProfile (a : string) (displayName : option (option string))
    (avatar : option (option (string * string))) (now : Z)
| SessionAudit (actor : Actor) (caller : Caller) (action eventId : string) (now : Z)
| SetAuthority (actor : Actor) (target : string) (au : PlatformAuthority) (grant : bool)
    (eventId : string) (request : option string) (now : Z)
| SetBlocked (actor : Actor) (target : string) (blocked : bool) (eventId : string)
    (request : option string) (now : Z)
| CreateApp (actor : Actor) (caller : Caller) (app : App)
    (idempotency : option (string * AppIdempotencyRow)) (eventId : string)
| PatchApp (actor : Actor) (caller : Caller) (app : App) (expectedRevision : Z)
    (action eventId : string) (now : Z)
| RemoveMember (actor : Actor) (caller : Caller) (app target eventId : string) (now : Z)
| AppGcAudit (actor : Actor) (caller : Caller) (app eventId : string) (now : Z)
| CreateInvitation (actor : Actor) (caller : Caller) (invitationId : string)
    (invitation : AppInvitationRow) (idempotency : option (string * AppInvitationIdempotencyRow))
    (eventId : string) (now : Z)
| TransitionInvitation (actor : Actor) (caller : Caller) (app invitationId : string)
    (expectedRevision : Z) (revoke : bool) (eventId : string) (now : Z)
| AcceptInvitation (actor : Actor) (caller : Caller) (app invitationId tokenHash : string)
    (primary : option PrimaryVerifiedEmail) (challenge : option (string * string))
    (eventId : string) (now : Z)
| InspectIssuer (actor : Actor) (caller : Caller) (inspectionId : string)
    (inspection : InspectionRow) (keys : list DiscoveredOAuthJwk) (eventId : string) (now : Z)
| ActivateIssuer (actor : Actor) (caller : Caller) (app inspectionId : string)
    (expectedIssuerRevision : option Z) (issuer : IssuerRow) (eventId : string) (now : Z)
| CreatePlatformInvitation (actor : Actor) (invitation : StoredPlatformInvitation) (key : string)
    (idempotency : PlatformIdempotencyRow) (eventId : string) (request : option string)
| RevokePlatformInvitation (actor : Actor) (invitationId : string) (expectedRevision now : Z)
    (eventId : string) (request : option string)
| AcceptPlatformInvitation (actor : Actor) (invitation : StoredPlatformInvitation)
    (tokenHash : string) (email : PrimaryVerifiedEmail) (challenge : option (string * string))
    (now : Z) (eventId : string) (request : option string)
| CreateChallenge (challengeId : string) (row : EmailChallengeRow) (limits : EmailChallengeLimits)
| PruneChallenges (now : Z)
| InvalidateChallenge (challengeId : string) (b : EmailChallengeBinding) (now : Z)
| VerifyChallenge (challengeId codeHash : string) (attemptCount : Z) (matches : bool) (now : Z)
| ResendChallenge (challengeId : string) (b : EmailChallengeBinding) (codeHash : string)
    (sendCount lastSentAt : Z) (limits : EmailChallengeLimits) (now : Z).

Definition command_stmts (c : Command) : list cstmt :=
  match c with
  | CreateAccount a i account profile identity => create_account_batch a i account profile identity
  | LinkIdentity a v i identity name url now => link_identity_batch a v i identity name url now
  | UnlinkIdentity a v target remaining now => unlink_identity_batch a v target remaining now
  | UpdateProfile a name avatar now => update_profile_batch a name avatar now
  | SessionAudit actor caller action e now => [session_audit_stmt actor caller action e now]
  | SetAuthority actor target au grant e request now =>
      platform_authority_batch actor target au grant e request now
  | SetBlocked actor target blocked e request now =>
      platform_block_batch actor target blocked e request now
  | CreateApp actor caller app idem e => create_app_batch actor caller app idem e
  | PatchApp actor caller app expected action e now =>
      patch_app_batch actor caller app expected action e now
  | RemoveMember actor caller app target e now => remove_member_batch actor caller app target e now
  | AppGcAudit actor caller app e now => [app_gc_audit_stmt actor caller app e now]
  | CreateInvitation actor caller i row idem e now =>
      create_invitation_batch actor caller i row idem e now
  | TransitionInvitation actor caller app i expected revoke e now =>
      invitation_transition_batch actor caller app i expected revoke e now
  | AcceptInvitation actor caller app i token primary challenge e now =>
      accept_invitation_batch actor caller app i token primary challenge e now
  | InspectIssuer actor caller i row keys e now => inspect_issuer_batch actor caller i row keys e now
  | ActivateIssuer actor caller app i expected issuer e now =>
      activate_issuer_batch actor caller app i expected issuer e now
  | CreatePlatformInvitation actor invitation key idem e request =>
      create_platform_invitation_batch actor invitation key idem e request
  | RevokePlatformInvitation actor i expected now e request =>
      revoke_platform_invitation_batch actor i expected now e request
  | AcceptPlatformInvitation actor invitation token email challenge now e request =>
      accept_platform_invitation_batch actor invitation token email challenge now e request
  | CreateChallenge i row limits => create_challenge_batch i row limits
  | PruneChallenges now => [prune_challenges_stmt now]
  | InvalidateChallenge i b now => [invalidate_challenge_stmt i b now]
  | VerifyChallenge i code attempts matches now => [verify_challenge_stmt i code attempts matches now]
  | ResendChallenge i b code count last limits now =>
      [resend_challenge_stmt i b code count last limits now]
  end.

(** What the services see to: a new account and a new identity are unblocked, linked
    and belong together, an App is patched to the next revision, an issuer activated
    as the next one, a challenge starts unanswered and is tried and sent within the
    limits. *)
Definition command_ok (c : Command) : bool :=
  match c with
  | CreateAccount a _ account _ identity =>
      bool_decide (id_account_id identity = a) && bool_decide (id_unlinked_at identity = None)
      && bool_decide (ac_blocked_at account = None)
  | LinkIdentity a _ _ identity _ _ _ =>
      bool_decide (id_account_id identity = a) && bool_decide (id_unlinked_at identity = None)
  | CreateApp _ _ app idem _ =>
      (ap_revision (app_row app) =? 1)
      && match idem with
         | Some (_, row) => bool_decide (ax_response row = app)
                            && (ax_expires_at row =? ap_created_at (app_row app)
                                                     + CAS_ADMIN_IDEMPOTENCY_RETENTION_MS)
         | None => true
         end
  | PatchApp _ _ app expected _ _ _ => ap_revision (app_row app) =? expected + 1
  | ActivateIssuer _ _ _ _ expected issuer _ _ => is_revision issuer =? default 0 expected + 1
  | CreateChallenge _ row _ =>
      (ec_attempt_count row =? 0) && (ec_max_attempts row =? EMAIL_CHALLENGE_MAX_ATTEMPTS)
      && (ec_send_count row =? 1) && bool_decide (ec_verified_at row = None)
      && bool_decide (ec_consumed_at row = None) && bool_decide (ec_invalidated_at row = None)
  | VerifyChallenge _ _ attempts _ _ => attempts <? EMAIL_CHALLENGE_MAX_ATTEMPTS
  | ResendChallenge _ _ _ sends _ _ _ => sends <? EMAIL_CHALLENGE_MAX_SENDS
  | _ => true
  end.

(** A command that fails, or that no service sends, leaves the database alone. *)
Definition apply_command (d : ControlDb) (c : Command) : ControlDb :=
  if command_ok c then
    match run_control_batch (command_stmts c) d with Ok d' => d' | Throw _ => d end
  else d.

(** * The world *)

Record ControlTick := mkControlTick {
  ct_outcome : Outcome;
  ct_elapsed : Z;
  ct_commands : list Command
}.

Record ControlWorld := mkControlWorld {
  cw_db : ControlDb;
  cw_clock : Z;
  cw_drawn : nat;          (* the random bytes drawn so far *)
  cw_sched : list ControlTick
}.

Definition set_control_db (d : ControlDb) (w : ControlWorld) : ControlWorld :=
  mkControlWorld d (cw_clock w) (cw_drawn w) (cw_sched w).

Definition ControlAct (A : Type) : Type := M exn ControlWorld A.

Definition control_enter (w : ControlWorld) : Outcome * ControlWorld :=
  match cw_sched w with
  | [] => (Served, w)
  | t :: sched =>
      (ct_outcome t,
       mkControlWorld (foldl apply_command (cw_db w) (ct_commands t))
         (cw_clock w + Z.max 0 (ct_elapsed t)) (cw_drawn w) sched)
  end.

Definition control_external {A} (f : ControlAct A) : ControlAct A := λ w,
  let '(outcome, w) := control_enter w in
  match outcome with
  | Served => f w
  | Refused => (Throw (Error "Network connection lost."), w)
  | Lost => let '(_, w) := f w in (Throw (Error "Network connection lost."), w)
  end.

(** [this.now()], which is [Date.now]. *)
Definition now : ControlAct Z := gets cw_clock.

(** [statement.first()] and [statement.all()]. *)
Definition control_read {A} (q : ControlDb → A) : ControlAct A :=
  control_external (gets (q ∘ cw_db)).

(** [db.batch(statements)], or [statement.run()] for one; the value is [meta.changes]
    of the last statement. *)
Definition control_batch (l : list cstmt) : ControlAct Z := control_external (λ w,
  match run_statements l (cw_db w, 0) with
  | Ok (d, n) => (Ok n, set_control_db d w)
  | Throw e => (Throw (Error (sql_message e)), w)
  end).

(** ** Random bytes *)

Class Entropy := random_byte : nat → byte.

(** [crypto.getRandomValues(new Uint8Array(n))]. *)
Definition getRandomValues `{Entropy} (n : nat) : ControlAct bytes := λ w,
  (Ok (random_byte <$> seq (cw_drawn w) n),
   mkControlWorld (cw_db w) (cw_clock w) (cw_drawn w + n)%nat (cw_sched w)).
