(* ===== verification/ControlValidation.v ===== *)
(** The small modules the control plane shares, of [packages/service/src]:
    control-validation.ts, control-cursor.ts, control-ids.ts, authentication.ts,
    control-possession.ts, the challenge of oauth-discovery.ts, and the entity tags of
    [packages/admin-protocol/src/concurrency.ts]. *)
From Stdlib Require Import Ascii.
From stdpp Require Import sorting.
From S2P Require Import Prelude Js JsString JsMap JsonText MapSum Errors Codec ControlStore.
From S2P Require Import AccountBatches ControlWorld.

(** * Strings *)

Definition trim (s : string) : string := of_chars (trim_text (chars s)).

(** [toLowerCase], on code units below 256. *)
Definition lower_char (c : ascii) : ascii :=
  if in_range 0x41 0x5a c || (in_range 0xc0 0xde c && negb (code c =? 0xd7))
  then char_of_code (code c + 32) else c.
Definition toLowerCase (s : string) : string := of_chars (lower_char <$> chars s).

(** * control-validation.ts *)

Definition INVITATION_TTL_MS : Z := 24 * 60 * 60 * 1000.
Definition CONTROL_LIST_DEFAULT_LIMIT : Z := 50.
Definition CONTROL_LIST_MAX_LIMIT : Z := 200.
Definition OAUTH_CAPABILITY_MAX_LIFETIME_SECONDS : Z := 30 * 60.

(** The validators answer [None] for valid input. *)
Definition validateDisplayName (value : Json) : option string :=
  match value with
  | JStr s =>
      let trimmed := trim s in
      if strlen trimmed =? 0 then Some "displayName must not be empty"
      else if 120 <? strlen trimmed then Some "displayName must be at most 120 characters"
      else if some_char (λ c, in_range 0 0x1f c || (code c =? 0x7f)) trimmed
      then Some "displayName contains control characters"
      else None
  | _ => Some "displayName must be a string"
  end.

(** The pattern [^[^\s@]+@[^\s@]+\.[^\s@]+$]. *)
Definition email_pattern (s : string) : bool :=
  match split "@"%char s with
  | [local; domain] =>
      negb (strlen local =? 0) && all_chars (λ c, negb (is_js_space c)) s
      && existsb (λ c, bool_decide (c = "."%char)) (removelast (tail (chars domain)))
  | _ => false
  end.
Definition validateEmailConstraint (value : option Json) : option string :=
  match value with
  | None | Some JNull => None
  | Some (JStr s) =>
      let trimmed := trim s in
      if strlen trimmed =? 0 then Some "emailConstraint must not be empty"
      else if 254 <? strlen trimmed then Some "emailConstraint is too long"
      else if negb (email_pattern trimmed) then Some "emailConstraint must be a valid email address"
      else None
  | Some _ => Some "emailConstraint must be a string"
  end.
Definition normalizeEmailConstraint (value : option Json) : option string :=
  match value with
  | None | Some JNull => None
  | Some j => Some (toLowerCase (trim (json_String j)))
  end.

Definition is_token_char (c : ascii) : bool :=
  is_digit c || in_range 0x41 0x5a c || in_range 0x61 0x7a c || (code c =? 0x5f) || (code c =? 0x2d).
Definition validateInvitationToken (value : Json) : option string :=
  match value with
  | JStr s =>
      if (strlen s <? 32) || (128 <? strlen s) then Some "invitation token has an invalid length"
      else if negb (all_chars is_token_char s) then Some "invitation token is malformed"
      else None
  | _ => Some "invitation token must be a string"
  end.

Definition parseControlListLimit (value : option Z) : option Z :=
  match value with
  | None => Some CONTROL_LIST_DEFAULT_LIMIT
  | Some n => if negb (isSafeInteger n) || (n <? 1) || (CONTROL_LIST_MAX_LIMIT <? n) then None
              else Some n
  end.

Definition sha256Hex `{Sha256} (value : string) : string := hex_of (sha256 (TextEncoder_encode value)).
Definition canonicalJson (value : Json) : string := of_chars (JSON_stringify value).

(** The URL parser of the platform: what the code reads of a parsed URL. *)
Record UrlParts := mkUrlParts {
  url_protocol : string;
  url_username : string;
  url_password : string;
  url_hostname : string;
  url_search : string;
  url_hash : string;
  url_origin : string
}.
Class UrlParser := parse_url : string → option UrlParts.

Definition casOAuthResource `{UrlParser} (publicOrigin : string) : result exn string :=
  match parse_url publicOrigin with
  | None => Throw (TypeError "OAuth resource public origin must be an absolute URL")
  | Some u =>
      if negb (bool_decide (url_protocol u = "https:") || bool_decide (url_protocol u = "http:"))
         || negb (strlen (url_username u) =? 0) || negb (strlen (url_password u) =? 0)
         || (strlen (url_hostname u) =? 0)
      then Throw (TypeError "OAuth resource public origin must be HTTP(S) without credentials")
      else Ok (url_origin u +:+ "/v1/cas/")
  end.

(** * control-cursor.ts *)

Record ControlListCursor := mkCursor { cu_snapshot : Z; cu_last : string }.

Definition encodeControlListCursor (c : ControlListCursor) : string :=
  of_chars (btoa (JSON_stringify (JObj
    [("version", JInt 1); ("snapshot", JInt (cu_snapshot c)); ("last", JStr (cu_last c))]))).
Definition decodeControlListCursor (value : string) : option ControlListCursor :=
  json ← atob (chars value);
  parsed ← JSON_parse json;
  match parsed with
  | JObj members =>
      match find_member "version" members, find_member "snapshot" members, find_member "last" members with
      | Some (JInt 1), Some (JInt snapshot), Some (JStr last) =>
          if isSafeInteger snapshot && negb (strlen last =? 0) then Some (mkCursor snapshot last)
          else None
      | _, _, _ => None
      end
  | _ => None
  end.

(** A cursor is what it was when it comes back. *)
Lemma control_cursor_round_trip c :
  isSafeInteger (cu_snapshot c) = true → strlen (cu_last c) ≠ 0 →
  decodeControlListCursor (encodeControlListCursor c) = Some c.
Proof.
  intros Hs Hl. unfold decodeControlListCursor, encodeControlListCursor.
  rewrite chars_of_chars, base64_round_trip. rewrite bind_Some, JSON_round_trip.
  - rewrite bind_Some. destruct c as [s l]. cbn [cu_snapshot cu_last] in *.
    change (find_member "version" _) with (Some (JInt 1)).
    change (find_member "snapshot" _) with (Some (JInt s)).
    change (find_member "last" _) with (Some (JStr l)). cbv iota.
    rewrite Hs. by destruct (Z.eqb_spec (strlen l) 0).
  - repeat (constructor; try done); cbn; repeat constructor; set_solver.
Qed.

(** * control-ids.ts *)

Definition ALPHABET : list ascii :=
  chars "ABCDEFGHIJKLMNOPQRSTUVWXYZabcdefghijklmnopqrstuvwxyz0123456789-_".
Definition alphabet_at (n : Z) : ascii := nth (Z.to_nat n) ALPHABET "A"%char.

Fixpoint encodeBase64Url (bs : list Z) : list ascii :=
  match bs with
  | [] => []
  | [a] => [alphabet_at (Z.shiftr a 2); alphabet_at (Z.shiftl (Z.land a 3) 4)]
  | [a; b] => [alphabet_at (Z.shiftr a 2);
               alphabet_at (Z.lor (Z.shiftl (Z.land a 3) 4) (Z.shiftr b 4));
               alphabet_at (Z.shiftl (Z.land b 15) 2)]
  | a :: b :: c :: bs =>
      alphabet_at (Z.shiftr a 2)
      :: alphabet_at (Z.lor (Z.shiftl (Z.land a 3) 4) (Z.shiftr b 4))
      :: alphabet_at (Z.lor (Z.shiftl (Z.land b 15) 2) (Z.shiftr c 6))
      :: alphabet_at (Z.land c 63) :: encodeBase64Url bs
  end.

Section ids.
Context `{Entropy}.

Definition randomBase64Url (n : nat) : ControlAct string :=
  bs ← getRandomValues n;
  mret (of_chars ((λ b, alphabet_at (byte_val b mod 64)) <$> bs)).
Definition prefixed (p : string) (n : nat) : ControlAct string :=
  s ← randomBase64Url n; mret (p +:+ s).
Definition prefixed128 (p : string) : ControlAct string :=
  bs ← getRandomValues 16; mret (p +:+ of_chars (encodeBase64Url (byte_val <$> bs))).

Definition generateAppId := prefixed "cas_" 12.
Definition generateAccountId := prefixed128 "acct_".
Definition generateExternalIdentityId := prefixed128 "ext_".
Definition generateInvitationId := prefixed "inv_" 12.
Definition generateEventId := prefixed "evt_" 12.
Definition generateOAuthInspectionId := prefixed "oinsp_" 16.
Definition generateInvitationToken := randomBase64Url 32.
Definition generateNonce := randomBase64Url 16.

(** [crypto.randomUUID()]: version 4 of RFC 9562. *)
Definition uuid_of (bs : list Z) : string :=
  let at_ (n : nat) := nth n bs 0 in
  let hex (l : list Z) := hex_of (to_byte <$> l) in
  hex [at_ 0%nat; at_ 1%nat; at_ 2%nat; at_ 3%nat] +:+ "-"
  +:+ hex [at_ 4%nat; at_ 5%nat] +:+ "-"
  +:+ hex [Z.lor 0x40 (Z.land (at_ 6%nat) 0x0f); at_ 7%nat] +:+ "-"
  +:+ hex [Z.lor 0x80 (Z.land (at_ 8%nat) 0x3f); at_ 9%nat] +:+ "-"
  +:+ hex [at_ 10%nat; at_ 11%nat; at_ 12%nat; at_ 13%nat; at_ 14%nat; at_ 15%nat].
Definition randomUUID : ControlAct string :=
  bs ← getRandomValues 16; mret (uuid_of (byte_val <$> bs)).
End ids.

(** * authentication.ts *)

Definition AUTHENTICATION_FLOW_TTL_MS : Z := 10 * 60 * 1000.

Record VerifiedEmailEvidence := mkEvidence {
  ve_normalizedEmail : string;
  ve_source : VerifiedEmailSource;
  ve_verifiedAt : Z;
  ve_expiresAt : Z;
  ve_authenticationEventId : string;
  ve_challengeId : option string
}.
Record AuthenticatedProviderResult := mkProviderResult {
  ap_provider : ProviderKind;
  ap_issuer : string;
  ap_subject : string;
  ap_displayName : option string;
  ap_avatarUrl : option string;
  ap_accountHint : option string;
  ap_verifiedEmailEvidence : list VerifiedEmailEvidence;
  ap_authenticatedAt : Z;
  ap_authenticationEventId : string
}.

Definition normalizeEmail (value : string) : string := toLowerCase (trim value).
Definition verifiedProviderEmailEvidence (isGoogle : bool) (email : string) (verifiedAt : Z)
    (authenticationEventId : string) (ttlMs : option Z) : VerifiedEmailEvidence :=
  mkEvidence (normalizeEmail email) (if isGoogle then GoogleOidc else GithubEmailsApi) verifiedAt
    (verifiedAt + default AUTHENTICATION_FLOW_TTL_MS ttlMs) authenticationEventId None.

(** The comparator: the latest first. *)
Definition later (a b : VerifiedEmailEvidence) : Z := ve_verifiedAt b - ve_verifiedAt a.
Definition evidence_matches (email : string) (e : VerifiedEmailEvidence) : bool :=
  bool_decide (ve_normalizedEmail e = email)
  && (negb (bool_decide (ve_source e = UnicasEmailChallenge)) || bool_decide (ve_challengeId e ≠ None)).
Definition requireInvitationEmailEvidence (evidence : list VerifiedEmailEvidence)
    (invitationEmail : string) (at_ : Z) : result exn VerifiedEmailEvidence :=
  let email := normalizeEmail invitationEmail in
  match filter (λ e, evidence_matches email e = true) evidence with
  | [] => Throw (EEmailEvidence (match evidence with
                                 | [] => "EMAIL_EVIDENCE_ABSENT"
                                 | _ => "EMAIL_EVIDENCE_MISMATCH"
                                 end))
  | matching =>
      match js_sort later (filter (λ e, (ve_verifiedAt e <=? at_) && (at_ <? ve_expiresAt e) = true)
                             matching) with
      | fresh :: _ => Ok fresh
      | [] => Throw (EEmailEvidence "EMAIL_EVIDENCE_STALE")
      end
  end.

(** The evidence that is accepted is of the invited address and fresh. *)
Lemma requireInvitationEmailEvidence_sound evidence email at_ e :
  requireInvitationEmailEvidence evidence email at_ = Ok e →
  e ∈ evidence ∧ ve_normalizedEmail e = normalizeEmail email
  ∧ ve_verifiedAt e ≤ at_ < ve_expiresAt e
  ∧ (ve_source e = UnicasEmailChallenge → ve_challengeId e ≠ None).
Proof.
  unfold requireInvitationEmailEvidence.
  destruct (filter _ evidence) as [|m ms] eqn:Hm; [done|].
  destruct (js_sort later _) as [|x l] eqn:Hs; [done|]. intros [= ->].
  assert (e ∈ filter (λ e, (ve_verifiedAt e <=? at_) && (at_ <? ve_expiresAt e) = true) (m :: ms)) as He.
  { rewrite <-(js_sort_Permutation later), Hs. left. }
  apply list_elem_of_filter in He as [Hf He]. rewrite <-Hm in He.
  apply list_elem_of_filter in He as [Hmatch He]. unfold evidence_matches in Hmatch.
  split_and!; [done| | lia | lia |].
  - apply andb_true_iff in Hmatch as [Hb _]. by apply bool_decide_eq_true in Hb.
  - intros Hsrc. apply andb_true_iff in Hmatch as [_ Hb]. rewrite Hsrc in Hb. cbn in Hb.
    by apply bool_decide_eq_true in Hb.
Qed.

(** [ProviderRegistry]: an adapter for a provider at most once, in order. *)
Fixpoint provider_registry {P} (kind : P → ProviderKind) (providers : list P) (seen : list ProviderKind)
    : result exn (list P) :=
  match providers with
  | [] => Ok []
  | p :: providers =>
      if bool_decide (kind p ∈ seen) then Throw (TypeError "duplicate provider")
      else rest ← provider_registry kind providers (kind p :: seen); Ok (p :: rest)
  end.
Definition registry_get {P} (kind : P → ProviderKind) (registry : list P) (k : ProviderKind) : option P :=
  List.find (λ p, bool_decide (kind p = k)) registry.

(** * concurrency.ts *)

Definition quotes : string := String (char_of_code 34) EmptyString.
Definition formatCasAdminETag (revision : Z) : string := quotes +:+ show revision +:+ quotes.
(** The pattern is that of a quoted run of digits, once the value is trimmed. *)
Definition parseCasAdminETag (value : string) : option Z :=
  match trim_text (chars value) with
  | q :: l =>
      let digits := removelast l in
      if bool_decide (code q = 34) && bool_decide (code <$> last l = Some 34)
         && negb (bool_decide (digits = [])) && forallb is_digit digits
      then let revision := Number_of_bigint (digits_val digits) in
           if isSafeInteger revision then Some revision else None
      else None
  | [] => None
  end.

(** * control-possession.ts, with the library [jose] as parameters *)

Class CompactJws := {
  (* [compactVerify(proof, jwk, { algorithms: [alg] })]: payload and protected header *)
  compactVerify : string → Json → KeyAlgorithm → option (bytes * Json);
  decodeProtectedHeader : string → option Json
}.

Definition algorithm_text (a : KeyAlgorithm) : string :=
  match a with ES256 => "ES256" | RS256 => "RS256" | EdDSA => "EdDSA" end.
Definition json_member (name : string) (j : Json) : option Json :=
  match j with JObj members => find_member name members | _ => None end.
Definition decode_text (bs : bytes) : string := string_of_codes (TextDecoder_decode bs).

(** [protectedHeader.kid === publicJwk.kid], both possibly undefined. *)
Definition same_kid (a b : option Json) : bool :=
  match a, b with
  | Some (JStr x), Some (JStr y) => bool_decide (x = y)
  | None, None => true
  | _, _ => false
  end.
Definition verifyCompactJwsProof `{CompactJws} (challenge : string) (algorithm : KeyAlgorithm)
    (publicJwk : Json) (proof : string) : bool :=
  match compactVerify proof publicJwk algorithm with
  | Some (payload, header) =>
      same_kid (json_member "kid" header) (json_member "kid" publicJwk)
      && bool_decide (decode_text payload = challenge)
  | None => false
  end.

Definition from_base64url (c : ascii) : ascii :=
  if code c =? 0x2d then "+"%char else if code c =? 0x5f then "/"%char else c.
Definition extractJwsPayload (jws : string) : option string :=
  match split "."%char jws with
  | [header; payload; signature] =>
      if (strlen header =? 0) || (strlen payload =? 0) || (strlen signature =? 0) then None
      else
        let base64 := from_base64url <$> chars payload in
        binary ← atob (base64 ++ replicate ((4 - length base64 mod 4) mod 4) "="%char);
        Some (decode_text ((λ c, to_byte (code c)) <$> binary))
  | _ => None
  end.
(** The key id and the algorithm. *)
Definition extractJwsProtectedHeader `{CompactJws} (jws : string) : option (string * string) :=
  header ← decodeProtectedHeader jws;
  match json_member "kid" header, json_member "alg" header with
  | Some (JStr kid), Some (JStr alg) => if strlen kid =? 0 then None else Some (kid, alg)
  | _, _ => None
  end.

(** * The inspection challenge of oauth-discovery.ts *)

Definition OAUTH_ISSUER_INSPECTION_CHALLENGE_VERSION : string := "cas-oauth-issuer-inspection-v1".
Definition OAUTH_ISSUER_INSPECTION_TTL_MS : Z := 10 * 60 * 1000.

Record OAuthIssuerInspectionChallengeInput := mkChallengeInput {
  oc_nonce : string;
  oc_inspectionId : string;
  oc_appId : string;
  oc_issuer : string;
  oc_audience : string;
  oc_metadataDigest : string;
  oc_jwksDigest : string;
  oc_capabilityMaxLifetimeSeconds : Z;
  oc_expiresAt : Z
}.

Definition newline : ascii := char_of_code 10.
(** [parts.join("\n")]. *)
Fixpoint join_lines (l : list string) : string :=
  match l with
  | [] => EmptyString
  | [s] => s
  | s :: l => s +:+ String newline (join_lines l)
  end.
Definition buildOAuthIssuerInspectionChallenge (c : OAuthIssuerInspectionChallengeInput) : string :=
  join_lines [OAUTH_ISSUER_INSPECTION_CHALLENGE_VERSION; oc_nonce c; oc_inspectionId c; oc_appId c;
              oc_issuer c; oc_audience c; oc_metadataDigest c; oc_jwksDigest c;
              show (oc_capabilityMaxLifetimeSeconds c); show (oc_expiresAt c)].
Definition safe_number (text : string) : option Z :=
  match Number_of_text text with JInt n => if isSafeInteger n then Some n else None | _ => None end.
Definition parseOAuthIssuerInspectionChallenge (challenge : string)
    : option OAuthIssuerInspectionChallengeInput :=
  match split newline challenge with
  | [version; nonce; inspectionId; app; issuer; audience; metadataDigest; jwksDigest; lifetime; expires] =>
      if bool_decide (version = OAUTH_ISSUER_INSPECTION_CHALLENGE_VERSION)
         && forallb (λ s, negb (strlen s =? 0))
              [nonce; inspectionId; app; issuer; audience; metadataDigest; jwksDigest]
      then match safe_number lifetime, safe_number expires with
           | Some l, Some e => Some (mkChallengeInput nonce inspectionId app issuer audience
                                       metadataDigest jwksDigest l e)
           | _, _ => None
           end
      else None
  | _ => None
  end.

(** [canonicalizeOAuthIssuer]. *)
Definition canonicalizeOAuthIssuer `{UrlParser} (value : string) : result exn string :=
  let trimmed := trim value in
  match parse_url trimmed with
  | None => Throw (TypeError "issuer must be an absolute URL")
  | Some u =>
      if negb (bool_decide (url_protocol u = "https:"))
      then Throw (TypeError "issuer must use https")
      else if negb (strlen (url_username u) =? 0) || negb (strlen (url_password u) =? 0)
      then Throw (TypeError "issuer must not contain credentials")
      else if strlen (url_hostname u) =? 0 then Throw (TypeError "issuer must include a hostname")
      else if negb (strlen (url_search u) =? 0) || negb (strlen (url_hash u) =? 0)
      then Throw (TypeError "issuer must not contain a query or fragment")
      else Ok trimmed
  end.

(** ** Entity tags come back *)

Lemma etag_round_trip n : 0 ≤ n < 2 ^ 53 → parseCasAdminETag (formatCasAdminETag n) = Some n.
Proof.
  intros Hn. destruct (show_digits n ltac:(lia)) as (Hd & Hv & Hne).
  unfold parseCasAdminETag, formatCasAdminETag. rewrite !chars_app.
  change (chars quotes) with [char_of_code 34]. cbn [app].
  rewrite trim_text_plain by done. cbv zeta. rewrite removelast_last, last_snoc.
  rewrite Hd, Hv, Number_of_bigint_small by lia. rewrite (bool_decide_eq_false_2 (chars (show n) = [])) by exact Hne.
  rewrite !bool_decide_eq_true_2 by done.
  cbn [negb andb]. destruct (isSafeInteger n) eqn:Hs; [done|]. exfalso.
  assert (isSafeInteger n = true) by (apply isSafeInteger_spec; lia). congruence.
Qed.
