(* ===== verification/AccountRepo.v ===== *)
(** [D1AccountRepository] of [packages/service-cloudflare/src/account-repository.ts],
    with the records of its interface in [packages/service/src/account.ts]: what it
    reads, and every commit with the classification of its failure. A method answers
    with the words of its union type. *)
From Stdlib Require Import Ascii.
From stdpp Require Import sorting.
From S2P Require Import Prelude Js JsString JsonText MapSum Errors World ControlStore.
From S2P Require Import AccountBatches InvitationBatches ControlWorld.

(** * Records *)

Record AccountRecord := mkAccountRecord {
  accountId : string;
  blockedAt : option Z;
  credentialVersion : Z;
  primaryVerifiedEmail : option PrimaryVerifiedEmail;
  acc_createdAt : Z;
  acc_updatedAt : Z
}.
Record AccountProfileRecord := mkProfileRecord { prf_accountId : string; prf_row : ProfileRow }.
Record ExternalIdentityRecord := mkIdentityRecord { externalIdentityId : string; ext_row : IdentityRow }.

Record AccountAppMembershipRecord := mkMembershipRecord {
  mem_appId : string;
  mem_account : AccountRecord;
  mem_profile : AccountProfileRecord;
  mem_joinedAt : Z
}.
Record AppMemberInvitation := mkInvitation {
  inv_appId : string;
  inv_invitationId : string;
  inv_status : InvitationStatus;
  inv_emailConstraint : option string;
  inv_expiresAt : Z;
  inv_createdAt : Z;
  inv_revision : Z
}.
Record AccountAppInvitationRecord := mkInvitationRecord {
  air_invitation : AppMemberInvitation;
  air_tokenHash : string
}.
Record AccountPlatformViewRecord := mkPlatformView {
  pv_account : AccountRecord;
  pv_profile : AccountProfileRecord;
  pv_platformAuthorities : list PlatformAuthority;
  pv_appMembershipCount : Z;
  pv_lastActiveAt : option Z
}.
Record AccountAuditActorRecord := mkAuditActor {
  aud_account : AccountRecord;
  aud_profile : AccountProfileRecord;
  aud_identity : ExternalIdentityRecord
}.
Record AppAccountAuditRecord := mkAppAuditRecord {
  apa_actor : AccountAuditActorRecord;
  apa_target : option (AccountRecord * AccountProfileRecord);
  apa_eventId : string;
  apa_row : ControlAuditRow
}.
Record PlatformAccountAuditRecord := mkPlatformAuditRecord {
  paa_actor : AccountAuditActorRecord;
  paa_target : option (AccountRecord * AccountProfileRecord);
  paa_eventId : string;
  paa_row : PlatformAuditRow;
  paa_details : list (string * Json)
}.
Record AccountOAuthIssuerRecord := mkIssuerRecord { iss_appId : string; iss_row : IssuerRow }.
Record AccountOAuthIssuerInspectionRecord := mkInspectionRecord {
  insp_inspectionId : string;
  insp_row : InspectionRow
}.

(** [accountRecord]: the three columns of the address are there together. *)
Definition accountRecord (a : string) (r : AccountRow) : AccountRecord :=
  mkAccountRecord a (ac_blocked_at r) (ac_credential_version r)
    (match ac_primary_verified_email r, ac_email_verification_source r, ac_email_verified_at r with
     | Some e, Some s, Some t => Some (mkPrimaryEmail e s t)
     | _, _, _ => None
     end)
    (ac_created_at r) (ac_updated_at r).
Definition externalIdentityRecord (i : string) (r : IdentityRow) : ExternalIdentityRecord :=
  mkIdentityRecord i r.

(** The columns the queries of invitations select; one of them selects the hash of the
    token too. *)
Definition invitation_of (i : string) (r : AppInvitationRow) : AppMemberInvitation :=
  mkInvitation (ai_app_id r) i (ai_status r) (ai_email_constraint r) (ai_expires_at r)
    (ai_created_at r) (ai_revision r).

(** * Selections *)

(** The rows of a table that satisfy [p], [ORDER BY key]. *)
Definition key_le {V} (a b : string * V) : Prop := str_ltb (fst b) (fst a) = false.
#[global] Instance key_le_dec {V} : RelDecision (@key_le V).
Proof. intros a b. unfold key_le. apply _. Defined.
Definition select_rows {V} (p : string → V → bool) (m : gmap string V) : list (string * V) :=
  merge_sort key_le (filter (λ e, p (fst e) (snd e) = true) (map_to_list m)).
(** [LIMIT n]. *)
Definition limited {A} (n : Z) (l : list A) : list A := take (Z.to_nat n) l.

(** [error instanceof Error && /malformed JSON/i.test(error.message)]. *)
Definition lower_ascii (c : ascii) : ascii :=
  if in_range 0x41 0x5a c then char_of_code (code c + 32) else c.
Definition lower_sql (s : string) : string := of_chars (lower_ascii <$> chars s).
Definition isJsonFailure (e : exn) : bool := includes (lower_sql (error_message e)) "malformed json".
Definition isUniqueFailure (e : exn) : bool :=
  includes (lower_sql (error_message e)) "unique constraint failed".

(** * Reads *)

Definition getAccount (a : string) : ControlAct (option AccountRecord) :=
  control_read (λ d, accountRecord a <$> cas_accounts d !! a).
Definition getAliasTarget (source : string) : ControlAct (option string) :=
  control_read (λ d, al_canonical_account_id <$> cas_account_aliases d !! source).
(** At most one identity is active for an issuer and a subject. *)
Definition find_active (d : ControlDb) (issuer subject : string) : option ExternalIdentityRecord :=
  match select_rows (λ _, same_subject issuer subject) (cas_external_identities d) with
  | (i, r) :: _ => Some (externalIdentityRecord i r)
  | [] => None
  end.
Definition getActiveIdentity (issuer subject : string) : ControlAct (option ExternalIdentityRecord) :=
  control_read (λ d, find_active d issuer subject).
Definition getIdentity (i : string) : ControlAct (option ExternalIdentityRecord) :=
  control_read (λ d, externalIdentityRecord i <$> cas_external_identities d !! i).
Definition getProfile (a : string) : ControlAct (option AccountProfileRecord) :=
  control_read (λ d, mkProfileRecord a <$> cas_account_profiles d !! a).

(** [ORDER BY linked_at, external_identity_id]. *)
Definition linked_le (a b : string * IdentityRow) : Prop :=
  id_linked_at (snd a) < id_linked_at (snd b)
  ∨ (id_linked_at (snd a) = id_linked_at (snd b) ∧ key_le a b).
#[global] Instance linked_le_dec : RelDecision linked_le.
Proof. intros a b. unfold linked_le. apply _. Defined.
Definition listActiveIdentities (a : string) : ControlAct (list ExternalIdentityRecord) :=
  control_read (λ d, (λ e, externalIdentityRecord (fst e) (snd e)) <$>
    merge_sort linked_le
      (filter (λ e, id_account_id (snd e) = a ∧ id_unlinked_at (snd e) = None)
         (map_to_list (cas_external_identities d)))).

(** [ORDER BY authority]: the names are 'apps.create' and 'platform.admin'. *)
Definition authorities_of (d : ControlDb) (a : string) : list PlatformAuthority :=
  filter (λ au, has_authority d a au = true) [AppsCreate; PlatformAdmin].
Definition listPlatformAuthorities (a : string) : ControlAct (list PlatformAuthority) :=
  control_read (λ d, authorities_of d a).

(** The Apps of an account, in order. *)
Definition member_apps (d : ControlDb) (a : string) : list string :=
  (λ e, fst e) <$> merge_sort key_le
    ((λ e : string * string * Z, (fst (fst e), tt)) <$>
       filter (λ e : string * string * Z, snd (fst e) = a) (map_to_list (cas_app_members d))).
Definition hasAppMembership (a : string) (app : option string) : ControlAct bool :=
  control_read (λ d, match app with
                     | Some app => is_member d app a
                     | None => negb (bool_decide (member_apps d a = []))
                     end).
Definition listAccountMembershipAppIds (a : string) : ControlAct (list string) :=
  control_read (λ d, member_apps d a).
Definition readControlSnapshot : ControlAct Z :=
  control_read (λ d, default 0 (cas_control_meta d !! "snapshot")).

Definition account_apps (d : ControlDb) (a after : string) : list App :=
  (λ e, mkApp (fst e) (snd e))
    <$> select_rows (λ app _, is_member d app a && str_ltb after app) (cas_apps d).
Definition listAccountApps (a after : string) (limit : Z) : ControlAct (list App) :=
  control_read (λ d, limited limit (account_apps d a after)).
Definition getAccountApp (a app : string) : ControlAct (option App) :=
  control_read (λ d, if is_member d app a then mkApp app <$> cas_apps d !! app else None).

Definition getAppOAuthIssuer (app : string) : ControlAct (option AccountOAuthIssuerRecord) :=
  control_read (λ d, mkIssuerRecord app <$> cas_app_oauth_issuers d !! app).
Definition issuer_elsewhere (d : ControlDb) (issuer app : string) : bool :=
  negb (mcount (λ k r, bool_decide (im_issuer (is_metadata r) = issuer) && bool_decide (k ≠ app))
          (cas_app_oauth_issuers d) =? 0).
Definition hasAppOAuthIssuerElsewhere (issuer app : string) : ControlAct bool :=
  control_read (λ d, issuer_elsewhere d issuer app).
Definition getAppOAuthIssuerInspection (i : string)
    : ControlAct (option AccountOAuthIssuerInspectionRecord) :=
  control_read (λ d, mkInspectionRecord i <$> cas_oauth_issuer_inspections d !! i).
Definition listAppOAuthIssuerInspectionKeys (i : string) : ControlAct (list DiscoveredOAuthJwk) :=
  control_read (λ d, (λ e, mkJwk (fst e) (snd e)) <$> merge_sort key_le
    ((λ e : string * string * JwkRow, (snd (fst e), snd e)) <$>
       filter (λ e : string * string * JwkRow, fst (fst e) = i)
         (map_to_list (cas_oauth_issuer_inspection_keys d)))).

Definition getAppMemberInvitation (app i : string) : ControlAct (option AppMemberInvitation) :=
  control_read (λ d, r ← cas_app_member_invitations d !! i;
    if bool_decide (ai_app_id r = app) then Some (invitation_of i r) else None).
Definition invitation_rows (d : ControlDb) (app : string) (status : option InvitationStatus)
    (expiresAtOrBefore : option Z) (after : string) : list AppMemberInvitation :=
  (λ e, invitation_of (fst e) (snd e)) <$>
    select_rows (λ i r, bool_decide (ai_app_id r = app) && str_ltb after i
        && match status with Some s => bool_decide (ai_status r = s) | None => true end
        && match expiresAtOrBefore with Some t => ai_expires_at r <=? t | None => true end)
      (cas_app_member_invitations d).
Definition listAppMemberInvitations (app : string) (status : option InvitationStatus)
    (expiresAtOrBefore : option Z) (after : string) (limit : Z)
    : ControlAct (list AppMemberInvitation) :=
  control_read (λ d, limited limit (invitation_rows d app status expiresAtOrBefore after)).
Definition getAccountAppInvitationByTokenHash (tokenHash : string)
    : ControlAct (option AccountAppInvitationRecord) :=
  control_read (λ d, match select_rows (λ _ r, bool_decide (ai_token_hash r = tokenHash))
                             (cas_app_member_invitations d) with
                     | (i, r) :: _ => Some (mkInvitationRecord (invitation_of i r) (ai_token_hash r))
                     | [] => None
                     end).

(** The receipt of an earlier creation, until it expires. *)
Definition getAccountAppInvitationIdempotency (a app key : string) (at_ : Z)
    : ControlAct (option AppInvitationIdempotencyRow) :=
  control_read (λ d, r ← cas_account_app_invitation_idempotency d !! (a, app, key);
    if at_ <? ix_expires_at r then Some r else None).
Definition getAccountAppIdempotency (a key : string) (at_ : Z) : ControlAct (option AppIdempotencyRow) :=
  control_read (λ d, r ← cas_account_app_idempotency d !! (a, key);
    if at_ <? ax_expires_at r then Some r else None).

(** The members of an App with their accounts and profiles, in order. *)
Definition membership_rows (d : ControlDb) (app after : string) : list AccountAppMembershipRecord :=
  omap (λ e : string * Z,
      account ← cas_accounts d !! fst e;
      profile ← cas_account_profiles d !! fst e;
      Some (mkMembershipRecord app (accountRecord (fst e) account) (mkProfileRecord (fst e) profile)
              (snd e)))
    (merge_sort key_le ((λ e : string * string * Z, (snd (fst e), snd e)) <$>
       filter (λ e : string * string * Z, fst (fst e) = app ∧ str_ltb after (snd (fst e)) = true)
         (map_to_list (cas_app_members d)))).
Definition listAppMemberships (app after : string) (limit : Z)
    : ControlAct (list AccountAppMembershipRecord) :=
  control_read (λ d, limited limit (membership_rows d app after)).

(** ** Platform views *)

(** [COALESCE(MAX(created_at), 0)] of the rows that satisfy [p]. *)
Definition max_created {V} (created : V → Z) (p : V → bool) (m : gmap string V) : Z :=
  map_fold (λ _ r acc, if p r then Z.max (created r) acc else acc) 0 m.
Definition last_active (d : ControlDb) (a : string) : option Z :=
  let t := Z.max
    (max_created ca_created_at (λ e, bool_decide (ca_original_account_id e = a)) (cas_control_audit_events d))
    (max_created pa_created_at (λ e, bool_decide (pa_actor_account_id e = a)) (cas_platform_audit_events d)) in
  if t =? 0 then None else Some t.

(** [platformAccountProjection] with [accountPlatformRecord]; [None] without a profile. *)
Definition platform_view (d : ControlDb) (a : string) (r : AccountRow) : option AccountPlatformViewRecord :=
  profile ← cas_account_profiles d !! a;
  Some (mkPlatformView (accountRecord a r) (mkProfileRecord a profile)
          (filter (λ au, has_authority d a au = true) [PlatformAdmin; AppsCreate])
          (Z.of_nat (length (member_apps d a)))
          (last_active d a)).
Definition getPlatformAccount (a : string) : ControlAct (option AccountPlatformViewRecord) :=
  control_read (λ d, r ← cas_accounts d !! a; platform_view d a r).

Inductive EffectiveAccess := AccessActive | AccessBlocked | AccessNone.
#[global] Instance EffectiveAccess_eq : EqDecision EffectiveAccess. Proof. solve_decision. Defined.
(** [authority?: PlatformAuthority | "none"]: [None] is "none". *)
Notation AuthorityFilter := (option PlatformAuthority) (only parsing).

Definition platform_matches (d : ControlDb) (query : option string) (access : option EffectiveAccess)
    (authority : option AuthorityFilter) (a : string) (r : AccountRow) : bool :=
  let contains q o := includes (lower_sql (default EmptyString o)) q in
  let has_any := negb (bool_decide (authorities_of d a = [])) in
  let unblocked := bool_decide (ac_blocked_at r = None) in
  match query with
  | Some q =>
      contains q (cas_account_profiles d !! a ≫= pf_display_name)
      || contains q (ac_primary_verified_email r) || includes (lower_sql a) q
  | None => true
  end
  && match authority with
     | Some None => negb has_any
     | Some (Some au) => has_authority d a au
     | None => true
     end
  && match access with
     | Some AccessBlocked => negb unblocked
     | Some AccessActive => unblocked && (has_any || negb (bool_decide (member_apps d a = [])))
     | Some AccessNone => unblocked && negb has_any && bool_decide (member_apps d a = [])
     | None => true
     end.
Definition platform_rows (d : ControlDb) (after : string) (query : option string)
    (access : option EffectiveAccess) (authority : option AuthorityFilter)
    : list AccountPlatformViewRecord :=
  omap (λ e, platform_view d (fst e) (snd e))
    (select_rows (λ a r, str_ltb after a && platform_matches d query access authority a r)
       (cas_accounts d)).
Definition listPlatformAccounts (after : string) (limit : Z) (query : option string)
    (access : option EffectiveAccess) (authority : option AuthorityFilter)
    : ControlAct (list AccountPlatformViewRecord) :=
  control_read (λ d, limited limit (platform_rows d after query access authority)).

(** ** Audit events *)

(** [auditActor]: the joins of the actor, [None] when one of them finds nothing. *)
Definition auditActor (d : ControlDb) (a i : string) : option AccountAuditActorRecord :=
  account ← cas_accounts d !! a;
  profile ← cas_account_profiles d !! a;
  identity ← cas_external_identities d !! i;
  Some (mkAuditActor (accountRecord a account) (mkProfileRecord a profile)
          (externalIdentityRecord i identity)).
(** [auditTarget]: the left joins of the target. *)
Definition auditTarget (d : ControlDb) (target : option string)
    : result exn (option (AccountRecord * AccountProfileRecord)) :=
  match target with
  | None => Ok None
  | Some a =>
      match cas_accounts d !! a, cas_account_profiles d !! a with
      | None, _ => Ok None
      | Some account, Some profile => Ok (Some (accountRecord a account, mkProfileRecord a profile))
      | Some _, None => Throw (Error "Incomplete target Account audit projection")
      end
  end.

Definition getAppAuditEventPosition (app eventId : string) : ControlAct (option (Z * string)) :=
  control_read (λ d, e ← cas_control_audit_events d !! eventId;
    if bool_decide (ca_app_id e = Some app) then Some (ca_created_at e, eventId) else None).

(** [(created_at, event_id)] in ascending order. *)
Definition position_ltb (a b : Z * string) : bool :=
  (fst a <? fst b) || ((fst a =? fst b) && str_ltb (snd a) (snd b)).
Definition created_le {V} (created : V → Z) (a b : string * V) : Prop :=
  position_ltb (created (snd b), fst b) (created (snd a), fst a) = false.
#[global] Instance created_le_dec {V} (created : V → Z) : RelDecision (created_le created).
Proof. intros a b. unfold created_le. apply _. Defined.
Definition matches_filter (filter_ value : option string) : bool :=
  match filter_ with Some s => bool_decide (value = Some s) | None => true end.

Definition app_audit_rows (d : ControlDb) (app : string) (actorFilter targetFilter : option string)
    (after : Z * string) : list (string * ControlAuditRow) :=
  merge_sort (created_le ca_created_at)
    (filter (λ e : string * ControlAuditRow,
        (bool_decide (ca_app_id (snd e) = Some app)
         && matches_filter actorFilter (Some (ca_original_account_id (snd e)))
         && matches_filter targetFilter (ca_target_account_id (snd e))
         && position_ltb after (ca_created_at (snd e), fst e)
         && bool_decide (is_Some (auditActor d (ca_original_account_id (snd e))
                                    (ca_external_identity_id (snd e))))) = true)
       (map_to_list (cas_control_audit_events d))).
(** [appAuditRecord]. *)
Definition appAuditRecord (d : ControlDb) (e : string * ControlAuditRow)
    : result exn (list AppAccountAuditRecord) :=
  match auditActor d (ca_original_account_id (snd e)) (ca_external_identity_id (snd e)) with
  | Some actor =>
      target ← auditTarget d (ca_target_account_id (snd e));
      Ok [mkAppAuditRecord actor target (fst e) (snd e)]
  | None => Ok []
  end.
Definition listAppAccountAuditEvents (app : string) (actorFilter targetFilter : option string)
    (after : Z * string) (limit : Z) : ControlAct (list AppAccountAuditRecord) :=
  r ← control_read (λ d, map_result (appAuditRecord d)
        (limited limit (app_audit_rows d app actorFilter targetFilter after)));
  l ← lift r; mret (concat l).

(** In descending order, [before] the cursor. *)
Definition created_ge {V} (created : V → Z) (a b : string * V) : Prop := created_le created b a.
#[global] Instance created_ge_dec {V} (created : V → Z) : RelDecision (created_ge created).
Proof. intros a b. unfold created_ge. apply _. Defined.
Definition platform_audit_rows (d : ControlDb) (action actorFilter targetFilter : option string)
    (createdAfter : option Z) (before : option (Z * string)) : list (string * PlatformAuditRow) :=
  merge_sort (created_ge pa_created_at)
    (filter (λ e : string * PlatformAuditRow,
        (matches_filter action (Some (pa_action (snd e)))
         && matches_filter actorFilter (Some (pa_actor_account_id (snd e)))
         && matches_filter targetFilter (pa_target_account_id (snd e))
         && match createdAfter with Some t => t <? pa_created_at (snd e) | None => true end
         && match before with
            | Some p => position_ltb (pa_created_at (snd e), fst e) p
            | None => true
            end
         && bool_decide (is_Some (auditActor d (pa_actor_account_id (snd e))
                                    (pa_actor_external_identity_id (snd e))))) = true)
       (map_to_list (cas_platform_audit_events d))).

(** The details of an event, when they are an object of scalars; else none. *)
Definition is_scalar (j : Json) : bool :=
  match j with JArr _ | JObj _ => false | _ => true end.
Definition audit_details (text : list ascii) : list (string * Json) :=
  match JSON_parse text with
  | Some (JObj members) => if forallb (λ m, is_scalar (snd m)) members then members else []
  | _ => []
  end.
Definition platformAuditRecord (d : ControlDb) (e : string * PlatformAuditRow)
    : result exn (list PlatformAccountAuditRecord) :=
  match auditActor d (pa_actor_account_id (snd e)) (pa_actor_external_identity_id (snd e)) with
  | Some actor =>
      target ← auditTarget d (pa_target_account_id (snd e));
      Ok [mkPlatformAuditRecord actor target (fst e) (snd e) (audit_details (pa_details_json (snd e)))]
  | None => Ok []
  end.
Definition listPlatformAccountAuditEvents (action actorFilter targetFilter : option string)
    (createdAfter : option Z) (before : option (Z * string)) (limit : Z)
    : ControlAct (list PlatformAccountAuditRecord) :=
  r ← control_read (λ d, map_result (platformAuditRecord d)
        (limited limit (platform_audit_rows d action actorFilter targetFilter createdAfter before)));
  l ← lift r; mret (concat l).

(** * Commits

    Each runs its batch; when that fails by a guard (or a unique key, where the method
    looks at those), the state is read again to say why, and any other failure is
    thrown on. *)

(** [try { await db.batch(l); return done } catch (error) { ... }]. *)
Definition commit {A} (l : list cstmt) (done_ : A) (failed : exn → ControlAct A) : ControlAct A :=
  try_catch (_ ← control_batch l; mret done_) failed.

Definition identity_active (identity : option ExternalIdentityRecord) (a : string) : bool :=
  match identity with
  | Some i => bool_decide (id_account_id (ext_row i) = a) && bool_decide (id_unlinked_at (ext_row i) = None)
  | None => false
  end.
Definition account_usable (account : option AccountRecord) : bool :=
  match account with Some r => bool_decide (blockedAt r = None) | None => false end.

(** [#isUsableAppActor]. *)
Definition isUsableAppActor (actor : Actor) (app : string) : ControlAct bool :=
  account ← getAccount (actorAccountId actor);
  identity ← getIdentity (actorExternalIdentityId actor);
  if account_usable account && identity_active identity (actorAccountId actor)
  then hasAppMembership (actorAccountId actor) (Some app)
  else mret false.

Definition commitInspectAccountOAuthIssuer (actor : Actor) (caller : Caller)
    (inspection : AccountOAuthIssuerInspectionRecord) (keys : list DiscoveredOAuthJwk)
    (eventId : string) (at_ : Z) : ControlAct string :=
  commit (command_stmts (InspectIssuer actor caller (insp_inspectionId inspection)
            (insp_row inspection) keys eventId at_)) "created" (λ e,
    if negb (isJsonFailure e) && negb (isUniqueFailure e) then throw e
    else usable ← isUsableAppActor actor (in_app_id (insp_row inspection));
         mret (if usable : bool then "issuer-conflict" else "actor-not-member")).

Definition commitActivateAccountOAuthIssuer (actor : Actor) (caller : Caller)
    (app inspectionId : string) (expectedIssuerRevision : option Z) (issuer : IssuerRow)
    (eventId : string) (at_ : Z) : ControlAct string :=
  commit (command_stmts (ActivateIssuer actor caller app inspectionId expectedIssuerRevision issuer
            eventId at_)) "activated" (λ e,
    if negb (isJsonFailure e) && negb (isUniqueFailure e) then throw e
    else
      usable ← isUsableAppActor actor app;
      if negb usable then mret "actor-not-member"
      else
        conflict ← (if isUniqueFailure e
                    then hasAppOAuthIssuerElsewhere (im_issuer (is_metadata issuer)) app
                    else mret false);
        if conflict : bool then mret "issuer-conflict"
        else
          inspection ← getAppOAuthIssuerInspection inspectionId;
          mret (match inspection with
                | None => "unavailable"
                | Some i => if bool_decide (in_used_at (insp_row i) ≠ None)
                               || (in_expires_at (insp_row i) <=? at_)
                            then "unavailable" else "revision-mismatch"
                end)).

Definition commitAccountAppInvitationTransition (actor : Actor) (caller : Caller)
    (app invitationId : string) (expectedRevision : Z) (revoke : bool) (eventId : string) (at_ : Z)
    : ControlAct string :=
  commit (command_stmts (TransitionInvitation actor caller app invitationId expectedRevision revoke
            eventId at_)) "updated" (λ e,
    if negb (isJsonFailure e) then throw e
    else usable ← isUsableAppActor actor app;
         mret (if usable : bool then "unavailable" else "actor-not-member")).

(** The result of a creation with an idempotency key: a word, or the row another
    request stored under the key. *)
Definition created_or {R} (race : option R) (otherwise : ControlAct (string + R)) : ControlAct (string + R) :=
  match race with Some r => mret (inr r) | None => otherwise end.

Definition commitCreateAccountAppInvitation (actor : Actor) (caller : Caller) (invitationId : string)
    (invitation : AppInvitationRow) (idempotency : option (string * AppInvitationIdempotencyRow))
    (eventId : string) (at_ : Z) : ControlAct (string + AppInvitationIdempotencyRow) :=
  let app := ai_app_id invitation in
  commit (command_stmts (CreateInvitation actor caller invitationId invitation idempotency eventId at_))
    (inl "created") (λ e,
    existing ← match idempotency with
               | Some (key, _) =>
                   if isUniqueFailure e
                   then getAccountAppInvitationIdempotency (actorAccountId actor) app key at_
                   else mret None
               | None => mret None
               end;
    created_or existing (
      if isJsonFailure e then
        usable ← isUsableAppActor actor app;
        if negb usable then mret (inl "actor-not-member") else throw e
      else throw e)).

Definition commitAcceptAccountAppInvitation (actor : Actor) (caller : Caller)
    (invitation : AccountAppInvitationRecord) (primary : option PrimaryVerifiedEmail)
    (challenge : option (string * string)) (eventId : string) (at_ : Z) : ControlAct string :=
  let i := air_invitation invitation in
  commit (command_stmts (AcceptInvitation actor caller (inv_appId i) (inv_invitationId i)
            (air_tokenHash invitation) primary challenge eventId at_)) "accepted" (λ e,
    if negb (isJsonFailure e) then throw e
    else
      account ← getAccount (actorAccountId actor);
      identity ← getIdentity (actorExternalIdentityId actor);
      mret (if account_usable account && identity_active identity (actorAccountId actor)
            then "invitation-unavailable" else "account-unavailable")).

Definition appendAccountSessionAudit (actor : Actor) (caller : Caller) (action eventId : string) (at_ : Z)
    : ControlAct string :=
  n ← control_batch (command_stmts (SessionAudit actor caller action eventId at_));
  mret (if n =? 1 then "recorded" else "account-unavailable").
Definition appendAccountAppGcAudit (actor : Actor) (caller : Caller) (app eventId : string) (at_ : Z)
    : ControlAct string :=
  n ← control_batch (command_stmts (AppGcAudit actor caller app eventId at_));
  mret (if n =? 1 then "recorded" else "actor-not-member").

Definition commitPatchAccountApp (actor : Actor) (caller : Caller) (app : App) (expectedRevision : Z)
    (action eventId : string) (at_ : Z) : ControlAct string :=
  identity ← getIdentity (actorExternalIdentityId actor);
  if negb (identity_active identity (actorAccountId actor)) then mret "actor-not-member"
  else
    commit (command_stmts (PatchApp actor caller app expectedRevision action eventId at_)) "updated" (λ e,
      if negb (isJsonFailure e) then throw e
      else
        member ← hasAppMembership (actorAccountId actor) (Some (app_appId app));
        if negb member then mret "actor-not-member"
        else
          current ← control_read (λ d, ap_revision <$> cas_apps d !! app_appId app);
          mret (match current with None => "not-found" | Some _ => "revision-mismatch" end)).

Definition commitCreateAccountApp (actor : Actor) (caller : Caller) (app : App)
    (idempotency : option (string * AppIdempotencyRow)) (eventId : string)
    : ControlAct (string + AppIdempotencyRow) :=
  identity ← getIdentity (actorExternalIdentityId actor);
  if negb (identity_active identity (actorAccountId actor)) then mret (inl "actor-forbidden")
  else
    commit (command_stmts (CreateApp actor caller app idempotency eventId)) (inl "created") (λ e,
      existing ← match idempotency with
                 | Some (key, _) =>
                     if isUniqueFailure e
                     then getAccountAppIdempotency (actorAccountId actor) key (ap_created_at (app_row app))
                     else mret None
                 | None => mret None
                 end;
      created_or existing (if isJsonFailure e then mret (inl "actor-forbidden") else throw e)).

Definition commitRemoveAppMembership (actor : Actor) (caller : Caller) (app target eventId : string)
    (at_ : Z) : ControlAct string :=
  commit (command_stmts (RemoveMember actor caller app target eventId at_)) "removed" (λ e,
    if negb (isJsonFailure e) then throw e
    else
      identity ← getIdentity (actorExternalIdentityId actor);
      member ← hasAppMembership (actorAccountId actor) (Some app);
      if negb member || negb (identity_active identity (actorAccountId actor))
      then mret "actor-not-member"
      else
        there ← hasAppMembership target (Some app);
        if negb there then mret "removed"
        else
          count ← control_read (λ d, member_count d app);
          mret (if count <=? 1 then "last-member" else "removed")).

(** [#platformMutationFailure]; [None] is 'unclassified'. *)
Definition platformMutationFailure (actor : Actor) (target : string) (checkLastAdmin : bool)
    : ControlAct (option string) :=
  account ← getAccount (actorAccountId actor);
  identity ← getIdentity (actorExternalIdentityId actor);
  authorities ← listPlatformAuthorities (actorAccountId actor);
  targetAccount ← getAccount target;
  if negb (account_usable account) || negb (includes_authority PlatformAdmin authorities)
     || negb (identity_active identity (actorAccountId actor))
  then mret (Some "actor-forbidden")
  else match targetAccount with
  | None => mret (Some "target-not-found")
  | Some t =>
      if checkLastAdmin && bool_decide (blockedAt t = None) then
        authorities ← listPlatformAuthorities (accountId t);
        if includes_authority PlatformAdmin authorities then
          active ← control_read admin_count;
          mret (if active <=? 1 then Some "last-admin" else None)
        else mret None
      else mret None
  end.

Definition commitPlatformAuthority (actor : Actor) (target : string) (au : PlatformAuthority)
    (grant : bool) (eventId : string) (request : option string) (at_ : Z) : ControlAct string :=
  commit (command_stmts (SetAuthority actor target au grant eventId request at_)) "updated" (λ e,
    if negb (isJsonFailure e) then throw e
    else
      failure ← platformMutationFailure actor target (bool_decide (au = PlatformAdmin) && negb grant);
      match failure with None => throw e | Some word => mret word end).

Definition commitPlatformBlock (actor : Actor) (target : string) (blocked : bool) (eventId : string)
    (request : option string) (at_ : Z) : ControlAct string :=
  commit (command_stmts (SetBlocked actor target blocked eventId request at_)) "updated" (λ e,
    if negb (isJsonFailure e) then throw e
    else if blocked && bool_decide (actorAccountId actor = target) then mret "self-block"
    else
      failure ← platformMutationFailure actor target blocked;
      match failure with None => throw e | Some word => mret word end).

Definition createAccountWithIdentity (a : string) (account : AccountRow) (profile : ProfileRow)
    (identity : ExternalIdentityRecord) : ControlAct string :=
  commit (command_stmts (CreateAccount a (externalIdentityId identity) account profile (ext_row identity)))
    "created" (λ e,
    existing ← getActiveIdentity (id_issuer (ext_row identity)) (id_subject (ext_row identity));
    match existing with Some _ => mret "identity-conflict" | None => throw e end).

(** [account?.blockedAt !== null]: it is so of an account that is not there, too. *)
Definition not_unblocked (account : option AccountRecord) : bool := negb (account_usable account).

Definition commitLinkIdentity (a : string) (expectedVersion : Z) (identity : ExternalIdentityRecord)
    (displayName avatarUrl : option string) (at_ : Z) : ControlAct string :=
  commit (command_stmts (LinkIdentity a expectedVersion (externalIdentityId identity) (ext_row identity)
            displayName avatarUrl at_)) "linked" (λ e,
    if negb (isJsonFailure e) && negb (isUniqueFailure e) then throw e
    else
      existing ← getActiveIdentity (id_issuer (ext_row identity)) (id_subject (ext_row identity));
      match existing with
      | Some _ => mret "identity-conflict"
      | None =>
          account ← getAccount a;
          mret (if not_unblocked account then "blocked" else "version-mismatch")
      end).

Definition commitUnlinkIdentity (a : string) (expectedVersion : Z) (target remaining : string) (at_ : Z)
    : ControlAct string :=
  commit (command_stmts (UnlinkIdentity a expectedVersion target remaining at_)) "unlinked" (λ e,
    if negb (isJsonFailure e) then throw e
    else
      account ← getAccount a;
      if not_unblocked account then mret "blocked"
      else if negb (bool_decide ((credentialVersion <$> account) = Some expectedVersion))
      then mret "version-mismatch"
      else
        targetIdentity ← getIdentity target;
        remainingIdentity ← getIdentity remaining;
        if negb (identity_active targetIdentity a) || negb (identity_active remainingIdentity a)
        then mret "not-found"
        else
          active ← control_read (λ d, active_count d a);
          mret (if (active <? 2) || bool_decide (target = remaining) then "final-identity"
                else "not-found")).

(** [displayName] and [avatarExternalIdentityId] when given; [Some None] is [null]. *)
Definition updateProfile_repo (a : string) (displayName avatarIdentity : option (option string)) (at_ : Z)
    : ControlAct string :=
  avatar ← match avatarIdentity with
           | Some (Some i) =>
               identity ← getIdentity i;
               mret (if identity_active identity a then
                       match identity ≫= (λ r, id_avatar_url (ext_row r)) with
                       | Some url => if strlen url =? 0 then None else Some (Some (Some (url, i)))
                       | None => None
                       end
                     else None)
           | Some None => mret (Some (Some None))
           | None => mret (Some None)
           end;
  match avatar with
  | None => mret "identity-not-found"
  | Some avatar =>
      if bool_decide (displayName = None) && bool_decide (avatarIdentity = None) then mret "updated"
      else _ ← control_batch (command_stmts (UpdateProfile a displayName avatar at_)); mret "updated"
  end.
