(* ===== verification/Account.v ===== *)
(** [AccountService] of [packages/service/src/account.ts]: accounts reached through
    external identities, their profiles, the Apps they belong to, invitations, OAuth
    issuers and platform authorities. Every operation resolves the account it acts for,
    requires it usable, checks what it needs, and commits through the repository, which
    checks again in the batch that writes. *)
From Stdlib Require Import Ascii.
From S2P Require Import Prelude Js JsString JsonText MapSum Errors Codec World ControlStore.
From S2P Require Import AccountBatches InvitationBatches ControlWorld ControlValidation.
From S2P Require Import AccountRepo.

Definition MAX_ALIAS_DEPTH : nat := 8.

(** [throw new AccountServiceError(code)], and the guard [if (c) throw ...]. *)
Definition fail {A} (code : string) : ControlAct A := throw (EAccountService code).
Definition fail_if (c : bool) (code : string) : ControlAct unit :=
  if c then fail code else mret tt.

Record AccountResolution := mkResolution {
  res_account : AccountRecord;
  res_authenticatedIdentity : ExternalIdentityRecord;
  res_platformAuthorities : list PlatformAuthority;
  res_hasAppMembership : bool
}.

(** * Projections *)

(** [toUpperCase] below code unit 256: sharp s becomes two letters, and two letters
    leave the range. *)
Definition upper_codes (c : ascii) : list Z :=
  let n := code c in
  if in_range 0x61 0x7a c || (in_range 0xe0 0xfe c && negb (n =? 0xf7)) then [n - 32]
  else if n =? 0xdf then [0x53; 0x53]
  else if n =? 0xff then [0x178]
  else if n =? 0xb5 then [0x39c]
  else [n].

(** [displayName.trim().split(/\s+/).filter(Boolean)]. *)
Fixpoint words_loop (l word : list ascii) : list (list ascii) :=
  match l with
  | [] => if bool_decide (word = []) then [] else [rev word]
  | c :: l =>
      if is_js_space c
      then (if bool_decide (word = []) then [] else [rev word]) ++ words_loop l []
      else words_loop l (c :: word)
  end.
Definition name_parts (displayName : string) : list (list ascii) :=
  words_loop (trim_text (chars displayName)) [].

(** [initials], as code units; it reads the first of the parts, which a name of white
    space alone does not have. *)
Definition initials (displayName : option string) : result exn (list Z) :=
  let name := default EmptyString displayName in
  if strlen name =? 0 then Ok [0x55; 0x43]
  else match name_parts name with
       | [] => Throw (TypeError "Cannot read properties of undefined (reading 'slice')")
       | [p] => Ok (flat_map upper_codes (take 2 p))
       | p :: parts => Ok (flat_map upper_codes (take 1 p ++ take 1 (List.last parts [])))
       end.

(** [stableColorIndex]: [>>> 0] keeps the low 32 bits. *)
Definition stableColorIndex (a : string) : Z :=
  foldl (λ hash c, (hash * 31 + code c) mod 2 ^ 32) 0 (chars a) mod 12.

Record AccountSummary := mkSummary {
  sum_accountId : string;
  sum_displayName : option string;
  sum_primaryVerifiedEmail : option PrimaryVerifiedEmail;
  sum_imageUrl : option string;      (* an image, or the fallback alone *)
  sum_initials : list Z;
  sum_colorIndex : Z
}.
Definition projectAccountSummary (account : AccountRecord) (profile : AccountProfileRecord)
    : result exn AccountSummary :=
  letters ← initials (pf_display_name (prf_row profile));
  Ok (mkSummary (accountId account) (pf_display_name (prf_row profile)) (primaryVerifiedEmail account)
        (match pf_avatar_url (prf_row profile) with
         | Some url => if strlen url =? 0 then None else Some url
         | None => None
         end)
        letters (stableColorIndex (accountId account))).

Record AppMembership := mkMembership { ms_appId : string; ms_account : AccountSummary }.

Record PlatformAccountListItem := mkPlatformItem {
  pli_summary : AccountSummary;
  pli_blockedAt : option Z;
  pli_platformAuthorities : list PlatformAuthority;
  pli_createdAt : Z;
  pli_updatedAt : Z;
  pli_effectiveAccess : EffectiveAccess;
  pli_appMembershipCount : Z;
  pli_lastActiveAt : option Z
}.
Definition projectPlatformAccount (r : AccountPlatformViewRecord) : result exn PlatformAccountListItem :=
  summary ← projectAccountSummary (pv_account r) (pv_profile r);
  Ok (mkPlatformItem summary (blockedAt (pv_account r)) (pv_platformAuthorities r)
        (acc_createdAt (pv_account r)) (acc_updatedAt (pv_account r))
        (if bool_decide (blockedAt (pv_account r) ≠ None) then AccessBlocked
         else if (0 <? Z.of_nat (length (pv_platformAuthorities r))) || (0 <? pv_appMembershipCount r)
         then AccessActive else AccessNone)
        (pv_appMembershipCount r) (pv_lastActiveAt r)).

(** [projectAuditIdentity] keeps the identity; [currentLogin] is false. *)
Record AppControlAuditEvent := mkAppEvent {
  ace_eventId : string;
  ace_row : ControlAuditRow;
  ace_actorAccount : AccountSummary;
  ace_authenticatedIdentity : ExternalIdentityRecord;
  ace_targetAccount : option AccountSummary;
  ace_caller : option Caller
}.
Definition project_target (target : option (AccountRecord * AccountProfileRecord))
    : result exn (option AccountSummary) :=
  match target with
  | Some (account, profile) => summary ← projectAccountSummary account profile; Ok (Some summary)
  | None => Ok None
  end.
Definition projectAppAuditEvent (r : AppAccountAuditRecord) : result exn AppControlAuditEvent :=
  actor ← projectAccountSummary (aud_account (apa_actor r)) (aud_profile (apa_actor r));
  target ← project_target (apa_target r);
  Ok (mkAppEvent (apa_eventId r) (apa_row r) actor (aud_identity (apa_actor r)) target
        (match callerChannel (ca_caller (apa_row r)) with
         | Some channel => if strlen channel =? 0 then None else Some (ca_caller (apa_row r))
         | None => None
         end)).

Record PlatformAccountAuditEvent := mkPlatformEvent {
  pae_eventId : string;
  pae_row : PlatformAuditRow;
  pae_actorAccount : AccountSummary;
  pae_authenticatedIdentity : ExternalIdentityRecord;
  pae_targetAccount : option AccountSummary;
  pae_details : list (string * Json)
}.
Definition projectPlatformAuditEvent (r : PlatformAccountAuditRecord)
    : result exn PlatformAccountAuditEvent :=
  actor ← projectAccountSummary (aud_account (paa_actor r)) (aud_profile (paa_actor r));
  target ← project_target (paa_target r);
  Ok (mkPlatformEvent (paa_eventId r) (paa_row r) actor (aud_identity (paa_actor r)) target
        (paa_details r)).

(** * Accounts and credentials *)

Definition requireUsableAccount (account : AccountRecord) : ControlAct unit :=
  fail_if (bool_decide (blockedAt account ≠ None)) "ACCOUNT_BLOCKED".

Definition requireFresh (authenticatedAt : Z) : ControlAct unit :=
  t ← now;
  fail_if ((t <? authenticatedAt) || (AUTHENTICATION_FLOW_TTL_MS <? t - authenticatedAt))
    "FRESH_AUTHENTICATION_REQUIRED".

(** [#resolveCanonicalAccount]: the loop has [depth] turns left. *)
Fixpoint resolve_loop (depth : nat) (visited : list string) (a : string) : ControlAct AccountRecord :=
  match depth with
  | O => fail "ACCOUNT_ALIAS_INVALID"
  | S depth =>
      if bool_decide (a ∈ visited) then fail "ACCOUNT_ALIAS_INVALID"
      else
        account ← getAccount a;
        match account with
        | None => fail "ACCOUNT_NOT_FOUND"
        | Some account =>
            target ← getAliasTarget a;
            match target with
            | None => mret account
            | Some target => resolve_loop depth (a :: visited) target
            end
        end
  end.
Definition resolveCanonicalAccount (a : string) : ControlAct AccountRecord :=
  resolve_loop (S MAX_ALIAS_DEPTH) [] a.

(** The account an operation acts for. *)
Definition usableAccount (a : string) : ControlAct AccountRecord :=
  account ← resolveCanonicalAccount a;
  _ ← requireUsableAccount account;
  mret account.

Definition resolution (account : AccountRecord) (identity : ExternalIdentityRecord)
    : ControlAct AccountResolution :=
  authorities ← listPlatformAuthorities (accountId account);
  member ← hasAppMembership (accountId account) None;
  mret (mkResolution account identity authorities member).

Definition resolveExternalIdentity (issuer subject : string) : ControlAct (option AccountResolution) :=
  identity ← getActiveIdentity issuer subject;
  match identity with
  | None => mret None
  | Some identity =>
      account ← usableAccount (id_account_id (ext_row identity));
      r ← resolution account identity;
      mret (Some r)
  end.

Definition authorizeCredential (a identityId : string) (version : Z) : ControlAct AccountResolution :=
  account ← usableAccount a;
  _ ← fail_if (negb (credentialVersion account =? version)) "CREDENTIAL_VERSION_MISMATCH";
  identity ← getIdentity identityId;
  match identity with
  | Some i =>
      if bool_decide (id_unlinked_at (ext_row i) ≠ None) then fail "IDENTITY_NOT_FOUND"
      else if bool_decide (id_account_id (ext_row i) ≠ a) then fail "IDENTITY_ACCOUNT_MISMATCH"
      else resolution account i
  | None => fail "IDENTITY_NOT_FOUND"
  end.

Definition requireActiveIdentity (a identityId : string) : ControlAct ExternalIdentityRecord :=
  identity ← getIdentity identityId;
  match identity with
  | Some i =>
      if bool_decide (id_unlinked_at (ext_row i) ≠ None) then fail "IDENTITY_NOT_FOUND"
      else if bool_decide (id_account_id (ext_row i) ≠ a) then fail "IDENTITY_ACCOUNT_MISMATCH"
      else mret i
  | None => fail "IDENTITY_NOT_FOUND"
  end.

Definition requireAppMembership (a app : string) : ControlAct unit :=
  actor ← usableAccount a;
  member ← hasAppMembership (accountId actor) (Some app);
  fail_if (negb member) "APP_MEMBERSHIP_REQUIRED".

(** The opening of the operations of a member: its account, identity and membership. *)
Definition requireMember (actor : Actor) (app : string) : ControlAct Actor :=
  account ← usableAccount (actorAccountId actor);
  _ ← requireActiveIdentity (accountId account) (actorExternalIdentityId actor);
  member ← hasAppMembership (accountId account) (Some app);
  _ ← fail_if (negb member) "APP_MEMBERSHIP_REQUIRED";
  mret (mkActor (accountId account) (actorExternalIdentityId actor)).

Record AccountSelf := mkSelf {
  self_summary : AccountSummary;
  self_blockedAt : option Z;
  self_platformAuthorities : list PlatformAuthority;
  self_identities : list (ExternalIdentityRecord * bool);   (* [currentLogin] *)
  self_linkableProviders : list ProviderKind
}.
Definition getSelf (a currentIdentity : string) (configuredProviders : list ProviderKind)
    : ControlAct AccountSelf :=
  account ← usableAccount a;
  profile ← getProfile (accountId account);
  identities ← listActiveIdentities (accountId account);
  authorities ← listPlatformAuthorities (accountId account);
  match profile with
  | None => fail "ACCOUNT_NOT_FOUND"
  | Some profile =>
      summary ← lift (projectAccountSummary account profile);
      mret (mkSelf summary (blockedAt account) authorities
        ((λ i, (i, bool_decide (externalIdentityId i = currentIdentity))) <$> identities)
        (filter (λ p, negb (existsb (λ i, bool_decide (id_provider (ext_row i) = p)) identities) = true)
           configuredProviders))
  end.

Definition updateProfile (a : string) (displayName avatarIdentity : option (option string))
    : ControlAct unit :=
  _ ← usableAccount a;
  t ← now;
  result ← updateProfile_repo a displayName avatarIdentity t;
  fail_if (bool_decide (result = "identity-not-found")) "IDENTITY_NOT_FOUND".

(** * Pages

    Every list reads the control snapshot before and after its rows and refuses a
    cursor of another snapshot, so pages that follow one another show one state. *)

Definition null_or_string (o : option string) : Json :=
  match o with Some s => JStr s | None => JNull end.

(** [limit ?? 50], an integer between 1 and [max]. *)
Definition page_limit (limit : option Json) (max : Z) : ControlAct Z :=
  match limit with
  | None => mret 50
  | Some (JInt n) => if (n <? 1) || (max <? n) then fail "INVALID_REQUEST" else mret n
  | Some _ => fail "INVALID_REQUEST"
  end.
Definition page_cursor (cursor : option string) : ControlAct (option ControlListCursor) :=
  match cursor with
  | None => mret None
  | Some text => match decodeControlListCursor text with
                 | Some c => mret (Some c)
                 | None => fail "INVALID_CURSOR"
                 end
  end.
(** The snapshot the page is read at, which that of the cursor must be. *)
Definition page_snapshot (cursor : option ControlListCursor) : ControlAct Z :=
  snapshot ← readControlSnapshot;
  _ ← fail_if (match cursor with Some c => negb (cu_snapshot c =? snapshot) | None => false end)
        "INVALID_CURSOR";
  mret snapshot.
Definition same_snapshot (snapshot : Z) : ControlAct unit :=
  again ← readControlSnapshot;
  fail_if (negb (again =? snapshot)) "INVALID_CURSOR".

(** The first [limit] of the rows, and the cursor of the last when there are more. *)
Definition page_of {R} (limit snapshot : Z) (key : R → string) (rows : list R) : list R * option string :=
  let items := limited limit rows in
  (items,
   if limit <? Z.of_nat (length rows)
   then (λ r, encodeControlListCursor (mkCursor snapshot (key r))) <$> last items
   else None).

Definition listApps (actorId : string) (limit : option Json) (cursor : option string)
    : ControlAct (list App * option string) :=
  actor ← usableAccount actorId;
  limit ← page_limit limit 100;
  cursor ← page_cursor cursor;
  snapshot ← page_snapshot cursor;
  rows ← listAccountApps (accountId actor) (default EmptyString (cu_last <$> cursor)) (limit + 1);
  _ ← same_snapshot snapshot;
  mret (page_of limit snapshot app_appId rows).

Definition getApp (actorId app : string) : ControlAct App :=
  actor ← usableAccount actorId;
  row ← getAccountApp (accountId actor) app;
  match row with Some app => mret app | None => fail "APP_MEMBERSHIP_REQUIRED" end.

Definition listAppMembers (actorId app : string) (limit : option Json) (cursor : option string)
    : ControlAct (list AppMembership * option string) :=
  actor ← usableAccount actorId;
  member ← hasAppMembership (accountId actor) (Some app);
  _ ← fail_if (negb member) "APP_MEMBERSHIP_REQUIRED";
  limit ← page_limit limit 100;
  cursor ← page_cursor cursor;
  snapshot ← page_snapshot cursor;
  rows ← listAppMemberships app (default EmptyString (cu_last <$> cursor)) (limit + 1);
  _ ← same_snapshot snapshot;
  let '(page, next) := page_of limit snapshot (λ r, accountId (mem_account r)) rows in
  items ← lift (map_result (λ r, summary ← projectAccountSummary (mem_account r) (mem_profile r);
                                 Ok (mkMembership (mem_appId r) summary)) page);
  mret (items, next).

Definition listAccountMemberships (a : string) : ControlAct (list AppMembership) :=
  account ← usableAccount a;
  profile ← getProfile (accountId account);
  match profile with
  | None => fail "ACCOUNT_NOT_FOUND"
  | Some profile =>
      summary ← lift (projectAccountSummary account profile);
      apps ← listAccountMembershipAppIds (accountId account);
      mret ((λ app, mkMembership app summary) <$> apps)
  end.

(** * Apps *)

(** The member of a patch: [undefined] is [None]. *)
Record AppPatch := mkPatch {
  patch_displayName : option Json;
  patch_description : option Json;
  patch_status : option Json
}.
Definition patch_text (value : option Json) : option string :=
  match value with Some (JStr s) => Some (trim s) | _ => None end.
Definition status_of (value : option Json) : option AppStatus :=
  match value with
  | Some (JStr s) => if bool_decide (s = "active") then Some AppActive
                     else if bool_decide (s = "suspended") then Some AppSuspended else None
  | _ => None
  end.
(** What [patchApp] refuses of a patch. *)
Definition patch_invalid (p : AppPatch) : bool :=
  (bool_decide (patch_displayName p = None) && bool_decide (patch_description p = None)
   && bool_decide (patch_status p = None))
  || match patch_displayName p with Some v => bool_decide (validateDisplayName v ≠ None) | None => false end
  || match patch_description p with
     | Some (JStr s) => 2000 <? strlen s
     | Some _ => true
     | None => false
     end
  || match patch_status p with Some _ => bool_decide (status_of (patch_status p) = None) | None => false end.
Definition patched_row (p : AppPatch) (r : AppRow) : AppRow :=
  mkAppRow (default (ap_display_name r) (patch_text (patch_displayName p)))
    (default (ap_description r) (patch_text (patch_description p)))
    (default (ap_status r) (status_of (patch_status p))) (ap_created_at r) (ap_revision r).
Definition next_revision (r : AppRow) : AppRow :=
  mkAppRow (ap_display_name r) (ap_description r) (ap_status r) (ap_created_at r) (ap_revision r + 1).

(** The revision [If-Match] names. *)
Definition precondition (ifMatch : option string) : ControlAct Z :=
  match ifMatch with
  | None => fail "PRECONDITION_REQUIRED"
  | Some text =>
      if strlen (trim text) =? 0 then fail "PRECONDITION_REQUIRED"
      else match parseCasAdminETag text with Some n => mret n | None => fail "REVISION_MISMATCH" end
  end.

Section account.
Context {Hsha : Sha256} {Hent : Entropy}.

Definition patchApp (actor : Actor) (caller : Caller) (app : string) (patch : AppPatch)
    (ifMatch : option string) : ControlAct Z :=
  expected ← precondition ifMatch;
  account ← usableAccount (actorAccountId actor);
  _ ← requireActiveIdentity (accountId account) (actorExternalIdentityId actor);
  current ← getAccountApp (accountId account) app;
  match current with
  | None => fail "APP_MEMBERSHIP_REQUIRED"
  | Some current =>
      let row := app_row current in
      _ ← fail_if (negb (ap_revision row =? expected)) "REVISION_MISMATCH";
      _ ← fail_if (patch_invalid patch) "INVALID_REQUEST";
      let row' := patched_row patch row in
      if bool_decide (row' = row) then mret (ap_revision row)
      else
        eventId ← generateEventId;
        t ← now;
        result ← commitPatchAccountApp (mkActor (accountId account) (actorExternalIdentityId actor)) caller
                   (mkApp (app_appId current) (next_revision row')) expected
                   (if bool_decide (ap_status row' = ap_status row) then "stack.patched"
                    else if bool_decide (ap_status row' = AppSuspended) then "app.suspended"
                    else "app.restored") eventId t;
        _ ← fail_if (bool_decide (result = "actor-not-member") || bool_decide (result = "not-found"))
              "APP_MEMBERSHIP_REQUIRED";
        _ ← fail_if (bool_decide (result = "revision-mismatch")) "REVISION_MISMATCH";
        mret (ap_revision row + 1)
  end.

Definition key_invalid (key : option string) : bool :=
  match key with Some k => (strlen k =? 0) || (128 <? strlen k) | None => false end.

(** [#resolveAppIdempotency] and [#resolveInvitationIdempotency]. *)
Definition resolveAppIdempotency (r : AppIdempotencyRow) (payloadHash : string) : ControlAct App :=
  _ ← fail_if (negb (bool_decide (ax_payload_hash r = payloadHash))) "IDEMPOTENCY_CONFLICT";
  mret (ax_response r).
Definition resolveInvitationIdempotency (r : AppInvitationIdempotencyRow) (payloadHash : string)
    : ControlAct InvitationReceipt :=
  _ ← fail_if (negb (bool_decide (ix_payload_hash r = payloadHash))) "IDEMPOTENCY_CONFLICT";
  mret (ix_response r).

Definition createApp (actor : Actor) (caller : Caller) (displayName : string)
    (idempotencyKey : option string) : ControlAct App :=
  _ ← fail_if (bool_decide (validateDisplayName (JStr displayName) ≠ None)) "INVALID_REQUEST";
  _ ← fail_if (key_invalid idempotencyKey) "INVALID_REQUEST";
  account ← usableAccount (actorAccountId actor);
  _ ← requireActiveIdentity (accountId account) (actorExternalIdentityId actor);
  authorities ← listPlatformAuthorities (accountId account);
  _ ← fail_if (negb (includes_authority AppsCreate authorities)) "APP_CREATION_AUTHORITY_REQUIRED";
  t ← now;
  let payloadHash := sha256Hex (canonicalJson (JObj [("displayName", JStr displayName)])) in
  existing ← match idempotencyKey with
             | Some key => getAccountAppIdempotency (accountId account) key t
             | None => mret None
             end;
  match existing with
  | Some r => resolveAppIdempotency r payloadHash
  | None =>
      appId ← generateAppId;
      let app := mkApp appId (mkAppRow (trim displayName) EmptyString AppActive t 1) in
      eventId ← generateEventId;
      result ← commitCreateAccountApp (mkActor (accountId account) (actorExternalIdentityId actor)) caller app
                 ((λ key, (key, mkAppIdempotencyRow payloadHash app t
                                  (t + CAS_ADMIN_IDEMPOTENCY_RETENTION_MS))) <$> idempotencyKey) eventId;
      match result with
      | inr race => resolveAppIdempotency race payloadHash
      | inl word =>
          _ ← fail_if (bool_decide (word = "actor-forbidden")) "APP_CREATION_AUTHORITY_REQUIRED";
          mret app
      end
  end.

Definition removeAppMember (actor : Actor) (caller : Caller) (app target : string) : ControlAct unit :=
  account ← usableAccount (actorAccountId actor);
  eventId ← randomUUID;
  t ← now;
  result ← commitRemoveAppMembership (mkActor (accountId account) (actorExternalIdentityId actor)) caller
             app target eventId t;
  _ ← fail_if (bool_decide (result = "actor-not-member")) "APP_MEMBERSHIP_REQUIRED";
  fail_if (bool_decide (result = "last-member")) "LAST_MEMBER".

Definition recordSessionAudit (actor : Actor) (caller : Caller) (action : string) : ControlAct unit :=
  account ← usableAccount (actorAccountId actor);
  _ ← requireActiveIdentity (accountId account) (actorExternalIdentityId actor);
  eventId ← generateEventId;
  t ← now;
  result ← appendAccountSessionAudit (mkActor (accountId account) (actorExternalIdentityId actor)) caller
             action eventId t;
  fail_if (negb (bool_decide (result = "recorded"))) "ACCOUNT_NOT_FOUND".

Definition recordAppGcRequest (actor : Actor) (caller : Caller) (app : string) : ControlAct unit :=
  account ← usableAccount (actorAccountId actor);
  _ ← requireActiveIdentity (accountId account) (actorExternalIdentityId actor);
  eventId ← generateEventId;
  t ← now;
  result ← appendAccountAppGcAudit (mkActor (accountId account) (actorExternalIdentityId actor)) caller
             app eventId t;
  fail_if (negb (bool_decide (result = "recorded"))) "APP_MEMBERSHIP_REQUIRED".

(** * Invitations *)

(** [#transitionAppInvitation]. *)
Definition transitionAppInvitation (actor : Actor) (caller : Caller) (app : string)
    (invitation : AppMemberInvitation) (revoke : bool) (t : Z) : ControlAct string :=
  eventId ← generateEventId;
  commitAccountAppInvitationTransition actor caller app (inv_invitationId invitation)
    (inv_revision invitation) revoke eventId t.

(** The loop of [listAppMemberInvitations] that expires what is over, a hundred at a
    time; the actor is the one the request names. *)
Fixpoint expire_invitations (fuel : nat) (actor : Actor) (caller : Caller) (app : string) (t : Z)
    (after : string) : ControlAct unit :=
  match fuel with
  | O => throw (Error "out of fuel")
  | S fuel =>
      expired ← listAppMemberInvitations app (Some Pending) (Some t) after 100;
      _ ← for_each expired (λ i, _ ← transitionAppInvitation actor caller app i false t; mret tt);
      if Z.of_nat (length expired) <? 100 then mret tt
      else expire_invitations fuel actor caller app t
             (match last expired with Some i => inv_invitationId i | None => after end)
  end.

(** The cursor of a list of invitations is bound to the App and the status. *)
Definition status_text (s : InvitationStatus) : string :=
  match s with Pending => "pending" | Accepted => "accepted" | Expired => "expired" | Revoked => "revoked" end.
Definition status_json (s : option InvitationStatus) : Json :=
  match s with Some s => JStr (status_text s) | None => JNull end.
Definition parse_status (s : string) : option InvitationStatus :=
  List.find (λ x, bool_decide (status_text x = s)) [Pending; Accepted; Expired; Revoked].
Definition invitation_cursor (app : string) (status : option InvitationStatus) (i : string) : string :=
  of_chars (JSON_stringify (JArr [JStr app; status_json status; JStr i])).
Definition read_invitation_cursor (app : string) (status : option InvitationStatus) (last : string)
    : ControlAct string :=
  match JSON_parse (chars last) with
  | Some (JArr [JStr app'; s; JStr i]) =>
      if bool_decide (app' = app)
         && match s, status with
            | JNull, None => true
            | JStr s, Some st => bool_decide (s = status_text st)
            | _, _ => false
            end
         && negb (strlen i =? 0)
      then mret i else fail "INVALID_CURSOR"
  | _ => fail "INVALID_CURSOR"
  end.

(** [fuel] bounds the pages of expired invitations. *)
Definition listAppMemberInvitations_service (fuel : nat) (actor : Actor) (caller : Caller) (app : string)
    (status : option string) (limit : option Json) (cursor : option string)
    : ControlAct (list AppMemberInvitation * option string) :=
  _ ← requireMember actor app;
  status ← match status with
           | None => mret None
           | Some s => match parse_status s with
                       | Some st => mret (Some st)
                       | None => fail "INVALID_REQUEST"
                       end
           end;
  limit ← page_limit limit 1000;
  cursor ← page_cursor cursor;
  after ← match cursor with
          | Some c => read_invitation_cursor app status (cu_last c)
          | None => mret EmptyString
          end;
  t ← now;
  _ ← expire_invitations fuel actor caller app t EmptyString;
  snapshot ← page_snapshot cursor;
  rows ← listAppMemberInvitations app status None after (limit + 1);
  _ ← same_snapshot snapshot;
  mret (page_of limit snapshot (λ i, invitation_cursor app status (inv_invitationId i)) rows).

Definition createAppMemberInvitation (actor : Actor) (caller : Caller) (app : string)
    (emailConstraint : option Json) (idempotencyKey : option string) : ControlAct InvitationReceipt :=
  _ ← fail_if (bool_decide (validateEmailConstraint emailConstraint ≠ None)) "INVALID_REQUEST";
  _ ← fail_if (key_invalid idempotencyKey) "INVALID_REQUEST";
  actor ← requireMember actor app;
  let email := normalizeEmailConstraint emailConstraint in
  t ← now;
  let payloadHash := sha256Hex (canonicalJson (JObj [("emailConstraint", null_or_string email)])) in
  existing ← match idempotencyKey with
             | Some key => getAccountAppInvitationIdempotency (actorAccountId actor) app key t
             | None => mret None
             end;
  match existing with
  | Some r => resolveInvitationIdempotency r payloadHash
  | None =>
      token ← generateInvitationToken;
      invitationId ← generateInvitationId;
      let invitation := mkAppInvitationRow app Pending email (sha256Hex token) (t + INVITATION_TTL_MS) t 1 in
      let response := mkReceipt invitationId ("/admin/invitations/" +:+ token) (t + INVITATION_TTL_MS) 1 in
      eventId ← generateEventId;
      result ← commitCreateAccountAppInvitation actor caller invitationId invitation
                 ((λ key, (key, mkAppInvitationIdempotencyRow payloadHash response t
                                  (t + CAS_ADMIN_IDEMPOTENCY_RETENTION_MS))) <$> idempotencyKey) eventId t;
      match result with
      | inr race => resolveInvitationIdempotency race payloadHash
      | inl word =>
          _ ← fail_if (bool_decide (word = "actor-not-member")) "APP_MEMBERSHIP_REQUIRED";
          mret response
      end
  end.

(** The invitation of a token, while it is pending and not over. *)
Definition resolveAppMemberInvitation (token : string) : ControlAct AccountAppInvitationRecord :=
  _ ← fail_if (bool_decide (validateInvitationToken (JStr token) ≠ None)) "NOT_FOUND";
  invitation ← getAccountAppInvitationByTokenHash (sha256Hex token);
  t ← now;
  match invitation with
  | Some i =>
      if bool_decide (inv_status (air_invitation i) = Pending) && (t <? inv_expiresAt (air_invitation i))
      then mret i else fail "NOT_FOUND"
  | None => fail "NOT_FOUND"
  end.

(** The address and the challenge an accepted piece of evidence gives. *)
Definition evidence_email (e : VerifiedEmailEvidence) : PrimaryVerifiedEmail :=
  mkPrimaryEmail (ve_normalizedEmail e) (ve_source e) (ve_verifiedAt e).
Definition evidence_challenge (e : VerifiedEmailEvidence) : option (string * string) :=
  if bool_decide (ve_source e = UnicasEmailChallenge)
  then (λ c, (c, ve_authenticationEventId e)) <$> ve_challengeId e else None.

Definition acceptAppMemberInvitation (actor : Actor) (caller : Caller) (token : string)
    (evidence : list VerifiedEmailEvidence) : ControlAct string :=
  _ ← fail_if (bool_decide (validateInvitationToken (JStr token) ≠ None)) "INVALID_REQUEST";
  account ← usableAccount (actorAccountId actor);
  _ ← requireActiveIdentity (accountId account) (actorExternalIdentityId actor);
  invitation ← getAccountAppInvitationByTokenHash (sha256Hex token);
  t ← now;
  match invitation with
  | None => fail "NOT_FOUND"
  | Some i =>
      _ ← fail_if (negb (bool_decide (inv_status (air_invitation i) = Pending)
                         && (t <? inv_expiresAt (air_invitation i)))) "NOT_FOUND";
      matched ← match inv_emailConstraint (air_invitation i) with
                | None => mret None
                | Some email =>
                    match requireInvitationEmailEvidence evidence email t with
                    | Ok e => mret (Some e)
                    | Throw _ => fail "NOT_FOUND"
                    end
                end;
      eventId ← generateEventId;
      result ← commitAcceptAccountAppInvitation
                 (mkActor (accountId account) (actorExternalIdentityId actor)) caller i
                 (evidence_email <$> matched) (matched ≫= evidence_challenge) eventId t;
      _ ← fail_if (bool_decide (result = "account-unavailable")) "ACCOUNT_NOT_FOUND";
      _ ← fail_if (bool_decide (result = "invitation-unavailable")) "NOT_FOUND";
      mret (inv_appId (air_invitation i))
  end.

Definition revokeAppMemberInvitation (actor : Actor) (caller : Caller) (app invitationId : string)
    (ifMatch : option string) : ControlAct Z :=
  expected ← precondition ifMatch;
  _ ← requireMember actor app;
  invitation ← getAppMemberInvitation app invitationId;
  match invitation with
  | None => fail "NOT_FOUND"
  | Some i =>
      _ ← fail_if (negb (inv_revision i =? expected)) "REVISION_MISMATCH";
      if bool_decide (inv_status i = Revoked) then mret (inv_revision i)
      else
        t ← now;
        if bool_decide (inv_status i ≠ Pending) || (inv_expiresAt i <=? t) then
          _ ← (if bool_decide (inv_status i = Pending)
               then _ ← transitionAppInvitation actor caller app i false t; mret tt
               else mret tt);
          fail "INVITATION_NOT_PENDING"
        else
          result ← transitionAppInvitation actor caller app i true t;
          _ ← fail_if (negb (bool_decide (result = "updated"))) "REVISION_MISMATCH";
          mret (inv_revision i + 1)
  end.

(** * Platform *)

(** [#requirePlatformAdmin] and [requirePlatformAuthority]. *)
Definition requireAuthority (a : string) (au : PlatformAuthority) : ControlAct AccountRecord :=
  account ← usableAccount a;
  authorities ← listPlatformAuthorities (accountId account);
  _ ← fail_if (negb (includes_authority au authorities))
        (match au with
         | PlatformAdmin => "PLATFORM_ADMIN_REQUIRED"
         | AppsCreate => "APP_CREATION_AUTHORITY_REQUIRED"
         end);
  mret account.
Definition requirePlatformAdmin (a : string) : ControlAct AccountRecord := requireAuthority a PlatformAdmin.
Definition requirePlatformAuthority (a : string) (au : PlatformAuthority) : ControlAct unit :=
  _ ← requireAuthority a au; mret tt.

Definition mapPlatformMutationResult (word : string) : ControlAct unit :=
  _ ← fail_if (bool_decide (word = "actor-forbidden")) "PLATFORM_ADMIN_REQUIRED";
  _ ← fail_if (bool_decide (word = "target-not-found")) "ACCOUNT_NOT_FOUND";
  _ ← fail_if (bool_decide (word = "last-admin")) "LAST_PLATFORM_ADMIN";
  fail_if (bool_decide (word = "self-block")) "SELF_BLOCK_FORBIDDEN".

Definition setPlatformAuthority (actor : Actor) (target : string) (au : PlatformAuthority) (grant : bool)
    (request : option string) : ControlAct unit :=
  account ← requirePlatformAdmin (actorAccountId actor);
  eventId ← randomUUID;
  t ← now;
  word ← commitPlatformAuthority (mkActor (accountId account) (actorExternalIdentityId actor)) target au
           grant eventId request t;
  mapPlatformMutationResult word.
Definition setPlatformBlocked (actor : Actor) (target : string) (blocked : bool) (request : option string)
    : ControlAct unit :=
  account ← requirePlatformAdmin (actorAccountId actor);
  eventId ← randomUUID;
  t ← now;
  word ← commitPlatformBlock (mkActor (accountId account) (actorExternalIdentityId actor)) target blocked
           eventId request t;
  mapPlatformMutationResult word.

Definition getPlatformAccount_service (actorId target : string)
    : ControlAct (PlatformAccountListItem * list AppMembership) :=
  _ ← requirePlatformAdmin actorId;
  view ← getPlatformAccount target;
  match view with
  | None => fail "ACCOUNT_NOT_FOUND"
  | Some v =>
      item ← lift (projectPlatformAccount v);
      apps ← listAccountMembershipAppIds (accountId (pv_account v));
      memberships ← lift (map_result (λ app, summary ← projectAccountSummary (pv_account v) (pv_profile v);
                                             Ok (mkMembership app summary)) apps);
      mret (item, memberships)
  end.

(** * Identities *)

Definition createForExternalIdentity (provider : ProviderKind) (issuer subject : string)
    (displayName avatarUrl : option string) : ControlAct AccountResolution :=
  t ← now;
  a ← generateAccountId;
  i ← generateExternalIdentityId;
  let source o := match o with Some s => if strlen s =? 0 then None else Some i | None => None end in
  result ← createAccountWithIdentity a (mkAccountRow None 1 None None None t t)
             (mkProfileRow displayName avatarUrl (source displayName) (source avatarUrl) t)
             (mkIdentityRecord i (mkIdentityRow a provider issuer subject t (Some t) None None
                                    displayName avatarUrl));
  _ ← fail_if (bool_decide (result = "identity-conflict")) "IDENTITY_LINK_CONFLICT";
  resolution ← resolveExternalIdentity issuer subject;
  match resolution with Some r => mret r | None => fail "IDENTITY_NOT_FOUND" end.

Definition linkExternalIdentity (a currentIdentity : string) (version currentAuthenticatedAt : Z)
    (target : AuthenticatedProviderResult) : ControlAct AccountResolution :=
  _ ← requireFresh currentAuthenticatedAt;
  _ ← requireFresh (ap_authenticatedAt target);
  current ← authorizeCredential a currentIdentity version;
  existing ← getActiveIdentity (ap_issuer target) (ap_subject target);
  match existing with
  | Some e =>
      if bool_decide (id_account_id (ext_row e) ≠ a) then fail "IDENTITY_LINK_CONFLICT" else mret current
  | None =>
      i ← generateExternalIdentityId;
      linkedAt ← now;
      t ← now;
      result ← commitLinkIdentity a version
                 (mkIdentityRecord i (mkIdentityRow a (ap_provider target) (ap_issuer target)
                    (ap_subject target) linkedAt (Some (ap_authenticatedAt target)) None
                    (ap_accountHint target) (ap_displayName target) (ap_avatarUrl target)))
                 (ap_displayName target) (ap_avatarUrl target) t;
      _ ← fail_if (bool_decide (result = "identity-conflict")) "IDENTITY_LINK_CONFLICT";
      _ ← fail_if (bool_decide (result = "version-mismatch")) "CREDENTIAL_VERSION_MISMATCH";
      _ ← fail_if (bool_decide (result = "blocked")) "ACCOUNT_BLOCKED";
      let identity := ext_row (res_authenticatedIdentity current) in
      resolution ← resolveExternalIdentity (id_issuer identity) (id_subject identity);
      match resolution with Some r => mret r | None => fail "IDENTITY_NOT_FOUND" end
  end.

Definition unlinkExternalIdentity (a : string) (version : Z) (target remainingIdentity : string)
    (remainingAuthenticatedAt : Z) : ControlAct AccountResolution :=
  _ ← requireFresh remainingAuthenticatedAt;
  remaining ← requireActiveIdentity a remainingIdentity;
  t ← now;
  result ← commitUnlinkIdentity a version target remainingIdentity t;
  _ ← fail_if (bool_decide (result = "final-identity")) "FINAL_IDENTITY_CANNOT_BE_UNLINKED";
  _ ← fail_if (bool_decide (result = "version-mismatch")) "CREDENTIAL_VERSION_MISMATCH";
  _ ← fail_if (bool_decide (result = "blocked")) "ACCOUNT_BLOCKED";
  _ ← fail_if (bool_decide (result = "not-found")) "IDENTITY_NOT_FOUND";
  resolution ← resolveExternalIdentity (id_issuer (ext_row remaining)) (id_subject (ext_row remaining));
  match resolution with Some r => mret r | None => fail "IDENTITY_NOT_FOUND" end.

(** * Queries

    A query is JSON; its schema is strict. [Number(v)] is taken of a limit before. *)

Definition Number_of (j : Json) : Json :=
  match j with
  | JNull => JInt 0
  | JBool b => JInt (if b then 1 else 0)
  | JInt _ | JFrac _ => j
  | JStr s => Number_of_text s
  | JArr _ | JObj _ => Number_of_text (json_String j)
  end.
Definition normalizeAuditQuery (input : Json) : Json :=
  match input with
  | JObj members =>
      JObj ((λ m, if bool_decide (fst m ∈ ["limit"; "createdAfter"]) then (fst m, Number_of (snd m)) else m)
              <$> members)
  | _ => input
  end.

(** The members of a strict object, none but those named. *)
Definition strict_members (names : list string) (j : Json) : option (list (string * Json)) :=
  match j with
  | JObj members => if forallb (λ m, bool_decide (fst m ∈ names)) members then Some members else None
  | _ => None
  end.
(** An optional member: absent, or what [read] accepts. *)
Definition optional_member {A} (name : string) (read : Json → option A) (members : list (string * Json))
    : option (option A) :=
  match find_member name members with
  | None => Some None
  | Some j => Some <$> read j
  end.
Definition read_string (minimum maximum : Z) (j : Json) : option string :=
  match j with
  | JStr s => if (strlen s <? minimum) || (maximum <? strlen s) then None else Some s
  | _ => None
  end.
Definition read_int (minimum maximum : Z) (j : Json) : option Z :=
  match j with
  | JInt n => if (n <? minimum) || (maximum <? n) then None else Some n
  | _ => None
  end.
Definition any_length : Z := 2 ^ 53.
(** The pattern [^acct_[A-Za-z0-9_-]{22}$]. *)
Definition read_account_id (j : Json) : option string :=
  match j with
  | JStr s => if startsWith s "acct_" && (strlen s =? 27) && all_chars is_token_char (str_drop 5 s)
              then Some s else None
  | _ => None
  end.
Definition read_authority (j : Json) : option (option PlatformAuthority) :=
  match j with
  | JStr s => if bool_decide (s = "platform.admin") then Some (Some PlatformAdmin)
              else if bool_decide (s = "apps.create") then Some (Some AppsCreate)
              else if bool_decide (s = "none") then Some None else None
  | _ => None
  end.
Definition read_access (j : Json) : option EffectiveAccess :=
  match j with
  | JStr s => if bool_decide (s = "active") then Some AccessActive
              else if bool_decide (s = "blocked") then Some AccessBlocked
              else if bool_decide (s = "no_access") then Some AccessNone else None
  | _ => None
  end.
Definition audit_actions : list string :=
  ["platform_invitation.created"; "platform_invitation.revoked"; "platform_invitation.accepted";
   "platform_access.authority_changed"; "platform_access.blocked"; "platform_access.restored";
   "platform_access.change_denied"; "app.create_denied"].
Definition read_action (j : Json) : option string :=
  match j with JStr s => if bool_decide (s ∈ audit_actions) then Some s else None | _ => None end.

(** The filters of a query, as [JSON.stringify] gives them: the members that are
    there, in the order of the schema. *)
Definition filter_json (names : list string) (members : list (string * Json)) : Json :=
  JObj (omap (λ name, (λ j, (name, j)) <$> find_member name members) names).

(** [decodeAuditCursor] and [encodeAuditCursor]. *)
Definition encodeAuditCursor (snapshot : Z) (filters : Json) (createdAt : Z) (eventId : string) : string :=
  encodeControlListCursor (mkCursor snapshot (of_chars (JSON_stringify
    (JObj [("filters", filters); ("createdAt", JInt createdAt); ("eventId", JStr eventId)])))).
Definition decodeAuditCursor (encoded : string) (snapshot : Z) (filters : Json)
    : option (Z * string) :=
  cursor ← decodeControlListCursor encoded;
  if negb (cu_snapshot cursor =? snapshot) then None
  else
    parsed ← JSON_parse (chars (cu_last cursor));
    match json_member "filters" parsed, json_member "createdAt" parsed, json_member "eventId" parsed with
    | Some f, Some (JInt t), Some (JStr e) =>
        if bool_decide (JSON_stringify f = JSON_stringify filters) && isSafeInteger t && (0 <=? t)
           && negb (strlen e =? 0)
        then Some (t, e) else None
    | _, _, _ => None
    end.
Definition audit_position (cursor : option string) (snapshot : Z) (filters : Json)
    : ControlAct (option (Z * string)) :=
  match cursor with
  | None => mret None
  | Some text => match decodeAuditCursor text snapshot filters with
                 | Some p => mret (Some p)
                 | None => fail "INVALID_CURSOR"
                 end
  end.
(** The page of audit records, projected, with the cursor of the last. *)
Definition audit_page {R E} (limit snapshot : Z) (filters : Json) (position : R → Z * string)
    (project : R → result exn E) (rows : list R) : ControlAct (list E * option string) :=
  let page := limited limit rows in
  items ← lift (map_result project page);
  mret (items,
        if limit <? Z.of_nat (length rows)
        then (λ r, encodeAuditCursor snapshot filters (fst (position r)) (snd (position r))) <$> last page
        else None).

Definition listAppAuditEvents (actorId app : string) (query : option Json)
    : ControlAct (list AppControlAuditEvent * option string) :=
  actor ← usableAccount actorId;
  member ← hasAppMembership (accountId actor) (Some app);
  _ ← fail_if (negb member) "APP_MEMBERSHIP_REQUIRED";
  let parsed :=
    members ← strict_members ["limit"; "cursor"; "after"; "actorAccountId"; "targetAccountId"]
                (normalizeAuditQuery (default (JObj []) query));
    limit ← optional_member "limit" (read_int 1 1000) members;
    cursor ← optional_member "cursor" (read_string 1 any_length) members;
    after ← optional_member "after" (read_string 0 any_length) members;
    actorF ← optional_member "actorAccountId" read_account_id members;
    targetF ← optional_member "targetAccountId" read_account_id members;
    if bool_decide (is_Some (after : option string)) && bool_decide (is_Some (cursor : option string))
    then None else Some (limit, cursor, after, actorF, targetF, members) in
  match parsed with
  | None => fail "INVALID_REQUEST"
  | Some (limit, cursor, after, actorF, targetF, members) =>
      let limit := default 50 limit in
      let filters := filter_json ["actorAccountId"; "targetAccountId"] members in
      snapshot ← readControlSnapshot;
      position ← match after with
                 | Some e =>
                     p ← getAppAuditEventPosition app e;
                     match p with Some p => mret p | None => fail "INVALID_REQUEST" end
                 | None =>
                     p ← audit_position cursor snapshot filters;
                     mret (default (0, EmptyString) p)
                 end;
      rows ← listAppAccountAuditEvents app actorF targetF position (limit + 1);
      _ ← same_snapshot snapshot;
      audit_page limit snapshot filters (λ r, (ca_created_at (apa_row r), apa_eventId r))
        projectAppAuditEvent rows
  end.

Definition listPlatformAuditEvents (actorId : string) (query : option Json)
    : ControlAct (list PlatformAccountAuditEvent * option string) :=
  _ ← requirePlatformAdmin actorId;
  let parsed :=
    members ← strict_members ["action"; "actorAccountId"; "targetAccountId"; "createdAfter"; "limit"; "cursor"]
                (normalizeAuditQuery (default (JObj []) query));
    action ← optional_member "action" read_action members;
    actorF ← optional_member "actorAccountId" read_account_id members;
    targetF ← optional_member "targetAccountId" read_account_id members;
    createdAfter ← optional_member "createdAfter" (read_int 0 MAX_SAFE_INTEGER) members;
    limit ← optional_member "limit" (read_int 1 1000) members;
    cursor ← optional_member "cursor" (read_string 1 any_length) members;
    Some (action, actorF, targetF, createdAfter, limit, cursor, members) in
  match parsed with
  | None => fail "INVALID_REQUEST"
  | Some (action, actorF, targetF, createdAfter, limit, cursor, members) =>
      let limit := default 50 limit in
      let filters := filter_json ["action"; "actorAccountId"; "targetAccountId"; "createdAfter"] members in
      snapshot ← readControlSnapshot;
      before ← audit_position cursor snapshot filters;
      rows ← listPlatformAccountAuditEvents action actorF targetF createdAfter before (limit + 1);
      _ ← same_snapshot snapshot;
      audit_page limit snapshot filters (λ r, (pa_created_at (paa_row r), paa_eventId r))
        projectPlatformAuditEvent rows
  end.

(** The cursor of [listPlatformAccounts] holds its filters and the last account. *)
Definition read_platform_cursor (filters : Json) (last : string) : ControlAct string :=
  match JSON_parse (chars last) with
  | Some (JArr (f :: JStr a :: _)) =>
      if bool_decide (JSON_stringify f = JSON_stringify filters) then mret a else fail "INVALID_CURSOR"
  | _ => fail "INVALID_CURSOR"
  end.
Definition listPlatformAccounts_service (actorId : string) (query : option Json)
    : ControlAct (list PlatformAccountListItem * option string) :=
  _ ← requirePlatformAdmin actorId;
  let parsed :=
    members ← strict_members ["query"; "effectiveAccess"; "authority"; "limit"; "cursor"]
                (default (JObj []) query);
    text ← optional_member "query" (read_string 0 254) members;
    access ← optional_member "effectiveAccess" read_access members;
    authority ← optional_member "authority" read_authority members;
    limit ← optional_member "limit" (read_int 1 1000) members;
    cursor ← optional_member "cursor" (read_string 1 any_length) members;
    Some (text, access, authority, limit, cursor, members) in
  match parsed with
  | None => fail "INVALID_REQUEST"
  | Some (text, access, authority, limit, cursor, members) =>
      let limit := default 50 limit in
      let filters := filter_json ["query"; "effectiveAccess"; "authority"] members in
      snapshot ← readControlSnapshot;
      after ← match cursor with
              | None => mret EmptyString
              | Some text =>
                  match decodeControlListCursor text with
                  | Some c => if cu_snapshot c =? snapshot then read_platform_cursor filters (cu_last c)
                              else fail "INVALID_CURSOR"
                  | None => fail "INVALID_CURSOR"
                  end
              end;
      let needle := (λ s, toLowerCase (trim s)) <$> (text : option string) in
      rows ← listPlatformAccounts after (limit + 1)
               (match needle with Some s => if strlen s =? 0 then None else Some s | None => None end)
               access authority;
      _ ← same_snapshot snapshot;
      let '(page, next) := page_of limit snapshot
        (λ r, of_chars (JSON_stringify (JArr [filters; JStr (accountId (pv_account r))]))) rows in
      items ← lift (map_result projectPlatformAccount page);
      mret (items, next)
  end.

(** * OAuth issuers *)

Record OAuthDiscoveryResult := mkDiscovery {
  od_metadata : IssuerMetadata;
  od_metadataDigest : string;
  od_jwksDigest : string;
  od_keys : list DiscoveredOAuthJwk
}.
(** The options of the service: the discovery port and the origin it answers for. *)
Record AccountServiceOptions := mkAccountOptions {
  opt_oauthDiscovery : option (string → ControlAct OAuthDiscoveryResult);
  opt_oauthResourcePublicOrigin : option string;
  opt_oauthInspectionTtlMs : option Z
}.

Definition getAppOAuthIssuer_service (actorId app : string) (isOptional : bool)
    : ControlAct (option AccountOAuthIssuerRecord) :=
  _ ← requireAppMembership actorId app;
  issuer ← getAppOAuthIssuer app;
  _ ← fail_if (bool_decide (issuer = None) && negb isOptional) "NOT_FOUND";
  mret issuer.

Record AppOAuthIssuerInspection := mkInspectionView {
  iv_inspectionId : string;
  iv_metadataUrl : string;
  iv_jwksUri : string;
  iv_challenge : string;
  iv_expiresAt : Z;
  iv_keys : list (string * KeyAlgorithm)
}.

Section issuers.
Context {Hurl : UrlParser} {Hjws : CompactJws} (options : AccountServiceOptions).

Definition inspectAppOAuthIssuer (actor : Actor) (caller : Caller) (app issuer : string)
    : ControlAct AppOAuthIssuerInspection :=
  actor ← requireMember actor app;
  match opt_oauthDiscovery options, opt_oauthResourcePublicOrigin options with
  | Some discover, Some origin =>
      _ ← fail_if (strlen origin =? 0) "SERVICE_UNAVAILABLE";
      issuer ← match canonicalizeOAuthIssuer issuer with
               | Ok issuer => mret issuer
               | Throw _ => fail "INVALID_REQUEST"
               end;
      elsewhere ← hasAppOAuthIssuerElsewhere issuer app;
      _ ← fail_if elsewhere "ISSUER_CONFLICT";
      discovered ← try_catch (discover issuer) (λ e,
        fail (match e with TypeError _ => "INVALID_REQUEST" | _ => "SERVICE_UNAVAILABLE" end));
      t ← now;
      inspectionId ← generateOAuthInspectionId;
      let expiresAt := t + default OAUTH_ISSUER_INSPECTION_TTL_MS (opt_oauthInspectionTtlMs options) in
      audience ← lift (casOAuthResource origin);
      nonce ← generateNonce;
      let challenge := buildOAuthIssuerInspectionChallenge
        (mkChallengeInput nonce inspectionId app issuer audience (od_metadataDigest discovered)
           (od_jwksDigest discovered) OAUTH_CAPABILITY_MAX_LIFETIME_SECONDS expiresAt) in
      let inspection := mkInspectionRow app (od_metadata discovered) audience (od_metadataDigest discovered)
        (od_jwksDigest discovered) (sha256Hex challenge) OAUTH_CAPABILITY_MAX_LIFETIME_SECONDS t expiresAt
        None 1 in
      eventId ← generateEventId;
      result ← commitInspectAccountOAuthIssuer actor caller (mkInspectionRecord inspectionId inspection)
                 (od_keys discovered) eventId t;
      _ ← fail_if (bool_decide (result = "actor-not-member")) "APP_MEMBERSHIP_REQUIRED";
      _ ← fail_if (bool_decide (result = "issuer-conflict")) "ISSUER_CONFLICT";
      mret (mkInspectionView inspectionId (im_metadata_url (od_metadata discovered))
              (im_jwks_uri (od_metadata discovered)) challenge expiresAt
              ((λ k, (dk_kid k, jk_algorithm (dk_row k))) <$> od_keys discovered))
  | _, _ => fail "SERVICE_UNAVAILABLE"
  end.

(** The precondition of an activation: the revision to replace, [None] for the first. *)
Definition issuer_precondition (ifMatch ifNoneMatch : option string) : ControlAct (option string) :=
  match ifMatch, ifNoneMatch with
  | None, None => fail "PRECONDITION_REQUIRED"
  | Some _, Some _ => fail "INVALID_REQUEST"
  | Some tag, None => mret (Some tag)
  | None, Some star => if bool_decide (star = "*") then mret None else fail "INVALID_REQUEST"
  end.

(** The challenge a proof answers is the one of the inspection. *)
Definition challenge_matches (challenge : string) (i : AccountOAuthIssuerInspectionRecord) : bool :=
  let row := insp_row i in
  match parseOAuthIssuerInspectionChallenge challenge with
  | Some c =>
      bool_decide (sha256Hex challenge = in_challenge_hash row)
      && bool_decide (oc_inspectionId c = insp_inspectionId i) && bool_decide (oc_appId c = in_app_id row)
      && bool_decide (oc_issuer c = im_issuer (in_metadata row)) && bool_decide (oc_audience c = in_audience row)
      && bool_decide (oc_metadataDigest c = in_metadata_digest row)
      && bool_decide (oc_jwksDigest c = in_jwks_digest row)
      && (oc_capabilityMaxLifetimeSeconds c =? in_capability_max_lifetime_seconds row)
      && (oc_expiresAt c =? in_expires_at row)
  | None => false
  end.

(** The proof is a signature of the challenge by one of the discovered keys. *)
Definition proof_verifies (challenge proof : string) (keys : list DiscoveredOAuthJwk) : bool :=
  match extractJwsProtectedHeader proof with
  | Some (kid, alg) =>
      match List.find (λ k, bool_decide (dk_kid k = kid)) keys with
      | Some k => bool_decide (alg = algorithm_text (jk_algorithm (dk_row k)))
                  && verifyCompactJwsProof challenge (jk_algorithm (dk_row k)) (jk_public_jwk (dk_row k)) proof
      | None => false
      end
  | None => false
  end.

Definition activateAppOAuthIssuer (actor : Actor) (caller : Caller)
    (app inspectionId activationProof : string) (ifMatch ifNoneMatch : option string) : ControlAct Z :=
  actor ← requireMember actor app;
  tag ← issuer_precondition ifMatch ifNoneMatch;
  current ← getAppOAuthIssuer app;
  expected ← match tag with
             | None =>
                 _ ← fail_if (bool_decide (current ≠ None)) "REVISION_MISMATCH"; mret None
             | Some tag =>
                 let expected := parseCasAdminETag tag in
                 _ ← fail_if (negb (bool_decide (is_Some expected)
                              && bool_decide (((λ c, is_revision (iss_row c)) <$> current) = expected)))
                       "REVISION_MISMATCH";
                 mret expected
             end;
  inspection ← getAppOAuthIssuerInspection inspectionId;
  t ← now;
  match inspection with
  | None => fail "INVALID_REQUEST"
  | Some i =>
      let row := insp_row i in
      _ ← fail_if (negb (bool_decide (in_app_id row = app)) || bool_decide (in_used_at row ≠ None)
                   || (in_expires_at row <=? t)) "INVALID_REQUEST";
      match extractJwsPayload activationProof with
      | None => fail "INVALID_REQUEST"
      | Some challenge =>
          _ ← fail_if ((strlen challenge =? 0) || negb (challenge_matches challenge i)) "INVALID_REQUEST";
          keys ← listAppOAuthIssuerInspectionKeys (insp_inspectionId i);
          _ ← fail_if (negb (proof_verifies challenge activationProof keys)) "INVALID_REQUEST";
          elsewhere ← hasAppOAuthIssuerElsewhere (im_issuer (in_metadata row)) app;
          _ ← fail_if elsewhere "ISSUER_CONFLICT";
          let revision := default 0 ((λ c, is_revision (iss_row c)) <$> current) + 1 in
          eventId ← generateEventId;
          result ← commitActivateAccountOAuthIssuer actor caller app inspectionId expected
                     (mkIssuerRow "external" (in_metadata row) (in_audience row) IssuerActive (Some t) (Some t)
                        None (in_jwks_digest row) (in_capability_max_lifetime_seconds row) revision)
                     eventId t;
          _ ← fail_if (bool_decide (result = "actor-not-member")) "APP_MEMBERSHIP_REQUIRED";
          _ ← fail_if (bool_decide (result = "unavailable")) "INVALID_REQUEST";
          _ ← fail_if (bool_decide (result = "revision-mismatch")) "REVISION_MISMATCH";
          _ ← fail_if (bool_decide (result = "issuer-conflict")) "ISSUER_CONFLICT";
          mret revision
      end
  end.
End issuers.
End account.
