(* ===== verification/PlatformInvitations.v ===== *)
(** Invitations to the platform: [PlatformInvitationService] of
    [packages/service/src/platform-invitations.ts] over [D1PlatformInvitationRepository]
    of [packages/service-cloudflare/src/platform-invitation-repository.ts]. *)
From Stdlib Require Import Ascii.
From stdpp Require Import sorting.
From S2P Require Import Prelude Js JsString JsonText MapSum Errors Codec World ControlStore.
From S2P Require Import AccountBatches InvitationBatches ControlWorld ControlValidation.
From S2P Require Import AccountRepo Account.

Definition DEFAULT_INVITATION_TTL_MS : Z := 24 * 60 * 60 * 1000.

(** * The repository *)

(** [CASE WHEN status = 'pending' AND expires_at <= ? THEN 'expired' ELSE status END]. *)
Definition projected_status (r : PlatformInvitationRow) (at_ : Z) : InvitationStatus :=
  if bool_decide (pi_status r = Pending) && (pi_expires_at r <=? at_) then Expired else pi_status r.
Definition invitationFromRow (i : string) (r : PlatformInvitationRow) (at_ : Z) : StoredPlatformInvitation :=
  mkStoredInvitation i (pi_email_constraint r)
    ((if pi_platform_admin r then [PlatformAdmin] else []) ++ (if pi_apps_create r then [AppsCreate] else []))
    (projected_status r at_) (pi_token_hash r) (pi_expires_at r) (pi_created_at r)
    (pi_created_by_account_id r) (pi_revision r).

Definition getInvitation (i : string) (at_ : Z) : ControlAct (option StoredPlatformInvitation) :=
  control_read (λ d, (λ r, invitationFromRow i r at_) <$> cas_platform_invitations d !! i).
Definition getInvitationByTokenHash (tokenHash : string) (at_ : Z)
    : ControlAct (option StoredPlatformInvitation) :=
  control_read (λ d, match select_rows (λ _ r, bool_decide (pi_token_hash r = tokenHash))
                             (cas_platform_invitations d) with
                     | (i, r) :: _ => Some (invitationFromRow i r at_)
                     | [] => None
                     end).
Definition platform_invitation_rows (d : ControlDb) (after : string) (query : option string)
    (status : option InvitationStatus) (at_ : Z) : list StoredPlatformInvitation :=
  (λ e, invitationFromRow (fst e) (snd e) at_) <$>
    select_rows (λ i r, str_ltb after i
        && match query with Some q => includes (pi_email_constraint r) q | None => true end
        && match status with Some s => bool_decide (projected_status r at_ = s) | None => true end)
      (cas_platform_invitations d).
Definition listInvitations (after : string) (limit : Z) (query : option string)
    (status : option InvitationStatus) (at_ : Z) : ControlAct (list StoredPlatformInvitation) :=
  control_read (λ d, limited limit (platform_invitation_rows d after query status at_)).
Definition getInvitationIdempotency (a key : string) (at_ : Z)
    : ControlAct (option PlatformIdempotencyRow) :=
  control_read (λ d, r ← cas_platform_invitation_idempotency d !! (a, key);
    if at_ <? px_expires_at r then Some r else None).

Definition isPlatformAdmin (actor : Actor) : ControlAct bool :=
  control_read (λ d, invitation_admin d actor).
Definition isActiveIdentity (actor : Actor) : ControlAct bool :=
  control_read (λ d, invitation_identity d actor).

(** Only a failure of a guard is looked into: one of a unique key, such as that of the
    idempotency table, is thrown on. *)
Definition commitCreateInvitation (actor : Actor) (invitation : StoredPlatformInvitation) (key : string)
    (idempotency : PlatformIdempotencyRow) (eventId : string) (request : option string)
    : ControlAct string :=
  commit (command_stmts (CreatePlatformInvitation actor invitation key idempotency eventId request))
    "created" (λ e,
    if negb (isJsonFailure e) then throw e
    else
      admin ← isPlatformAdmin actor;
      if negb admin then mret "actor-forbidden"
      else
        existing ← getInvitationIdempotency (actorAccountId actor) key (si_createdAt invitation);
        match existing with Some _ => mret "idempotency-conflict" | None => throw e end).

Definition commitRevokeInvitation (actor : Actor) (i : string) (expected at_ : Z) (eventId : string)
    (request : option string) : ControlAct string :=
  commit (command_stmts (RevokePlatformInvitation actor i expected at_ eventId request)) "updated" (λ e,
    if negb (isJsonFailure e) then throw e
    else
      admin ← isPlatformAdmin actor;
      if negb admin then mret "actor-forbidden"
      else
        current ← getInvitation i at_;
        mret (match current with
              | None => "not-found"
              | Some c => if negb (si_revision c =? expected) then "revision-mismatch" else "not-pending"
              end)).

Definition commitAcceptInvitation (actor : Actor) (invitation : StoredPlatformInvitation)
    (tokenHash : string) (email : PrimaryVerifiedEmail) (challenge : option (string * string)) (at_ : Z)
    (eventId : string) (request : option string) : ControlAct string :=
  commit (command_stmts (AcceptPlatformInvitation actor invitation tokenHash email challenge at_ eventId
            request)) "accepted" (λ e,
    if negb (isJsonFailure e) then throw e
    else
      active ← isActiveIdentity actor;
      mret (if negb active then "account-unavailable" else "not-pending")).

(** * The service *)

(** [throw new PlatformAccessError(code, status)]. *)
Definition refuse {A} (code : string) (status : Z) : ControlAct A :=
  throw (EPlatformAccess (mkPlatformAccessError code status)).
Definition refuse_if (c : bool) (code : string) (status : Z) : ControlAct unit :=
  if c then refuse code status else mret tt.

Definition mapAccountError (e : exn) : exn :=
  let refused code status := EPlatformAccess (mkPlatformAccessError code status) in
  match e with
  | EAccountService code =>
      if bool_decide (code = "PLATFORM_ADMIN_REQUIRED") then refused code 403
      else if bool_decide (code ∈ ["ACCOUNT_BLOCKED"; "ACCOUNT_NOT_FOUND"; "IDENTITY_NOT_FOUND";
                                   "IDENTITY_ACCOUNT_MISMATCH"])
      then refused "PLATFORM_ACCESS_REQUIRED" 403
      else refused "SERVICE_UNAVAILABLE" 503
  | _ => refused "SERVICE_UNAVAILABLE" 503
  end.
Definition mapped {A} (m : ControlAct A) : ControlAct A := try_catch m (λ e, throw (mapAccountError e)).
Definition or_unavailable {A} (m : ControlAct A) : ControlAct A :=
  try_catch m (λ _, refuse "SERVICE_UNAVAILABLE" 503).
(** [catch (error) { if (error instanceof PlatformAccessError) throw error; ... }]. *)
Definition or_unavailable_unless_refused {A} (m : ControlAct A) : ControlAct A :=
  try_catch m (λ e, match e with EPlatformAccess _ => throw e | _ => refuse "SERVICE_UNAVAILABLE" 503 end).

Definition requirePlatformAdminAccount (a : string) : ControlAct unit :=
  mapped (requirePlatformAuthority a PlatformAdmin).
Definition requireActiveIdentityOf (actor : Actor) : ControlAct unit :=
  mapped (_ ← requireActiveIdentity (actorAccountId actor) (actorExternalIdentityId actor); mret tt).
Definition requireInvitationAdmin (actor : Actor) : ControlAct unit :=
  _ ← requireActiveIdentityOf actor; requirePlatformAdminAccount (actorAccountId actor).

Definition readIdempotency (a key : string) : ControlAct (option PlatformIdempotencyRow) :=
  or_unavailable (t ← now; getInvitationIdempotency a key t).

Definition platform_receipt (invitation : StoredPlatformInvitation) (token : string) : InvitationReceipt :=
  mkReceipt (si_invitationId invitation) ("/admin/platform-invitations/" +:+ token)
    (si_expiresAt invitation) (si_revision invitation).
Definition orderedAuthorities (l : list PlatformAuthority) : list PlatformAuthority :=
  filter (λ au, includes_authority au l = true) [PlatformAdmin; AppsCreate].

(** The sealing of tokens, and the pattern of addresses of the schema library. *)
Class InvitationSecrets := {
  seal : string → result exn string;
  unseal : string → result exn string
}.
Class EmailPattern := zod_email : string → bool.

(** [normalizeCreateInput], and the schema of what it gives. *)
Definition normalizeCreateInput (input : Json) : Json :=
  match input with
  | JObj members =>
      JObj ((λ m, match m with
                  | (name, JStr s) => if bool_decide (name = "emailConstraint")
                                      then (name, JStr (toLowerCase (trim s))) else m
                  | _ => m
                  end) <$> members)
  | _ => input
  end.
Fixpoint read_authorities (l : list Json) : option (list PlatformAuthority) :=
  match l with
  | [] => Some []
  | j :: l => a ← read_authority j; a ← a; rest ← read_authorities l; Some (a :: rest)
  end.
Definition read_create_invitation `{EmailPattern} (input : Json)
    : option (string * list PlatformAuthority) :=
  members ← strict_members ["emailConstraint"; "authorities"] input;
  match find_member "emailConstraint" members, find_member "authorities" members with
  | Some (JStr email), Some (JArr l) =>
      authorities ← read_authorities l;
      if zod_email email && (strlen email <=? 254) && bool_decide (NoDup authorities)
         && negb (bool_decide (authorities = []))
      then Some (email, authorities) else None
  | _, _ => None
  end.

Section service.
Context {Hsha : Sha256} {Hent : Entropy} {Hsec : InvitationSecrets} {Hpat : EmailPattern}.

Definition replay (record : PlatformIdempotencyRow) (payloadHash : string) : ControlAct InvitationReceipt :=
  _ ← refuse_if (negb (bool_decide (px_payload_hash record = payloadHash))) "IDEMPOTENCY_CONFLICT" 409;
  t ← now;
  invitation ← getInvitation (px_invitation_id record) t;
  match invitation with
  | Some i =>
      if bool_decide (si_status i = Pending)
      then or_unavailable (token ← lift (unseal (px_sealed_token record)); mret (platform_receipt i token))
      else refuse "INVITATION_NOT_PENDING" 409
  | None => refuse "INVITATION_NOT_PENDING" 409
  end.

Definition create (actor : Actor) (input : Json) (idempotencyKey request : option string)
    : ControlAct InvitationReceipt :=
  _ ← requireInvitationAdmin actor;
  match read_create_invitation (normalizeCreateInput input), idempotencyKey with
  | Some (email, authorities), Some key =>
      _ ← refuse_if ((strlen key =? 0) || (200 <? strlen key)) "INVALID_REQUEST" 400;
      let authorities := orderedAuthorities authorities in
      let payloadHash := sha256Hex (canonicalJson (JObj
        [("emailConstraint", JStr email);
         ("authorities", JArr ((λ au, JStr (authority_text au)) <$> authorities))])) in
      existing ← readIdempotency (actorAccountId actor) key;
      match existing with
      | Some r => replay r payloadHash
      | None =>
          t ← now;
          token ← generateInvitationToken;
          i ← generateInvitationId;
          let invitation := mkStoredInvitation i email authorities Pending (sha256Hex token)
            (t + DEFAULT_INVITATION_TTL_MS) t (actorAccountId actor) 1 in
          sealed ← lift (seal token);
          eventId ← generateEventId;
          result ← commitCreateInvitation actor invitation key
                     (mkPlatformIdempotencyRow payloadHash i sealed (si_expiresAt invitation)) eventId request;
          if bool_decide (result = "actor-forbidden") then refuse "PLATFORM_ADMIN_REQUIRED" 403
          else if bool_decide (result = "idempotency-conflict") then
            raced ← readIdempotency (actorAccountId actor) key;
            match raced with
            | Some r => replay r payloadHash
            | None => refuse "SERVICE_UNAVAILABLE" 503
            end
          else mret (platform_receipt invitation token)
      end
  | _, _ => refuse "INVALID_REQUEST" 400
  end.

Definition revoke (actor : Actor) (i : string) (ifMatch request : option string) : ControlAct Z :=
  _ ← requireInvitationAdmin actor;
  match ifMatch with
  | None => refuse "PRECONDITION_REQUIRED" 428
  | Some tag =>
      match parseCasAdminETag tag with
      | None => refuse "INVALID_REQUEST" 400
      | Some expected =>
          t ← now;
          current ← getInvitation i t;
          match current with
          | None => refuse "NOT_FOUND" 404
          | Some c =>
              _ ← refuse_if (negb (si_revision c =? expected)) "REVISION_MISMATCH" 412;
              if bool_decide (si_status c = Revoked) then mret (si_revision c)
              else
                _ ← refuse_if (negb (bool_decide (si_status c = Pending))) "INVITATION_NOT_PENDING" 409;
                t ← now;
                eventId ← generateEventId;
                result ← commitRevokeInvitation actor i expected t eventId request;
                _ ← refuse_if (bool_decide (result = "actor-forbidden")) "PLATFORM_ADMIN_REQUIRED" 403;
                _ ← refuse_if (bool_decide (result = "revision-mismatch")) "REVISION_MISMATCH" 412;
                _ ← refuse_if (bool_decide (result = "not-found")) "NOT_FOUND" 404;
                _ ← refuse_if (bool_decide (result = "not-pending")) "INVITATION_NOT_PENDING" 409;
                mret (si_revision c + 1)
          end
      end
  end.

Definition resolve (token : string) : ControlAct StoredPlatformInvitation :=
  _ ← refuse_if (bool_decide (validateInvitationToken (JStr token) ≠ None)) "NOT_FOUND" 404;
  or_unavailable_unless_refused (
    t ← now;
    invitation ← getInvitationByTokenHash (sha256Hex token) t;
    match invitation with
    | Some i => if bool_decide (si_status i = Pending) then mret i else refuse "NOT_FOUND" 404
    | None => refuse "NOT_FOUND" 404
    end).

Definition accept (actor : Actor) (evidence : list VerifiedEmailEvidence) (token : string)
    (request : option string) : ControlAct unit :=
  invitation ← resolve token;
  _ ← requireActiveIdentityOf actor;
  t ← now;
  match requireInvitationEmailEvidence evidence (si_emailConstraint invitation) t with
  | Throw _ => refuse "NOT_FOUND" 404
  | Ok matched =>
      t ← now;
      eventId ← generateEventId;
      result ← commitAcceptInvitation actor invitation (sha256Hex token) (evidence_email matched)
                 (evidence_challenge matched) t eventId request;
      _ ← refuse_if (bool_decide (result = "account-unavailable")) "PLATFORM_ACCESS_REQUIRED" 403;
      refuse_if (bool_decide (result = "not-pending")) "INVITATION_NOT_PENDING" 409
  end.

(** ** The list *)

Record InvitationCursor := mkInvitationCursor {
  ic_snapshot : Z;
  ic_asOf : Z;
  ic_last : string;
  ic_query : option string;
  ic_status : option string
}.
Definition optional_text (name : string) (o : option string) : list (string * Json) :=
  match o with Some s => [(name, JStr s)] | None => [] end.
Definition encodeCursor (c : InvitationCursor) : string :=
  of_chars (btoa (JSON_stringify (JObj
    ([("v", JInt 1); ("snapshot", JInt (ic_snapshot c)); ("asOf", JInt (ic_asOf c));
      ("last", JStr (ic_last c))]
     ++ optional_text "query" (ic_query c) ++ optional_text "status" (ic_status c))))).
Definition read_text (j : Json) : option string := match j with JStr s => Some s | _ => None end.
Definition read_status (j : Json) : option string :=
  match j with JStr s => if bool_decide (parse_status s = None) then None else Some s | _ => None end.
Definition read_cursor (text : string) : option InvitationCursor :=
  json ← atob (chars text);
  parsed ← JSON_parse json;
  match json_member "v" parsed, json_member "snapshot" parsed, json_member "asOf" parsed,
        json_member "last" parsed with
  | Some (JInt 1), Some (JInt snapshot), Some (JInt asOf), Some (JStr last) =>
      let members := match parsed with JObj members => members | _ => [] end in
      query ← optional_member "query" read_text members;
      status ← optional_member "status" read_status members;
      if isSafeInteger snapshot && (0 <=? snapshot) && isSafeInteger asOf && (0 <=? asOf)
         && negb (strlen last =? 0)
      then Some (mkInvitationCursor snapshot asOf last query status) else None
  | _, _, _, _ => None
  end.
Definition decodeCursor (value : option string) : ControlAct (option InvitationCursor) :=
  match value with
  | None => mret None
  | Some text => match read_cursor text with
                 | Some c => mret (Some c)
                 | None => refuse "INVALID_CURSOR" 400
                 end
  end.

Definition normalizeListInput (input : Json) : Json :=
  match input with
  | JObj members =>
      JObj ((λ m, if bool_decide (fst m = "limit") then (fst m, Number_of (snd m)) else m) <$> members)
  | _ => input
  end.

(** A row without its token hash. *)
Record PlatformInvitationView := mkInvitationViewP {
  piv_invitationId : string;
  piv_emailConstraint : string;
  piv_authorities : list PlatformAuthority;
  piv_status : InvitationStatus;
  piv_expiresAt : Z;
  piv_createdAt : Z;
  piv_createdByAccountId : string;
  piv_revision : Z
}.
Definition withoutTokenHash (i : StoredPlatformInvitation) : PlatformInvitationView :=
  mkInvitationViewP (si_invitationId i) (si_emailConstraint i) (si_authorities i) (si_status i)
    (si_expiresAt i) (si_createdAt i) (si_createdByAccountId i) (si_revision i).

Definition list_invitations (actorId : string) (input : Json)
    : ControlAct (list PlatformInvitationView * option string) :=
  _ ← requirePlatformAdminAccount actorId;
  let parsed :=
    members ← strict_members ["query"; "status"; "limit"; "cursor"] (normalizeListInput input);
    query ← optional_member "query" (read_string 0 254) members;
    status ← optional_member "status" read_status members;
    limit ← optional_member "limit" (read_int 1 1000) members;
    cursor ← optional_member "cursor" (read_string 1 any_length) members;
    Some (query, status, limit, cursor) in
  match parsed with
  | None => refuse "INVALID_REQUEST" 400
  | Some (query, status, limit, cursor) =>
      cursor ← decodeCursor cursor;
      let query := (λ s, toLowerCase (trim s)) <$> (query : option string) in
      _ ← refuse_if (match cursor with
                     | Some c => negb (bool_decide (ic_query c = query))
                                 || negb (bool_decide (ic_status c = status))
                     | None => false
                     end) "INVALID_CURSOR" 400;
      let limit := default 50 limit in
      snapshot ← or_unavailable readControlSnapshot;
      _ ← refuse_if (match cursor with Some c => negb (ic_snapshot c =? snapshot) | None => false end)
            "INVALID_CURSOR" 400;
      asOf ← match cursor with Some c => mret (ic_asOf c) | None => now end;
      or_unavailable_unless_refused (
        rows ← listInvitations (default EmptyString (ic_last <$> cursor)) (limit + 1) query
                 ((status : option string) ≫= parse_status) asOf;
        again ← readControlSnapshot;
        _ ← refuse_if (negb (again =? snapshot)) "INVALID_CURSOR" 400;
        let items := limited limit rows in
        mret (withoutTokenHash <$> items,
              if limit <? Z.of_nat (length rows)
              then (λ r, encodeCursor (mkInvitationCursor snapshot asOf (si_invitationId r) query status))
                     <$> last items
              else None))
  end.
End service.
