(* ===== verification/EmailChallenge.v ===== *)
(** Email challenges: [EmailChallengeService] of
    [packages/service/src/email-challenge.ts] over [D1EmailChallengeRepository] of
    [packages/service-cloudflare/src/email-challenge-repository.ts]. A code of six digits
    goes to an address; whoever sends it back with the secret of the browser that asked
    has the address, which is what an invitation wants to know. *)
From Stdlib Require Import Ascii.
From S2P Require Import Prelude Js JsString JsonText MapSum Errors Codec World ControlStore.
From S2P Require Import AccountBatches InvitationBatches ControlWorld ControlValidation.
From S2P Require Import AccountRepo.

(** * The repository *)

(** [fixedHashEqual]: every position is looked at. *)
Definition fixedHashEqual (left right : string) : bool :=
  if negb (strlen left =? 64) || negb (strlen right =? 64) then false
  else foldl (λ difference p, Z.lor difference (Z.lxor (code (fst p)) (code (snd p)))) 0
         (zip (chars left) (chars right)) =? 0.

Definition pruneExpired (at_ : Z) : ControlAct Z :=
  control_batch (command_stmts (PruneChallenges at_)).
Definition createChallenge (challengeId : string) (record : EmailChallengeRow)
    (limits : EmailChallengeLimits) : ControlAct string :=
  try_catch
    (changes ← control_batch (command_stmts (CreateChallenge challengeId record limits));
     mret (if changes =? 1 then "created" else "rate-limited"))
    (λ e, if includes (error_message e) "UNIQUE constraint failed" then mret "conflict" else throw e).
Definition getChallenge (challengeId : string) : ControlAct (option EmailChallengeRow) :=
  control_read (λ d, cas_email_challenges d !! challengeId).
Definition invalidateChallenge (challengeId : string) (b : EmailChallengeBinding) (at_ : Z)
    : ControlAct unit :=
  _ ← control_batch (command_stmts (InvalidateChallenge challengeId b at_)); mret tt.

(** A challenge that can still be answered. *)
Definition answerable (record : EmailChallengeRow) (b : EmailChallengeBinding) (at_ : Z) : bool :=
  bool_decide (ec_binding record = b) && bool_decide (ec_verified_at record = None)
  && bool_decide (ec_invalidated_at record = None) && bool_decide (ec_consumed_at record = None)
  && negb (ec_expires_at record <=? at_)
  && negb (ec_max_attempts record <=? ec_attempt_count record).
(** The times it was verified and expires. *)
Definition verifyChallenge (challengeId : string) (b : EmailChallengeBinding) (codeHash : string) (at_ : Z)
    : ControlAct (option (Z * Z)) :=
  record ← getChallenge challengeId;
  match record with
  | Some record =>
      if negb (answerable record b at_) then mret None
      else
        let matches := fixedHashEqual (ec_code_hash record) codeHash in
        changes ← control_batch (command_stmts (VerifyChallenge challengeId (ec_code_hash record)
                    (ec_attempt_count record) matches at_));
        if negb (changes =? 1) || negb matches then mret None
        else mret (Some (at_, ec_expires_at record))
  | None => mret None
  end.
(** The time it expires. *)
Definition resendChallenge (challengeId : string) (b : EmailChallengeBinding) (codeHash : string)
    (limits : EmailChallengeLimits) (at_ : Z) : ControlAct (option Z) :=
  record ← getChallenge challengeId;
  match record with
  | Some record =>
      if negb (answerable record b at_) || (maxSends limits <=? ec_send_count record)
         || (at_ <? ec_last_sent_at record + minimumIntervalMs limits)
      then mret None
      else
        changes ← control_batch (command_stmts (ResendChallenge challengeId (ec_binding record) codeHash
                    (ec_send_count record) (ec_last_sent_at record) limits at_));
        mret (if changes =? 1 then Some (ec_expires_at record) else None)
  | None => mret None
  end.

(** * Codes and addresses *)

Definition hashCode `{Sha256} (challengeId secret code : string) : string :=
  let nul := String (char_of_code 0) EmptyString in
  sha256Hex (challengeId +:+ nul +:+ secret +:+ nul +:+ code).

(** [String(n).padStart(6, "0")]. *)
Definition padStart6 (s : string) : string :=
  of_chars (replicate (6 - String.length s) "0"%char) +:+ s.
(** The pattern [^\d{6}$]. *)
Definition six_digits (s : string) : bool := (strlen s =? 6) && all_chars is_digit s.

(** A number from four random bytes, the low one first. *)
Definition uint32 (bs : bytes) : Z := foldr (λ b n, byte_val b + 256 * n) 0 bs.
Definition CODE_RANGE : Z := 1000000.
Definition CODE_LIMIT : Z := 0x100000000 / CODE_RANGE * CODE_RANGE.

(** [generateSixDigitCode]: numbers are drawn until one is below the limit, within
    [fuel] draws. *)
Fixpoint generateSixDigitCode `{Entropy} (fuel : nat) : ControlAct string :=
  match fuel with
  | O => throw (Error "out of fuel")
  | S fuel =>
      bs ← getRandomValues 4;
      let value := uint32 bs in
      if CODE_LIMIT <=? value then generateSixDigitCode fuel
      else mret (padStart6 (show (value mod CODE_RANGE)))
  end.

(** The position of the last "@". *)
Fixpoint last_at (l : list ascii) : option nat :=
  match l with
  | [] => None
  | c :: l => match last_at l with
              | Some n => Some (S n)
              | None => if bool_decide (c = "@"%char) then Some O else None
              end
  end.
Definition maskEmail (email : string) : string :=
  match last_at (chars email) with
  | None | Some O => "***"
  | Some separator =>
      let local := take separator (chars email) in
      let visible := take 2 local in
      of_chars (visible ++ replicate (3 `max` (length local - length visible)) "*"%char
                ++ drop separator (chars email))
  end.

(** * The service *)

Record EmailChallengeStart := mkStart {
  cs_challengeId : string;
  cs_binding : EmailChallengeBinding;
  cs_code : string;
  cs_secret : string;
  cs_maskedEmail : string;
  cs_expiresAt : Z
}.

(** [throw new EmailChallengeError()]. *)
Definition challenge_failed {A} : ControlAct A := throw EEmailChallenge.

Definition default_limits : EmailChallengeLimits :=
  mkLimits EMAIL_CHALLENGE_RESEND_INTERVAL_MS EMAIL_CHALLENGE_TTL_MS EMAIL_CHALLENGE_MAX_SENDS.

(** The options of the service: the limits, the lifetime and the attempts, and where
    codes come from. *)
Section service.
Context {Hsha : Sha256} {Hent : Entropy}.
Context (limits : EmailChallengeLimits) (ttlMs maxAttempts : Z) (generateCode : ControlAct string).

Definition generateChallengeId : ControlAct string :=
  token ← generateInvitationToken; mret ("emc_" +:+ token).
Definition generateSecret : ControlAct string := generateInvitationToken.

(** The turns of [create] that are left. *)
Fixpoint create_attempts (turns : nat) (b : EmailChallengeBinding) (t : Z) : ControlAct EmailChallengeStart :=
  match turns with
  | O => challenge_failed
  | S turns =>
      challengeId ← generateChallengeId;
      code ← generateCode;
      secret ← generateSecret;
      let expiresAt := t + ttlMs in
      result ← createChallenge challengeId
                 (mkEmailChallengeRow b (hashCode challengeId secret code) expiresAt 0 maxAttempts 1 t
                    None None None t)
                 (mkLimits (minimumIntervalMs limits) ttlMs (maxSends limits));
      if bool_decide (result = "created")
      then mret (mkStart challengeId b code secret (maskEmail (eb_normalizedEmail b)) expiresAt)
      else if bool_decide (result = "rate-limited") then challenge_failed
      else create_attempts turns b t
  end.
(** The address of the input is normalized into the binding. *)
Definition create (input : EmailChallengeBinding) : ControlAct EmailChallengeStart :=
  t ← now;
  create_attempts 3
    (mkBinding (eb_invitationKind input) (eb_invitationId input) (eb_invitationTokenHash input)
       (eb_issuer input) (eb_subject input) (eb_authenticationEventId input)
       (normalizeEmail (eb_normalizedEmail input))) t.

Definition describe (challengeId : string) (b : EmailChallengeBinding) : ControlAct (string * Z) :=
  record ← getChallenge challengeId;
  match record with
  | Some record =>
      t ← now;
      if negb (bool_decide (ec_binding record = b)) || negb (bool_decide (ec_consumed_at record = None))
         || negb (bool_decide (ec_invalidated_at record = None)) || (ec_expires_at record <=? t)
         || (ec_max_attempts record <=? ec_attempt_count record)
      then challenge_failed
      else mret (maskEmail (eb_normalizedEmail (ec_binding record)), ec_expires_at record)
  | None => challenge_failed
  end.

Definition verify (challengeId : string) (b : EmailChallengeBinding) (secret code : string)
    : ControlAct VerifiedEmailEvidence :=
  t ← now;
  let code := if six_digits code then code else "invalid" in
  result ← verifyChallenge challengeId b (hashCode challengeId secret code) t;
  match result with
  | Some (verifiedAt, expiresAt) =>
      mret (mkEvidence (eb_normalizedEmail b) UnicasEmailChallenge verifiedAt expiresAt
              (eb_authenticationEventId b) (Some challengeId))
  | None => challenge_failed
  end.

Definition resend (challengeId : string) (b : EmailChallengeBinding) : ControlAct EmailChallengeStart :=
  t ← now;
  code ← generateCode;
  secret ← generateSecret;
  result ← resendChallenge challengeId b (hashCode challengeId secret code)
             (mkLimits (minimumIntervalMs limits) ttlMs (maxSends limits)) t;
  match result with
  | Some expiresAt =>
      mret (mkStart challengeId b code secret (maskEmail (eb_normalizedEmail b)) expiresAt)
  | None => challenge_failed
  end.

Definition invalidate (challengeId : string) (b : EmailChallengeBinding) : ControlAct unit :=
  t ← now; invalidateChallenge challengeId b t.
End service.

(** * What the small functions give *)

Lemma lor_zero a b : Z.lor a b = 0 ↔ a = 0 ∧ b = 0.
Proof. apply Z.lor_eq_0_iff. Qed.
Lemma lxor_zero a b : Z.lxor a b = 0 ↔ a = b.
Proof. split; [apply Z.lxor_eq | intros ->; apply Z.lxor_nilpotent]. Qed.

(** The comparison in fixed time is equality of digests. *)
Lemma fixedHashEqual_spec s t : fixedHashEqual s t = true ↔ s = t ∧ strlen s = 64.
Proof.
  unfold fixedHashEqual.
  destruct (Z.eqb_spec (strlen s) 64) as [Hs|Hs]; cbn [negb orb]; [|split; [done|by intros [_ ?]]].
  destruct (Z.eqb_spec (strlen t) 64) as [Ht|Ht]; cbn [negb orb]; [|split; [done|by intros [-> ?]]].
  assert (∀ l l' acc, length l = length l' →
    foldl (λ d p, Z.lor d (Z.lxor (code (fst p)) (code (snd p)))) acc (zip l l') = 0 ↔ acc = 0 ∧ l = l') as Hfold.
  { induction l as [|a l IH]; intros [|b l'] acc Hl; try done; cbn; [naive_solver|].
    rewrite (IH l') by (cbn in Hl; lia). rewrite lor_zero, lxor_zero. split.
    - intros [[? Hc] ->]. split; [done|]. f_equal. by apply code_inj.
    - intros [? [= -> ->]]. done. }
  rewrite Z.eqb_eq, Hfold.
  - split; [intros [_ Hl]; split; [by apply chars_inj|done] | by intros [-> _]].
  - unfold strlen in *. rewrite !length_chars. lia.
Qed.
