(* ===== verification/ControlInv.v ===== *)
(** What the control database keeps: its invariant, and what never goes back. Every
    command of the repositories keeps both ([command_runs]): the batches are shown to,
    statement by statement, from what their guards establish. *)
From S2P Require Import Prelude Js MapSum ControlStore AccountBatches InvitationBatches.
From S2P Require Import ControlWorld.

(** * Tables that evolve *)

(** Every row stays, as a row related to it. *)
Definition evolves {K V} `{Countable K} (R : V → V → Prop) (m m' : gmap K V) : Prop :=
  ∀ k v, m !! k = Some v → ∃ v', m' !! k = Some v' ∧ R v v'.

Section evolves.
Context {K V : Type} `{Countable K} (R : V → V → Prop).
Implicit Types (m : gmap K V).

#[export] Instance evolves_refl `{!Reflexive R} : Reflexive (evolves (K := K) R).
Proof. intros m k v Hv. by exists v. Qed.
#[export] Instance evolves_trans `{!Transitive R} : Transitive (evolves (K := K) R).
Proof.
  intros m1 m2 m3 H1 H2 k v Hv. destruct (H1 k v Hv) as (v' & Hv' & HR).
  destruct (H2 k v' Hv') as (v'' & ? & ?). exists v''. split; [done|by etrans].
Qed.
Lemma evolves_insert `{!Reflexive R} m k v :
  match m !! k with Some w => R w v | None => True end → evolves R m (<[k := v]> m).
Proof.
  intros Hk k' w Hw. destruct (decide (k' = k)) as [->|Hne].
  - exists v. by rewrite lookup_insert_eq, Hw in *.
  - exists w. by rewrite lookup_insert_ne by done.
Qed.
Lemma evolves_lookup m m' k v : evolves R m m' → m !! k = Some v → ∃ v', m' !! k = Some v' ∧ R v v'.
Proof. intros He. apply He. Qed.
End evolves.

(** ** How rows evolve *)

(** Versions do not go back, and an account is blocked only under a new one. *)
Definition account_evolves (r r' : AccountRow) : Prop :=
  ac_credential_version r ≤ ac_credential_version r'
  ∧ (ac_credential_version r = ac_credential_version r' → ac_blocked_at r = None → ac_blocked_at r' = None).
(** An identity stays whose it is, and unlinked once it is. *)
Definition identity_evolves (r r' : IdentityRow) : Prop :=
  id_account_id r' = id_account_id r ∧ id_issuer r' = id_issuer r ∧ id_subject r' = id_subject r
  ∧ id_provider r' = id_provider r ∧ (id_unlinked_at r ≠ None → id_unlinked_at r' ≠ None).
(** A row changes only with its revision, which grows. *)
Definition app_evolves (r r' : AppRow) : Prop :=
  ap_revision r ≤ ap_revision r' ∧ (ap_revision r = ap_revision r' → r = r').
Definition issuer_evolves (r r' : IssuerRow) : Prop :=
  is_revision r ≤ is_revision r' ∧ (is_revision r = is_revision r' → r = r').
(** An invitation that is no longer pending is what it is for good. *)
Definition invitation_evolves (r r' : AppInvitationRow) : Prop :=
  ai_app_id r' = ai_app_id r ∧ ai_token_hash r' = ai_token_hash r ∧ ai_expires_at r' = ai_expires_at r
  ∧ ai_email_constraint r' = ai_email_constraint r
  ∧ ai_revision r ≤ ai_revision r' ∧ (ai_revision r = ai_revision r' → r' = r)
  ∧ (ai_status r ≠ Pending → r' = r).
Definition platform_invitation_evolves (r r' : PlatformInvitationRow) : Prop :=
  pi_token_hash r' = pi_token_hash r ∧ pi_expires_at r' = pi_expires_at r
  ∧ pi_platform_admin r' = pi_platform_admin r ∧ pi_apps_create r' = pi_apps_create r
  ∧ pi_revision r ≤ pi_revision r' ∧ (pi_revision r = pi_revision r' → r' = r)
  ∧ (pi_status r ≠ Pending → r' = r).
(** An inspection is used once. *)
Definition inspection_evolves (r r' : InspectionRow) : Prop :=
  in_app_id r' = in_app_id r ∧ in_challenge_hash r' = in_challenge_hash r
  ∧ (in_used_at r ≠ None → r' = r).
Definition persists {V} (r r' : V) : Prop := True.

#[export] Instance account_evolves_pre : PreOrder account_evolves.
Proof.
  split; [by intros r; split|]. intros r1 r2 r3 [H1 H2] [H3 H4]. split; [lia|].
  intros E Hn. apply H4; [lia|]. apply H2; [lia|done].
Qed.
#[export] Instance identity_evolves_pre : PreOrder identity_evolves.
Proof.
  split; [by intros r; split_and!|]. intros r1 r2 r3 (?&?&?&?&?) (?&?&?&?&?).
  split_and!; try congruence. auto.
Qed.
#[export] Instance app_evolves_pre : PreOrder app_evolves.
Proof.
  split; [by intros r; split|]. intros r1 r2 r3 [H1 H2] [H3 H4]. split; [lia|].
  intros E. rewrite H2 by lia. apply H4. lia.
Qed.
#[export] Instance issuer_evolves_pre : PreOrder issuer_evolves.
Proof.
  split; [by intros r; split|]. intros r1 r2 r3 [H1 H2] [H3 H4]. split; [lia|].
  intros E. rewrite H2 by lia. apply H4. lia.
Qed.
#[export] Instance invitation_evolves_pre : PreOrder invitation_evolves.
Proof.
  split; [by intros r; split_and!|]. intros r1 r2 r3 (?&?&?&?&A1&A2&A3) (?&?&?&?&B1&B2&B3).
  split_and!; try congruence; [lia| |].
  - intros E. assert (r2 = r1) as -> by (apply A2; lia). apply B2. lia.
  - intros Hp. specialize (A3 Hp) as ->. by apply B3.
Qed.
#[export] Instance platform_invitation_evolves_pre : PreOrder platform_invitation_evolves.
Proof.
  split; [by intros r; split_and!|]. intros r1 r2 r3 (?&?&?&?&A1&A2&A3) (?&?&?&?&B1&B2&B3).
  split_and!; try congruence; [lia| |].
  - intros E. assert (r2 = r1) as -> by (apply A2; lia). apply B2. lia.
  - intros Hp. specialize (A3 Hp) as ->. by apply B3.
Qed.
#[export] Instance inspection_evolves_pre : PreOrder inspection_evolves.
Proof.
  split; [by intros r; split_and!|]. intros r1 r2 r3 (?&?&A1) (?&?&B1).
  split_and!; try congruence. intros Hu. specialize (A1 Hu) as ->. by apply B1.
Qed.
#[export] Instance persists_pre {V} : PreOrder (@persists V).
Proof. by split. Qed.

(** * The invariant *)

(** An administrator that is not blocked. *)
Definition is_admin (d : ControlDb) (a : string) : Prop :=
  has_authority d a PlatformAdmin = true ∧ usable_account d a = true.
Definition has_admin (d : ControlDb) : Prop := ∃ a, is_admin d a.

(** The identity [i] is there and is that of the account [a]. *)
Definition identity_of (d : ControlDb) (i a : string) : Prop :=
  ∃ r, cas_external_identities d !! i = Some r ∧ id_account_id r = a.

(** A challenge is tried and sent within the limits. *)
Definition challenge_ok (c : EmailChallengeRow) : Prop :=
  ec_max_attempts c = EMAIL_CHALLENGE_MAX_ATTEMPTS
  ∧ ec_attempt_count c ≤ EMAIL_CHALLENGE_MAX_ATTEMPTS ∧ ec_send_count c ≤ EMAIL_CHALLENGE_MAX_SENDS.

Record control_ok (d : ControlDb) : Prop := {
  (* members belong to Apps and are accounts; an App has one *)
  ok_members app a : is_member d app a = true → app_stored d app = true ∧ account_stored d a = true;
  ok_app app : app_stored d app = true → ∃ a, is_member d app a = true;
  (* an account has a profile and a way to sign in *)
  ok_profile a : account_stored d a = true → is_Some (cas_account_profiles d !! a);
  ok_sign_in a : account_stored d a = true → ∃ i, active_identity d i a = true;
  ok_identities i r : cas_external_identities d !! i = Some r → account_stored d (id_account_id r) = true;
  (* one way to sign in leads to one account *)
  ok_subjects i j r s : cas_external_identities d !! i = Some r → cas_external_identities d !! j = Some s →
    id_unlinked_at r = None → id_unlinked_at s = None →
    id_issuer r = id_issuer s → id_subject r = id_subject s → i = j;
  ok_authorities a au : has_authority d a au = true → account_stored d a = true;
  (* an issuer speaks for one App *)
  ok_issuers p q r s : cas_app_oauth_issuers d !! p = Some r → cas_app_oauth_issuers d !! q = Some s →
    im_issuer (is_metadata r) = im_issuer (is_metadata s) → p = q;
  (* a token opens one invitation *)
  ok_tokens i j r s : cas_app_member_invitations d !! i = Some r → cas_app_member_invitations d !! j = Some s →
    ai_token_hash r = ai_token_hash s → i = j;
  (* an event names an actor and an identity of that actor *)
  ok_audit e r : cas_control_audit_events d !! e = Some r →
    identity_of d (ca_external_identity_id r) (ca_original_account_id r);
  ok_platform_audit e r : cas_platform_audit_events d !! e = Some r →
    identity_of d (pa_actor_external_identity_id r) (pa_actor_account_id r);
  (* a receipt is of an App that was created, for as long as the code says *)
  ok_receipts k r : cas_account_app_idempotency d !! k = Some r →
    app_stored d (app_appId (ax_response r)) = true
    ∧ ax_expires_at r = ap_created_at (app_row (ax_response r)) + CAS_ADMIN_IDEMPOTENCY_RETENTION_MS;
  ok_challenges i c : cas_email_challenges d !! i = Some c → challenge_ok c
}.

(** * What never goes back *)

Record control_keeps (d d' : ControlDb) : Prop := {
  kp_accounts : evolves account_evolves (cas_accounts d) (cas_accounts d');
  kp_profiles : evolves persists (cas_account_profiles d) (cas_account_profiles d');
  kp_identities : evolves identity_evolves (cas_external_identities d) (cas_external_identities d');
  kp_apps : evolves app_evolves (cas_apps d) (cas_apps d');
  kp_invitations : evolves invitation_evolves (cas_app_member_invitations d) (cas_app_member_invitations d');
  kp_platform_invitations :
    evolves platform_invitation_evolves (cas_platform_invitations d) (cas_platform_invitations d');
  kp_issuers : evolves issuer_evolves (cas_app_oauth_issuers d) (cas_app_oauth_issuers d');
  kp_inspections :
    evolves inspection_evolves (cas_oauth_issuer_inspections d) (cas_oauth_issuer_inspections d');
  kp_audit : evolves eq (cas_control_audit_events d) (cas_control_audit_events d');
  kp_platform_audit : evolves eq (cas_platform_audit_events d) (cas_platform_audit_events d');
  kp_receipts : evolves eq (cas_account_app_idempotency d) (cas_account_app_idempotency d');
  kp_invitation_receipts :
    evolves eq (cas_account_app_invitation_idempotency d) (cas_account_app_invitation_idempotency d');
  kp_platform_receipts :
    evolves eq (cas_platform_invitation_idempotency d) (cas_platform_invitation_idempotency d');
  kp_aliases : cas_account_aliases d' = cas_account_aliases d;
  kp_admin : has_admin d → has_admin d'
}.

#[export] Instance control_keeps_pre : PreOrder control_keeps.
Proof.
  split.
  - intros d. split; first [reflexivity | done].
  - intros d1 d2 d3 H1 H2. split; try (etrans; [apply H1 | apply H2]).
    + by rewrite (kp_aliases _ _ H2), (kp_aliases _ _ H1).
    + intros Ha. by apply H2, H1.
Qed.
