(* ===== verification/ControlRuns.v ===== *)
(** A logic for batches: [runs P l Q] says that the statements [l], run from a database
    that satisfies the invariant and [P], when they do not fail leave one that satisfies
    the invariant and [Q] and keeps what never goes back. For every table, what writing
    a row of it needs. *)
From S2P Require Import Prelude Js MapSum ControlStore AccountBatches InvitationBatches.
From S2P Require Import ControlWorld ControlInv.

Definition runs (P : ControlDb → Prop) (l : list cstmt) (Q : ControlDb → Prop) : Prop :=
  ∀ d n d' n', control_ok d → P d → run_statements l (d, n) = Ok (d', n') →
    control_ok d' ∧ control_keeps d d' ∧ Q d'.

Lemma runs_nil (P Q : ControlDb → Prop) : (∀ d, P d → Q d) → runs P [] Q.
Proof. intros HPQ d n d' n' Hok HP [= <- <-]. split_and!; [done|reflexivity|by apply HPQ]. Qed.
Lemma runs_app P l1 R l2 Q : runs P l1 R → runs R l2 Q → runs P (l1 ++ l2) Q.
Proof.
  intros H1 H2 d n d' n' Hok HP Hrun.
  assert (∃ d1 n1, run_statements l1 (d, n) = Ok (d1, n1) ∧ run_statements l2 (d1, n1) = Ok (d', n'))
    as (d1 & n1 & Hr1 & Hr2).
  { clear -Hrun. revert d n Hrun. induction l1 as [|s l1 IH]; intros d n Hrun; cbn in *; [eauto|].
    destruct (s (d, n)) as [[d1 n1]|e]; [|done]. apply (IH d1 n1 Hrun). }
  destruct (H1 _ _ _ _ Hok HP Hr1) as (Hok1 & Hk1 & HR).
  destruct (H2 _ _ _ _ Hok1 HR Hr2) as (Hok2 & Hk2 & HQ). split_and!; [done|by etrans|done].
Qed.
Lemma runs_cons P s R l Q : runs P [s] R → runs R l Q → runs P (s :: l) Q.
Proof. apply (runs_app P [s]). Qed.
Lemma runs_weaken (P P' Q Q' : ControlDb → Prop) l :
  runs P l Q → (∀ d, P' d → P d) → (∀ d, Q d → Q' d) → runs P' l Q'.
Proof.
  intros H HP HQ d n d' n' Hok HP' Hrun. destruct (H _ _ _ _ Hok (HP d HP') Hrun) as (?&?&?). auto.
Qed.
(** What never goes back survives. *)
Lemma runs_stable (P Q R : ControlDb → Prop) l : (∀ d d', control_keeps d d' → R d → R d') →
  runs P l Q → runs (λ d, P d ∧ R d) l (λ d, Q d ∧ R d).
Proof.
  intros HR H d n d' n' Hok [HP HRd] Hrun. destruct (H _ _ _ _ Hok HP Hrun) as (?&?&?).
  split_and!; eauto.
Qed.
Lemma runs_single (P Q : ControlDb → Prop) (s : cstmt) :
  (∀ d n d' n', control_ok d → P d → s (d, n) = Ok (d', n') → control_ok d' ∧ control_keeps d d' ∧ Q d') →
  runs P [s] Q.
Proof.
  intros H d n d' n' Hok HP Hrun. cbn in Hrun. apply (H d n d' n' Hok HP). by destruct (s (d, n)) as [[? ?]|].
Qed.

Lemma runs_guard (P : ControlDb → Prop) c : runs P [guard c] (λ d, P d ∧ c d = true).
Proof.
  apply runs_single. intros d n d' n' Hok HP. unfold guard. destruct (c d) eqn:Hc; [|done].
  intros [= <- <-]. split_and!; [done|reflexivity|done|done].
Qed.
Lemma runs_changed P : runs P [require_changed] P.
Proof.
  apply runs_single. intros d n d' n' Hok HP. unfold require_changed. case_match; [|done].
  intros [= <- <-]. split_and!; [done|reflexivity|done].
Qed.
(** [require_changed] after a statement rules out that it changed nothing. *)
Lemma runs_then_changed P Q s :
  (∀ d n d' n', control_ok d → P d → s (d, n) = Ok (d', n') → n' = 1 →
     control_ok d' ∧ control_keeps d d' ∧ Q d') →
  runs P [s; require_changed] Q.
Proof.
  intros H d n d' n' Hok HP Hrun. cbn in Hrun. destruct (s (d, n)) as [[d1 n1]|] eqn:Hs; [|done].
  cbn in Hrun. destruct (Z.eqb_spec n1 1) as [->|]; [|done].
  apply (H d n d' 1 Hok HP); [|done]. by injection Hrun as -> _.
Qed.
Lemma runs_when P Q s : runs P [s] Q → (∀ d, P d → Q d) → runs P [when_changed s] Q.
Proof.
  intros H HPQ. apply runs_single. intros d n d' n' Hok HP. unfold when_changed. case_match; intros Hs.
  - apply (H d n d' n' Hok HP). cbn. by rewrite Hs.
  - injection Hs as <- <-. split_and!; [done|reflexivity|auto].
Qed.

(** * Counting *)

Section count.
Context {K V : Type} `{Countable K} (p : K → V → bool).
Implicit Types (m : gmap K V).

Lemma mcount_pos_inv m : 0 < mcount p m → ∃ k v, m !! k = Some v ∧ p k v = true.
Proof.
  intros Hm. assert (¬ map_Forall (λ k v, p k v = false) m) as Hn.
  { intros Hall. assert (mcount p m = 0) by (apply mcount_zero; intros k v Hk; by apply Hall). lia. }
  apply map_not_Forall in Hn as (k & v & Hk & Hp); [|apply _]. exists k, v. split; [done|].
  by destruct (p k v).
Qed.
Lemma mcount_delete m k v : m !! k = Some v → p k v = true → mcount p (delete k m) = mcount p m - 1.
Proof.
  intros Hk Hp. unfold mcount. rewrite (msum_delete _ m k v Hk). cbn. rewrite Hp. cbn. lia.
Qed.
(** Besides one of several there is another. *)
Lemma mcount_other m k v : 1 < mcount p m → m !! k = Some v → p k v = true →
  ∃ k' v', k' ≠ k ∧ m !! k' = Some v' ∧ p k' v' = true.
Proof.
  intros Hm Hk Hp. destruct (mcount_pos_inv (delete k m)) as (k' & v' & Hk' & Hp').
  - rewrite (mcount_delete m k v Hk Hp). lia.
  - apply lookup_delete_Some in Hk' as [Hne Hk']. exists k', v'. split_and!; [by apply not_eq_sym|done..].
Qed.
End count.

(** * What statements do *)

Section statements.
Context {K V : Type} `{Countable K} (t : Table K V).

Lemma insert_row_inv k v d n d' n' : insert_row t k v (d, n) = Ok (d', n') →
  d' = put t k v d ∧ n' = 1 ∧ t_rows t d !! k = None ∧ t_check t k v = true
  ∧ t_unique t (t_rows t d) k v = true ∧ t_refs t d k v = true.
Proof.
  unfold insert_row, stored. destruct (t_check t k v); [|done].
  destruct (t_unique t (t_rows t d) k v); [|by rewrite orb_true_r].
  rewrite orb_false_r. destruct (t_rows t d !! k) eqn:Hk; [done|]. cbn.
  destruct (t_refs t d k v); [|done]. intros [= <- <-]. done.
Qed.
Lemma update_row_inv k p f d n d' n' : update_row t k p f (d, n) = Ok (d', n') →
  (d' = d ∧ n' = 0)
  ∨ ∃ v, t_rows t d !! k = Some v ∧ p d v = true ∧ d' = put t k (f v) d ∧ n' = 1
         ∧ t_check t k (f v) = true ∧ t_unique t (delete k (t_rows t d)) k (f v) = true.
Proof.
  unfold update_row. destruct (t_rows t d !! k) as [v|] eqn:Hk; [|intros [= <- <-]; by left].
  destruct (p d v) eqn:Hp; [|intros [= <- <-]; by left].
  destruct (t_check t k (f v)) eqn:Hc; [|done]. cbn.
  destruct (t_unique t _ k (f v)) eqn:Hu; [|done]. cbn. intros [= <- <-]. right. by exists v.
Qed.

(** A row that may be written keeps everything. *)
Definition writes (P : ControlDb → Prop) (k : K) (v : V) (Q : ControlDb → Prop) : Prop :=
  ∀ d, control_ok d → P d → t_rows t d !! k = None → t_unique t (t_rows t d) k v = true →
    t_refs t d k v = true →
    control_ok (put t k v d) ∧ control_keeps d (put t k v d) ∧ Q (put t k v d).

Lemma runs_insert (P Q : ControlDb → Prop) k v : writes P k v Q → runs P [insert_row t k v] Q.
Proof.
  intros Hw. apply runs_single. intros d n d' n' Hok HP Hs.
  apply insert_row_inv in Hs as (-> & _ & ? & _ & ? & ?). by apply Hw.
Qed.
Lemma runs_insert_where (P Q : ControlDb → Prop) c k v :
  writes (λ d, P d ∧ c d = true) k v Q → (∀ d, P d → c d = false → Q d) →
  runs P [insert_where t c k v] Q.
Proof.
  intros Hw HPQ. apply runs_single. intros d n d' n' Hok HP. unfold insert_where.
  destruct (c d) eqn:Hc.
  - intros Hs. apply insert_row_inv in Hs as (-> & _ & ? & _ & ? & ?). by apply Hw.
  - intros [= <- <-]. split_and!; [done|reflexivity|auto].
Qed.
Lemma runs_insert_or_ignore (P Q : ControlDb → Prop) c k v :
  writes (λ d, P d ∧ c d = true) k v Q → (∀ d, P d → Q d) →
  runs P [insert_or_ignore t c k v] Q.
Proof.
  intros Hw HPQ. apply runs_single. intros d n d' n' Hok HP. unfold insert_or_ignore.
  destruct (c d) eqn:Hc; [|intros [= <- <-]; split_and!; [done|reflexivity|auto]].
  destruct (insert_row t k v (d, n)) as [[d1 n1]|e] eqn:Hs.
  - intros [= <- <-]. apply insert_row_inv in Hs as (-> & _ & ? & _ & ? & ?). by apply Hw.
  - destruct e; try done; intros [= <- <-]; (split_and!; [done|reflexivity|auto]).
Qed.

Definition rewrites (P : ControlDb → Prop) (k : K) (p : ControlDb → V → bool) (f : V → V)
    (Q : ControlDb → Prop) : Prop :=
  ∀ d v, control_ok d → P d → t_rows t d !! k = Some v → p d v = true →
    t_unique t (delete k (t_rows t d)) k (f v) = true →
    control_ok (put t k (f v) d) ∧ control_keeps d (put t k (f v) d) ∧ Q (put t k (f v) d).

Lemma runs_update (P Q : ControlDb → Prop) k p f : rewrites P k p f Q → (∀ d, P d → Q d) →
  runs P [update_row t k p f] Q.
Proof.
  intros Hw HPQ. apply runs_single. intros d n d' n' Hok HP Hs.
  apply update_row_inv in Hs as [[-> _]|(v & ? & ? & -> & _ & _ & ?)].
  - split_and!; [done|reflexivity|auto].
  - by apply Hw.
Qed.
Lemma runs_update_changed (P Q : ControlDb → Prop) k p f : rewrites P k p f Q →
  runs P [update_row t k p f; require_changed] Q.
Proof.
  intros Hw. apply runs_then_changed. intros d n d' n' Hok HP Hs Hn.
  apply update_row_inv in Hs as [[-> ->]|(v & ? & ? & -> & _ & _ & ?)]; [done|]. by apply Hw.
Qed.
End statements.

(** * Writing a row of each table *)

Lemma stored_put `{Countable K} {V} (t : Table K V) d k v k' :
  t_rows t (put t k v d) = <[k := v]> (t_rows t d) →
  stored t (put t k v d) k' = bool_decide (k' = k) || stored t d k'.
Proof.
  intros E. unfold stored. rewrite E. destruct (decide (k' = k)) as [->|Hne].
  - rewrite lookup_insert_eq. by rewrite !bool_decide_eq_true_2 by done.
  - rewrite lookup_insert_ne by done. by rewrite (bool_decide_eq_false_2 (k' = k)) by done.
Qed.
Lemma exists_row_put `{Countable K} {V} (t : Table K V) d k v k' p :
  t_rows t (put t k v d) = <[k := v]> (t_rows t d) →
  exists_row t (put t k v d) k' p = if bool_decide (k' = k) then p v else exists_row t d k' p.
Proof.
  intros E. unfold exists_row. rewrite E. destruct (decide (k' = k)) as [->|Hne].
  - by rewrite lookup_insert_eq, bool_decide_eq_true_2.
  - by rewrite lookup_insert_ne, bool_decide_eq_false_2.
Qed.
Lemma stored_lookup `{Countable K} {V} (t : Table K V) d k :
  stored t d k = true ↔ is_Some (t_rows t d !! k).
Proof. unfold stored. by rewrite bool_decide_eq_true. Qed.

(** The parts of the invariant and of [control_keeps] that are about other tables. *)
Ltac frame_ok Hok :=
  split;
  first
    [ exact (ok_members _ Hok) | exact (ok_app _ Hok) | exact (ok_profile _ Hok)
    | exact (ok_sign_in _ Hok) | exact (ok_identities _ Hok) | exact (ok_subjects _ Hok)
    | exact (ok_authorities _ Hok) | exact (ok_issuers _ Hok) | exact (ok_tokens _ Hok)
    | exact (ok_audit _ Hok) | exact (ok_platform_audit _ Hok) | exact (ok_receipts _ Hok)
    | exact (ok_challenges _ Hok) | idtac ].
Ltac frame_keeps :=
  split; first [ reflexivity | exact (λ H, H) | idtac ].

Section tables.
Implicit Types (d : ControlDb) (k : string).

Lemma put_profile d k v : control_ok d →
  control_ok (put Profiles k v d) ∧ control_keeps d (put Profiles k v d).
Proof.
  intros Hok. split.
  - frame_ok Hok. intros a Ha. cbn. destruct (decide (a = k)) as [->|Hne].
    + rewrite lookup_insert_eq. by eexists.
    + rewrite lookup_insert_ne by done. by apply (ok_profile _ Hok).
  - frame_keeps. apply evolves_insert; [apply _|]. by case_match.
Qed.

Lemma put_meta d k v : control_ok d →
  control_ok (put ControlMeta k v d) ∧ control_keeps d (put ControlMeta k v d).
Proof. intros Hok. split; [frame_ok Hok | frame_keeps]. Qed.
Lemma put_challenge d k v : control_ok d → challenge_ok v →
  control_ok (put EmailChallenges k v d) ∧ control_keeps d (put EmailChallenges k v d).
Proof.
  intros Hok Hv. split; [frame_ok Hok | frame_keeps]. intros i c. cbn.
  intros [[_ <-]|[_ Hc]]%lookup_insert_Some; [done|]. by eapply (ok_challenges _ Hok).
Qed.
Lemma put_inspection_key d key v : control_ok d →
  control_ok (put InspectionKeys key v d) ∧ control_keeps d (put InspectionKeys key v d).
Proof. intros Hok. split; [frame_ok Hok | frame_keeps]. Qed.
Lemma put_platform_receipt d key v : control_ok d → cas_platform_invitation_idempotency d !! key = None →
  control_ok (put PlatformIdempotency key v d) ∧ control_keeps d (put PlatformIdempotency key v d).
Proof.
  intros Hok Hk. split; [frame_ok Hok | frame_keeps]. apply evolves_insert; [apply _|]. cbn. by rewrite Hk.
Qed.
Lemma put_invitation_receipt d key v : control_ok d → cas_account_app_invitation_idempotency d !! key = None →
  control_ok (put AppInvitationIdempotency key v d) ∧ control_keeps d (put AppInvitationIdempotency key v d).
Proof.
  intros Hok Hk. split; [frame_ok Hok | frame_keeps]. apply evolves_insert; [apply _|]. cbn. by rewrite Hk.
Qed.
Lemma put_receipt d key v : control_ok d → cas_account_app_idempotency d !! key = None →
  app_stored d (app_appId (ax_response v)) = true →
  ax_expires_at v = ap_created_at (app_row (ax_response v)) + CAS_ADMIN_IDEMPOTENCY_RETENTION_MS →
  control_ok (put AppIdempotency key v d) ∧ control_keeps d (put AppIdempotency key v d).
Proof.
  intros Hok Hk Happ Hexp. split.
  - frame_ok Hok. intros k' r. cbn. intros [[<- <-]|[_ Hr]]%lookup_insert_Some; [done|].
    by eapply (ok_receipts _ Hok).
  - frame_keeps. apply evolves_insert; [apply _|]. cbn. by rewrite Hk.
Qed.
Lemma put_audit d k v : control_ok d → cas_control_audit_events d !! k = None →
  identity_of d (ca_external_identity_id v) (ca_original_account_id v) →
  control_ok (put ControlAudit k v d) ∧ control_keeps d (put ControlAudit k v d).
Proof.
  intros Hok Hk Hi. split.
  - frame_ok Hok. intros e r. cbn. intros [[<- <-]|[_ Hr]]%lookup_insert_Some; [done|].
    by eapply (ok_audit _ Hok).
  - frame_keeps. apply evolves_insert; [apply _|]. cbn. by rewrite Hk.
Qed.
Lemma put_platform_audit d k v : control_ok d → cas_platform_audit_events d !! k = None →
  identity_of d (pa_actor_external_identity_id v) (pa_actor_account_id v) →
  control_ok (put PlatformAudit k v d) ∧ control_keeps d (put PlatformAudit k v d).
Proof.
  intros Hok Hk Hi. split.
  - frame_ok Hok. intros e r. cbn. intros [[<- <-]|[_ Hr]]%lookup_insert_Some; [done|].
    by eapply (ok_platform_audit _ Hok).
  - frame_keeps. apply evolves_insert; [apply _|]. cbn. by rewrite Hk.
Qed.
Lemma put_platform_invitation d k v : control_ok d →
  match cas_platform_invitations d !! k with Some w => platform_invitation_evolves w v | None => True end →
  control_ok (put PlatformInvitations k v d) ∧ control_keeps d (put PlatformInvitations k v d).
Proof.
  intros Hok Hk. split; [frame_ok Hok | frame_keeps]. by apply evolves_insert; [apply _|].
Qed.
Lemma put_inspection d k v : control_ok d →
  match cas_oauth_issuer_inspections d !! k with Some w => inspection_evolves w v | None => True end →
  control_ok (put OAuthInspections k v d) ∧ control_keeps d (put OAuthInspections k v d).
Proof.
  intros Hok Hk. split; [frame_ok Hok | frame_keeps]. by apply evolves_insert; [apply _|].
Qed.

(** A unique key nobody else has. *)
Lemma mcount_zero_none {V} (p : V → bool) (m : gmap string V) k v :
  mcount (λ _, p) m =? 0 = true → m !! k = Some v → p v = false.
Proof. intros Hm%Z.eqb_eq Hk. by eapply (proj1 (mcount_zero _ _) Hm). Qed.

Lemma put_invitation d k v : control_ok d →
  mcount (λ _ r, bool_decide (ai_token_hash r = ai_token_hash v)) (delete k (cas_app_member_invitations d))
    =? 0 = true →
  match cas_app_member_invitations d !! k with Some w => invitation_evolves w v | None => True end →
  control_ok (put AppInvitations k v d) ∧ control_keeps d (put AppInvitations k v d).
Proof.
  intros Hok Hu Hk.
  assert (∀ i r, i ≠ k → cas_app_member_invitations d !! i = Some r → ai_token_hash r ≠ ai_token_hash v) as Hf.
  { intros i r Hne Hr E. rewrite <-(lookup_delete_ne _ k) in Hr by done.
    pose proof (mcount_zero_none _ _ _ _ Hu Hr) as Hb. cbv beta in Hb. by rewrite bool_decide_eq_true_2 in Hb. }
  split.
  - frame_ok Hok. intros i j r s. cbn.
    intros [[<- <-]|[Hi Hr]]%lookup_insert_Some [[<- <-]|[Hj Hs]]%lookup_insert_Some E; [done| | |].
    + by destruct (Hf j s).
    + by destruct (Hf i r).
    + by eapply (ok_tokens _ Hok).
  - frame_keeps. by apply evolves_insert; [apply _|].
Qed.
Lemma put_issuer d k v : control_ok d →
  mcount (λ _ r, bool_decide (im_issuer (is_metadata r) = im_issuer (is_metadata v)))
    (delete k (cas_app_oauth_issuers d)) =? 0 = true →
  match cas_app_oauth_issuers d !! k with Some w => issuer_evolves w v | None => True end →
  control_ok (put OAuthIssuers k v d) ∧ control_keeps d (put OAuthIssuers k v d).
Proof.
  intros Hok Hu Hk.
  assert (∀ i r, i ≠ k → cas_app_oauth_issuers d !! i = Some r →
    im_issuer (is_metadata r) ≠ im_issuer (is_metadata v)) as Hf.
  { intros i r Hne Hr E. rewrite <-(lookup_delete_ne _ k) in Hr by done.
    pose proof (mcount_zero_none _ _ _ _ Hu Hr) as Hb. cbv beta in Hb. by rewrite bool_decide_eq_true_2 in Hb. }
  split.
  - frame_ok Hok. intros i j r s. cbn.
    intros [[<- <-]|[Hi Hr]]%lookup_insert_Some [[<- <-]|[Hj Hs]]%lookup_insert_Some E; [done| | |].
    + by destruct (Hf j s).
    + by destruct (Hf i r).
    + by eapply (ok_issuers _ Hok).
  - frame_keeps. by apply evolves_insert; [apply _|].
Qed.

Lemma stored_put_same `{Countable K} {V} (t : Table K V) d (k : K) v (k' : K) :
  t_rows t (put t k v d) = <[k := v]> (t_rows t d) → is_Some (t_rows t d !! k) →
  stored t (put t k v d) k' = stored t d k'.
Proof.
  intros E Hk. rewrite stored_put by done. destruct (decide (k' = k)) as [->|Hne].
  - rewrite bool_decide_eq_true_2 by done. symmetry. by apply stored_lookup.
  - by rewrite bool_decide_eq_false_2.
Qed.

Lemma usable_put d k v a : usable_account (put Accounts k v d) a
  = if bool_decide (a = k) then bool_decide (ac_blocked_at v = None) else usable_account d a.
Proof. unfold usable_account. by rewrite exists_row_put. Qed.

Lemma put_account d k v w : control_ok d → cas_accounts d !! k = Some w → account_evolves w v →
  (ac_blocked_at w = None → ac_blocked_at v = None) →
  control_ok (put Accounts k v d) ∧ control_keeps d (put Accounts k v d).
Proof.
  intros Hok Hk He Hb. split.
  - assert (∀ a, account_stored (put Accounts k v d) a = account_stored d a) as Hs.
    { intros a. apply stored_put_same; [done|]. cbn. by rewrite Hk. }
    frame_ok Hok.
    + intros app a Hm. rewrite Hs. by apply (ok_members _ Hok).
    + intros a. rewrite Hs. apply (ok_profile _ Hok).
    + intros a. rewrite Hs. apply (ok_sign_in _ Hok).
    + intros i r. rewrite Hs. apply (ok_identities _ Hok).
    + intros a au. rewrite Hs. apply (ok_authorities _ Hok).
  - frame_keeps.
    + apply evolves_insert; [apply _|]. cbn. by rewrite Hk.
    + intros (a & Ha & Hu). exists a. split; [exact Ha|]. rewrite usable_put.
      destruct (decide (a = k)) as [->|Hne]; [|by rewrite bool_decide_eq_false_2].
      rewrite (bool_decide_eq_true_2 (k = k)) by done. apply bool_decide_eq_true_2, Hb.
      unfold usable_account, exists_row in Hu. cbn in Hu. rewrite Hk in Hu. by apply bool_decide_eq_true in Hu.
Qed.

Lemma active_put d k v i a : active_identity (put Identities k v d) i a
  = if bool_decide (i = k)
    then bool_decide (id_account_id v = a) && bool_decide (id_unlinked_at v = None)
    else active_identity d i a.
Proof. unfold active_identity. by rewrite exists_row_put. Qed.

Lemma identity_of_put d k v i a :
  match cas_external_identities d !! k with Some w => identity_evolves w v | None => True end →
  identity_of d i a → identity_of (put Identities k v d) i a.
Proof.
  intros Hk (r & Hr & <-). unfold identity_of. cbn. destruct (decide (i = k)) as [->|Hne].
  - exists v. rewrite lookup_insert_eq, Hr in *. split; [done|]. by destruct Hk.
  - exists r. by rewrite lookup_insert_ne.
Qed.

Lemma put_identity d k v : control_ok d → account_stored d (id_account_id v) = true →
  negb (bool_decide (id_unlinked_at v = None))
    || (mcount (λ _, same_subject (id_issuer v) (id_subject v)) (delete k (cas_external_identities d)) =? 0)
    = true →
  match cas_external_identities d !! k with Some w => identity_evolves w v | None => True end →
  (∀ a, account_stored d a = true → ∃ i, active_identity (put Identities k v d) i a = true) →
  control_ok (put Identities k v d) ∧ control_keeps d (put Identities k v d).
Proof.
  intros Hok Ha Hu Hk Hsign.
  assert (∀ i r, i ≠ k → cas_external_identities d !! i = Some r → id_unlinked_at v = None →
    id_unlinked_at r = None → id_issuer r = id_issuer v → id_subject r = id_subject v → False) as Hf.
  { intros i r Hne Hr Hv Hn E1 E2. rewrite <-(lookup_delete_ne _ k) in Hr by done.
    rewrite (bool_decide_eq_true_2 (id_unlinked_at v = None)) in Hu by done.
    pose proof (mcount_zero_none _ _ _ _ Hu Hr) as Hb. unfold same_subject in Hb.
    by rewrite !bool_decide_eq_true_2 in Hb. }
  split.
  - frame_ok Hok.
    + exact Hsign.
    + intros i r. cbn. intros [[<- <-]|[_ Hr]]%lookup_insert_Some; [done|]. by eapply (ok_identities _ Hok).
    + intros i j r s. cbn.
      intros [[<- <-]|[Hi Hr]]%lookup_insert_Some [[<- <-]|[Hj Hs]]%lookup_insert_Some En Em E1 E2; [done| | |].
      * by destruct (Hf j s).
      * by destruct (Hf i r).
      * by eapply (ok_subjects _ Hok).
    + intros e r Hr. apply identity_of_put; [done|]. by eapply (ok_audit _ Hok).
    + intros e r Hr. apply identity_of_put; [done|]. by eapply (ok_platform_audit _ Hok).
  - frame_keeps. by apply evolves_insert; [apply _|].
Qed.
(** A new identity takes none away. *)
Lemma put_new_identity d k v : control_ok d → cas_external_identities d !! k = None →
  account_stored d (id_account_id v) = true →
  negb (bool_decide (id_unlinked_at v = None))
    || (mcount (λ _, same_subject (id_issuer v) (id_subject v)) (cas_external_identities d) =? 0) = true →
  control_ok (put Identities k v d) ∧ control_keeps d (put Identities k v d).
Proof.
  intros Hok Hk Ha Hu. apply put_identity; try done.
  - by rewrite delete_id.
  - by rewrite Hk.
  - intros a Hs. destruct (ok_sign_in _ Hok a Hs) as (i & Hi). exists i. rewrite active_put.
    destruct (decide (i = k)) as [->|Hne]; [|by rewrite bool_decide_eq_false_2].
    unfold active_identity, exists_row in Hi. cbn in Hi. by rewrite Hk in Hi.
Qed.

Lemma put_authority d key v : control_ok d → account_stored d (fst key) = true →
  control_ok (put Authorities key v d) ∧ control_keeps d (put Authorities key v d).
Proof.
  intros Hok Ha.
  assert (∀ a au, has_authority (put Authorities key v d) a au
    = bool_decide ((a, au) = key) || has_authority d a au) as Hs by (intros; by apply stored_put).
  split.
  - frame_ok Hok. intros a au. rewrite Hs. intros [<-%bool_decide_eq_true|H]%orb_true_iff; [done|].
    by eapply (ok_authorities _ Hok).
  - frame_keeps. intros (a & Hadm & Hu). exists a. split; [|exact Hu]. rewrite Hs, Hadm. apply orb_true_r.
Qed.

Lemma put_member d app a v : control_ok d → app_stored d app = true → account_stored d a = true →
  control_ok (put AppMembers (app, a) v d) ∧ control_keeps d (put AppMembers (app, a) v d).
Proof.
  intros Hok Happ Ha.
  assert (∀ p b, is_member (put AppMembers (app, a) v d) p b
    = bool_decide ((p, b) = (app, a)) || is_member d p b) as Hs by (intros; by apply stored_put).
  split; [|frame_keeps]. frame_ok Hok.
  - intros p b. rewrite Hs. intros [[= -> ->]%bool_decide_eq_true|H]%orb_true_iff; [done|].
    by apply (ok_members _ Hok).
  - intros p Hp. destruct (ok_app _ Hok p Hp) as (b & Hb). exists b. rewrite Hs, Hb. apply orb_true_r.
Qed.

Lemma put_app d k v w : control_ok d → cas_apps d !! k = Some w → app_evolves w v →
  control_ok (put Apps k v d) ∧ control_keeps d (put Apps k v d).
Proof.
  intros Hok Hk He.
  assert (∀ p, app_stored (put Apps k v d) p = app_stored d p) as Hs.
  { intros p. apply stored_put_same; [done|]. cbn. by rewrite Hk. }
  split.
  - frame_ok Hok.
    + intros p a Hm. rewrite Hs. by apply (ok_members _ Hok).
    + intros p. rewrite Hs. apply (ok_app _ Hok).
    + intros p r Hr. rewrite Hs. by eapply (ok_receipts _ Hok).
  - frame_keeps. apply evolves_insert; [apply _|]. cbn. by rewrite Hk.
Qed.
End tables.
