(* ===== verification/ControlCommands.v ===== *)
(** Every command keeps the invariant of the control database and what never goes
    back ([command_runs]), whoever runs it and in whatever order. *)
From S2P Require Import Prelude Js MapSum ControlStore AccountBatches InvitationBatches.
From S2P Require Import ControlWorld ControlInv ControlRuns.

(** * Statements that rely on stable facts *)

Definition stable_fact (R : ControlDb → Prop) : Prop := ∀ d d', control_keeps d d' → R d → R d'.
Definition fine (R : ControlDb → Prop) (s : cstmt) : Prop := runs R [s] (λ _, True).

Lemma runs_fine R s : stable_fact R → fine R s → runs R [s] R.
Proof.
  intros HR Hs. eapply runs_weaken; [exact (runs_stable _ _ R _ HR Hs)|by intros d ?|by intros d [_ ?]].
Qed.
Lemma runs_all R l : stable_fact R → Forall (fine R) l → runs R l R.
Proof.
  intros HR. induction 1 as [|s l Hs Hl IH]; [by apply runs_nil|].
  eapply runs_cons; [by apply runs_fine|done].
Qed.

Lemma stable_True : stable_fact (λ _, True).
Proof. by intros d d'. Qed.
Lemma stable_both R1 R2 : stable_fact R1 → stable_fact R2 → stable_fact (λ d, R1 d ∧ R2 d).
Proof. intros H1 H2 d d' Hk [? ?]. split; eauto. Qed.
Lemma stable_identity_of i a : stable_fact (λ d, identity_of d i a).
Proof.
  intros d d' Hk (r & Hr & Ha). destruct (kp_identities _ _ Hk _ _ Hr) as (r' & Hr' & [E _]).
  exists r'. by rewrite E.
Qed.
Lemma stable_account a : stable_fact (λ d, account_stored d a = true).
Proof.
  intros d d' Hk Ha. apply stored_lookup in Ha as [r Hr].
  destruct (kp_accounts _ _ Hk _ _ Hr) as (r' & Hr' & _). apply stored_lookup. by exists r'.
Qed.
Lemma stable_app p : stable_fact (λ d, app_stored d p = true).
Proof.
  intros d d' Hk Ha. apply stored_lookup in Ha as [r Hr].
  destruct (kp_apps _ _ Hk _ _ Hr) as (r' & Hr' & _). apply stored_lookup. by exists r'.
Qed.

Lemma active_identity_of d i a : active_identity d i a = true → identity_of d i a.
Proof.
  unfold active_identity, exists_row, identity_of. cbn. destruct (cas_external_identities d !! i) as [r|]; [|done].
  intros [E%bool_decide_eq_true _]%andb_true_iff. by exists r.
Qed.
Lemma usable_stored d a : usable_account d a = true → account_stored d a = true.
Proof.
  unfold usable_account, exists_row, account_stored, stored. cbn. by destruct (cas_accounts d !! a).
Qed.
Lemma version_stored d a v : exists_row Accounts d a (at_version v) = true → account_stored d a = true.
Proof. unfold exists_row, account_stored, stored. cbn. by destruct (cas_accounts d !! a). Qed.

Create HintDb control discriminated.

Section fine.
Context (R : ControlDb → Prop).

Lemma fine_changed : fine R require_changed.
Proof. eapply runs_weaken; [apply (runs_changed R)|done..]. Qed.
Lemma fine_snapshot_init c : fine R (snapshot_init c).
Proof.
  apply runs_insert_or_ignore; [|done]. intros d Hok _ _ _ _. by destruct (put_meta d "snapshot" 0 Hok).
Qed.
Lemma fine_snapshot_bump c : fine R (snapshot_bump c).
Proof. apply runs_update; [|done]. intros d v Hok _ _ _ _. by destruct (put_meta d "snapshot" (v + 1) Hok). Qed.
Lemma fine_when s : fine R s → fine R (when_changed s).
Proof. intros H. by apply runs_when. Qed.
Lemma fine_profile a p f : fine R (update_row Profiles a p f).
Proof. apply runs_update; [|done]. intros d v Hok _ _ _ _. by destruct (put_profile d a (f v) Hok). Qed.
Lemma fine_challenge i p f : (∀ d v, challenge_ok v → p d v = true → challenge_ok (f v)) →
  fine R (update_row EmailChallenges i p f).
Proof.
  intros Hf. apply runs_update; [|done]. intros d v Hok _ Hv Hp _.
  by destruct (put_challenge d i (f v) Hok (Hf d v (ok_challenges _ Hok i v Hv) Hp)).
Qed.
Lemma fine_new_challenge c i v : challenge_ok v → fine R (insert_where EmailChallenges c i v).
Proof. intros Hv. apply runs_insert_where; [|done]. intros d Hok _ _ _ _. by destruct (put_challenge d i v Hok Hv). Qed.
Lemma fine_delete_challenges p : fine R (delete_rows EmailChallenges p).
Proof.
  apply runs_single. intros d n d' n' Hok _ [= <- _]. split_and!; [frame_ok Hok|frame_keeps|done].
  intros i c. cbn. intros [Hc _]%map_lookup_filter_Some. by eapply (ok_challenges _ Hok).
Qed.

Lemma fine_audit_where c e row :
  (∀ d, R d → c d = true → identity_of d (ca_external_identity_id row) (ca_original_account_id row)) →
  fine R (insert_where ControlAudit c e row).
Proof.
  intros Hi. apply runs_insert_where; [|done]. intros d Hok [HR Hc] Hk _ _.
  destruct (put_audit d e row Hok Hk (Hi d HR Hc)). done.
Qed.
Lemma fine_audit e row :
  (∀ d, R d → identity_of d (ca_external_identity_id row) (ca_original_account_id row)) →
  fine R (insert_row ControlAudit e row).
Proof.
  intros Hi. apply runs_insert. intros d Hok HR Hk _ _. destruct (put_audit d e row Hok Hk (Hi d HR)). done.
Qed.
Lemma fine_platform_audit e row :
  (∀ d, R d → identity_of d (pa_actor_external_identity_id row) (pa_actor_account_id row)) →
  fine R (insert_row PlatformAudit e row).
Proof.
  intros Hi. apply runs_insert. intros d Hok HR Hk _ _.
  destruct (put_platform_audit d e row Hok Hk (Hi d HR)). done.
Qed.
Lemma fine_app_audit actor caller app action target e now :
  fine R (appAuditStatement actor caller app action target e now).
Proof. apply fine_audit_where. intros d _ Hc. by apply active_identity_of. Qed.

Lemma fine_increment a version now : fine R (increment_version a version now).
Proof.
  apply runs_update; [|done]. intros d v Hok _ Hv _ _.
  edestruct (put_account d a (next_version now v) v Hok Hv) as [? ?]; [|done|done].
  split; cbn; [lia|by intros ?].
Qed.
Lemma fine_primary a email now : fine R (initialize_primary a email now).
Proof.
  apply runs_update; [|done]. intros d v Hok _ Hv _ _.
  match goal with |- context [put Accounts a ?x d] => destruct (put_account d a x v Hok Hv) end; done.
Qed.
Lemma fine_grant a au granted now : (∀ d, R d → account_stored d a = true) →
  fine R (grant_authority a au granted now).
Proof.
  intros Ha. apply runs_insert_or_ignore; [|done]. intros d Hok [HR _] _ _ _.
  by destruct (put_authority d (a, au) now Hok (Ha d HR)).
Qed.
Lemma fine_member c app a now : fine R (insert_or_ignore AppMembers c (app, a) now).
Proof.
  apply runs_insert_or_ignore; [|done]. intros d Hok _ _ _ [Hp Ha]%andb_true_iff.
  by destruct (put_member d app a now Hok Hp Ha).
Qed.
Lemma fine_invitation i p status : status ≠ Pending →
  (∀ d r, p d r = true → ai_status r = Pending) →
  fine R (update_row AppInvitations i p (set_invitation_status status)).
Proof.
  intros Hs Hp. apply runs_update; [|done]. intros d v Hok _ Hv Hpv Hu.
  specialize (Hp d v Hpv). edestruct (put_invitation d i (set_invitation_status status v) Hok Hu) as [? ?]; [|done].
  cbn in Hv. rewrite Hv. split_and!; cbn; try done; lia.
Qed.
Lemma fine_platform_invitation i p status :
  (∀ d r, p d r = true → pi_status r = Pending) →
  fine R (update_row PlatformInvitations i p (set_platform_status status)).
Proof.
  intros Hp. apply runs_update; [|done]. intros d v Hok _ Hv Hpv Hu.
  specialize (Hp d v Hpv). edestruct (put_platform_invitation d i (set_platform_status status v) Hok) as [? ?]; [|done].
  cbn in Hv. rewrite Hv. split_and!; cbn; try done; lia.
Qed.
End fine.

#[export] Hint Resolve fine_changed fine_snapshot_init fine_snapshot_bump fine_when fine_profile
  fine_delete_challenges fine_app_audit fine_increment
  fine_primary fine_member : control.

(** * Statements that rely on one another *)

Lemma run_cons_inv s l d n d' n' : run_statements (s :: l) (d, n) = Ok (d', n') →
  ∃ d1 n1, s (d, n) = Ok (d1, n1) ∧ run_statements l (d1, n1) = Ok (d', n').
Proof. cbn. destruct (s (d, n)) as [[d1 n1]|]; [|done]. eauto. Qed.

Lemma stored_fresh `{Countable K} {V} (t : Table K V) d (k : K) : t_rows t d !! k = None → stored t d k = false.
Proof. intros E. unfold stored. rewrite E. by apply bool_decide_eq_false_2; intros [??]. Qed.

(** An account comes with a profile and an identity. *)
Lemma runs_new_account a i account profile identity :
  id_account_id identity = a → id_unlinked_at identity = None →
  runs (λ _, True) (create_account_batch a i account profile identity) (λ _, True).
Proof.
  intros Ha Hn d n d' n' Hok _ Hrun.
  apply run_cons_inv in Hrun as (d1 & n1 & H1 & Hrun). apply run_cons_inv in Hrun as (d2 & n2 & H2 & Hrun).
  apply run_cons_inv in Hrun as (d3 & n3 & H3 & [= <- <-]).
  apply insert_row_inv in H1 as (-> & _ & Ka & _ & _ & _).
  apply insert_row_inv in H2 as (-> & _ & Kp & _ & _ & _).
  apply insert_row_inv in H3 as (-> & _ & Ki & _ & Hu & _).
  set (d' := put Identities i identity (put Profiles a profile (put Accounts a account d))).
  assert (∀ b, account_stored d' b = bool_decide (b = a) || account_stored d b) as Hs
    by (intros b; exact (stored_put Accounts d a account b eq_refl)).
  assert (∀ j b, active_identity d' j b = if bool_decide (j = i) then bool_decide (a = b) else active_identity d j b) as Hact.
  { intros j b. unfold d'. rewrite active_put, Ha, Hn. by rewrite andb_true_r. }
  assert (∀ j b, identity_of d j b → identity_of d' j b) as Hof.
  { intros j b Hj. apply (identity_of_put (put Profiles a profile (put Accounts a account d)) i identity j b); [|done].
    cbn in Ki |- *. by rewrite Ki. }
  assert (∀ b, account_stored d b = true → account_stored d' b = true) as Hmono.
  { intros b Hb. rewrite Hs, Hb. apply orb_true_r. }
  split; [|split; [|done]].
  - split.
    + intros app b Hm. destruct (ok_members _ Hok app b Hm). auto.
    + exact (ok_app _ Hok).
    + intros b. rewrite Hs. cbn. intros Hb. destruct (decide (b = a)) as [->|Hne].
      * rewrite lookup_insert_eq. by eexists.
      * rewrite lookup_insert_ne by done. apply (ok_profile _ Hok). by rewrite bool_decide_eq_false_2 in Hb.
    + intros b. rewrite Hs. intros Hb. destruct (decide (b = a)) as [->|Hne].
      * exists i. rewrite Hact. by rewrite !bool_decide_eq_true_2.
      * rewrite bool_decide_eq_false_2 in Hb by done. destruct (ok_sign_in _ Hok b Hb) as (j & Hj).
        exists j. rewrite Hact. destruct (decide (j = i)) as [->|Hji]; [|by rewrite bool_decide_eq_false_2].
        unfold active_identity, exists_row in Hj. cbn in Hj, Ki. by rewrite Ki in Hj.
    + intros j r. cbn. intros [[<- <-]|[_ Hr]]%lookup_insert_Some.
      * rewrite Ha, Hs. by rewrite bool_decide_eq_true_2.
      * apply Hmono. by eapply (ok_identities _ Hok).
    + assert (∀ j r, j ≠ i → cas_external_identities d !! j = Some r → id_unlinked_at r = None →
        id_issuer r = id_issuer identity → id_subject r = id_subject identity → False) as Hf.
      { intros j r Hne Hr Hr' E1 E2. cbn in Hu. rewrite Hn in Hu. rewrite bool_decide_eq_true_2 in Hu by done.
        pose proof (mcount_zero_none _ _ _ _ Hu Hr) as Hb. unfold same_subject in Hb.
        by rewrite !bool_decide_eq_true_2 in Hb. }
      intros j k r s. cbn.
      intros [[<- <-]|[Hi Hr]]%lookup_insert_Some [[<- <-]|[Hj Hs']]%lookup_insert_Some En Em E1 E2; [done| | |].
      * by destruct (Hf k s).
      * by destruct (Hf j r).
      * by eapply (ok_subjects _ Hok).
    + intros b au H. apply Hmono. by eapply (ok_authorities _ Hok).
    + exact (ok_issuers _ Hok).
    + exact (ok_tokens _ Hok).
    + intros e r Hr. apply Hof. by eapply (ok_audit _ Hok).
    + intros e r Hr. apply Hof. by eapply (ok_platform_audit _ Hok).
    + exact (ok_receipts _ Hok).
    + exact (ok_challenges _ Hok).
  - frame_keeps.
    + apply evolves_insert; [apply _|]. by rewrite Ka.
    + apply evolves_insert; [apply _|]. cbn in Kp |- *. by rewrite Kp.
    + apply evolves_insert; [apply _|]. cbn in Ki |- *. by rewrite Ki.
    + intros (b & Hadm & Hub). exists b. split; [exact Hadm|].
      change (usable_account d' b) with (usable_account (put Accounts a account d) b). rewrite usable_put.
      destruct (decide (b = a)) as [->|Hne]; [|by rewrite bool_decide_eq_false_2].
      apply usable_stored in Hub. by rewrite (stored_fresh Accounts) in Hub.
Qed.

(** An identity is unlinked while another one remains. *)
Lemma runs_unlink a target remaining now :
  runs (λ d, bool_decide (target ≠ remaining) && active_identity d target a
             && active_identity d remaining a && (2 <=? active_count d a) = true)
    [update_row Identities target
       (λ _ r, bool_decide (id_account_id r = a) && bool_decide (id_unlinked_at r = None))
       (unlink_identity now); require_changed] (λ _, True).
Proof.
  apply runs_update_changed. intros d v Hok HP Hv Hp Hu.
  apply andb_true_iff in HP as [[[Hne%bool_decide_eq_true _]%andb_true_iff Hrem]%andb_true_iff _].
  apply andb_true_iff in Hp as [Hacc%bool_decide_eq_true Hlinked%bool_decide_eq_true].
  cbn in Hv. destruct (put_identity d target (unlink_identity now v) Hok) as [? ?]; [| |  | |done].
  - cbn. by eapply (ok_identities _ Hok).
  - done.
  - rewrite Hv. by split_and!.
  - intros b Hb. destruct (ok_sign_in _ Hok b Hb) as (j & Hj).
    destruct (decide (j = target)) as [->|Hj'].
    + exists remaining. rewrite active_put, bool_decide_eq_false_2 by done.
      unfold active_identity, exists_row in Hj. cbn in Hj. rewrite Hv in Hj.
      apply andb_true_iff in Hj as [E%bool_decide_eq_true _]. by rewrite <- E, Hacc.
    + exists j. by rewrite active_put, bool_decide_eq_false_2.
Qed.

(** An App comes with a member. *)
Lemma runs_new_app app row a created : 
  runs (λ d, account_stored d a = true)
    [insert_row Apps app row; insert_row AppMembers (app, a) created] (λ d, app_stored d app = true).
Proof.
  intros d n d' n' Hok Hacc Hrun.
  apply run_cons_inv in Hrun as (d1 & n1 & H1 & Hrun). apply run_cons_inv in Hrun as (d2 & n2 & H2 & [= <- <-]).
  apply insert_row_inv in H1 as (-> & _ & Ka & _). apply insert_row_inv in H2 as (-> & _ & Km & _).
  set (d' := put AppMembers (app, a) created (put Apps app row d)).
  assert (∀ p, app_stored d' p = bool_decide (p = app) || app_stored d p) as Hs
    by (intros p; exact (stored_put Apps d app row p eq_refl)).
  assert (∀ p b, is_member d' p b = bool_decide ((p, b) = (app, a)) || is_member d p b) as Hm
    by (intros p b; exact (stored_put AppMembers (put Apps app row d) (app, a) created (p, b) eq_refl)).
  assert (∀ p, app_stored d p = true → app_stored d' p = true) as Hmono
    by (intros p Hp; rewrite Hs, Hp; apply orb_true_r).
  split; [|split; [|rewrite Hs; by rewrite bool_decide_eq_true_2]].
  - frame_ok Hok.
    + intros p b. rewrite Hm. intros [[= -> ->]%bool_decide_eq_true|Hb]%orb_true_iff.
      * rewrite Hs, bool_decide_eq_true_2 by done. done.
      * destruct (ok_members _ Hok p b Hb). auto.
    + intros p. rewrite Hs. intros [->%bool_decide_eq_true|Hp]%orb_true_iff.
      * exists a. by rewrite Hm, bool_decide_eq_true_2.
      * destruct (ok_app _ Hok p Hp) as (b & Hb). exists b. rewrite Hm, Hb. apply orb_true_r.
    + intros k r Hr. destruct (ok_receipts _ Hok k r Hr). auto.
  - frame_keeps. apply evolves_insert; [apply _|]. by rewrite Ka.
Qed.

(** A member leaves while another one stays. *)
Definition may_leave (app target : string) (d : ControlDb) : Prop :=
  negb (is_member d app target) || (1 <? member_count d app) = true.
Lemma runs_delete_member app target c :
  runs (may_leave app target) [delete_row AppMembers (app, target) c] (λ _, True).
Proof.
  apply runs_single. intros d n d' n' Hok HP. unfold delete_row.
  destruct (stored AppMembers d (app, target)) eqn:Hst; [|intros [= <- <-]; by split_and!].
  destruct (c d); cbn; [|intros [= <- <-]; by split_and!]. intros [= <- _].
  set (d' := set_app_members (delete (app, target) (cas_app_members d)) d).
  assert (∀ p b, is_member d' p b = true ↔ (p, b) ≠ (app, target) ∧ is_member d p b = true) as Hm.
  { intros p b. unfold is_member. rewrite !stored_lookup. cbn. rewrite lookup_delete_is_Some. naive_solver. }
  split; [|split; [frame_keeps|done]]. frame_ok Hok.
  - intros p b [_ Hb]%Hm. by apply (ok_members _ Hok).
  - intros p Hp. destruct (ok_app _ Hok p Hp) as (b & Hb).
    destruct (decide ((p, b) = (app, target))) as [[= -> ->]|Hne]; [|exists b; by apply Hm].
    unfold may_leave in HP. unfold is_member in HP. rewrite Hst in HP. apply Z.ltb_lt in HP.
    apply stored_lookup in Hst as [v Hv]. cbn in Hv.
    destruct (mcount_other _ _ _ _ HP Hv) as ([p' b'] & v' & Hne & Hk' & Hp'); [by apply bool_decide_eq_true_2|].
    apply bool_decide_eq_true in Hp'. cbn in Hp'. subst p'. exists b'. apply Hm. split; [done|].
    apply stored_lookup. by exists v'.
Qed.

(** An administrator is given up while another one remains. *)
Definition other_admin (target : string) (d : ControlDb) : Prop :=
  negb (has_authority d target PlatformAdmin)
  || exists_row Accounts d target (λ r, bool_decide (ac_blocked_at r ≠ None)) || (1 <? admin_count d) = true.
Lemma other_admin_spec target d : other_admin target d → is_admin d target →
  ∃ b, b ≠ target ∧ is_admin d b.
Proof.
  intros HP [Hadm Hu]. unfold other_admin in HP. rewrite Hadm in HP.
  assert (exists_row Accounts d target (λ r, bool_decide (ac_blocked_at r ≠ None)) = false) as Hb.
  { unfold usable_account, exists_row in *. destruct (t_rows Accounts d !! target); [|done].
    apply bool_decide_eq_true in Hu. apply bool_decide_eq_false_2. congruence. }
  rewrite Hb in HP. apply Z.ltb_lt in HP. pose proof Hadm as Hst. apply stored_lookup in Hst as [v Hv]. cbn in Hv.
  destruct (mcount_other _ _ _ _ HP Hv) as ([b au] & v' & Hne & Hk' & [Hau%bool_decide_eq_true Hub]%andb_true_iff).
  { cbn. by rewrite bool_decide_eq_true_2, Hu. }
  cbn in Hau, Hub. subst au. exists b. split; [congruence|]. split; [|done]. apply stored_lookup. by exists v'.
Qed.

Lemma runs_delete_authority target au c :
  runs (λ d, au = PlatformAdmin → other_admin target d) [delete_row Authorities (target, au) c] (λ _, True).
Proof.
  apply runs_single. intros d n d' n' Hok HP. unfold delete_row.
  destruct (stored Authorities d (target, au) && c d); cbn; [|intros [= <- <-]; by split_and!].
  intros [= <- _].
  set (d' := set_account_platform_authorities _ d).
  assert (∀ b x, has_authority d' b x = true ↔ (b, x) ≠ (target, au) ∧ has_authority d b x = true) as Hm.
  { intros p b. unfold has_authority. rewrite !stored_lookup. cbn. rewrite lookup_delete_is_Some. naive_solver. }
  split; [|split; [|done]].
  - frame_ok Hok. intros b x [_ Hb]%Hm. by eapply (ok_authorities _ Hok).
  - frame_keeps. intros (b & Hb & Hu).
    destruct (decide ((b, PlatformAdmin) = (target, au))) as [[= -> <-]|Hne].
    + destruct (other_admin_spec target d) as (b & Hbt & Hb' & Hu'); [by apply HP|done|].
      exists b. split; [|exact Hu']. apply Hm. split; [congruence|done].
    + exists b. split; [by apply Hm|exact Hu].
Qed.

Lemma runs_block target blocked now c :
  runs (λ d, blocked = true → other_admin target d)
    [update_row Accounts target c (if blocked then block_account now else restore_account now)] (λ _, True).
Proof.
  apply runs_update; [|done]. intros d v Hok HP Hv _ _. cbn in Hv. destruct blocked.
  - assert (∀ b, usable_account (put Accounts target (block_account now v) d) b
      = if bool_decide (b = target) then false else usable_account d b) as Hus by (intros b; by rewrite usable_put).
    (* the invariant does not look at blocks *)
    destruct (put_account d target (next_version now v) v Hok Hv) as [Hok1 _]; [split; cbn; [lia|done]|done|].
    assert (∀ b, account_stored (put Accounts target (block_account now v) d) b
      = account_stored (put Accounts target (next_version now v) d) b) as Hst by (intros b; unfold account_stored; by rewrite !stored_put).
    split; [|split; [|done]].
    + split.
      * intros p b. rewrite Hst. exact (ok_members _ Hok1 p b).
      * exact (ok_app _ Hok1).
      * intros b. rewrite Hst. exact (ok_profile _ Hok1 b).
      * intros b. rewrite Hst. exact (ok_sign_in _ Hok1 b).
      * intros i r. rewrite Hst. exact (ok_identities _ Hok1 i r).
      * exact (ok_subjects _ Hok1).
      * intros b au. rewrite Hst. exact (ok_authorities _ Hok1 b au).
      * exact (ok_issuers _ Hok1).
      * exact (ok_tokens _ Hok1).
      * exact (ok_audit _ Hok1).
      * exact (ok_platform_audit _ Hok1).
      * exact (ok_receipts _ Hok1).
      * exact (ok_challenges _ Hok1).
    + frame_keeps.
      * apply evolves_insert; [apply _|]. cbn. rewrite Hv. split; cbn; lia.
      * intros (b & Hb & Hu). destruct (decide (b = target)) as [->|Hne].
        -- destruct (other_admin_spec target d) as (b & Hbt & Hb' & Hu'); [by apply HP|done|].
           exists b. split; [exact Hb'|]. rewrite Hus. by rewrite bool_decide_eq_false_2.
        -- exists b. split; [exact Hb|]. rewrite Hus. by rewrite bool_decide_eq_false_2.
  - destruct (put_account d target (restore_account now v) v Hok Hv) as [? ?]; [|done|done].
    split; cbn; [lia|done].
Qed.

(** * Commands *)

#[export] Hint Resolve stable_True stable_both stable_identity_of stable_account stable_app : control.

(** What follows a guard, given a stable fact it establishes. *)
Lemma runs_guarded (R : ControlDb → Prop) c l : stable_fact R → (∀ d, c d = true → R d) →
  Forall (fine R) l → runs (λ _, True) (guard c :: l) (λ _, True).
Proof.
  intros HR Hc Hl. eapply runs_cons; [apply runs_guard|].
  eapply runs_weaken; [by apply (runs_all R)|intros d [_ Hd]; by apply Hc|done].
Qed.
Lemma runs_fines R l : stable_fact R → Forall (fine R) l → runs R l (λ _, True).
Proof. intros HR Hl. eapply runs_weaken; [by apply (runs_all R)|done..]. Qed.
(** A guard whose condition only holds now. *)
Lemma runs_guard_then (P : ControlDb → Prop) c l Q : runs (λ d, P d ∧ c d = true) l Q →
  runs P (guard c :: l) Q.
Proof. intros H. eapply runs_cons; [apply runs_guard|done]. Qed.

Ltac fines := repeat (apply Forall_cons; split); try apply Forall_nil_2; eauto with control.

Lemma account_actor_of d actor : account_actor d actor = true →
  identity_of d (actorExternalIdentityId actor) (actorAccountId actor)
  ∧ account_stored d (actorAccountId actor) = true.
Proof. intros [Hu Ha]%andb_true_iff. split; [by apply active_identity_of|by apply usable_stored]. Qed.

Lemma fine_consume R kind i token actor c e email now :
  Forall (fine R) (consume_challenge kind i token actor c e email now).
Proof. unfold consume_challenge. fines. by apply fine_challenge. Qed.

Lemma runs_link a version i identity name url now :
  id_account_id identity = a →
  runs (λ _, True) (link_identity_batch a version i identity name url now) (λ _, True).
Proof.
  intros Ha. apply (runs_guarded (λ d, account_stored d a = true)); [by auto with control| |].
  - intros d. apply version_stored.
  - unfold link_identity_batch. fines. apply runs_insert. intros d Hok Hst Hk Hu _.
    destruct (put_new_identity d i identity Hok Hk) as [? ?]; [by rewrite Ha|done|done].
Qed.
Lemma runs_unlink_batch a version target remaining now :
  runs (λ _, True) (unlink_identity_batch a version target remaining now) (λ _, True).
Proof.
  apply runs_guard_then, runs_guard_then. eapply runs_weaken; [|intros d [_ Hc]; exact Hc|done].
  apply (runs_app _ [_; _] (λ _, True)); [apply runs_unlink|].
  apply runs_fines; [by auto with control|]. fines.
Qed.
Lemma runs_profile a name avatar now :
  runs (λ _, True) (update_profile_batch a name avatar now) (λ _, True).
Proof.
  apply runs_fines; [by auto with control|]. unfold update_profile_batch. fines.
  apply runs_single. intros d n d' n' Hok _. unfold upsert_row. case_match; intros Hs.
  - apply update_row_inv in Hs as [[-> _]|(v & _ & _ & -> & _)]; [by split_and!|].
    by destruct (put_meta d "snapshot" (v + 1) Hok).
  - apply insert_row_inv in Hs as (-> & _). by destruct (put_meta d "snapshot" 1 Hok).
Qed.

Lemma fine_session_audit R actor caller action e now : fine R (session_audit_stmt actor caller action e now).
Proof. apply fine_audit_where. intros d _ Hc. by apply account_actor_of in Hc as [? _]. Qed.
Lemma fine_gc_audit R actor caller app e now : fine R (app_gc_audit_stmt actor caller app e now).
Proof.
  apply fine_audit_where. intros d _ [[_ Ha]%andb_true_iff _]%andb_true_iff. by apply active_identity_of.
Qed.

(** The audit of a change of the platform leaves accounts and authorities as they are. *)
Lemma runs_platform_audit P c e row :
  (∀ d, c d = true → identity_of d (pa_actor_external_identity_id row) (pa_actor_account_id row)) →
  (∀ d v, P d → P (put PlatformAudit e v d)) →
  runs P [insert_where PlatformAudit c e row] P.
Proof.
  intros Hi HP. apply runs_insert_where; [|done]. intros d Hok [Hd Hc] Hk _ _.
  destruct (put_platform_audit d e row Hok Hk (Hi d Hc)). split_and!; [done..|by apply HP].
Qed.

Lemma runs_authority actor target au grant e request now :
  runs (λ _, True) (platform_authority_batch actor target au grant e request now) (λ _, True).
Proof.
  apply runs_guard_then, runs_guard_then, runs_guard_then.
  eapply runs_weaken with (P := λ d, account_stored d target = true
    ∧ (grant = false → au = PlatformAdmin → other_admin target d));
    [|intros d [[_ Ht] Hg]; split; [exact Ht|]|done].
  - eapply runs_cons.
    { apply runs_platform_audit; [|done]. intros d [Hc _]%andb_true_iff. by apply active_identity_of. }
    eapply runs_cons; [|apply (runs_fines (λ _, True)); [by auto with control|unfold accountSnapshotStatements; fines]].
    destruct grant.
    + apply runs_insert_or_ignore; [|done]. intros d Hok [[Ht _] _] _ _ _.
      by destruct (put_authority d (target, au) now Hok Ht).
    + eapply runs_weaken; [apply runs_delete_authority|intros d [_ H]; by apply H|done].
  - intros -> ->. cbn in Hg. unfold other_admin. exact Hg.
Qed.
Lemma runs_blocked actor target blocked e request now :
  runs (λ _, True) (platform_block_batch actor target blocked e request now) (λ _, True).
Proof.
  apply runs_guard_then, runs_guard_then, runs_guard_then, runs_guard_then.
  eapply runs_weaken with (P := λ d, blocked = true → other_admin target d); [|intros d [_ Hg]|done].
  - eapply runs_cons.
    { apply runs_platform_audit; [|done]. intros d [Hc _]%andb_true_iff. by apply active_identity_of. }
    eapply runs_cons; [apply runs_block|].
    apply (runs_fines (λ _, True)); [by auto with control|unfold accountSnapshotStatements; fines].
  - intros ->. cbn in Hg. unfold other_admin. rewrite (orb_comm (negb _)). exact Hg.
Qed.

Lemma runs_create_app actor caller app idem e :
  command_ok (CreateApp actor caller app idem e) = true →
  runs (λ _, True) (create_app_batch actor caller app idem e) (λ _, True).
Proof.
  intros [_ Hidem]%andb_true_iff. apply runs_guard_then.
  set (R := λ d, identity_of d (actorExternalIdentityId actor) (actorAccountId actor)).
  apply (runs_app _ [_; _] (λ d, R d ∧ app_stored d (app_appId app) = true)).
  - eapply runs_weaken; [eapply (runs_stable _ _ R);
      [by apply stable_identity_of|apply (runs_new_app (app_appId app) (app_row app) (actorAccountId actor)
         (ap_created_at (app_row app)))]| |by intros d [? ?]].
    intros d [_ [[Hu Hi]%andb_true_iff _]%andb_true_iff].
    split; [by apply usable_stored|by apply active_identity_of].
  - apply runs_fines; [apply stable_both; [apply stable_identity_of|apply stable_app]|].
    apply Forall_cons; split; [|apply Forall_app_2].
    + apply fine_audit. by intros d [? _].
    + destruct idem as [[key row]|]; fines. apply andb_true_iff in Hidem as [Hidem%bool_decide_eq_true Hexp%Z.eqb_eq].
      apply runs_insert. intros d Hok [_ Happ] Hk _ _.
      destruct (put_receipt d (actorAccountId actor, key) row Hok Hk) as [? ?]; [by rewrite Hidem|by rewrite Hexp, Hidem|done].
    + unfold controlSnapshotStatements. fines.
Qed.
Lemma runs_patch actor caller app expected action e now :
  command_ok (PatchApp actor caller app expected action e now) = true →
  runs (λ _, True) (patch_app_batch actor caller app expected action e now) (λ _, True).
Proof.
  intros Hok'%Z.eqb_eq.
  apply (runs_guarded (λ d, identity_of d (actorExternalIdentityId actor) (actorAccountId actor)));
    [by auto with control| |].
  - intros d [[_ Hi]%andb_true_iff _]%andb_true_iff. by apply active_identity_of.
  - fines.
    + apply runs_update; [|done]. intros d v Hok _ Hv Hr%Z.eqb_eq _.
      match goal with |- context [put Apps _ ?x d] => destruct (put_app d (app_appId app) x v Hok Hv) end; [|done].
      split; cbn; lia.
    + by apply fine_audit.
Qed.
Lemma runs_remove actor caller app target e now :
  runs (λ _, True) (remove_member_batch actor caller app target e now) (λ _, True).
Proof.
  apply runs_guard_then, runs_guard_then.
  eapply runs_weaken with (P := may_leave app target); [|by intros d [_ ?]|done].
  eapply runs_cons with (R := may_leave app target).
  { apply runs_insert_where; [|done]. intros d Hok [Hm [Hc _]%andb_true_iff] Hk _ _.
    match goal with |- context [put ControlAudit _ ?x d] => destruct (put_audit d e x Hok Hk) end; [|done].
    by apply active_identity_of. }
  eapply runs_cons; [apply runs_delete_member|]. apply runs_fines; [by auto with control|fines].
Qed.

Lemma runs_create_invitation actor caller i row idem e now :
  runs (λ _, True) (create_invitation_batch actor caller i row idem e now) (λ _, True).
Proof.
  apply (runs_guarded (λ _, True)); [by auto with control|done|]. apply Forall_cons; split.
  { apply runs_insert. intros d Hok _ Hk Hu _.
    match goal with |- context [put AppInvitations _ ?x d] => destruct (put_invitation d i x Hok) end;
      [by rewrite delete_id|by cbn in Hk; rewrite Hk|done]. }
  apply Forall_cons; split; [auto with control|]. apply Forall_app_2; [unfold controlSnapshotStatements; fines|].
  destruct idem as [[key r]|]; fines. apply runs_insert. intros d Hok _ Hk _ _.
  by destruct (put_invitation_receipt d (actorAccountId actor, ai_app_id row, key) r Hok Hk).
Qed.
Lemma runs_transition actor caller app i expected revoke e now :
  runs (λ _, True) (invitation_transition_batch actor caller app i expected revoke e now) (λ _, True).
Proof.
  apply (runs_guarded (λ _, True)); [by auto with control|done|]. fines.
  apply fine_invitation; [by destruct revoke|].
  intros d r [[_ Hp%bool_decide_eq_true]%andb_true_iff _]%andb_true_iff. done.
Qed.
Lemma runs_accept actor caller app i token primary challenge e now :
  runs (λ _, True) (accept_invitation_batch actor caller app i token primary challenge e now) (λ _, True).
Proof.
  apply (runs_guarded (λ _, True)); [by auto with control|done|].
  apply Forall_app_2; [|apply Forall_app_2; [|apply Forall_app_2]].
  - destruct challenge as [[c ev]|], primary; first [apply fine_consume | fines].
  - fines. apply fine_invitation; [done|].
    intros d r [[_ Hp%bool_decide_eq_true]%andb_true_iff _]%andb_true_iff. done.
  - destruct primary; fines.
  - unfold controlSnapshotStatements. fines.
Qed.

Lemma runs_inspect actor caller i row keys e now :
  runs (λ _, True) (inspect_issuer_batch actor caller i row keys e now) (λ _, True).
Proof.
  apply (runs_guarded (λ _, True)); [by auto with control|done|].
  apply Forall_cons; split; [by apply (runs_weaken _ _ _ _ _ (runs_guard (λ _, True) _))|].
  apply Forall_cons; split.
  - apply runs_insert. intros d Hok _ Hk _ _.
    match goal with |- context [put OAuthInspections _ ?x d] => destruct (put_inspection d i x Hok) end;
      [by cbn in Hk; rewrite Hk|done].
  - apply Forall_app_2; [|unfold controlSnapshotStatements; fines].
    apply Forall_fmap, Forall_true. intros key. apply runs_insert. intros d Hok _ _ _ _.
    by destruct (put_inspection_key d (i, dk_kid key) (dk_row key) Hok).
Qed.
Lemma runs_activate actor caller app i expected issuer e now :
  command_ok (ActivateIssuer actor caller app i expected issuer e now) = true →
  runs (λ _, True) (activate_issuer_batch actor caller app i expected issuer e now) (λ _, True).
Proof.
  intros Hrev%Z.eqb_eq. apply runs_guard_then, runs_guard_then.
  set (current := λ d : ControlDb,
    match cas_app_oauth_issuers d !! app with Some r => is_revision r < is_revision issuer | None => True end).
  eapply runs_weaken with (P := current); [| |done].
  - apply (runs_app _ [_; _] current).
    + apply runs_update_changed. intros d v Hok Hc Hv [[_ Hn%bool_decide_eq_true]%andb_true_iff _]%andb_true_iff _.
      destruct (put_inspection d i (use_inspection now v) Hok); [|done].
      cbn in Hv. rewrite Hv. by split_and!.
    + eapply runs_cons; [|apply (runs_fines (λ _, True)); [by auto with control|unfold controlSnapshotStatements; fines]].
      apply runs_single. intros d n d' n' Hok Hc. unfold upsert_row. unfold current in Hc.
      destruct (stored OAuthIssuers d app) eqn:Hst; intros Hs.
      * apply update_row_inv in Hs as [[-> _]|(v & Hv & _ & -> & _ & _ & Hu)]; [by split_and!|].
        match goal with |- context [put OAuthIssuers _ ?x d] => destruct (put_issuer d app x Hok Hu) end; [|done].
        cbn in Hv. rewrite Hv in Hc |- *. split; cbn; lia.
      * apply insert_row_inv in Hs as (-> & _ & Hk & _ & Hu & _).
        match goal with |- context [put OAuthIssuers _ ?x d] => destruct (put_issuer d app x Hok) end;
          [by rewrite delete_id|by cbn in Hk; rewrite Hk|done].
  - intros d [[_ _] Hg]. unfold current. destruct (cas_app_oauth_issuers d !! app) as [r|] eqn:Hr; [|done].
    destruct expected as [n|].
    + unfold exists_row in Hg. cbn in Hg. rewrite Hr in Hg. apply Z.eqb_eq in Hg. cbn in Hrev. lia.
    + unfold stored in Hg. cbn in Hg. rewrite Hr in Hg. by rewrite bool_decide_eq_true_2 in Hg.
Qed.

Lemma invitation_admin_of d actor : invitation_admin d actor = true →
  identity_of d (actorExternalIdentityId actor) (actorAccountId actor).
Proof. intros [[Ha _]%andb_true_iff _]%andb_true_iff. by apply active_identity_of. Qed.
Lemma fine_invitation_audit R e actor target i action request created :
  (∀ d, R d → identity_of d (actorExternalIdentityId actor) (actorAccountId actor)) →
  fine R (invitation_audit e actor target i action request created).
Proof. intros H. by apply fine_platform_audit. Qed.

Lemma runs_create_platform actor invitation key idem e request :
  runs (λ _, True) (create_platform_invitation_batch actor invitation key idem e request) (λ _, True).
Proof.
  apply (runs_guarded (λ d, identity_of d (actorExternalIdentityId actor) (actorAccountId actor)));
    [by auto with control|intros d; apply invitation_admin_of|].
  apply Forall_cons; split; [|apply Forall_cons; split; [|apply Forall_cons; split]].
  - apply runs_insert. intros d Hok _ Hk _ _.
    match goal with |- context [put PlatformInvitations _ ?x d] =>
      destruct (put_platform_invitation d (si_invitationId invitation) x Hok) end; [by cbn in Hk; rewrite Hk|done].
  - apply runs_insert. intros d Hok _ Hk _ _.
    by destruct (put_platform_receipt d (actorAccountId actor, key) idem Hok Hk).
  - by apply fine_invitation_audit.
  - unfold controlSnapshotStatements. fines.
Qed.
Lemma runs_revoke_platform actor i expected now e request :
  runs (λ _, True) (revoke_platform_invitation_batch actor i expected now e request) (λ _, True).
Proof.
  apply (runs_guarded (λ d, identity_of d (actorExternalIdentityId actor) (actorAccountId actor)));
    [by auto with control|intros d; apply invitation_admin_of|].
  unfold controlSnapshotStatements. fines; [|by apply fine_invitation_audit].
  apply fine_platform_invitation. intros d r [[_ Hp%bool_decide_eq_true]%andb_true_iff _]%andb_true_iff. done.
Qed.
Lemma runs_accept_platform actor invitation token email challenge now e request :
  runs (λ _, True) (accept_platform_invitation_batch actor invitation token email challenge now e request)
    (λ _, True).
Proof.
  set (R := λ d, identity_of d (actorExternalIdentityId actor) (actorAccountId actor)
                 ∧ account_stored d (actorAccountId actor) = true).
  assert (stable_fact R) as HR by (apply stable_both; [apply stable_identity_of|apply stable_account]).
  apply (runs_guarded R); [done| |].
  - intros d [Ha Hu]%andb_true_iff. split; [by apply active_identity_of|by apply usable_stored].
  - apply Forall_app_2; [|apply Forall_app_2].
    + destruct challenge as [[c ev]|]; [apply fine_consume|fines].
    + fines; [|by apply fine_grant; intros d [_ ?]..|by apply fine_invitation_audit; intros d [? _]].
      apply fine_platform_invitation. intros d r [[_ Hp%bool_decide_eq_true]%andb_true_iff _]%andb_true_iff. done.
    + unfold controlSnapshotStatements. fines.
Qed.

(** Whatever command runs, the invariant holds after it, and nothing that must not go
    back does. *)
Lemma command_runs c : command_ok c = true → runs (λ _, True) (command_stmts c) (λ _, True).
Proof.
  destruct c; cbn [command_stmts]; intros Hok; pose proof Hok as Hok'; cbn [command_ok] in Hok'.
  - apply andb_true_iff in Hok' as [[Ha%bool_decide_eq_true Hn%bool_decide_eq_true]%andb_true_iff _].
    by apply runs_new_account.
  - apply andb_true_iff in Hok' as [Ha%bool_decide_eq_true _]. by apply runs_link.
  - apply runs_unlink_batch.
  - apply runs_profile.
  - apply fine_session_audit.
  - apply runs_authority.
  - apply runs_blocked.
  - by apply runs_create_app.
  - by apply runs_patch.
  - apply runs_remove.
  - apply fine_gc_audit.
  - apply runs_create_invitation.
  - apply runs_transition.
  - apply runs_accept.
  - apply runs_inspect.
  - by apply runs_activate.
  - apply runs_create_platform.
  - apply runs_revoke_platform.
  - apply runs_accept_platform.
  - apply runs_fines; [by auto with control|]. unfold create_challenge_batch. fines.
    apply fine_new_challenge. unfold challenge_ok. rewrite !andb_true_iff, !Z.eqb_eq in Hok'.
    destruct Hok' as [[[[[Ha Hm] Hs] _] _] _]. rewrite Ha, Hm, Hs. by vm_compute.
  - apply fine_delete_challenges.
  - by apply fine_challenge.
  - apply fine_challenge. intros d v (Hm & Ha & Hs) Hp. rewrite !andb_true_iff, !Z.eqb_eq in Hp.
    unfold challenge_ok. cbn. destruct_and!. split_and!; [done|lia|done].
  - apply fine_challenge. intros d v (Hm & Ha & Hs) Hp. rewrite !andb_true_iff, !Z.eqb_eq in Hp.
    unfold challenge_ok. cbn. destruct_and!. split_and!; [done|done|lia].
Qed.

(** * What a batch that succeeded did *)

Lemma run_app_inv l1 l2 s s' : run_statements (l1 ++ l2) s = Ok s' →
  ∃ s1, run_statements l1 s = Ok s1 ∧ run_statements l2 s1 = Ok s'.
Proof.
  revert s. induction l1 as [|q l1 IH]; intros s Hrun; cbn in *; [eauto|].
  destruct (q s) as [s1|e]; [|done]. by apply IH.
Qed.
Lemma run_guard_inv c l d n d' n' : run_statements (guard c :: l) (d, n) = Ok (d', n') →
  c d = true ∧ run_statements l (d, n) = Ok (d', n').
Proof. intros (d1 & n1 & Hg & Hrun)%run_cons_inv. unfold guard in Hg. destruct (c d); naive_solver. Qed.
(** An update that must change its row did. *)
Lemma run_changed_inv `{Countable K} {V} (t : Table K V) k p f l d n d' n' :
  run_statements (update_row t k p f :: require_changed :: l) (d, n) = Ok (d', n') →
  ∃ v, t_rows t d !! k = Some v ∧ p d v = true ∧ run_statements l (put t k (f v) d, 1) = Ok (d', n').
Proof.
  intros (d1 & n1 & Hu & Hrun)%run_cons_inv. apply run_cons_inv in Hrun as (d2 & n2 & Hc & Hrun).
  unfold require_changed in Hc. destruct (Z.eqb_spec n1 1) as [->|]; [|done]. injection Hc as <- <-.
  apply update_row_inv in Hu as [[_ ?]|(v & Hv & Hp & -> & _)]; [done|]. by exists v.
Qed.
(** An update of a row that is there and meets its condition. *)
Lemma update_row_hit `{Countable K} {V} (t : Table K V) k p f v d n d' n' :
  t_rows t d !! k = Some v → p d v = true → update_row t k p f (d, n) = Ok (d', n') →
  d' = put t k (f v) d ∧ n' = 1.
Proof.
  intros Hv Hp. unfold update_row. rewrite Hv, Hp. destruct (t_check t k (f v)); [|done]. cbn.
  destruct (t_unique t _ k (f v)); [|done]. cbn. by intros [= <- <-].
Qed.
(** The statements of the snapshot touch nothing else. *)
Lemma run_snapshot_inv c d n d' n' : run_statements [snapshot_init c; snapshot_bump c] (d, n) = Ok (d', n') →
  ∃ m, d' = set_control_meta m d.
Proof.
  assert (∀ d, d = set_control_meta (cas_control_meta d) d) as Hself by (by intros []).
  intros (d1 & n1 & Hi & Hrun)%run_cons_inv. apply run_cons_inv in Hrun as (d2 & n2 & Hu & [= <- <-]).
  assert (∃ m, d1 = set_control_meta m d) as [m ->].
  { unfold snapshot_init, insert_or_ignore in Hi. destruct (c d); [|injection Hi as <- <-; eauto].
    destruct (insert_row _ _ _ _) as [[d3 n3]|[]] eqn:Hins; try done; [|injection Hi as <- <-; eauto..].
    injection Hi as <- <-. apply insert_row_inv in Hins as (-> & _). by eexists. }
  unfold snapshot_bump in Hu. apply update_row_inv in Hu as [[-> _]|(v & _ & _ & -> & _)]; by eexists.
Qed.
