(* ===== verification/ControlSafe.v ===== *)
(** The control plane over the world of {!ControlWorld}: whatever the database does at a
    call, and whatever other workers commit before it, an operation keeps the invariant
    and loses nothing that never goes back. *)
From S2P Require Import Prelude Js MapSum Errors Safe World ControlStore AccountBatches.
From S2P Require Import InvitationBatches ControlWorld ControlInv ControlRuns ControlCommands.
From S2P Require Import ControlValidation AccountRepo Account PlatformInvitations EmailChallenge.

(** * The invariant of the world *)

Definition world_keeps (w w' : ControlWorld) : Prop :=
  control_keeps (cw_db w) (cw_db w') ∧ cw_clock w ≤ cw_clock w'.
#[export] Instance world_keeps_pre : PreOrder world_keeps.
Proof.
  split; [by split|]. intros w1 w2 w3 [H1 H2] [H3 H4]. split; [by etrans|lia].
Qed.
Definition Control : Invariant ControlWorld :=
  mkInvariant (λ w, control_ok (cw_db w)) world_keeps (reflexivity (R := world_keeps))
    (transitivity (R := world_keeps)).

(** The empty database satisfies it. *)
Lemma control_ok_empty : control_ok ControlDb_empty.
Proof.
  split; try by (intros *; cbn; rewrite ?lookup_empty).
  all: by (unfold is_member, app_stored, account_stored, has_authority, stored; cbn;
           intros *; rewrite ?lookup_empty).
Qed.

(** What a batch of the repositories leaves. *)
Lemma command_step c d n d' n' : command_ok c = true → control_ok d →
  run_statements (command_stmts c) (d, n) = Ok (d', n') → control_ok d' ∧ control_keeps d d'.
Proof. intros Hc Hd Hrun. by destruct (command_runs c Hc d n d' n' Hd I Hrun) as (? & ? & _). Qed.
Lemma apply_command_step d c : control_ok d → control_ok (apply_command d c) ∧ control_keeps d (apply_command d c).
Proof.
  intros Hd. unfold apply_command, run_control_batch. destruct (command_ok c) eqn:Hc; [|by split].
  destruct (run_statements (command_stmts c) (d, 0)) as [[d' n]|e] eqn:Hrun; cbn; [|by split].
  by eapply command_step.
Qed.
Lemma apply_commands_step l d : control_ok d →
  control_ok (foldl apply_command d l) ∧ control_keeps d (foldl apply_command d l).
Proof.
  revert d. induction l as [|c l IH]; intros d Hd; cbn; [by split|].
  destruct (apply_command_step d c Hd) as [Hd1 Hk1]. destruct (IH _ Hd1) as [Hd2 Hk2].
  split; [done|by etrans].
Qed.
Lemma enter_step w : holds Control w →
  holds Control (snd (control_enter w)) ∧ keeps Control w (snd (control_enter w)).
Proof.
  intros Hw. unfold control_enter. destruct (cw_sched w) as [|t l]; cbn; [by split|].
  destruct (apply_commands_step (ct_commands t) (cw_db w) Hw) as [Hd Hk].
  split; [done|]. split; cbn; [done|lia].
Qed.

Notation control_stable := (stable Control).

Lemma control_external_safe {A} P (f : ControlAct A) Q : control_stable P →
  safe Control P f Q → safe Control P (control_external f) Q.
Proof.
  intros HP Hf w Hw HPw. unfold control_external.
  destruct (enter_step w Hw) as [Hw1 Hk1]. destruct (control_enter w) as [o w1]; cbn in *.
  specialize (Hf w1 Hw1 (HP _ _ Hk1 HPw)). destruct o.
  - destruct (f w1) as [[a|e] w2].
    + destruct Hf as (? & ? & ?). split_and!; [done|by etrans|done].
    + destruct Hf as [? ?]. split; [done|by etrans].
  - by split.
  - destruct (f w1) as [[a|e] w2]; cbn.
    + destruct Hf as (? & ? & _). split; [done|by etrans].
    + destruct Hf as [? ?]. split; [done|by etrans].
Qed.

(** A read answers with what the database holds at that moment. *)
Lemma read_safe {A} P (q : ControlDb → A) (Q : A → ControlWorld → Prop) : control_stable P →
  (∀ w, holds Control w → P w → Q (q (cw_db w)) w) → safe Control P (control_read q) Q.
Proof.
  intros HP HQ. apply control_external_safe; [done|]. intros w Hw HPw. split_and!; [done|done|by apply HQ].
Qed.
Lemma read_exact {A} P (q : ControlDb → A) : control_stable P →
  safe Control P (control_read q) (λ a w, P w ∧ a = q (cw_db w)).
Proof. intros HP. by apply read_safe. Qed.

(** A batch that succeeds ran, whole, from a state the invariant holds of. *)
Lemma batch_safe P c (Q : Z → ControlWorld → Prop) : control_stable P → command_ok c = true →
  (∀ w d n, holds Control w → P w → run_statements (command_stmts c) (cw_db w, 0) = Ok (d, n) →
     Q n (set_control_db d w)) →
  safe Control P (control_batch (command_stmts c)) Q.
Proof.
  intros HP Hc HQ. apply control_external_safe; [done|]. intros w Hw HPw.
  destruct (run_statements (command_stmts c) (cw_db w, 0)) as [[d n]|e] eqn:Hrun; [|by split].
  destruct (command_step c _ _ _ _ Hc Hw Hrun) as [Hd Hk].
  split_and!; [done|by split|by apply HQ].
Qed.
Lemma control_commit_safe {A} P c (done_ : A) failed (Q : A → ControlWorld → Prop) :
  control_stable P → command_ok c = true →
  (∀ w d n, holds Control w → P w → run_statements (command_stmts c) (cw_db w, 0) = Ok (d, n) →
     Q done_ (set_control_db d w)) →
  (∀ e, safe Control P (failed e) Q) → safe Control P (commit (command_stmts c) done_ failed) Q.
Proof.
  intros HP Hc HQ Hf. apply safe_catch; [done| |done].
  eapply safe_chain; [by apply (batch_safe P c (λ _, Q done_))|]. intros n. by apply safe_ret.
Qed.

(** * Operations that keep the invariant *)

Notation harmless m := (safe Control (λ _, True) m (λ _ _, True)).

Lemma control_true_stable : control_stable (λ _, True).
Proof. by intros w w' _ _. Qed.
#[export] Hint Resolve control_true_stable : safe.

Section harmless.
Context {A B : Type}.
Implicit Types (m : ControlAct A).

Lemma harmless_mret (a : A) : harmless (mret a : ControlAct A).
Proof. by apply safe_ret. Qed.
Lemma harmless_throw e : harmless (throw e : ControlAct A).
Proof. apply safe_throw. Qed.
Lemma harmless_run (r : result exn A) : harmless (lift r : ControlAct A).
Proof. by apply safe_lift. Qed.
Lemma harmless_bind m (f : A → ControlAct B) : harmless m → (∀ a, harmless (f a)) → harmless (m ≫= f).
Proof. apply safe_seq, control_true_stable. Qed.
Lemma harmless_catch m h : harmless m → (∀ e, harmless (h e)) → harmless (try_catch m h).
Proof. intros Hm Hh. by apply safe_catch. Qed.
Lemma harmless_read (q : ControlDb → A) : harmless (control_read q).
Proof. by apply read_safe. Qed.
Lemma harmless_batch c : command_ok c = true → harmless (control_batch (command_stmts c)).
Proof. intros Hc. by apply batch_safe. Qed.
Lemma harmless_commit c (a : A) failed : command_ok c = true → (∀ e, harmless (failed e)) →
  harmless (commit (command_stmts c) a failed).
Proof. intros Hc Hf. by apply control_commit_safe. Qed.
Lemma harmless_for_each (l : list A) (f : A → ControlAct unit) :
  (∀ x, harmless (f x)) → harmless (for_each l f).
Proof.
  intros Hf. apply (safe_post _ _ _ (λ _ w, ∀ x, x ∈ l → True)); [done|].
  apply (safe_for_each Control (λ _, True) l f (λ _ _, True)); auto using control_true_stable.
Qed.
End harmless.
(** A stable fact survives. *)
Lemma harmless_keep {A} (R : ControlWorld → Prop) (m : ControlAct A) : control_stable R → harmless m →
  safe Control R m (λ _, R).
Proof.
  intros HR Hm. apply (safe_weaken Control (λ w, True ∧ R w) R m (λ _ w, True ∧ R w)).
  - by intros w ?.
  - by intros a w [_ ?].
  - by apply safe_keep.
Qed.
(** A step that only has to be harmless, under a stable fact. *)
Lemma safe_skip {A B} (P : ControlWorld → Prop) (m : ControlAct A) (f : A → ControlAct B) Q :
  control_stable P → harmless m → (∀ a, safe Control P (f a) Q) → safe Control P (m ≫= f) Q.
Proof.
  intros HP Hm Hf. apply safe_seq; [done| |done]. by apply (safe_weaken Control (λ _, True) P m (λ _ _, True)).
Qed.
Lemma safe_fail_if_fact {A} P c code (f : unit → ControlAct A) (Q : A → ControlWorld → Prop) :
  (c = false → safe Control P (f tt) Q) → safe Control P (fail_if c code ≫= f) Q.
Proof. intros Hf. destruct c; [|exact (Hf eq_refl)]. intros w Hw _. by split. Qed.
Lemma harmless_fail_if {A} c code (f : unit → ControlAct A) :
  (c = false → harmless (f tt)) → harmless (fail_if c code ≫= f).
Proof. apply safe_fail_if_fact. Qed.
Lemma harmless_now : harmless now.
Proof. by apply safe_gets. Qed.
Lemma harmless_random `{Entropy} n : harmless (getRandomValues n).
Proof. intros w Hw _. split_and!; [done|by split|done]. Qed.

Create HintDb harmless discriminated.
#[export] Hint Resolve harmless_mret harmless_throw harmless_run harmless_read harmless_now
  harmless_random : harmless.

(** Follow the code: through binds, handlers, branches and definitions. *)
Ltac head_of m := lazymatch m with ?f _ => head_of f | _ => m end.
Ltac harmless_step :=
  lazymatch goal with
  | |- safe _ _ (fail_if _ _ ≫= _) _ => apply harmless_fail_if; intros ?
  | |- safe _ _ (_ ≫= _) _ => apply harmless_bind; [|intros ?]
  | |- safe _ _ (try_catch _ _) _ => apply harmless_catch; [|intros ?]
  | |- safe _ _ (commit (command_stmts _) _ _) _ => apply harmless_commit; [|intros ?]
  | |- safe _ _ (control_batch (command_stmts _)) _ => apply harmless_batch
  | |- safe _ _ (for_each _ _) _ => apply harmless_for_each; intros ?
  | |- safe _ _ (match ?x with _ => _ end) _ => destruct x
  | |- safe _ _ (let _ := _ in _) _ => cbv zeta
  | |- safe _ _ ?m _ => let h := head_of m in unfold h
  | |- command_ok _ = true => reflexivity
  end.
Ltac harmless := repeat first [solve [auto with harmless nocore] | harmless_step].

(** ** Answers

    What a part answers, whatever the state: the words of a commit that failed. *)

Definition answers {A} (φ : A → Prop) (m : ControlAct A) : Prop := safe Control (λ _, True) m (λ a _, φ a).

Section answers.
Context {A B : Type} (φ : A → Prop).
Lemma answers_ret a : φ a → answers φ (mret a).
Proof. intros Ha. by apply safe_ret. Qed.
Lemma answers_throw e : answers φ (throw e).
Proof. apply safe_throw. Qed.
Lemma answers_seq (m : ControlAct B) f : harmless m → (∀ b, answers φ (f b)) → answers φ (m ≫= f).
Proof. apply safe_seq, control_true_stable. Qed.
Lemma answers_bind ψ (m : ControlAct B) f : answers ψ m → (∀ b, ψ b → answers φ (f b)) → answers φ (m ≫= f).
Proof. intros Hm Hf. by eapply safe_bind_fact. Qed.
Lemma answers_use P (m : ControlAct A) Q : answers φ m → (∀ a w, φ a → Q a w) → safe Control P m Q.
Proof. intros Hm HQ. by apply (safe_weaken Control (λ _, True) P m (λ a _, φ a)). Qed.
End answers.
Ltac answers_step :=
  lazymatch goal with
  | |- answers _ (mret _) => apply answers_ret; repeat case_match; simplify_eq; done
  | |- answers _ (throw _) => apply answers_throw
  | |- answers _ (_ ≫= _) => apply answers_seq; [solve [harmless]|intros ?]
  | |- answers _ (match ?x with _ => _ end) => destruct x
  end.
(** The failure of a commit answers with one of [l]; the service throws on each, or goes
    on with the word of success. *)
Definition one_of (l : list string) (word : string) : bool := bool_decide (word ∈ l).
Ltac failure_words := repeat answers_step.
Lemma commit_words P c word l failed (Q : ControlWorld → Prop) : control_stable P → command_ok c = true →
  (∀ w d n, holds Control w → P w → run_statements (command_stmts c) (cw_db w, 0) = Ok (d, n) →
     Q (set_control_db d w)) →
  (∀ e, answers (λ r, one_of l r = true) (failed e)) →
  safe Control P (commit (command_stmts c) word failed) (λ r w, one_of l r = true ∨ r = word ∧ Q w).
Proof.
  intros HP Hc HQ Hf. apply control_commit_safe; [done|done| |].
  - intros w d n Hw HPw Hrun. right. split; [done|by eapply HQ].
  - intros e. eapply answers_use; [apply Hf|]. auto.
Qed.
(** The word is none of those the service throws on. *)
Ltac word_refuted :=
  repeat match goal with H : bool_decide (_ = _) = false |- _ => apply bool_decide_eq_false in H end;
  match goal with
  | H : one_of _ _ = true |- _ =>
      apply bool_decide_eq_true in H; exfalso;
      repeat (apply elem_of_cons in H as [->|H]; [congruence|]); by apply elem_of_nil in H
  end.
