(* ===== verification/ControlHistory.v ===== *)
(** Every operation of the services of the control plane keeps the invariant and what
    never goes back; so does every history of them: any calls, one after the other, over
    a database that other workers write to between the statements, and that may refuse a
    call or lose its answer. *)
From S2P Require Import Prelude Js JsonText MapSum Errors Safe Codec World ControlStore.
From S2P Require Import AccountBatches InvitationBatches ControlWorld ControlValidation.
From S2P Require Import AccountRepo Account ControlInv ControlSafe.
From S2P Require PlatformInvitations EmailChallenge.
Module P := PlatformInvitations.
Module E := EmailChallenge.

(** * The repository *)

Section repository.
Implicit Types (actor : Actor) (caller : Caller).

Lemma harmless_actor actor app : harmless (isUsableAppActor actor app).
Proof. harmless. Qed.
Lemma harmless_mutation_failure actor target check : harmless (platformMutationFailure actor target check).
Proof. harmless. Qed.
Hint Resolve harmless_actor harmless_mutation_failure : harmless.

Lemma harmless_inspect_commit actor caller i keys e t : harmless (commitInspectAccountOAuthIssuer actor caller i keys e t).
Proof. harmless. Qed.
Lemma harmless_transition_commit actor caller app i expected revoke e t :
  harmless (commitAccountAppInvitationTransition actor caller app i expected revoke e t).
Proof. harmless. Qed.
Lemma harmless_created_or {R} (race : option R) otherwise : harmless otherwise → harmless (created_or race otherwise).
Proof. intros. harmless. Qed.
Lemma harmless_invitation_commit actor caller i row idem e t :
  harmless (commitCreateAccountAppInvitation actor caller i row idem e t).
Proof.
  harmless.
  all: apply harmless_created_or; harmless.
Qed.
Lemma harmless_accept_commit actor caller i primary challenge e t :
  harmless (commitAcceptAccountAppInvitation actor caller i primary challenge e t).
Proof. harmless. Qed.
Lemma harmless_session_audit actor caller action e t : harmless (appendAccountSessionAudit actor caller action e t).
Proof. harmless. Qed.
Lemma harmless_gc_audit actor caller app e t : harmless (appendAccountAppGcAudit actor caller app e t).
Proof. harmless. Qed.
Lemma harmless_remove_commit actor caller app target e t :
  harmless (commitRemoveAppMembership actor caller app target e t).
Proof. harmless. Qed.
Lemma harmless_authority_commit actor target au grant e request t :
  harmless (commitPlatformAuthority actor target au grant e request t).
Proof. harmless. Qed.
Lemma harmless_block_commit actor target blocked e request t :
  harmless (commitPlatformBlock actor target blocked e request t).
Proof. harmless. Qed.
Lemma harmless_unlink_commit a v target remaining t : harmless (commitUnlinkIdentity a v target remaining t).
Proof. harmless. Qed.
Lemma harmless_profile_commit a name avatar t : harmless (updateProfile_repo a name avatar t).
Proof. harmless. Qed.
Lemma harmless_app_events app actorF targetF after limit :
  harmless (listAppAccountAuditEvents app actorF targetF after limit).
Proof. harmless. Qed.
Lemma harmless_platform_events action actorF targetF created before limit :
  harmless (listPlatformAccountAuditEvents action actorF targetF created before limit).
Proof. harmless. Qed.
End repository.

#[export] Hint Resolve harmless_inspect_commit harmless_transition_commit
  harmless_invitation_commit harmless_accept_commit harmless_session_audit harmless_gc_audit
  harmless_remove_commit harmless_authority_commit harmless_block_commit
  harmless_unlink_commit harmless_profile_commit harmless_app_events harmless_platform_events : harmless.

(** * The services *)

Section services.
Context {Hsha : Sha256} {Hent : Entropy}.
Implicit Types (actor : Actor) (caller : Caller).

Lemma harmless_resolve depth visited a : harmless (resolve_loop depth visited a).
Proof. revert visited a. induction depth as [|n IH]; intros visited a; cbn [resolve_loop]; harmless. Qed.
Hint Resolve harmless_resolve : harmless.
Lemma harmless_usable a : harmless (usableAccount a).
Proof. harmless. Qed.
Lemma harmless_resolution account i : harmless (resolution account i).
Proof. harmless. Qed.
Hint Resolve harmless_usable harmless_resolution : harmless.
Lemma harmless_external issuer subject : harmless (resolveExternalIdentity issuer subject).
Proof. harmless. Qed.
Lemma harmless_active a i : harmless (requireActiveIdentity a i).
Proof. harmless. Qed.
Hint Resolve harmless_external harmless_active : harmless.
Lemma harmless_authorize a i v : harmless (authorizeCredential a i v).
Proof. harmless. Qed.
Lemma harmless_member actor app : harmless (requireMember actor app).
Proof. harmless. Qed.
Lemma harmless_authority a au : harmless (requireAuthority a au).
Proof. harmless. Qed.
Hint Resolve harmless_authorize harmless_member harmless_authority : harmless.

Lemma harmless_self a i providers : harmless (getSelf a i providers).
Proof. harmless. Qed.
Lemma harmless_update_profile a name avatar : harmless (updateProfile a name avatar).
Proof. harmless. Qed.
Lemma harmless_list_apps a limit cursor : harmless (listApps a limit cursor).
Proof. harmless. Qed.
Lemma harmless_list_members a app limit cursor : harmless (listAppMembers a app limit cursor).
Proof. harmless. Qed.
Lemma harmless_memberships a : harmless (listAccountMemberships a).
Proof. harmless. Qed.
Lemma harmless_patch actor caller app patch tag : harmless (patchApp actor caller app patch tag).
Proof.
  harmless. all: cbn; apply Z.eqb_eq.
  all: match goal with H : negb (_ =? _) = false |- _ => apply negb_false_iff, Z.eqb_eq in H; cbn in *; lia end.
Qed.
Lemma harmless_create_app actor caller name key : harmless (createApp actor caller name key).
Proof.
  harmless. destruct key; [|done]. cbn. by rewrite bool_decide_eq_true_2, Z.eqb_refl.
Qed.
Lemma harmless_remove actor caller app target : harmless (removeAppMember actor caller app target).
Proof. harmless. Qed.
Lemma harmless_record_session actor caller action : harmless (recordSessionAudit actor caller action).
Proof. harmless. Qed.
Lemma harmless_record_gc actor caller app : harmless (recordAppGcRequest actor caller app).
Proof. harmless. Qed.
Lemma harmless_expire fuel actor caller app t after : harmless (expire_invitations fuel actor caller app t after).
Proof. revert after. induction fuel as [|n IH]; intros after; cbn [expire_invitations]; harmless. Qed.
Hint Resolve harmless_expire : harmless.
Lemma harmless_list_invitations fuel actor caller app status limit cursor :
  harmless (listAppMemberInvitations_service fuel actor caller app status limit cursor).
Proof. harmless. Qed.
Lemma harmless_create_invitation actor caller app email key :
  harmless (createAppMemberInvitation actor caller app email key).
Proof. harmless. Qed.
Lemma harmless_resolve_invitation token : harmless (resolveAppMemberInvitation token).
Proof. harmless. Qed.
Lemma harmless_accept actor caller token evidence : harmless (acceptAppMemberInvitation actor caller token evidence).
Proof. harmless. Qed.
Lemma harmless_revoke actor caller app i tag : harmless (revokeAppMemberInvitation actor caller app i tag).
Proof. harmless. Qed.
Lemma harmless_set_authority actor target au grant request :
  harmless (setPlatformAuthority actor target au grant request).
Proof. harmless. Qed.
Lemma harmless_set_blocked actor target blocked request : harmless (setPlatformBlocked actor target blocked request).
Proof. harmless. Qed.
Lemma harmless_platform_account a target : harmless (getPlatformAccount_service a target).
Proof. harmless. Qed.
Lemma harmless_create_account provider issuer subject name url :
  harmless (createForExternalIdentity provider issuer subject name url).
Proof. harmless. cbn. by rewrite !bool_decide_eq_true_2. Qed.
Lemma harmless_link a i v at_ target : harmless (linkExternalIdentity a i v at_ target).
Proof. harmless. cbn. by rewrite !bool_decide_eq_true_2. Qed.
Lemma harmless_unlink a v target remaining at_ : harmless (unlinkExternalIdentity a v target remaining at_).
Proof. harmless. Qed.
Lemma harmless_app_audit a app query : harmless (listAppAuditEvents a app query).
Proof. harmless. Qed.
Lemma harmless_platform_audit a query : harmless (listPlatformAuditEvents a query).
Proof. harmless. Qed.
Lemma harmless_platform_accounts a query : harmless (listPlatformAccounts_service a query).
Proof. harmless. Qed.

(** ** OAuth issuers *)

Section issuers.
Context {Hurl : UrlParser} {Hjws : CompactJws} (options : AccountServiceOptions).
(** The discovery port has nothing to do with the database. *)
Definition discovery_harmless : Prop :=
  match opt_oauthDiscovery options with
  | Some discover => ∀ issuer, harmless (discover issuer)
  | None => True
  end.

Lemma harmless_get_issuer a app optional_ : harmless (getAppOAuthIssuer_service a app optional_).
Proof. harmless. Qed.
Lemma harmless_inspect actor caller app issuer : discovery_harmless →
  harmless (inspectAppOAuthIssuer options actor caller app issuer).
Proof.
  unfold discovery_harmless. intros Hd. unfold inspectAppOAuthIssuer.
  destruct (opt_oauthDiscovery options) as [discover|]; harmless.
Qed.
Lemma harmless_activate actor caller app i proof tag star :
  harmless (activateAppOAuthIssuer actor caller app i proof tag star).
Proof.
  unfold activateAppOAuthIssuer.
  apply harmless_bind; [harmless|intros ?]. apply harmless_bind; [harmless|intros tag'].
  apply harmless_bind; [harmless|intros current].
  apply (safe_bind_fact _ _ _
    (λ expected, default 0 expected = default 0 ((λ c, is_revision (iss_row c)) <$> current))); [done| |].
  - destruct tag' as [tag'|]; apply safe_fail_if_fact; intros Hc; apply safe_ret; intros _ _.
    + apply negb_false_iff, andb_true_iff in Hc as [_ Hc%bool_decide_eq_true]. by rewrite Hc.
    + apply bool_decide_eq_false in Hc. by destruct current; [destruct Hc|].
  - intros expected He. harmless. cbn. apply Z.eqb_eq. by rewrite He.
Qed.
End issuers.

(** ** Platform invitations *)

Section invitations.
Context {Hsec : P.InvitationSecrets} {Hpat : P.EmailPattern}.

Lemma harmless_platform_create actor input key request : harmless (P.create actor input key request).
Proof. harmless. Qed.
Lemma harmless_platform_revoke actor i tag request : harmless (P.revoke actor i tag request).
Proof. harmless. Qed.
Lemma harmless_platform_resolve token : harmless (P.resolve token).
Proof. harmless. Qed.
Hint Resolve harmless_platform_resolve : harmless.
Lemma harmless_platform_accept actor evidence token request : harmless (P.accept actor evidence token request).
Proof. harmless. Qed.
Lemma harmless_platform_list a input : harmless (P.list_invitations a input).
Proof. harmless. Qed.
End invitations.

(** ** Email challenges *)

Section challenges.
(** The service of the worker runs with the defaults. *)
Context (generateCode : ControlAct string) (code_harmless : harmless generateCode).
Hint Resolve code_harmless : harmless.

Definition startChallenge := E.create E.default_limits EMAIL_CHALLENGE_TTL_MS EMAIL_CHALLENGE_MAX_ATTEMPTS generateCode.
Definition resendCode := E.resend E.default_limits EMAIL_CHALLENGE_TTL_MS generateCode.

Lemma harmless_attempts turns b t :
  harmless (E.create_attempts E.default_limits EMAIL_CHALLENGE_TTL_MS EMAIL_CHALLENGE_MAX_ATTEMPTS generateCode turns b t).
Proof. induction turns as [|n IH]; cbn [E.create_attempts]; harmless. Qed.
Hint Resolve harmless_attempts : harmless.
Lemma harmless_start input : harmless (startChallenge input).
Proof. harmless. Qed.
Lemma harmless_describe i b : harmless (E.describe i b).
Proof. harmless. Qed.

(** A challenge that is read is within the limits. *)
Lemma get_challenge_ok i P : control_stable P →
  safe Control P (E.getChallenge i) (λ r _, match r with Some r => challenge_ok r | None => True end).
Proof.
  intros HP. apply read_safe; [done|]. intros w Hw _.
  destruct (cas_email_challenges (cw_db w) !! i) as [r|] eqn:Hr; [|done]. by eapply (ok_challenges _ Hw).
Qed.
Lemma harmless_verify_challenge i b code t : harmless (E.verifyChallenge i b code t).
Proof.
  unfold E.verifyChallenge. eapply safe_bind_fact; [done|by apply get_challenge_ok|]. intros [r|] Hr; [|harmless].
  destruct (E.answerable r b t) eqn:Ha; cbn [negb]; [|harmless].
  apply harmless_bind; [|intros ?; harmless]. apply harmless_batch. cbn.
  apply andb_true_iff in Ha as [_ Ha%negb_true_iff]. destruct Hr as (Hm & _). apply Z.ltb_lt. lia.
Qed.
Lemma harmless_resend_challenge i b code t :
  harmless (E.resendChallenge i b code (mkLimits (minimumIntervalMs E.default_limits) EMAIL_CHALLENGE_TTL_MS
    (maxSends E.default_limits)) t).
Proof.
  unfold E.resendChallenge. apply harmless_bind; [harmless|]. intros [r|]; [|harmless].
  match goal with |- context [if ?c then _ else _] => destruct c eqn:Hc end; [harmless|].
  apply harmless_bind; [|intros ?; harmless]. apply harmless_batch.
  rewrite !orb_false_iff in Hc. destruct Hc as [[_ Hc] _]. apply Z.ltb_lt.
  change (maxSends _) with EMAIL_CHALLENGE_MAX_SENDS in Hc. lia.
Qed.
Hint Resolve harmless_verify_challenge harmless_resend_challenge : harmless.
Lemma harmless_verify i b secret code : harmless (E.verify i b secret code).
Proof. harmless. Qed.
Lemma harmless_resend i b : harmless (resendCode i b).
Proof. harmless. Qed.
Lemma harmless_invalidate i b : harmless (E.invalidate i b).
Proof. harmless. Qed.
Lemma harmless_prune t : harmless (E.pruneExpired t).
Proof. harmless. Qed.
End challenges.
End services.

#[export] Hint Resolve
  harmless_resolve harmless_usable harmless_resolution harmless_external harmless_active
  harmless_authorize harmless_member harmless_authority harmless_self
  harmless_update_profile harmless_list_apps harmless_list_members harmless_memberships
  harmless_patch harmless_create_app harmless_remove harmless_record_session
  harmless_record_gc harmless_expire harmless_list_invitations harmless_create_invitation
  harmless_resolve_invitation harmless_accept harmless_revoke harmless_set_authority
  harmless_set_blocked harmless_platform_account harmless_create_account harmless_link
  harmless_unlink harmless_app_audit harmless_platform_audit harmless_platform_accounts
  harmless_get_issuer harmless_inspect harmless_activate harmless_platform_create
  harmless_platform_revoke harmless_platform_resolve harmless_platform_accept
  harmless_platform_list harmless_attempts harmless_start harmless_describe
  harmless_verify_challenge harmless_resend_challenge harmless_verify harmless_resend
  harmless_invalidate harmless_prune : harmless.

(** * Histories *)

(** A call of a service, with what its caller gives it. *)
Inductive ControlCall :=
| ResolveExternalIdentity (issuer subject : string)
| CreateForExternalIdentity (provider : ProviderKind) (issuer subject : string)
    (displayName avatarUrl : option string)
| AuthorizeCredential (a identityId : string) (version : Z)
| RequireAppMembership (a app : string)
| RequirePlatformAuthority (a : string) (au : PlatformAuthority)
| GetSelf (a identityId : string) (providers : list ProviderKind)
| UpdateProfileOf (a : string) (displayName avatarIdentity : option (option string))
| LinkExternalIdentity (a identityId : string) (version authenticatedAt : Z) (target : AuthenticatedProviderResult)
| UnlinkExternalIdentity (a : string) (version : Z) (target remaining : string) (authenticatedAt : Z)
| ListApps (a : string) (limit : option Json) (cursor : option string)
| GetApp (a app : string)
| ListAppMembers (a app : string) (limit : option Json) (cursor : option string)
| ListAccountMemberships (a : string)
| CreateAppOf (actor : Actor) (caller : Caller) (displayName : string) (key : option string)
| PatchAppOf (actor : Actor) (caller : Caller) (app : string) (patch : AppPatch) (ifMatch : option string)
| RemoveAppMember (actor : Actor) (caller : Caller) (app target : string)
| RecordSessionAudit (actor : Actor) (caller : Caller) (action : string)
| RecordAppGcRequest (actor : Actor) (caller : Caller) (app : string)
| ListAppInvitations (fuel : nat) (actor : Actor) (caller : Caller) (app : string) (status : option string)
    (limit : option Json) (cursor : option string)
| CreateAppInvitation (actor : Actor) (caller : Caller) (app : string) (email : option Json) (key : option string)
| ResolveAppInvitation (token : string)
| AcceptAppInvitation (actor : Actor) (caller : Caller) (token : string) (evidence : list VerifiedEmailEvidence)
| RevokeAppInvitation (actor : Actor) (caller : Caller) (app invitationId : string) (ifMatch : option string)
| SetPlatformAuthority (actor : Actor) (target : string) (au : PlatformAuthority) (grant : bool)
    (request : option string)
| SetPlatformBlocked (actor : Actor) (target : string) (blocked : bool) (request : option string)
| GetPlatformAccount (a target : string)
| ListPlatformAccounts (a : string) (query : option Json)
| ListAppAuditEvents (a app : string) (query : option Json)
| ListPlatformAuditEvents (a : string) (query : option Json)
| GetAppOAuthIssuer (a app : string) (isOptional : bool)
| InspectAppOAuthIssuer (actor : Actor) (caller : Caller) (app issuer : string)
| ActivateAppOAuthIssuer (actor : Actor) (caller : Caller) (app inspectionId proof : string)
    (ifMatch ifNoneMatch : option string)
| CreateInvitationToPlatform (actor : Actor) (input : Json) (key request : option string)
| RevokeInvitationToPlatform (actor : Actor) (invitationId : string) (ifMatch request : option string)
| ResolveInvitationToPlatform (token : string)
| AcceptInvitationToPlatform (actor : Actor) (evidence : list VerifiedEmailEvidence) (token : string)
    (request : option string)
| ListInvitationsToPlatform (a : string) (input : Json)
| StartChallenge (input : EmailChallengeBinding)
| DescribeChallenge (challengeId : string) (b : EmailChallengeBinding)
| VerifyCode (challengeId : string) (b : EmailChallengeBinding) (secret code : string)
| ResendCode (challengeId : string) (b : EmailChallengeBinding)
| InvalidateCode (challengeId : string) (b : EmailChallengeBinding)
| PruneExpired (at_ : Z).

(** The caller has its answer or its error, and goes on. *)
Definition ask {A} (m : ControlAct A) : ControlAct unit := ignore_errors (_ ← m; mret tt).

Section history.
Context {Hsha : Sha256} {Hent : Entropy} {Hurl : UrlParser} {Hjws : CompactJws}.
Context {Hsec : P.InvitationSecrets} {Hpat : P.EmailPattern}.
Context (options : AccountServiceOptions) (generateCode : ControlAct string).

Definition control_call (c : ControlCall) : ControlAct unit :=
  match c with
  | ResolveExternalIdentity issuer subject => ask (resolveExternalIdentity issuer subject)
  | CreateForExternalIdentity p issuer subject name url =>
      ask (createForExternalIdentity p issuer subject name url)
  | AuthorizeCredential a i v => ask (authorizeCredential a i v)
  | RequireAppMembership a app => ask (requireAppMembership a app)
  | RequirePlatformAuthority a au => ask (requirePlatformAuthority a au)
  | GetSelf a i providers => ask (getSelf a i providers)
  | UpdateProfileOf a name avatar => ask (updateProfile a name avatar)
  | LinkExternalIdentity a i v t target => ask (linkExternalIdentity a i v t target)
  | UnlinkExternalIdentity a v target remaining t => ask (unlinkExternalIdentity a v target remaining t)
  | ListApps a limit cursor => ask (listApps a limit cursor)
  | GetApp a app => ask (getApp a app)
  | ListAppMembers a app limit cursor => ask (listAppMembers a app limit cursor)
  | ListAccountMemberships a => ask (listAccountMemberships a)
  | CreateAppOf actor caller name key => ask (createApp actor caller name key)
  | PatchAppOf actor caller app patch tag => ask (patchApp actor caller app patch tag)
  | RemoveAppMember actor caller app target => ask (removeAppMember actor caller app target)
  | RecordSessionAudit actor caller action => ask (recordSessionAudit actor caller action)
  | RecordAppGcRequest actor caller app => ask (recordAppGcRequest actor caller app)
  | ListAppInvitations fuel actor caller app status limit cursor =>
      ask (listAppMemberInvitations_service fuel actor caller app status limit cursor)
  | CreateAppInvitation actor caller app email key => ask (createAppMemberInvitation actor caller app email key)
  | ResolveAppInvitation token => ask (resolveAppMemberInvitation token)
  | AcceptAppInvitation actor caller token evidence => ask (acceptAppMemberInvitation actor caller token evidence)
  | RevokeAppInvitation actor caller app i tag => ask (revokeAppMemberInvitation actor caller app i tag)
  | SetPlatformAuthority actor target au grant request => ask (setPlatformAuthority actor target au grant request)
  | SetPlatformBlocked actor target blocked request => ask (setPlatformBlocked actor target blocked request)
  | GetPlatformAccount a target => ask (getPlatformAccount_service a target)
  | ListPlatformAccounts a query => ask (listPlatformAccounts_service a query)
  | ListAppAuditEvents a app query => ask (listAppAuditEvents a app query)
  | ListPlatformAuditEvents a query => ask (listPlatformAuditEvents a query)
  | GetAppOAuthIssuer a app isOptional => ask (getAppOAuthIssuer_service a app isOptional)
  | InspectAppOAuthIssuer actor caller app issuer => ask (inspectAppOAuthIssuer options actor caller app issuer)
  | ActivateAppOAuthIssuer actor caller app i proof tag star =>
      ask (activateAppOAuthIssuer actor caller app i proof tag star)
  | CreateInvitationToPlatform actor input key request => ask (P.create actor input key request)
  | RevokeInvitationToPlatform actor i tag request => ask (P.revoke actor i tag request)
  | ResolveInvitationToPlatform token => ask (P.resolve token)
  | AcceptInvitationToPlatform actor evidence token request => ask (P.accept actor evidence token request)
  | ListInvitationsToPlatform a input => ask (P.list_invitations a input)
  | StartChallenge input => ask (startChallenge generateCode input)
  | DescribeChallenge i b => ask (E.describe i b)
  | VerifyCode i b secret code => ask (E.verify i b secret code)
  | ResendCode i b => ask (resendCode generateCode i b)
  | InvalidateCode i b => ask (E.invalidate i b)
  | PruneExpired t => ask (E.pruneExpired t)
  end.

(** The world after calls, one after the other. *)
Definition control_history (calls : list ControlCall) (w : ControlWorld) : ControlWorld :=
  foldl (λ w c, snd (control_call c w)) w calls.

Hypothesis discovery : discovery_harmless options.
Hypothesis codes : harmless generateCode.

Lemma ask_harmless {A} (m : ControlAct A) : harmless m → harmless (ask m).
Proof.
  intros Hm. apply safe_ignore; [done|]. apply harmless_bind; [done|]. intros a. apply harmless_mret.
Qed.
Lemma call_harmless c : harmless (control_call c).
Proof.
  destruct c; cbn [control_call]; apply ask_harmless; auto with harmless nocore.
  all: harmless.
Qed.
Lemma history_keeps calls w : holds Control w →
  holds Control (control_history calls w) ∧ keeps Control w (control_history calls w).
Proof.
  revert w. induction calls as [|c calls IH]; intros w Hw; cbn; [by split|].
  assert (holds Control (snd (control_call c w)) ∧ keeps Control w (snd (control_call c w))) as [Hw1 Hk1].
  { pose proof (call_harmless c w Hw I) as H. destruct (control_call c w) as [[?|?] w1]; cbn in *; tauto. }
  destruct (IH _ Hw1) as [Hw2 Hk2]. split; [done|by etrans].
Qed.

(** C4: Any history of calls keeps the invariant of the control database - members belong
    to Apps that have one, accounts have a profile and a way to sign in, one sign-in leads to
    one account, one token to one invitation, one issuer to one App, events name an identity
    of their actor, receipts name Apps that are there, challenges stay within their limits -
    and nothing goes back that must not: accounts, identities, Apps, issuers and invitations
    stay, revisions and credential versions only grow, what is settled is not changed, no
    audit event is lost, and while there is a platform administrator that is not blocked one
    remains. *)
Theorem control_history_safe calls w : control_ok (cw_db w) →
  let w' := control_history calls w in
  control_ok (cw_db w') ∧ control_keeps (cw_db w) (cw_db w') ∧ cw_clock w ≤ cw_clock w'.
Proof. intros Hw w'. destruct (history_keeps calls w Hw) as [Hw' [Hk Hc]]. by split_and!. Qed.
End history.
