(* ===== verification/CredentialSafe.v ===== *)
(** Who an operation acts for: without an alias, the account that is named, as it was
    when it was read. And credentials that are revoked: once an account is blocked, or
    loses a way to sign in, a session with the version of before is never authorized
    again, whatever happens to the account afterwards. *)
From S2P Require Import Prelude Js JsonText MapSum Errors Safe Codec World ControlStore.
From S2P Require Import AccountBatches InvitationBatches ControlWorld ControlValidation.
From S2P Require Import AccountRepo Account ControlInv ControlRuns ControlCommands ControlSafe.
From S2P Require Import ControlHistory.

Section actors.
Implicit Types (a : string).

Definition no_alias a (w : ControlWorld) : Prop := cas_account_aliases (cw_db w) !! a = None.
Lemma no_alias_stable a : control_stable (no_alias a).
Proof. intros w w' [Hk _] Hw. unfold no_alias. by rewrite (kp_aliases _ _ Hk). Qed.

#[local] Hint Resolve no_alias_stable : safe.

(** Without an alias the account is the one named, as it was at the read. *)
Lemma resolve_safe (P : ControlWorld → Prop) a (φ : AccountRow → Prop) : control_stable P →
  (∀ w, P w → no_alias a w) → (∀ w r, P w → cas_accounts (cw_db w) !! a = Some r → φ r) →
  safe Control P (resolveCanonicalAccount a) (λ account w, ∃ r0 r, account = accountRecord a r0 ∧ φ r0
    ∧ cas_accounts (cw_db w) !! a = Some r ∧ account_evolves r0 r).
Proof.
  intros HP Hn Hφ. unfold resolveCanonicalAccount, MAX_ALIAS_DEPTH. cbn [resolve_loop].
  rewrite bool_decide_eq_false_2 by apply not_elem_of_nil.
  set (seen := λ account w, ∃ r0 r, account = accountRecord a r0 ∧ φ r0
    ∧ cas_accounts (cw_db w) !! a = Some r ∧ account_evolves r0 r).
  assert (∀ account, control_stable (seen account)) as Hs.
  { intros account w w' [Hk _] (r0 & r & -> & ? & Hr & He). destruct (kp_accounts _ _ Hk _ _ Hr) as (r' & Hr' & He').
    exists r0, r'. split_and!; [done..|by etrans]. }
  eapply safe_bind with (Q := λ o w, match o with Some account => seen account w | None => True end); [done| |].
  - apply read_safe; [done|]. intros w Hw HPw. destruct (cas_accounts (cw_db w) !! a) as [r|] eqn:Hr; [|done].
    exists r, r. split_and!; [done|by eapply Hφ|done|done].
  - intros [account|]; [|apply safe_throw].
    assert (control_stable (λ w, P w ∧ seen account w)) as HP' by (apply stable_and; [done|apply Hs]).
    eapply safe_bind with (Q := λ o _, o = None); [done| |].
    + apply read_safe; [done|]. intros w Hw [HPw _]. specialize (Hn w HPw). unfold no_alias in Hn. by rewrite Hn.
    + intros [target|]; [by intros w Hw [_ ?]|]. apply safe_ret. by intros w [[_ ?] _].
Qed.


(** The account an operation acts for is usable. *)
Lemma usable_safe (P : ControlWorld → Prop) a (φ : AccountRow → Prop) : control_stable P →
  (∀ w, P w → no_alias a w) → (∀ w r, P w → cas_accounts (cw_db w) !! a = Some r → φ r) →
  safe Control P (usableAccount a) (λ account w, blockedAt account = None ∧ ∃ r0 r, account = accountRecord a r0 ∧ φ r0
    ∧ cas_accounts (cw_db w) !! a = Some r ∧ account_evolves r0 r).
Proof.
  intros HP Hn Hφ. eapply safe_chain; [by apply (resolve_safe _ a φ)|]. intros account.
  apply safe_fail_if_fact. intros Hb%bool_decide_eq_false. apply safe_ret. intros w Hs.
  split; [by apply dec_stable|done].
Qed.
Lemma usable_named (P : ControlWorld → Prop) a : control_stable P → (∀ w, P w → no_alias a w) →
  safe Control P (usableAccount a) (λ account _, accountId account = a).
Proof.
  intros HP Hn. eapply safe_post; [|by apply (usable_safe _ a (λ _, True))].
  by intros account w (_ & r0 & r & -> & _).
Qed.
End actors.
#[export] Hint Resolve no_alias_stable : safe.

(** * Revocation *)

(** * The account of a credential *)

Section credentials.
Context {Hsha : Sha256} {Hent : Entropy} {Hurl : UrlParser} {Hjws : CompactJws}.
Context {Hsec : P.InvitationSecrets} {Hpat : P.EmailPattern}.
Implicit Types (a : string) (v : Z).

(** The version of the account has not fallen behind [v], and at [v] it is unblocked. *)
Definition valid_at a v (w : ControlWorld) : Prop :=
  ∃ r, cas_accounts (cw_db w) !! a = Some r ∧ v ≤ ac_credential_version r
       ∧ (ac_credential_version r = v → ac_blocked_at r = None).
Definition version_above a v (w : ControlWorld) : Prop :=
  ∃ r, cas_accounts (cw_db w) !! a = Some r ∧ v < ac_credential_version r.
Lemma valid_stable a v : control_stable (valid_at a v).
Proof.
  intros w w' [Hk _] (r & Hr & Hv & Hb). destruct (kp_accounts _ _ Hk _ _ Hr) as (r' & Hr' & Hm & Hu).
  exists r'. split_and!; [done|lia|]. intros <-. apply Hu; [|apply Hb]; lia.
Qed.
Lemma above_stable a v : control_stable (version_above a v).
Proof.
  intros w w' [Hk _] (r & Hr & Hv). destruct (kp_accounts _ _ Hk _ _ Hr) as (r' & Hr' & Hm & _).
  exists r'. split; [done|lia].
Qed.
Hint Resolve valid_stable above_stable : safe.

(** A credential that is authorized is at the version of its account, which is usable. *)
Lemma authorize_safe a i v : safe Control (no_alias a) (authorizeCredential a i v) (λ _, valid_at a v).
Proof.
  unfold authorizeCredential.
  eapply safe_bind; [apply no_alias_stable|apply (usable_safe _ a (λ _, True)); [apply no_alias_stable|done|done]|].
  - intros account. apply safe_fail_if_fact. intros Hv%negb_false_iff%Z.eqb_eq.
    apply (safe_pre Control (valid_at a v)).
    { intros w (_ & Hb & r0 & r & -> & _ & Hr & He & Hu). cbn in *. exists r. split_and!; [done|lia|].
      intros E. apply Hu; [lia|done]. }
    apply harmless_keep; [apply valid_stable|]. harmless.
Qed.
(** An earlier version is refused. *)
Lemma stale_refused a i v :
  safe Control (λ w, no_alias a w ∧ version_above a v w) (authorizeCredential a i v) (λ _ _, False).
Proof.
  unfold authorizeCredential.
  assert (control_stable (λ w, no_alias a w ∧ version_above a v w)) as HP by auto with safe.
  eapply (safe_bind_fact _ _ _ (λ account, v < credentialVersion account)); [done| |].
  - eapply safe_post; [|apply (usable_safe _ a (λ r, v < ac_credential_version r)); [done|by intros w [? _]|]].
    + by intros account w (_ & r0 & r & -> & ? & _).
    + intros w r [_ (r' & Hr' & ?)] Hr. by simplify_eq.
  - intros account Hv. apply safe_fail_if_fact. intros E%negb_false_iff%Z.eqb_eq. lia.
Qed.

(** * What revokes *)

Inductive Revocation :=
| ByUnlink (version : Z) (target remaining : string) (authenticatedAt : Z)
| ByBlock (actor : Actor) (request : option string).
Definition revocation a (x : Revocation) : ControlAct unit :=
  match x with
  | ByUnlink v target remaining t => _ ← unlinkExternalIdentity a v target remaining t; mret tt
  | ByBlock actor request => setPlatformBlocked actor a true request
  end.

Lemma unlink_bumps a v target remaining t d n d' n' :
  run_statements (unlink_identity_batch a v target remaining t) (d, n) = Ok (d', n') →
  exists_row Accounts d a (at_version v) = true
  ∧ ∃ r, cas_accounts d' !! a = Some r ∧ v < ac_credential_version r.
Proof.
  unfold unlink_identity_batch.
  intros [Hg [_ (v0 & _ & _ & Hrun)%run_changed_inv]%run_guard_inv]%run_guard_inv.
  apply run_cons_inv in Hrun as (d1 & n1 & _ & (r & Hr & Hp & [= <- _])%run_changed_inv).
  split; [done|]. exists (next_version t r). cbn. rewrite lookup_insert_eq. split; [done|].
  unfold at_version in Hp. cbn. lia.
Qed.
Lemma block_bumps actor a e request t d n d' n' v r :
  run_statements (platform_block_batch actor a true e request t) (d, n) = Ok (d', n') →
  cas_accounts d !! a = Some r → v ≤ ac_credential_version r →
  (ac_credential_version r = v → ac_blocked_at r = None) →
  ∃ r', cas_accounts d' !! a = Some r' ∧ v < ac_credential_version r'.
Proof.
  unfold platform_block_batch, requirePlatformActor. intros Hrun Hr Hv Hb.
  apply run_app_inv in Hrun as ([d1 n1] & Hrun & (m & ->)%run_snapshot_inv). cbn [cas_accounts set_control_meta].
  apply run_guard_inv in Hrun as [Hactor [_ [_ [_ Hrun]%run_guard_inv]%run_guard_inv]%run_guard_inv].
  apply run_cons_inv in Hrun as (d2 & n2 & Hins & Hrun). apply run_cons_inv in Hrun as (d3 & n3 & Hup & [= <- <-]).
  apply andb_true_iff in Hactor as [_ Hactive].
  destruct (ac_blocked_at r) as [b|] eqn:Hblocked.
  - (* it is blocked already, under a later version *)
    assert (cas_accounts d2 = cas_accounts d) as E2.
    { unfold insert_where in Hins. destruct (_ && _); [|by injection Hins as <- _].
      by apply insert_row_inv in Hins as (-> & _). }
    assert (v < ac_credential_version r) as Hlt.
    { assert (ac_credential_version r ≠ v) by (intros E; by specialize (Hb E)). lia. }
    apply update_row_inv in Hup as [[-> _]|(r2 & Hr2 & _ & -> & _)].
    + rewrite E2. by exists r.
    + cbn in Hr2 |- *. rewrite E2, Hr in Hr2. injection Hr2 as <-. rewrite lookup_insert_eq.
      eexists. split; [done|]. cbn. lia.
  - assert (exists_row Accounts d a (λ r, bool_decide (ac_blocked_at r = None)) = true) as Hun.
    { unfold exists_row. cbn. by rewrite Hr, Hblocked. }
    unfold insert_where in Hins. cbv beta iota in Hins. rewrite Hactive, Hun in Hins. cbn [andb] in Hins.
    apply insert_row_inv in Hins as (-> & _).
    eapply (update_row_hit _ _ _ _ r) in Hup as [-> _]; [|done|].
    + exists (block_account t r). cbn. rewrite lookup_insert_eq. split; [done|lia].
    + unfold audited. rewrite stored_put by done. by rewrite bool_decide_eq_true_2.
Qed.

(** What is revoked puts the version behind. *)
Lemma revocation_safe a v x :
  safe Control (λ w, no_alias a w ∧ valid_at a v w) (revocation a x) (λ _, version_above a v).
Proof.
  assert (control_stable (λ w, no_alias a w ∧ valid_at a v w)) as HP by auto with safe.
  destruct x as [v' target remaining at_|actor request]; cbn [revocation].
  - apply (safe_chain Control _ _ _ (λ _, version_above a v)); [|intros ?; by apply safe_ret].
    unfold unlinkExternalIdentity.
    apply safe_skip; [done|harmless|intros _]. apply safe_skip; [done|harmless|intros i].
    apply safe_skip; [done|harmless|intros t].
    eapply safe_chain.
    + apply (commit_words _ (UnlinkIdentity a v' target remaining t) "unlinked"
        ["blocked"; "version-mismatch"; "not-found"; "final-identity"] _ (version_above a v)); [done|done| |].
      * intros w d n _ [_ (r & Hr & Hle & _)] (Hg & r' & Hr' & Hlt)%unlink_bumps. exists r'. split; [done|].
        unfold exists_row in Hg. cbn in Hg. rewrite Hr in Hg. unfold at_version in Hg. lia.
      * intros e. failure_words.
    + intros word. do 4 (apply safe_fail_if_fact; intros ?).
      apply (safe_pre Control (version_above a v)); [intros w [?|[_ ?]]; [word_refuted|done]|].
      apply harmless_keep; [apply above_stable|harmless].
  - unfold setPlatformBlocked.
    apply safe_skip; [done|harmless|intros account]. apply safe_skip; [done|harmless|intros e].
    apply safe_skip; [done|harmless|intros t].
    eapply safe_chain.
    + apply (commit_words _ (SetBlocked (mkActor (accountId account) (actorExternalIdentityId actor)) a true e
        request t) "updated" ["self-block"; "actor-forbidden"; "target-not-found"; "last-admin"] _
        (version_above a v)); [done|done| |].
      * intros w d n _ [_ (r & Hr & Hle & Hb)] Hrun.
        destruct (block_bumps _ _ _ _ _ _ _ _ _ _ _ Hrun Hr Hle Hb) as (r' & ? & ?). by exists r'.
      * intros e'. destruct (negb (isJsonFailure e')); [failure_words|].
        destruct (true && bool_decide (_ = a)); [failure_words|].
        apply (answers_bind _ (λ o, match o with
          | Some r => one_of ["self-block"; "actor-forbidden"; "target-not-found"; "last-admin"] r = true
          | None => True
          end)); [unfold platformMutationFailure; failure_words|].
        intros [r|] Hr; [by apply answers_ret|failure_words].
    + intros word. unfold mapPlatformMutationResult. do 3 (apply safe_fail_if_fact; intros ?).
      unfold fail_if. destruct (bool_decide (word = "self-block")) eqn:?; [apply safe_throw|].
      apply safe_ret. intros w [?|[_ ?]]; [word_refuted|done].
Qed.

(** C5: A credential that was authorized and is then revoked - its account is blocked, or
    another identity is unlinked from it - is never authorized again: not by any identity,
    whatever is called before and after, and not when the account is restored. (The
    account goes by its own identifier and not by an alias; no operation of the code
    modelled here writes aliases.) *)
Theorem revoked_credential_refused (options : AccountServiceOptions) (generateCode : ControlAct string)
    calls1 calls2 w a i j v x r :
  discovery_harmless options → harmless generateCode →
  control_ok (cw_db w) → no_alias a w →
  fst (authorizeCredential a i v w) = Ok r →
  let w1 := control_history options generateCode calls1 (snd (authorizeCredential a i v w)) in
  fst (revocation a x w1) = Ok tt →
  let w2 := control_history options generateCode calls2 (snd (revocation a x w1)) in
  ∃ e, fst (authorizeCredential a j v w2) = Throw e.
Proof.
  intros Hd Hc Hw Hn Hr w1 Hx w2.
  pose proof (authorize_safe a i v w Hw Hn) as H0. destruct (authorizeCredential a i v w) as [r0 w0].
  cbn in Hr, w1. subst r0. destruct H0 as (Hw0 & Hk0 & Hv0).
  destruct (history_keeps options generateCode Hd Hc calls1 w0 Hw0) as [Hw1 Hk1]. fold w1 in Hw1, Hk1.
  assert (no_alias a w1 ∧ valid_at a v w1) as Hv1.
  { split; [by apply (no_alias_stable a w0 w1), (no_alias_stable a w w0)|by apply (valid_stable a v w0 w1)]. }
  pose proof (revocation_safe a v x w1 Hw1 Hv1) as H1. destruct (revocation a x w1) as [r1 w1'].
  cbn in Hx, w2. subst r1. destruct H1 as (Hw1' & Hk1' & Ha1).
  destruct (history_keeps options generateCode Hd Hc calls2 w1' Hw1') as [Hw2 Hk2]. fold w2 in Hw2, Hk2.
  assert (no_alias a w2 ∧ version_above a v w2) as Hv2.
  { split; [|by apply (above_stable a v w1' w2)]. apply (no_alias_stable a w1' w2), (no_alias_stable a w1 w1'); tauto. }
  pose proof (stale_refused a j v w2 Hw2 Hv2) as H2. destruct (authorizeCredential a j v w2) as [[r2|e] w3]; cbn.
  - by destruct H2 as (_ & _ & []).
  - by exists e.
Qed.
End credentials.
