(* ===== verification/AppSafe.v ===== *)
(** Apps: a creation is repeated by its idempotency key, and a patch replaces the row its
    precondition names, or none. *)
From S2P Require Import Prelude Js JsonText MapSum Errors Safe Codec World ControlStore.
From S2P Require Import AccountBatches InvitationBatches ControlWorld ControlInv ControlRuns.
From S2P Require Import ControlCommands ControlSafe ControlValidation AccountRepo Account.
From S2P Require Import ControlHistory CredentialSafe.

Section apps.
Context {Hsha : Sha256} {Hent : Entropy} {Hurl : UrlParser} {Hjws : CompactJws}.
Context {Hsec : P.InvitationSecrets} {Hpat : P.EmailPattern}.
Context (options : AccountServiceOptions) (generateCode : ControlAct string).
Hypothesis discovery : discovery_harmless options.
Hypothesis codes : harmless generateCode.
Implicit Types (a key : string).

(** * Receipts *)

(** The hash a creation of an App is compared by. *)
Definition create_payload (displayName : string) : string :=
  sha256Hex (canonicalJson (JObj [("displayName", JStr displayName)])).

Definition receipt a key (r : AppIdempotencyRow) (w : ControlWorld) : Prop :=
  cas_account_app_idempotency (cw_db w) !! (a, key) = Some r.
Lemma receipt_stable a key r : control_stable (receipt a key r).
Proof. intros w w' [Hk _] Hr. by destruct (kp_receipts _ _ Hk _ _ Hr) as (r' & Hr' & <-). Qed.
Definition past (t : Z) (w : ControlWorld) : Prop := t ≤ cw_clock w.
Lemma past_stable t : control_stable (past t).
Proof. intros w w' [_ Hk]. unfold past. lia. Qed.
Hint Resolve receipt_stable past_stable : safe.

(** What is read of the receipts. *)
Lemma get_receipt_safe P a key t : control_stable P →
  safe Control P (getAccountAppIdempotency a key t)
    (λ o w, match o with Some r => receipt a key r w | None => True end).
Proof.
  intros HP. apply read_safe; [done|]. intros w Hw _. unfold receipt.
  destruct (cas_account_app_idempotency (cw_db w) !! (a, key)) as [r|]; cbn; [|done].
  by destruct (t <? ax_expires_at r).
Qed.

Lemma create_app_stores actor caller app key row e d n d' n' :
  run_statements (create_app_batch actor caller app (Some (key, row)) e) (d, n) = Ok (d', n') →
  cas_account_app_idempotency d' !! (actorAccountId actor, key) = Some row.
Proof.
  intros ([d1 n1] & _ & Hrun)%run_app_inv.
  apply (run_cons_inv (insert_row _ _ _)) in Hrun as (d2 & n2 & Hins & (m & ->)%run_snapshot_inv).
  apply insert_row_inv in Hins as (-> & _). apply lookup_insert_eq.
Qed.

Lemma commit_app_safe P actor caller app key row e : control_stable P →
  command_ok (CreateApp actor caller app (Some (key, row)) e) = true →
  safe Control P (commitCreateAccountApp actor caller app (Some (key, row)) e)
    (λ result w, match result with
                 | inl word => one_of ["actor-forbidden"] word = true
                               ∨ word = "created" ∧ receipt (actorAccountId actor) key row w
                 | inr race => receipt (actorAccountId actor) key race w
                 end).
Proof.
  intros HP Hc. unfold commitCreateAccountApp. apply safe_skip; [done|harmless|intros i].
  destruct (negb _); [apply safe_ret; by left|]. apply control_commit_safe; [done|done| |].
  - intros w d n _ _ Hrun. right. split; [done|]. by eapply create_app_stores.
  - intros e'. destruct (isUniqueFailure e').
    + eapply safe_bind; [done|by apply get_receipt_safe|]. intros [r|]; cbn [created_or].
      * apply safe_ret. by intros w [_ ?].
      * destruct (isJsonFailure e'); [apply safe_ret; by left|apply safe_throw].
    + apply (safe_bind_fact _ _ _ (λ o, o = None)); [done|by apply safe_ret|]. intros o ->. cbn [created_or].
      destruct (isJsonFailure e'); [apply safe_ret; by left|apply safe_throw].
Qed.

(** A creation that answers leaves its receipt, and its answer is the one of the receipt. *)
Lemma create_app_receipt actor caller name key :
  safe Control (no_alias (actorAccountId actor)) (createApp actor caller name (Some key))
    (λ app w, ∃ r, receipt (actorAccountId actor) key r w ∧ ax_response r = app
                   ∧ ax_payload_hash r = create_payload name).
Proof.
  pose proof (no_alias_stable (actorAccountId actor)) as HP.
  unfold createApp. apply safe_fail_if_fact; intros _. apply safe_fail_if_fact; intros _.
  eapply safe_bind_fact; [done|by apply usable_named|]. intros account Ha.
  apply safe_skip; [done|harmless|intros _]. apply safe_skip; [done|harmless|intros authorities].
  apply safe_fail_if_fact; intros _. apply safe_skip; [done|harmless|intros t].
  change (sha256Hex _) with (create_payload name).
  assert (∀ r, safe Control (λ w, receipt (actorAccountId actor) key r w)
    (resolveAppIdempotency r (create_payload name))
    (λ app w, ∃ r, receipt (actorAccountId actor) key r w ∧ ax_response r = app
                   ∧ ax_payload_hash r = create_payload name)) as Hresolve.
  { intros r. apply safe_fail_if_fact. intros Hh%negb_false_iff%bool_decide_eq_true. apply safe_ret.
    intros w Hr. by exists r. }
  eapply safe_chain; [apply get_receipt_safe; done|]. rewrite Ha. intros [r|]; [apply Hresolve|].
  apply safe_skip; [done|harmless|intros app]. apply safe_skip; [done|harmless|intros e].
  eapply safe_chain; [apply commit_app_safe; [done|]|].
  { cbn. by rewrite bool_decide_eq_true_2, Z.eqb_refl. }
  cbn [actorAccountId]. intros [word|race]; [|apply Hresolve].
  apply safe_fail_if_fact. intros Hf. apply safe_ret. intros w [?|[_ ?]]; [word_refuted|]. by eexists.
Qed.

(** While the receipt is valid the answer is that of the receipt. *)
Lemma create_app_replays actor caller name key r :
  let a := actorAccountId actor in
  safe Control (λ w, no_alias a w ∧ receipt a key r w) (createApp actor caller name (Some key))
    (λ app w, cw_clock w < ax_expires_at r → app = ax_response r ∧ ax_payload_hash r = create_payload name).
Proof.
  intros a. assert (control_stable (λ w, no_alias a w ∧ receipt a key r w)) as HP by auto with safe.
  unfold createApp. apply safe_fail_if_fact; intros _. apply safe_fail_if_fact; intros _.
  eapply safe_bind_fact; [done|apply (usable_named _ a); [done|by intros w [? _]]|]. intros account Ha.
  apply safe_skip; [done|harmless|intros _]. apply safe_skip; [done|harmless|intros authorities].
  apply safe_fail_if_fact; intros _.
  eapply safe_bind with (Q := λ t w, past t w); [done|apply safe_gets; intros w _; unfold past; lia|].
  intros t. assert (control_stable (λ w, (no_alias a w ∧ receipt a key r w) ∧ past t w)) as HP' by auto with safe.
  rewrite Ha.
  eapply safe_bind with (Q := λ o _, o = if t <? ax_expires_at r then Some r else None); [done| |].
  - apply read_safe; [done|]. intros w _ [[_ Hr] _]. unfold receipt in Hr. by rewrite Hr.
  - intros o. apply safe_assume. intros ->. destruct (Z.ltb_spec t (ax_expires_at r)) as [Hlt|Hge].
    + apply safe_fail_if_fact. intros Hh%negb_false_iff%bool_decide_eq_true. by apply safe_ret.
    + apply (safe_post _ _ _ (λ _, past t)); [unfold past; lia|].
      apply (safe_pre Control (past t)); [by intros w [_ ?]|].
      apply harmless_keep; [apply past_stable|]. harmless. cbn. by rewrite bool_decide_eq_true_2, Z.eqb_refl.
Qed.

(** C7: A creation of an App is done once per key: when a creation with an idempotency key
    answered with an App, a creation by the same account with the same key that answers
    before the key expires answers with the same App, and had the same payload, whatever was
    called in between and whatever else ran at the same time; and that App is there. *)
Theorem createApp_idempotent calls w actor actor' caller caller' name name' key app app' w0 w2 :
  control_ok (cw_db w) → no_alias (actorAccountId actor) w → actorAccountId actor' = actorAccountId actor →
  createApp actor caller name (Some key) w = (Ok app, w0) →
  createApp actor' caller' name' (Some key) (control_history options generateCode calls w0) = (Ok app', w2) →
  cw_clock w2 < ap_created_at (app_row app) + CAS_ADMIN_IDEMPOTENCY_RETENTION_MS →
  app' = app ∧ create_payload name' = create_payload name ∧ app_stored (cw_db w2) (app_appId app) = true.
Proof.
  intros Hw Hn Ha H1 H2 Ht. pose proof (create_app_receipt actor caller name key w Hw Hn) as Hs1.
  rewrite H1 in Hs1. destruct Hs1 as (Hw0 & Hk0 & r & Hr0 & <- & Hh).
  destruct (history_keeps options generateCode discovery codes calls w0 Hw0) as [Hw1 Hk1].
  set (w1 := control_history options generateCode calls w0) in *.
  assert (receipt (actorAccountId actor) key r w1) as Hr1 by by apply (receipt_stable _ _ _ w0).
  assert (no_alias (actorAccountId actor) w1) as Hn1.
  { by apply (no_alias_stable _ w0), (no_alias_stable _ w). }
  pose proof (create_app_replays actor' caller' name' key r w1 Hw1) as Hs2. cbv zeta in Hs2.
  rewrite Ha in Hs2. specialize (Hs2 (conj Hn1 Hr1)). rewrite H2 in Hs2. destruct Hs2 as (Hw2 & Hk2 & Hpost).
  pose proof (receipt_stable _ _ _ w1 w2 Hk2 Hr1) as Hr2.
  destruct (ok_receipts _ Hw2 _ _ Hr2) as [Happ Hexp]. rewrite Hexp in Hpost.
  destruct (Hpost Ht) as [-> Hh']. split_and!; [done|congruence|done].
Qed.

(** * Patches *)

(** The App has been patched beyond revision [n]. *)
Definition revision_above app (n : Z) (w : ControlWorld) : Prop :=
  ∃ r, cas_apps (cw_db w) !! app = Some r ∧ n < ap_revision r.
Lemma revision_above_stable app n : control_stable (revision_above app n).
Proof.
  intros w w' [Hk _] (r & Hr & Hn). destruct (kp_apps _ _ Hk _ _ Hr) as (r' & Hr' & Hm & _).
  exists r'. split; [done|lia].
Qed.

Lemma precondition_ok tag P n Q :
  (∀ t, tag = Some t → parseCasAdminETag t = Some n → safe Control P (mret n : ControlAct Z) Q) →
  (∀ m, m ≠ n → safe Control P (mret m : ControlAct Z) Q) → safe Control P (precondition tag) Q.
Proof.
  intros Hn Hm. unfold precondition. destruct tag as [t|]; [|apply safe_throw].
  destruct (strlen (trim t) =? 0); [apply safe_throw|].
  destruct (parseCasAdminETag t) as [m|] eqn:Ht; [|apply safe_throw].
  destruct (decide (m = n)) as [->|Hne]; [by eapply Hn|by apply Hm].
Qed.
(** The revision a precondition names. *)
Definition names_revision (tag : option string) (n : Z) : Prop :=
  ∃ t, tag = Some t ∧ parseCasAdminETag t = Some n.
Lemma precondition_safe P tag : safe Control P (precondition tag) (λ n _, names_revision tag n).
Proof.
  unfold precondition. destruct tag as [t|]; [|apply safe_throw].
  destruct (strlen (trim t) =? 0); [apply safe_throw|].
  destruct (parseCasAdminETag t) as [m|] eqn:Ht; [|apply safe_throw].
  apply safe_ret. intros w _. by exists t.
Qed.

Lemma patch_run actor caller app expected action e t d n d' n' :
  run_statements (patch_app_batch actor caller app expected action e t) (d, n) = Ok (d', n') →
  ∃ r, cas_apps d !! app_appId app = Some r ∧ ap_revision r = expected
    ∧ is_member d (app_appId app) (actorAccountId actor) = true
    ∧ active_identity d (actorExternalIdentityId actor) (actorAccountId actor) = true
    ∧ cas_apps d' !! app_appId app = Some (mkAppRow (ap_display_name (app_row app)) (ap_description (app_row app))
        (ap_status (app_row app)) (ap_created_at r) (ap_revision (app_row app))).
Proof.
  unfold patch_app_batch. intros [Hg Hrun]%run_guard_inv.
  apply andb_true_iff in Hg as [[Hm Hi]%andb_true_iff Hr].
  unfold exists_row in Hr. cbn in Hr. destruct (cas_apps d !! app_appId app) as [r|] eqn:Hrow; [|done].
  apply run_cons_inv in Hrun as (d1 & n1 & Hup & Hrun).
  eapply (update_row_hit _ _ _ _ r) in Hup as [-> _]; [|done|done].
  apply run_cons_inv in Hrun as (d2 & n2 & Hins & Hrun). apply run_cons_inv in Hrun as (d3 & n3 & Hb & [= <- <-]).
  exists r. split_and!; [done|lia|done|done|].
  apply insert_row_inv in Hins as (-> & _). unfold snapshot_bump in Hb.
  apply update_row_inv in Hb as [[-> _]|(v & _ & _ & -> & _)]; apply lookup_insert_eq.
Qed.

(** What a patch that answered did. *)
Definition patched (w0 : ControlWorld) (actor : Actor) (app : string) (patch : AppPatch) (n rev : Z)
    (w : ControlWorld) : Prop :=
  (rev = n ∧ ∃ d r, control_keeps (cw_db w0) d ∧ cas_apps d !! app = Some r ∧ ap_revision r = n
     ∧ patched_row patch r = r)
  ∨ (rev = n + 1 ∧ ∃ d r, control_keeps (cw_db w0) d ∧ cas_apps d !! app = Some r ∧ ap_revision r = n
     ∧ is_member d app (actorAccountId actor) = true
     ∧ active_identity d (actorExternalIdentityId actor) (actorAccountId actor) = true
     ∧ cas_apps (cw_db w) !! app = Some (next_revision (patched_row patch r))).

Lemma patch_safe w0 actor caller app patch tag :
  safe Control (λ w, no_alias (actorAccountId actor) w ∧ world_keeps w0 w)
    (patchApp actor caller app patch tag)
    (λ rev w, ∃ n, names_revision tag n ∧ patched w0 actor app patch n rev w).
Proof.
  set (a := actorAccountId actor).
  assert (control_stable (λ w, no_alias a w ∧ world_keeps w0 w)) as HP.
  { apply stable_and; [apply no_alias_stable|]. intros w w' Hk H. by etrans. }
  unfold patchApp. eapply safe_bind_fact; [done|apply precondition_safe|]. intros n Hn.
  eapply safe_bind_fact; [done|apply (usable_named _ a); [done|by intros w [? _]]|]. intros account Ha.
  apply safe_skip; [done|harmless|intros _].
  eapply safe_bind with (Q := λ o w, match o with
    | Some x => app_appId x = app ∧ (∃ d, control_keeps (cw_db w0) d ∧ cas_apps d !! app = Some (app_row x))
                ∧ ∃ r, cas_apps (cw_db w) !! app = Some r ∧ app_evolves (app_row x) r
    | None => True end); [done| |].
  { apply read_safe; [done|]. intros w _ [_ [Hk _]]. cbn. destruct (is_member _ _ _); [|done].
    destruct (cas_apps (cw_db w) !! app) as [r|] eqn:Hr; [|done]. split_and!; [done|by exists (cw_db w)|by exists r]. }
  intros [x|]; [|apply safe_throw].
  apply safe_fail_if_fact. intros Hx%negb_false_iff%Z.eqb_eq. apply safe_fail_if_fact. intros _. cbv zeta.
  destruct (bool_decide (patched_row patch (app_row x) = app_row x)) eqn:Hsame.
  { apply bool_decide_eq_true in Hsame. apply safe_ret. intros w (_ & _ & (d & Hd & Hxd) & _).
    exists n. split; [done|]. left. split; [done|by exists d, (app_row x)]. }
  set (P := λ w, (no_alias a w ∧ world_keeps w0 w)
    ∧ app_appId x = app ∧ (∃ d, control_keeps (cw_db w0) d ∧ cas_apps d !! app = Some (app_row x))
    ∧ ∃ r, cas_apps (cw_db w) !! app = Some r ∧ app_evolves (app_row x) r).
  assert (control_stable P) as HP'.
  { apply stable_and; [done|]. apply stable_and; [apply stable_pure|]. apply stable_and; [apply stable_pure|].
    intros w w' [Hk _] (r & Hr & He).
    destruct (kp_apps _ _ Hk _ _ Hr) as (r' & Hr' & He'). exists r'. split; [done|by etrans]. }
  apply safe_skip; [done|harmless|intros e]. apply safe_skip; [done|harmless|intros t].
  unfold commitPatchAccountApp. eapply safe_chain with (Q := λ word w,
    one_of ["actor-not-member"; "revision-mismatch"; "not-found"] word = true
    ∨ word = "updated" ∧ ∃ d r, control_keeps (cw_db w0) d ∧ cas_apps d !! app = Some r ∧ ap_revision r = n
     ∧ is_member d app a = true ∧ active_identity d (actorExternalIdentityId actor) a = true
     ∧ cas_apps (cw_db w) !! app = Some (next_revision (patched_row patch r))).
  - apply safe_skip; [done|harmless|intros i]. destruct (negb _); [apply safe_ret; by left|].
    apply control_commit_safe; [done| | |].
    + cbn. apply Z.eqb_eq. lia.
    + intros w d k Hw HPw Hrun. right. split; [done|].
      unfold P in HPw. destruct HPw as ([Hna Hk0] & Hax & _ & r & Hr & Hre).
      apply patch_run in Hrun as (r' & Hr' & Hrev & Hm & Hact & Hnew). cbn [app_appId actorAccountId actorExternalIdentityId app_row] in *.
      rewrite Hax, Ha in *. rewrite Hr in Hr'. injection Hr' as <-.
      assert (app_row x = r) as Hxr by (apply Hre; lia).
      exists (cw_db w), r. split_and!; try done; [apply Hk0|].
      change (cw_db (set_control_db d w)) with d. rewrite Hnew. by rewrite Hxr.
    + intros e'. eapply answers_use; [|by intros word w' Hword; left; exact Hword]. failure_words.
  - intros word. apply safe_fail_if_fact; intros Hf. apply safe_fail_if_fact; intros Hf'.
    apply orb_false_iff in Hf as [? ?]. apply safe_ret. intros w [?|[_ Hq]]; [word_refuted|].
    exists n. split; [done|]. right. split; [lia|done].
Qed.
(** A precondition that is behind is refused. *)
Lemma stale_patch_refused actor caller app patch tag n : names_revision tag n →
  safe Control (revision_above app n) (patchApp actor caller app patch tag) (λ _ _, False).
Proof.
  pose proof (revision_above_stable app n) as HP. intros Hn.
  unfold patchApp. eapply safe_bind_fact; [done|apply precondition_safe|]. intros m Hm.
  assert (m = n) as -> by (destruct Hm as (t & -> & ?), Hn as (t' & [= <-] & ?); congruence).
  apply safe_skip; [done|harmless|intros account]. apply safe_skip; [done|harmless|intros _].
  eapply safe_bind_fact with (φ := λ o, match o with Some x => n < ap_revision (app_row x) | None => True end); [done| |].
  { apply read_safe; [done|]. intros w _ (r & Hr & Hlt). cbn. destruct (is_member _ _ _); [|done]. by rewrite Hr. }
  intros [x|] Hx; [|apply safe_throw]. apply safe_fail_if_fact. intros E%negb_false_iff%Z.eqb_eq. lia.
Qed.

(** C8: No update of an App is lost: a patch answers with the revision after the one its
    precondition names exactly when it replaced the row of that revision, which its member
    could patch, by that row patched; and after that no patch with the same precondition is
    ever accepted, by anybody. *)
Theorem patchApp_no_lost_update calls w actor actor' caller caller' app patch patch' tag rev w1 :
  control_ok (cw_db w) → no_alias (actorAccountId actor) w →
  patchApp actor caller app patch tag w = (Ok rev, w1) →
  ∃ n, names_revision tag n ∧ patched w actor app patch n rev w1
    ∧ (rev = n + 1 → ∃ e,
         fst (patchApp actor' caller' app patch' tag (control_history options generateCode calls w1)) = Throw e).
Proof.
  intros Hw Hn H1. pose proof (patch_safe w actor caller app patch tag w Hw (conj Hn (reflexivity (R := world_keeps) w))) as Hs.
  rewrite H1 in Hs. destruct Hs as (Hw1 & Hk1 & n & Htag & Hp). exists n. split_and!; [done|done|]. intros Hrev.
  destruct Hp as [[E _]|(_ & d & r & _ & _ & Hr & _ & _ & Hnew)]; [lia|].
  assert (revision_above app n w1) as Ha1 by (exists (next_revision (patched_row patch r)); split; [done|cbn; lia]).
  destruct (history_keeps options generateCode discovery codes calls w1 Hw1) as [Hw2 Hk2].
  set (w2 := control_history options generateCode calls w1) in *.
  pose proof (stale_patch_refused actor' caller' app patch' tag n Htag _ Hw2 (revision_above_stable _ _ _ _ Hk2 Ha1)) as H2.
  destruct (patchApp actor' caller' app patch' tag w2) as [[?|e] w3]; [by destruct H2 as (_ & _ & [])|by exists e].
Qed.
End apps.
