(* ===== verification/InvitationSafe.v ===== *)
(** Invitations to an App: a token opens its App once, to an account that is usable, and
    to the address the invitation names when it names one. *)
From stdpp Require Import sorting.
From S2P Require Import Prelude Js JsonText MapSum Errors Safe Codec World ControlStore.
From S2P Require Import AccountBatches InvitationBatches ControlWorld ControlInv ControlRuns.
From S2P Require Import ControlCommands ControlSafe ControlValidation AccountRepo Account.
From S2P Require Import ControlHistory CredentialSafe.

(** * What the batch of an acceptance did *)

(** Statements that do not touch the tables of an acceptance. *)
Definition same_doors (d d' : ControlDb) : Prop :=
  cas_app_member_invitations d' = cas_app_member_invitations d ∧ cas_app_members d' = cas_app_members d
  ∧ cas_external_identities d' = cas_external_identities d.
#[local] Instance same_doors_pre : PreOrder same_doors.
Proof. split; [done|]. intros d1 d2 d3 (?&?&?) (?&?&?). split_and!; congruence. Qed.

Lemma consume_same kind i token actor c ev email t l d n d' n' :
  run_statements (consume_challenge kind i token actor c ev email t ++ l) (d, n) = Ok (d', n') →
  ∃ d1 n1, same_doors d d1 ∧ run_statements l (d1, n1) = Ok (d', n').
Proof.
  intros (v & _ & _ & Hrun)%run_changed_inv. eexists _, _. split; [|exact Hrun]. by repeat split.
Qed.
(** A member that may not be inserted is one already. *)
Lemma member_inserted c key t d n d' n' : c d = true →
  insert_or_ignore AppMembers c key t (d, n) = Ok (d', n') →
  stored AppMembers d' key = true ∧ cas_app_member_invitations d' = cas_app_member_invitations d.
Proof.
  intros Hc. unfold insert_or_ignore. rewrite Hc. unfold insert_row. cbn [t_check t_unique AppMembers no_check no_unique negb].
  rewrite orb_false_r. destruct (stored AppMembers d key) eqn:Hs.
  - by intros [= <- <-].
  - destruct (t_refs AppMembers d key t); cbn [negb]; [|done].
    intros Heq. assert (d' = put AppMembers key t d) as -> by congruence.
    split; [|done]. rewrite stored_put by done. by rewrite bool_decide_eq_true_2.
Qed.
(** The statements after it. *)
Lemma accept_rest primary actor caller app i e t d n d' n' :
  run_statements (match primary with
                  | Some email => [initialize_primary (actorAccountId actor) email t]
                  | None => []
                  end ++ [appAuditStatement actor caller app "member.invitation.accepted" i e t]
                  ++ controlSnapshotStatements) (d, n) = Ok (d', n') → same_doors d d'.
Proof.
  intros ([d1 n1] & H1 & Hrun)%run_app_inv.
  apply run_cons_inv in Hrun as (d2 & n2 & H2 & (m & ->)%run_snapshot_inv).
  assert (same_doors d d1) as H01.
  { destruct primary; [|by injection H1 as <- <-]. apply run_cons_inv in H1 as (d3 & n3 & Hu & [= <- <-]).
    unfold initialize_primary in Hu. by apply update_row_inv in Hu as [[-> _]|(v & _ & _ & -> & _)]. }
  assert (same_doors d1 d2) as H12.
  { unfold appAuditStatement, insert_where in H2. destruct (active_identity _ _ _); [|by injection H2 as <- <-].
    by apply insert_row_inv in H2 as (-> & _). }
  etrans; [exact H01|]. etrans; [exact H12|]. by repeat split.
Qed.


Lemma accept_run actor caller app i token primary challenge e t d n d' n' :
  run_statements (accept_invitation_batch actor caller app i token primary challenge e t) (d, n) = Ok (d', n') →
  account_actor d actor = true
  ∧ ∃ r, cas_app_member_invitations d !! i = Some r ∧ ai_app_id r = app ∧ ai_token_hash r = token
    ∧ ai_status r = Pending ∧ t < ai_expires_at r
    ∧ cas_app_member_invitations d' !! i = Some (set_invitation_status Accepted r)
    ∧ is_member d' app (actorAccountId actor) = true.
Proof.
  unfold accept_invitation_batch. intros [Hactor Hrun]%run_guard_inv. split; [done|].
  apply andb_true_iff in Hactor as [_ Hactive].
  assert (∃ d1 n1, same_doors d d1 ∧ run_statements
    ([update_row AppInvitations i
        (λ _ r, bool_decide (ai_app_id r = app) && bool_decide (ai_token_hash r = token)
                && bool_decide (ai_status r = Pending) && (t <? ai_expires_at r))
        (set_invitation_status Accepted); require_changed;
      insert_or_ignore AppMembers
        (λ d, active_identity d (actorExternalIdentityId actor) (actorAccountId actor))
        (app, actorAccountId actor) t]
     ++ match primary with Some email => [initialize_primary (actorAccountId actor) email t] | None => [] end
     ++ [appAuditStatement actor caller app "member.invitation.accepted" i e t]
     ++ controlSnapshotStatements) (d1, n1) = Ok (d', n')) as (d1 & n1 & (Ei & Em & Ex) & Hrun1).
  { destruct challenge as [[c ev]|], primary as [email|];
      first [by apply consume_same in Hrun | by eexists _, _]. }
  clear Hrun. apply run_changed_inv in Hrun1 as (r & Hr & Hp & Hrun). cbn in Hr. rewrite Ei in Hr.
  apply andb_true_iff in Hp as [[[Happ%bool_decide_eq_true Htok%bool_decide_eq_true]%andb_true_iff
    Hst%bool_decide_eq_true]%andb_true_iff Hexp%Z.ltb_lt].
  apply run_cons_inv in Hrun as (d2 & n2 & [Hm Hinv]%member_inserted & Hrun).
  2:{ unfold active_identity, exists_row in *. cbn. by rewrite Ex. }
  apply accept_rest in Hrun as (Ei' & Em' & _). exists r. split_and!; try done.
  - rewrite Ei', Hinv. apply lookup_insert_eq.
  - unfold is_member, stored in *. cbn in *. by rewrite Em'.
Qed.

Lemma select_in {V} (p : string → V → bool) (m : gmap string V) i v :
  (i, v) ∈ select_rows p m → m !! i = Some v ∧ p i v = true.
Proof.
  unfold select_rows. rewrite merge_sort_Permutation. intros [Hp Hin]%list_elem_of_filter.
  by apply elem_of_map_to_list in Hin.
Qed.

(** * Tokens *)

Section tokens.
Context {Hsha : Sha256} {Hent : Entropy} {Hurl : UrlParser} {Hjws : CompactJws}.
Context {Hsec : P.InvitationSecrets} {Hpat : P.EmailPattern}.
Context (options : AccountServiceOptions) (generateCode : ControlAct string).
Hypothesis discovery : discovery_harmless options.
Hypothesis codes : harmless generateCode.
Implicit Types (a token : string).

(** The invitation of the token is not pending any more. *)
Definition token_used token (w : ControlWorld) : Prop :=
  ∃ i r, cas_app_member_invitations (cw_db w) !! i = Some r ∧ ai_token_hash r = sha256Hex token
         ∧ ai_status r ≠ Pending.
Lemma token_used_stable token : control_stable (token_used token).
Proof.
  intros w w' [Hk _] (i & r & Hr & Ht & Hs). destruct (kp_invitations _ _ Hk _ _ Hr) as (r' & Hr' & He).
  exists i, r'. destruct He as (_ & Ht' & _ & _ & _ & _ & Hsame). rewrite (Hsame Hs) in *. done.
Qed.

(** The invitation a token leads to, as it was when it was read. *)
Definition led_to token (x : AccountAppInvitationRecord) (w : ControlWorld) : Prop :=
  ∃ r0 r, air_tokenHash x = sha256Hex token ∧ air_invitation x = invitation_of (inv_invitationId (air_invitation x)) r0
    ∧ cas_app_member_invitations (cw_db w) !! inv_invitationId (air_invitation x) = Some r ∧ invitation_evolves r0 r.
Lemma led_to_stable token x : control_stable (led_to token x).
Proof.
  intros w w' [Hk _] (r0 & r & ? & ? & Hr & He). destruct (kp_invitations _ _ Hk _ _ Hr) as (r' & Hr' & He').
  exists r0, r'. split_and!; [done..|by etrans].
Qed.
Lemma read_token P token : control_stable P →
  safe Control P (getAccountAppInvitationByTokenHash (sha256Hex token))
    (λ o w, match o with
            | Some x => led_to token x w ∧ (token_used token w → inv_status (air_invitation x) ≠ Pending)
            | None => True
            end).
Proof.
  intros HP. apply read_safe; [done|]. intros w Hw _. cbv beta.
  destruct (select_rows _ _) as [|[i r] l] eqn:Hsel; [done|].
  assert ((i, r) ∈ select_rows (λ _ r, bool_decide (ai_token_hash r = sha256Hex token))
    (cas_app_member_invitations (cw_db w))) as [Hr Ht%bool_decide_eq_true]%select_in by (rewrite Hsel; left).
  split.
  - exists r, r. split_and!; [done..|reflexivity].
  - intros (j & s & Hs & Htok & Hst). cbn.
    assert (i = j) as -> by (eapply (ok_tokens _ Hw); [exact Hr|exact Hs|congruence]). by simplify_eq.
Qed.

Lemma read_used token :
  safe Control (token_used token) (getAccountAppInvitationByTokenHash (sha256Hex token))
    (λ o _, match o with Some x => inv_status (air_invitation x) ≠ Pending | None => True end).
Proof.
  intros w Hw Hu. pose proof (read_token (token_used token) token (token_used_stable token) w Hw Hu) as H.
  destruct (getAccountAppInvitationByTokenHash (sha256Hex token) w) as [[[x|]|e] w']; [|done..].
  destruct H as (Hw' & Hk & _ & Hst). split_and!; [done..|]. by apply Hst, (token_used_stable token w).
Qed.

(** What an acceptance leaves. *)
Definition admitted a token (evidence : list VerifiedEmailEvidence) (app : string) (w : ControlWorld) : Prop :=
  is_member (cw_db w) app a = true
  ∧ ∃ i r, cas_app_member_invitations (cw_db w) !! i = Some r ∧ ai_token_hash r = sha256Hex token
    ∧ ai_app_id r = app ∧ ai_status r = Accepted
    ∧ ∀ email, ai_email_constraint r = Some email →
        ∃ ev t, ev ∈ evidence ∧ ve_normalizedEmail ev = normalizeEmail email
                ∧ ve_verifiedAt ev ≤ t < ve_expiresAt ev.

Lemma accept_safe actor caller token evidence : let a := actorAccountId actor in
  safe Control (no_alias a) (acceptAppMemberInvitation actor caller token evidence) (admitted a token evidence).
Proof.
  intros a. pose proof (no_alias_stable a) as HP. unfold acceptAppMemberInvitation.
  apply safe_fail_if_fact; intros _. eapply safe_bind_fact; [done|by apply usable_named|]. intros account Ha.
  apply safe_skip; [done|harmless|intros _].
  eapply safe_chain with (Q := λ o w, match o with Some x => led_to token x w | None => True end).
  { eapply safe_post; [|by apply read_token]. by intros [x|] w; [intros [? _]|]. }
  intros [x|]; [|apply safe_skip; [by intros ?|harmless|intros t; apply safe_throw]].
  pose proof (led_to_stable token x) as HPx.
  apply safe_skip; [done|harmless|intros t]. apply safe_fail_if_fact; intros _.
  eapply safe_bind_fact with (φ := λ m, ∀ email, inv_emailConstraint (air_invitation x) = Some email →
    ∃ ev t, ev ∈ evidence ∧ ve_normalizedEmail ev = normalizeEmail email ∧ ve_verifiedAt ev ≤ t < ve_expiresAt ev);
    [done| |].
  { destruct (inv_emailConstraint _) as [email|]; [|by apply safe_ret].
    destruct (requireInvitationEmailEvidence evidence email t) as [ev|e] eqn:Hev; [|apply safe_throw].
    apply safe_ret. intros w _ _ [= <-]. apply requireInvitationEmailEvidence_sound in Hev as (? & ? & ? & _).
    by exists ev, t. }
  intros m Hmail. apply safe_skip; [done|harmless|intros e].
  eapply safe_chain.
  - apply (commit_words _ (AcceptInvitation (mkActor (accountId account) (actorExternalIdentityId actor)) caller
      (inv_appId (air_invitation x)) (inv_invitationId (air_invitation x)) (air_tokenHash x)
      (evidence_email <$> m) (m ≫= evidence_challenge) e t) "accepted"
      ["account-unavailable"; "invitation-unavailable"] _
      (admitted a token evidence (inv_appId (air_invitation x)))); [done|done| |].
    + intros w d n _ (r0 & r1 & Htok & Hx & Hr1 & He) (_ & r & Hr & Happ & Hh & _ & _ & Hnew & Hm)%accept_run.
      cbn [actorAccountId] in Hm. rewrite Ha in Hm. rewrite Hr in Hr1. injection Hr1 as <-.
      split; [done|]. eexists _, _. split; [exact Hnew|]. split_and!; [by rewrite <-Htok|done|done|].
      cbn. intros email Hemail. apply Hmail. rewrite Hx. cbn.
      destruct He as (_ & _ & _ & <- & _). done.
    + intros e'. failure_words.
  - intros word. apply safe_fail_if_fact; intros ?. apply safe_fail_if_fact; intros ?. apply safe_ret.
    intros w [?|[_ ?]]; [word_refuted|done].
Qed.

(** A token that was used opens nothing. *)
Lemma used_token_refused actor caller token evidence :
  safe Control (token_used token) (acceptAppMemberInvitation actor caller token evidence) (λ _ _, False).
Proof.
  pose proof (token_used_stable token) as HP. unfold acceptAppMemberInvitation.
  apply safe_fail_if_fact; intros _. apply safe_skip; [done|harmless|intros account].
  apply safe_skip; [done|harmless|intros _].
  eapply safe_bind_fact; [done|by apply read_used|]. intros o Ho.
  apply safe_skip; [done|harmless|intros t]. destruct o as [x|]; [|apply safe_throw].
  rewrite bool_decide_eq_false_2 by exact Ho. apply safe_throw.
Qed.
Lemma used_token_unresolved token :
  safe Control (token_used token) (resolveAppMemberInvitation token) (λ _ _, False).
Proof.
  pose proof (token_used_stable token) as HP. unfold resolveAppMemberInvitation.
  apply safe_fail_if_fact; intros _. eapply safe_bind_fact; [done|by apply read_used|]. intros o Ho.
  apply safe_skip; [done|harmless|intros t]. destruct o as [x|]; [|apply safe_throw].
  rewrite bool_decide_eq_false_2 by exact Ho. apply safe_throw.
Qed.

End tokens.
