(* ===== verification/ChallengeSafe.v ===== *)
(** Email challenges: evidence of an address comes from the code that was sent to it, and
    from one of a few attempts; codes are six digits, drawn evenly. *)
From Stdlib Require Import Ascii.
From S2P Require Import Prelude Js JsString JsonText MapSum Errors Safe Codec World ControlStore.
From S2P Require Import AccountBatches InvitationBatches ControlWorld ControlInv ControlRuns.
From S2P Require Import ControlCommands ControlSafe ControlValidation AccountRepo Account.
From S2P Require Import EmailChallenge ControlHistory.

Section challenges.
Context {Hsha : Sha256} {Hent : Entropy}.
Implicit Types (challengeId secret code : string) (b : EmailChallengeBinding).

(** The challenge with one attempt more, which verified it. *)
Definition verified_row (t : Z) (c : EmailChallengeRow) : EmailChallengeRow :=
  mkEmailChallengeRow (ec_binding c) (ec_code_hash c) (ec_expires_at c) (ec_attempt_count c + 1)
    (ec_max_attempts c) (ec_send_count c) (ec_last_sent_at c) (Some t) (ec_consumed_at c)
    (ec_invalidated_at c) (ec_created_at c).

(** The code an answer is compared as. *)
Definition compared (code : string) : string := if six_digits code then code else "invalid".

(** A challenge that was read in the past of [w]. *)
Definition was_read w0 challengeId (c : EmailChallengeRow) : Prop :=
  ∃ d, control_keeps (cw_db w0) d ∧ cas_email_challenges d !! challengeId = Some c ∧ challenge_ok c.

(** What stands behind evidence: a challenge for the same invitation and identity, that
    could be answered and was answered with its code, and still could at the write, which
    counted the attempt. *)
Definition evidence_of w0 challengeId b secret code (e : VerifiedEmailEvidence) (w : ControlWorld) : Prop :=
  ∃ c c' t, was_read w0 challengeId c ∧ ec_binding c = b ∧ ec_code_hash c = hashCode challengeId secret (compared code)
    ∧ ec_attempt_count c < EMAIL_CHALLENGE_MAX_ATTEMPTS ∧ t < ec_expires_at c ∧ cw_clock w0 ≤ t ≤ cw_clock w
    ∧ was_read w0 challengeId c' ∧ ec_code_hash c' = ec_code_hash c ∧ ec_attempt_count c' = ec_attempt_count c
    ∧ ec_verified_at c' = None ∧ ec_consumed_at c' = None ∧ ec_invalidated_at c' = None ∧ t < ec_expires_at c'
    ∧ cas_email_challenges (cw_db w) !! challengeId = Some (verified_row t c')
    ∧ e = mkEvidence (eb_normalizedEmail b) UnicasEmailChallenge t (ec_expires_at c)
            (eb_authenticationEventId b) (Some challengeId).

Lemma verify_safe w0 challengeId b secret code :
  safe Control (world_keeps w0) (verify challengeId b secret code) (evidence_of w0 challengeId b secret code).
Proof.
  assert (control_stable (world_keeps w0)) as HP by (intros w w' Hk H; by etrans).
  assert (∀ t, control_stable (λ w, world_keeps w0 w ∧ cw_clock w0 ≤ t ≤ cw_clock w)) as HPt.
  { intros t w w' [Hk Hc] [H ?]. split; [etrans; [exact H|by split]|lia]. }
  unfold verify. eapply safe_bind with (Q := λ t w, cw_clock w0 ≤ t ≤ cw_clock w); [done| |].
  { apply safe_gets. intros w [_ Hc]. lia. }
  intros t. change (if six_digits code then code else "invalid") with (compared code).
  set (answer := hashCode challengeId secret (compared code)). unfold verifyChallenge.
  eapply safe_chain with (Q := λ r w, match r with
    | Some (at_, expires) => evidence_of w0 challengeId b secret code (mkEvidence (eb_normalizedEmail b)
        UnicasEmailChallenge at_ expires (eb_authenticationEventId b) (Some challengeId)) w
    | None => True
    end).
  2:{ intros [[at_ expires]|]; [by apply safe_ret|apply safe_throw]. }
  eapply safe_bind_fact with (φ := λ o, match o with Some c => was_read w0 challengeId c | None => True end);
    [apply HPt| |].
  { apply read_safe; [apply HPt|]. intros w Hw [[Hk _] _].
    destruct (cas_email_challenges (cw_db w) !! challengeId) as [c|] eqn:Hc; [|done].
    exists (cw_db w). split_and!; [done|done|by eapply (ok_challenges _ Hw)]. }
  intros [c|] Hread; [|by apply safe_ret].
  destruct (answerable c b t) eqn:Ha; cbn [negb]; [|by apply safe_ret].
  unfold answerable in Ha. rewrite !andb_true_iff, !bool_decide_eq_true in Ha.
  destruct Ha as [[[[[Hb _] _] _] Hexp%negb_true_iff%Z.leb_gt] Hatt%negb_true_iff%Z.leb_gt].
  assert (ec_attempt_count c < EMAIL_CHALLENGE_MAX_ATTEMPTS) as Hlt.
  { destruct Hread as (d & _ & _ & Hm & _). lia. }
  eapply safe_chain with (Q := λ n w, n = 1 → fixedHashEqual (ec_code_hash c) answer = true →
    evidence_of w0 challengeId b secret code (mkEvidence (eb_normalizedEmail b) UnicasEmailChallenge t
      (ec_expires_at c) (eb_authenticationEventId b) (Some challengeId)) w).
  - apply batch_safe; [apply HPt|cbn; by apply Z.ltb_lt|].
    intros w d n Hw [[Hk _] Ht] Hrun Hn Hmatch. rewrite Hmatch in Hrun.
    apply (run_cons_inv (verify_challenge_stmt _ _ _ _ _)) in Hrun as (d1 & n1 & Hup & [= <- <-]).
    unfold verify_challenge_stmt in Hup. apply update_row_inv in Hup as [[_ ?]|(c' & Hc' & Hp & -> & _)]; [lia|].
    rewrite !andb_true_iff, !bool_decide_eq_true, Z.eqb_eq, Z.ltb_lt in Hp.
    destruct Hp as [[[[[? ?] ?] ?] ?] ?]. apply fixedHashEqual_spec in Hmatch as [Hcode _].
    exists c, c', t. split_and!; try done; try (cbn; lia).
    + exists (cw_db w). split_and!; [done|done|by eapply (ok_challenges _ Hw)].
    + apply lookup_insert_eq.
  - intros n. destruct (Z.eqb_spec n 1) as [->|]; [|by apply safe_ret].
    destruct (fixedHashEqual _ _) eqn:Hm; cbn [negb orb]; [|by apply safe_ret].
    apply safe_ret. auto.
Qed.

(** C9: Evidence of an address comes only from its code: when an answer to a challenge gives
    evidence, the challenge was one for that invitation, address and identity, open and
    tried fewer than five times, whose code is the one of the answer; the write that
    accepted it found the challenge so, counted the attempt and marked it verified; and no
    challenge has been tried more than five times or sent more than three. *)
Theorem verify_sound w challengeId b secret code e w1 :
  control_ok (cw_db w) → verify challengeId b secret code w = (Ok e, w1) →
  evidence_of w challengeId b secret code e w1
  ∧ ∀ i c, cas_email_challenges (cw_db w1) !! i = Some c →
      ec_attempt_count c ≤ EMAIL_CHALLENGE_MAX_ATTEMPTS ∧ ec_send_count c ≤ EMAIL_CHALLENGE_MAX_SENDS.
Proof.
  intros Hw H1. pose proof (verify_safe w challengeId b secret code w Hw (reflexivity (R := world_keeps) w)) as Hs.
  rewrite H1 in Hs. destruct Hs as (Hw1 & _ & He). split; [done|]. intros i c Hc.
  by destruct (ok_challenges _ Hw1 i c Hc) as (_ & ? & ?).
Qed.

(** * Codes *)

Lemma draw_world n w : getRandomValues n w
  = (Ok (random_byte <$> seq (cw_drawn w) n), mkControlWorld (cw_db w) (cw_clock w) (cw_drawn w + n) (cw_sched w)).
Proof. done. Qed.
(** The number that is drawn when [k] numbers were. *)
Definition drawn_number (start k : nat) : Z := uint32 (random_byte <$> seq (start + 4 * k) 4).

Lemma uint32_range bs : length bs = 4%nat → 0 ≤ uint32 bs < 2 ^ 32.
Proof.
  destruct bs as [|a [|b' [|c [|d []]]]]; try done. intros _. cbn.
  pose proof (byte_val_range a). pose proof (byte_val_range b'). pose proof (byte_val_range c).
  pose proof (byte_val_range d). lia.
Qed.

(** A number below a million has at most six digits. *)
Lemma digits_grow l acc : forallb is_digit l = true → 0 < acc →
  acc * 10 ^ Z.of_nat (length l) ≤ foldl (λ n c, 10 * n + digit_val c) acc l.
Proof.
  revert acc. induction l as [|c l IH]; intros acc Hd Ha; cbn [foldl length]; [lia|].
  apply andb_true_iff in Hd as [Hc%digit_val_range Hd].
  specialize (IH (10 * acc + digit_val c) Hd ltac:(lia)).
  rewrite Nat2Z.inj_succ, Z.pow_succ_r by lia.
  assert (0 < 10 ^ Z.of_nat (length l)) by (apply Z.pow_pos_nonneg; lia). nia.
Qed.
Lemma show_length n : 0 ≤ n < CODE_RANGE → (length (chars (show n)) ≤ 6)%nat.
Proof.
  intros Hn. destruct n as [|p|p]; [by vm_compute; lia| |lia].
  destruct (pretty_positive_digits p) as (l & Hl & Hd & Hv & Hh).
  change (chars (show (Z.pos p))) with (chars (pretty (Npos p))). rewrite Hl.
  destruct l as [|c l]; [cbn; lia|]. cbn in Hh. apply andb_true_iff in Hd as [Hc Hd].
  assert (0 < digit_val c) as Hpos.
  { pose proof (digit_val_range c Hc) as Hr. destruct (decide (digit_val c = 0)) as [E|]; [|lia].
    destruct Hh. apply code_inj. unfold digit_val in E. change (code "0"%char) with 48. lia. }
  assert (10 ^ Z.of_nat (length l) < 10 ^ 6) as Hlt.
  { unfold digits_val in Hv. cbn [foldl] in Hv.
    pose proof (digits_grow l (10 * 0 + digit_val c) Hd ltac:(lia)) as Hg. rewrite Hv in Hg.
    assert (0 < 10 ^ Z.of_nat (length l)) by (apply Z.pow_pos_nonneg; lia).
    change (10 ^ 6) with CODE_RANGE. nia. }
  cbn [length]. apply Z.pow_lt_mono_r_iff in Hlt; lia.
Qed.
Lemma padded_code n : 0 ≤ n < CODE_RANGE → six_digits (padStart6 (show n)) = true.
Proof.
  intros Hn. destruct (show_digits n ltac:(lia)) as (Hd & _ & _). pose proof (show_length n Hn) as Hl.
  unfold six_digits, padStart6, all_chars, strlen. rewrite <-length_chars, chars_app, chars_of_chars, length_app,
    length_replicate, forallb_app, Hd, <-length_chars, andb_true_r. apply andb_true_iff. split.
  - apply Z.eqb_eq. lia.
  - generalize (6 - length (chars (show n)))%nat as k. by induction k.
Qed.

(** A code is six digits: the first number drawn below the limit, reduced; as many turns
    as numbers are drawn are enough. *)
Lemma generateSixDigitCode_draws fuel k w :
  (∀ j, (j < k)%nat → CODE_LIMIT ≤ drawn_number (cw_drawn w) j) → drawn_number (cw_drawn w) k < CODE_LIMIT →
  (k < fuel)%nat →
  ∃ code w', generateSixDigitCode fuel w = (Ok code, w') ∧ six_digits code = true
    ∧ code = padStart6 (show (drawn_number (cw_drawn w) k mod CODE_RANGE)).
Proof.
  revert k w. induction fuel as [|fuel IH]; intros k w Hbefore Hk Hf; [lia|]. cbn [generateSixDigitCode].
  unfold mbind, M_bind. rewrite draw_world. cbv zeta.
  destruct k as [|k].
  - unfold drawn_number in Hk. rewrite Nat.mul_0_r, Nat.add_0_r in Hk.
    destruct (Z.leb_spec CODE_LIMIT (uint32 (random_byte <$> seq (cw_drawn w) 4))) as [Hle|_]; [lia|].
    eexists _, _. split; [done|]. unfold drawn_number. rewrite Nat.mul_0_r, Nat.add_0_r. split; [|done].
    apply padded_code. by apply Z.mod_pos_bound.
  - pose proof (Hbefore 0%nat ltac:(lia)) as H0. unfold drawn_number in H0. rewrite Nat.mul_0_r, Nat.add_0_r in H0.
    destruct (Z.leb_spec CODE_LIMIT (uint32 (random_byte <$> seq (cw_drawn w) 4))) as [_|Hlt]; [|lia].
    assert (∀ j, drawn_number (cw_drawn w + 4) j = drawn_number (cw_drawn w) (S j)) as Hshift.
    { intros j. unfold drawn_number. do 3 f_equal. lia. }
    edestruct (IH k) as (code & w' & Hrun & Hsix & Hcode); [| |lia|].
    3:{ exists code, w'. split_and!; [exact Hrun|done|]. rewrite Hcode. cbn [cw_drawn]. by rewrite Hshift. }
    + intros j Hj. cbn [cw_drawn]. rewrite Hshift. apply Hbefore. lia.
    + cbn [cw_drawn]. by rewrite Hshift.
Qed.
End challenges.
