(* ===== verification/ExpireLoop.v ===== *)
(** The loop that expires the invitations of an App before they are listed ends: while
    other workers act it uses up what they do, and then every turn goes past a hundred
    invitations of a table that does not grow any more. *)
From stdpp Require Import sorting.
From S2P Require Import Prelude Js JsString JsonText MapSum Errors Safe Codec World ControlStore.
From S2P Require Import AccountBatches InvitationBatches ControlWorld ControlInv ControlRuns.
From S2P Require Import ControlCommands ControlSafe ControlValidation AccountRepo Account.
From S2P Require Import InvitationSafe.

Definition not_fuel (e : exn) : Prop := e ≠ Error "out of fuel".

(** * What a turn keeps *)

(** What others will do is used up, and when nothing is left of it the invitations are
    those that were there. *)
Definition loop_keeps (w w' : ControlWorld) : Prop :=
  (length (cw_sched w') ≤ length (cw_sched w))%nat
  ∧ (cw_sched w = [] → dom (cas_app_member_invitations (cw_db w')) = dom (cas_app_member_invitations (cw_db w))).
#[export] Instance loop_keeps_pre : PreOrder loop_keeps.
Proof.
  split; [by split|]. intros w1 w2 w3 [H1 E1] [H2 E2]. split; [lia|]. intros H. rewrite E2; [by apply E1|].
  rewrite H in H1. by destruct (cw_sched w2); [|cbn in H1; lia].
Qed.
Definition Loop : Invariant ControlWorld :=
  mkInvariant (λ _, True) loop_keeps (reflexivity (R := loop_keeps)) (transitivity (R := loop_keeps)).
Notation ends m := (covers Loop not_fuel (λ _, True) m (λ _ _, True)).

Lemma loop_true : stable Loop (λ _, True).
Proof. by intros w w' _ _. Qed.

Section turns.
Context {Hent : Entropy}.

Lemma ends_seq {A B} (m : ControlAct A) (f : A → ControlAct B) : ends m → (∀ a, ends (f a)) → ends (m ≫= f).
Proof. intros Hm Hf. by apply covers_seq; [apply loop_true|..]. Qed.
Lemma ends_ret {A} (a : A) : ends (mret a : ControlAct A).
Proof. by apply covers_ret. Qed.
(** A call uses up what was to happen before it. *)
Lemma ends_external {A} (f : ControlAct A) :
  (∀ w, match f w with
        | (r, w') => cw_sched w' = cw_sched w
            ∧ dom (cas_app_member_invitations (cw_db w')) = dom (cas_app_member_invitations (cw_db w))
            ∧ match r with Ok _ => True | Throw e => not_fuel e end
        end) → ends (control_external f).
Proof.
  intros Hf w _ _. unfold control_external, control_enter.
  destruct (cw_sched w) as [|t l] eqn:Hs.
  - specialize (Hf w). destruct (f w) as [[a|e] w']; destruct Hf as (H1 & H2 & H3).
    all: split_and!; try done; split; [by rewrite H1|done].
  - set (w1 := mkControlWorld _ _ _ _). assert (loop_keeps w w1) as Hk.
    { split; [rewrite Hs; cbn; lia|by rewrite Hs]. }
    specialize (Hf w1). destruct (ct_outcome t).
    + destruct (f w1) as [[a|e] w']; destruct Hf as (H1 & H2 & H3).
      all: split_and!; try done; etrans; [exact Hk|]; split; [by rewrite H1|done].
    + by split_and!.
    + destruct (f w1) as [r w']; destruct Hf as (H1 & H2 & _).
      split_and!; [done| |done]. etrans; [exact Hk|]. split; [by rewrite H1|done].
Qed.
Lemma ends_read {A} (q : ControlDb → A) : ends (control_read q).
Proof. by apply ends_external. Qed.

Lemma transition_dom actor caller app i expected revoke e t d n d' n' :
  run_statements (invitation_transition_batch actor caller app i expected revoke e t) (d, n) = Ok (d', n') →
  dom (cas_app_member_invitations d') = dom (cas_app_member_invitations d).
Proof.
  unfold invitation_transition_batch, requireAppActor.
  intros [_ (r & Hr & _ & Hrun)%run_changed_inv]%run_guard_inv.
  apply run_cons_inv in Hrun as (d2 & n2 & Hins & (m & ->)%run_snapshot_inv).
  assert (cas_app_member_invitations d2 = <[i := set_invitation_status (if revoke then Revoked else Expired) r]>
    (cas_app_member_invitations d)) as E.
  { unfold appAuditStatement, insert_where in Hins. destruct (active_identity _ _ _); [|by injection Hins as <- <-].
    by apply insert_row_inv in Hins as (-> & _). }
  cbn. rewrite E, dom_insert_L. apply elem_of_dom_2 in Hr. set_solver.
Qed.
Lemma ends_transition actor caller app i revoke t : ends (transitionAppInvitation actor caller app i revoke t).
Proof.
  unfold transitionAppInvitation. apply ends_seq; [by intros w _ _; split_and!|intros e].
  unfold commitAccountAppInvitationTransition, commit.
  apply covers_catch; [apply loop_true| |].
  - apply ends_seq; [|intros n; apply ends_ret]. apply ends_external. intros w. cbn [command_stmts].
    destruct (run_statements _ _) as [[d n]|err] eqn:Hrun.
    + split_and!; [done| |done]. by eapply transition_dom.
    + split_and!; [done..|]. by destruct err.
  - intros err He. destruct (negb _); [by apply covers_throw|].
    apply ends_seq; [|intros usable; apply ends_ret]. unfold isUsableAppActor.
    apply ends_seq; [apply ends_read|intros account]. apply ends_seq; [apply ends_read|intros identity].
    destruct (_ && _); [apply ends_read|apply ends_ret].
Qed.

(** ** A turn *)

Context (actor : Actor) (caller : Caller) (app : string) (t : Z).

Definition expire_turn (after : string) : ControlAct (list AppMemberInvitation) :=
  expired ← listAppMemberInvitations app (Some Pending) (Some t) after 100;
  _ ← for_each expired (λ i, _ ← transitionAppInvitation actor caller app i false t; mret tt);
  mret expired.
Definition next_after (after : string) (expired : list AppMemberInvitation) : string :=
  match last expired with Some i => inv_invitationId i | None => after end.

Lemma expire_unfold fuel after w : expire_invitations (S fuel) actor caller app t after w
  = (expired ← expire_turn after;
     if Z.of_nat (length expired) <? 100 then mret tt
     else expire_invitations fuel actor caller app t (next_after after expired)) w.
Proof.
  cbn [expire_invitations]. unfold expire_turn, mbind, M_bind.
  destruct (listAppMemberInvitations _ _ _ _ _ w) as [[l|e] w1]; [|done].
  by destruct (for_each _ _ w1) as [[[]|e] w2].
Qed.

(** The invitations past [after]. *)
Definition past_ids (after : string) (w : ControlWorld) : gset string :=
  filter (λ i, str_ltb after i = true) (dom (cas_app_member_invitations (cw_db w))).

Lemma listed_in d after l i :
  l = limited 100 (invitation_rows d app (Some Pending) (Some t) after) → i ∈ l →
  inv_invitationId i ∈ dom (cas_app_member_invitations d) ∧ str_ltb after (inv_invitationId i) = true.
Proof.
  intros -> Hi. apply subseteq_take in Hi. unfold invitation_rows in Hi.
  apply list_elem_of_fmap in Hi as ([k r] & -> & [Hr Hp]%select_in). cbn.
  split; [by eapply elem_of_dom_2|]. rewrite !andb_true_iff in Hp. tauto.
Qed.

Lemma turn_ends after : ends (expire_turn after).
Proof.
  unfold expire_turn. apply ends_seq; [apply ends_read|intros l].
  apply ends_seq; [|intros _; apply ends_ret].
  apply covers_for_each; [apply loop_true|]. intros i _. apply ends_seq; [apply ends_transition|intros _; apply ends_ret].
Qed.
(** In quiet a full turn goes past an invitation that is there. *)
Lemma turn_quiet after w expired w' : cw_sched w = [] → expire_turn after w = (Ok expired, w') →
  100 ≤ Z.of_nat (length expired) →
  cw_sched w' = [] ∧ (size (past_ids (next_after after expired) w') < size (past_ids after w))%nat.
Proof.
  intros Hq Hrun Hlen.
  pose proof (turn_ends after w I I) as Hk. rewrite Hrun in Hk. destruct Hk as (_ & [Hs Hdom] & _).
  rewrite Hq in Hs. specialize (Hdom Hq). split; [destruct (cw_sched w'); [done|cbn in Hs; lia]|].
  assert (expired = limited 100 (invitation_rows (cw_db w) app (Some Pending) (Some t) after)) as He.
  { unfold expire_turn, listAppMemberInvitations, control_read, control_external, control_enter, mbind, M_bind in Hrun.
    rewrite Hq in Hrun. cbn in Hrun. destruct (for_each _ _ w) as [[[]|e] w2]; [|done]. by injection Hrun as <- _. }
  unfold next_after. destruct (last expired) as [i|] eqn:Hlast.
  2:{ apply last_None in Hlast. rewrite Hlast in Hlen. cbn in Hlen. lia. }
  apply last_Some_elem_of in Hlast. destruct (listed_in _ _ _ _ He Hlast) as [Hin Hlt].
  apply subset_size. split.
  - intros k. unfold past_ids. rewrite !elem_of_filter, Hdom. intros [Hk ?]. split; [|done].
    by eapply str_ltb_trans.
  - intros Hsub. specialize (Hsub (inv_invitationId i)). unfold past_ids in Hsub. rewrite !elem_of_filter in Hsub.
    destruct Hsub as [Hirr _]; [done|]. by rewrite str_ltb_irrefl in Hirr.
Qed.

Definition finished (r : result exn unit) : Prop := match r with Ok _ => True | Throw e => not_fuel e end.

Lemma quiet_finishes fuel after w : cw_sched w = [] → (size (past_ids after w) < fuel)%nat →
  finished (fst (expire_invitations fuel actor caller app t after w)).
Proof.
  revert after w. induction fuel as [|fuel IH]; intros after w Hq Hf; [lia|]. rewrite expire_unfold.
  pose proof (turn_ends after w I I) as Hk. unfold mbind, M_bind.
  destruct (expire_turn after w) as [[expired|e] w'] eqn:Hrun; [|by destruct Hk as (_ & _ & ?)].
  destruct (Z.ltb_spec (Z.of_nat (length expired)) 100); [done|].
  destruct (turn_quiet after w expired w' Hq Hrun) as [Hq' Hsize]; [lia|]. apply IH; [done|lia].
Qed.
(** A turn in which something else may happen uses it up. *)
Lemma turn_uses after w expired w' : cw_sched w ≠ [] → expire_turn after w = (Ok expired, w') →
  (length (cw_sched w') < length (cw_sched w))%nat.
Proof.
  intros Hq Hrun. unfold expire_turn, listAppMemberInvitations, control_read, control_external, mbind, M_bind in Hrun.
  unfold control_enter in Hrun. destruct (cw_sched w) as [|x l] eqn:Hs; [done|].
  destruct (ct_outcome x); [|done..].
  set (w1 := mkControlWorld (foldl _ _ _) _ _ l) in Hrun.
  change (gets _ w1) with (Ok (E := exn) (limited 100 (invitation_rows (cw_db w1) app (Some Pending) (Some t) after)), w1) in Hrun.
  cbn iota beta in Hrun.
  assert (ends (for_each (limited 100 (invitation_rows (cw_db w1) app (Some Pending) (Some t) after))
    (λ i, _ ← transitionAppInvitation actor caller app i false t; mret tt))) as Hl.
  { apply covers_for_each; [apply loop_true|]. intros i _. apply ends_seq; [apply ends_transition|intros _; apply ends_ret]. }
  specialize (Hl w1 I I). unfold mbind, M_bind in Hl, Hrun. destruct (for_each _ _ w1) as [[[]|e] w2]; [|done].
  injection Hrun as _ <-. destruct Hl as (_ & [Hl _] & _). cbn in Hl |- *. lia.
Qed.

(** C10: Listing the invitations of an App comes to an end: whatever the database holds, and
    whatever others do to it in the meantime, some number of turns is enough for the loop
    that expires invitations to return, or to fail for a reason of its own. *)
Theorem expire_invitations_ends after w :
  ∃ turns, ∀ fuel, (turns ≤ fuel)%nat →
    fst (expire_invitations fuel actor caller app t after w) ≠ Throw (Error "out of fuel").
Proof.
  assert (∃ turns, ∀ fuel, (turns ≤ fuel)%nat →
    finished (fst (expire_invitations fuel actor caller app t after w))) as (turns & Hturns).
  2:{ exists turns. intros fuel Hf E. specialize (Hturns fuel Hf). rewrite E in Hturns. by apply Hturns. }
  remember (length (cw_sched w)) as n eqn:Hn. revert after w Hn. induction n as [n IH] using lt_wf_ind.
  intros after w ->. destruct (decide (cw_sched w = [])) as [Hq|Hq].
  { exists (S (size (past_ids after w))). intros fuel Hf. apply quiet_finishes; [done|lia]. }
  pose proof (turn_ends after w I I) as Hk.
  destruct (expire_turn after w) as [[expired|e] w'] eqn:Hrun.
  - pose proof (turn_uses after w expired w' Hq Hrun) as Hlt.
    destruct (IH _ Hlt (next_after after expired) w' eq_refl) as (turns & Hturns).
    exists (S turns). intros [|fuel] Hf; [lia|]. rewrite expire_unfold. unfold mbind, M_bind. rewrite Hrun.
    destruct (_ <? _); [done|]. apply Hturns. lia.
  - exists 1%nat. intros [|fuel] Hf; [lia|]. rewrite expire_unfold. unfold mbind, M_bind. rewrite Hrun.
    by destruct Hk as (_ & _ & ?).
Qed.
End turns.
