(* ===== verification/ControlExample.v ===== *)
(** A concrete control plane: the services over a database that starts empty, with a hash,
    random bytes and parsers that can be computed. Ada is the first administrator; she
    creates an App, invites Bob to it and patches it; Bob proves his address. The
    theorems' witnesses evaluate on these worlds. *)
From Stdlib Require Import Ascii.
From S2P Require Import Prelude Js JsString JsonText MapSum Errors Safe Codec World ControlStore.
From S2P Require Import AccountBatches InvitationBatches ControlWorld ControlInv ControlRuns.
From S2P Require Import ControlCommands ControlSafe ControlValidation AccountRepo Account.
From S2P Require Import ControlHistory CredentialSafe AppSafe InvitationSafe ChallengeSafe.
From S2P Require PlatformInvitations EmailChallenge.

(** 32 bytes that tell the texts of the example apart. *)
#[global] Instance control_sha : Sha256 := λ bs,
  let sum := foldl (λ acc b, (acc * 31 + byte_val b) mod 2 ^ 64) 7 bs in
  (λ i : nat, to_byte (Z.shiftr sum (8 * Z.of_nat i) + Z.of_nat i)) <$> seq 0 32.
#[global] Instance control_bytes : Entropy := λ n, to_byte (Z.of_nat n * 37 + 11).
#[global] Instance control_urls : UrlParser := λ s, Some (mkUrlParts "https:" "" "" s "" "" s).
#[global] Instance control_jws : CompactJws := {
  compactVerify := λ _ _ _, None;
  decodeProtectedHeader := λ _, None
}.
#[global] Instance control_secrets : P.InvitationSecrets := { P.seal := Ok; P.unseal := Ok }.
#[global] Instance control_emails : P.EmailPattern := email_pattern.

Definition control_options : AccountServiceOptions := mkAccountOptions None None None.
Definition control_codes : ControlAct string := EmailChallenge.generateSixDigitCode 10.

Lemma control_discovery : discovery_harmless control_options.
Proof. exact I. Qed.
Lemma control_codes_harmless : harmless control_codes.
Proof.
  unfold control_codes. generalize 10%nat as fuel. induction fuel as [|fuel IH];
    cbn [EmailChallenge.generateSixDigitCode]; harmless.
Qed.

(** What a step returns, with something else when it throws. *)
Definition answer {A} (otherwise : A) (r : result exn A) : A := match r with Ok a => a | Throw _ => otherwise end.

(** ** The first administrator *)

Definition empty_control : ControlWorld := mkControlWorld ControlDb_empty 1000 0 [].
Definition ada_joined := createForExternalIdentity github "https://github.com" "1" (Some "Ada") None empty_control.
(** Who signed in as a subject of an issuer. *)
Definition actor_of (issuer subject : string) (w : ControlWorld) : Actor :=
  match find_active (cw_db w) issuer subject with
  | Some e => mkActor (id_account_id (ext_row e)) (externalIdentityId e)
  | None => mkActor EmptyString EmptyString
  end.
Definition ada : Actor := Eval vm_compute in actor_of "https://github.com" "1" (snd ada_joined).
(** Nothing in the services makes the first administrator: the operator does. *)
Definition with_admin : ControlWorld :=
  set_control_db (put Authorities (actorAccountId ada, AppsCreate) 1000
    (put Authorities (actorAccountId ada, PlatformAdmin) 1000 (cw_db (snd ada_joined)))) (snd ada_joined).
Definition bob_joined := createForExternalIdentity google "https://accounts.google.com" "2" (Some "Bob") None with_admin.
Definition bob : Actor := Eval vm_compute in actor_of "https://accounts.google.com" "2" (snd bob_joined).
Definition control_start : ControlWorld := snd bob_joined.

Lemma step_ok {A} (m : ControlAct A) w : harmless m → control_ok (cw_db w) → control_ok (cw_db (snd (m w))).
Proof. intros Hm Hw. specialize (Hm w Hw I). destruct (m w) as [[?|?] ?]; apply Hm. Qed.
Lemma control_start_ok : control_ok (cw_db control_start).
Proof.
  apply step_ok; [auto with harmless nocore|].
  assert (control_ok (cw_db (snd ada_joined))) as Hada.
  { apply step_ok; [auto with harmless nocore|apply control_ok_empty]. }
  assert (account_stored (cw_db (snd ada_joined)) (actorAccountId ada) = true) as Hst by (vm_compute; reflexivity).
  edestruct (put_authority (cw_db (snd ada_joined)) (actorAccountId ada, PlatformAdmin) 1000 Hada Hst) as [H1 _].
  by edestruct (put_authority _ (actorAccountId ada, AppsCreate) 1000 H1 Hst) as [H2 _].
Qed.
Lemma control_aliases w : cas_account_aliases (cw_db w) = ∅ → ∀ a, no_alias a w.
Proof. intros E a. unfold no_alias. by rewrite E. Qed.

(** ** An App *)

Definition no_caller : Caller := mkCaller None None None None None.
Definition app_created := createApp ada no_caller "Notes" (Some "key-1") control_start.
Definition example_app : App := answer (mkApp EmptyString (mkAppRow EmptyString EmptyString AppActive 0 0)) (fst app_created).
Definition app_renamed := patchApp ada no_caller (app_appId example_app)
  (mkPatch (Some (JStr "Diary")) None None) (Some (formatCasAdminETag 1)) (snd app_created).
(** Bob is invited, by his address. *)
Definition bob_invited := createAppMemberInvitation ada no_caller (app_appId example_app)
  (Some (JStr "bob@example.com")) None (snd app_created).
Definition bob_token : string := Eval vm_compute in
  str_drop (String.length "/admin/invitations/") (rc_acceptUrl (answer (mkReceipt EmptyString EmptyString 0 0) (fst bob_invited))).
(** Bob is sent a code, answers with it, and accepts. *)
Definition bob_binding : EmailChallengeBinding :=
  mkBinding AppInvitation (rc_invitationId (answer (mkReceipt EmptyString EmptyString 0 0) (fst bob_invited)))
    (sha256Hex bob_token) "https://accounts.google.com" "2" "auth-1" "bob@example.com".
Definition bob_challenged := startChallenge control_codes bob_binding (snd bob_invited).
Definition bob_start : EmailChallenge.EmailChallengeStart := Eval vm_compute in
  answer (EmailChallenge.mkStart EmptyString bob_binding EmptyString EmptyString EmptyString 0) (fst bob_challenged).
Definition bob_verified := EmailChallenge.verify (EmailChallenge.cs_challengeId bob_start) bob_binding
  (EmailChallenge.cs_secret bob_start) (EmailChallenge.cs_code bob_start) (snd bob_challenged).
Definition bob_evidence : VerifiedEmailEvidence :=
  answer (mkEvidence EmptyString GoogleOidc 0 0 EmptyString None) (fst bob_verified).
Definition bob_accepted := acceptAppMemberInvitation bob no_caller bob_token [bob_evidence] (snd bob_verified).

(** A step is unfolded before what it runs. *)
#[local] Strategy expand [ada_joined bob_joined app_created app_renamed bob_invited bob_challenged bob_verified bob_accepted].

(** Each is reached by calls that keep the invariant. *)
Lemma app_created_ok : control_ok (cw_db (snd app_created)).
Proof. apply step_ok; [auto with harmless nocore|apply control_start_ok]. Qed.
Lemma bob_invited_ok : control_ok (cw_db (snd bob_invited)).
Proof. apply step_ok; [auto with harmless nocore|apply app_created_ok]. Qed.
Lemma bob_challenged_ok : control_ok (cw_db (snd bob_challenged)).
Proof. apply step_ok; [apply harmless_start, control_codes_harmless|apply bob_invited_ok]. Qed.
Lemma bob_verified_ok : control_ok (cw_db (snd bob_verified)).
Proof. apply step_ok; [apply harmless_verify|apply bob_challenged_ok]. Qed.

(** * The theorems at work *)

Lemma ran {A} (r : result exn A * ControlWorld) a : fst r = Ok a → r = (Ok a, snd r).
Proof. destruct r as [r w]. cbn. by intros ->. Qed.

Lemma control_history_safe_witness :
  let w := control_history control_options control_codes
    [CreateAppOf ada no_caller "Notes" None; SetPlatformAuthority ada (actorAccountId ada) PlatformAdmin false None]
    control_start in
  control_ok (cw_db w) ∧ has_admin (cw_db w).
Proof.
  intros w. destruct (control_history_safe control_options control_codes control_discovery control_codes_harmless
    [CreateAppOf ada no_caller "Notes" None; SetPlatformAuthority ada (actorAccountId ada) PlatformAdmin false None]
    control_start control_start_ok) as (Hok & Hk & _).
  split; [exact Hok|]. apply Hk. exists (actorAccountId ada). split; vm_compute; reflexivity.
Defined.

(** Ada blocks Bob, whose session of before is refused even when he is restored. *)
Definition bob_session := authorizeCredential (actorAccountId bob) (actorExternalIdentityId bob) 1 control_start.
Lemma revoked_credential_refused_witness :
  let w := snd (revocation (actorAccountId bob) (ByBlock ada None) (snd bob_session)) in
  let w' := control_history control_options control_codes [SetPlatformBlocked ada (actorAccountId bob) false None] w in
  usable_account (cw_db w') (actorAccountId bob) = true
  ∧ ∃ e, fst (authorizeCredential (actorAccountId bob) (actorExternalIdentityId bob) 1 w') = Throw e.
Proof.
  intros w w'. split; [vm_compute; reflexivity|].
  destruct (fst bob_session) as [r|] eqn:Hr; [|vm_compute in Hr; discriminate].
  apply (revoked_credential_refused control_options control_codes [] [SetPlatformBlocked ada (actorAccountId bob) false None]
    control_start (actorAccountId bob) (actorExternalIdentityId bob) (actorExternalIdentityId bob) 1 (ByBlock ada None) r).
  - exact control_discovery.
  - exact control_codes_harmless.
  - exact control_start_ok.
  - vm_compute. reflexivity.
  - exact Hr.
  - vm_compute. reflexivity.
Defined.

Definition app_again := createApp ada no_caller "Notes" (Some "key-1")
  (control_history control_options control_codes
     [PatchAppOf ada no_caller (app_appId example_app) (mkPatch (Some (JStr "Diary")) None None)
        (Some (formatCasAdminETag 1))] (snd app_created)).
Lemma createApp_idempotent_witness :
  fst app_again = Ok example_app ∧ app_stored (cw_db (snd app_again)) (app_appId example_app) = true.
Proof.
  assert (fst app_again = Ok example_app) as H2 by (vm_compute; reflexivity). split; [exact H2|].
  assert (fst app_created = Ok example_app) as H1 by (vm_compute; reflexivity).
  assert (cw_clock (snd app_again) < ap_created_at (app_row example_app) + CAS_ADMIN_IDEMPOTENCY_RETENTION_MS) as Ht
    by (vm_compute; reflexivity).
  apply (createApp_idempotent control_options control_codes control_discovery control_codes_harmless _ control_start
    ada ada no_caller no_caller "Notes" "Notes" "key-1" example_app example_app (snd app_created) (snd app_again)
    control_start_ok (control_aliases control_start ltac:(vm_compute; reflexivity) _) eq_refl
    (ran _ _ H1) (ran _ _ H2) Ht).
Defined.

Lemma patchApp_no_lost_update_witness :
  fst app_renamed = Ok 2
  ∧ ∃ e, fst (patchApp ada no_caller (app_appId example_app) (mkPatch None (Some (JStr "mine")) None)
                (Some (formatCasAdminETag 1)) (snd app_renamed)) = Throw e.
Proof.
  assert (fst app_renamed = Ok 2) as H by (vm_compute; reflexivity). split; [exact H|].
  destruct (patchApp_no_lost_update control_options control_codes control_discovery control_codes_harmless [] (snd app_created)
    ada ada no_caller no_caller (app_appId example_app) (mkPatch (Some (JStr "Diary")) None None)
    (mkPatch None (Some (JStr "mine")) None) (Some (formatCasAdminETag 1)) 2 (snd app_renamed)
    app_created_ok (control_aliases (snd app_created) ltac:(vm_compute; reflexivity) _) (ran _ _ H))
    as (n & (t & Ht & Hn) & _ & Hstale).
  apply Hstale. injection Ht as <-. vm_compute in Hn. injection Hn as <-. reflexivity.
Defined.

Lemma bob_no_alias : no_alias (actorAccountId bob) (snd bob_verified).
Proof. apply control_aliases. vm_compute. reflexivity. Qed.
Lemma bob_accepted_ran : acceptAppMemberInvitation bob no_caller bob_token [bob_evidence] (snd bob_verified)
  = (Ok (app_appId example_app), snd bob_accepted).
Proof. apply (ran bob_accepted). vm_compute. reflexivity. Qed.

Lemma bob_verified_ran : EmailChallenge.verify (EmailChallenge.cs_challengeId bob_start) bob_binding
    (EmailChallenge.cs_secret bob_start) (EmailChallenge.cs_code bob_start) (snd bob_challenged)
  = (Ok bob_evidence, snd bob_verified).
Proof. apply (ran bob_verified). vm_compute. reflexivity. Qed.
Lemma verify_sound_witness :
  fst bob_verified = Ok bob_evidence
  ∧ ∀ i c, cas_email_challenges (cw_db (snd bob_verified)) !! i = Some c →
      ec_attempt_count c ≤ EMAIL_CHALLENGE_MAX_ATTEMPTS.
Proof.
  assert (fst bob_verified = Ok bob_evidence) as H by (vm_compute; reflexivity). split; [exact H|].
  destruct (verify_sound (snd bob_challenged) (EmailChallenge.cs_challengeId bob_start) bob_binding
    (EmailChallenge.cs_secret bob_start) (EmailChallenge.cs_code bob_start) bob_evidence (snd bob_verified)
    bob_challenged_ok bob_verified_ran) as [_ Hall].
  intros i c Hc. apply (Hall i c Hc).
Defined.
