(* ===== verification/Witnesses.v ===== *)
(** A concrete service: a hash function and a bucket that can be computed, the empty
    world, and the worlds that a client leaves that uploads two nodes, a leaf and a
    parent of it, and adds a Root Ref to the parent. Each property with hypotheses is
    applied to a concrete state in which they hold. *)
From Stdlib Require Import Ascii.
From stdpp Require Import sorting.
From S2P Require Import Prelude Js JsonText MapSum Errors Safe Codec Validation CanonicalStream.
From S2P Require Import Store SpaceCommits DoNames Http World UsageInv RefInv RootInv NodeLease.
From S2P Require Import NodeLeaseD1 Described NodeLeaseSafe Gc WorldInv LeaseInv GcInv RootRefs.
From S2P Require Import RootSafe RootCanon AuditReads AuditSafe DomainDo NodeRead NodeReadSafe.
From S2P Require Import SpaceDo SpaceSafe AppGc AppGcSafe.
From S2P Require Import Uri SpaceId SpaceRoutes AppSpaceAuth SpaceActor CapabilityManager.
From S2P Require Import HttpClient.
From S2P Require NodeContent.

Definition leaf_bytes : bytes := encodeNode "text/plain" [] [Byte.x41; Byte.x42; Byte.x43].
Definition leaf_digest : bytes := replicate 32 Byte.x01.
Definition root_bytes : bytes := encodeNode "text/html" [leaf_digest] [Byte.x44].
Definition root_digest : bytes := replicate 32 Byte.x02.

(** A function with 32 byte results under which the two nodes have hashes of
    their own. *)
#[global] Instance example_sha : Sha256 := λ bs,
  if bool_decide (bs = leaf_bytes) then leaf_digest
  else if bool_decide (bs = root_bytes) then root_digest
  else replicate 32 Byte.x00.

Definition leaf_hash : string := hex_of leaf_digest.
Definition root_hash : string := hex_of root_digest.
Definition example_scope : AppSpaceScope := ("app", "/space").

Notation ExampleWorld := (World MapBucket).

Definition example_start : ExampleWorld := mkWorld Db_empty ∅ 1000 [].
Definition with_sched (l : list Tick) (w : ExampleWorld) : ExampleWorld :=
  mkWorld (w_db w) (w_bucket w) (w_clock w) l.

(** One lease request for [hash] with the upload identifier [id]. *)
Definition example_input (hash id : string) : LeaseInput ExampleWorld :=
  mkLeaseInput hash 3600000 (mret (id, upload_key id)) noLimits None None None Date_now.
Definition example_lease (hash id : string) : Act MapBucket LeaseDrivenNodeUploadResult :=
  leaseDrivenNodeUpload (example_input hash id) example_scope.

(** A client puts the bytes during the next call. *)
Definition upload_tick (id : string) (body : bytes) : Tick := mkTick Served 5 [ClientPut id body].

Definition step1 := example_lease leaf_hash "u1" example_start.
Definition step2 := example_lease leaf_hash "u1" (with_sched [upload_tick "u1" leaf_bytes] (snd step1)).
Definition step3 := example_lease root_hash "u2" (snd step2).
Definition step4 := example_lease root_hash "u2" (with_sched [upload_tick "u2" root_bytes] (snd step3)).


(** * The invariant of these worlds *)

Lemma db_inv_empty : db_inv Db_empty.
Proof.
  split; [| |split|].
  - split; try done. by exists (λ _, O).
  - split; [apply map_Forall_empty|]. intros s. unfold projected, expected_usage.
    unfold nodes_usage, reservations_usage, nodes_of, reservations_of.
    cbn [cas_nodes cas_upload_reservations Db_empty]. by rewrite !map_filter_empty.
  - done.
  - done.
  - split; try done.
    + intros app rev. simpl. split; [by intros [? ?]|]. unfold Db_empty. simpl.
      rewrite lookup_empty. simpl. lia.
    + exists (λ _, []). split; [done|]. intros k. done.
  - done.
  - done.
Qed.

Lemma example_start_inv : world_inv example_start.
Proof. split; [apply db_inv_empty|done|done]. Qed.

Lemma with_sched_inv l w : world_inv w → world_inv (with_sched l w).
Proof. intros [? ? ?]. by split. Qed.

Lemma example_app_scope : app_scope example_scope.
Proof. repeat constructor; done. Qed.

Lemma example_lease_inv hash id w : world_inv w → world_inv (snd (example_lease hash id w)).
Proof.
  intros Hw.
  assert (safe world_I (λ _, True) (example_lease hash id)
    (truthful row_at present_at leased_at (example_input hash id) example_scope)) as Hs.
  { apply (lease_driven_safe frozen_I world_I app_scope row_at present_at leased_at lease_within is_upload_key).
    - apply example_app_scope.
    - apply safe_ret. intros _ _. by exists id.
    - apply Date_now_safe. }
  specialize (Hs w Hw I). destruct (example_lease hash id w) as [[r|e] w']; apply Hs.
Qed.

(** Both nodes are there. *)
Definition example_world : ExampleWorld := snd step4.

Lemma example_world_inv : world_inv example_world.
Proof.
  unfold example_world, step4, step3, step2, step1.
  repeat (apply example_lease_inv || apply with_sched_inv). apply example_start_inv.
Qed.

Example example_world_ready :
  fst step4 = Ok (LeaseReady root_hash (mkLease 1005 3601005))
  ∧ edge (w_db example_world) (example_scope, root_hash) (example_scope, leaf_hash).
Proof.
  split; [vm_compute; reflexivity|]. exists O, leaf_hash. split; vm_compute; reflexivity.
Qed.

(** Its App counts one Root Ref on the parent; then the leases run out. *)
Definition example_changes : option Json := Some (JObj [(root_hash, JInt 1)]).
Definition step5 :=
  forwardRootRefs (mret 0) None example_scope (Some (JStr "request-1")) example_changes example_world.
Definition example_rooted : ExampleWorld := snd (sleep 7200000 (snd step5)).

Lemma example_distinct : distinct_keys example_changes.
Proof. intros members [= <-]. repeat constructor; set_solver. Qed.

Lemma example_random_pure : ∀ w : ExampleWorld, snd ((mret 0 : Act MapBucket Z) w) = w.
Proof. done. Qed.

Lemma sleep_inv ms (w : ExampleWorld) : world_inv w → world_inv (snd (sleep ms w)).
Proof. intros Hw. pose proof (sleep_safe ms w Hw I) as H. simpl in *. apply H. Qed.

Lemma example_rooted_inv : world_inv example_rooted.
Proof.
  unfold example_rooted, step5. apply sleep_inv.
  pose proof (forward_safe (mret 0) None example_random_pure example_scope (Some (JStr "request-1"))
    example_changes example_app_scope example_distinct _ example_world_inv I) as H.
  destruct (forwardRootRefs _ _ _ _ _ _) as [[r|e] w]; apply H.
Qed.

Example example_rooted_counted : fst step5 = Ok (success_response (mkUpdateResult false 1)).
Proof. vm_compute. reflexivity. Qed.

(** An equation of two closed terms, left to the virtual machine. *)
Ltac by_vm := match goal with |- _ = ?b => vm_cast_no_check (eq_refl b) end.

(** A world in which nothing else happens. *)
Lemma quiet_gated s (w : ExampleWorld) : w_sched w = [] → gated s w.
Proof. unfold gated. intros ->. constructor. Qed.
Lemma example_rooted_gated : gated example_scope example_rooted.
Proof. apply quiet_gated. vm_compute. reflexivity. Qed.

Lemma run_eq {A} (m : Act MapBucket A) w : m w = (fst (m w), snd (m w)).
Proof. by destruct (m w). Qed.

(** * The theorems at work *)

#[global] Instance example_scan : ScanOrder := λ l, l.
#[global] Instance example_scan_laws : ScanOrderLaws.
Proof. intros l. reflexivity. Qed.

Lemma gc_keeps_reachable_witness :
  let run := collectExpiredUnreferencedNodes example_scope (Some 10) Date_now example_rooted in
  world_inv example_rooted ∧ world_inv (snd run)
  ∧ is_Some (object_at (example_scope, leaf_hash) (snd run)).
Proof.
  intros run. split; [apply example_rooted_inv|].
  destruct (gc_keeps_reachable example_scope (Some 10) example_rooted (snd run) (fst run)
    example_rooted_inv example_rooted_gated (run_eq _ _)) as (Hinv & Hkeep & _).
  split; [exact Hinv|].
  destruct (cas_nodes (w_db example_rooted) !! (example_scope, root_hash)) as [row|] eqn:Hrow;
    [|vm_compute in Hrow; discriminate].
  apply (Hkeep root_hash row (example_scope, leaf_hash) Hrow).
  - left. vm_compute. eexists. reflexivity.
  - eapply rtc_l; [|apply rtc_refl]. exists O, leaf_hash. split; vm_compute; reflexivity.
Defined.

Lemma root_refs_counted_once_witness :
  let run := forwardRootRefs (mret 0) None example_scope (Some (JStr "request-1")) example_changes
    example_world in
  ∃ c, counted_once example_scope c 1 (snd run).
Proof.
  intros run.
  destruct (root_refs_counted_once (mret 0) None example_random_pure example_scope
    (Some (JStr "request-1")) example_changes example_world (snd run) (fst run)
    example_app_scope example_distinct example_world_inv (run_eq _ _)) as (_ & _ & Hcount).
  destruct (Hcount (mkUpdateResult false 1)) as (c & _ & Hc); [vm_compute; reflexivity|].
  exists c. exact Hc.
Defined.

Lemma canonicalize_canonical_witness :
  ∃ c, canonicalizeRootRefsUpdate (Some (JStr "request-1")) example_changes = Ok c
       ∧ canonical_ok c.
Proof.
  destruct (canonicalizeRootRefsUpdate (Some (JStr "request-1")) example_changes) as [c|] eqn:Hc;
    [|vm_compute in Hc; discriminate].
  exists c. split; [reflexivity|].
  apply (canonicalize_canonical "request-1" [(root_hash, JInt 1)] c); [|exact Hc].
  apply (example_distinct _ eq_refl).
Defined.


Lemma leaf_collision_free : collision_free leaf_hash.
Proof.
  assert (∀ a, hex_of (sha256 a) = leaf_hash → a = leaf_bytes) as Ha.
  { intros a. unfold sha256, example_sha. case_bool_decide; [done|].
    case_bool_decide; intros He; vm_compute in He; discriminate. }
  intros a b ->%Ha ->%Ha. reflexivity.
Qed.

Lemma leaf_node : node_of leaf_hash "text/plain" [] [Byte.x41; Byte.x42; Byte.x43].
Proof.
  split_and!; [| |split|].
  - split; [vm_compute; split; discriminate|reflexivity].
  - constructor.
  - by repeat split.
  - vm_compute. split_and!; discriminate.
  - vm_compute. reflexivity.
Qed.

(** What a client reads of the leaf. *)
Notation example_read :=
  (readNodeContent (W:=ExampleWorld) example_scope leaf_hash (Some "bytes=1-")) (only parsing).
Definition example_answer : NodeContentStream :=
  match fst (example_read example_rooted) with
  | Ok (Some answer) => answer
  | _ => mkContentStream [] EmptyString 0 [] None
  end.

Lemma example_read_eq :
  example_read example_rooted = (Ok (Some example_answer), snd (example_read example_rooted)).
Proof.
  rewrite (run_eq example_read) at 1.
  assert (fst (example_read example_rooted) = Ok (Some example_answer)) as -> by (vm_compute; reflexivity).
  reflexivity.
Qed.

Lemma readNodeContent_correct_witness :
  cs_body example_answer = [[Byte.x42; Byte.x43]]
  ∧ ∃ range, serves "text/plain" [] [Byte.x41; Byte.x42; Byte.x43] range example_answer.
Proof.
  split; [vm_compute; reflexivity|].
  destruct (readNodeContent_correct example_scope leaf_hash (Some "bytes=1-") example_rooted
    example_answer _ "text/plain" [] _ leaf_collision_free leaf_node
    example_rooted_inv example_read_eq) as (range & _ & Hs & _).
  exists range. exact Hs.
Defined.

(** ** Pages of Root Refs *)

(** A second update, after which two nodes have Root Refs. *)
Definition example_more : option Json := Some (JObj [(leaf_hash, JInt 2)]).
Notation example_second :=
  (forwardRootRefs (mret 0) None example_scope (Some (JStr "request-2")) example_more example_rooted)
  (only parsing).
Definition example_two_roots : ExampleWorld := snd example_second.

Lemma example_two_roots_inv : world_inv example_two_roots.
Proof.
  assert (distinct_keys example_more) as Hd.
  { intros members [= <-]. repeat constructor; set_solver. }
  pose proof (forward_safe (mret 0) None example_random_pure example_scope (Some (JStr "request-2"))
    example_more example_app_scope Hd _ example_rooted_inv I) as H.
  unfold example_two_roots. destruct (forwardRootRefs _ _ _ _ _ _) as [[r|e] w]; apply H.
Qed.

Definition page_or_empty (r : result exn AppRootRefsPage) : AppRootRefsPage :=
  match r with Ok page => page | Throw _ => mkRefsPage 0 [] None end.
Notation example_pages text :=
  (listAppRootRefs (B:=MapBucket) "app" None (Some 1) text) (only parsing).
Definition example_page1 := page_or_empty (fst (example_pages None example_two_roots)).
Definition example_between : ExampleWorld := snd (example_pages None example_two_roots).
Definition example_cursor : string := default EmptyString (pg_nextCursor example_page1).
Definition example_page2 :=
  page_or_empty (fst (example_pages (Some example_cursor) example_between)).
Definition example_walked : ExampleWorld :=
  snd (example_pages (Some example_cursor) example_between).

Lemma example_run_ok {A} (m : Act MapBucket A) w a : fst (m w) = Ok a → m w = (Ok a, snd (m w)).
Proof. intros <-. apply run_eq. Qed.

Lemma example_page1_run : fst (example_pages None example_two_roots) = Ok example_page1.
Proof. by_vm. Qed.
Lemma example_page2_run : fst (example_pages (Some example_cursor) example_between) = Ok example_page2.
Proof. by_vm. Qed.
Lemma example_page1_next : pg_nextCursor example_page1 = Some example_cursor.
Proof. by_vm. Qed.
Lemma example_page2_next : pg_nextCursor example_page2 = None.
Proof. by_vm. Qed.

Lemma example_between_inv : world_inv example_between.
Proof.
  pose proof (listAppRootRefs_safe (w_db example_two_roots) "app" None (Some 1) None
    example_two_roots example_two_roots_inv (log_grows_refl _)) as H.
  unfold example_between. destruct (listAppRootRefs _ _ _ _ _) as [[p|e] w]; apply H.
Qed.

Lemma example_page1_step :
  example_pages None example_two_roots = (Ok example_page1, example_between).
Proof. exact (example_run_ok _ _ _ example_page1_run). Qed.
Lemma example_page2_step :
  example_pages (Some example_cursor) example_between = (Ok example_page2, example_walked).
Proof. exact (example_run_ok _ _ _ example_page2_run). Qed.

Lemma example_walk :
  walk "app" None (Some 1) None example_two_roots [example_page1; example_page2] example_walked.
Proof.
  exact (walk_next "app" None (Some 1) None _ _ _ _ _ _ _ example_page1_step example_page1_next
    example_between_inv (log_grows_refl _)
    (walk_last "app" None (Some 1) _ _ _ _ example_page2_step example_page2_next)).
Qed.

Lemma root_ref_pages_complete_witness :
  br_count <$> concat (pg_refs <$> [example_page1; example_page2]) = [2; 1]
  ∧ StronglySorted row_lt (concat (pg_refs <$> [example_page1; example_page2])).
Proof.
  split; [vm_compute; reflexivity|].
  destruct (root_ref_pages_complete "app" None (Some 1) example_two_roots
    [example_page1; example_page2] example_walked example_walk example_two_roots_inv
    ltac:(vm_compute; discriminate)) as (d & _ & _ & _ & _ & Hs).
  exact Hs.
Defined.


(** ** The service *)

Definition example_env : SpaceCasDoEnv :=
  mkSpaceEnv (Some "account") (Some "bucket") (Some "key") (Some "secret") None None.
Definition example_sign (key secret url : string) (expiry : Z) (headers : list (string * string))
    : result exn string := Ok (url +:+ "?X-Amz-Expires=" +:+ show expiry).
Definition example_request (method path : string) (body : Json) : SpaceRequest :=
  mkSpaceRequest method path (λ _, None)
    (λ name, if bool_decide (name = "X-CAS-App-Id") then Some "app"
             else if bool_decide (name = "X-CAS-Space-Id") then Some "/space"
             else if bool_decide (name = "X-CAS-Hash") then Some leaf_hash else None)
    (of_chars (JSON_stringify body)).
Definition example_post : SpaceRequest :=
  example_request "POST" "/lease" (JObj [("leaseDurationMs", JInt 3600000)]).
Definition example_collect : SpaceRequest := example_request "POST" "/gc" (JObj []).
Definition example_get : SpaceRequest := example_request "GET" "/read" JNull.

Notation example_fetch :=
  (space_fetch (B:=MapBucket) example_env example_sign (mret "u1") (mret 0)) (only parsing).

(** The client asked for a lease and got an upload; its bytes arrive while it asks
    again; then the garbage is collected. *)
Definition example_asked : ExampleWorld := snd step1.
Notation example_leased :=
  (example_fetch example_post (arrive 0 [upload_tick "u1" leaf_bytes] example_asked)) (only parsing).
Notation example_collected :=
  (example_fetch example_collect (arrive 1000 [] (snd example_leased))) (only parsing).
Definition example_ready_lease : NodeLeaseRecord := mkLease 1000 3601000.

Definition example_after_lease : ExampleWorld := snd example_leased.
Definition example_after_gc : ExampleWorld :=
  snd (example_fetch example_collect (arrive 1000 [] example_after_lease)).

Lemma example_lease_run : fst example_leased = Ok (json_reply (json_ready leaf_hash example_ready_lease)).
Proof. by_vm. Qed.
Lemma example_collect_run :
  fst (example_fetch example_collect (arrive 1000 [] example_after_lease))
  = Ok (json_reply (json_gc (mkGcResult 0 0 0))).
Proof. by_vm. Qed.

Lemma example_admitted request delay sched (w : ExampleWorld) :
  Forall (λ t, Forall (foreign example_scope) (tk_env t)) sched →
  physicalScope request = inl example_scope → admitted request (arrive delay sched w).
Proof.
  intros Hs Hp scope Hp'. rewrite Hp in Hp'. injection Hp' as <-.
  split; [apply example_app_scope|exact Hs].
Qed.

Lemma example_lease_step :
  example_leased = (Ok (json_reply (json_ready leaf_hash example_ready_lease)), example_after_lease).
Proof. exact (example_run_ok _ _ _ example_lease_run). Qed.
Lemma example_collect_step :
  example_fetch example_collect (arrive 1000 [] example_after_lease)
  = (Ok (json_reply (json_gc (mkGcResult 0 0 0))), example_after_gc).
Proof. exact (example_run_ok _ _ _ example_collect_run). Qed.

Lemma example_history :
  history example_env example_sign (mret "u1") (mret 0) example_asked
    [(example_post, json_reply (json_ready leaf_hash example_ready_lease));
     (example_collect, json_reply (json_gc (mkGcResult 0 0 0)))] example_after_gc.
Proof.
  refine (history_step _ _ _ _ _ 0 [upload_tick "u1" leaf_bytes] _ _ example_after_lease _ _ _
    example_lease_step
    (history_step _ _ _ _ _ 1000 [] _ _ example_after_gc _ _ _ example_collect_step
      (history_nil _ _ _ _ _))).
  - apply example_admitted; [|reflexivity]. repeat constructor.
  - apply example_admitted; [constructor|reflexivity].
Qed.

Lemma example_uuid_pure : ∀ w : ExampleWorld, snd ((mret "u1" : Act MapBucket string) w) = w.
Proof. done. Qed.

Lemma example_asked_inv : world_inv example_asked.
Proof. apply example_lease_inv, example_start_inv. Qed.

Lemma ready_node_readable_witness :
  w_clock example_after_gc + Z.max 0 5000 < leaseExpiresAt example_ready_lease
  ∧ ∃ refs body,
      fst (example_fetch example_get (arrive 5000 [] example_after_gc))
      = Ok (ContentReply 200
              (content_headers "text/plain" refs [Byte.x41; Byte.x42; Byte.x43]) body)
      ∧ concat body = [Byte.x41; Byte.x42; Byte.x43].
Proof.
  assert (w_clock example_after_gc + Z.max 0 5000 < leaseExpiresAt example_ready_lease) as Hlt
    by (vm_compute; reflexivity).
  split; [exact Hlt|].
  destruct (ready_node_readable example_env example_sign (mret "u1") (mret 0)
    example_uuid_pure example_random_pure example_scope leaf_hash example_ready_lease example_post example_get
    example_asked _ example_after_gc 5000 "text/plain" [] _ leaf_collision_free leaf_node
    example_asked_inv eq_refl eq_refl example_history eq_refl eq_refl eq_refl eq_refl Hlt)
    as (refs & body & Hrun & Hbody & _).
  exists refs, body. split; [exact Hrun|exact Hbody].
Defined.

(** ** A client over HTTP *)

Definition example_call : VerifiedAppSpaceCall := mkCall "app" "/space" "user" "token-1" "key-1" [].
Definition client_sends (q : result exn ClientRequest) (route : AppSpaceRoute) : SpaceRequest :=
  match q with
  | Ok q => match dispatchSpaceRequest (public_request "token" q) route example_call with
            | Ok (Forward _ r) => r
            | _ => example_get
            end
  | Throw _ => example_get
  end.
Definition client_lease : SpaceRequest :=
  client_sends (leaseNode_request "app" "/space" (points leaf_hash) 3600000) (leaseRoute "app" "/space" (points leaf_hash)).
Definition client_read : SpaceRequest :=
  client_sends (readNode_request "app" "/space" (points leaf_hash)) (readContent "app" "/space" (points leaf_hash)).
Notation client_leased :=
  (example_fetch client_lease (arrive 0 [upload_tick "u1" leaf_bytes] example_asked)) (only parsing).
Definition client_after_lease : ExampleWorld := snd client_leased.

Lemma client_lease_run : fst client_leased = Ok (json_reply (json_ready leaf_hash example_ready_lease)).
Proof. by_vm. Qed.
Lemma client_lease_step :
  client_leased = (Ok (json_reply (json_ready leaf_hash example_ready_lease)), client_after_lease).
Proof. exact (example_run_ok _ _ _ client_lease_run). Qed.
Lemma client_history :
  history example_env example_sign (mret "u1") (mret 0) example_asked
    [(client_lease, json_reply (json_ready leaf_hash example_ready_lease))] client_after_lease.
Proof.
  refine (history_step _ _ _ _ _ 0 [upload_tick "u1" leaf_bytes] _ _ client_after_lease _ _ _
    client_lease_step (history_nil _ _ _ _ _)).
  apply example_admitted; [repeat constructor|vm_compute; reflexivity].
Qed.
Lemma client_forwards q route r :
  q = Ok r → matchAppSpaceRoute (cq_method r) (Some (cq_url r)) = Some route →
  (∃ key, dispatchSpaceRequest (public_request "token" r) route example_call = Ok (Forward key (client_sends q route))) →
  forwarded "app" "/space" "token" r (client_sends q route).
Proof. intros -> Hm [key Hd]. by exists route, example_call, key. Qed.
Lemma client_lease_forwarded : ∃ q, leaseNode_request "app" "/space" (points leaf_hash) 3600000 = Ok q
  ∧ forwarded "app" "/space" "token" q client_lease.
Proof.
  eexists. split; [vm_compute; reflexivity|]. eapply client_forwards; [vm_compute; reflexivity..|].
  eexists. vm_compute. reflexivity.
Qed.
Lemma client_read_forwarded : ∃ q, readNode_request "app" "/space" (points leaf_hash) = Ok q
  ∧ forwarded "app" "/space" "token" q client_read.
Proof.
  eexists. split; [vm_compute; reflexivity|]. eapply client_forwards; [vm_compute; reflexivity..|].
  eexists. vm_compute. reflexivity.
Qed.

Lemma client_reads_leased_witness :
  ∃ answer chunks, fst (example_fetch client_read (arrive 5000 [] client_after_lease)) = Ok answer
    ∧ readNode_answer leaf_hash (http_response answer)
      = Ok (NodeContent.mkNodeMetadata leaf_hash 3 "text/plain" [], chunks)
    ∧ concat chunks = [Byte.x41; Byte.x42; Byte.x43].
Proof.
  destruct client_lease_forwarded as (lq & Hlq & Hlf). destruct client_read_forwarded as (rq & Hrq & Hrf).
  assert (w_clock client_after_lease + Z.max 0 5000 < 3601000) as Hlt by (vm_compute; reflexivity).
  destruct (client_reads_leased example_env example_sign (mret "u1") (mret 0) example_uuid_pure example_random_pure
    "app" "/space" "token" "token" 3600000 leaf_hash lq rq client_lease client_read example_asked _ _
    client_after_lease 5000 1000 3601000 "text/plain" [] _ eq_refl leaf_collision_free leaf_node example_asked_inv
    eq_refl Hlq Hlf client_history eq_refl Hrq Hrf Hlt) as (answer & chunks & H1 & _ & H2 & H3).
  exists answer, chunks. split; [exact H1|]. split; [exact H2|exact H3].
Defined.

(** ** The App *)

Definition example_during (w : ExampleWorld) (request : SpaceRequest) : Z * list Tick := (0, []).
Notation example_actors :=
  (space_actors example_env example_sign (mret "u1") (mret 0) example_during) (only parsing).
Notation example_app_gc :=
  (runAppGarbageCollection example_actors "app" None None (Some 50)) (only parsing).
Definition example_app_result : AppGcResult := mkAppGcResult 1 0 0 0 0 None.
Lemma example_app_gc_run : fst (example_app_gc example_rooted) = Ok example_app_result.
Proof. by_vm. Qed.

(** An App of two Spaces in which nothing can be collected, asked to collect one. *)
#[local] Instance two_spaces : AppGcSpaceRepository unit := λ _ after limit,
  mret (take (Z.to_nat limit) (filter (λ s, str_ltb after s = true) ["/a"; "/b"])).
Definition nothing_collected (key : list ascii) (request : SpaceRequest) : M exn unit Reply :=
  mret (json_reply (JObj [("examined", JInt 3); ("deleted", JInt 0); ("reclaimedContentBytes", JInt 0)])).
Definition first_space : AppGcResult := mkAppGcResult 1 0 3 0 0 (Some (encodeAppGcCursor "app" "/a")).
Lemma first_space_run :
  runAppGarbageCollection nothing_collected "app" None (Some 1) (Some 50) tt = (Ok first_space, tt).
Proof. by_vm. Qed.
Lemma app_gc_bounded_witness :
  0 ≤ ag_spacesExamined first_space ≤ 1
  ∧ ∃ after rows, resumes "app" None after ∧ ascending (after :: rows)
      ∧ last (take 1 rows) = Some "/a" ∧ resumes "app" (ag_nextCursor first_space) "/a".
Proof.
  destruct (app_gc_bounded nothing_collected "app" None (Some 1) (Some 50) first_space tt tt first_space_run)
    as (H1 & _ & _ & _ & _ & after & rows & w1 & Hafter & _ & Hasc & _ & _ & _ & Hnext).
  split; [exact H1|]. exists after, rows. split; [exact Hafter|]. split; [exact Hasc|].
  destruct (Hnext _ eq_refl) as (l & Hl & Hc & _).
  assert ("/a" = l) as Ha by (apply (Hc "/a"); vm_compute; reflexivity).
  rewrite Ha. split; [exact Hl|]. apply (Hc l). reflexivity.
Defined.

Lemma example_gate : ∀ (w : ExampleWorld) request scope, physicalScope request = inl scope →
  Forall (λ t, Forall (foreign scope) (tk_env t)) (snd (example_during w request)).
Proof. constructor. Qed.
Lemma app_gc_is_history_witness :
  ∃ w1 l, world_inv w1
    ∧ history example_env example_sign (mret "u1") (mret 0) w1 l (snd (example_app_gc example_rooted))
    ∧ collects "app" l.
Proof.
  destruct (app_gc_is_history example_env example_sign (mret "u1") (mret 0) example_uuid_pure
    example_random_pure example_during example_gate "app" None None (Some 50) example_rooted
    (snd (example_app_gc example_rooted)) (Ok example_app_result) example_app_scope example_rooted_inv)
    as (w1 & l & H1 & _ & H2 & H3 & _).
  - exact (example_run_ok _ _ _ example_app_gc_run).
  - exists w1, l. split; [exact H1|]. split; [exact H2|exact H3].
Defined.

Lemma example_rooted_quiet : w_sched example_rooted = [].
Proof. vm_compute. reflexivity. Qed.
Lemma app_usage_exact_witness :
  readAppUsage "app" example_rooted
  = (if 0 <? unobserved_node_count (app_total "app" (w_db example_rooted)) then Throw EAppUsageUnavailable
     else Ok (app_total "app" (w_db example_rooted)), example_rooted).
Proof. exact (app_usage_exact "app" example_rooted example_rooted_inv example_rooted_quiet). Defined.
